(* ===== verification/_CoqProject ===== *)
-Q . S2P
Prelude.v
Errors.v
Pad.v
Varint.v
HexDigits.v
Crypto.v
Cbor.v
CborRef.v
Entry.v
Msg.v
Frame.v
Item.v
IdSum.v
Bound.v
OrderTree.v
OrderIndex.v
OrderRefine.v
OrderSpec.v
Store.v
StoreSpec.v
JournalSpec.v
NegStore.v
Negentropy.v
NegFacts.v
NegExact.v
NegRanges.v
NegRun.v
NegReply.v
NegGeneral.v
NegCut.v
NegLimit.v
NegLoss.v
Harness.v
Session.v
SessionSpec.v
SessionRounds.v
SessionDuplex.v
Limiter.v
Noise.v
NoiseSpec.v
Driver.v
DriverSpec.v
LinkClose.v
LinkSpec.v
LinkSync.v
LinkRounds.v
Fuzz.v
FuzzSpec.v
Node.v
NodeSpec.v
NodePair.v
NodeSync.v
NodeRounds.v
NodeDuplex.v
Sim.v
SimSpec.v
