(* ===== verification/Prelude.v ===== *)
(** * The racnet core, verified

    A model of the Rust crate under core/src, the core of a mesh messenger:
    signed entries are stored and journaled, and devices reconcile their
    stores over encrypted links by range-based set reconciliation. Every
    definition follows the source function of the same name; a comment gives
    the Rust idiom where the names differ.

    ** The program and its model

    From the bottom up, each file requiring the ones it calls:

    - wire/ (bytes of the protocol). [Pad]: the block sizes. [Entry]: signed
      entries, their CBOR codec, id and signature. [Msg]: the seven payloads,
      the type registry, [encode_message] and [decode_message]. [Frame]: the
      length-prefixed frames and the incremental [FrameDecoder]. [Errors]: the
      error types of wire, sync and noise.
    - store/. [Item]: the order of items. [OrderTree], [OrderIndex]: the
      weight-balanced tree and the arena of u32 links that implements it.
      [Store]: [EntryStore] with its journal, a byte string on which an
      append may stop anywhere.
    - sync/negentropy/. [Varint], [IdSum], [Bound]: the integers, id sums and
      range bounds of the protocol. [NegStore]: the trait of the item set as
      the class [NegentropyStore] with the laws the engine relies on, and its
      two implementations. [Negentropy]: the engine, over the class.
    - sync/session.rs. [Session]: [Syncer], the sessions of one link.
    - noise/. [Noise]: the XX handshake, the transport with its rekeying, the
      key pairs and the fingerprints users compare ([HexDigits] prints them).
    - link/. [Limiter]: the handshake limiter. [Driver]: [LinkDriver], the
      state machine of a link, which decodes frames, runs the handshake and
      hands messages to its [Syncer] and the shared store.
    - api/. [Node]: identity, store, limiter and live links behind one lock;
      one definition per exported call.
    - sim/. [Sim]: the discrete-event network of the protocol tests.
    - Around the crate: [Fuzz], the fuzz targets of fuzz/fuzz_targets as
      functions of the fuzzer's input, and [Harness], the line protocol of
      core/examples/negentropy_harness.rs.

    State is explicit: a method on [&mut self] takes the state and returns the
    new one. [result] has the variants of Rust's [Result] and [Panic], the
    abort of a failed [expect], assertion or index; where the source has no
    [Err], [option] is used and [None] is the abort. Noise uses the monad [M],
    which keeps the mutations made before a failure. Integers are [N] with
    their saturation, wrapping and checks written out where the source has
    them. Loops take fuel; the comment at each loop names the measure (bytes
    of the message or buffer, nodes of the arena, pending events), and the
    theorems show that the fuel the callers pass is enough, so no theorem is
    about a run that stops early.

    ** Code that is not in the repository

    minicbor, the cryptographic crates and hex (of the harness) are the
    classes [Cbor], [Crypto] and [Hex]:
    the operations the source calls with their documented laws (a decoder
    undoes its encoder and never panics; a signature verifies; decryption
    undoes encryption; Diffie-Hellman commutes; digest and key lengths). The
    theorems hold for every instance. [CborRef], [toy_crypto] and [ref_hex] are
    concrete instances, so the classes can be met and the witnesses evaluate. No
    theorem assumes that hashes do not collide: where the program relies on
    it, the collision is a disjunct of the conclusion.

    ** What is proved

    - Codecs (Varint, Bound, Entry, Msg, Frame): round trips on every
      well-formed value, soundness and totality of decoding on arbitrary
      bytes, and reassembly of frames from any segmentation.
    - Order index (OrderTree, OrderRefine, OrderSpec): the arena refines a
      sorted list without duplicates; ranks, bounds, range sums and iteration
      are the list's; the depth is logarithmic.
    - Store and journal (StoreSpec, JournalSpec): every outcome of an insert;
      crash safety of appends; recovery; any file at all opens to an error or
      to a well-formed store, and what is kept of it opens to the same store.
    - Reconciliation (NegFacts, NegExact): the engine is total and within its
      frame limit on any message; one round trip finds exactly both
      differences from a small initiator; equal sets end at once.
    - Reconciliation of large sets (NegRanges, NegRun, NegReply, NegGeneral):
      a message is a list of ranges; [split] and [answer] are reference
      definitions on ranges, which the byte-level loop refines. Every range
      left open by an answer lies inside a range it answers and is smaller,
      whatever is reported is a difference and closed, and a difference is
      reported, open, or hidden by a fingerprint collision; so the exchange
      ends after logarithmically many round trips with both differences.
    - Reconciliation cut short by the frame limit (NegCut, NegLimit,
      NegLoss): [answers] is the relation the loop follows under any limit it
      accepts. The first open range of an answer has moved on or become
      smaller, so the exchange ends under every limit ([trips]); what it
      reports is right, and complete unless sets collide or a fallback
      fingerprint is mistaken ([overlooked]). The second really happens: two
      sets for which it loses items are exhibited and evaluated.
    - Sessions (SessionSpec, SessionRounds, SessionDuplex): the session table keeps its
      invariant whatever the peer sends; a session between two honest sides,
      of one round or of many, restores both tables, brings the initiator's
      window to the responder and asks for what the initiator lacks. What a
      session needs of the engines is the record [rounds]: it holds of the
      exchange without cuts ([session_reconciles]) and under every frame
      limit ([session_limited]). Two sessions at once, one opened by each
      side, whose messages are delivered in any order the two directions
      allow, end with both restored and both windows covered
      ([session_duplex]): each is followed through its [phase], and what one
      side's inbox holds is a [merge] of what the two sent.
      Giving a session up while an answer is in flight, though, makes that
      answer a violation ([abort_in_flight]).
    - Noise (NoiseSpec): two honest parties complete the handshake; any
      interleaving of messages decrypts to what was sent, across rekeys;
      hostile input never panics; a failure is terminal.
    - Links (DriverSpec, LinkClose, LinkSpec, LinkSync, LinkRounds): a driver
      survives any bytes and keeps its invariant; the causes for which section
      7 of the protocol closes a link are the relation [closes], each with its
      reason and the frames it calls for, and a call follows it exactly
      ([disciplined], [judged]): no close without a cause, none missed, no
      other reason or frame; two drivers establish on the highest common
      version; messages are delivered,
      and feeding the frames one side queued is [handle_all] of their messages
      on the other's [Syncer], turn by turn until a session of any length is
      over; every outcome of [send].
    - Limiter: the admission rate of an address over any run, the conditions
      of admission, expiry.
    - Node (NodeSpec, NodePair, NodeSync, NodeRounds, NodeDuplex): rule
      induction over all histories of calls:
      the invariant, no abort, monotone clock and store, closes reported
      exactly once, half-open slots equal to the inbound handshakes and at
      most 32, deadlines enforced by [tick], the outcomes of authoring and
      listing; two nodes establish a link with each other's fingerprint, a
      [start_sync] brings the opener's window to the other node and leaves
      the link ready for the next, and one sync each way gives both nodes the
      union of the window; exactly so for windows of one round trip, unless a
      fingerprint is mistaken for windows of any size. What a sync brought
      is in the journal of a node that keeps one.
      Both nodes may start at once: the frames of the two sessions cross on
      the link and are taken in any order, at any clock value, and every such
      run ends with the union on both sides ([nodes_duplex]); the frames in
      flight are the messages of [session_duplex], encrypted.
    - Simulator (SimSpec): the event loop's invariant (with the clock and the
      sequence numbers within 64 bits, [room]) and termination,
      delivery and loss of streams, and the abort of a node that joins during
      a partition.
    - Fuzz targets (FuzzSpec) and the harness (Harness): the handshake and
      link targets never fail; the frame target fails exactly on a message
      that decodes and is too large to encode, and such a frame is exhibited;
      the harness prints what the engine answers and never dies by its own
      assertion.

    Shared machinery: this file (outcomes, machine integers, byte strings,
    list lemmas, runs that use up a measure, the hint databases [racnet] and [len] and the tactics that
    use them); [total] and [sat] for computations that do not abort; decoders
    as [decodes], [yields], [safe] and [spends] in Cbor.

    ** Bounds taken as hypotheses

    The order index counts entries in 32 bits: calls that may store entries
    assume the store stays below 2^32 (a frame of n bytes carries fewer than
    n entries). Session ids advance by two in 64 bits: opening a session
    assumes the next id fits. Both are [fits] in NodeSpec. The exchange over
    large sets assumes that an id names one item on both sides
    ([consistent]; an id is the digest of the entry that carries the sort
    key). Its logarithmic bound and its report without repetition hold where
    no answer is cut short by the frame limit ([roomy]: no limit, or 300 bytes
    and 81 per item of the two sets); under smaller limits the bound is
    [trips], and ids may be reported twice.
    The syncs of NodeSync ([syncable], [mutual]) are between windows that take
    one round trip at the default limit, fewer than 32 items on the opening
    side and at most 121 on the other, with nonces left for the 34 messages a
    side sends at most; those of NodeRounds and NodeDuplex ([reconcilable], [uniting]) are
    between windows of any size, with nonces for [trips] messages and the
    window. Both ask for entries that fit a frame of their own (what
    [create_entry] checks) and, where the receiving store keeps a journal, for
    one that agrees with it, room in the file and writes that succeed
    ([storing]); that two stores agree on the ids they share is [agree], an
    argument only of the two-way theorems.

    ** Not modelled

    Zeroizing of key material, Display and Debug strings, the lock around the
    node (each call is atomic), the journal's file lock and directory sync,
    platform entropy (an argument of the calls that draw it), the unspecified
    iteration order of [HashMap] (the model takes that of [map_to_list]; no
    theorem depends on it), and the overflow of counters that only grow by
    one per call (link ids, tickets). The simulator's clock and sequence
    numbers, which a caller's latency moves, abort on overflow in the model,
    as in a build with overflow checks. The harness reads ASCII lines; its standard input and
    output are lists of lines. The crate root, the tests, the binding
    generator, the placeholder server and the mobile applications are module
    declarations, tests of the modelled code, or not Rust. *)
From stdpp Require Export prelude gmap strings.
From stdpp Require Import relations.
From Stdlib Require Export Lia.
From Stdlib Require Strings.Byte.
From Stdlib Require Import NArith ZArith.

(** ** Scopes, notations, tactics *)

Declare Scope rust_scope.
Delimit Scope rust_scope with rust.

Ltac Zify.zify_post_hook ::= Z.to_euclidean_division_equations.

Create HintDb racnet.
Create Rewrite HintDb len.

(** Length of a list as a [usize]. *)
Definition lenN {A} (l : list A) : N := N.of_nat (length l).

(** ** Outcomes of fallible code

    [Ok] and [Err] are the variants of Rust's [Result]; [Panic] is the
    abort of an [expect], an [assert!] or an out-of-range index. *)
Inductive result (E A : Type) : Type :=
  | Ok (a : A)
  | Err (e : E)
  | Panic.
Arguments Ok {E A} a.
Arguments Err {E A} e.
Arguments Panic {E A}.

#[export] Instance result_ret {E} : MRet (result E) := fun A a => Ok a.
#[export] Instance result_bind {E} : MBind (result E) := fun A B f m =>
  match m with Ok a => f a | Err e => Err e | Panic => Panic end.
#[export] Instance result_fmap {E} : FMap (result E) := fun A B f m =>
  match m with Ok a => Ok (f a) | Err e => Err e | Panic => Panic end.

(** [Result::map_err]. *)
Definition map_err {E F A} (f : E -> F) (m : result E A) : result F A :=
  match m with Ok a => Ok a | Err e => Err (f e) | Panic => Panic end.

(** [Option::ok_or]. *)
Definition ok_or {E A} (o : option A) (e : E) : result E A :=
  match o with Some a => Ok a | None => Err e end.

(** [Option::expect] / [Result::expect]: absence aborts. *)
Definition expect {E A} (o : option A) : result E A :=
  match o with Some a => Ok a | None => Panic end.

Definition is_Ok {E A} (m : result E A) : Prop := exists a, m = Ok a.

(** ** Machine integers *)

Definition u8_max : N := 255.
Definition u16_max : N := 65535.
Definition u32_max : N := 4294967295.
Definition u64_max : N := 18446744073709551615.
Definition u64_mod : N := 18446744073709551616.

(** [u64::saturating_add]; [u64::saturating_sub] is [N.sub]. *)
Definition u64_saturating_add (a b : N) : N := N.min (a + b) u64_max.
(** [u64::saturating_mul]. *)
Definition u64_saturating_mul (a b : N) : N := N.min (a * b) u64_max.
(** [u64::wrapping_add], [u64::wrapping_mul]. *)
Definition u64_wrapping_add (a b : N) : N := (a + b) mod u64_mod.
Definition u64_wrapping_mul (a b : N) : N := (a * b) mod u64_mod.

(** ** Bytes *)

Abbreviation byte := Corelib.Init.Byte.byte.
Abbreviation bytes := (list Corelib.Init.Byte.byte).

Definition zero_byte : byte := Byte.x00.

(** The value of a byte, and the truncating cast [x as u8]. *)
Definition byte_val (b : byte) : N := Byte.to_N b.
Definition byte_of (n : N) : byte := default zero_byte (Byte.of_N (n mod 256)).

#[export] Instance byte_eq_dec : EqDecision byte := Byte.byte_eq_dec.
#[export] Program Instance byte_countable : Countable byte :=
  inj_countable' byte_val byte_of _.
Next Obligation.
  intros b. destruct b; reflexivity.
Qed.

(** Little- and big-endian encodings on [n] bytes ([to_le_bytes],
    [to_be_bytes]) and their inverses. *)
Fixpoint le_bytes (n : nat) (x : N) : bytes :=
  match n with
  | O => []
  | S n' => byte_of x :: le_bytes n' (x / 256)
  end.
Fixpoint le_val (bs : bytes) : N :=
  match bs with
  | [] => 0
  | b :: rest => byte_val b + 256 * le_val rest
  end.
Definition be_bytes (n : nat) (x : N) : bytes := reverse (le_bytes n x).
Definition be_val (bs : bytes) : N := le_val (reverse bs).

Arguments be_bytes : simpl never.
Arguments be_val : simpl never.

(** [<[u8] as Ord>::cmp]: lexicographic comparison. *)
Fixpoint bytes_cmp (a b : bytes) : comparison :=
  match a, b with
  | [], [] => Eq
  | [], _ :: _ => Lt
  | _ :: _, [] => Gt
  | x :: a', y :: b' =>
      match (byte_val x ?= byte_val y)%N with
      | Eq => bytes_cmp a' b'
      | c => c
      end
  end.

(** [slice::split_at], [slice::split_first] as partial functions. *)
Definition split_at {A} (n : nat) (l : list A) : option (list A * list A) :=
  if decide (n <= length l)%nat then Some (take n l, drop n l) else None.

(** [&l[lo..hi]]: out-of-range bounds abort. *)
Definition slice {A} (lo hi : nat) (l : list A) : option (list A) :=
  if decide (lo <= hi <= length l)%nat then Some (take (hi - lo) (drop lo l)) else None.

(** [u16::try_from(n)]. *)
Definition u16_try_from (n : N) : option N := if (n <=? u16_max)%N then Some n else None.

(** ** Tactics *)

(** Split conjunctions and substitute equations in the hypotheses. *)
Ltac inv_result :=
  repeat match goal with
  | H : Ok _ = Ok _ |- _ => injection H as H; subst
  | H : Err _ = Err _ |- _ => injection H as H; subst
  | H : Ok _ = Err _ |- _ => discriminate H
  | H : Err _ = Ok _ |- _ => discriminate H
  | H : Ok _ = Panic |- _ => discriminate H
  | H : Panic = Ok _ |- _ => discriminate H
  | H : Err _ = Panic |- _ => discriminate H
  | H : Panic = Err _ |- _ => discriminate H
  | H : Some _ = Some _ |- _ => injection H as H; subst
  | H : Some _ = None |- _ => discriminate H
  | H : None = Some _ |- _ => discriminate H
  end.

(** Case split on the next bind of a hypothesis about monadic code. *)
Ltac bind_case H :=
  match type of H with
  | (?m ≫= _) = _ =>
      let E := fresh "E" in destruct m eqn:E; cbn [mbind result_bind option_bind] in H
  | context [?m ≫= _] =>
      let E := fresh "E" in destruct m eqn:E; cbn [mbind result_bind option_bind] in H
  end.

(** Closed bounds and well-formedness facts, one conjunct at a time. *)
Ltac solve_bounds :=
  repeat match goal with
  | |- (_ <= _)%N => apply N.leb_le; vm_compute; reflexivity
  | |- (_ < _)%N => apply N.ltb_lt; vm_compute; reflexivity
  | |- (_ <= _)%nat => apply Nat.leb_le; vm_compute; reflexivity
  | |- (_ < _)%nat => apply Nat.ltb_lt; vm_compute; reflexivity
  | |- _ = _ => vm_compute; reflexivity
  | |- _ /\ _ => split
  | |- Forall _ _ => first [apply List.Forall_nil | apply List.Forall_cons]
  | |- True => exact I
  | |- _ => progress hnf
  end.

Ltac len := autorewrite with len in *; try lia.

(** ** Generic lemmas *)

Lemma byte_val_bound b : (byte_val b < 256)%N.
Proof. unfold byte_val. pose proof (Byte.to_N_bounded b). lia. Qed.

Lemma byte_of_val b : byte_of (byte_val b) = b.
Proof. destruct b; reflexivity. Qed.

Lemma byte_val_of n : byte_val (byte_of n) = (n mod 256)%N.
Proof.
  unfold byte_of, byte_val. destruct (Byte.of_N (n mod 256)) eqn:E.
  - cbn. by apply Byte.to_of_N.
  - apply Byte.of_N_None_iff in E. lia.
Qed.

Lemma byte_val_inj a b : byte_val a = byte_val b -> a = b.
Proof. intros H. rewrite <- (byte_of_val a), <- (byte_of_val b). by f_equal. Qed.

Lemma length_le_bytes n x : length (le_bytes n x) = n.
Proof. revert x; induction n; intros; cbn; auto. Qed.

Lemma length_be_bytes n x : length (be_bytes n x) = n.
Proof. unfold be_bytes. rewrite length_reverse. apply length_le_bytes. Qed.

Lemma le_val_le_bytes n x : le_val (le_bytes n x) = (x mod 256 ^ N.of_nat n)%N.
Proof.
  revert x; induction n as [|n IH]; intros x; cbn [le_bytes le_val].
  - change (256 ^ N.of_nat 0)%N with 1%N. rewrite N.mod_1_r. done.
  - rewrite IH, byte_val_of, Nat2N.inj_succ, N.pow_succ_r'.
    rewrite N.Div0.mod_mul_r. done.
Qed.

Lemma le_bytes_le_val bs : le_bytes (length bs) (le_val bs) = bs.
Proof.
  induction bs as [|b bs IH]; [done|]. cbn [length le_val le_bytes].
  pose proof (byte_val_bound b) as Hb. f_equal.
  - apply byte_val_inj. rewrite byte_val_of. lia.
  - replace ((byte_val b + 256 * le_val bs) / 256)%N with (le_val bs) by lia. done.
Qed.

Lemma be_val_be_bytes n x : be_val (be_bytes n x) = (x mod 256 ^ N.of_nat n)%N.
Proof. unfold be_val, be_bytes. rewrite reverse_involutive. apply le_val_le_bytes. Qed.

Lemma be_bytes_be_val bs : be_bytes (length bs) (be_val bs) = bs.
Proof.
  unfold be_val, be_bytes. rewrite <- (length_reverse bs), le_bytes_le_val.
  apply reverse_involutive.
Qed.

Lemma le_val_bound bs : (le_val bs < 256 ^ N.of_nat (length bs))%N.
Proof.
  rewrite <- (le_bytes_le_val bs) at 1. rewrite le_val_le_bytes.
  apply N.mod_lt. apply N.pow_nonzero. done.
Qed.

Lemma be_val_bound bs : (be_val bs < 256 ^ N.of_nat (length bs))%N.
Proof. unfold be_val. rewrite <- (length_reverse bs). apply le_val_bound. Qed.

Lemma bytes_cmp_refl a : bytes_cmp a a = Eq.
Proof. induction a; cbn; [done|]. by rewrite N.compare_refl. Qed.

Lemma bytes_cmp_eq a b : bytes_cmp a b = Eq <-> a = b.
Proof.
  split; [|intros ->; apply bytes_cmp_refl].
  revert b; induction a as [|x a IH]; intros [|y b]; cbn; try done.
  destruct (byte_val x ?= byte_val y)%N eqn:E; try done.
  apply N.compare_eq_iff in E. apply byte_val_inj in E as ->.
  intros H%IH. by subst.
Qed.

Lemma bytes_cmp_antisym a b : bytes_cmp b a = CompOpp (bytes_cmp a b).
Proof.
  revert b; induction a as [|x a IH]; intros [|y b]; cbn; try done.
  rewrite (N.compare_antisym (byte_val x)).
  destruct (byte_val x ?= byte_val y)%N; cbn; auto.
Qed.

Lemma bytes_cmp_trans a b c :
  bytes_cmp a b = Lt -> bytes_cmp b c = Lt -> bytes_cmp a c = Lt.
Proof.
  revert b c; induction a as [|x a IH]; intros [|y b] [|z c]; cbn; try done.
  destruct (N.compare_spec (byte_val x) (byte_val y)),
    (N.compare_spec (byte_val y) (byte_val z)),
    (N.compare_spec (byte_val x) (byte_val z)); intros;
    first [done | exfalso; lia | eauto].
Qed.

Lemma lenN_app {A} (l k : list A) : lenN (l ++ k) = (lenN l + lenN k)%N.
Proof. unfold lenN. rewrite length_app. lia. Qed.

Lemma lenN_cons {A} (x : A) l : lenN (x :: l) = (1 + lenN l)%N.
Proof. unfold lenN. cbn. lia. Qed.

Lemma lenN_concat_le {A B} (e : A -> list B) l c : (forall a, a ∈ l -> (lenN (e a) <= c)%N) ->
  (lenN (concat (map e l)) <= c * lenN l)%N.
Proof.
  induction l as [|a l IH]; intros H; [unfold lenN; cbn; lia|]. cbn [map concat]. rewrite lenN_app, lenN_cons.
  pose proof (H a ltac:(left)). pose proof (IH ltac:(intros; apply H; by right)). lia.
Qed.

Lemma split_at_app {A} (l k : list A) : split_at (length l) (l ++ k) = Some (l, k).
Proof.
  unfold split_at. rewrite length_app, decide_True by lia.
  by rewrite take_app_length, drop_app_length.
Qed.

Lemma split_at_len {A} n (l k : list A) : length l = n -> split_at n (l ++ k) = Some (l, k).
Proof. intros <-. apply split_at_app. Qed.

Lemma split_at_Some {A} n (l a b : list A) :
  split_at n l = Some (a, b) <-> l = a ++ b /\ length a = n.
Proof.
  split.
  - unfold split_at. case_decide; [|done]. intros [= <- <-].
    rewrite take_drop, length_take. split; [done|lia].
  - intros [-> <-]. apply split_at_app.
Qed.

(** Disjoint [lor] is addition: [(a << k) | b] with [b < 2^k]. *)
Lemma lor_shiftl_add a b k : (b < 2 ^ k)%N -> N.lor (N.shiftl a k) b = (a * 2 ^ k + b)%N.
Proof.
  intros Hb. assert (Hd : N.land (N.shiftl a k) b = 0%N).
  { apply N.bits_inj_iff. intros i. rewrite N.land_spec, N.bits_0.
    destruct (N.lt_ge_cases i k).
    - by rewrite N.shiftl_spec_low.
    - rewrite <- (N.mod_small b (2 ^ k)), N.mod_pow2_bits_high by done.
      apply andb_false_r. }
  by rewrite <- N.lxor_lor, <- N.add_nocarry_lxor, N.shiftl_mul_pow2.
Qed.

Lemma land_127 x : N.land x 127 = (x mod 128)%N.
Proof. change 127%N with (N.ones 7). by rewrite N.land_ones. Qed.

(** Total correctness of fallible code: [m] does not panic, and a value it
    returns satisfies [P]. *)
Definition sat {E A} (m : result E A) (P : A -> Prop) : Prop :=
  match m with Ok a => P a | Err _ => True | Panic => False end.

Lemma sat_bind {E A B} (m : result E A) (f : A -> result E B) P Q :
  sat m P -> (forall a, P a -> sat (f a) Q) -> sat (m ≫= f) Q.
Proof. destruct m; cbn; auto. Qed.

Lemma sat_mono {E A} (m : result E A) (P Q : A -> Prop) : sat m P -> (forall a, P a -> Q a) -> sat m Q.
Proof. destruct m; cbn; auto. Qed.

Lemma sat_Ok {E A} (m : result E A) P a : sat m P -> m = Ok a -> P a.
Proof. by intros H ->. Qed.

Lemma sat_no_panic {E A} (m : result E A) P : sat m P -> m <> Panic.
Proof. by intros H ->. Qed.

Lemma sat_expect {E A} (o : option A) a (P : A -> Prop) : o = Some a -> P a -> sat (@expect E A o) P.
Proof. by intros ->. Qed.

(** ** Runs that use up a measure *)

Section Measured.
Context {A S : Type} (R : relation A) (I : S -> A -> Prop) (m : S -> nat).
Context (Hstep : forall s x x', I s x -> R x x' -> exists s', I s' x' /\ (m s' < m s)%nat).

(** No run is longer than the measure it starts with. *)
Lemma measured_run n x x' s : nsteps R n x x' -> I s x -> exists s', I s' x' /\ (n + m s' <= m s)%nat.
Proof.
  intros Hn. revert s. induction Hn as [x|n x x1 x' Hd _ IH]; intros s Hx; [by exists s|].
  destruct (Hstep _ _ _ Hx Hd) as (s1 & Hx1 & Hlt). destruct (IH _ Hx1) as (s' & Hx' & Hle). exists s'. split; [done|]. lia.
Qed.

(** If a step is possible wherever [Q] does not hold, a run ends in [Q]. *)
Lemma measured_ends (Q : A -> Prop) x s : (forall s x, I s x -> Q x \/ exists x', R x x') -> I s x ->
  exists n x', nsteps R n x x' /\ Q x'.
Proof.
  intros Hq. remember (m s) as k eqn:Hk. revert s x Hk. induction k as [k IH] using lt_wf_ind. intros s x -> Hx.
  destruct (Hq _ _ Hx) as [|[x1 Hd]]; [exists 0%nat, x; split; [constructor|done]|].
  destruct (Hstep _ _ _ Hx Hd) as (s1 & Hx1 & Hlt). destruct (IH _ Hlt s1 x1 eq_refl Hx1) as (n & x' & Hn & HQ).
  exists (Datatypes.S n), x'. split; [by econstructor|done].
Qed.

End Measured.

#[export] Hint Rewrite @length_app @length_take @length_drop @length_replicate
  @length_reverse @length_fmap length_le_bytes length_be_bytes @length_resize : len.
#[export] Hint Resolve byte_val_bound bytes_cmp_refl : racnet.
