(* ===== verification/Errors.v ===== *)
(** * Error types: wire/error.rs, sync/error.rs, noise/error.rs, store/mod.rs

    The error enumerations of the crate and the mapping of a sync error to
    the wire error code that is reported to the peer. *)
From S2P Require Import Prelude.

(** wire/error.rs *)
Inductive WireError : Type :=
  | TooLarge
  | BadFrameLength (len : N)
  | BadPayloadLength (len : N)
  | Schema (what : string)
  | UnknownMsgType (ty : N)
  | Cbor (what : string)
  | TrailingBytes
  | BadSignature.

Inductive ErrorCode : Type :=
  | ProtocolViolation
  | VersionIncompatible
  | BadState
  | ResourceLimit
  | Internal.

(** [impl From<ErrorCode> for u64]: the [repr(u64)] discriminants. *)
Definition error_code_u64 (code : ErrorCode) : N :=
  match code with
  | ProtocolViolation => 1
  | VersionIncompatible => 2
  | BadState => 3
  | ResourceLimit => 4
  | Internal => 5
  end.

(** sync/error.rs *)
Module SyncError.
Inductive t : Type :=
  | Storage
  | Violation (what : string)
  | ResourceLimit
  | Malformed (what : string)
  | UnsupportedVersion (byte : N)
  | FrameLimitTooSmall (floor : N)
  | AlreadyInitiated.

Definition error_code (e : t) : ErrorCode :=
  match e with
  | Violation _ | Malformed _ => ProtocolViolation
  | Storage => Internal
  | ResourceLimit => Errors.ResourceLimit
  | UnsupportedVersion _ | FrameLimitTooSmall _ | AlreadyInitiated => Internal
  end.
End SyncError.

(** noise/error.rs *)
Module NoiseError.
Inductive t : Type :=
  | DecryptFailed
  | BadMessage
  | NonceExhausted
  | OutOfOrder
  | Entropy.

#[export] Instance t_eq_dec : EqDecision t.
Proof. solve_decision. Defined.
End NoiseError.

(** store/mod.rs *)
Module StoreError.
Inductive t : Type :=
  | Storage (what : string)
  | Capacity
  | BadSignature
  | SortKeyReserved.
End StoreError.
