(* ===== verification/Pad.v ===== *)
(** * Fixed-block padding: wire/pad.rs

    [padded_len] maps an unpadded inner-message length to its block size;
    [is_padded_len] is the gate applied to transport-epoch bodies. *)
From S2P Require Import Prelude.
Open Scope N_scope.

Definition BLOCK_SIZES : list N := [256; 512; 1024; 2048].
Definition MAX_PADDED_LEN : N := 63488.

(** [usize::div_ceil]. *)
Definition div_ceil (a b : N) : N := (a + b - 1) / b.

Definition padded_len (unpadded : N) : option N :=
  if MAX_PADDED_LEN <? unpadded then None
  else
    match list_find (fun block => unpadded <= block) BLOCK_SIZES with
    | Some (_, block) => Some block
    | None =>
        let last := default 0 (BLOCK_SIZES !! (length BLOCK_SIZES - 1)%nat) in
        let padded := div_ceil unpadded last * last in
        if padded <=? MAX_PADDED_LEN then Some padded else None
    end.

Definition is_padded_len (len : N) : bool := bool_decide (padded_len len = Some len).

(** The permitted padded lengths of PROTOCOL.md section 1.3. *)
Definition permitted (p : N) : Prop :=
  p = 256 \/ p = 512 \/ p = 1024 \/ exists k, 1 <= k <= 31 /\ p = k * 2048.

(** ** Lemmas *)

(** [padded_len] without the loop. *)
Lemma padded_len_unfold n :
  padded_len n =
    if 63488 <? n then None
    else if n <=? 256 then Some 256 else if n <=? 512 then Some 512
    else if n <=? 1024 then Some 1024 else if n <=? 2048 then Some 2048
    else let p := (n + 2047) / 2048 * 2048 in
         if p <=? 63488 then Some p else None.
Proof.
  unfold padded_len, MAX_PADDED_LEN, BLOCK_SIZES, div_ceil.
  destruct (N.ltb_spec 63488 n); [done|].
  repeat (cbn [list_find]; case_decide;
    [repeat (destruct (N.leb_spec n _); try lia; [|]); reflexivity
      || (cbn; repeat match goal with |- context [n <=? ?b] => destruct (N.leb_spec n b); try lia end; done)|]).
  cbn. repeat match goal with |- context [n <=? ?b] => destruct (N.leb_spec n b); try lia end.
  replace (n + 2048 - 1) with (n + 2047) by lia. done.
Qed.

Ltac pad_cases :=
  rewrite ?padded_len_unfold in *; cbv zeta in *;
  repeat match goal with
  | H : context [?a <=? ?b] |- _ => destruct (N.leb_spec a b)
  | H : context [?a <? ?b] |- _ => destruct (N.ltb_spec a b)
  | |- context [?a <=? ?b] => destruct (N.leb_spec a b)
  | |- context [?a <? ?b] => destruct (N.ltb_spec a b)
  end; inv_result.

Lemma padded_len_bounds n p : padded_len n = Some p -> n <= p /\ 256 <= p <= 63488.
Proof. intros H. pad_cases; lia. Qed.

Lemma padded_len_total n : n <= MAX_PADDED_LEN -> exists p, padded_len n = Some p.
Proof. unfold MAX_PADDED_LEN. intros H. pad_cases; eauto; exfalso; lia. Qed.

Lemma permitted_fixed p : permitted p -> padded_len p = Some p.
Proof.
  intros [->|[->|[->|[k [Hk ->]]]]]; try reflexivity.
  pad_cases; try lia; f_equal; lia.
Qed.

Lemma padded_len_permitted n p : padded_len n = Some p -> permitted p.
Proof.
  unfold permitted. intros H. pad_cases; try tauto.
  - right; right; right. exists 1. lia.
  - right; right; right. exists ((n + 2047) / 2048). lia.
Qed.

Lemma padded_len_idem n p : padded_len n = Some p -> padded_len p = Some p.
Proof. intros H. by eapply permitted_fixed, padded_len_permitted. Qed.

Lemma padded_len_min n p q : padded_len n = Some p -> permitted q -> n <= q -> p <= q.
Proof.
  intros H [->|[->|[->|[k [Hk ->]]]]] Hn; pad_cases; try lia.
Qed.

#[export] Hint Resolve padded_len_permitted padded_len_idem permitted_fixed : racnet.

(** ** Properties *)

(** [padded_len n] is the least permitted block of section 1.3 that holds
    [n] octets, and it is refused exactly when [n] exceeds 63 488. *)
Theorem padded_len_spec n p :
  (padded_len n = Some p <->
     permitted p /\ n <= p /\ forall q, permitted q -> n <= q -> p <= q) /\
  (padded_len n = None <-> MAX_PADDED_LEN < n) /\
  (is_padded_len n = true <-> permitted n).
Proof.
  split_and!.
  - split.
    + intros H. split_and!; eauto using padded_len_permitted, padded_len_min.
      by apply padded_len_bounds in H as [? _].
    + intros (Hp & Hn & Hmin).
      destruct (padded_len_total n) as [r Hr].
      { apply permitted_fixed, padded_len_bounds in Hp. unfold MAX_PADDED_LEN. lia. }
      rewrite Hr. f_equal. apply N.le_antisymm.
      * by eapply padded_len_min.
      * apply Hmin; [by eapply padded_len_permitted|by apply padded_len_bounds in Hr as []].
  - split; intros H.
    + destruct (N.lt_ge_cases MAX_PADDED_LEN n) as [|Hle]; [done|].
      apply padded_len_total in Hle as [p' Hp']. congruence.
    + destruct (padded_len n) as [p'|] eqn:E; [|done].
      apply padded_len_bounds in E. unfold MAX_PADDED_LEN in H. lia.
  - unfold is_padded_len. rewrite bool_decide_eq_true. split; eauto with racnet.
Qed.
