(* ===== verification/Varint.v ===== *)
(** * Negentropy varints: sync/negentropy/varint.rs

    Base-128 digits, most significant first; bit eight is set on every byte
    except the last. *)
From S2P Require Import Prelude Errors.
Open Scope N_scope.

(** The loop [for i in (0..digits).rev()]: [i] is the digit index, counted
    down from [digits]. *)
Fixpoint write_digits (n : N) (digits : nat) : bytes :=
  match digits with
  | O => []
  | S i =>
      let digit := N.land (N.shiftr n (7 * N.of_nat i)) 127 in
      byte_of (if (i =? 0)%nat then digit else N.lor digit 128) :: write_digits n i
  end.

(** [64 - n.leading_zeros()] is the bit size of [n]. *)
Definition varint_digits (n : N) : nat := N.to_nat ((N.size n + 6) / 7).

Definition write_varint (n : N) : bytes :=
  if n =? 0 then [byte_of 0] else write_digits n (varint_digits n).

(** The decoding loop; the slice is consumed one byte per iteration. *)
Fixpoint read_varint_loop (res : N) (input : bytes) : result SyncError.t (N * bytes) :=
  match input with
  | [] => Err (SyncError.Malformed "varint ends prematurely")
  | byte :: rest =>
      if N.shiftr u64_max 7 <? res then
        Err (SyncError.Malformed "varint overflows u64")
      else
        let res := N.lor (N.shiftl res 7) (N.land (byte_val byte) 127) in
        if N.land (byte_val byte) 128 =? 0 then Ok (res, rest)
        else read_varint_loop res rest
  end.

Definition read_varint (input : bytes) : result SyncError.t (N * bytes) :=
  read_varint_loop 0 input.

(** ** Specification

    The base-128 value of a digit string, and the byte string of a list of
    digits (continuation bit on all but the last). *)
Definition digits_val (acc : N) (ds : list N) : N :=
  foldl (fun a d => a * 128 + d) acc ds.

Fixpoint digits_bytes (ds : list N) : bytes :=
  match ds with
  | [] => []
  | [d] => [byte_of d]
  | d :: ds' => byte_of (d + 128) :: digits_bytes ds'
  end.

(** The digits [write_varint] emits. *)
Fixpoint digits_of (n : N) (k : nat) : list N :=
  match k with
  | O => []
  | S i => (n / 128 ^ N.of_nat i) mod 128 :: digits_of n i
  end.

Definition digit (d : N) : Prop := d < 128.

(** ** Lemmas *)

Lemma low_digit b : N.land b 127 = b mod 128.
Proof. apply land_127. Qed.

Lemma lor_128 d : d < 128 -> N.lor d 128 = d + 128.
Proof.
  intros Hd. rewrite N.lor_comm. change 128 with (N.shiftl 1 7) at 1.
  rewrite lor_shiftl_add by done. lia.
Qed.

Lemma land_128 b : b < 256 -> (N.land b 128 =? 0) = (b <? 128).
Proof.
  intros Hb. replace (N.land b 128) with (if b <? 128 then 0 else 128).
  { destruct (b <? 128); reflexivity. }
  apply N.bits_inj_iff. intros i. rewrite N.land_spec.
  change 128 with (2 ^ 7) at 3. rewrite N.pow2_bits_eqb.
  destruct (N.eqb_spec 7 i) as [<-|Hi].
  - rewrite andb_true_r. destruct (N.ltb_spec b 128).
    + rewrite N.bits_0, N.testbit_eqb. symmetry. apply N.eqb_neq. change (2 ^ 7) with 128. lia.
    + transitivity true; [reflexivity|]. symmetry. rewrite N.testbit_eqb. apply N.eqb_eq.
      change (2 ^ 7) with 128. lia.
  - rewrite andb_false_r. destruct (b <? 128); [apply N.bits_0|].
    change 128 with (2 ^ 7). rewrite N.pow2_bits_eqb. by apply N.eqb_neq.
Qed.

Lemma write_digits_eq n k : write_digits n k = digits_bytes (digits_of n k).
Proof.
  induction k as [|i IH]; [done|]. cbn [write_digits digits_of].
  rewrite low_digit, N.shiftr_div_pow2, N.pow_mul_r. change (2 ^ 7) with 128.
  destruct i as [|i]; [done|]. rewrite IH, lor_128 by (apply N.mod_lt; done). done.
Qed.

Lemma digits_of_digits n k : Forall digit (digits_of n k).
Proof. induction k; constructor; [by apply N.mod_lt|done]. Qed.

Lemma digits_val_digits_of n acc k :
  digits_val acc (digits_of n k) = acc * 128 ^ N.of_nat k + n mod 128 ^ N.of_nat k.
Proof.
  revert acc; induction k as [|i IH]; intros acc.
  - cbn. rewrite N.mod_1_r. lia.
  - cbn [digits_of]. unfold digits_val. cbn [foldl]. fold (digits_val (acc * 128 + (n / 128 ^ N.of_nat i) mod 128) (digits_of n i)).
    rewrite IH, Nat2N.inj_succ, N.pow_succ_r', (N.mul_comm 128).
    rewrite N.Div0.mod_mul_r. lia.
Qed.

Lemma varint_digits_bound n : n < 128 ^ N.of_nat (varint_digits n).
Proof.
  unfold varint_digits. rewrite N2Nat.id. change 128 with (2 ^ 7). rewrite <- N.pow_mul_r.
  eapply N.lt_le_trans; [apply N.size_gt|]. apply N.pow_le_mono_r; lia.
Qed.

Lemma varint_digits_pos n : n <> 0 -> (0 < varint_digits n)%nat.
Proof. unfold varint_digits. intros H. destruct n; [done|]. cbn. lia. Qed.

Lemma size_le_pow n k : n < 2 ^ k -> N.size n <= k.
Proof.
  intros H. destruct (N.eq_dec n 0) as [->|Hn]; [cbn; lia|].
  rewrite N.size_log2 by done. apply N.le_succ_l. apply N.log2_lt_pow2; lia.
Qed.

Lemma varint_digits_le n k : n < 128 ^ N.of_nat k -> (varint_digits n <= k)%nat.
Proof.
  unfold varint_digits. change 128 with (2 ^ 7). rewrite <- N.pow_mul_r.
  intros H%size_le_pow. lia.
Qed.

Lemma digits_val_mono ds a b : a <= b -> digits_val a ds <= digits_val b ds.
Proof.
  revert a b; induction ds as [|d ds IH]; intros a b Hab; [done|].
  apply IH. lia.
Qed.

Lemma digits_val_ge ds a : a <= digits_val a ds.
Proof.
  revert a; induction ds as [|d ds IH]; intros a; [done|].
  etransitivity; [|apply IH]. lia.
Qed.

(** One decoding step on a digit with and without the continuation bit. *)
Lemma read_step_more acc d rest :
  digit d -> acc <= N.shiftr u64_max 7 ->
  read_varint_loop acc (byte_of (d + 128) :: rest) = read_varint_loop (acc * 128 + d) rest.
Proof.
  unfold digit. intros Hd Hacc. cbn [read_varint_loop].
  destruct (N.ltb_spec (N.shiftr u64_max 7) acc); [lia|].
  rewrite byte_val_of, N.mod_small, land_128 by lia.
  destruct (N.ltb_spec (d + 128) 128); [lia|].
  rewrite low_digit. replace ((d + 128) mod 128) with d by lia.
  by rewrite lor_shiftl_add.
Qed.

Lemma read_step_last acc d rest :
  digit d -> acc <= N.shiftr u64_max 7 ->
  read_varint_loop acc (byte_of d :: rest) = Ok (acc * 128 + d, rest).
Proof.
  unfold digit. intros Hd Hacc. cbn [read_varint_loop].
  destruct (N.ltb_spec (N.shiftr u64_max 7) acc); [lia|].
  rewrite byte_val_of, N.mod_small, land_128 by lia.
  destruct (N.ltb_spec d 128); [|lia].
  rewrite low_digit, N.mod_small by lia. by rewrite lor_shiftl_add.
Qed.

Lemma read_step_overflow acc b rest :
  N.shiftr u64_max 7 < acc ->
  read_varint_loop acc (b :: rest) = Err (SyncError.Malformed "varint overflows u64").
Proof. intros H. cbn. destruct (N.ltb_spec (N.shiftr u64_max 7) acc); [done|lia]. Qed.

Lemma digits_bytes_cons d d' ds :
  digits_bytes (d :: d' :: ds) = byte_of (d + 128) :: digits_bytes (d' :: ds).
Proof. done. Qed.

(** The decoder computes the base-128 value, or reports the overflow. *)
Lemma read_varint_loop_digits acc ds rest :
  ds <> [] -> Forall digit ds ->
  read_varint_loop acc (digits_bytes ds ++ rest) =
    if digits_val acc ds <=? u64_max then Ok (digits_val acc ds, rest)
    else Err (SyncError.Malformed "varint overflows u64").
Proof.
  intros Hne Hds. revert acc. induction Hds as [|d ds Hd Hds IH]; intros acc; [done|].
  assert (Hbound : N.shiftr u64_max 7 = 144115188075855871) by reflexivity.
  destruct (N.le_gt_cases acc (N.shiftr u64_max 7)) as [Hacc|Hacc].
  - destruct ds as [|d' ds].
    + cbn [digits_bytes app]. rewrite read_step_last by done.
      unfold digits_val; cbn [foldl]. unfold digit in Hd.
      destruct (N.leb_spec (acc * 128 + d) u64_max); [done|]. unfold u64_max in *. lia.
    + rewrite digits_bytes_cons. cbn [app]. rewrite read_step_more by done.
      by rewrite IH.
  - destruct (N.leb_spec (digits_val acc (d :: ds)) u64_max) as [Hle|_].
    + exfalso. assert (Hge : acc * 128 + d <= digits_val acc (d :: ds)) by apply (digits_val_ge ds).
      unfold u64_max in *. lia.
    + destruct ds; cbn [digits_bytes app]; by apply read_step_overflow.
Qed.

Lemma write_varint_digits n :
  exists ds, ds <> [] /\ Forall digit ds /\ digits_val 0 ds = n /\
    write_varint n = digits_bytes ds.
Proof.
  unfold write_varint. destruct (N.eqb_spec n 0) as [->|Hn].
  - exists [0]. split_and!; try done. constructor; [done|constructor].
  - exists (digits_of n (varint_digits n)). split_and!.
    + pose proof (varint_digits_pos n Hn). by destruct (varint_digits n); [lia|].
    + apply digits_of_digits.
    + rewrite digits_val_digits_of, N.mod_small by apply varint_digits_bound. lia.
    + apply write_digits_eq.
Qed.

Lemma length_digits_bytes ds : length (digits_bytes ds) = length ds.
Proof.
  induction ds as [|d [|d' ds] IH]; try done. rewrite digits_bytes_cons. cbn [length].
  by rewrite IH.
Qed.

Lemma read_write_varint n rest :
  n <= u64_max -> read_varint (write_varint n ++ rest) = Ok (n, rest).
Proof.
  intros Hn. destruct (write_varint_digits n) as (ds & Hne & Hds & Hval & ->).
  unfold read_varint. rewrite read_varint_loop_digits, Hval by done.
  destruct (N.leb_spec n u64_max); [done|lia].
Qed.

(** What is read is in range and a strict suffix of the input remains. *)
Lemma read_varint_loop_sound acc input n rest :
  read_varint_loop acc input = Ok (n, rest) ->
  n <= u64_max /\ exists pre, input = pre ++ rest /\ pre <> [].
Proof.
  revert acc; induction input as [|b input IH]; intros acc; cbn [read_varint_loop]; [done|].
  destruct (N.ltb_spec (N.shiftr u64_max 7) acc) as [|Hacc]; [done|].
  destruct (N.land (byte_val b) 128 =? 0).
  - intros [= <- <-]. split; [|by exists [b]].
    rewrite low_digit, lor_shiftl_add by (apply N.mod_lt; done).
    assert (N.shiftr u64_max 7 = 144115188075855871) by reflexivity.
    pose proof (N.mod_lt (byte_val b) 128). unfold u64_max. lia.
  - intros (Hn & pre & -> & _)%IH. split; [done|]. by exists (b :: pre).
Qed.

Lemma read_varint_sound input n rest :
  read_varint input = Ok (n, rest) ->
  n <= u64_max /\ exists pre, input = pre ++ rest /\ pre <> [].
Proof. apply read_varint_loop_sound. Qed.

Lemma read_varint_no_panic input : read_varint input <> Panic.
Proof.
  unfold read_varint. generalize 0. induction input as [|b input IH]; intros acc; [done|].
  cbn [read_varint_loop]. destruct (_ <? acc); [done|]. destruct (_ =? 0); [done|]. apply IH.
Qed.

Lemma length_write_varint n : (n <= u64_max) -> (1 <= length (write_varint n) <= 10)%nat.
Proof.
  intros Hn. unfold write_varint. destruct (N.eqb_spec n 0) as [->|Hn0]; [cbn; lia|].
  rewrite write_digits_eq, length_digits_bytes.
  assert (Hlen : forall k, length (digits_of n k) = k) by (induction k; cbn; auto).
  rewrite Hlen. split; [by apply varint_digits_pos|].
  apply varint_digits_le. unfold u64_max in Hn. change (128 ^ N.of_nat 10) with 1180591620717411303424. lia.
Qed.

#[export] Hint Resolve read_varint_no_panic : racnet.

(** ** Properties *)

(** Varint round trip: decoding the encoding of any [u64] followed by
    arbitrary bytes gives the number back and leaves exactly those bytes; the
    encoding has one to ten bytes and no shorter digit string has its value. *)
Theorem varint_roundtrip n rest :
  n <= u64_max ->
  read_varint (write_varint n ++ rest) = Ok (n, rest) /\
  (length (write_varint n) <= 10)%nat /\
  (forall ds, Forall digit ds -> ds <> [] -> digits_val 0 ds = n ->
     (length (write_varint n) <= length ds)%nat).
Proof.
  intros Hn. split_and!; [by apply read_write_varint|by apply length_write_varint|].
  intros ds Hds Hne Hval. unfold write_varint. destruct (N.eqb_spec n 0) as [->|Hn0].
  { destruct ds; cbn; [done|lia]. }
  rewrite write_digits_eq, length_digits_bytes.
  assert (Hlen : forall k, length (digits_of n k) = k) by (induction k; cbn; auto).
  rewrite Hlen. apply varint_digits_le. rewrite <- Hval.
  clear -Hds. assert (Hgen : forall acc, digits_val acc ds < (acc + 1) * 128 ^ N.of_nat (length ds)).
  { induction Hds as [|d ds Hd Hds IH]; intros acc; [cbn; lia|].
    unfold digits_val in *; cbn [foldl length]. eapply N.lt_le_trans; [apply IH|].
    rewrite Nat2N.inj_succ, N.pow_succ_r', N.mul_assoc. unfold digit in Hd.
    apply N.mul_le_mono_r. lia. }
  specialize (Hgen 0). lia.
Qed.

Lemma varint_roundtrip_witness :
  300 <= u64_max /\ read_varint (write_varint 300 ++ [byte_of 171]) = Ok (300, [byte_of 171]).
Proof. split; [vm_compute; discriminate|]. apply (varint_roundtrip 300 [byte_of 171]). vm_compute; discriminate. Defined.

(** The decoder on arbitrary bytes. A complete digit string decodes to its
    base-128 value when that fits a [u64] and is the overflow error otherwise
    (never a wrapped value, redundant leading zeros included); whatever is
    accepted is in range and consumes at least one byte. *)
Theorem read_varint_spec :
  (forall ds rest, ds <> [] -> Forall digit ds ->
     read_varint (digits_bytes ds ++ rest) =
       if digits_val 0 ds <=? u64_max then Ok (digits_val 0 ds, rest)
       else Err (SyncError.Malformed "varint overflows u64")) /\
  (forall input, read_varint input <> Panic) /\
  (forall input n rest, read_varint input = Ok (n, rest) ->
     n <= u64_max /\ exists pre, input = pre ++ rest /\ pre <> []).
Proof.
  split_and!.
  - intros ds rest. apply read_varint_loop_digits.
  - apply read_varint_no_panic.
  - apply read_varint_sound.
Qed.
