(* ===== verification/HexDigits.v ===== *)
(** * Lower-case hexadecimal

    Two digits per byte, as the [{:02x}] of the standard library's formatter
    and the [hex] crate print them, and the reading of such digits, in which
    an upper-case letter counts as its lower-case one. *)
From S2P Require Import Prelude.
From Stdlib Require Ascii String.
Open Scope N_scope.

Definition digit (n : N) : Ascii.ascii := Ascii.ascii_of_N (if n <? 10 then 48 + n else 87 + n).
Definition value (c : Ascii.ascii) : option N :=
  let n := Ascii.N_of_ascii c in
  if (48 <=? n) && (n <=? 57) then Some (n - 48)
  else if (97 <=? n) && (n <=? 102) then Some (n - 87)
  else if (65 <=? n) && (n <=? 70) then Some (n - 55)
  else None.

Fixpoint encode (bs : bytes) : string :=
  match bs with
  | [] => String.EmptyString
  | b :: bs => String.String (digit (byte_val b / 16)) (String.String (digit (byte_val b mod 16)) (encode bs))
  end.

Fixpoint decode (s : string) : option bytes :=
  match s with
  | String.EmptyString => Some []
  | String.String a (String.String b s) =>
      x ← value a; y ← value b; bs ← decode s; Some (byte_of (16 * x + y) :: bs)
  | _ => None
  end.

(** A lower-case digit. *)
Definition is_digit (c : Ascii.ascii) : bool :=
  let n := Ascii.N_of_ascii c in ((48 <=? n) && (n <=? 57)) || ((97 <=? n) && (n <=? 102)).

Lemma is_digit_plain c : is_digit c = true -> 48 <= Ascii.N_of_ascii c.
Proof. unfold is_digit. cbv zeta. rewrite orb_true_iff, !andb_true_iff, !N.leb_le. lia. Qed.

(** All sixteen digits. *)
Lemma digit_ok n : n < 16 -> value (digit n) = Some n /\ is_digit (digit n) = true.
Proof.
  intros Hn. assert (H : forallb (fun k => bool_decide (value (digit k) = Some k) && is_digit (digit k))
    (map N.of_nat (seq 0 16)) = true) by (vm_compute; reflexivity).
  rewrite forallb_forall in H. specialize (H n). rewrite andb_true_iff, bool_decide_eq_true in H. apply H.
  apply in_map_iff. exists (N.to_nat n). split; [lia|]. apply in_seq. lia.
Qed.

Lemma halves b : byte_val b / 16 < 16 /\ byte_val b mod 16 < 16.
Proof. pose proof (byte_val_bound b). lia. Qed.

Lemma hex_decode_encode bs : decode (encode bs) = Some bs.
Proof.
  induction bs as [|b bs IH]; [done|]. cbn [encode decode]. destruct (halves b) as [H1 H2].
  rewrite (proj1 (digit_ok _ H1)), (proj1 (digit_ok _ H2)), IH. cbn [mbind option_bind].
  rewrite <- N.div_mod by done. by rewrite byte_of_val.
Qed.

Lemma encode_digits bs : Forall (fun c => is_digit c = true) (String.list_ascii_of_string (encode bs)).
Proof.
  induction bs as [|b bs IH]; [constructor|]. cbn. destruct (halves b) as [H1 H2].
  repeat constructor; [apply (digit_ok _ H1)|apply (digit_ok _ H2)|done].
Qed.

Lemma encode_length bs : String.length (encode bs) = (2 * length bs)%nat.
Proof. induction bs as [|b bs IH]; [done|]. cbn [encode String.length length]. rewrite IH. lia. Qed.

Lemma encode_inj bs bs' : encode bs = encode bs' -> bs = bs'.
Proof. intros H. apply (f_equal decode) in H. rewrite !hex_decode_encode in H. by injection H. Qed.
