(* ===== verification/Crypto.v ===== *)
(** * Interface to the cryptographic primitives

    The crate calls sha2, ed25519-dalek, chacha20poly1305, hmac and
    curve25519-dalek; none of them is under src/. [Crypto] lists the
    operations the code calls, with the documented facts it relies on.
    [toy_crypto] is a concrete (insecure) instance that satisfies them; the
    witnesses use it to evaluate the model. *)
From S2P Require Import Prelude.
Open Scope N_scope.

Class Crypto := {
  (** sha2: [Sha256::digest]. *)
  sha256 : bytes -> bytes;
  (** hmac: [Hmac<Sha256>] over a 32-byte key. *)
  hmac_sha256 : bytes -> bytes -> bytes;
  (** ed25519-dalek: [SigningKey::verifying_key().to_bytes()], [sign],
      [VerifyingKey::from_bytes] (does it decode?) and [verify_strict]. *)
  ed_verifying_key : bytes -> bytes;
  ed_sign : bytes -> bytes -> bytes;
  ed_key_ok : bytes -> bool;
  ed_verify_strict : bytes -> bytes -> bytes -> bool;
  (** chacha20poly1305: key, 12-byte nonce, associated data, message. *)
  aead_encrypt : bytes -> bytes -> bytes -> bytes -> option bytes;
  aead_decrypt : bytes -> bytes -> bytes -> bytes -> option bytes;
  (** curve25519-dalek: [mul_base_clamped] and [mul_clamped]. *)
  x25519_base : bytes -> bytes;
  x25519 : bytes -> bytes -> bytes;

  sha256_length m : length (sha256 m) = 32%nat;
  hmac_length k m : length (hmac_sha256 k m) = 32%nat;
  ed_verifying_key_length s : length (ed_verifying_key s) = 32%nat;
  ed_sign_length s m : length (ed_sign s m) = 64%nat;
  ed_key_ok_verifying_key s : ed_key_ok (ed_verifying_key s) = true;
  ed_verify_sign s m : ed_verify_strict (ed_verifying_key s) m (ed_sign s m) = true;
  (** Encryption succeeds far beyond the 63 488-byte messages of the wire. *)
  aead_encrypt_total k n ad p : lenN p <= 65535 -> is_Some (aead_encrypt k n ad p);
  aead_decrypt_encrypt k n ad p c :
    aead_encrypt k n ad p = Some c -> aead_decrypt k n ad c = Some p;
  aead_encrypt_length k n ad p c :
    aead_encrypt k n ad p = Some c -> length c = (length p + 16)%nat;
  aead_decrypt_length k n ad c p :
    aead_decrypt k n ad c = Some p -> length c = (length p + 16)%nat;
  x25519_base_length s : length (x25519_base s) = 32%nat;
  x25519_length s p : length (x25519 s p) = 32%nat;
  (** Diffie-Hellman agreement. *)
  x25519_comm a b : x25519 a (x25519_base b) = x25519 b (x25519_base a);
}.

#[export] Hint Rewrite @sha256_length @hmac_length @ed_verifying_key_length
  @ed_sign_length @x25519_base_length @x25519_length : len.

(** ** A concrete instance *)
Module Toy.

(** A polynomial checksum of a byte string on 61 bits. *)
Definition checksum (bs : bytes) : N :=
  foldl (fun a b => N.land (a * 257 + byte_val b + 1) 2305843009213693951) 0 bs.
Definition hash (n : nat) (bs : bytes) : bytes := le_bytes n (checksum bs).
Definition sign (pk msg : bytes) : bytes := hash 64 (pk ++ msg).
Definition tag (k n ad p : bytes) : bytes := hash 16 (k ++ n ++ ad ++ p).
Definition encrypt (k n ad p : bytes) : option bytes := Some (p ++ tag k n ad p).
Definition decrypt (k n ad c : bytes) : option bytes :=
  if decide (16 <= length c)%nat then
    let p := take (length c - 16) c in
    if decide (drop (length c - 16) c = tag k n ad p) then Some p else None
  else None.
(** "Public key" of a secret and a commutative "shared secret". *)
Definition base (s : bytes) : bytes := hash 32 s.
Definition shared (s p : bytes) : bytes :=
  le_bytes 32 (le_val (base s) * le_val p).

End Toy.

Lemma toy_decrypt_encrypt k n ad p c :
  Toy.encrypt k n ad p = Some c -> Toy.decrypt k n ad c = Some p.
Proof.
  intros [= <-]. unfold Toy.decrypt.
  assert (Htag : length (Toy.tag k n ad p) = 16%nat) by apply length_le_bytes.
  rewrite length_app, Htag, decide_True by lia.
  rewrite Nat.add_sub, take_app_length, drop_app_length. by rewrite decide_True.
Qed.

Lemma toy_decrypt_length k n ad c p :
  Toy.decrypt k n ad c = Some p -> length c = (length p + 16)%nat.
Proof.
  unfold Toy.decrypt. repeat case_decide; try done.
  intros [= <-]. rewrite length_take. lia.
Qed.

#[export] Instance toy_crypto : Crypto.
Proof.
  refine {|
    sha256 := Toy.hash 32;
    hmac_sha256 k m := Toy.hash 32 (k ++ m);
    ed_verifying_key := Toy.base;
    ed_sign s := Toy.sign (Toy.base s);
    ed_key_ok _ := true;
    ed_verify_strict pk m s := bool_decide (s = Toy.sign pk m);
    aead_encrypt := Toy.encrypt;
    aead_decrypt := Toy.decrypt;
    x25519_base := Toy.base;
    x25519 := Toy.shared;
    aead_decrypt_encrypt := toy_decrypt_encrypt;
    aead_decrypt_length := toy_decrypt_length;
  |}; intros; try apply length_le_bytes; try done.
  - by apply bool_decide_eq_true.
  - injection H as <-. rewrite length_app. unfold Toy.tag, Toy.hash. by rewrite length_le_bytes.
  - unfold Toy.shared. by rewrite N.mul_comm.
Defined.
