(* ===== verification/Cbor.v ===== *)
(** * Interface to minicbor

    The CBOR library is not under src/. [Cbor] lists the encoders and
    decoders the crate calls, and what [derive(Encode, Decode)] with
    [#[cbor(map)]] and [Vec<T>] generate, with their documented laws: each
    decoder undoes its encoder on every continuation of the input. *)
From S2P Require Import Prelude.
Open Scope N_scope.

(** A decoder consumes a prefix of the input; the error is the message of
    [minicbor::decode::Error]. *)
Definition decoder (A : Type) : Type := bytes -> result string (A * bytes).

Definition dec_ret {A} (a : A) : decoder A := fun bs => Ok (a, bs).
Definition dec_err {A} (e : string) : decoder A := fun _ => Err e.
Definition dec_bind {A B} (d : decoder A) (f : A -> decoder B) : decoder B :=
  fun bs => '(a, rest) ← d bs; f a rest.

(** [d] decodes the bytes [b] to [a], whatever follows. *)
Definition decodes {A} (d : decoder A) (b : bytes) (a : A) : Prop :=
  forall rest, d (b ++ rest) = Ok (a, rest).

(** The run of a [#[cbor(map)]] decoder over encoded fields: each known key
    updates the partially built struct. *)
Inductive fields_decode {R} (step : R -> N -> option (decoder R)) :
    R -> list (N * bytes) -> R -> Prop :=
  | fields_nil r : fields_decode step r [] r
  | fields_cons r k b d r1 fs r2 :
      step r k = Some d -> decodes d b r1 ->
      fields_decode step r1 fs r2 ->
      fields_decode step r ((k, b) :: fs) r2.

(** A decoder that never panics. *)
Definition safe {A} (d : decoder A) : Prop := forall bs, d bs <> Panic.
(** A decoder all of whose results satisfy [P]. *)
Definition yields {A} (d : decoder A) (P : A -> Prop) : Prop :=
  forall bs a rest, d bs = Ok (a, rest) -> P a.

(** A decoder that consumes at least [c a] octets for the value [a]. *)
Definition spends {A} (d : decoder A) (c : A -> nat) : Prop :=
  forall bs a rest, d bs = Ok (a, rest) -> (c a + length rest <= length bs)%nat.

Class Cbor := {
  (** [Encoder::array], [Encoder::u64], [Encoder::bytes]. *)
  enc_array : N -> bytes;
  enc_u64 : N -> bytes;
  enc_bytes : bytes -> bytes;
  (** [Decoder::array] ([None] is the indefinite length), [Decoder::u64],
      [minicbor::bytes::decode] at [Vec<u8>] and at [[u8; n]]. *)
  dec_array : decoder (option N);
  dec_u64 : decoder N;
  dec_bytes : decoder bytes;
  dec_byte_array : nat -> decoder bytes;
  (** [impl Encode/Decode for Vec<T>]. *)
  enc_vec {A} : (A -> bytes) -> list A -> bytes;
  dec_vec {A} : decoder A -> decoder (list A);
  (** [derive(Decode)] with [#[cbor(array)]] on a struct of two fields;
      surplus array elements are skipped. *)
  dec_pair {A B} : decoder A -> decoder B -> decoder (A * B);
  (** [derive(Encode)] and [derive(Decode)] with [#[cbor(map)]]: fields in
      ascending key order; unknown keys are skipped. *)
  enc_map : list (N * bytes) -> bytes;
  dec_map {R} : (R -> N -> option (decoder R)) -> R -> decoder R;

  dec_enc_array n : n <= u64_max -> decodes dec_array (enc_array n) (Some n);
  dec_enc_u64 n : n <= u64_max -> decodes dec_u64 (enc_u64 n) n;
  dec_enc_bytes b : lenN b <= u64_max -> decodes dec_bytes (enc_bytes b) b;
  dec_enc_byte_array n b : length b = n -> lenN b <= u64_max ->
    decodes (dec_byte_array n) (enc_bytes b) b;
  dec_enc_vec {A} (e : A -> bytes) (d : decoder A) (l : list A) :
    lenN l <= u64_max -> (forall a, a ∈ l -> decodes d (e a) a) ->
    decodes (dec_vec d) (enc_vec e l) l;
  dec_enc_pair {A B} (d1 : decoder A) (d2 : decoder B) b1 b2 a b :
    decodes d1 b1 a -> decodes d2 b2 b ->
    decodes (dec_pair d1 d2) (enc_array 2 ++ b1 ++ b2) (a, b);
  dec_enc_map {R} (step : R -> N -> option (decoder R)) r fs r' :
    lenN fs <= u64_max -> Forall (fun '(k, _) => k <= u64_max) fs ->
    fields_decode step r fs r' -> decodes (dec_map step r) (enc_map fs) r';

  safe_array : safe dec_array;
  safe_u64 : safe dec_u64;
  safe_bytes : safe dec_bytes;
  safe_byte_array n : safe (dec_byte_array n);
  safe_vec {A} (d : decoder A) : safe d -> safe (dec_vec d);
  safe_pair {A B} (d1 : decoder A) (d2 : decoder B) :
    safe d1 -> safe d2 -> safe (dec_pair d1 d2);
  safe_map {R} (step : R -> N -> option (decoder R)) r :
    (forall r k d, step r k = Some d -> safe d) -> safe (dec_map step r);
  yields_u64 : yields dec_u64 (fun n => n <= u64_max);
  yields_bytes : yields dec_bytes (fun b => lenN b <= u64_max);
  yields_byte_array n : yields (dec_byte_array n) (fun b => length b = n);
  yields_vec {A} (d : decoder A) P : yields d P ->
    yields (dec_vec d) (fun l => lenN l <= u64_max /\ Forall P l);
  yields_pair {A B} (d1 : decoder A) (d2 : decoder B) P Q :
    yields d1 P -> yields d2 Q -> yields (dec_pair d1 d2) (fun '(a, b) => P a /\ Q b);
  yields_map {R} (step : R -> N -> option (decoder R)) (P : R -> Prop) r :
    (forall r k d, P r -> step r k = Some d -> yields d P) -> P r ->
    yields (dec_map step r) P;

  (** Every data item occupies at least one octet. *)
  spends_array : spends dec_array (fun _ => 1%nat);
  spends_u64 : spends dec_u64 (fun _ => 1%nat);
  spends_bytes : spends dec_bytes (fun _ => 1%nat);
  spends_byte_array n : spends (dec_byte_array n) (fun _ => 1%nat);
  spends_vec {A} (d : decoder A) : spends d (fun _ => 1%nat) -> spends (dec_vec d) length;
  spends_map {R} (step : R -> N -> option (decoder R)) (c : R -> nat) r :
    (forall r k d, step r k = Some d -> spends d (fun r' => (c r' - c r)%nat)) ->
    spends (dec_map step r) (fun r' => (c r' - c r)%nat);

  (** A head takes at most nine octets. *)
  enc_array_length n : lenN (enc_array n) <= 9;
  enc_u64_length n : lenN (enc_u64 n) <= 9;
  enc_bytes_length b : lenN (enc_bytes b) <= 9 + lenN b;
  enc_vec_length {A} (e : A -> bytes) l : lenN (enc_vec e l) <= 9 + lenN (concat (map e l));
  enc_map_length fs : lenN (enc_map fs) <= 9 + 9 * lenN fs + lenN (concat (map snd fs));
}.

(** Sequencing in decoders. *)
Notation "'let!' x := d 'in' k" := (dec_bind d (fun x => k))
  (at level 10, x pattern, d at level 200, k at level 200) : rust_scope.
Open Scope rust_scope.

(** ** Lemmas *)

Lemma decodes_ret {A} (a : A) : decodes (dec_ret a) [] a.
Proof. done. Qed.

Lemma decodes_bind {A B} (d : decoder A) (f : A -> decoder B) b1 a b2 c :
  decodes d b1 a -> decodes (f a) b2 c -> decodes (dec_bind d f) (b1 ++ b2) c.
Proof. intros H1 H2 rest. unfold dec_bind. rewrite <- app_assoc, H1. apply H2. Qed.

Lemma decodes_bind_nil {A B} (d : decoder A) (f : A -> decoder B) b1 a c :
  decodes d b1 a -> decodes (f a) [] c -> decodes (dec_bind d f) b1 c.
Proof. intros H1 H2. rewrite <- (app_nil_r b1). by eapply decodes_bind. Qed.

Lemma safe_ret {A} (a : A) : safe (dec_ret a).
Proof. done. Qed.

Lemma safe_err {A} e : safe (@dec_err A e).
Proof. done. Qed.

Lemma safe_bind {A B} (d : decoder A) (f : A -> decoder B) :
  safe d -> (forall a, safe (f a)) -> safe (dec_bind d f).
Proof.
  intros Hd Hf bs. unfold dec_bind. specialize (Hd bs).
  destruct (d bs) as [[a rest]| |]; cbn; [apply Hf|done|done].
Qed.

Lemma yields_ret {A} (a : A) (P : A -> Prop) : P a -> yields (dec_ret a) P.
Proof. intros Ha bs a' rest [= <- _]. done. Qed.

Lemma yields_err {A} e (P : A -> Prop) : yields (dec_err e) P.
Proof. done. Qed.

Lemma yields_bind {A B} (d : decoder A) (f : A -> decoder B) P Q :
  yields d P -> (forall a, P a -> yields (f a) Q) -> yields (dec_bind d f) Q.
Proof.
  intros Hd Hf bs b rest. unfold dec_bind.
  destruct (d bs) as [[a r]| |] eqn:E; cbn; try done. apply Hf. by eapply Hd.
Qed.

Lemma yields_weaken {A} (d : decoder A) (P Q : A -> Prop) :
  yields d P -> (forall a, P a -> Q a) -> yields d Q.
Proof. intros H HPQ bs a rest E. eauto. Qed.

Lemma spends_ret {A} (a : A) c : c a = 0%nat -> spends (dec_ret a) c.
Proof. intros H bs a' rest [= <- <-]. lia. Qed.

Lemma spends_err {A} e (c : A -> nat) : spends (dec_err e) c.
Proof. done. Qed.

Lemma spends_bind {A B} (d : decoder A) (f : A -> decoder B) c c' n :
  spends d c -> (forall a, spends (f a) (c' a)) -> (forall a b, (n b <= c a + c' a b)%nat) ->
  spends (dec_bind d f) n.
Proof.
  intros Hd Hf Hn bs b rest. unfold dec_bind.
  destruct (d bs) as [[a r]| |] eqn:E; cbn; try done. intros E'.
  apply Hd in E. apply Hf in E'. specialize (Hn a b). lia.
Qed.

Lemma spends_weaken {A} (d : decoder A) (c c' : A -> nat) :
  spends d c -> (forall a, (c' a <= c a)%nat) -> spends d c'.
Proof. intros H Hc bs a rest E. apply H in E. specialize (Hc a). lia. Qed.

(** Decoding is injective: what round-trips determines its input. *)
Lemma decodes_inj {A} (d : decoder A) b a a' :
  decodes d b a -> decodes d b a' -> a = a'.
Proof. intros H1 H2. specialize (H1 []). rewrite H2 in H1. congruence. Qed.

#[export] Hint Resolve decodes_ret dec_enc_array dec_enc_u64 dec_enc_bytes
  dec_enc_byte_array safe_array safe_u64 safe_bytes safe_byte_array safe_ret
  safe_err safe_vec safe_pair yields_u64 yields_bytes yields_byte_array yields_err : racnet.
