(* ===== verification/CborRef.v ===== *)
(** * A concrete CBOR codec

    An instance of [Cbor] after RFC 8949: shortest-form heads and definite
    lengths on encoding, arrays of indefinite length too on decoding. It shows
    that the interface can be met and lets the witnesses and the test vectors
    of the crate be evaluated. *)
From S2P Require Import Prelude Cbor.
Open Scope N_scope.

Module Ref.

(** Major type [m], argument [n] (RFC 8949 section 3). *)
Definition head (m n : N) : bytes :=
  if n <? 24 then [byte_of (m * 32 + n)]
  else if n <? 256 then byte_of (m * 32 + 24) :: be_bytes 1 n
  else if n <? 65536 then byte_of (m * 32 + 25) :: be_bytes 2 n
  else if n <? 4294967296 then byte_of (m * 32 + 26) :: be_bytes 4 n
  else byte_of (m * 32 + 27) :: be_bytes 8 n.

Definition eoi : string := "end of input bytes".

(** The argument on [k] big-endian bytes. *)
Definition dec_be (m : N) (k : nat) : decoder (N * N) := fun bs =>
  match split_at k bs with
  | Some (b, rest) => Ok ((m, be_val b), rest)
  | None => Err eoi
  end.

Definition dec_head : decoder (N * N) := fun bs =>
  match bs with
  | [] => Err eoi
  | b :: rest =>
      let m := byte_val b / 32 in
      let ai := byte_val b mod 32 in
      if ai <? 24 then Ok ((m, ai), rest)
      else if ai =? 24 then dec_be m 1 rest
      else if ai =? 25 then dec_be m 2 rest
      else if ai =? 26 then dec_be m 4 rest
      else if ai =? 27 then dec_be m 8 rest
      else Err "unexpected type"%string
  end.

(** A head of the given major type. *)
Definition dec_major (m : N) : decoder N :=
  let! (m', n) := dec_head in
  if m' =? m then dec_ret n else dec_err "unexpected type".

Definition dec_arr : decoder (option N) := fun bs =>
  match bs with
  | b :: rest => if byte_val b =? 159 then Ok (None, rest)
                 else (let! n := dec_major 4 in dec_ret (Some n)) bs
  | [] => Err eoi
  end.

Definition dec_split (n : N) : decoder bytes := fun bs =>
  if lenN bs <? n then Err eoi else Ok (take (N.to_nat n) bs, drop (N.to_nat n) bs).

Definition dec_bstr : decoder bytes := let! n := dec_major 2 in dec_split n.

Definition dec_bstr_n (n : nat) : decoder bytes :=
  let! b := dec_bstr in
  if (length b =? n)%nat then dec_ret b else dec_err "invalid array length".

Fixpoint dec_n {A} (d : decoder A) (n : nat) : decoder (list A) :=
  match n with
  | O => dec_ret []
  | S n => let! a := d in let! l := dec_n d n in dec_ret (a :: l)
  end.

(** Elements up to the break octet; each takes an octet, so the input length
    is enough fuel. *)
Fixpoint dec_until {A} (d : decoder A) (fuel : nat) : decoder (list A) := fun bs =>
  match fuel, bs with
  | S fuel, b :: rest =>
      if byte_val b =? 255 then Ok ([], rest)
      else (let! a := d in let! l := dec_until d fuel in dec_ret (a :: l)) bs
  | _, _ => Err eoi
  end.

(** Arrays of definite and of indefinite length. *)
Definition dec_list {A} (d : decoder A) : decoder (list A) := fun bs =>
  match bs with
  | b :: rest =>
      if byte_val b =? 159 then
        '(l, rest) ← dec_until d (length rest) rest;
        if u64_max <? lenN l then Err eoi else Ok (l, rest)
      else (let! n := dec_major 4 in dec_n d (N.to_nat n)) bs
  | [] => Err eoi
  end.

(** Skip [todo] items; every item consumes at least its head, so the input
    length is enough fuel. *)
Fixpoint skip (fuel : nat) (todo : N) : decoder unit :=
  match fuel with
  | O => if todo =? 0 then dec_ret tt else dec_err eoi
  | S fuel =>
      if todo =? 0 then dec_ret tt
      else
        let! (m, n) := dec_head in
        if (m =? 2) || (m =? 3) then let! _ := dec_split n in skip fuel (todo - 1)
        else if m =? 4 then skip fuel (todo - 1 + n)
        else if m =? 5 then skip fuel (todo - 1 + 2 * n)
        else if m =? 6 then skip fuel todo
        else skip fuel (todo - 1)
  end.

Definition skip_item : decoder unit := fun bs => skip (length bs) 1 bs.

Fixpoint dec_fields {R} (step : R -> N -> option (decoder R)) (n : nat) (r : R) : decoder R :=
  match n with
  | O => dec_ret r
  | S n =>
      let! k := dec_major 0 in
      match step r k with
      | Some d => let! r := d in dec_fields step n r
      | None => let! _ := skip_item in dec_fields step n r
      end
  end.

Definition dec_struct {R} (step : R -> N -> option (decoder R)) (r : R) : decoder R :=
  let! n := dec_major 5 in dec_fields step (N.to_nat n) r.

Definition skip_n (n : N) : decoder unit := fun bs => skip (length bs) n bs.

Definition dec_array2 {A B} (d1 : decoder A) (d2 : decoder B) : decoder (A * B) :=
  let! n := dec_major 4 in
  if n <? 2 then dec_err "missing value" else
  let! a := d1 in let! b := d2 in let! _ := skip_n (n - 2) in dec_ret (a, b).

Definition enc_list {A} (e : A -> bytes) (l : list A) : bytes :=
  head 4 (lenN l) ++ concat (map e l).
Definition enc_struct (fs : list (N * bytes)) : bytes :=
  head 5 (lenN fs) ++ concat (map (fun '(k, b) => head 0 k ++ b) fs).
Definition enc_bstr (b : bytes) : bytes := head 2 (lenN b) ++ b.

(** ** The laws *)

Lemma decodes_be m k n : n < 256 ^ N.of_nat k -> decodes (dec_be m k) (be_bytes k n) (m, n).
Proof.
  intros Hn rest. unfold dec_be. rewrite <- (length_be_bytes k n) at 1.
  rewrite split_at_app, be_val_be_bytes. by rewrite N.mod_small.
Qed.

Lemma dec_head_cons m ai bs : m < 8 -> ai < 32 ->
  dec_head (byte_of (m * 32 + ai) :: bs) =
    if ai <? 24 then Ok ((m, ai), bs)
    else if ai =? 24 then dec_be m 1 bs
    else if ai =? 25 then dec_be m 2 bs
    else if ai =? 26 then dec_be m 4 bs
    else if ai =? 27 then dec_be m 8 bs
    else Err "unexpected type"%string.
Proof.
  intros Hm Hai. unfold dec_head. rewrite byte_val_of.
  replace ((m * 32 + ai) mod 256 / 32) with m by lia.
  replace ((m * 32 + ai) mod 256 mod 32) with ai by lia. done.
Qed.

Lemma decodes_head m n : m < 8 -> n <= u64_max -> decodes dec_head (head m n) (m, n).
Proof.
  intros Hm Hn rest. unfold head, u64_max in *.
  destruct (N.ltb_spec n 24).
  { cbn [app]. rewrite dec_head_cons by lia. destruct (N.ltb_spec n 24); [done|lia]. }
  repeat match goal with |- context [n <? ?b] => destruct (N.ltb_spec n b) end;
    cbn [app]; rewrite dec_head_cons by lia; cbn [N.ltb N.eqb N.compare Pos.compare Pos.compare_cont Pos.eqb];
    apply decodes_be; cbn; lia.
Qed.

Lemma decodes_major m n : m < 8 -> n <= u64_max -> decodes (dec_major m) (head m n) n.
Proof.
  intros Hm Hn. unfold dec_major. eapply decodes_bind_nil; [by apply decodes_head|].
  cbn. by rewrite N.eqb_refl.
Qed.

(** The head of an array is not the one of an indefinite array. *)
Lemma head_array n : exists b tl, head 4 n = b :: tl /\ (byte_val b =? 159) = false.
Proof.
  unfold head. repeat match goal with |- context [n <? ?b] => destruct (N.ltb_spec n b) end; do 2 eexists; (split; [done|]); try done.
  rewrite byte_val_of. destruct (N.eqb_spec ((4 * 32 + n) mod 256) 159); [lia|done].
Qed.

Lemma decodes_arr n : n <= u64_max -> decodes dec_arr (head 4 n) (Some n).
Proof.
  intros Hn rest.
  assert (H : (let! n := dec_major 4 in dec_ret (Some n)) (head 4 n ++ rest) = Ok (Some n, rest)).
  { eapply decodes_bind_nil; [by apply decodes_major|apply decodes_ret]. }
  destruct (head_array n) as (b & tl & E & Hb). rewrite E in *. unfold dec_arr. cbn [app] in *. by rewrite Hb.
Qed.

Lemma decodes_split b : decodes (dec_split (lenN b)) b b.
Proof.
  intros rest. unfold dec_split, lenN. rewrite length_app.
  destruct (N.ltb_spec (N.of_nat (length b + length rest)) (N.of_nat (length b))); [lia|].
  by rewrite Nat2N.id, take_app_length, drop_app_length.
Qed.

Lemma decodes_bstr b : lenN b <= u64_max -> decodes dec_bstr (enc_bstr b) b.
Proof. intros H. eapply decodes_bind; [by apply decodes_major|apply decodes_split]. Qed.

Lemma decodes_bstr_n n b : length b = n -> lenN b <= u64_max ->
  decodes (dec_bstr_n n) (enc_bstr b) b.
Proof.
  intros <- H. eapply decodes_bind_nil; [by apply decodes_bstr|].
  rewrite Nat.eqb_refl. apply decodes_ret.
Qed.

Lemma decodes_n {A} (e : A -> bytes) d l : (forall a, a ∈ l -> decodes d (e a) a) ->
  decodes (dec_n d (length l)) (concat (map e l)) l.
Proof.
  induction l as [|a l IH]; intros H; [apply decodes_ret|].
  cbn. eapply decodes_bind; [apply H; left|].
  eapply decodes_bind_nil; [apply IH; intros; apply H; by right|apply decodes_ret].
Qed.

Lemma decodes_list {A} (e : A -> bytes) d l : lenN l <= u64_max ->
  (forall a, a ∈ l -> decodes d (e a) a) -> decodes (dec_list d) (enc_list e l) l.
Proof.
  intros Hl H rest.
  assert (Hd : decodes (let! n := dec_major 4 in dec_n d (N.to_nat n)) (enc_list e l) l).
  { eapply decodes_bind; [by apply decodes_major|]. unfold lenN. rewrite Nat2N.id. by apply decodes_n. }
  specialize (Hd rest). unfold dec_list, enc_list in *.
  destruct (head_array (lenN l)) as (b & tl & E & Hb). rewrite E in *. cbn [app] in *. by rewrite Hb.
Qed.

Lemma decodes_struct {R} (step : R -> N -> option (decoder R)) r fs r' :
  lenN fs <= u64_max -> Forall (fun '(k, _) => k <= u64_max) fs ->
  fields_decode step r fs r' -> decodes (dec_struct step r) (enc_struct fs) r'.
Proof.
  intros Hl Hk Hf. eapply decodes_bind; [by apply decodes_major|].
  unfold lenN. rewrite Nat2N.id. clear Hl.
  induction Hf as [r|r k b d r1 fs r2 Hstep Hd Hf IH]; [apply decodes_ret|].
  apply Forall_cons in Hk as [Hk Hks].
  cbn [length dec_fields map concat]. rewrite <- app_assoc.
  eapply decodes_bind; [by apply decodes_major|]. rewrite Hstep.
  eapply decodes_bind; [done|]. by apply IH.
Qed.

Lemma decodes_array2 {A B} (d1 : decoder A) (d2 : decoder B) b1 b2 a b :
  decodes d1 b1 a -> decodes d2 b2 b ->
  decodes (dec_array2 d1 d2) (head 4 2 ++ b1 ++ b2) (a, b).
Proof.
  intros H1 H2. eapply decodes_bind; [by apply decodes_major|]. cbn [N.ltb N.compare Pos.compare Pos.compare_cont].
  eapply decodes_bind; [done|]. eapply decodes_bind_nil; [done|].
  eapply decodes_bind_nil; [|apply decodes_ret]. intros rest.
  unfold skip_n. by destruct (length ([] ++ rest)).
Qed.

Lemma safe_be m k : safe (dec_be m k).
Proof. intros bs. unfold dec_be. by destruct (split_at k bs) as [[]|]. Qed.

Lemma safe_head : safe dec_head.
Proof.
  intros [|b bs]; cbn; [done|].
  repeat match goal with |- context [if ?c then _ else _] => destruct c end; try done;
    apply safe_be.
Qed.

Lemma safe_major m : safe (dec_major m).
Proof.
  apply safe_bind; [apply safe_head|]. intros [m' n]. by destruct (m' =? m).
Qed.

Lemma safe_arr : safe dec_arr.
Proof.
  assert (H : safe (let! n := dec_major 4 in dec_ret (Some n))).
  { apply safe_bind; [apply safe_major|done]. }
  intros [|b bs]; [done|]. unfold dec_arr. destruct (_ =? _); [done|]. apply H.
Qed.

Lemma safe_split n : safe (dec_split n).
Proof. intros bs. unfold dec_split. by destruct (_ <? _). Qed.

Lemma safe_bstr : safe dec_bstr.
Proof. apply safe_bind; [apply safe_major|intros; apply safe_split]. Qed.

Lemma safe_bstr_n n : safe (dec_bstr_n n).
Proof. apply safe_bind; [apply safe_bstr|]. intros b. by destruct (_ =? _)%nat. Qed.

Lemma safe_n {A} (d : decoder A) n : safe d -> safe (dec_n d n).
Proof.
  intros Hd. induction n as [|n IH]; [done|].
  cbn. apply safe_bind; [done|]. intros a. apply safe_bind; [done|]. done.
Qed.

Lemma safe_until {A} (d : decoder A) fuel : safe d -> safe (dec_until d fuel).
Proof.
  intros Hd. induction fuel as [|fuel IH]; [done|]. intros [|b bs]; [done|]. cbn [dec_until].
  destruct (_ =? _); [done|]. apply (safe_bind d); [done|]. intros a. by apply safe_bind.
Qed.

Lemma safe_list {A} (d : decoder A) : safe d -> safe (dec_list d).
Proof.
  intros Hd [|b bs]; [done|]. unfold dec_list. destruct (_ =? _).
  - pose proof (safe_until d (length bs) Hd bs) as H.
    destruct (dec_until d (length bs) bs) as [[l rest]| |]; cbn; [by destruct (_ <? _)|done|done].
  - apply (safe_bind (dec_major 4)); [apply safe_major|]. intros n. by apply safe_n.
Qed.

Lemma safe_skip fuel todo : safe (skip fuel todo).
Proof.
  revert todo; induction fuel as [|fuel IH]; intros todo; cbn; destruct (todo =? 0); try done.
  apply safe_bind; [apply safe_head|]. intros [m n].
  repeat match goal with |- context [if ?c then _ else _] => destruct c end; try done.
  apply safe_bind; [apply safe_split|done].
Qed.

Lemma safe_array2 {A B} (d1 : decoder A) (d2 : decoder B) :
  safe d1 -> safe d2 -> safe (dec_array2 d1 d2).
Proof.
  intros H1 H2. apply safe_bind; [apply safe_major|]. intros n. destruct (n <? 2); [done|].
  apply safe_bind; [done|]. intros a. apply safe_bind; [done|]. intros b.
  apply safe_bind; [intros bs; apply safe_skip|done].
Qed.

Lemma safe_struct {R} (step : R -> N -> option (decoder R)) r :
  (forall r k d, step r k = Some d -> safe d) -> safe (dec_struct step r).
Proof.
  intros H. apply safe_bind; [apply safe_major|]. intros n.
  generalize (N.to_nat n). clear n. intros n. revert r. induction n as [|n IH]; intros r; [done|].
  cbn. apply safe_bind; [apply safe_major|]. intros k. destruct (step r k) eqn:E.
  - apply safe_bind; [by eapply H|done].
  - apply safe_bind; [intros bs; apply safe_skip|done].
Qed.

Lemma yields_be m k : (k <= 8)%nat -> yields (dec_be m k) (fun '(_, n) => n <= u64_max).
Proof.
  intros Hk bs [m' n] rest. unfold dec_be. destruct (split_at k bs) as [[b r]|] eqn:E; [|done].
  intros [= <- <- <-]. apply split_at_Some in E as [_ <-].
  pose proof (be_val_bound b) as Hb.
  assert (256 ^ N.of_nat (length b) <= 256 ^ 8) by (apply N.pow_le_mono_r; lia).
  change (256 ^ 8) with 18446744073709551616 in *. unfold u64_max. lia.
Qed.

Lemma yields_head : yields dec_head (fun '(_, n) => n <= u64_max).
Proof.
  intros [|b bs] [m n] rest; cbn; [done|].
  repeat match goal with |- context [if ?c then _ else _] => destruct c eqn:? end; try done;
    try (by apply yields_be; lia).
  intros [= <- <- <-]. unfold u64_max. lia.
Qed.

Lemma yields_major m : yields (dec_major m) (fun n => n <= u64_max).
Proof.
  eapply yields_bind; [apply yields_head|]. intros [m' n] Hn.
  destruct (m' =? m); [by apply yields_ret|done].
Qed.

Lemma yields_bstr : yields dec_bstr (fun b => lenN b <= u64_max).
Proof.
  eapply yields_bind; [apply yields_major|]. intros n Hn bs b rest. cbn beta in Hn.
  unfold dec_split. destruct (N.ltb_spec (lenN bs) n); [done|].
  intros [= <- _]. unfold lenN in *. rewrite length_take. lia.
Qed.

Lemma yields_bstr_n n : yields (dec_bstr_n n) (fun b => length b = n).
Proof.
  eapply yields_bind; [apply yields_bstr|]. intros b _.
  destruct (Nat.eqb_spec (length b) n); [by apply yields_ret|done].
Qed.

Lemma yields_n {A} (d : decoder A) P n : yields d P ->
  yields (dec_n d n) (fun l => length l = n /\ Forall P l).
Proof.
  intros Hd. induction n as [|n IH]; [by apply yields_ret|].
  cbn. eapply yields_bind; [done|]. intros a Ha.
  eapply yields_bind; [apply IH|]. intros l [<- Hl]. apply yields_ret. by split; [|constructor].
Qed.

Lemma yields_until {A} (d : decoder A) P fuel : yields d P -> yields (dec_until d fuel) (Forall P).
Proof.
  intros Hd. induction fuel as [|fuel IH]; [done|]. intros [|b bs] l rest; [done|]. cbn [dec_until].
  destruct (_ =? _); [intros [= <- <-]; constructor|]. revert l rest. generalize (b :: bs).
  change (yields (let! a := d in let! l := dec_until d fuel in dec_ret (a :: l)) (Forall P)).
  eapply yields_bind; [done|]. intros a Ha. eapply yields_bind; [done|]. intros l Hl. apply yields_ret. by constructor.
Qed.

Lemma yields_list {A} (d : decoder A) P : yields d P ->
  yields (dec_list d) (fun l => lenN l <= u64_max /\ Forall P l).
Proof.
  intros Hd [|b bs] l rest; [done|]. unfold dec_list. destruct (_ =? _).
  - destruct (dec_until d (length bs) bs) as [[l' r]| |] eqn:E; cbn; try done.
    destruct (N.ltb_spec u64_max (lenN l')); [done|]. intros [= <- <-]. split; [done|]. by eapply yields_until.
  - revert l rest. generalize (b :: bs). change (yields (let! n := dec_major 4 in dec_n d (N.to_nat n))
      (fun l => lenN l <= u64_max /\ Forall P l)).
    eapply yields_bind; [apply yields_major|]. intros n Hn.
    eapply yields_weaken; [by apply yields_n|]. intros l [Hl HP]. cbn beta in Hn.
    unfold lenN. rewrite Hl. split; [lia|done].
Qed.

Lemma yields_array2 {A B} (d1 : decoder A) (d2 : decoder B) P Q :
  yields d1 P -> yields d2 Q -> yields (dec_array2 d1 d2) (fun '(a, b) => P a /\ Q b).
Proof.
  intros H1 H2. eapply yields_bind with (P := fun _ => True); [done|]. intros n _.
  destruct (n <? 2); [done|].
  eapply yields_bind; [done|]. intros a Ha. eapply yields_bind; [done|]. intros b Hb.
  eapply yields_bind with (P := fun _ => True); [done|]. intros _ _. by apply yields_ret.
Qed.

Lemma yields_struct {R} (step : R -> N -> option (decoder R)) (P : R -> Prop) r :
  (forall r k d, P r -> step r k = Some d -> yields d P) -> P r -> yields (dec_struct step r) P.
Proof.
  intros H Hr. eapply yields_bind; [apply yields_major|]. intros n _.
  generalize (N.to_nat n). clear n. intros n. revert r Hr.
  induction n as [|n IH]; intros r Hr; [by apply yields_ret|].
  cbn. eapply yields_bind; [apply yields_major|]. intros k _. destruct (step r k) eqn:E.
  - eapply yields_bind; [by eapply H|]. intros r' Hr'. by apply IH.
  - eapply yields_bind with (P := fun _ => True); [done|]. intros _ _. by apply IH.
Qed.

Lemma spends_be m k : spends (dec_be m k) (fun _ => 0%nat).
Proof.
  intros bs a rest. unfold dec_be, split_at. case_decide; [|done]. intros [= _ <-]. rewrite length_drop. lia.
Qed.

Lemma spends_head : spends dec_head (fun _ => 1%nat).
Proof.
  intros [|b bs] a rest; [done|]. cbn [dec_head length].
  repeat match goal with |- context [if ?c then _ else _] => destruct c end;
    try (intros H; apply spends_be in H; lia); [|done].
  intros [= _ <-]. lia.
Qed.

Lemma spends_major m : spends (dec_major m) (fun _ => 1%nat).
Proof.
  eapply (spends_bind _ _ _ (fun _ _ => 0%nat)); [apply spends_head| |intros; cbn beta; lia].
  intros [m' n]. destruct (m' =? m); [by apply spends_ret|apply spends_err].
Qed.

Lemma spends_arr : spends dec_arr (fun _ => 1%nat).
Proof.
  intros [|b bs] a rest; [done|]. unfold dec_arr. destruct (_ =? _); [intros [= _ <-]; cbn; lia|].
  revert a rest. generalize (b :: bs). change (spends (let! n := dec_major 4 in dec_ret (Some n)) (fun _ => 1%nat)).
  eapply (spends_bind _ _ _ (fun _ _ => 0%nat)); [apply spends_major|by intros; apply spends_ret|intros; cbn beta; lia].
Qed.

Lemma spends_split n : spends (dec_split n) (fun _ => 0%nat).
Proof. intros bs a rest. unfold dec_split. destruct (_ <? _); [done|]. intros [= _ <-]. rewrite length_drop. lia. Qed.

Lemma spends_bstr : spends dec_bstr (fun _ => 1%nat).
Proof. eapply (spends_bind _ _ _ (fun _ _ => 0%nat)); [apply spends_major|apply spends_split|intros; cbn beta; lia]. Qed.

Lemma spends_bstr_n n : spends (dec_bstr_n n) (fun _ => 1%nat).
Proof.
  eapply (spends_bind _ _ _ (fun _ _ => 0%nat)); [apply spends_bstr| |intros; cbn beta; lia].
  intros b. destruct (_ =? _)%nat; [by apply spends_ret|apply spends_err].
Qed.

Lemma spends_n {A} (d : decoder A) n : spends d (fun _ => 1%nat) -> spends (dec_n d n) length.
Proof.
  intros Hd. induction n as [|n IH]; [by apply spends_ret|]. cbn [dec_n].
  intros bs l rest. unfold dec_bind. destruct (d bs) as [[a r]| |] eqn:E; cbn; try done.
  destruct (dec_n d n r) as [[l' r']| |] eqn:E'; cbn; try done. intros [= <- <-].
  apply Hd in E. apply IH in E'. cbn. lia.
Qed.

Lemma spends_until {A} (d : decoder A) fuel : spends d (fun _ => 1%nat) -> spends (dec_until d fuel) length.
Proof.
  intros Hd. induction fuel as [|fuel IH]; [done|]. intros [|b bs] l rest; [done|]. cbn [dec_until].
  destruct (_ =? _); [intros [= <- <-]; cbn; lia|]. revert l rest. generalize (b :: bs).
  change (spends (let! a := d in let! l := dec_until d fuel in dec_ret (a :: l)) length).
  intros bs' l rest. unfold dec_bind. destruct (d bs') as [[a r]| |] eqn:E; cbn; try done.
  destruct (dec_until d fuel r) as [[l' r']| |] eqn:E'; cbn; try done. intros [= <- <-].
  apply Hd in E. apply IH in E'. cbn. lia.
Qed.

Lemma spends_list {A} (d : decoder A) : spends d (fun _ => 1%nat) -> spends (dec_list d) length.
Proof.
  intros Hd [|b bs] l rest; [done|]. unfold dec_list. destruct (_ =? _).
  - destruct (dec_until d (length bs) bs) as [[l' r]| |] eqn:E; cbn; try done.
    destruct (_ <? _); [done|]. intros [= <- <-]. apply spends_until in E; [lia|done].
  - revert l rest. generalize (b :: bs). change (spends (let! n := dec_major 4 in dec_n d (N.to_nat n)) length).
    eapply (spends_bind _ _ _ (fun _ l => length l)); [apply spends_major| |intros; cbn beta; lia].
    intros n. by apply spends_n.
Qed.

Lemma spends_skip fuel todo : spends (skip fuel todo) (fun _ => 0%nat).
Proof.
  revert todo. induction fuel as [|fuel IH]; intros todo; cbn [skip].
  - destruct (todo =? 0); [by apply spends_ret|apply spends_err].
  - destruct (todo =? 0); [by apply spends_ret|].
    eapply (spends_bind _ _ _ (fun _ _ => 0%nat)); [apply spends_head| |intros; cbn beta; lia]. intros [m n].
    repeat match goal with |- context [if ?c then _ else _] => destruct c end; try apply IH.
    eapply (spends_bind _ _ _ (fun _ _ => 0%nat)); [apply spends_split|intros; apply IH|intros; cbn beta; lia].
Qed.

Lemma spends_fields {R} (step : R -> N -> option (decoder R)) (c : R -> nat) n r :
  (forall r k d, step r k = Some d -> spends d (fun r' => (c r' - c r)%nat)) ->
  spends (dec_fields step n r) (fun r' => (c r' - c r)%nat).
Proof.
  intros Hs. revert r. induction n as [|n IH]; intros r; cbn [dec_fields]; [apply spends_ret; lia|].
  eapply (spends_bind _ _ _ (fun _ r' => (c r' - c r)%nat)); [apply spends_major| |intros; cbn beta; lia].
  intros k. destruct (step r k) as [d|] eqn:E.
  - intros bs r' rest. unfold dec_bind. destruct (d bs) as [[r1 b1]| |] eqn:E1; cbn; try done.
    intros E2. apply (Hs _ _ _ E) in E1. apply IH in E2. lia.
  - eapply (spends_bind _ _ _ (fun _ r' => (c r' - c r)%nat)); [|intros; apply IH|intros; cbn beta; lia].
    intros bs a rest. apply (spends_skip (length bs) 1).
Qed.

Lemma spends_struct {R} (step : R -> N -> option (decoder R)) (c : R -> nat) r :
  (forall r k d, step r k = Some d -> spends d (fun r' => (c r' - c r)%nat)) ->
  spends (dec_struct step r) (fun r' => (c r' - c r)%nat).
Proof.
  intros Hs. eapply (spends_bind _ _ _ (fun _ r' => (c r' - c r)%nat)); [apply spends_major| |intros; cbn beta; lia].
  intros n. by apply spends_fields.
Qed.

Lemma head_length m n : lenN (head m n) <= 9.
Proof.
  unfold head, lenN. repeat match goal with |- context [if ?c then _ else _] => destruct c end;
    cbn [length]; rewrite ?length_be_bytes; lia.
Qed.

Lemma bstr_length b : lenN (enc_bstr b) <= 9 + lenN b.
Proof. unfold enc_bstr. rewrite lenN_app. pose proof (head_length 2 (lenN b)). lia. Qed.

Lemma list_length {A} (e : A -> bytes) l : lenN (enc_list e l) <= 9 + lenN (concat (map e l)).
Proof. unfold enc_list. rewrite lenN_app. pose proof (head_length 4 (lenN l)). lia. Qed.

Lemma struct_length fs : lenN (enc_struct fs) <= 9 + 9 * lenN fs + lenN (concat (map snd fs)).
Proof.
  unfold enc_struct. rewrite lenN_app. pose proof (head_length 5 (lenN fs)).
  enough (lenN (concat (map (fun '(k, b) => head 0 k ++ b) fs)) <= 9 * lenN fs + lenN (concat (map snd fs))) by lia.
  clear. induction fs as [|[k b] fs IH]; [done|]. cbn [map concat snd]. rewrite !lenN_app, lenN_cons.
  pose proof (head_length 0 k). lia.
Qed.

End Ref.

#[export] Instance ref_cbor : Cbor := {|
  enc_array := Ref.head 4;
  enc_u64 := Ref.head 0;
  enc_bytes := Ref.enc_bstr;
  dec_array := Ref.dec_arr;
  dec_u64 := Ref.dec_major 0;
  dec_bytes := Ref.dec_bstr;
  dec_byte_array := Ref.dec_bstr_n;
  enc_vec A := Ref.enc_list;
  dec_vec A := Ref.dec_list;
  dec_pair A B := Ref.dec_array2;
  enc_map := Ref.enc_struct;
  dec_map R := Ref.dec_struct;
  dec_enc_array := Ref.decodes_arr;
  dec_enc_u64 n := Ref.decodes_major 0 n eq_refl;
  dec_enc_bytes := Ref.decodes_bstr;
  dec_enc_byte_array := Ref.decodes_bstr_n;
  dec_enc_vec A := Ref.decodes_list;
  dec_enc_pair A B := Ref.decodes_array2;
  dec_enc_map R := Ref.decodes_struct;
  safe_array := Ref.safe_arr;
  safe_u64 := Ref.safe_major 0;
  safe_bytes := Ref.safe_bstr;
  safe_byte_array := Ref.safe_bstr_n;
  safe_vec A := Ref.safe_list;
  safe_pair A B := Ref.safe_array2;
  safe_map R := Ref.safe_struct;
  yields_u64 := Ref.yields_major 0;
  yields_bytes := Ref.yields_bstr;
  yields_byte_array := Ref.yields_bstr_n;
  yields_vec A := Ref.yields_list;
  yields_pair A B := Ref.yields_array2;
  yields_map R := Ref.yields_struct;
  spends_array := Ref.spends_arr;
  spends_u64 := Ref.spends_major 0;
  spends_bytes := Ref.spends_bstr;
  spends_byte_array := Ref.spends_bstr_n;
  spends_vec A := Ref.spends_list;
  spends_map R := Ref.spends_struct;
  enc_array_length := Ref.head_length 4;
  enc_u64_length := Ref.head_length 0;
  enc_bytes_length := Ref.bstr_length;
  enc_vec_length A := Ref.list_length;
  enc_map_length := Ref.struct_length;
|}.
