(* ===== verification/Entry.v ===== *)
(** * Signed entries: wire/entry.rs

    The unit of replication: its CBOR array codec, the to-be-signed bytes,
    signing, verification and the content id. *)
From S2P Require Import Prelude Errors Crypto Cbor CborRef.
Open Scope N_scope.

Module Entry.

Record t : Type := mk {
  author : bytes;
  sort_key : N;
  kind : N;
  payload : bytes;
  sig : bytes;
}.

#[export] Instance t_eq_dec : EqDecision t.
Proof. solve_decision. Defined.

(** The ranges of the field types [[u8; 32]], [u64], [Vec<u8>], [[u8; 64]]. *)
Definition wf (e : t) : Prop :=
  length (author e) = 32%nat /\ sort_key e <= u64_max /\ kind e <= u64_max /\
  lenN (payload e) <= u64_max /\ length (sig e) = 64%nat.

Section Codec.
Context {cbor : Cbor}.

(** [derive(Encode)] with [#[cbor(array)]]: the array header and the fields
    in index order. *)
Definition encode (e : t) : bytes :=
  enc_array 5 ++ enc_bytes (author e) ++ enc_u64 (sort_key e) ++ enc_u64 (kind e) ++
  enc_bytes (payload e) ++ enc_bytes (sig e).

Definition decode : decoder t :=
  let! n := dec_array in
  if decide (n <> Some 5) then dec_err "entry is a fixed 5-element array"
  else
    let! author := dec_byte_array 32 in
    let! sort_key := dec_u64 in
    let! kind := dec_u64 in
    let! payload := dec_bytes in
    let! sig := dec_byte_array 64 in
    dec_ret (mk author sort_key kind payload sig).

Definition to_bytes (e : t) : bytes := encode e.

(** The free function [tbs_bytes] and the method of the same name. *)
Definition tbs_bytes_of (author : bytes) (sort_key kind : N) (payload : bytes) : bytes :=
  enc_array 4 ++ enc_bytes author ++ enc_u64 sort_key ++ enc_u64 kind ++ enc_bytes payload.

Definition tbs_bytes (e : t) : bytes :=
  tbs_bytes_of (author e) (sort_key e) (kind e) (payload e).

Context {crypto : Crypto}.

(** [key] is the 32-byte signing seed. *)
Definition sign (key : bytes) (sort_key kind : N) (payload : bytes) : t :=
  let author := ed_verifying_key key in
  let tbs := tbs_bytes_of author sort_key kind payload in
  let sig := ed_sign key tbs in
  mk author sort_key kind payload sig.

Definition verify (e : t) : result WireError unit :=
  if negb (ed_key_ok (author e)) then Err BadSignature
  else if ed_verify_strict (author e) (tbs_bytes e) (sig e) then Ok tt
  else Err BadSignature.

Definition id (e : t) : bytes := sha256 (to_bytes e).

End Codec.

(** ** Lemmas *)

Section Lemmas.
Context {cbor : Cbor} {crypto : Crypto}.

Lemma decodes_entry e : wf e -> decodes decode (encode e) e.
Proof.
  intros (Ha & Hs & Hk & Hp & Hsig). unfold encode, decode.
  eapply decodes_bind; [by apply dec_enc_array|]. rewrite decide_False by tauto.
  eapply decodes_bind; [apply dec_enc_byte_array; [done|by unfold lenN; rewrite Ha]|].
  do 2 (eapply decodes_bind; [by apply dec_enc_u64|]).
  eapply decodes_bind; [by apply dec_enc_bytes|].
  eapply decodes_bind_nil; [apply dec_enc_byte_array; [done|by unfold lenN; rewrite Hsig]|].
  destruct e; apply decodes_ret.
Qed.

Lemma safe_entry : safe decode.
Proof.
  unfold decode. apply safe_bind; [apply safe_array|]. intros n.
  case_decide; [done|]. repeat (apply safe_bind; [auto with racnet|intros ?]). done.
Qed.

Lemma yields_entry : yields decode wf.
Proof.
  unfold decode. eapply yields_bind with (P := fun _ => True); [done|]. intros n _.
  case_decide; [done|].
  eapply yields_bind; [apply yields_byte_array|]; intros a Ha.
  eapply yields_bind; [apply yields_u64|]; intros s Hs.
  eapply yields_bind; [apply yields_u64|]; intros k Hk.
  eapply yields_bind; [apply yields_bytes|]; intros p Hp.
  eapply yields_bind; [apply yields_byte_array|]; intros g Hg.
  by apply yields_ret.
Qed.

Lemma decode_arity n rest : n <= u64_max -> n <> 5 ->
  decode (enc_array n ++ rest) = Err "entry is a fixed 5-element array"%string.
Proof.
  intros Hn Hne. unfold decode, dec_bind. rewrite dec_enc_array by done.
  cbn. rewrite decide_True by congruence. done.
Qed.

Lemma to_bytes_inj a b : wf a -> wf b -> to_bytes a = to_bytes b -> a = b.
Proof.
  intros Ha Hb Heq. eapply decodes_inj; [by apply decodes_entry|].
  unfold to_bytes in Heq. rewrite Heq. by apply decodes_entry.
Qed.

Lemma wf_sign key s k p : s <= u64_max -> k <= u64_max -> lenN p <= u64_max ->
  wf (sign key s k p).
Proof.
  intros ???. unfold wf; cbn.
  by rewrite ed_verifying_key_length, ed_sign_length.
Qed.

Lemma verify_sign key s k p : verify (sign key s k p) = Ok tt.
Proof. unfold verify, tbs_bytes; cbn. by rewrite ed_key_ok_verifying_key, ed_verify_sign. Qed.

Lemma length_id e : length (id e) = 32%nat.
Proof. apply sha256_length. Qed.

Lemma id_inj a b : wf a -> wf b -> id a = id b ->
  a = b \/ exists x y, x <> y /\ sha256 x = sha256 y.
Proof.
  intros Ha Hb Heq. destruct (decide (to_bytes a = to_bytes b)) as [E|Hne].
  - left. by apply to_bytes_inj.
  - right. by exists (to_bytes a), (to_bytes b).
Qed.

End Lemmas.
#[export] Hint Resolve safe_entry yields_entry decodes_entry length_id : racnet.
End Entry.
#[export] Hint Rewrite @Entry.length_id : len.
Import Entry.

(** ** Properties *)

Section Properties.
Context {cbor : Cbor} {crypto : Crypto}.

(** Entry codec. A well-formed entry decodes from its canonical encoding
    on every continuation; the decoder never panics and only returns
    well-formed entries; an array head of any arity other than five, in
    particular the to-be-signed encoding, is refused. *)
Theorem entry_codec :
  (forall e rest, wf e -> decode (to_bytes e ++ rest) = Ok (e, rest)) /\
  (forall bs, decode bs <> Panic) /\
  (forall bs e rest, decode bs = Ok (e, rest) -> wf e) /\
  (forall n rest, n <= u64_max -> n <> 5 -> exists msg, decode (enc_array n ++ rest) = Err msg) /\
  (forall e rest, exists msg, decode (tbs_bytes e ++ rest) = Err msg).
Proof.
  split_and!.
  - intros e rest He. by apply decodes_entry.
  - apply safe_entry.
  - apply yields_entry.
  - intros n rest Hn Hne. eexists. by apply decode_arity.
  - intros e rest. eexists. unfold tbs_bytes, tbs_bytes_of. rewrite <- app_assoc.
    by apply decode_arity.
Qed.

(** Content addressing and authorship. A freshly signed entry is
    well-formed and verifies; two well-formed entries with one id are the
    same entry unless SHA-256 collides, so the id covers every field, the
    signature included. *)
Theorem entry_sign_id :
  (forall key s k p, verify (sign key s k p) = Ok tt) /\
  (forall key s k p, s <= u64_max -> k <= u64_max -> lenN p <= u64_max -> wf (sign key s k p)) /\
  (forall a b, wf a -> wf b -> id a = id b ->
     a = b \/ exists x y, x <> y /\ sha256 x = sha256 y).
Proof.
  split_and!; intros; [by apply verify_sign|by apply wf_sign|by apply id_inj].
Qed.

End Properties.

(** A signed entry under the concrete codec and primitives. *)
Definition sample_entry (seed : N) (k : N) : Entry.t :=
  Entry.sign (replicate 32 (byte_of seed)) k 0 [byte_of seed].

Lemma entry_codec_witness :
  Entry.wf (sample_entry 7 1000) /\
  Entry.decode (Entry.to_bytes (sample_entry 7 1000) ++ [byte_of 1]) =
    Ok (sample_entry 7 1000, [byte_of 1]).
Proof.
  assert (H : Entry.wf (sample_entry 7 1000)) by solve_bounds.
  split; [exact H|]. apply (proj1 entry_codec). exact H.
Defined.

Lemma entry_sign_id_witness :
  Entry.verify (sample_entry 7 1000) = Ok tt /\
  (Entry.id (sample_entry 7 1000) = Entry.id (sample_entry 8 1000) ->
   sample_entry 7 1000 = sample_entry 8 1000 \/ exists x y, x <> y /\ sha256 x = sha256 y).
Proof.
  split.
  - apply (proj1 entry_sign_id).
  - apply (proj2 (proj2 entry_sign_id)); solve_bounds.
Defined.
