(* ===== verification/Msg.v ===== *)
(** * Messages: wire/payload.rs and wire/msg.rs

    The payload structs with their CBOR codecs, the message type registry,
    and the padded inner-message codec. *)
From S2P Require Import Prelude Errors Pad Crypto Cbor CborRef Entry.
Open Scope N_scope.

(** ** Payload structs (payload.rs) *)

Module Hello.
Record t : Type := mk { versions : list N; features : N; transports : list N }.
End Hello.

Module Handshake.
Record t : Type := mk { msg : bytes }.
End Handshake.

Module GossipPush.
Record t : Type := mk { entries : list Entry.t; ttl : N }.
End GossipPush.

Module SortKeyWindow.
Record t : Type := mk { since : N; until : N }.
End SortKeyWindow.

Module ReconInit.
Record t : Type := mk { sid : N; window : SortKeyWindow.t; msg : bytes }.
End ReconInit.

Module ReconMsg.
Record t : Type := mk { sid : N; msg : bytes }.
End ReconMsg.

Module ReconDone.
Record t : Type := mk { sid : N }.
End ReconDone.

Module ErrorMsg.
Record t : Type := mk { code : N }.
End ErrorMsg.

(** ** The registry and the message sum (msg.rs) *)

Inductive MsgType : Type :=
  | TyHello | TyHandshake | TyGossipPush | TyReconInit | TyReconMsg | TyReconDone | TyError.

Inductive Message : Type :=
  | MHello (p : Hello.t)
  | MHandshake (p : Handshake.t)
  | MGossipPush (p : GossipPush.t)
  | MReconInit (p : ReconInit.t)
  | MReconMsg (p : ReconMsg.t)
  | MReconDone (p : ReconDone.t)
  | MError (p : ErrorMsg.t).

#[export] Instance msg_type_eq_dec : EqDecision MsgType.
Proof. solve_decision. Defined.

(** [ty as u8]. *)
Definition msg_type_u8 (ty : MsgType) : N :=
  match ty with
  | TyHello => 1
  | TyHandshake => 2
  | TyGossipPush => 16
  | TyReconInit => 32
  | TyReconMsg => 33
  | TyReconDone => 34
  | TyError => 112
  end.

(** [MsgType::try_from]. *)
Definition msg_type_try_from (value : N) : result WireError MsgType :=
  match value with
  | 1 => Ok TyHello
  | 2 => Ok TyHandshake
  | 16 => Ok TyGossipPush
  | 32 => Ok TyReconInit
  | 33 => Ok TyReconMsg
  | 34 => Ok TyReconDone
  | 112 => Ok TyError
  | other => Err (UnknownMsgType other)
  end.

Definition msg_type (m : Message) : MsgType :=
  match m with
  | MHello _ => TyHello
  | MHandshake _ => TyHandshake
  | MGossipPush _ => TyGossipPush
  | MReconInit _ => TyReconInit
  | MReconMsg _ => TyReconMsg
  | MReconDone _ => TyReconDone
  | MError _ => TyError
  end.

(** Inner-message header length: type (1) and payload length (2). *)
Definition HEADER_LEN : N := 3.

Definition validate (m : Message) : result WireError unit :=
  match m with
  | MHello h =>
      if (length (Hello.versions h) =? 0)%nat
      then Err (Schema "hello versions list must not be empty") else Ok tt
  | MGossipPush p =>
      if (length (GossipPush.entries p) =? 0)%nat
      then Err (Schema "gossip-push entries list must not be empty") else Ok tt
  | _ => Ok tt
  end.

Section Codec.
Context {cbor : Cbor}.

(** *** Encoders generated by [derive(Encode)] *)

Definition hello_encode (h : Hello.t) : bytes :=
  enc_map [(0, enc_vec enc_u64 (Hello.versions h)); (1, enc_u64 (Hello.features h));
           (2, enc_vec enc_u64 (Hello.transports h))].
Definition handshake_encode (h : Handshake.t) : bytes :=
  enc_map [(0, enc_bytes (Handshake.msg h))].
Definition gossip_push_encode (p : GossipPush.t) : bytes :=
  enc_map [(0, enc_vec Entry.encode (GossipPush.entries p)); (1, enc_u64 (GossipPush.ttl p))].
Definition window_encode (w : SortKeyWindow.t) : bytes :=
  enc_array 2 ++ enc_u64 (SortKeyWindow.since w) ++ enc_u64 (SortKeyWindow.until w).
Definition recon_init_encode (r : ReconInit.t) : bytes :=
  enc_map [(0, enc_u64 (ReconInit.sid r)); (1, window_encode (ReconInit.window r));
           (2, enc_bytes (ReconInit.msg r))].
Definition recon_msg_encode (r : ReconMsg.t) : bytes :=
  enc_map [(0, enc_u64 (ReconMsg.sid r)); (1, enc_bytes (ReconMsg.msg r))].
Definition recon_done_encode (r : ReconDone.t) : bytes :=
  enc_map [(0, enc_u64 (ReconDone.sid r))].
Definition error_encode (e : ErrorMsg.t) : bytes :=
  enc_map [(0, enc_u64 (ErrorMsg.code e))].

(** *** Decoders generated by [derive(Decode)]: one optional slot per field,
    all of which must be filled. *)

Definition missing {A} : decoder A := dec_err "missing value".

Definition fields3 {A B C} (da : decoder A) (db : decoder B) (dc : decoder C)
    (r : option A * option B * option C) (k : N) : option (decoder (option A * option B * option C)) :=
  let '(a, b, c) := r in
  match k with
  | 0 => Some (let! x := da in dec_ret (Some x, b, c))
  | 1 => Some (let! x := db in dec_ret (a, Some x, c))
  | 2 => Some (let! x := dc in dec_ret (a, b, Some x))
  | _ => None
  end.
Definition fields2 {A B} (da : decoder A) (db : decoder B)
    (r : option A * option B) (k : N) : option (decoder (option A * option B)) :=
  let '(a, b) := r in
  match k with
  | 0 => Some (let! x := da in dec_ret (Some x, b))
  | 1 => Some (let! x := db in dec_ret (a, Some x))
  | _ => None
  end.
Definition fields1 {A} (da : decoder A) (r : option A) (k : N) : option (decoder (option A)) :=
  match k with
  | 0 => Some (let! x := da in dec_ret (Some x))
  | _ => None
  end.

Definition dec_struct3 {A B C R} (mk : A -> B -> C -> R) da db dc : decoder R :=
  let! r := dec_map (fields3 da db dc) (None, None, None) in
  match r with
  | (Some a, Some b, Some c) => dec_ret (mk a b c)
  | _ => missing
  end.
Definition dec_struct2 {A B R} (mk : A -> B -> R) da db : decoder R :=
  let! r := dec_map (fields2 da db) (None, None) in
  match r with
  | (Some a, Some b) => dec_ret (mk a b)
  | _ => missing
  end.
Definition dec_struct1 {A R} (mk : A -> R) da : decoder R :=
  let! r := dec_map (fields1 da) None in
  match r with
  | Some a => dec_ret (mk a)
  | _ => missing
  end.

Definition hello_decode : decoder Hello.t :=
  dec_struct3 Hello.mk (dec_vec dec_u64) dec_u64 (dec_vec dec_u64).
Definition handshake_decode : decoder Handshake.t :=
  dec_struct1 Handshake.mk dec_bytes.
Definition gossip_push_decode : decoder GossipPush.t :=
  dec_struct2 GossipPush.mk (dec_vec Entry.decode) dec_u64.
Definition window_decode : decoder SortKeyWindow.t :=
  let! (since, until) := dec_pair dec_u64 dec_u64 in
  dec_ret (SortKeyWindow.mk since until).
Definition recon_init_decode : decoder ReconInit.t :=
  dec_struct3 ReconInit.mk dec_u64 window_decode dec_bytes.
Definition recon_msg_decode : decoder ReconMsg.t :=
  dec_struct2 ReconMsg.mk dec_u64 dec_bytes.
Definition recon_done_decode : decoder ReconDone.t :=
  dec_struct1 ReconDone.mk dec_u64.
Definition error_decode : decoder ErrorMsg.t :=
  dec_struct1 ErrorMsg.mk dec_u64.

(** *** msg.rs *)

Definition payload_bytes (m : Message) : bytes :=
  match m with
  | MHello p => hello_encode p
  | MHandshake p => handshake_encode p
  | MGossipPush p => gossip_push_encode p
  | MReconInit p => recon_init_encode p
  | MReconMsg p => recon_msg_encode p
  | MReconDone p => recon_done_encode p
  | MError p => error_encode p
  end.

(** The payload decoder selected by the type octet. *)
Definition payload_decode (ty : MsgType) : decoder Message :=
  match ty with
  | TyHello => let! p := hello_decode in dec_ret (MHello p)
  | TyHandshake => let! p := handshake_decode in dec_ret (MHandshake p)
  | TyGossipPush => let! p := gossip_push_decode in dec_ret (MGossipPush p)
  | TyReconInit => let! p := recon_init_decode in dec_ret (MReconInit p)
  | TyReconMsg => let! p := recon_msg_decode in dec_ret (MReconMsg p)
  | TyReconDone => let! p := recon_done_decode in dec_ret (MReconDone p)
  | TyError => let! p := error_decode in dec_ret (MError p)
  end.

Definition encode_message (m : Message) : result WireError bytes :=
  _ ← validate m;
  let payload := payload_bytes m in
  let unpadded := HEADER_LEN + lenN payload in
  padded ← ok_or (padded_len unpadded) TooLarge;
  payload_len ← expect (u16_try_from (lenN payload));
  mret (resize (N.to_nat padded) zero_byte
          (byte_of (msg_type_u8 (msg_type m)) :: be_bytes 2 payload_len ++ payload)).

Definition decode_message (body : bytes) : result WireError Message :=
  if lenN body <? default 0 (BLOCK_SIZES !! 0%nat) then Err (BadFrameLength (lenN body))
  else
    b0 ← expect (body !! 0%nat);
    b1 ← expect (body !! 1%nat);
    b2 ← expect (body !! 2%nat);
    let payload_len := be_val [b1; b2] in
    let unpadded := HEADER_LEN + payload_len in
    if decide (padded_len unpadded <> Some (lenN body)) then Err (BadPayloadLength payload_len)
    else
      ty ← msg_type_try_from (byte_val b0);
      payload ← expect (slice (N.to_nat HEADER_LEN) (N.to_nat unpadded) body);
      '(msg, rest) ← map_err Errors.Cbor (payload_decode ty payload);
      if negb (length rest =? 0)%nat then Err TrailingBytes
      else
        _ ← validate msg;
        mret msg.

End Codec.

(** ** Well-formedness: the ranges of the field types *)

(** The entries a message pushes. *)
Definition batch_entries (m : Message) : list Entry.t :=
  match m with MGossipPush p => GossipPush.entries p | _ => [] end.

Definition u64s (l : list N) : Prop := lenN l <= u64_max /\ Forall (fun n => n <= u64_max) l.

Definition wf_window (w : SortKeyWindow.t) : Prop :=
  SortKeyWindow.since w <= u64_max /\ SortKeyWindow.until w <= u64_max.

Definition wf_message (m : Message) : Prop :=
  match m with
  | MHello h => u64s (Hello.versions h) /\ Hello.features h <= u64_max /\ u64s (Hello.transports h)
  | MHandshake h => lenN (Handshake.msg h) <= u64_max
  | MGossipPush p =>
      (lenN (GossipPush.entries p) <= u64_max /\ Forall Entry.wf (GossipPush.entries p)) /\
      GossipPush.ttl p <= u64_max
  | MReconInit r =>
      ReconInit.sid r <= u64_max /\ wf_window (ReconInit.window r) /\
      lenN (ReconInit.msg r) <= u64_max
  | MReconMsg r => ReconMsg.sid r <= u64_max /\ lenN (ReconMsg.msg r) <= u64_max
  | MReconDone r => ReconDone.sid r <= u64_max
  | MError e => ErrorMsg.code e <= u64_max
  end.

(** ** Lemmas *)

Section Lemmas.
Context {cbor : Cbor}.

Ltac solve_fields :=
  apply dec_enc_map; [vm_compute; discriminate|repeat constructor; vm_compute; discriminate|];
  repeat (eapply fields_cons;
    [cbn; reflexivity|eapply decodes_bind_nil; [eassumption|apply decodes_ret]|]);
  constructor.

Lemma decodes_struct3 {A B C R} (mk : A -> B -> C -> R) da db dc ba bb bc a b c :
  decodes da ba a -> decodes db bb b -> decodes dc bc c ->
  decodes (dec_struct3 mk da db dc) (enc_map [(0, ba); (1, bb); (2, bc)]) (mk a b c).
Proof. intros. eapply decodes_bind_nil; [solve_fields|apply decodes_ret]. Qed.

Lemma decodes_struct2 {A B R} (mk : A -> B -> R) da db ba bb a b :
  decodes da ba a -> decodes db bb b ->
  decodes (dec_struct2 mk da db) (enc_map [(0, ba); (1, bb)]) (mk a b).
Proof. intros. eapply decodes_bind_nil; [solve_fields|apply decodes_ret]. Qed.

Lemma decodes_struct1 {A R} (mk : A -> R) da ba a :
  decodes da ba a -> decodes (dec_struct1 mk da) (enc_map [(0, ba)]) (mk a).
Proof. intros. eapply decodes_bind_nil; [solve_fields|apply decodes_ret]. Qed.

Ltac safe_fields :=
  apply safe_bind;
  [apply safe_map; intros r k d; unfold fields3, fields2, fields1; repeat case_match;
   intros ?; simplify_eq; apply safe_bind; done
  |intros; repeat case_match; done].

Lemma safe_struct3 {A B C R} (mk : A -> B -> C -> R) da db dc :
  safe da -> safe db -> safe dc -> safe (dec_struct3 mk da db dc).
Proof. intros. safe_fields. Qed.

Lemma safe_struct2 {A B R} (mk : A -> B -> R) da db :
  safe da -> safe db -> safe (dec_struct2 mk da db).
Proof. intros. safe_fields. Qed.

Lemma safe_struct1 {A R} (mk : A -> R) da : safe da -> safe (dec_struct1 mk da).
Proof. intros. safe_fields. Qed.

(** A filled slot satisfies the property of its decoder. *)
Definition slot {A} (P : A -> Prop) (o : option A) : Prop :=
  match o with Some a => P a | None => True end.

Ltac yields_slot :=
  eapply yields_bind; [eassumption|]; intros; apply yields_ret; cbn in *; tauto.

Lemma yields_struct3 {A B C R} (mk : A -> B -> C -> R) da db dc P Q S T :
  yields da P -> yields db Q -> yields dc S ->
  (forall a b c, P a -> Q b -> S c -> T (mk a b c)) -> yields (dec_struct3 mk da db dc) T.
Proof.
  intros Ha Hb Hc HT. unfold dec_struct3. eapply yields_bind.
  - apply yields_map with (P := fun '(a, b, c) => slot P a /\ slot Q b /\ slot S c); [|done].
    intros [[a b] c] k d Hr. cbn. destruct k as [|[[]|[]|]]; intros [= <-]; yields_slot.
  - intros [[[a|] [b|]] [c|]]; cbn; intros; try done. apply yields_ret. apply HT; tauto.
Qed.

Lemma yields_struct2 {A B R} (mk : A -> B -> R) da db P Q T :
  yields da P -> yields db Q -> (forall a b, P a -> Q b -> T (mk a b)) ->
  yields (dec_struct2 mk da db) T.
Proof.
  intros Ha Hb HT. unfold dec_struct2. eapply yields_bind.
  - apply yields_map with (P := fun '(a, b) => slot P a /\ slot Q b); [|done].
    intros [a b] k d Hr. cbn. destruct k as [|[[]|[]|]]; intros [= <-]; yields_slot.
  - intros [[a|] [b|]]; cbn; intros; try done. apply yields_ret. apply HT; tauto.
Qed.

Lemma yields_struct1 {A R} (mk : A -> R) da P T :
  yields da P -> (forall a, P a -> T (mk a)) -> yields (dec_struct1 mk da) T.
Proof.
  intros Ha HT. unfold dec_struct1. eapply yields_bind.
  - apply yields_map with (P := slot P); [|done].
    intros a k d Hr. cbn. destruct k as [|]; intros [= <-]; yields_slot.
  - intros [a|]; cbn; intros; try done. apply yields_ret. by apply HT.
Qed.

Lemma decodes_u64s l : u64s l -> decodes (dec_vec dec_u64) (enc_vec enc_u64 l) l.
Proof.
  intros [Hl HF]. apply dec_enc_vec; [done|]. intros a Ha. apply dec_enc_u64.
  rewrite Forall_forall in HF. by apply HF.
Qed.

Lemma decodes_entries l : lenN l <= u64_max -> Forall Entry.wf l ->
  decodes (dec_vec Entry.decode) (enc_vec Entry.encode l) l.
Proof.
  intros Hl HF. apply dec_enc_vec; [done|]. intros a Ha. apply Entry.decodes_entry.
  rewrite Forall_forall in HF. by apply HF.
Qed.

Lemma decodes_window w : wf_window w -> decodes window_decode (window_encode w) w.
Proof.
  intros [??]. unfold window_decode. eapply decodes_bind_nil.
  - apply dec_enc_pair; by apply dec_enc_u64.
  - cbn. destruct w. apply decodes_ret.
Qed.

Lemma decodes_payload m : wf_message m -> decodes (payload_decode (msg_type m)) (payload_bytes m) m.
Proof.
  destruct m as [[]|[]|[]|[]|[]|[]|[]]; cbn; intros; destruct_and?;
    (eapply decodes_bind_nil; [|apply decodes_ret]);
    first [apply decodes_struct3|apply decodes_struct2|apply decodes_struct1];
    auto using decodes_u64s, decodes_entries, decodes_window with racnet.
Qed.

Lemma safe_window : safe window_decode.
Proof. apply safe_bind; [auto with racnet|]. by intros []. Qed.

Lemma safe_payload ty : safe (payload_decode ty).
Proof.
  destruct ty; cbn; (apply safe_bind; [|done]);
    first [apply safe_struct3|apply safe_struct2|apply safe_struct1];
    auto using safe_window, Entry.safe_entry with racnet.
Qed.

Lemma yields_window : yields window_decode wf_window.
Proof.
  eapply yields_bind; [apply yields_pair; apply yields_u64|].
  intros [a b] Hab. by apply yields_ret.
Qed.

Lemma yields_constr {A} (d : decoder A) (f : A -> Message) (Q : Message -> Prop) :
  yields d (fun p => Q (f p)) -> yields (let! p := d in dec_ret (f p)) Q.
Proof. intros H. eapply yields_bind; [exact H|]. intros a Ha. by apply yields_ret. Qed.

Lemma yields_payload ty : yields (payload_decode ty) (fun m => wf_message m /\ msg_type m = ty).
Proof.
  assert (Hv : yields (dec_vec dec_u64) u64s) by apply yields_vec, yields_u64.
  assert (He := yields_vec _ _ Entry.yields_entry).
  destruct ty; cbn [payload_decode]; apply yields_constr;
    [unfold hello_decode; eapply yields_struct3|unfold handshake_decode; eapply yields_struct1
    |unfold gossip_push_decode; eapply yields_struct2|unfold recon_init_decode; eapply yields_struct3
    |unfold recon_msg_decode; eapply yields_struct2|unfold recon_done_decode; eapply yields_struct1
    |unfold error_decode; eapply yields_struct1];
    first [exact Hv|exact He|apply yields_u64|apply yields_bytes|apply yields_window|idtac];
    intros; cbn in *; tauto.
Qed.

(** The inner message before padding. *)
Definition unpadded_message (m : Message) : bytes :=
  byte_of (msg_type_u8 (msg_type m)) :: be_bytes 2 (lenN (payload_bytes m)) ++ payload_bytes m.

Lemma lenN_unpadded m : lenN (unpadded_message m) = HEADER_LEN + lenN (payload_bytes m).
Proof. unfold unpadded_message, lenN, HEADER_LEN. cbn. len. Qed.

(** Encoding succeeds exactly when the message validates and fits. *)
Lemma encode_message_eq m :
  encode_message m =
    match validate m with
    | Ok _ =>
        match padded_len (HEADER_LEN + lenN (payload_bytes m)) with
        | Some p => Ok (resize (N.to_nat p) zero_byte (unpadded_message m))
        | None => Err TooLarge
        end
    | Err e => Err e
    | Panic => Panic
    end.
Proof.
  unfold encode_message. destruct (validate m) as [[]| |]; cbn; try done.
  destruct (padded_len _) as [p|] eqn:E; [|done]. cbn.
  apply padded_len_bounds in E. unfold u16_try_from, HEADER_LEN, u16_max in *.
  destruct (N.leb_spec (lenN (payload_bytes m)) 65535); [done|lia].
Qed.

Lemma validate_no_panic m : validate m <> Panic.
Proof. destruct m; cbn; try done; by destruct (_ =? _)%nat. Qed.

Lemma msg_type_roundtrip ty : msg_type_try_from (msg_type_u8 ty) = Ok ty.
Proof. by destruct ty. Qed.

Lemma msg_type_try_from_Ok n ty : msg_type_try_from n = Ok ty -> n = msg_type_u8 ty.
Proof.
  unfold msg_type_try_from. intros H. repeat (case_match; try done; simplify_eq); done.
Qed.

Lemma msg_type_try_from_no_panic n : msg_type_try_from n <> Panic.
Proof. unfold msg_type_try_from. repeat case_match; done. Qed.

(** Decoding a body presented as header, payload and padding. *)
Lemma decode_message_parts b0 plen payload pad :
  plen = lenN payload -> plen <= u16_max ->
  let body := b0 :: be_bytes 2 plen ++ payload ++ pad in
  padded_len (HEADER_LEN + plen) = Some (lenN body) ->
  decode_message body =
    (ty ← msg_type_try_from (byte_val b0);
     '(msg, rest) ← map_err Errors.Cbor (payload_decode ty payload);
     if negb (length rest =? 0)%nat then Err TrailingBytes
     else _ ← validate msg; mret msg).
Proof.
  intros -> Hp body Hpad. unfold decode_message. change (default 0 (BLOCK_SIZES !! 0%nat)) with 256.
  destruct (padded_len_bounds _ _ Hpad) as [_ Hb].
  destruct (N.ltb_spec (lenN body) 256); [lia|].
  assert (Hbe : exists b1 b2, be_bytes 2 (lenN payload) = [b1; b2]).
  { pose proof (length_be_bytes 2 (lenN payload)). destruct (be_bytes 2 _) as [|b1 [|b2 []]]; try done. by exists b1, b2. }
  destruct Hbe as (b1 & b2 & Hbe).
  assert (Hval : be_val [b1; b2] = lenN payload).
  { rewrite <- Hbe, be_val_be_bytes. apply N.mod_small. unfold u16_max in Hp. cbn. lia. }
  subst body. rewrite Hbe in *. cbn -[be_val]. rewrite Hval, decide_False by tauto.
  destruct (msg_type_try_from (byte_val b0)) as [ty| |]; try done. cbn -[be_val].
  assert (Hsl : slice (N.to_nat HEADER_LEN) (N.to_nat (HEADER_LEN + lenN payload))
            (b0 :: b1 :: b2 :: payload ++ pad) = Some payload).
  { unfold slice, HEADER_LEN, lenN. rewrite decide_True by (cbn; len).
    change (N.to_nat 3) with 3%nat. cbn [drop]. f_equal.
    replace (N.to_nat (3 + N.of_nat (length payload)) - 3)%nat with (length payload) by lia.
    apply take_app_length. }
  by rewrite Hsl.
Qed.

(** Every body of at least three bytes splits into those parts. *)
Lemma decode_message_inv body m :
  decode_message body = Ok m ->
  exists b0 payload pad,
    body = b0 :: be_bytes 2 (lenN payload) ++ payload ++ pad /\
    lenN payload <= u16_max /\
    padded_len (HEADER_LEN + lenN payload) = Some (lenN body) /\
    byte_val b0 = msg_type_u8 (msg_type m) /\
    payload_decode (msg_type m) payload = Ok (m, []) /\ validate m = Ok tt.
Proof.
  unfold decode_message. change (default 0 (BLOCK_SIZES !! 0%nat)) with 256.
  destruct (N.ltb_spec (lenN body) 256); [done|].
  destruct body as [|b0 [|b1 [|b2 tl]]]; try (unfold lenN in *; cbn in *; lia). cbn -[be_val].
  set (plen := be_val [b1; b2]). case_decide as Hdec; [done|].
  assert (Hpl : plen <= u16_max).
  { pose proof (be_val_bound [b1; b2]) as Hb. fold plen in Hb.
    change (256 ^ N.of_nat (length [b1; b2])) with 65536 in Hb. unfold u16_max. lia. }
  destruct (msg_type_try_from (byte_val b0)) as [ty| |] eqn:Ety; try done. cbn -[be_val].
  destruct (slice _ _ _) as [payload|] eqn:Esl; [|done]. cbn.
  destruct (payload_decode ty payload) as [[msg rest]| |] eqn:Epd; cbn; try done.
  destruct (Nat.eqb_spec (length rest) 0) as [Hr|]; cbn; [|done].
  destruct (validate msg) as [[]| |] eqn:Ev; cbn; try done. intros [= <-].
  destruct rest; [|done].
  destruct (yields_payload _ _ _ _ Epd) as [_ <-].
  unfold slice, HEADER_LEN in Esl. case_decide as Hsl; [|done]. injection Esl as <-.
  change (N.to_nat 3) with 3%nat in *. cbn [drop].
  replace (N.to_nat (3 + plen) - 3)%nat with (N.to_nat plen) in * by lia.
  assert (Hlen : lenN (take (N.to_nat plen) tl) = plen).
  { destruct Hsl as [_ Hsl]. cbn [length] in Hsl. unfold lenN. rewrite length_take. lia. }
  exists b0, (take (N.to_nat plen) tl), (drop (N.to_nat plen) tl).
  rewrite Hlen, take_drop. split_and!; try done.
  - pose proof (be_bytes_be_val [b1; b2]) as Hbb. fold plen in Hbb. cbn [length] in Hbb.
    by rewrite Hbb.
  - by apply msg_type_try_from_Ok.
Qed.

Lemma decode_message_no_panic body : decode_message body <> Panic.
Proof.
  unfold decode_message. change (default 0 (BLOCK_SIZES !! 0%nat)) with 256.
  destruct (N.ltb_spec (lenN body) 256); [done|].
  destruct body as [|b0 [|b1 [|b2 tl]]]; try (unfold lenN in *; cbn in *; lia). cbn -[be_val].
  case_decide as Hdec; [done|].
  pose proof (msg_type_try_from_no_panic (byte_val b0)).
  destruct (msg_type_try_from (byte_val b0)) as [ty| |] eqn:Ety; try done. cbn -[be_val].
  destruct (slice _ _ _) as [payload|] eqn:Esl; cbn.
  - pose proof (safe_payload ty payload).
    destruct (payload_decode ty payload) as [[msg rest]| |] eqn:Epd; cbn; try done.
    destruct (negb _); [done|]. pose proof (validate_no_panic msg). by destruct (validate msg) as [[]| |].
  - unfold slice in Esl. case_decide as Hsl; [done|]. exfalso. apply Hsl.
    apply padded_len_bounds in Hdec as [Hdec _]. unfold lenN in Hdec. unfold HEADER_LEN in *. lia.
Qed.

Lemma encode_message_parts m body :
  encode_message m = Ok body ->
  exists p, padded_len (HEADER_LEN + lenN (payload_bytes m)) = Some p /\ lenN body = p /\
    validate m = Ok tt /\ lenN (payload_bytes m) <= u16_max /\
    body = unpadded_message m ++ replicate (N.to_nat p - length (unpadded_message m)) zero_byte.
Proof.
  rewrite encode_message_eq. destruct (validate m) as [[]| |]; try done.
  destruct (padded_len _) as [p|] eqn:E; [|done]. intros [= <-].
  pose proof (padded_len_bounds _ _ E) as [Hle Hp]. rewrite <- lenN_unpadded in Hle.
  exists p. split_and!; try done.
  - unfold lenN. rewrite length_resize. lia.
  - pose proof (lenN_unpadded m). unfold HEADER_LEN, u16_max in *. lia.
  - apply resize_ge. unfold lenN in Hle. lia.
Qed.

Lemma decode_encode_message m body :
  wf_message m -> encode_message m = Ok body -> decode_message body = Ok m.
Proof.
  intros Hwf Henc.
  apply encode_message_parts in Henc as (p & Hpad & Hlen & Hval & Hu & ->).
  unfold unpadded_message. cbn [app]. rewrite <- app_assoc.
  unfold unpadded_message in Hlen. cbn [app] in Hlen. rewrite <- app_assoc in Hlen.
  rewrite decode_message_parts; [|done|done|by rewrite Hlen].
  rewrite byte_val_of, N.mod_small by (destruct m; cbn; lia).
  rewrite msg_type_roundtrip. cbn [mbind result_bind].
  pose proof (decodes_payload m Hwf []) as Hd. rewrite app_nil_r in Hd. rewrite Hd. cbn.
  by rewrite Hval.
Qed.

(** A message pushes at most one entry per octet of its body. *)
Lemma spends_entry : spends Entry.decode (fun _ => 1%nat).
Proof.
  apply (spends_bind _ _ (fun _ => 1%nat) (fun _ _ => 0%nat)); [apply spends_array| |intros; cbn beta; lia].
  intros n. case_decide; [apply spends_err|].
  repeat (apply (spends_bind _ _ (fun _ => 1%nat) (fun _ _ => 0%nat));
    [first [apply spends_byte_array|apply spends_u64|apply spends_bytes]| |intros; cbn beta; lia]; intros ?).
  by apply spends_ret.
Qed.

Lemma spends_gossip_push : spends gossip_push_decode (fun p => length (GossipPush.entries p)).
Proof.
  set (c := fun r : option (list Entry.t) * option N => length (default [] r.1)).
  apply (spends_bind _ _ (fun r => (c r - c (None, None))%nat) (fun r p => (length (GossipPush.entries p) - c r)%nat)).
  - apply spends_map. intros [a b] k d. unfold fields2.
    destruct k as [|[]]; intros [= <-].
    + apply (spends_bind _ _ (fun l => length l) (fun l r => (c r - c (a, b) - length l)%nat));
        [apply spends_vec, spends_entry|intros l; apply spends_ret; unfold c; cbn; lia|intros; cbn beta; lia].
    + apply (spends_bind _ _ (fun _ => 1%nat) (fun _ r => (c r - c (a, b))%nat));
        [apply spends_u64|intros l; apply spends_ret; unfold c; cbn; lia|intros; cbn beta; lia].
  - intros [[l|] [t|]]; try apply spends_err. apply spends_ret. unfold c. cbn. lia.
  - intros r p. cbn beta. unfold c. cbn. lia.
Qed.

Lemma batch_entries_bound body m : decode_message body = Ok m -> (length (batch_entries m) <= length body)%nat.
Proof.
  intros H. destruct m; cbn [batch_entries length]; try lia.
  pose proof (decode_message_inv body _ H) as (b0 & payload & pad & -> & _ & _ & _ & Hpd & _).
  cbn [msg_type payload_decode] in Hpd. unfold dec_bind in Hpd.
  destruct (gossip_push_decode payload) as [[p' rest]| |] eqn:E; cbn in Hpd; try discriminate Hpd.
  injection Hpd as -> ->. apply spends_gossip_push in E. cbn [length]. rewrite !length_app. lia.
Qed.

(** Messages whose payload fits the largest block encode. *)
Lemma encode_fits m : validate m = Ok tt -> lenN (payload_bytes m) <= 63485 -> is_Ok (encode_message m).
Proof.
  intros Hv Hl. rewrite encode_message_eq, Hv.
  destruct (padded_len_total (HEADER_LEN + lenN (payload_bytes m))) as [p ->]; [unfold HEADER_LEN, MAX_PADDED_LEN; lia|].
  by eexists.
Qed.

(** The size of an encoded struct, from those of its fields. *)
Ltac struct_size :=
  match goal with |- context [enc_map ?fs] =>
    pose proof (enc_map_length fs) as Hsize;
    cbn [map concat snd] in Hsize; rewrite ?lenN_app, ?lenN_cons in Hsize;
    change (lenN (@nil byte)) with 0 in Hsize; change (lenN (@nil (N * bytes))) with 0 in Hsize
  end.

Lemma handshake_encodes h : lenN (Handshake.msg h) <= 60000 -> is_Ok (encode_message (MHandshake h)).
Proof.
  intros Hl. apply encode_fits; [done|]. cbn [payload_bytes]. unfold handshake_encode. struct_size.
  pose proof (enc_bytes_length (Handshake.msg h)). lia.
Qed.

Lemma hello_encodes h : Hello.versions h <> [] -> lenN (Hello.versions h) <= 1000 ->
  lenN (Hello.transports h) <= 1000 -> is_Ok (encode_message (MHello h)).
Proof.
  intros Hv Hl Ht. apply encode_fits; [cbn; destruct (Hello.versions h); done|].
  cbn [payload_bytes]. unfold hello_encode. struct_size. pose proof (enc_u64_length (Hello.features h)).
  pose proof (enc_vec_length enc_u64 (Hello.versions h)). pose proof (enc_vec_length enc_u64 (Hello.transports h)).
  pose proof (lenN_concat_le enc_u64 (Hello.versions h) 9 ltac:(intros; apply enc_u64_length)).
  pose proof (lenN_concat_le enc_u64 (Hello.transports h) 9 ltac:(intros; apply enc_u64_length)). lia.
Qed.

(** The messages of a sync session. *)
Lemma gossip_push_encodes p : GossipPush.entries p <> [] ->
  lenN (concat (map Entry.to_bytes (GossipPush.entries p))) <= 60000 -> is_Ok (encode_message (MGossipPush p)).
Proof.
  intros Hne Hl. apply encode_fits; [cbn; by destruct (GossipPush.entries p)|].
  cbn [payload_bytes]. unfold gossip_push_encode. struct_size. pose proof (enc_u64_length (GossipPush.ttl p)).
  pose proof (enc_vec_length Entry.encode (GossipPush.entries p)).
  change Entry.to_bytes with Entry.encode in Hl. lia.
Qed.

Lemma recon_init_encodes r : lenN (ReconInit.msg r) <= 60000 -> is_Ok (encode_message (MReconInit r)).
Proof.
  intros Hl. apply encode_fits; [done|]. cbn [payload_bytes]. unfold recon_init_encode. struct_size.
  pose proof (enc_u64_length (ReconInit.sid r)). pose proof (enc_bytes_length (ReconInit.msg r)).
  assert (lenN (window_encode (ReconInit.window r)) <= 27).
  { unfold window_encode. rewrite !lenN_app. pose proof (enc_array_length 2).
    pose proof (enc_u64_length (SortKeyWindow.since (ReconInit.window r))).
    pose proof (enc_u64_length (SortKeyWindow.until (ReconInit.window r))). lia. }
  lia.
Qed.

Lemma recon_msg_encodes r : lenN (ReconMsg.msg r) <= 60000 -> is_Ok (encode_message (MReconMsg r)).
Proof.
  intros Hl. apply encode_fits; [done|]. cbn [payload_bytes]. unfold recon_msg_encode. struct_size.
  pose proof (enc_u64_length (ReconMsg.sid r)). pose proof (enc_bytes_length (ReconMsg.msg r)). lia.
Qed.

Lemma recon_done_encodes r : is_Ok (encode_message (MReconDone r)).
Proof.
  apply encode_fits; [done|]. cbn [payload_bytes]. unfold recon_done_encode. struct_size.
  pose proof (enc_u64_length (ReconDone.sid r)). lia.
Qed.

End Lemmas.
#[export] Hint Resolve decode_message_no_panic safe_payload : racnet.

(** ** Properties *)

Section Properties.
Context {cbor : Cbor}.

(** C27: message round trip. A message that is encoded is decoded back to
    itself; the body has the smallest permitted length for its payload and
    consists of the header, the payload and zero padding. *)
Theorem message_roundtrip m body :
  wf_message m -> encode_message m = Ok body ->
  decode_message body = Ok m /\
  padded_len (HEADER_LEN + lenN (payload_bytes m)) = Some (lenN body) /\
  exists k, body = unpadded_message m ++ replicate k zero_byte.
Proof.
  intros Hwf Henc. split; [by apply decode_encode_message|].
  apply encode_message_parts in Henc as (p & Hpad & Hlen & _ & _ & Hbody).
  split; [by rewrite Hlen|eauto].
Qed.

(** Encoding succeeds exactly on messages that meet the occurrence
    constraints and whose payload fits the largest block; the error says
    which of the two failed, and the length cast never aborts. *)
Theorem encode_message_outcome m :
  (is_Ok (encode_message m) <->
     validate m = Ok tt /\ lenN (payload_bytes m) <= MAX_PADDED_LEN - HEADER_LEN) /\
  (validate m = Ok tt -> MAX_PADDED_LEN - HEADER_LEN < lenN (payload_bytes m) ->
     encode_message m = Err TooLarge) /\
  (forall e, validate m = Err e -> encode_message m = Err e) /\
  encode_message m <> Panic.
Proof.
  rewrite encode_message_eq. pose proof (validate_no_panic m) as Hv.
  destruct (padded_len_spec (HEADER_LEN + lenN (payload_bytes m)) 0) as [_ [Hnone _]].
  unfold HEADER_LEN, MAX_PADDED_LEN in *.
  destruct (validate m) as [[]| |]; [| |done].
  - destruct (padded_len _) eqn:E; split_and!; try done.
    + split; [|by eexists]. intros _. split; [done|].
      apply padded_len_bounds in E. lia.
    + intros _ Hgt. assert (Hc : 63488 < 3 + lenN (payload_bytes m)) by lia.
      apply Hnone in Hc. congruence.
    + split; [by intros []|]. intros [_ Hle]. destruct Hnone as [Hnone _].
      specialize (Hnone eq_refl). lia.
  - split_and!; try done; [|by intros ? [= ->]]. split; [by intros []|by intros []].
Qed.

(** C26: the decoder on arbitrary bytes. It never panics; the message it reads
    is well-formed and satisfies the occurrence constraints, and the body it
    accepts starts with the octet registered for the message's type and the
    length of a payload, which decodes to that message with no octet left
    over; the body's length is exactly the padded length of that payload.
    Padding contents are ignored: any other padding of the same length gives
    the same message. That the payload is the one the encoder would write is
    not claimed, and is false for indefinite lengths. *)
Theorem decode_message_sound body :
  decode_message body <> Panic /\
  forall m, decode_message body = Ok m ->
    wf_message m /\ validate m = Ok tt /\
    exists payload pad,
      body = byte_of (msg_type_u8 (msg_type m)) :: be_bytes 2 (lenN payload) ++ payload ++ pad /\
      padded_len (HEADER_LEN + lenN payload) = Some (lenN body) /\
      payload_decode (msg_type m) payload = Ok (m, []) /\
      forall pad', length pad' = length pad ->
        decode_message (byte_of (msg_type_u8 (msg_type m)) ::
          be_bytes 2 (lenN payload) ++ payload ++ pad') = Ok m.
Proof.
  split; [apply decode_message_no_panic|]. intros m Hm.
  pose proof (decode_message_inv body m Hm) as (b0 & payload & pad & -> & Hu & Hpad & Hb0 & Hpd & Hv).
  pose proof (yields_payload _ _ _ _ Hpd) as [Hwf _].
  split_and!; [done|done|]. exists payload, pad. split_and!; [|done|done|].
  - f_equal. by rewrite <- Hb0, byte_of_val.
  - intros pad' Hlen. rewrite decode_message_parts; [|done|done|].
    + rewrite <- Hb0, byte_of_val, Hb0, msg_type_roundtrip. cbn [mbind result_bind].
      rewrite Hpd. cbn. by rewrite Hv.
    + rewrite Hpad. f_equal. unfold lenN. cbn. rewrite !length_app, Hlen. done.
Qed.

(** Only the seven registered octets name a message type, each its own. *)
Theorem msg_type_registry n ty :
  msg_type_try_from n = Ok ty <-> n = msg_type_u8 ty.
Proof.
  split; [apply msg_type_try_from_Ok|intros ->; apply msg_type_roundtrip].
Qed.

End Properties.

(** The HELLO of the conformance vectors. *)
Definition sample_hello : Message :=
  MHello {| Hello.versions := [1]; Hello.features := 0; Hello.transports := [1] |}.

Example hello_vector :
  payload_bytes sample_hello = map byte_of [163; 0; 129; 1; 1; 0; 2; 129; 1].
Proof. vm_compute. reflexivity. Qed.

Lemma message_roundtrip_witness :
  exists body, encode_message sample_hello = Ok body /\ decode_message body = Ok sample_hello.
Proof.
  eexists. split; [vm_compute; reflexivity|].
  refine (proj1 (message_roundtrip sample_hello _ _ _)).
  - solve_bounds.
  - vm_compute. reflexivity.
Defined.

Lemma encode_message_outcome_witness : is_Ok (encode_message sample_hello).
Proof.
  apply (proj1 (encode_message_outcome sample_hello)).
  solve_bounds.
Defined.

Lemma decode_message_sound_witness :
  let body := match encode_message sample_hello with Ok b => b | _ => [] end in
  decode_message body = Ok sample_hello /\ wf_message sample_hello.
Proof.
  assert (H : decode_message (match encode_message sample_hello with Ok b => b | _ => [] end) = Ok sample_hello)
    by (vm_compute; reflexivity).
  split; [exact H|]. exact (proj1 (proj2 (decode_message_sound _) sample_hello H)).
Defined.
