(* ===== verification/Frame.v ===== *)
(** * Outer frames: wire/frame.rs

    Length-prefixed bodies over a byte stream, and the incremental decoder
    that is fed arbitrary segments of it. *)
From S2P Require Import Prelude Errors Pad Cbor CborRef Entry Msg.
Open Scope N_scope.

Section Encode.
Context {cbor : Cbor}.

Definition encode_frame (m : Message) : result WireError bytes :=
  body ← encode_message m;
  len ← expect (u16_try_from (lenN body));
  mret (be_bytes 2 len ++ body).

End Encode.

Module FrameDecoder.

Record t : Type := mk { buf : bytes }.

Definition new : t := mk [].

Definition push (d : t) (bs : bytes) : t := mk (buf d ++ bs).

Definition next_body (d : t) : option bytes * t :=
  if (length (buf d) <? 2)%nat then (None, d)
  else
    let len := N.to_nat (be_val (take 2 (buf d))) in
    if (length (buf d) <? 2 + len)%nat then (None, d)
    else (Some (take len (drop 2 (buf d))), mk (drop (2 + len) (buf d))).

Definition next_message {cbor : Cbor} (d : t) : result WireError (option Message) * t :=
  match next_body d with
  | (Some body, d') => (Some <$> decode_message body, d')
  | (None, d') => (Ok None, d')
  end.

(** The receive loop [while let Some(body) = decoder.next_body()], collecting
    the bodies. Every round removes at least the two length octets, so the
    buffer length is enough fuel (see [drain_fuel_enough]). *)
Fixpoint drain_fuel (fuel : nat) (d : t) : list bytes * t :=
  match fuel with
  | O => ([], d)
  | S fuel =>
      match next_body d with
      | (Some body, d') => let '(bodies, d'') := drain_fuel fuel d' in (body :: bodies, d'')
      | (None, d') => ([], d')
      end
  end.

Definition drain (d : t) : list bytes * t := drain_fuel (length (buf d)) d.

(** Feeding a list of segments, draining after each. *)
Fixpoint feed (d : t) (chunks : list bytes) : list bytes * t :=
  match chunks with
  | [] => ([], d)
  | c :: cs =>
      let '(bodies, d') := drain (push d c) in
      let '(more, d'') := feed d' cs in
      (bodies ++ more, d'')
  end.

End FrameDecoder.
Import FrameDecoder.

(** ** The abstract stream: frames and an incomplete tail *)

Definition frame (body : bytes) : bytes := be_bytes 2 (lenN body) ++ body.
Definition stream (bodies : list bytes) (tail : bytes) : bytes := concat (map frame bodies) ++ tail.
(** No complete frame is at the front. *)
Definition incomplete (tail : bytes) : Prop := fst (next_body (mk tail)) = None.

(** ** Lemmas *)

Lemma next_body_None d d' : next_body d = (None, d') -> d' = d.
Proof. unfold next_body. repeat case_match; congruence. Qed.

Lemma next_body_Some d body d' :
  next_body d = (Some body, d') -> buf d = frame body ++ buf d' /\ lenN body <= u16_max.
Proof.
  unfold next_body. destruct (Nat.ltb_spec (length (buf d)) 2) as [|H2]; [done|].
  destruct d as [l]; cbn [buf] in *. destruct l as [|b0 [|b1 tl]]; cbn [length] in *; try lia.
  cbn [take drop]. rewrite take_0, drop_0. pose proof (be_val_bound [b0; b1]) as Hb.
  change (256 ^ N.of_nat (length [b0; b1])) with 65536 in Hb.
  destruct (Nat.ltb_spec (S (S (length tl))) (2 + N.to_nat (be_val [b0; b1]))) as [|Hlen]; [done|].
  cbn [Nat.add drop]. intros [= <- <-]. cbn [buf].
  assert (Hl : lenN (take (N.to_nat (be_val [b0; b1])) tl) = be_val [b0; b1]).
  { unfold lenN. rewrite length_take. lia. }
  split; [|rewrite Hl; unfold u16_max; lia].
  unfold frame. rewrite Hl. pose proof (be_bytes_be_val [b0; b1]) as Hbb. cbn [length] in Hbb.
  rewrite Hbb. cbn. by rewrite take_drop.
Qed.

Lemma next_body_frame body rest : lenN body <= u16_max ->
  next_body (mk (frame body ++ rest)) = (Some body, mk rest).
Proof.
  intros Hb. unfold next_body, frame. cbn [buf].
  assert (Hl : length (be_bytes 2 (lenN body)) = 2%nat) by apply length_be_bytes.
  assert (Hv : be_val (be_bytes 2 (lenN body)) = lenN body).
  { rewrite be_val_be_bytes. apply N.mod_small. unfold u16_max in Hb. cbn. lia. }
  rewrite <- app_assoc. rewrite (take_app_length' _ _ 2) by done. rewrite Hv.
  destruct (Nat.ltb_spec (length (be_bytes 2 (lenN body) ++ body ++ rest)) 2) as [H|_].
  { revert H. len. }
  unfold lenN. rewrite Nat2N.id.
  destruct (Nat.ltb_spec (length (be_bytes 2 (N.of_nat (length body)) ++ body ++ rest)) (2 + length body)) as [H|_].
  { revert H. len. }
  fold (lenN body). rewrite (drop_app_length' _ _ 2) by done.
  rewrite take_app_length. do 2 f_equal.
  rewrite app_assoc. apply drop_app_length'. len.
Qed.

Lemma frame_length body : (2 <= length (frame body))%nat.
Proof. unfold frame. len. Qed.

Lemma lenN_frame body : lenN (frame body) = 2 + lenN body.
Proof. unfold frame, lenN. len. Qed.

Lemma next_body_shrinks d body d' :
  next_body d = (Some body, d') -> (length (buf d') < length (buf d))%nat.
Proof.
  intros [Hd _]%next_body_Some. rewrite Hd. pose proof (frame_length body). len.
Qed.

(** Bytes that follow do not change a complete frame at the front. *)
Lemma next_body_push d bs body d' :
  next_body d = (Some body, d') -> next_body (push d bs) = (Some body, push d' bs).
Proof.
  intros [Hd Hb]%next_body_Some. unfold push. rewrite Hd, <- app_assoc.
  by apply next_body_frame.
Qed.

Lemma drain_fuel_enough n m d :
  (length (buf d) <= n)%nat -> (length (buf d) <= m)%nat -> drain_fuel n d = drain_fuel m d.
Proof.
  revert m d; induction n as [|n IH]; intros m d Hn Hm.
  - destruct m as [|m]; [done|]. destruct d as [[|b l]]; [done|cbn in Hn; lia].
  - destruct m as [|m]; [destruct d as [[|b l]]; [done|cbn in Hm; lia]|].
    cbn. destruct (next_body d) as [[body|] d'] eqn:E; [|done].
    apply next_body_shrinks in E. rewrite (IH m d'); [done|lia|lia].
Qed.

(** One round of the loop. *)
Lemma drain_unfold d :
  drain d = match next_body d with
            | (Some body, d') => let '(bodies, d'') := drain d' in (body :: bodies, d'')
            | (None, d') => ([], d')
            end.
Proof.
  unfold drain at 1. destruct (length (buf d)) as [|n] eqn:El.
  - destruct d as [[|]]; [|done]. done.
  - cbn [drain_fuel]. destruct (next_body d) as [[body|] d'] eqn:E; [|done].
    apply next_body_shrinks in E. unfold drain.
    rewrite (drain_fuel_enough n (length (buf d')) d') by lia. done.
Qed.

Lemma drain_ind (P : t -> Prop) :
  (forall d, fst (next_body d) = None -> P d) ->
  (forall d body d', next_body d = (Some body, d') -> P d' -> P d) ->
  forall d, P d.
Proof.
  intros Hnone Hsome d. remember (length (buf d)) as n eqn:Hn. revert d Hn.
  induction (lt_wf n) as [n _ IH]. intros d ->.
  destruct (next_body d) as [[body|] d'] eqn:E.
  - eapply Hsome; [exact E|]. eapply IH; [|reflexivity]. by eapply next_body_shrinks.
  - apply Hnone. by rewrite E.
Qed.

(** Draining early loses nothing. *)
Lemma drain_push d bs :
  drain (push d bs) =
    let '(b1, d1) := drain d in
    let '(b2, d2) := drain (push d1 bs) in (b1 ++ b2, d2).
Proof.
  induction d as [d Hnone|d body d' E IH] using drain_ind.
  - rewrite (drain_unfold d). destruct (next_body d) as [[]  d'] eqn:E; [done|].
    apply next_body_None in E as ->. by destruct (drain (push d bs)).
  - rewrite (drain_unfold (push d bs)), (next_body_push _ _ _ _ E), (drain_unfold d), E, IH.
    destruct (drain d') as [b1 d1]. by destruct (drain (push d1 bs)).
Qed.

Lemma push_push d a b : push (push d a) b = push d (a ++ b).
Proof. unfold push. cbn. by rewrite <- app_assoc. Qed.

Lemma push_nil d : push d [] = d.
Proof. destruct d. unfold push. cbn. by rewrite app_nil_r. Qed.

Lemma drain_done d : fst (next_body (drain d).2) = None.
Proof.
  induction d as [d Hnone|d body d' E IH] using drain_ind; rewrite drain_unfold.
  - destruct (next_body d) as [[] d'] eqn:E; [done|]. pose proof (next_body_None _ _ E) as ->. cbn [snd]. by rewrite E.
  - rewrite E. by destruct (drain d').
Qed.

Lemma feed_drain d chunks : fst (next_body d) = None -> feed d chunks = drain (push d (concat chunks)).
Proof.
  revert d; induction chunks as [|c cs IH]; intros d Hd; cbn [feed concat].
  - rewrite push_nil, drain_unfold. destruct (next_body d) as [[] d'] eqn:E; [done|].
    by apply next_body_None in E as ->.
  - rewrite <- push_push, (drain_push (push d c)). destruct (drain (push d c)) as [b1 d1] eqn:E1.
    rewrite IH; [done|]. pose proof (drain_done (push d c)) as Hd'. by rewrite E1 in Hd'.
Qed.

Lemma drain_stream bodies tail :
  Forall (fun b => lenN b <= u16_max) bodies -> incomplete tail ->
  drain (mk (stream bodies tail)) = (bodies, mk tail).
Proof.
  intros Hb Ht. induction Hb as [|b bodies Hb Hbs IH]; unfold stream; cbn [map concat app].
  - rewrite drain_unfold. unfold incomplete in Ht.
    destruct (next_body (mk tail)) as [[] d'] eqn:E; [done|]. by apply next_body_None in E as ->.
  - rewrite <- app_assoc, drain_unfold, next_body_frame by done.
    unfold stream in IH. by rewrite IH.
Qed.

Section Lemmas.
Context {cbor : Cbor}.

Lemma encode_frame_eq m : encode_frame m = frame <$> encode_message m.
Proof.
  unfold encode_frame. destruct (encode_message m) as [body| |] eqn:E; try done. cbn.
  apply encode_message_parts in E as (p & Hp & Hlen & _). apply padded_len_bounds in Hp as [_ Hp].
  unfold u16_try_from, u16_max. destruct (N.leb_spec (lenN body) 65535); [done|lia].
Qed.

Lemma encoded_body_u16 m body : encode_message m = Ok body -> lenN body <= u16_max.
Proof.
  intros (p & Hp & Hlen & _)%encode_message_parts. apply padded_len_bounds in Hp as [_ Hp].
  unfold u16_max. lia.
Qed.

End Lemmas.

(** ** Properties *)

(** C28: reassembly. However a stream of frames (with a possibly incomplete
    last one) is cut into segments, feeding the segments to a fresh decoder
    and draining after each yields exactly the frame bodies, in order, and
    keeps exactly the incomplete tail buffered. *)
Theorem frame_reassembly bodies tail chunks :
  Forall (fun b => lenN b <= u16_max) bodies -> incomplete tail ->
  concat chunks = stream bodies tail ->
  feed new chunks = (bodies, mk tail).
Proof.
  intros Hb Ht Hc. rewrite feed_drain by done. unfold push, new. cbn. rewrite Hc.
  by apply drain_stream.
Qed.

Lemma frame_reassembly_witness :
  let b1 := map byte_of [1; 2; 3] in let b2 := map byte_of [9] in
  let tail := map byte_of [0; 4; 7] in
  feed new [map byte_of [0]; map byte_of [3; 1; 2]; map byte_of [3; 0; 1; 9; 0]; map byte_of [4; 7]]
    = ([b1; b2], mk tail).
Proof.
  intros b1 b2 tail. apply frame_reassembly.
  - solve_bounds.
  - reflexivity.
  - reflexivity.
Defined.

(** Frame round trip. The encoding of a message, followed by any bytes,
    yields the message and leaves the following bytes; the frame is two
    octets longer than a permitted padded length, and the length casts never
    abort. *)
Theorem frame_roundtrip {cbor : Cbor} m fr rest :
  wf_message m -> encode_frame m = Ok fr ->
  next_message (mk (fr ++ rest)) = (Ok (Some m), mk rest) /\
  (exists p, permitted p /\ lenN fr = p + 2).
Proof.
  rewrite encode_frame_eq. intros Hwf. destruct (encode_message m) as [body| |] eqn:E; try done.
  intros [= <-]. unfold next_message.
  rewrite next_body_frame by by eapply encoded_body_u16.
  rewrite (decode_encode_message m body) by done. split; [done|].
  apply encode_message_parts in E as (p & Hp & Hlen & _).
  exists p. split; [by eapply padded_len_permitted|].
  unfold frame, lenN in *. len.
Qed.

Lemma frame_roundtrip_witness :
  exists fr, encode_frame sample_hello = Ok fr /\
    next_message (mk (fr ++ [byte_of 5])) = (Ok (Some sample_hello), mk [byte_of 5]).
Proof.
  eexists. split; [vm_compute; reflexivity|].
  refine (proj1 (frame_roundtrip sample_hello _ [byte_of 5] _ _)).
  - solve_bounds.
  - vm_compute. reflexivity.
Defined.
