(* ===== verification/Item.v ===== *)
(** * The reconciliation order: store/item.rs

    Items compare by sort key, ties broken by the id bytes. *)
From S2P Require Import Prelude.
From Stdlib Require Import Sorting.Sorted.
Open Scope N_scope.

(** sync/negentropy/bound.rs [ID_SIZE]. *)
Definition ID_SIZE : nat := 32.

Module Item.

Record t : Type := mk { sort_key : N; id : bytes }.

#[export] Instance t_eq_dec : EqDecision t.
Proof. solve_decision. Defined.

#[global] Instance eq_dec : EqDecision t.
Proof. solve_decision. Defined.

(** The derived [Ord]: fields in declaration order. *)
Definition cmp (a b : t) : comparison :=
  match sort_key a ?= sort_key b with
  | Eq => bytes_cmp (id a) (id b)
  | c => c
  end.

Definition wf (a : t) : Prop := length (id a) = ID_SIZE /\ sort_key a <= u64_max.

Definition lt (a b : t) : Prop := cmp a b = Lt.
Definition ltb (a b : t) : bool := match cmp a b with Lt => true | _ => false end.

Lemma cmp_refl a : cmp a a = Eq.
Proof. unfold cmp. by rewrite N.compare_refl, bytes_cmp_refl. Qed.

Lemma cmp_eq a b : cmp a b = Eq <-> a = b.
Proof.
  split; [|intros ->; apply cmp_refl]. unfold cmp. destruct a as [ka ia], b as [kb ib]; cbn.
  destruct (ka ?= kb) eqn:E; try done. apply N.compare_eq_iff in E as ->.
  intros H%bytes_cmp_eq. by subst.
Qed.

Lemma cmp_antisym a b : cmp b a = CompOpp (cmp a b).
Proof.
  unfold cmp. rewrite (N.compare_antisym (sort_key a)), bytes_cmp_antisym.
  by destruct (sort_key a ?= sort_key b); cbn.
Qed.

Lemma lt_trans a b c : lt a b -> lt b c -> lt a c.
Proof.
  unfold lt, cmp.
  destruct (N.compare_spec (sort_key a) (sort_key b)),
    (N.compare_spec (sort_key b) (sort_key c)),
    (N.compare_spec (sort_key a) (sort_key c)); intros;
    first [done | exfalso; lia | by eapply bytes_cmp_trans].
Qed.

Lemma lt_irrefl a : ~ lt a a.
Proof. unfold lt. by rewrite cmp_refl. Qed.

Lemma cmp_gt a b : cmp a b = Gt <-> lt b a.
Proof. unfold lt. rewrite (cmp_antisym a b). by destruct (cmp a b). Qed.

Lemma ltb_lt a b : ltb a b = true <-> lt a b.
Proof. unfold ltb, lt. by destruct (cmp a b). Qed.

Lemma ltb_ge a b : ltb a b = false <-> ~ lt a b.
Proof. rewrite <- ltb_lt. by destruct (ltb a b). Qed.

(** [a] is not after [b]. *)
Definition le (a b : t) : Prop := ~ lt b a.

Lemma le_lt_trans a b c : le a b -> lt b c -> lt a c.
Proof.
  unfold le. intros Hab Hbc. destruct (cmp a b) eqn:E.
  - by apply cmp_eq in E as ->.
  - by eapply lt_trans.
  - by apply cmp_gt in E.
Qed.

Lemma lt_le_trans a b c : lt a b -> le b c -> lt a c.
Proof.
  unfold le. intros Hab Hbc. destruct (cmp b c) eqn:E.
  - by apply cmp_eq in E as <-.
  - by eapply lt_trans.
  - by apply cmp_gt in E.
Qed.

#[export] Instance lt_transitive : Transitive lt.
Proof. intros a b c. apply lt_trans. Qed.

(** Duplicate-free ascending lists. *)
Definition sorted (l : list t) : Prop := StronglySorted lt l.

Lemma sorted_app l1 l2 :
  sorted (l1 ++ l2) <->
    sorted l1 /\ sorted l2 /\ forall a b, a ∈ l1 -> b ∈ l2 -> lt a b.
Proof.
  unfold sorted. induction l1 as [|x l1 IH]; cbn.
  - split; [|by intros (_ & ? & _)]. intros H. split_and!; [constructor|done|set_solver].
  - split.
    + intros [Hs Hx]%StronglySorted_inv. apply IH in Hs as (H1 & H2 & H3).
      rewrite Forall_app in Hx. destruct Hx as [Hx1 Hx2]. rewrite Forall_forall in Hx2.
      split_and!; [by constructor|done|]. intros a b [->|Ha]%elem_of_cons Hb; eauto.
    + intros ([H1 Hx]%StronglySorted_inv & H2 & H3). constructor.
      * apply IH. split_and!; [done|done|]. intros. apply H3; [by right|done].
      * apply Forall_app. split; [done|]. apply Forall_forall. intros b Hb. apply H3; [by left|done].
Qed.

Lemma sorted_middle l1 x l2 :
  sorted (l1 ++ x :: l2) <->
    sorted l1 /\ sorted l2 /\ (forall a, a ∈ l1 -> lt a x) /\ (forall b, b ∈ l2 -> lt x b).
Proof.
  rewrite sorted_app. split.
  - intros (H1 & [H2 Hx]%StronglySorted_inv & H3). rewrite Forall_forall in Hx.
    split_and!; [done|done|intros; apply H3; set_solver|done].
  - intros (H1 & H2 & H3 & H4). split_and!; [done| |].
    + constructor; [done|by apply Forall_forall].
    + intros a b Ha [->|Hb]%elem_of_cons; [eauto|]. eapply lt_trans; eauto.
Qed.

Lemma sorted_NoDup l : sorted l -> NoDup l.
Proof.
  induction 1 as [|x l Hs IH Hx]; constructor; [|done].
  intros Hin. rewrite Forall_forall in Hx. by eapply lt_irrefl, Hx.
Qed.

(** Two sorted lists with the same elements are equal. *)
Lemma sorted_ext l1 l2 : sorted l1 -> sorted l2 -> (forall a, a ∈ l1 <-> a ∈ l2) -> l1 = l2.
Proof.
  intros H1. revert l2. induction H1 as [|x l1 Hs IH Hx]; intros l2 H2 Heq.
  - destruct l2 as [|y l2]; [done|]. exfalso. apply (not_elem_of_nil y), Heq. by left.
  - destruct l2 as [|y l2]; [exfalso; apply (not_elem_of_nil x), Heq; by left|].
    apply StronglySorted_inv in H2 as [H2 Hy]. rewrite Forall_forall in Hx, Hy.
    assert (Hxy : x = y).
    { assert (Hx' : x ∈ y :: l2) by (apply Heq; by left).
      assert (Hy' : y ∈ x :: l1) by (apply Heq; by left).
      apply elem_of_cons in Hx' as [|Hx']; [done|].
      apply elem_of_cons in Hy' as [|Hy']; [done|].
      exfalso. eapply lt_irrefl, lt_trans; [by apply Hx|by apply Hy]. }
    subst y. f_equal. apply IH; [done|]. intros a. specialize (Heq a).
    rewrite !elem_of_cons in Heq. split; intros Ha.
    + assert (a <> x) by (intros ->; by eapply lt_irrefl, Hx). tauto.
    + assert (a <> x) by (intros ->; by eapply lt_irrefl, Hy). tauto.
Qed.

#[export] Hint Resolve lt_trans cmp_refl lt_irrefl : racnet.
End Item.

(** ** Properties *)

(** The item order is the total order of PROTOCOL.md section 6.1:
    ascending sort key, ties by ascending id bytes; comparison is
    antisymmetric and transitive and identifies only equal items. *)
Theorem item_order a b c :
  (Item.lt a b <->
     Item.sort_key a < Item.sort_key b \/
     (Item.sort_key a = Item.sort_key b /\ bytes_cmp (Item.id a) (Item.id b) = Lt)) /\
  (Item.cmp a b = Eq <-> a = b) /\
  Item.cmp b a = CompOpp (Item.cmp a b) /\
  (Item.lt a b -> Item.lt b c -> Item.lt a c).
Proof.
  split_and!; [|apply Item.cmp_eq|apply Item.cmp_antisym|apply Item.lt_trans].
  unfold Item.lt, Item.cmp.
  destruct (N.compare_spec (Item.sort_key a) (Item.sort_key b)); split; intros H';
    first [done | right; by split | by left | destruct H' as [|[]]; try lia; done].
Qed.
