(* ===== verification/IdSum.v ===== *)
(** * Id sums and range fingerprints: sync/negentropy/fingerprint.rs

    The sum of 32-byte ids modulo 2^256 in four little-endian 64-bit limbs,
    and the fingerprint built from it. *)
From S2P Require Import Prelude Errors Varint Crypto Item.
Open Scope N_scope.

Definition FINGERPRINT_SIZE : nat := 16.

(** [u64::overflowing_add]. *)
Definition overflowing_add (a b : N) : N * bool := ((a + b) mod u64_mod, u64_mod <=? a + b).

(** [as_chunks::<8>().0]. *)
Fixpoint chunks8 (n : nat) (bs : bytes) : list bytes :=
  match n with
  | O => []
  | S n => take 8 bs :: chunks8 n (drop 8 bs)
  end.

Module IdSum.

Record t : Type := mk { limbs : list N }.

Definition zero : t := mk [0; 0; 0; 0].

(** The loop of [add_limbs]: [zip] stops at the shorter list. *)
Fixpoint add_loop (carry : bool) (limbs other : list N) : list N :=
  match limbs, other with
  | limb :: ls, add :: os =>
      let '(sum, c1) := overflowing_add limb add in
      let '(sum, c2) := overflowing_add sum (if carry then 1 else 0) in
      sum :: add_loop (c1 || c2) ls os
  | ls, _ => ls
  end.

Definition add_limbs (s : t) (other : list N) : t := mk (add_loop false (limbs s) other).

Definition add_id (s : t) (id : bytes) : t :=
  add_limbs s (map le_val (chunks8 4 id)).

Definition combine (s other : t) : t := add_limbs s (limbs other).

Definition negate (s : t) : t :=
  let s' := mk (map (fun limb => u64_max - limb) (limbs s)) in
  add_id s' (byte_of 1 :: replicate 31 zero_byte).

Definition to_le_bytes (s : t) : bytes := concat (map (le_bytes 8) (limbs s)).

Definition fingerprint {crypto : Crypto} (s : t) (count : N) : bytes :=
  take FINGERPRINT_SIZE (sha256 (to_le_bytes s ++ write_varint count)).

(** ** The value of a sum *)

Definition modulus : N :=
  115792089237316195423570985008687907853269984665640564039457584007913129639936.

Fixpoint val_limbs (ls : list N) : N :=
  match ls with
  | [] => 0
  | l :: ls => l + u64_mod * val_limbs ls
  end.
Definition val (s : t) : N := val_limbs (limbs s).

Definition wf (s : t) : Prop := length (limbs s) = 4%nat /\ Forall (fun l => l < u64_mod) (limbs s).

(** The sum a list of ids denotes, and the sum the code accumulates. *)
Fixpoint ids_val (ids : list bytes) : N :=
  match ids with
  | [] => 0
  | i :: ids => le_val i + ids_val ids
  end.
Definition sum_ids (ids : list bytes) : t := foldl add_id zero ids.

(** ** Lemmas *)

Lemma add_loop_cons carry l ls o os :
  add_loop carry (l :: ls) (o :: os) =
    ((l + o) mod u64_mod + (if carry then 1 else 0)) mod u64_mod ::
    add_loop ((u64_mod <=? l + o) ||
              (u64_mod <=? (l + o) mod u64_mod + (if carry then 1 else 0))) ls os.
Proof. reflexivity. Qed.

Lemma mod_div_once M x : x < M -> x mod M = x /\ x / M = 0.
Proof. intros H. split; [by apply N.mod_small | by apply N.div_small]. Qed.

Lemma mod_div_twice M x : M <= x < 2 * M -> x mod M = x - M /\ x / M = 1.
Proof.
  intros H. split; symmetry; [apply N.mod_unique with 1 | apply N.div_unique with (x - M)]; lia.
Qed.

(** Two overflowing additions carry at most once. *)
Lemma carry_step M a k : a + 1 < 2 * M -> k <= 1 ->
  (a mod M + k) mod M = (a + k) mod M /\
  (if (M <=? a) || (M <=? a mod M + k) then 1 else 0) = (a + k) / M.
Proof.
  intros Ha Hk. destruct (N.leb_spec M a) as [Hm|Hm]; cbn [orb].
  - destruct (mod_div_twice M a) as [-> _]; [lia|]. destruct (mod_div_twice M (a + k)) as [-> ->]; [lia|].
    destruct (mod_div_once M (a - M + k)) as [-> _]; [lia|]. split; [lia|done].
  - destruct (mod_div_once M a) as [-> _]; [lia|]. split; [done|].
    destruct (N.leb_spec M (a + k)) as [Hk'|Hk'].
    + destruct (mod_div_twice M (a + k)) as [_ ->]; [lia|done].
    + destruct (mod_div_once M (a + k)) as [_ ->]; [lia|done].
Qed.

Lemma add_loop_val carry ls os :
  length ls = length os -> Forall (fun l => l < u64_mod) ls -> Forall (fun l => l < u64_mod) os ->
  let r := add_loop carry ls os in
  length r = length ls /\ Forall (fun l => l < u64_mod) r /\
  val_limbs r = (val_limbs ls + val_limbs os + (if carry then 1 else 0)) mod u64_mod ^ N.of_nat (length ls).
Proof.
  intros Hlen Hls Hos. cbv zeta. revert carry os Hlen Hos.
  induction Hls as [|l ls Hl Hls IH]; intros carry [|o os] Hlen Hos; try done.
  - cbn. split_and!; [done|constructor|]. by rewrite N.mod_1_r.
  - apply Forall_cons in Hos as [Ho Hos]. injection Hlen as Hlen.
    rewrite add_loop_cons. set (c := (u64_mod <=? l + o) || _).
    destruct (IH c os Hlen Hos) as (IH1 & IH2 & IH3). cbn [length].
    split_and!; [by f_equal|constructor; [unfold u64_mod; lia|done]|].
    cbn [val_limbs]. rewrite IH3, Nat2N.inj_succ, N.pow_succ_r', N.Div0.mod_mul_r.
    set (P := u64_mod ^ N.of_nat (length ls)).
    assert (Hc : (((l + o) mod u64_mod + (if carry then 1 else 0)) mod u64_mod) =
                 (l + o + (if carry then 1 else 0)) mod u64_mod /\
                 (if c then 1 else 0) = (l + o + (if carry then 1 else 0)) / u64_mod).
    { apply carry_step; [unfold u64_mod in *; lia | by destruct carry]. }
    destruct Hc as [Hc1 Hc2]. rewrite Hc1, Hc2.
    replace (l + u64_mod * val_limbs ls + (o + u64_mod * val_limbs os) + (if carry then 1 else 0))
      with ((l + o + (if carry then 1 else 0)) + (val_limbs ls + val_limbs os) * u64_mod) by lia.
    rewrite N.Div0.mod_add, N.div_add by done. f_equal. f_equal. f_equal. lia.
Qed.

Lemma pow_limbs : u64_mod ^ N.of_nat 4 = modulus.
Proof. reflexivity. Qed.

Lemma add_limbs_spec s os :
  wf s -> length os = 4%nat -> Forall (fun l => l < u64_mod) os ->
  wf (add_limbs s os) /\ val (add_limbs s os) = (val s + val_limbs os) mod modulus.
Proof.
  intros [Hl Hb] Hlo Hbo. destruct (add_loop_val false (limbs s) os) as (H1 & H2 & H3); [congruence|done|done|].
  unfold wf, val, add_limbs. cbn [limbs]. rewrite H1, H3, Hl, N.add_0_r. done.
Qed.

Lemma id_limbs id : length id = ID_SIZE ->
  length (map le_val (chunks8 4 id)) = 4%nat /\
  Forall (fun l => l < u64_mod) (map le_val (chunks8 4 id)) /\
  val_limbs (map le_val (chunks8 4 id)) = le_val id.
Proof.
  unfold ID_SIZE. intros Hlen. do 33 (destruct id as [|? id]; try done). clear Hlen.
  split_and!; [done| |].
  - repeat (apply List.Forall_cons; [|]); [..|apply List.Forall_nil];
      match goal with |- le_val ?l < _ => pose proof (le_val_bound l) as Hb end;
      cbn [chunks8 take length] in *; cbn [firstn] in *; exact Hb.
  - cbn [chunks8 map val_limbs take drop firstn skipn le_val]. unfold u64_mod. lia.
Qed.

Lemma add_id_spec s id : wf s -> length id = ID_SIZE ->
  wf (add_id s id) /\ val (add_id s id) = (val s + le_val id) mod modulus.
Proof.
  intros Hs Hid. destruct (id_limbs id Hid) as (H1 & H2 & H3). rewrite <- H3.
  by apply add_limbs_spec.
Qed.

Lemma combine_spec a b : wf a -> wf b ->
  wf (combine a b) /\ val (combine a b) = (val a + val b) mod modulus.
Proof. intros Ha [Hb1 Hb2]. by apply add_limbs_spec. Qed.

Lemma val_bound s : wf s -> val s < modulus.
Proof.
  intros [Hl Hb]. destruct s as [ls]; cbn in *.
  do 5 (destruct ls as [|? ls]; try done). repeat (apply Forall_cons in Hb as [? Hb]).
  unfold val. cbn [limbs val_limbs]. unfold modulus, u64_mod in *. lia.
Qed.

Lemma val_inj a b : wf a -> wf b -> val a = val b -> a = b.
Proof.
  intros [Hla Hba] [Hlb Hbb]. destruct a as [la], b as [lb]; cbn in *. unfold val; cbn.
  intros Hv. f_equal. rewrite <- Hlb in Hla. clear Hlb. revert lb Hla Hbb Hv.
  induction Hba as [|x la Hx Hba IH]; intros [|y lb] Hl Hbb Hv; try done.
  apply Forall_cons in Hbb as [Hy Hbb]. injection Hl as Hl. cbn [val_limbs] in Hv.
  assert (x = y /\ val_limbs la = val_limbs lb) as [-> Hv'].
  { unfold u64_mod in *. lia. }
  f_equal. by apply IH.
Qed.

Lemma wf_zero : wf zero.
Proof. split; [done|]. repeat constructor. Qed.

Lemma negate_spec s : wf s ->
  wf (negate s) /\ val (negate s) = (modulus - val s) mod modulus.
Proof.
  intros Hs. pose proof (val_bound s Hs) as Hv. destruct Hs as [Hl Hb].
  assert (Hn : wf (mk (map (fun limb => u64_max - limb) (limbs s))) /\
               val (mk (map (fun limb => u64_max - limb) (limbs s))) = modulus - 1 - val s).
  { destruct s as [ls]; cbn in *. do 5 (destruct ls as [|? ls]; try done).
    repeat (apply Forall_cons in Hb as [? Hb]). split.
    - split; [done|]. cbn. repeat constructor; unfold u64_max, u64_mod; lia.
    - unfold val. cbn [limbs map val_limbs]. unfold modulus, u64_mod, u64_max in *. lia. }
  destruct Hn as [Hwf Hval]. unfold negate.
  destruct (add_id_spec _ (byte_of 1 :: replicate 31 zero_byte) Hwf eq_refl) as [H1 H2].
  split; [exact H1|]. rewrite H2, Hval.
  change (le_val (byte_of 1 :: replicate 31 zero_byte)) with 1. f_equal. lia.
Qed.

Lemma length_to_le_bytes s : wf s -> length (to_le_bytes s) = ID_SIZE.
Proof.
  intros [Hl _]. destruct s as [ls]; cbn in *. by do 5 (destruct ls as [|? ls]; try done).
Qed.

Lemma sum_ids_from_spec s ids : wf s -> Forall (fun i => length i = ID_SIZE) ids ->
  wf (foldl add_id s ids) /\ val (foldl add_id s ids) = (val s + ids_val ids) mod modulus.
Proof.
  intros Hs Hids. revert s Hs. induction Hids as [|i ids Hi Hids IH]; intros s Hs; cbn.
  - split; [done|]. rewrite N.add_0_r, N.mod_small; [done|by apply val_bound].
  - destruct (add_id_spec s i Hs Hi) as [H1 H2]. destruct (IH _ H1) as [H3 H4].
    split; [done|]. rewrite H4, H2, N.Div0.add_mod_idemp_l. f_equal. lia.
Qed.

Lemma sum_ids_spec ids : Forall (fun i => length i = ID_SIZE) ids ->
  wf (sum_ids ids) /\ val (sum_ids ids) = ids_val ids mod modulus.
Proof. intros H. apply (sum_ids_from_spec zero ids wf_zero H). Qed.

Lemma ids_val_app a b : ids_val (a ++ b) = ids_val a + ids_val b.
Proof. induction a; cbn; lia. Qed.

Lemma ids_val_perm a b : a ≡ₚ b -> ids_val a = ids_val b.
Proof. induction 1; cbn; lia. Qed.

Lemma sum_ids_combine a b :
  Forall (fun i => length i = ID_SIZE) a -> Forall (fun i => length i = ID_SIZE) b ->
  combine (sum_ids a) (sum_ids b) = sum_ids (a ++ b).
Proof.
  intros Ha Hb. destruct (sum_ids_spec a Ha) as [Hwa Hva], (sum_ids_spec b Hb) as [Hwb Hvb].
  destruct (combine_spec _ _ Hwa Hwb) as [Hw Hv].
  destruct (sum_ids_spec (a ++ b)) as [Hw' Hv']; [by apply Forall_app|].
  apply val_inj; [done|done|]. by rewrite Hv, Hv', Hva, Hvb, ids_val_app, <- N.Div0.add_mod.
Qed.

(** Prefix sums subtract: [sum(a ++ b) + (-sum a) = sum b]. *)
Lemma sum_ids_subtract a b :
  Forall (fun i => length i = ID_SIZE) a -> Forall (fun i => length i = ID_SIZE) b ->
  combine (sum_ids (a ++ b)) (negate (sum_ids a)) = sum_ids b.
Proof.
  intros Ha Hb. destruct (sum_ids_spec a Ha) as [Hwa Hva], (sum_ids_spec b Hb) as [Hwb Hvb].
  destruct (sum_ids_spec (a ++ b)) as [Hw' Hv']; [by apply Forall_app|].
  destruct (negate_spec _ Hwa) as [Hwn Hvn]. destruct (combine_spec _ _ Hw' Hwn) as [Hw Hv].
  apply val_inj; [done|done|]. rewrite Hv, Hvn, Hv', Hvb, <- N.Div0.add_mod, ids_val_app.
  pose proof (val_bound _ Hwa) as Hlt. rewrite Hva in *.
  replace (ids_val a + ids_val b + (modulus - ids_val a mod modulus))
    with (ids_val b + (ids_val a / modulus + 1) * modulus).
  - exact (N.Div0.mod_add _ _ _).
  - pose proof (N.div_mod' (ids_val a) modulus) as Hdiv.
    revert Hdiv Hlt. generalize (ids_val a / modulus), (ids_val a mod modulus), modulus.
    clear. intros. lia.
Qed.

#[export] Hint Resolve wf_zero : racnet.
End IdSum.
Import IdSum.

(** ** Properties *)

(** The limb arithmetic is arithmetic modulo 2^256. Adding an id adds its
    little-endian value, combining adds the two sums, negation subtracts from
    2^256, and equal values mean equal limbs: no carry is lost except the
    final one. *)
Theorem idsum_arithmetic a b id :
  IdSum.wf a -> IdSum.wf b -> length id = ID_SIZE ->
  val (add_id a id) = (val a + le_val id) mod 2 ^ 256 /\
  val (combine a b) = (val a + val b) mod 2 ^ 256 /\
  val (negate a) = (2 ^ 256 - val a) mod 2 ^ 256 /\
  combine a (negate a) = zero /\
  (val a = val b -> a = b).
Proof.
  intros Ha Hb Hid. destruct (negate_spec a Ha) as [Hwn Hvn].
  split_and!; [by apply add_id_spec|by apply combine_spec|done| |by apply val_inj].
  destruct (combine_spec a _ Ha Hwn) as [Hwc Hvc]. apply val_inj; [done|apply wf_zero|].
  rewrite Hvc, Hvn, N.Div0.add_mod_idemp_r. pose proof (val_bound a Ha).
  replace (val a + (modulus - val a)) with modulus by lia.
  by rewrite N.Div0.mod_same.
Qed.

Lemma idsum_arithmetic_witness :
  let a := sum_ids [replicate 32 (byte_of 255)] in
  val (add_id a (byte_of 1 :: replicate 31 zero_byte)) = 0 /\ combine a (negate a) = zero.
Proof.
  intros a. assert (Ha : IdSum.wf a).
  { apply sum_ids_spec. repeat constructor. }
  destruct (idsum_arithmetic a a (byte_of 1 :: replicate 31 zero_byte) Ha Ha eq_refl)
    as (H1 & _ & _ & H2 & _).
  split; [|exact H2]. rewrite H1. vm_compute. reflexivity.
Defined.

(** Range sums. The accumulated sum of a list of ids depends only on the
    multiset of ids, composes over concatenation, and a range sum is the
    difference of two prefix sums; hence so are fingerprints. *)
Theorem idsum_ranges (xs ys zs : list bytes) :
  Forall (fun i => length i = ID_SIZE) xs -> Forall (fun i => length i = ID_SIZE) ys ->
  zs ≡ₚ xs ++ ys ->
  combine (sum_ids xs) (sum_ids ys) = sum_ids zs /\
  combine (sum_ids zs) (negate (sum_ids xs)) = sum_ids ys.
Proof.
  intros Hx Hy Hp. assert (Heq : sum_ids zs = sum_ids (xs ++ ys)).
  { assert (Hxy : Forall (fun i => length i = ID_SIZE) (xs ++ ys)) by by apply Forall_app.
    assert (Hz : Forall (fun i => length i = ID_SIZE) zs) by by rewrite Hp.
    destruct (sum_ids_spec _ Hxy) as [Hw Hv], (sum_ids_spec _ Hz) as [Hw' Hv'].
    apply val_inj; [done|done|]. by rewrite Hv, Hv', (ids_val_perm _ _ Hp). }
  rewrite Heq. split; [by apply sum_ids_combine|by apply sum_ids_subtract].
Qed.

Lemma idsum_ranges_witness :
  let i n := replicate 32 (byte_of n) in
  combine (sum_ids [i 1; i 200]) (sum_ids [i 255]) = sum_ids [i 255; i 200; i 1].
Proof.
  intros i. refine (proj1 (idsum_ranges [i 1; i 200] [i 255] _ _ _ _)).
  - repeat constructor.
  - repeat constructor.
  - apply (Permutation_rev [i 255; i 200; i 1]).
Defined.
