(* ===== verification/Bound.v ===== *)
(** * Range bounds: sync/negentropy/bound.rs

    A bound is a timestamp with an id prefix; on the wire timestamps are
    delta-encoded within one message. *)
From S2P Require Import Prelude Errors Varint Item.
From Stdlib Require Import Sorting.Sorted.
Open Scope N_scope.

Definition TS_INFINITY : N := u64_max.

Module Bound.

(** [prefix] is the 32-byte buffer, [prefix_len] the number of bytes kept. *)
Record t : Type := mk { ts : N; prefix : bytes; prefix_len : N }.

#[export] Instance t_eq_dec : EqDecision t.
Proof. solve_decision. Defined.

(** [Bound::new]: the [assert!] on the prefix length aborts. *)
Definition new {E} (ts : N) (p : bytes) : result E t :=
  if decide (length p <= ID_SIZE)%nat then
    Ok (mk ts (resize ID_SIZE zero_byte p) (lenN p))
  else Panic.

(** [Bound::new(ts, &[])] and [Bound::new(ts, id)] at a 32-byte [id]; see
    [new_from_ts] and [new_at_item]. *)
Definition from_ts (ts : N) : t := mk ts (replicate ID_SIZE zero_byte) 0.
Definition infinity : t := from_ts TS_INFINITY.
Definition at_item (ts : N) (id : bytes) : t := mk ts id (N.of_nat ID_SIZE).

(** [Bound::prefix], the accessor (the field keeps the padded buffer, which
    is what [Bound::padded_id] returns). *)
Definition prefix_bytes (b : t) : bytes := take (N.to_nat (prefix_len b)) (prefix b).
Definition padded_id (b : t) : bytes := prefix b.

Definition item_is_before (b : t) (ts' : N) (id : bytes) : bool :=
  if negb (ts' =? ts b) then ts' <? ts b
  else match bytes_cmp id (prefix b) with Lt => true | _ => false end.

(** [zip(..).take_while(|(a, b)| a == b).count()]. *)
Fixpoint shared_prefix (a b : bytes) : nat :=
  match a, b with
  | x :: a', y :: b' => if decide (x = y) then S (shared_prefix a' b') else O
  | _, _ => O
  end.

Definition min_separating {E} (prev_ts : N) (prev_id : bytes) (curr_ts : N) (curr_id : bytes) :
    result E t :=
  if negb (curr_ts =? prev_ts) then Ok (from_ts curr_ts)
  else
    let shared := shared_prefix prev_id curr_id in
    p ← expect (slice 0 (shared + 1) curr_id);
    new curr_ts p.

(** The invariant of the constructors. *)
Definition wf (b : t) : Prop :=
  ts b <= u64_max /\ prefix_len b <= N.of_nat ID_SIZE /\
  prefix b = resize ID_SIZE zero_byte (prefix_bytes b).

End Bound.

(** [BoundCodec]: the running timestamps of one message. *)
Module BoundCodec.

Record t : Type := mk { last_ts_in : N; last_ts_out : N }.

Definition new : t := mk 0 0.

Definition encode (c : t) (b : Bound.t) : t * bytes :=
  let '(c', head) :=
    if Bound.ts b =? TS_INFINITY then (mk (last_ts_in c) TS_INFINITY, write_varint 0)
    else
      let delta := Bound.ts b - last_ts_out c in
      (mk (last_ts_in c) (Bound.ts b), write_varint (delta + 1)) in
  (c', head ++ write_varint (lenN (Bound.prefix_bytes b)) ++ Bound.prefix_bytes b).

Definition decode (c : t) (input : bytes) : result SyncError.t (Bound.t * t * bytes) :=
  '(raw, input) ← read_varint input;
  let ts := if (raw =? 0) || (last_ts_in c =? TS_INFINITY) then TS_INFINITY
            else u64_saturating_add (raw - 1) (last_ts_in c) in
  let c' := mk ts (last_ts_out c) in
  '(len, input) ← read_varint input;
  if N.of_nat ID_SIZE <? len then Err (SyncError.Malformed "bound prefix longer than an id")
  else if lenN input <? len then Err (SyncError.Malformed "bound prefix ends prematurely")
  else
    '(prefix, rest) ← expect (split_at (N.to_nat len) input);
    bound ← Bound.new ts prefix;
    mret (bound, c', rest).

(** Encoding and decoding the bounds of one message in sequence. *)
Fixpoint encode_all (c : t) (bs : list Bound.t) : t * bytes :=
  match bs with
  | [] => (c, [])
  | b :: bs =>
      let '(c, out) := encode c b in
      let '(c, rest) := encode_all c bs in
      (c, out ++ rest)
  end.

Fixpoint decode_all (c : t) (n : nat) (input : bytes) : result SyncError.t (list Bound.t * t * bytes) :=
  match n with
  | O => Ok ([], c, input)
  | S n =>
      '(b, c, input) ← decode c input;
      '(bs, c, input) ← decode_all c n input;
      mret (b :: bs, c, input)
  end.

End BoundCodec.

(** ** Lemmas *)

Module BoundFacts.
Import Bound.

Lemma new_from_ts {E} ts : @new E ts [] = Ok (from_ts ts).
Proof. reflexivity. Qed.

Lemma new_at_item {E} ts id : length id = ID_SIZE -> @new E ts id = Ok (at_item ts id).
Proof.
  intros H. unfold new, at_item, lenN. rewrite decide_True by lia.
  rewrite resize_all_alt by done. by rewrite H.
Qed.

Lemma prefix_bytes_new ts p : (length p <= ID_SIZE)%nat ->
  prefix_bytes (mk ts (resize ID_SIZE zero_byte p) (lenN p)) = p.
Proof.
  intros Hp. unfold prefix_bytes, lenN. cbn [prefix prefix_len]. rewrite Nat2N.id, resize_ge by done.
  apply take_app_length.
Qed.

Lemma bound_new_wf {E} ts p b : ts <= u64_max -> @new E ts p = Ok b -> wf b /\ Bound.ts b = ts /\ prefix_bytes b = p.
Proof.
  intros Hts. unfold new. case_decide as Hp; [|done]. intros [= <-].
  unfold wf. rewrite prefix_bytes_new by done. split_and!; try done.
  unfold lenN, ID_SIZE in *. cbn [prefix_len]. lia.
Qed.

Lemma wf_from_ts ts : ts <= u64_max -> wf (from_ts ts).
Proof. intros H. split_and!; [done|cbn; lia|reflexivity]. Qed.

Lemma wf_at_item ts id : ts <= u64_max -> length id = ID_SIZE -> wf (at_item ts id).
Proof.
  intros H Hid. apply (bound_new_wf (E := unit) ts id); [done|]. by apply new_at_item.
Qed.

Lemma length_prefix b : wf b -> length (prefix b) = ID_SIZE.
Proof. intros (_ & _ & ->). apply length_resize. Qed.

Lemma length_prefix_bytes b : wf b -> lenN (prefix_bytes b) = prefix_len b.
Proof.
  intros Hb. pose proof (length_prefix b Hb) as Hl. destruct Hb as (_ & Hp & _).
  unfold prefix_bytes, lenN, ID_SIZE in *. rewrite length_take. lia.
Qed.

Lemma bound_ext a b : wf a -> wf b -> ts a = ts b -> prefix_bytes a = prefix_bytes b -> a = b.
Proof.
  intros Ha Hb Hts Hp. pose proof (length_prefix_bytes a Ha). pose proof (length_prefix_bytes b Hb).
  destruct Ha as (_ & _ & Ha), Hb as (_ & _ & Hb). destruct a, b; cbn in *. subst.
  f_equal; congruence.
Qed.

(** An item is before a bound exactly when it is before the padded item. *)
Lemma item_is_before_lt b i :
  item_is_before b (Item.sort_key i) (Item.id i) = Item.ltb i (Item.mk (ts b) (padded_id b)).
Proof.
  unfold item_is_before, Item.ltb, Item.cmp, padded_id. cbn.
  destruct (N.compare_spec (Item.sort_key i) (ts b)) as [->|H|H].
  - by rewrite N.eqb_refl.
  - destruct (N.eqb_spec (Item.sort_key i) (ts b)); [lia|]. cbn. by apply N.ltb_lt.
  - destruct (N.eqb_spec (Item.sort_key i) (ts b)); [lia|]. cbn. apply N.ltb_ge. lia.
Qed.

(** *** Lexicographic facts *)

Lemma bytes_cmp_zero l : bytes_cmp l (replicate (length l) zero_byte) <> Lt.
Proof.
  induction l as [|x l IH]; cbn; [done|].
  destruct (N.compare_spec (byte_val x) 0) as [H|H|H]; [done|lia|done].
Qed.

(** The prefix up to and including the first difference, zero-padded, is
    after the smaller string and not after the larger. *)
Lemma shared_prefix_separates a b n :
  length a = n -> length b = n -> bytes_cmp a b = Lt ->
  (shared_prefix a b < n)%nat /\
  bytes_cmp a (resize n zero_byte (take (S (shared_prefix a b)) b)) = Lt /\
  bytes_cmp b (resize n zero_byte (take (S (shared_prefix a b)) b)) <> Lt.
Proof.
  intros Ha Hb. revert b n Ha Hb. induction a as [|x a IH]; intros [|y b] n Ha Hb; try done; subst n.
  { cbn in Hb. done. }
  cbn [bytes_cmp shared_prefix]. injection Hb as Hb.
  destruct (decide (x = y)) as [->|Hne].
  - rewrite N.compare_refl. intros Hlt. destruct (IH b (length a) eq_refl Hb Hlt) as (H1 & H2 & H3).
    cbn [length take firstn resize bytes_cmp]. rewrite N.compare_refl. split_and!; [lia|done|done].
  - destruct (N.compare_spec (byte_val x) (byte_val y)) as [He|Hlt|Hgt]; intros Hc; try done.
    { exfalso. by apply Hne, byte_val_inj. }
    cbn [length take firstn resize bytes_cmp]. rewrite N.compare_refl.
    apply N.compare_lt_iff in Hlt. rewrite Hlt. split_and!; [lia|done|].
    rewrite <- Hb, take_0, resize_nil. apply bytes_cmp_zero.
Qed.

(** No padded prefix of at most the shared length separates. *)
Lemma shared_prefix_minimal a b p n :
  length a = n -> length b = n -> (length p <= shared_prefix a b)%nat ->
  bytes_cmp a (resize n zero_byte p) = Lt -> bytes_cmp b (resize n zero_byte p) = Lt.
Proof.
  intros Ha Hb. revert b p n Ha Hb. induction a as [|x a IH]; intros [|y b] p n Ha Hb; try done;
    try (by subst; cbn in *).
  cbn [shared_prefix]. destruct (decide (x = y)) as [->|Hne].
  - subst n. destruct p as [|z p]; cbn [length resize bytes_cmp replicate].
    + intros _. pose proof (bytes_cmp_zero (y :: a)) as Hz. cbn in Hz. cbn. tauto.
    + intros Hp. destruct (byte_val y ?= byte_val z); try done. apply (IH b p (length a)); [done| |lia].
      cbn in Hb. lia.
  - intros Hp. destruct p; [|cbn in Hp; lia]. subst n. intros Hc.
    by pose proof (bytes_cmp_zero (x :: a)).
Qed.

Lemma min_separating_Ok {E} prev curr :
  Item.wf prev -> Item.wf curr -> Item.lt prev curr ->
  exists b, @min_separating E (Item.sort_key prev) (Item.id prev) (Item.sort_key curr) (Item.id curr) = Ok b /\
    wf b /\ ts b = Item.sort_key curr /\
    item_is_before b (Item.sort_key prev) (Item.id prev) = true /\
    item_is_before b (Item.sort_key curr) (Item.id curr) = false /\
    (forall b', wf b' -> ts b' = Item.sort_key curr ->
       item_is_before b' (Item.sort_key prev) (Item.id prev) = true ->
       item_is_before b' (Item.sort_key curr) (Item.id curr) = false ->
       prefix_len b <= prefix_len b').
Proof.
  destruct prev as [kp ip], curr as [kc ic]; unfold Item.wf, Item.lt, Item.cmp, ID_SIZE; cbn.
  intros [Hip Hkp] [Hic Hkc] Hlt. unfold min_separating.
  destruct (N.compare_spec kp kc) as [->|Hk|Hk]; [| |done].
  - rewrite N.eqb_refl. cbn [negb].
    destruct (shared_prefix_separates ip ic 32 Hip Hic Hlt) as (Hs & Hb & Ha).
    unfold slice. rewrite decide_True by lia. cbn [expect mbind result_bind].
    rewrite drop_0. set (p := take (shared_prefix ip ic + 1 - 0) ic).
    assert (Hp : p = take (S (shared_prefix ip ic)) ic) by (subst p; f_equal; lia).
    assert (Hpl : length p = S (shared_prefix ip ic)) by (rewrite Hp, length_take; lia).
    unfold new, ID_SIZE. rewrite decide_True by lia. eexists. split; [reflexivity|].
    split; [apply (bound_new_wf (E := unit) kc p); [done|]; unfold new, ID_SIZE; by rewrite decide_True by lia|].
    unfold item_is_before; cbn [ts prefix prefix_len]. rewrite N.eqb_refl. cbn [negb].
    rewrite Hp, Hb. split_and!; [done|done|revert Ha; by destruct (bytes_cmp ic _)|].
    intros b' Hwf' Hts'. rewrite Hts', N.eqb_refl. cbn [negb]. intros H1 H2.
    pose proof (length_prefix_bytes b' Hwf') as Hl'. destruct Hwf' as (_ & _ & Hpre).
    unfold ID_SIZE in Hpre. rewrite Hpre in H1, H2.
    destruct (N.le_gt_cases (lenN (take (S (shared_prefix ip ic)) ic)) (prefix_len b')) as [|Hgt]; [done|].
    rewrite <- Hp in Hgt. exfalso. unfold lenN in *.
    rewrite (shared_prefix_minimal ip ic (prefix_bytes b') 32) in H2; [done|done|done|lia|].
    by destruct (bytes_cmp ip (resize 32 zero_byte (prefix_bytes b'))).
  - destruct (N.eqb_spec kc kp); [lia|]. cbn [negb]. eexists. split; [reflexivity|].
    unfold item_is_before; cbn [from_ts ts prefix prefix_len].
    rewrite N.eqb_refl. destruct (N.eqb_spec kp kc); [lia|]. cbn [negb].
    split_and!; [by apply wf_from_ts|done|by apply N.ltb_lt| |intros; lia].
    pose proof (bytes_cmp_zero ic) as Hz. rewrite Hic in Hz. unfold ID_SIZE.
    revert Hz. by destruct (bytes_cmp ic _).
Qed.

(** *** The codec *)

Lemma decode_no_panic c input : BoundCodec.decode c input <> Panic.
Proof.
  unfold BoundCodec.decode. pose proof (read_varint_no_panic input).
  destruct (read_varint input) as [[raw i1]| |]; cbn -[read_varint]; try done.
  pose proof (read_varint_no_panic i1).
  destruct (read_varint i1) as [[len i2]| |]; cbn -[N.of_nat]; try done.
  destruct (N.ltb_spec (N.of_nat ID_SIZE) len) as [|H1]; [done|].
  destruct (N.ltb_spec (lenN i2) len) as [|H2]; [done|].
  unfold split_at, lenN in *. rewrite decide_True by lia. cbn.
  unfold Bound.new. rewrite decide_True; [done|]. rewrite length_take. lia.
Qed.

(** A decoded bound is well-formed and consumes at least two bytes. *)
Lemma decode_wf c input b c' rest : BoundCodec.decode c input = Ok (b, c', rest) ->
  wf b /\ BoundCodec.last_ts_in c' = ts b /\ (length rest + 2 <= length input)%nat.
Proof.
  unfold BoundCodec.decode.
  destruct (read_varint input) as [[raw i1]| |] eqn:E1; cbn -[read_varint]; try done.
  destruct (read_varint i1) as [[len i2]| |] eqn:E2; cbn -[N.of_nat]; try done.
  destruct (N.ltb_spec (N.of_nat ID_SIZE) len) as [|H1]; [done|].
  destruct (N.ltb_spec (lenN i2) len) as [|H2]; [done|].
  destruct (split_at (N.to_nat len) i2) as [[p r]|] eqn:E3; cbn; [|done].
  apply split_at_Some in E3 as [-> Hp].
  match goal with |- (Bound.new ?t _ ≫= _) = _ -> _ => set (tt := t) end.
  assert (Htt : tt <= u64_max).
  { subst tt. destruct (_ || _); [done|]. unfold u64_saturating_add. lia. }
  destruct (Bound.new tt p) as [b'| |] eqn:E4; cbn; try done. intros [= <- <- <-].
  destruct (bound_new_wf _ _ _ Htt E4) as (Hwf & Hts & _).
  apply read_varint_sound in E1 as (_ & p1 & -> & Hp1), E2 as (_ & p2 & -> & Hp2).
  split_and!; [done|done|]. destruct p1, p2; try done.
  rewrite !length_app. cbn [length]. lia.
Qed.

(** Decoded timestamps never go back. *)
Lemma decode_forward c input b c' rest : BoundCodec.decode c input = Ok (b, c', rest) ->
  BoundCodec.last_ts_in c <= u64_max -> BoundCodec.last_ts_in c <= ts b.
Proof.
  intros E Hc. pose proof (decode_wf _ _ _ _ _ E) as (_ & <- & _). revert E. unfold BoundCodec.decode.
  destruct (read_varint input) as [[raw i1]| |]; cbn -[read_varint]; try done.
  destruct (read_varint i1) as [[len i2]| |]; cbn -[N.of_nat]; try done.
  destruct (_ <? len); [done|]. destruct (_ <? len); [done|].
  destruct (split_at _ i2) as [[p r]|]; cbn; [|done]. destruct (Bound.new _ p) as [b'| |]; cbn; try done.
  intros [= _ <- _]. cbn. destruct (_ || _); [done|]. unfold u64_saturating_add. lia.
Qed.

Lemma decode_all_forward n c input bs c' rest : BoundCodec.decode_all c n input = Ok (bs, c', rest) ->
  BoundCodec.last_ts_in c <= u64_max -> StronglySorted N.le (BoundCodec.last_ts_in c :: map ts bs).
Proof.
  revert c input bs. induction n as [|n IH]; intros c input bs; cbn [BoundCodec.decode_all].
  { intros [= <- _ _] _. by repeat constructor. }
  destruct (BoundCodec.decode c input) as [[[b c1] i1]| |] eqn:E; cbn; [|done|done].
  destruct (BoundCodec.decode_all c1 n i1) as [[[bs1 c2] i2]| |] eqn:E1; cbn; [|done|done].
  intros [= <- <- <-] Hc. pose proof (decode_forward _ _ _ _ _ E Hc) as Hf.
  destruct (decode_wf _ _ _ _ _ E) as (Hw & Ht & _). specialize (IH c1 i1 bs1 E1). rewrite Ht in IH.
  destruct Hw as (Hts & _). specialize (IH Hts). constructor; [exact IH|].
  apply StronglySorted_inv in IH as [_ Hall]. cbn. constructor; [done|].
  eapply List.Forall_impl; [|exact Hall]. cbn. lia.
Qed.

(** One encoded bound decodes to itself when the timestamps do not go back
    and both sides agree on the running timestamp. *)
Lemma decode_encode c d b rest :
  wf b -> BoundCodec.last_ts_in d = BoundCodec.last_ts_out c -> BoundCodec.last_ts_out c <= ts b ->
  BoundCodec.decode d ((BoundCodec.encode c b).2 ++ rest) =
    Ok (b, BoundCodec.mk (ts b) (BoundCodec.last_ts_out d), rest) /\
  BoundCodec.last_ts_out (BoundCodec.encode c b).1 = ts b.
Proof.
  intros Hwf Hd Hmono. pose proof (length_prefix_bytes b Hwf) as Hl.
  pose proof Hwf as (Hts & Hpl & _).
  assert (Hnew : Bound.new (E := SyncError.t) (ts b) (prefix_bytes b) = Ok b).
  { unfold Bound.new. rewrite decide_True by (unfold lenN, ID_SIZE in *; lia). f_equal.
    destruct Hwf as (_ & _ & Hp). destruct b; cbn in *. congruence. }
  unfold BoundCodec.encode. split.
  - set (ts' := if Bound.ts b =? TS_INFINITY then 0 else ts b - BoundCodec.last_ts_out c + 1).
    assert (Hhead : forall X : BoundCodec.t * bytes,
      X = (let '(c', head) := if Bound.ts b =? TS_INFINITY
            then (BoundCodec.mk (BoundCodec.last_ts_in c) TS_INFINITY, write_varint 0)
            else (BoundCodec.mk (BoundCodec.last_ts_in c) (ts b), write_varint (ts b - BoundCodec.last_ts_out c + 1)) in
           (c', head ++ write_varint (lenN (prefix_bytes b)) ++ prefix_bytes b)) ->
      X.2 = write_varint ts' ++ write_varint (lenN (prefix_bytes b)) ++ prefix_bytes b).
    { intros X ->. subst ts'. by destruct (Bound.ts b =? TS_INFINITY). }
    rewrite (Hhead _ eq_refl). clear Hhead. rewrite <- !app_assoc.
    assert (Hts' : ts' <= u64_max).
    { subst ts'. unfold TS_INFINITY in *. destruct (N.eqb_spec (ts b) u64_max); lia. }
    unfold BoundCodec.decode. rewrite read_write_varint by done. cbn -[read_varint write_varint].
    rewrite read_write_varint by (unfold u64_max, ID_SIZE in *; lia). cbn -[read_varint write_varint N.of_nat].
    destruct (N.ltb_spec (N.of_nat ID_SIZE) (lenN (prefix_bytes b))); [lia|].
    destruct (N.ltb_spec (lenN (prefix_bytes b ++ rest)) (lenN (prefix_bytes b))) as [Hlt|_].
    { unfold lenN in Hlt. rewrite length_app in Hlt. lia. }
    replace (N.to_nat (lenN (prefix_bytes b))) with (length (prefix_bytes b)) by (unfold lenN; lia).
    rewrite split_at_app. cbn [expect mbind result_bind].
    match goal with |- context [Bound.new ?t _] => assert (Ht : t = ts b) end.
    { subst ts'. unfold TS_INFINITY, u64_saturating_add in *. rewrite Hd.
      destruct (N.eqb_spec (ts b) u64_max) as [He|He]; [by rewrite He|].
      destruct (N.eqb_spec (ts b - BoundCodec.last_ts_out c + 1) 0); [lia|].
      destruct (N.eqb_spec (BoundCodec.last_ts_out c) u64_max); [lia|]. cbn. lia. }
    rewrite Ht, Hnew. done.
  - by destruct (N.eqb_spec (ts b) TS_INFINITY) as [->|].
Qed.

Lemma decode_encode_all bs c d rest :
  Forall wf bs -> BoundCodec.last_ts_in d = BoundCodec.last_ts_out c ->
  StronglySorted N.le (BoundCodec.last_ts_out c :: map ts bs) ->
  exists d', BoundCodec.decode_all d (length bs) ((BoundCodec.encode_all c bs).2 ++ rest) = Ok (bs, d', rest).
Proof.
  intros Hwf. revert c d. induction Hwf as [|b bs Hb Hbs IH]; intros c d Hd Hs;
    cbn [length BoundCodec.decode_all BoundCodec.encode_all map] in *; [cbn; eauto|].
  apply StronglySorted_inv in Hs as [Hs Hle]. apply Forall_cons in Hle as [Hle _].
  destruct (BoundCodec.encode c b) as [c1 out] eqn:E1. destruct (BoundCodec.encode_all c1 bs) as [c2 more] eqn:E2.
  cbn [snd]. rewrite <- app_assoc.
  destruct (decode_encode c d b (more ++ rest) Hb Hd Hle) as [H1 H2]. rewrite E1 in H1, H2. cbn [fst snd] in H1, H2.
  rewrite H1. cbn [mbind result_bind]. destruct (IH c1 (BoundCodec.mk (ts b) (BoundCodec.last_ts_out d))) as [d' Hd'].
  - by rewrite H2.
  - rewrite H2. done.
  - rewrite E2 in Hd'. cbn [snd] in Hd'. rewrite Hd'. cbn. eauto.
Qed.

End BoundFacts.

(** ** Properties *)

(** [min_separating] on two items in order never aborts and yields a
    bound strictly after the first and not after the second; with the sort
    key of the second fixed, no separating bound has a shorter id prefix. *)
Theorem min_separating_spec prev curr :
  Item.wf prev -> Item.wf curr -> Item.lt prev curr ->
  exists b,
    @Bound.min_separating SyncError.t (Item.sort_key prev) (Item.id prev)
      (Item.sort_key curr) (Item.id curr) = Ok b /\
    Bound.wf b /\ Bound.ts b = Item.sort_key curr /\
    Bound.item_is_before b (Item.sort_key prev) (Item.id prev) = true /\
    Bound.item_is_before b (Item.sort_key curr) (Item.id curr) = false /\
    (forall b', Bound.wf b' -> Bound.ts b' = Item.sort_key curr ->
       Bound.item_is_before b' (Item.sort_key prev) (Item.id prev) = true ->
       Bound.item_is_before b' (Item.sort_key curr) (Item.id curr) = false ->
       Bound.prefix_len b <= Bound.prefix_len b').
Proof. apply BoundFacts.min_separating_Ok. Qed.

Lemma min_separating_spec_witness :
  let i n := Item.mk 10 (replicate 3 (byte_of 170) ++ replicate 29 (byte_of n)) in
  Item.lt (i 170) (i 171) /\
  exists b, @Bound.min_separating SyncError.t 10 (Item.id (i 170)) 10 (Item.id (i 171)) = Ok b /\
    Bound.ts b = 10.
Proof.
  intros i. split; [reflexivity|].
  destruct (min_separating_spec (i 170) (i 171)) as (b & H & _ & Hts & _).
  - split; [reflexivity|vm_compute; discriminate].
  - split; [reflexivity|vm_compute; discriminate].
  - reflexivity.
  - exists b. split; [exact H|exact Hts].
Defined.

(** Bound codec round trip. Bounds whose timestamps do not decrease,
    encoded one after the other with one codec, decode with a fresh codec to
    themselves and leave the bytes that follow: the delta state stays in
    step, infinity included. *)
Theorem bound_codec_roundtrip bs rest :
  Forall Bound.wf bs -> StronglySorted N.le (map Bound.ts bs) ->
  exists c, BoundCodec.decode_all BoundCodec.new (length bs)
              ((BoundCodec.encode_all BoundCodec.new bs).2 ++ rest) = Ok (bs, c, rest).
Proof.
  intros Hwf Hs. apply BoundFacts.decode_encode_all; [done|done|].
  constructor; [done|]. apply Forall_forall. intros; cbn; lia.
Qed.

Lemma bound_codec_roundtrip_witness :
  let bs := [Bound.from_ts 1000; Bound.from_ts 1000; Bound.from_ts 1005; Bound.infinity] in
  exists c, BoundCodec.decode_all BoundCodec.new 4
    ((BoundCodec.encode_all BoundCodec.new bs).2 ++ [byte_of 2]) = Ok (bs, c, [byte_of 2]).
Proof.
  intros bs. apply (bound_codec_roundtrip bs).
  - repeat (apply List.Forall_cons || apply List.Forall_nil);
      apply BoundFacts.wf_from_ts; vm_compute; discriminate.
  - unfold bs. cbn. repeat constructor; vm_compute; discriminate.
Defined.

(** Decoding a bound from arbitrary bytes never panics; a decoded bound
    satisfies the constructor invariant and at least two bytes are
    consumed. *)
Theorem bound_decode_sound c input :
  BoundCodec.decode c input <> Panic /\
  forall b c' rest, BoundCodec.decode c input = Ok (b, c', rest) ->
    Bound.wf b /\ (length rest + 2 <= length input)%nat.
Proof.
  split; [apply BoundFacts.decode_no_panic|].
  intros b c' rest H. apply BoundFacts.decode_wf in H. tauto.
Qed.
