(* ===== verification/OrderTree.v ===== *)
(** * The weight-balanced tree behind the order index

    The functional tree that the arena of store/order.rs represents: the
    rotations, the balance step and insertion on trees, with the proofs that
    insertion keeps the in-order sequence sorted and the tree balanced for
    the parameters (3, 2). [OrderIndex] shows that the arena operations
    compute these functions. *)
From S2P Require Import Prelude Item.
Open Scope N_scope.

(** Weight-balance parameters. *)
Definition DELTA : N := 3.
Definition GAMMA : N := 2.

(** A node carries its arena index. *)
Inductive tree : Type :=
  | Leaf
  | Bin (i : N) (it : Item.t) (l r : tree).

Fixpoint size (t : tree) : N :=
  match t with Leaf => 0 | Bin _ _ l r => 1 + size l + size r end.
Fixpoint elems (t : tree) : list Item.t :=
  match t with Leaf => [] | Bin _ it l r => elems l ++ it :: elems r end.
Fixpoint idxs (t : tree) : list N :=
  match t with Leaf => [] | Bin i _ l r => idxs l ++ i :: idxs r end.
Fixpoint height (t : tree) : nat :=
  match t with Leaf => 0 | Bin _ _ l r => S (max (height l) (height r)) end.
Definition weight (t : tree) : N := size t + 1.

(** Rotations; trees without the required child are returned unchanged. *)
Definition rot_left (t : tree) : tree :=
  match t with
  | Bin i it l (Bin j jt jl jr) => Bin j jt (Bin i it l jl) jr
  | t => t
  end.
Definition rot_right (t : tree) : tree :=
  match t with
  | Bin i it (Bin j jt jl jr) r => Bin j jt jl (Bin i it jr r)
  | t => t
  end.

Definition balance_tree (t : tree) : tree :=
  match t with
  | Leaf => Leaf
  | Bin i it l r =>
      if weight l * DELTA <? weight r then
        match r with
        | Bin _ _ rl rr =>
            if weight rl <? GAMMA * weight rr then rot_left t
            else rot_left (Bin i it l (rot_right r))
        | Leaf => t
        end
      else if weight r * DELTA <? weight l then
        match l with
        | Bin _ _ ll lr =>
            if weight lr <? GAMMA * weight ll then rot_right t
            else rot_right (Bin i it (rot_left l) r)
        | Leaf => t
        end
      else t
  end.

(** Insertion; a new node takes the index [n]. The flag tells whether the
    item was new. *)
Fixpoint tree_insert (n : N) (x : Item.t) (t : tree) : tree * bool :=
  match t with
  | Leaf => (Bin n x Leaf Leaf, true)
  | Bin i it l r =>
      match Item.cmp x it with
      | Eq => (t, false)
      | Lt => let '(l', ins) := tree_insert n x l in
              if ins then (balance_tree (Bin i it l' r), true) else (t, false)
      | Gt => let '(r', ins) := tree_insert n x r in
              if ins then (balance_tree (Bin i it l r'), true) else (t, false)
      end
  end.

(** ** Specification on lists *)

Fixpoint list_insert (x : Item.t) (l : list Item.t) : list Item.t :=
  match l with
  | [] => [x]
  | y :: l' =>
      match Item.cmp x y with
      | Lt => x :: l
      | Eq => l
      | Gt => y :: list_insert x l'
      end
  end.

Fixpoint balanced (t : tree) : Prop :=
  match t with
  | Leaf => True
  | Bin _ _ l r =>
      weight l <= DELTA * weight r /\ weight r <= DELTA * weight l /\ balanced l /\ balanced r
  end.

(** ** Lemmas *)

Lemma size_elems t : size t = lenN (elems t).
Proof. unfold lenN. induction t; cbn; [done|]. rewrite length_app; cbn. lia. Qed.

Lemma length_idxs t : lenN (idxs t) = size t.
Proof. unfold lenN. induction t; cbn; [done|]. rewrite length_app; cbn. lia. Qed.

Lemma elem_of_list_insert x y l : y ∈ list_insert x l <-> y = x \/ y ∈ l.
Proof.
  induction l as [|z l IH]; cbn; [set_solver|].
  destruct (Item.cmp x z) eqn:E; [apply Item.cmp_eq in E as ->|..]; set_solver.
Qed.

Lemma sorted_list_insert x l : Item.sorted l -> Item.sorted (list_insert x l).
Proof.
  induction 1 as [|y l Hs IH Hy]; cbn; [repeat constructor|].
  rewrite Forall_forall in Hy.
  destruct (Item.cmp x y) eqn:E.
  - constructor; [done|by apply Forall_forall].
  - constructor; [constructor; [done|by apply Forall_forall]|].
    apply Forall_forall. intros z [->|Hz]%elem_of_cons; [done|]. eapply Item.lt_trans; eauto.
  - constructor; [done|]. apply Forall_forall. intros z [->|Hz]%elem_of_list_insert; [|eauto].
    by apply Item.cmp_gt.
Qed.

Lemma list_insert_old x l : Item.sorted l -> x ∈ l -> list_insert x l = l.
Proof.
  intros Hs Hx. apply Item.sorted_ext; [by apply sorted_list_insert|done|].
  intros a. rewrite elem_of_list_insert. set_solver.
Qed.

Lemma list_insert_perm x l : x ∉ l -> list_insert x l ≡ₚ x :: l.
Proof.
  induction l as [|y l IH]; cbn; [done|]. intros Hx.
  destruct (Item.cmp x y) eqn:E; [apply Item.cmp_eq in E; set_solver|done|].
  rewrite IH by set_solver. by constructor.
Qed.

Lemma list_insert_middle x l1 y l2 : Item.sorted (l1 ++ y :: l2) ->
  list_insert x (l1 ++ y :: l2) =
    match Item.cmp x y with
    | Lt => list_insert x l1 ++ y :: l2
    | Eq => l1 ++ y :: l2
    | Gt => l1 ++ y :: list_insert x l2
    end.
Proof.
  induction l1 as [|z l1 IH]; intros Hs.
  - cbn. by destruct (Item.cmp x y).
  - cbn [app] in Hs. apply (Item.sorted_app [z]) in Hs as (_ & Hs & Hz).
    specialize (IH Hs). assert (Hzy : Item.lt z y) by (apply Hz; set_solver).
    cbn [app list_insert]. destruct (Item.cmp x z) eqn:E.
    + apply Item.cmp_eq in E as ->. by rewrite Hzy.
    + assert (Hxy : Item.cmp x y = Lt) by (eapply Item.lt_trans; eauto). by rewrite Hxy.
    + rewrite IH. by destruct (Item.cmp x y).
Qed.

(** *** Rotations and balancing keep the sequence and the indices *)

Lemma elems_rot_left t : elems (rot_left t) = elems t.
Proof. destruct t as [|i it l [|j jt jl jr]]; cbn; try done. by rewrite <- app_assoc. Qed.

Lemma elems_rot_right t : elems (rot_right t) = elems t.
Proof. destruct t as [|i it [|j jt jl jr] r]; cbn; try done. by rewrite <- app_assoc. Qed.

Lemma idxs_rot_left t : idxs (rot_left t) = idxs t.
Proof. destruct t as [|i it l [|j jt jl jr]]; cbn; try done. by rewrite <- app_assoc. Qed.

Lemma idxs_rot_right t : idxs (rot_right t) = idxs t.
Proof. destruct t as [|i it [|j jt jl jr] r]; cbn; try done. by rewrite <- app_assoc. Qed.

Lemma elems_Bin_r i it l r r' : elems r = elems r' -> elems (Bin i it l r) = elems (Bin i it l r').
Proof. cbn. by intros ->. Qed.

Lemma elems_balance t : elems (balance_tree t) = elems t.
Proof.
  destruct t as [|i it l r]; [done|]. unfold balance_tree.
  destruct (_ <? _); [destruct r; [done|]|destruct (_ <? _); [destruct l; [done|]|done]];
    destruct (_ <? _); rewrite ?elems_rot_left, ?elems_rot_right; try done;
    cbn [elems]; by rewrite ?elems_rot_left, ?elems_rot_right.
Qed.

Lemma idxs_balance t : idxs (balance_tree t) = idxs t.
Proof.
  destruct t as [|i it l r]; [done|]. unfold balance_tree.
  destruct (_ <? _); [destruct r; [done|]|destruct (_ <? _); [destruct l; [done|]|done]];
    destruct (_ <? _); rewrite ?idxs_rot_left, ?idxs_rot_right; try done;
    cbn [idxs]; by rewrite ?idxs_rot_left, ?idxs_rot_right.
Qed.

Lemma size_balance t : size (balance_tree t) = size t.
Proof. by rewrite !size_elems, elems_balance. Qed.

(** *** Insertion *)

Lemma elems_tree_insert n x t : Item.sorted (elems t) ->
  elems (tree_insert n x t).1 = list_insert x (elems t) /\
  ((tree_insert n x t).2 = true <-> x ∉ elems t).
Proof.
  induction t as [|i it l IHl r IHr]; intros Hs; [by cbn; split; [|set_solver]|].
  cbn [elems] in *. rewrite list_insert_middle by done.
  pose proof Hs as (Hsl & Hsr & Hl & Hr)%Item.sorted_middle.
  specialize (IHl Hsl) as [IHl1 IHl2]. specialize (IHr Hsr) as [IHr1 IHr2].
  cbn [tree_insert]. destruct (Item.cmp x it) eqn:E.
  - apply Item.cmp_eq in E as ->. split; [done|]. cbn. set_solver.
  - assert (Hx : x ∉ it :: elems r).
    { intros [->|Hx]%elem_of_cons; [by apply Item.lt_irrefl in E|].
      eapply Item.lt_irrefl, (Item.lt_trans x); [exact E|by apply Hr]. }
    destruct (tree_insert n x l) as [l' [|]]; cbn [fst snd] in *.
    + rewrite elems_balance. cbn [elems]. rewrite IHl1. set_solver.
    + split; [|set_solver]. destruct (decide (x ∈ elems l)) as [Hin|]; [|set_solver].
      by rewrite list_insert_old.
  - apply Item.cmp_gt in E. assert (Hx : x ∉ elems l /\ x <> it).
    { split; [|intros ->; by apply Item.lt_irrefl in E].
      intros Hx. eapply Item.lt_irrefl, (Item.lt_trans it); [exact E|by apply Hl]. }
    destruct (tree_insert n x r) as [r' [|]]; cbn [fst snd] in *.
    + rewrite elems_balance. cbn [elems]. rewrite IHr1. set_solver.
    + split; [|set_solver]. destruct (decide (x ∈ elems r)) as [Hin|]; [|set_solver].
      by rewrite list_insert_old.
Qed.

Lemma tree_insert_old n x t : (tree_insert n x t).2 = false -> (tree_insert n x t).1 = t.
Proof.
  destruct t; cbn; [done|]. destruct (Item.cmp _ _); [done|..];
    by destruct (tree_insert _ _ _) as [? []].
Qed.

Lemma idxs_tree_insert n x t : (tree_insert n x t).2 = true ->
  idxs (tree_insert n x t).1 ≡ₚ n :: idxs t.
Proof.
  induction t as [|i it l IHl r IHr]; [done|]. cbn [tree_insert].
  destruct (Item.cmp x it); [done|..].
  - destruct (tree_insert n x l) as [l' []]; cbn [fst snd] in *; [|done]. intros _.
    rewrite idxs_balance. cbn [idxs]. by rewrite IHl.
  - destruct (tree_insert n x r) as [r' []]; cbn [fst snd] in *; [|done]. intros _.
    rewrite idxs_balance. cbn [idxs]. rewrite IHr by done.
    by rewrite (Permutation_swap n i), <- Permutation_middle.
Qed.

Lemma size_tree_insert n x t : (tree_insert n x t).2 = true ->
  size (tree_insert n x t).1 = size t + 1.
Proof.
  intros H%idxs_tree_insert%Permutation_length. rewrite <- !length_idxs. unfold lenN.
  rewrite H. cbn. lia.
Qed.

(** *** The balance invariant *)

Ltac split_ltb :=
  repeat match goal with
  | |- context [?a <? ?b] => destruct (N.ltb_spec a b)
  end.

Ltac solve_weights :=
  unfold balanced, weight, DELTA, GAMMA, rot_left, rot_right in *;
  fold balanced in *; cbn [balanced size] in *; unfold weight, DELTA, GAMMA in *;
  cbn [size] in *; lia.

(** One insertion on the right of a balanced node is repaired. *)
Lemma balance_right i it l r :
  balanced l -> balanced r ->
  weight l <= DELTA * weight r -> weight r <= DELTA * weight l + 1 ->
  balanced (balance_tree (Bin i it l r)).
Proof.
  intros Hl Hr H1 H2. unfold balance_tree. split_ltb.
  - destruct r as [|j jt rl rr]; [solve_weights|]. split_ltb.
    + cbn [rot_left]. cbn [balanced] in *. destruct Hr as (?&?&?&?).
      split_and!; try done; solve_weights.
    + destruct rl as [|k kt rll rlr]; [solve_weights|].
      cbn [rot_left rot_right]. cbn [balanced] in *. destruct Hr as (?&?&(?&?&?&?)&?).
      split_and!; try done; solve_weights.
  - destruct l as [|j jt ll lr]; [solve_weights|]. solve_weights.
  - split_and!; try done; solve_weights.
Qed.

Lemma balance_left i it l r :
  balanced l -> balanced r ->
  weight r <= DELTA * weight l -> weight l <= DELTA * weight r + 1 ->
  balanced (balance_tree (Bin i it l r)).
Proof.
  intros Hl Hr H1 H2. unfold balance_tree. split_ltb.
  - destruct r as [|j jt rl rr]; [solve_weights|]. solve_weights.
  - destruct l as [|j jt ll lr]; [solve_weights|]. split_ltb.
    + cbn [rot_right]. cbn [balanced] in *. destruct Hl as (?&?&?&?).
      split_and!; try done; solve_weights.
    + destruct lr as [|k kt lrl lrr]; [solve_weights|].
      cbn [rot_left rot_right]. cbn [balanced] in *. destruct Hl as (?&?&?&(?&?&?&?)).
      split_and!; try done; solve_weights.
  - split_and!; try done; solve_weights.
Qed.

Lemma balanced_tree_insert n x t : balanced t -> balanced (tree_insert n x t).1.
Proof.
  induction t as [|i it l IHl r IHr]; intros Hb; [cbn; solve_weights|].
  destruct Hb as (H1 & H2 & Hl & Hr). specialize (IHl Hl). specialize (IHr Hr).
  pose proof (size_tree_insert n x l) as Hsl. pose proof (size_tree_insert n x r) as Hsr.
  cbn [tree_insert]. destruct (Item.cmp x it); [done|..].
  - destruct (tree_insert n x l) as [l' []]; cbn [fst snd] in *; [|done].
    specialize (Hsl eq_refl). apply balance_left; try done; solve_weights.
  - destruct (tree_insert n x r) as [r' []]; cbn [fst snd] in *; [|done].
    specialize (Hsr eq_refl). apply balance_right; try done; solve_weights.
Qed.

(** Logarithmic height: [(4/3)^height <= size + 1]. *)
Lemma balanced_height t : balanced t -> 4 ^ N.of_nat (height t) <= 3 ^ N.of_nat (height t) * weight t.
Proof.
  induction t as [|i it l IHl r IHr]; intros Hb; [by vm_compute|].
  destruct Hb as (H1 & H2 & Hl & Hr). specialize (IHl Hl). specialize (IHr Hr).
  assert (Hw : 4 * weight l <= 3 * weight (Bin i it l r) /\ 4 * weight r <= 3 * weight (Bin i it l r)).
  { solve_weights. }
  cbn [height]. rewrite Nat2N.inj_succ, !N.pow_succ_r'.
  assert (Hstep : forall p q w, p <= q * w -> 4 * w <= 3 * weight (Bin i it l r) ->
                    4 * p <= 3 * q * weight (Bin i it l r)).
  { intros p q w Hp Hq. transitivity (q * (4 * w)); [lia|].
    rewrite <- N.mul_assoc, (N.mul_assoc 3), (N.mul_comm 3 q), <- N.mul_assoc.
    by apply N.mul_le_mono_l. }
  destruct (Nat.max_spec (height l) (height r)) as [[_ ->]|[_ ->]];
    eapply Hstep; eauto; apply Hw.
Qed.

Lemma height_size t : (height t <= N.to_nat (size t))%nat.
Proof. induction t; cbn; lia. Qed.
