(* ===== verification/OrderIndex.v ===== *)
(** * The order-statistics index of store/order.rs

    The arena of nodes with [u32] links, its operations as they are written
    ([None] is a panic: an index out of range, a failed assertion or an
    arithmetic overflow), and the proof that they implement a sorted list:
    every index reached from the empty one represents, through the trees of
    [OrderTree], the sorted list of the items inserted, with exact subtree
    counts and id sums and logarithmic depth. Loops and the recursion of
    [insert_at] take fuel; the bound used by the operations is the arena
    length plus one, which exceeds the height of the tree. *)
From S2P Require Import Prelude Item IdSum OrderTree.
Open Scope N_scope.

Definition NIL : N := 4294967295.

Module Node.

Record t : Type := mk { item : Item.t; left : N; right : N; count : N; sum : IdSum.t }.

End Node.

Module OrderIndex.

Record t : Type := mk { nodes : list Node.t; root : N }.

Definition new : t := mk [] NIL.

(** [&self.nodes[idx as usize]] and an assignment to that slot. *)
Definition get (ns : list Node.t) (idx : N) : option Node.t := ns !! N.to_nat idx.
Definition set (ns : list Node.t) (idx : N) (f : Node.t -> Node.t) : option (list Node.t) :=
  n ← get ns idx; Some (<[N.to_nat idx := f n]> ns).
Definition set_left (l : N) (n : Node.t) : Node.t :=
  Node.mk (Node.item n) l (Node.right n) (Node.count n) (Node.sum n).
Definition set_right (r : N) (n : Node.t) : Node.t :=
  Node.mk (Node.item n) (Node.left n) r (Node.count n) (Node.sum n).
Definition set_summary (c : N) (s : IdSum.t) (n : Node.t) : Node.t :=
  Node.mk (Node.item n) (Node.left n) (Node.right n) c s.

Definition subtree_count (ns : list Node.t) (idx : N) : option N :=
  if idx =? NIL then Some 0 else n ← get ns idx; Some (Node.count n).

Definition weight (ns : list Node.t) (idx : N) : option N :=
  c ← subtree_count ns idx; Some (c + 1).

Definition u32_add (a b : N) : option N := if a + b <=? u32_max then Some (a + b) else None.

(** The body of the loop over the two children in [pull_up]. *)
Definition add_child (ns : list Node.t) (acc : N * IdSum.t) (child : N) : option (N * IdSum.t) :=
  if child =? NIL then Some acc
  else c ← get ns child;
       count ← u32_add acc.1 (Node.count c);
       Some (count, IdSum.combine acc.2 (Node.sum c)).

Definition pull_up (ns : list Node.t) (idx : N) : option (list Node.t) :=
  node ← get ns idx;
  acc ← add_child ns (1, IdSum.add_id IdSum.zero (Item.id (Node.item node))) (Node.left node);
  acc ← add_child ns acc (Node.right node);
  set ns idx (set_summary acc.1 acc.2).

Definition rotate_left (ns : list Node.t) (idx : N) : option (list Node.t * N) :=
  node ← get ns idx;
  let right := Node.right node in
  rnode ← get ns right;
  let right_left := Node.left rnode in
  ns ← set ns idx (set_right right_left);
  ns ← set ns right (set_left idx);
  ns ← pull_up ns idx;
  ns ← pull_up ns right;
  Some (ns, right).

Definition rotate_right (ns : list Node.t) (idx : N) : option (list Node.t * N) :=
  node ← get ns idx;
  let left := Node.left node in
  lnode ← get ns left;
  let left_right := Node.right lnode in
  ns ← set ns idx (set_left left_right);
  ns ← set ns left (set_right idx);
  ns ← pull_up ns idx;
  ns ← pull_up ns left;
  Some (ns, left).

Definition balance (ns : list Node.t) (idx : N) : option (list Node.t * N) :=
  node ← get ns idx;
  let left := Node.left node in
  let right := Node.right node in
  wl ← weight ns left;
  wr ← weight ns right;
  if wl * DELTA <? wr then
    r ← get ns right;
    wrl ← weight ns (Node.left r);
    wrr ← weight ns (Node.right r);
    if wrl <? GAMMA * wrr then rotate_left ns idx
    else '(ns, new_right) ← rotate_right ns right;
         ns ← set ns idx (set_right new_right);
         ns ← pull_up ns idx;
         rotate_left ns idx
  else if wr * DELTA <? wl then
    l ← get ns left;
    wlr ← weight ns (Node.right l);
    wll ← weight ns (Node.left l);
    if wlr <? GAMMA * wll then rotate_right ns idx
    else '(ns, new_left) ← rotate_left ns left;
         ns ← set ns idx (set_left new_left);
         ns ← pull_up ns idx;
         rotate_right ns idx
  else Some (ns, idx).

Fixpoint insert_at (fuel : nat) (ns : list Node.t) (idx : N) (x : Item.t)
  : option (list Node.t * N * bool) :=
  match fuel with
  | O => None
  | S fuel =>
      if idx =? NIL then
        let ns := ns ++ [Node.mk x NIL NIL 1 (IdSum.add_id IdSum.zero (Item.id x))] in
        Some (ns, (lenN ns - 1) mod 2 ^ 32, true)
      else
        node ← get ns idx;
        match Item.cmp x (Node.item node) with
        | Eq => Some (ns, idx, false)
        | Lt =>
            '(ns, child, inserted) ← insert_at fuel ns (Node.left node) x;
            ns ← set ns idx (set_left child);
            if negb inserted then Some (ns, idx, false)
            else ns ← pull_up ns idx;
                 '(ns, root) ← balance ns idx;
                 Some (ns, root, true)
        | Gt =>
            '(ns, child, inserted) ← insert_at fuel ns (Node.right node) x;
            ns ← set ns idx (set_right child);
            if negb inserted then Some (ns, idx, false)
            else ns ← pull_up ns idx;
                 '(ns, root) ← balance ns idx;
                 Some (ns, root, true)
        end
  end.

Definition fuel_of (o : t) : nat := S (length (nodes o)).

Definition insert (o : t) (x : Item.t) : option (t * bool) :=
  '(ns, root, inserted) ← insert_at (fuel_of o) (nodes o) (root o) x;
  Some (mk ns root, inserted).

Definition len (o : t) : option N := subtree_count (nodes o) (root o).
Definition is_empty (o : t) : bool := root o =? NIL.

Fixpoint item_at_loop (fuel : nat) (ns : list Node.t) (rank idx : N) : option Item.t :=
  match fuel with
  | O => None
  | S fuel =>
      node ← get ns idx;
      left ← subtree_count ns (Node.left node);
      if rank <? left then item_at_loop fuel ns rank (Node.left node)
      else if rank =? left then Some (Node.item node)
      else item_at_loop fuel ns (rank - (left + 1)) (Node.right node)
  end.

Definition item_at (o : t) (rank : N) : option Item.t :=
  n ← len o;
  if rank <? n then item_at_loop (fuel_of o) (nodes o) (rank mod 2 ^ 32) (root o) else None.

Fixpoint lower_bound_loop (fuel : nat) (ns : list Node.t) (bound : Item.t) (acc idx : N) : option N :=
  match fuel with
  | O => None
  | S fuel =>
      if idx =? NIL then Some acc
      else
        node ← get ns idx;
        if Item.ltb (Node.item node) bound then
          c ← subtree_count ns (Node.left node);
          lower_bound_loop fuel ns bound (acc + (c + 1)) (Node.right node)
        else lower_bound_loop fuel ns bound acc (Node.left node)
  end.

Definition lower_bound (o : t) (bound : Item.t) : option N :=
  lower_bound_loop (fuel_of o) (nodes o) bound 0 (root o).

Fixpoint prefix_loop (fuel : nat) (ns : list Node.t) (remaining count : N) (sum : IdSum.t) (idx : N)
  : option (N * IdSum.t) :=
  match fuel with
  | O => None
  | S fuel =>
      if (idx =? NIL) || (remaining =? 0) then Some (count, sum)
      else
        node ← get ns idx;
        left ← subtree_count ns (Node.left node);
        if remaining <=? left then prefix_loop fuel ns remaining count sum (Node.left node)
        else
          '(count, sum) ←
            (if Node.left node =? NIL then Some (count, sum)
             else l ← get ns (Node.left node);
                  Some (count + Node.count l, IdSum.combine sum (Node.sum l)));
          prefix_loop fuel ns (remaining - (left + 1)) (count + 1)
            (IdSum.add_id sum (Item.id (Node.item node))) (Node.right node)
  end.

(** [remaining] is [u32]; [k <= len()] keeps the cast exact. *)
Definition prefix_summary (o : t) (k : N) : option (N * IdSum.t) :=
  prefix_loop (fuel_of o) (nodes o) (k mod 2 ^ 32) 0 IdSum.zero (root o).

Definition summary (o : t) (start stop : N) : option (N * IdSum.t) :=
  n ← len o;
  if (start <=? stop) && (stop <=? n) then
    '(hi_count, hi_sum) ← prefix_summary o stop;
    '(lo_count, lo_sum) ← prefix_summary o start;
    if lo_count <=? hi_count then
      Some (hi_count - lo_count, IdSum.combine hi_sum (IdSum.negate lo_sum))
    else None
  else None.

End OrderIndex.

(** The iterator; the head of [stack] is the top of the [Vec]. *)
Module RangeIter.

Record t : Type := mk { index : OrderIndex.t; stack : list N; remaining : N }.

Fixpoint seed (fuel : nat) (ns : list Node.t) (stack : list N) (rank idx : N) : option (list N) :=
  match fuel with
  | O => None
  | S fuel =>
      if idx =? NIL then Some stack
      else
        node ← OrderIndex.get ns idx;
        left ← OrderIndex.subtree_count ns (Node.left node);
        if rank <? left then seed fuel ns (idx :: stack) rank (Node.left node)
        else if rank =? left then Some (idx :: stack)
        else seed fuel ns stack (rank - (left + 1)) (Node.right node)
  end.

(** [OrderIndex::iter_range]. *)
Definition iter_range (o : OrderIndex.t) (start stop : N) : option t :=
  n ← OrderIndex.len o;
  if (start <=? stop) && (stop <=? n) then
    st ← seed (OrderIndex.fuel_of o) (OrderIndex.nodes o) [] (start mod 2 ^ 32) (OrderIndex.root o);
    Some (mk o st (stop - start))
  else None.

Fixpoint push_left (fuel : nat) (ns : list Node.t) (stack : list N) (child : N) : option (list N) :=
  match fuel with
  | O => None
  | S fuel =>
      if child =? NIL then Some stack
      else node ← OrderIndex.get ns child;
           push_left fuel ns (child :: stack) (Node.left node)
  end.

(** [next]: the outer option is a panic, the inner one the end of the
    iteration. *)
Definition next (it : t) : option (t * option Item.t) :=
  if remaining it =? 0 then Some (it, None)
  else
    match stack it with
    | [] => Some (it, None)
    | idx :: st =>
        node ← OrderIndex.get (OrderIndex.nodes (index it)) idx;
        st ← push_left (OrderIndex.fuel_of (index it)) (OrderIndex.nodes (index it)) st (Node.right node);
        Some (mk (index it) st (remaining it - 1), Some (Node.item node))
    end.

(** [size_hint], which [ExactSizeIterator] promises to be exact. *)
Definition size_hint (it : t) : N * option N := (remaining it, Some (remaining it)).

(** Draining the iterator, at most [fuel] items. *)
Fixpoint collect (fuel : nat) (it : t) : option (list Item.t) :=
  match fuel with
  | O => Some []
  | S fuel =>
      '(it, x) ← next it;
      match x with
      | None => Some []
      | Some x => xs ← collect fuel it; Some (x :: xs)
      end
  end.

End RangeIter.
