(* ===== verification/OrderRefine.v ===== *)
(** * The arena implements the tree, and the tree a sorted list

    [rep] relates an arena to the tree of [OrderTree] it stores; each arena
    operation is shown to compute the tree operation and to leave every
    other slot alone. [models o l] is the contract of the index: it holds
    the sorted list [l]. *)
From S2P Require Import Prelude Item IdSum OrderTree OrderIndex.
Open Scope N_scope.
Import OrderIndex.

Definition root_of (t : tree) : N := match t with Leaf => NIL | Bin i _ _ _ => i end.

Definition ids (l : list Item.t) : list bytes := map Item.id l.

Definition node_of (it : Item.t) (l r : tree) : Node.t :=
  Node.mk it (root_of l) (root_of r) (1 + size l + size r)
    (IdSum.sum_ids (ids (elems l ++ it :: elems r))).

Fixpoint rep (ns : list Node.t) (t : tree) : Prop :=
  match t with
  | Leaf => True
  | Bin i it l r => get ns i = Some (node_of it l r) /\ i <> NIL /\ rep ns l /\ rep ns r
  end.

(** The node [i] has the links of [Bin i it l r]; its summary may be stale. *)
Definition stale (ns : list Node.t) (t : tree) : Prop :=
  match t with
  | Leaf => False
  | Bin i it l r =>
      (exists c s, get ns i = Some (Node.mk it (root_of l) (root_of r) c s)) /\
      i <> NIL /\ rep ns l /\ rep ns r
  end.

(** Well-formed trees: distinct indices, 32-byte ids, at most [u32::MAX]
    nodes. *)
Record wf_tree (t : tree) : Prop := {
  wf_idxs : NoDup (idxs t);
  wf_items : Forall Item.wf (elems t);
  wf_size : size t <= u32_max }.

(** Only slots of [X] differ. *)
Definition frame (X : list N) (ns ns' : list Node.t) : Prop :=
  length ns' = length ns /\ forall j, j ∉ X -> get ns' j = get ns j.

(** ** The framework *)

Lemma frame_refl X ns : frame X ns ns.
Proof. done. Qed.

Lemma frame_trans X ns1 ns2 ns3 : frame X ns1 ns2 -> frame X ns2 ns3 -> frame X ns1 ns3.
Proof. intros [H1 H2] [H3 H4]. split; [congruence|]. intros j Hj. by rewrite H4, H2. Qed.

Lemma frame_weaken X Y ns ns' : frame X ns ns' -> X ⊆ Y -> frame Y ns ns'.
Proof. intros [H1 H2] HXY. split; [done|]. intros j Hj. apply H2. set_solver. Qed.

Lemma get_insert_eq ns i n n0 : get ns i = Some n0 -> get (<[N.to_nat i := n]> ns) i = Some n.
Proof. unfold get. intros H%lookup_lt_Some. by apply list_lookup_insert_eq. Qed.

Lemma get_insert_ne ns i j n : i <> j -> get (<[N.to_nat i := n]> ns) j = get ns j.
Proof. unfold get. intros H. apply list_lookup_insert_ne. lia. Qed.

Lemma frame_insert X ns i n : i ∈ X -> frame X ns (<[N.to_nat i := n]> ns).
Proof.
  intros Hi. split; [apply length_insert|]. intros j Hj. apply get_insert_ne. by intros ->.
Qed.

Lemma set_eq ns i f n : get ns i = Some n -> set ns i f = Some (<[N.to_nat i := f n]> ns).
Proof. unfold set. by intros ->. Qed.

Lemma rep_frame X ns ns' t : frame X ns ns' -> (forall j, j ∈ idxs t -> j ∉ X) -> rep ns t -> rep ns' t.
Proof.
  intros [Hlen Hf]. induction t as [|i it l IHl r IHr]; [done|].
  cbn [rep idxs]. intros Hd (Hg & Hi & Hl & Hr). split_and!.
  - rewrite Hf; [done|]. apply Hd. set_solver.
  - done.
  - apply IHl; [|done]. intros j Hj. apply Hd. set_solver.
  - apply IHr; [|done]. intros j Hj. apply Hd. set_solver.
Qed.

Lemma rep_insert ns t i n : i ∉ idxs t -> rep ns t -> rep (<[N.to_nat i := n]> ns) t.
Proof.
  intros Hi. apply (rep_frame [i]); [apply frame_insert; set_solver|]. set_solver.
Qed.

Lemma rep_app ns t n : rep ns t -> rep (ns ++ n) t.
Proof.
  induction t as [|i it l IHl r IHr]; [done|]. cbn [rep]. intros (Hg & Hi & Hl & Hr).
  split_and!; eauto. by apply lookup_app_l_Some.
Qed.

Lemma rep_stale ns t : t <> Leaf -> rep ns t -> stale ns t.
Proof. destruct t; [done|]. cbn. intros _ (? & ? & ? & ?). split_and!; eauto. Qed.

Lemma rep_idxs ns t i : rep ns t -> i ∈ idxs t -> i < lenN ns.
Proof.
  induction t as [|j it l IHl r IHr]; cbn [rep idxs]; [set_solver|].
  intros (Hg & _ & Hl & Hr). rewrite elem_of_app, elem_of_cons.
  intros [Hi|[->|Hi]]; [by apply IHl| |by apply IHr].
  apply lookup_lt_Some in Hg. unfold lenN. lia.
Qed.

Lemma subtree_count_rep ns t : rep ns t -> subtree_count ns (root_of t) = Some (size t).
Proof.
  destruct t as [|i it l r]; [done|]. cbn [rep root_of]. intros (Hg & Hi & _).
  unfold subtree_count. rewrite (proj2 (N.eqb_neq i NIL) Hi), Hg. done.
Qed.

Lemma weight_rep ns t : rep ns t -> weight ns (root_of t) = Some (OrderTree.weight t).
Proof. intros H. unfold weight. by rewrite (subtree_count_rep _ _ H). Qed.

(** *** Well-formedness of trees *)

Lemma wf_Bin i it l r : wf_tree (Bin i it l r) ->
  wf_tree l /\ wf_tree r /\ Item.wf it /\ i ∉ idxs l /\ i ∉ idxs r /\
  (forall j, j ∈ idxs l -> j ∉ idxs r).
Proof.
  intros [Hn Hw Hs]. cbn [idxs elems size] in *.
  apply NoDup_app in Hn as (Hnl & Hd & [Hi Hnr]%NoDup_cons).
  apply Forall_app in Hw as (Hwl & [Hwi Hwr]%Forall_cons).
  split_and!; try done; try (split; [done|done|lia]).
  - intros Hil. apply (Hd i Hil). set_solver.
  - intros j Hj Hjr. apply (Hd j Hj). set_solver.
Qed.

Lemma wf_tree_ext t t' : elems t = elems t' -> idxs t ≡ₚ idxs t' -> wf_tree t -> wf_tree t'.
Proof.
  intros He Hi [Hn Hw Hs]. split.
  - by rewrite <- Hi.
  - by rewrite <- He.
  - by rewrite size_elems, <- He, <- size_elems.
Qed.

Lemma wf_ids l : Forall Item.wf l -> Forall (fun i => length i = ID_SIZE) (ids l).
Proof. intros H. apply Forall_map. eapply Forall_impl; [exact H|]. by intros x [? _]. Qed.

(** ** The operations compute the tree operations *)

Lemma sum_ids_perm a b : Forall (fun i => length i = ID_SIZE) a -> a ≡ₚ b ->
  IdSum.sum_ids a = IdSum.sum_ids b.
Proof.
  intros Ha Hp. assert (Hb : Forall (fun i => length i = ID_SIZE) b) by by rewrite <- Hp.
  destruct (IdSum.sum_ids_spec a Ha) as [Hwa Hva], (IdSum.sum_ids_spec b Hb) as [Hwb Hvb].
  apply IdSum.val_inj; [done|done|]. by rewrite Hva, Hvb, (IdSum.ids_val_perm _ _ Hp).
Qed.

Lemma add_child_rep ns t c a :
  rep ns t -> Forall Item.wf (elems t) -> Forall (fun i => length i = ID_SIZE) a ->
  c + size t <= u32_max ->
  add_child ns (c, IdSum.sum_ids a) (root_of t) =
    Some (c + size t, IdSum.sum_ids (a ++ ids (elems t))).
Proof.
  destruct t as [|i it l r]; intros Hr Hw Ha Hc.
  - cbn. by rewrite N.add_0_r, app_nil_r.
  - destruct Hr as (Hg & Hi & _). unfold add_child. cbn [root_of].
    rewrite (proj2 (N.eqb_neq i NIL) Hi), Hg. cbn [mbind option_bind node_of Node.count Node.sum fst snd].
    unfold u32_add. cbn [size] in *.
    rewrite (proj2 (N.leb_le _ _) Hc). cbn [mbind option_bind].
    by rewrite IdSum.sum_ids_combine by (try done; by apply wf_ids).
Qed.

Lemma pull_up_spec ns i it l r : stale ns (Bin i it l r) -> wf_tree (Bin i it l r) ->
  exists ns', pull_up ns i = Some ns' /\ rep ns' (Bin i it l r) /\ frame [i] ns ns'.
Proof.
  intros ((c & s & Hg) & Hi & Hl & Hr) Hwf.
  destruct (wf_Bin _ _ _ _ Hwf) as (Hwl & Hwr & Hwi & Hil & Hir & _).
  exists (<[N.to_nat i := node_of it l r]> ns). split_and!.
  - unfold pull_up. rewrite Hg. cbn [mbind option_bind Node.item Node.left Node.right].
    assert (Hids : Forall (fun i => length i = ID_SIZE) [Item.id it]) by (constructor; [apply Hwi|done]).
    pose proof (wf_size _ Hwf) as Hsz. cbn [size] in Hsz.
    change (IdSum.add_id IdSum.zero (Item.id it)) with (IdSum.sum_ids [Item.id it]).
    rewrite (add_child_rep ns l); [|done|apply Hwl|done|lia]. cbn [mbind option_bind].
    rewrite (add_child_rep ns r);
      [|done|apply Hwr|apply Forall_app; split; [done|apply wf_ids, Hwl]|lia].
    cbn [mbind option_bind fst snd]. rewrite (set_eq _ _ _ _ Hg). do 2 f_equal.
    unfold set_summary, node_of. cbn [Node.item Node.left Node.right]. f_equal.
    apply sum_ids_perm; [repeat (apply Forall_app; split); try done; apply wf_ids; [apply Hwl|apply Hwr]|].
    unfold ids. rewrite map_app. cbn. by rewrite <- Permutation_middle.
  - cbn [rep]. split_and!; [by eapply get_insert_eq|done|by apply rep_insert|by apply rep_insert].
  - apply frame_insert. set_solver.
Qed.

(** Assigning a link of a stale node. *)
Lemma set_right_stale ns i it l r r' : stale ns (Bin i it l r) -> i ∉ idxs l -> i ∉ idxs r' ->
  rep ns r' ->
  exists ns', set ns i (set_right (root_of r')) = Some ns' /\ stale ns' (Bin i it l r') /\ frame [i] ns ns'.
Proof.
  intros ((c & s & Hg) & Hi & Hl & Hr) Hil Hir Hr'. rewrite (set_eq _ _ _ _ Hg).
  eexists; split_and!; [done| |apply frame_insert; set_solver].
  cbn. split_and!; [|done|by apply rep_insert|by apply rep_insert].
  do 2 eexists. by erewrite get_insert_eq.
Qed.

Lemma set_left_stale ns i it l r l' : stale ns (Bin i it l r) -> i ∉ idxs r -> i ∉ idxs l' ->
  rep ns l' ->
  exists ns', set ns i (set_left (root_of l')) = Some ns' /\ stale ns' (Bin i it l' r) /\ frame [i] ns ns'.
Proof.
  intros ((c & s & Hg) & Hi & Hl & Hr) Hil Hir Hr'. rewrite (set_eq _ _ _ _ Hg).
  eexists; split_and!; [done| |apply frame_insert; set_solver].
  cbn. split_and!; [|done|by apply rep_insert|by apply rep_insert].
  do 2 eexists. by erewrite get_insert_eq.
Qed.

Lemma stale_frame X ns ns' t : frame X ns ns' -> (forall j, j ∈ idxs t -> j ∉ X) -> stale ns t -> stale ns' t.
Proof.
  destruct t as [|i it l r]; [done|]. intros Hf Hd ((c & s & Hg) & Hi & Hl & Hr).
  cbn [idxs] in Hd. split_and!; try done.
  - exists c, s. rewrite (proj2 Hf); [done|]. apply Hd. set_solver.
  - eapply rep_frame; [done| |done]. intros j Hj. apply Hd. set_solver.
  - eapply rep_frame; [done| |done]. intros j Hj. apply Hd. set_solver.
Qed.

Lemma set_get ns j n f : get ns j = Some n ->
  exists ns', set ns j f = Some ns' /\ get ns' j = Some (f n) /\ frame [j] ns ns'.
Proof.
  intros Hg. rewrite (set_eq _ _ _ _ Hg). eexists; split_and!; [done| |apply frame_insert; set_solver].
  by eapply get_insert_eq.
Qed.

Lemma get_frame X ns ns' j n : frame X ns ns' -> j ∉ X -> get ns j = Some n -> get ns' j = Some n.
Proof. intros [_ Hf] Hj Hg. by rewrite Hf. Qed.

Lemma wf_rot_left t : wf_tree t -> wf_tree (rot_left t).
Proof. apply wf_tree_ext; [by rewrite elems_rot_left|by rewrite idxs_rot_left]. Qed.

Lemma wf_rot_right t : wf_tree t -> wf_tree (rot_right t).
Proof. apply wf_tree_ext; [by rewrite elems_rot_right|by rewrite idxs_rot_right]. Qed.

Lemma wf_balance t : wf_tree t -> wf_tree (balance_tree t).
Proof. apply wf_tree_ext; [by rewrite elems_balance|by rewrite idxs_balance]. Qed.

(** [j] occurs in none of the trees, which are apart from [X]. *)
Ltac solve_fresh :=
  repeat match goal with
  | H : wf_tree (Bin _ _ _ _) |- _ => apply wf_Bin in H as (? & ? & ? & ? & ? & ?)
  end; cbn [idxs] in *; intros; set_solver.

(** A frame from [ns] to [ns'] out of the frames of the single steps. *)
Ltac chain_frames :=
  match goal with
  | |- frame _ ?a ?a => apply frame_refl
  | H : frame _ ?a ?b |- frame _ ?a ?c =>
      apply (frame_trans _ a b c); [apply (frame_weaken _ _ _ _ H); set_solver|chain_frames]
  end.

(** One step of a monadic computation. *)
Ltac run E := rewrite E; cbn [mbind option_bind].

Lemma rotate_left_spec ns i it l j jt jl jr :
  stale ns (Bin i it l (Bin j jt jl jr)) -> wf_tree (Bin i it l (Bin j jt jl jr)) ->
  exists ns', rotate_left ns i = Some (ns', j) /\
    rep ns' (Bin j jt (Bin i it l jl) jr) /\ frame [i; j] ns ns'.
Proof.
  intros ((c & s & Hg) & Hi & Hl & (Hgj & Hj & Hjl & Hjr)) Hwf.
  assert (Hij : i <> j) by solve_fresh.
  assert (Hwf' := wf_rot_left _ Hwf). cbn [rot_left] in Hwf'.
  destruct (wf_Bin _ _ _ _ Hwf') as (Hwi & _).
  destruct (set_get ns i _ (set_right (root_of jl)) Hg) as (ns1 & E1 & G1 & F1).
  assert (Hgj1 : get ns1 j = Some (node_of jt jl jr)) by (eapply get_frame; [exact F1|set_solver|done]).
  destruct (set_get ns1 j _ (set_left i) Hgj1) as (ns2 & E2 & G2 & F2).
  assert (F12 : frame [i; j] ns ns2) by chain_frames.
  assert (S2 : stale ns2 (Bin i it l jl)).
  { cbn. split_and!; [|done|..].
    - exists c, s. eapply get_frame; [exact F2|set_solver|exact G1].
    - eapply rep_frame; [exact F12| |done]. solve_fresh.
    - eapply rep_frame; [exact F12| |done]. solve_fresh. }
  destruct (pull_up_spec _ _ _ _ _ S2 Hwi) as (ns3 & E3 & R3 & F3).
  assert (F13 : frame [i; j] ns ns3) by chain_frames.
  assert (S3 : stale ns3 (Bin j jt (Bin i it l jl) jr)).
  { split_and!; [|done|done|].
    - do 2 eexists. eapply get_frame; [exact F3|set_solver|]. exact G2.
    - eapply rep_frame; [exact F13| |done]. solve_fresh. }
  destruct (pull_up_spec _ _ _ _ _ S3 Hwf') as (ns4 & E4 & R4 & F4).
  exists ns4. split_and!; [|done|].
  - unfold rotate_left. rewrite Hg. cbn [mbind option_bind Node.right root_of]. rewrite Hgj.
    cbn [mbind option_bind node_of Node.left]. by run E1; run E2; run E3; run E4.
  - chain_frames.
Qed.

Lemma rotate_right_spec ns i it j jt jl jr r :
  stale ns (Bin i it (Bin j jt jl jr) r) -> wf_tree (Bin i it (Bin j jt jl jr) r) ->
  exists ns', rotate_right ns i = Some (ns', j) /\
    rep ns' (Bin j jt jl (Bin i it jr r)) /\ frame [i; j] ns ns'.
Proof.
  intros ((c & s & Hg) & Hi & (Hgj & Hj & Hjl & Hjr) & Hr) Hwf.
  assert (Hij : i <> j) by solve_fresh.
  assert (Hwf' := wf_rot_right _ Hwf). cbn [rot_right] in Hwf'.
  destruct (wf_Bin _ _ _ _ Hwf') as (_ & Hwi & _).
  destruct (set_get ns i _ (set_left (root_of jr)) Hg) as (ns1 & E1 & G1 & F1).
  assert (Hgj1 : get ns1 j = Some (node_of jt jl jr)) by (eapply get_frame; [exact F1|set_solver|done]).
  destruct (set_get ns1 j _ (set_right i) Hgj1) as (ns2 & E2 & G2 & F2).
  assert (F12 : frame [i; j] ns ns2) by chain_frames.
  assert (S2 : stale ns2 (Bin i it jr r)).
  { cbn. split_and!; [|done|..].
    - exists c, s. eapply get_frame; [exact F2|set_solver|exact G1].
    - eapply rep_frame; [exact F12| |done]. solve_fresh.
    - eapply rep_frame; [exact F12| |done]. solve_fresh. }
  destruct (pull_up_spec _ _ _ _ _ S2 Hwi) as (ns3 & E3 & R3 & F3).
  assert (F13 : frame [i; j] ns ns3) by chain_frames.
  assert (S3 : stale ns3 (Bin j jt jl (Bin i it jr r))).
  { split_and!; [|done| |done].
    - do 2 eexists. eapply get_frame; [exact F3|set_solver|]. exact G2.
    - eapply rep_frame; [exact F13| |done]. solve_fresh. }
  destruct (pull_up_spec _ _ _ _ _ S3 Hwf') as (ns4 & E4 & R4 & F4).
  exists ns4. split_and!; [|done|].
  - unfold rotate_right. rewrite Hg. cbn [mbind option_bind Node.left root_of]. rewrite Hgj.
    cbn [mbind option_bind node_of Node.right]. by run E1; run E2; run E3; run E4.
  - chain_frames.
Qed.

(** The two double rotations: the heavy child is rotated, linked back and
    its parent recomputed before the parent is rotated. *)
Lemma relink_right ns i it l r r' ns1 X :
  rep ns (Bin i it l r) -> wf_tree (Bin i it l r') ->
  rep ns1 r' -> frame X ns ns1 -> X ⊆ idxs r' ->
  exists ns2 ns3, set ns1 i (set_right (root_of r')) = Some ns2 /\ pull_up ns2 i = Some ns3 /\
    rep ns3 (Bin i it l r') /\ frame (i :: X) ns ns3.
Proof.
  intros (Hg & Hi & Hl & Hr) Hwf Hr' F1 HX.
  assert (G1 : get ns1 i = Some (node_of it l r)) by (eapply get_frame; [exact F1|solve_fresh|done]).
  destruct (set_get _ _ _ (set_right (root_of r')) G1) as (ns2 & E2 & G2 & F2).
  assert (F02 : frame (i :: X) ns ns2) by chain_frames.
  destruct (pull_up_spec ns2 i it l r') as (ns3 & E3 & R3 & F3); [|done|].
  - cbn. split_and!; [by eauto|done|..].
    + eapply rep_frame; [exact F02| |done]. solve_fresh.
    + eapply rep_frame; [exact F2| |done]. solve_fresh.
  - exists ns2, ns3. split_and!; try done. chain_frames.
Qed.

Lemma relink_left ns i it l r l' ns1 X :
  rep ns (Bin i it l r) -> wf_tree (Bin i it l' r) ->
  rep ns1 l' -> frame X ns ns1 -> X ⊆ idxs l' ->
  exists ns2 ns3, set ns1 i (set_left (root_of l')) = Some ns2 /\ pull_up ns2 i = Some ns3 /\
    rep ns3 (Bin i it l' r) /\ frame (i :: X) ns ns3.
Proof.
  intros (Hg & Hi & Hl & Hr) Hwf Hr' F1 HX.
  assert (G1 : get ns1 i = Some (node_of it l r)) by (eapply get_frame; [exact F1|solve_fresh|done]).
  destruct (set_get _ _ _ (set_left (root_of l')) G1) as (ns2 & E2 & G2 & F2).
  assert (F02 : frame (i :: X) ns ns2) by chain_frames.
  destruct (pull_up_spec ns2 i it l' r) as (ns3 & E3 & R3 & F3); [|done|].
  - cbn. split_and!; [by eauto|done|..].
    + eapply rep_frame; [exact F2| |done]. solve_fresh.
    + eapply rep_frame; [exact F02| |done]. solve_fresh.
  - exists ns2, ns3. split_and!; try done. chain_frames.
Qed.

Definition computes (res : option (list Node.t * N)) (ns : list Node.t) (t t' : tree) : Prop :=
  exists ns', res = Some (ns', root_of t') /\ rep ns' t' /\ frame (idxs t) ns ns'.

Ltac frames_in := eapply frame_weaken; [chain_frames|cbn [idxs]; set_solver].

Lemma balance_right_heavy ns i it l j jt rl rr :
  let t := Bin i it l (Bin j jt rl rr) in
  rep ns t -> wf_tree t ->
  computes
    (wrl ← weight ns (root_of rl);
     wrr ← weight ns (root_of rr);
     if wrl <? GAMMA * wrr then rotate_left ns i
     else '(ns, new_right) ← rotate_right ns j;
          ns ← set ns i (set_right new_right);
          ns ← pull_up ns i;
          rotate_left ns i) ns t
    (if OrderTree.weight rl <? GAMMA * OrderTree.weight rr then rot_left t
     else rot_left (Bin i it l (rot_right (Bin j jt rl rr)))).
Proof.
  intros t Hrep Hwf. pose proof Hrep as (Hg & Hi & Hl & Hr). pose proof Hr as (Hgj & Hj & Hrl & Hrr).
  run (weight_rep _ _ Hrl). run (weight_rep _ _ Hrr).
  destruct (N.ltb_spec (OrderTree.weight rl) (GAMMA * OrderTree.weight rr)).
  - destruct (rotate_left_spec ns i it l j jt rl rr) as (ns' & E & R & F); [by apply rep_stale|done|].
    exists ns'. split_and!; [done|done|]. frames_in.
  - destruct rl as [|k kt rll rlr]; [unfold OrderTree.weight, GAMMA in *; cbn in *; lia|].
    destruct (wf_Bin _ _ _ _ Hwf) as (_ & Hwr & _).
    destruct (rotate_right_spec ns j jt k kt rll rlr rr) as (ns1 & E1 & R1 & F1);
      [by apply rep_stale|done|].
    assert (Hwf1 : wf_tree (Bin i it l (rot_right (Bin j jt (Bin k kt rll rlr) rr)))).
    { apply (wf_tree_ext t); [..|done]; unfold t; cbn [elems idxs];
        by rewrite ?elems_rot_right, ?idxs_rot_right. }
    cbn [rot_left rot_right] in *.
    destruct (relink_right ns i it l _ _ ns1 [j; k] Hrep Hwf1 R1 F1) as (ns2 & ns3 & E2 & E3 & R3 & F3).
    { cbn [idxs]. set_solver. }
    destruct (rotate_left_spec ns3 i it l k kt rll (Bin j jt rlr rr)) as (ns4 & E4 & R4 & F4);
      [by apply rep_stale|done|].
    cbn [root_of] in *. exists ns4. split_and!; [|done|].
    + run E1. run E2. run E3. done.
    + frames_in.
Qed.

Lemma balance_left_heavy ns i it j jt ll lr r :
  let t := Bin i it (Bin j jt ll lr) r in
  rep ns t -> wf_tree t ->
  computes
    (wlr ← weight ns (root_of lr);
     wll ← weight ns (root_of ll);
     if wlr <? GAMMA * wll then rotate_right ns i
     else '(ns, new_left) ← rotate_left ns j;
          ns ← set ns i (set_left new_left);
          ns ← pull_up ns i;
          rotate_right ns i) ns t
    (if OrderTree.weight lr <? GAMMA * OrderTree.weight ll then rot_right t
     else rot_right (Bin i it (rot_left (Bin j jt ll lr)) r)).
Proof.
  intros t Hrep Hwf. pose proof Hrep as (Hg & Hi & Hl & Hr). pose proof Hl as (Hgj & Hj & Hll & Hlr).
  run (weight_rep _ _ Hlr). run (weight_rep _ _ Hll).
  destruct (N.ltb_spec (OrderTree.weight lr) (GAMMA * OrderTree.weight ll)).
  - destruct (rotate_right_spec ns i it j jt ll lr r) as (ns' & E & R & F); [by apply rep_stale|done|].
    exists ns'. split_and!; [done|done|]. frames_in.
  - destruct lr as [|k kt lrl lrr]; [unfold OrderTree.weight, GAMMA in *; cbn in *; lia|].
    destruct (wf_Bin _ _ _ _ Hwf) as (Hwl & _).
    destruct (rotate_left_spec ns j jt ll k kt lrl lrr) as (ns1 & E1 & R1 & F1);
      [by apply rep_stale|done|].
    assert (Hwf1 : wf_tree (Bin i it (rot_left (Bin j jt ll (Bin k kt lrl lrr))) r)).
    { apply (wf_tree_ext t); [..|done]; unfold t; cbn [elems idxs];
        by rewrite ?elems_rot_left, ?idxs_rot_left. }
    cbn [rot_left rot_right] in *.
    destruct (relink_left ns i it _ r _ ns1 [j; k] Hrep Hwf1 R1 F1) as (ns2 & ns3 & E2 & E3 & R3 & F3).
    { cbn [idxs]. set_solver. }
    destruct (rotate_right_spec ns3 i it k kt (Bin j jt ll lrl) lrr r) as (ns4 & E4 & R4 & F4);
      [by apply rep_stale|done|].
    cbn [root_of] in *. exists ns4. split_and!; [|done|].
    + run E1. run E2. run E3. done.
    + frames_in.
Qed.

Lemma balance_spec ns t : t <> Leaf -> rep ns t -> wf_tree t ->
  computes (balance ns (root_of t)) ns t (balance_tree t).
Proof.
  destruct t as [|i it l r]; [done|]. intros _ Hrep Hwf.
  pose proof Hrep as (Hg & Hi & Hl & Hr). cbn [root_of]. unfold balance, balance_tree.
  run Hg. cbn [node_of Node.left Node.right]. run (weight_rep _ _ Hl). run (weight_rep _ _ Hr).
  destruct (N.ltb_spec (OrderTree.weight l * DELTA) (OrderTree.weight r)).
  - destruct r as [|j jt rl rr]; [unfold OrderTree.weight, DELTA in *; cbn in *; lia|].
    cbn [root_of]. run (proj1 Hr). cbn [node_of Node.left Node.right]. by apply balance_right_heavy.
  - destruct (N.ltb_spec (OrderTree.weight r * DELTA) (OrderTree.weight l)).
    + destruct l as [|j jt ll lr]; [unfold OrderTree.weight, DELTA in *; cbn in *; lia|].
      cbn [root_of]. run (proj1 Hl). cbn [node_of Node.left Node.right]. by apply balance_left_heavy.
    + exists ns. split_and!; [done|done|apply frame_refl].
Qed.

(** ** Insertion *)

Lemma elems_tree_insert_perm n x t : (tree_insert n x t).2 = true ->
  elems (tree_insert n x t).1 ≡ₚ x :: elems t.
Proof.
  induction t as [|i it l IHl r IHr]; [done|]. cbn [tree_insert].
  destruct (Item.cmp x it); [done|..].
  - destruct (tree_insert n x l) as [l' []]; cbn [fst snd] in *; [|done]. intros _.
    rewrite elems_balance. cbn [elems]. by rewrite IHl.
  - destruct (tree_insert n x r) as [r' []]; cbn [fst snd] in *; [|done]. intros _.
    rewrite elems_balance. cbn [elems]. rewrite IHr by done.
    by rewrite (Permutation_swap x it), <- Permutation_middle.
Qed.

Lemma wf_tree_insert n x t : wf_tree t -> Item.wf x -> n ∉ idxs t -> size t < u32_max ->
  wf_tree (tree_insert n x t).1.
Proof.
  intros Hwf Hx Hn Hs. destruct (tree_insert n x t).2 eqn:E.
  - split.
    + rewrite (idxs_tree_insert _ _ _ E). constructor; [done|apply Hwf].
    + rewrite (elems_tree_insert_perm _ _ _ E). constructor; [done|apply Hwf].
    + rewrite (size_tree_insert _ _ _ E). lia.
  - by rewrite (tree_insert_old _ _ _ E).
Qed.

(** The link back into the parent, the summary and the balance step. *)
Lemma insert_step ns i it l r f n0 :
  get ns i = Some n0 -> i <> NIL -> rep ns l -> rep ns r -> wf_tree (Bin i it l r) ->
  (exists c s, f n0 = Node.mk it (root_of l) (root_of r) c s) ->
  exists ns',
    (ns ← set ns i f; ns ← pull_up ns i; '(ns, root) ← balance ns i; Some (ns, root, true)) =
      Some (ns', root_of (balance_tree (Bin i it l r)), true) /\
    rep ns' (balance_tree (Bin i it l r)) /\ frame (idxs (Bin i it l r)) ns ns'.
Proof.
  intros Hg Hi Hl Hr Hwf (c & s & Hf).
  destruct (set_get _ _ _ f Hg) as (ns1 & E1 & G1 & F1).
  destruct (pull_up_spec ns1 i it l r) as (ns2 & E2 & R2 & F2); [|done|].
  { split_and!; [rewrite G1, Hf; by eauto|done|..]; (eapply rep_frame; [exact F1| |done]); solve_fresh. }
  destruct (balance_spec ns2 (Bin i it l r)) as (ns3 & E3 & R3 & F3); [done|done|done|].
  exists ns3. split_and!; [by run E1; run E2; cbn [root_of] in E3; run E3|done|].
  assert (frame (idxs (Bin i it l r)) ns ns2) by frames_in. by eapply frame_trans.
Qed.

Definition inserted_in (ns ns' : list Node.t) (t : tree) (ins : bool) : Prop :=
  if ins then
    length ns' = S (length ns) /\
    forall j, j ∉ idxs t -> j < lenN ns -> get ns' j = get ns j
  else ns' = ns.

Lemma inserted_in_parent ns ns1 ns' c t t1 :
  inserted_in ns ns1 c true -> frame (idxs t1) ns1 ns' ->
  idxs c ⊆ idxs t -> idxs t1 ⊆ lenN ns :: idxs t ->
  inserted_in ns ns' t true.
Proof.
  intros [Hl1 Hf1] [Hl2 Hf2] Hc Hd. split; [lia|]. intros j Hj Hlt.
  rewrite Hf2, Hf1; [done|by intros ?%Hc|done|].
  intros Hin%Hd. apply elem_of_cons in Hin as [->|]; [lia|done].
Qed.

(** A subtree apart from the one inserted into is still represented. *)
Lemma rep_inserted_in ns ns1 c t :
  inserted_in ns ns1 c true -> (forall j, j ∈ idxs t -> j ∉ idxs c) -> rep ns t -> rep ns1 t.
Proof.
  intros [_ Hf] Hd Hrep. assert (Hlt := fun j => rep_idxs ns t j Hrep). revert Hd Hrep Hlt.
  induction t as [|i it l IHl r IHr]; [done|].
  cbn [rep idxs]. intros Hd (Hg & Hi & Hl & Hr) Hlt. split_and!.
  - rewrite Hf; [done|apply Hd|apply Hlt]; set_solver.
  - done.
  - apply IHl; [|done|]; intros j Hj; [apply Hd|apply Hlt]; set_solver.
  - apply IHr; [|done|]; intros j Hj; [apply Hd|apply Hlt]; set_solver.
Qed.

Lemma set_same ns i f n : get ns i = Some n -> f n = n -> set ns i f = Some ns.
Proof.
  intros Hg Hf. rewrite (set_eq _ _ _ _ Hg), Hf. f_equal. by apply list_insert_id.
Qed.

(** An item enters an empty subtree. *)
Lemma insert_at_leaf fuel ns x : lenN ns < NIL ->
  let t' := (tree_insert (lenN ns) x Leaf).1 in
  let ins := (tree_insert (lenN ns) x Leaf).2 in
  exists ns', insert_at (S fuel) ns (root_of Leaf) x = Some (ns', root_of t', ins) /\
    rep ns' t' /\ inserted_in ns ns' Leaf ins.
Proof.
  intros Hn. cbn zeta. cbn [root_of insert_at tree_insert fst snd].
  exists (ns ++ [node_of x Leaf Leaf]). split_and!.
  - cbn [N.eqb NIL Pos.eqb]. rewrite N.mod_small; [|unfold lenN, NIL in *; rewrite length_app; cbn; lia].
    unfold lenN. rewrite length_app. cbn [length root_of]. do 3 f_equal. lia.
  - cbn. split_and!; try done; [|unfold NIL in *; lia].
    unfold get, lenN. rewrite Nat2N.id. by apply list_lookup_middle.
  - split; [rewrite length_app; cbn; lia|]. intros j _ Hj. unfold get, lenN in *.
    apply lookup_app_l. lia.
Qed.

Lemma insert_at_spec fuel ns t x :
  rep ns t -> wf_tree t -> Item.wf x -> lenN ns < NIL -> size t < u32_max -> (height t < fuel)%nat ->
  let t' := (tree_insert (lenN ns) x t).1 in
  let ins := (tree_insert (lenN ns) x t).2 in
  exists ns', insert_at fuel ns (root_of t) x = Some (ns', root_of t', ins) /\
    rep ns' t' /\ inserted_in ns ns' t ins.
Proof.
  intros Hrep Hwf Hx Hn. revert ns t Hrep Hwf Hn.
  induction fuel as [|fuel IH]; [lia|]. intros ns [|i it l r] Hrep Hwf Hn Hs Hf; cbn zeta.
  - by apply insert_at_leaf.
  - pose proof Hrep as (Hg & Hi & Hl & Hr). destruct (wf_Bin _ _ _ _ Hwf) as (Hwl & Hwr & _).
    assert (Hfresh : lenN ns ∉ idxs (Bin i it l r)).
    { intros Hin. pose proof (rep_idxs _ _ _ Hrep Hin). lia. }
    pose proof (wf_tree_insert (lenN ns) x _ Hwf Hx Hfresh Hs) as Hwf'.
    cbn [root_of insert_at tree_insert size height] in *.
    rewrite (proj2 (N.eqb_neq i NIL) Hi). run Hg. cbn [node_of Node.item Node.left Node.right].
    destruct (Item.cmp x it); [by exists ns|..].
    + destruct (IH ns l) as (ns1 & E1 & R1 & F1); [done|done|done|lia|lia|].
      pose proof (idxs_tree_insert (lenN ns) x l) as Hp.
      pose proof (tree_insert_old (lenN ns) x l) as Hold. run E1.
      destruct (tree_insert (lenN ns) x l) as [l' []]; cbn [fst snd] in *; cbn [negb].
      * destruct (insert_step ns1 i it l' r (set_left (root_of l')) (node_of it l r))
          as (ns2 & E2 & R2 & F2); [|done|done| | |by eauto|].
        { rewrite (proj2 F1); [done|solve_fresh|by apply lookup_lt_Some in Hg; unfold lenN; lia]. }
        { eapply rep_inserted_in; [exact F1|solve_fresh|done]. }
        { revert Hwf'. apply wf_tree_ext; [by rewrite elems_balance|by rewrite idxs_balance]. }
        exists ns2. split_and!; [done|done|].
        eapply inserted_in_parent; [exact F1|exact F2|set_solver|].
        cbn [idxs]. intros j. rewrite (Hp eq_refl). set_solver.
      * specialize (Hold eq_refl). subst l'. change (ns1 = ns) in F1. subst ns1. exists ns.
        by run (set_same ns i (set_left (root_of l)) _ Hg eq_refl).
    + destruct (IH ns r) as (ns1 & E1 & R1 & F1); [done|done|done|lia|lia|].
      pose proof (idxs_tree_insert (lenN ns) x r) as Hp.
      pose proof (tree_insert_old (lenN ns) x r) as Hold. run E1.
      destruct (tree_insert (lenN ns) x r) as [r' []]; cbn [fst snd] in *; cbn [negb].
      * destruct (insert_step ns1 i it l r' (set_right (root_of r')) (node_of it l r))
          as (ns2 & E2 & R2 & F2); [|done| |done| |by eauto|].
        { rewrite (proj2 F1); [done|solve_fresh|by apply lookup_lt_Some in Hg; unfold lenN; lia]. }
        { eapply rep_inserted_in; [exact F1|solve_fresh|done]. }
        { revert Hwf'. apply wf_tree_ext; [by rewrite elems_balance|by rewrite idxs_balance]. }
        exists ns2. split_and!; [done|done|].
        eapply inserted_in_parent; [exact F1|exact F2|set_solver|].
        cbn [idxs]. intros j. rewrite (Hp eq_refl). set_solver.
      * specialize (Hold eq_refl). subst r'. change (ns1 = ns) in F1. subst ns1. exists ns.
        by run (set_same ns i (set_right (root_of r)) _ Hg eq_refl).
Qed.
