(* ===== verification/OrderSpec.v ===== *)
(** * The contract of the order index

    [models o l]: the index [o] holds the sorted list [l]. Insertion
    refines insertion into a sorted list; ranks, lower bounds, range
    summaries and range iteration are those of the list; the depth of the
    arena is logarithmic in its length. *)
From S2P Require Import Prelude Item IdSum OrderTree OrderIndex OrderRefine.
Open Scope N_scope.
Import OrderIndex.

Definition models (o : t) (l : list Item.t) : Prop :=
  exists tr, rep (nodes o) tr /\ root o = root_of tr /\ wf_tree tr /\
    size tr = lenN (nodes o) /\ elems tr = l /\ Item.sorted l /\ balanced tr.

(** The number of items before [b], the rank [lower_bound] looks for. *)
Definition rank_of (b : Item.t) (l : list Item.t) : N :=
  lenN (List.filter (fun x => Item.ltb x b) l).

(** The items at ranks [start..stop]. *)
Definition ranks (start stop : N) (l : list Item.t) : list Item.t :=
  take (N.to_nat (stop - start)) (drop (N.to_nat start) l).

(** ** Reading a represented tree *)

Lemma item_at_loop_rep fuel ns t rank : rep ns t -> rank < size t -> (height t < fuel)%nat ->
  item_at_loop fuel ns rank (root_of t) = elems t !! N.to_nat rank.
Proof.
  revert t rank. induction fuel as [|fuel IH]; [lia|]. intros [|i it l r] rank; cbn [size height]; [lia|].
  intros (Hg & Hi & Hl & Hr) Hrank Hf. cbn [root_of item_at_loop]. run Hg.
  cbn [node_of Node.left Node.item Node.right]. run (subtree_count_rep _ _ Hl).
  assert (Hsz := size_elems l). unfold lenN in Hsz. cbn [elems].
  destruct (N.ltb_spec rank (size l)).
  - rewrite IH by (done || lia). rewrite lookup_app_l; [done|lia].
  - destruct (N.eqb_spec rank (size l)) as [->|].
    + rewrite lookup_app_r by lia. by replace (_ - _)%nat with 0%nat by lia.
    + rewrite IH by (done || lia). rewrite lookup_app_r by lia.
      replace (N.to_nat rank - length (elems l))%nat with (S (N.to_nat (rank - (size l + 1)))) by lia.
      done.
Qed.

Lemma rank_of_app b l1 l2 : rank_of b (l1 ++ l2) = rank_of b l1 + rank_of b l2.
Proof. unfold rank_of, lenN. rewrite List.filter_app, length_app. lia. Qed.

Lemma rank_of_all b l : (forall x, x ∈ l -> Item.lt x b) -> rank_of b l = lenN l.
Proof.
  unfold rank_of, lenN. induction l as [|x l IH]; [done|]. intros Hx. cbn.
  rewrite (proj2 (Item.ltb_lt x b)) by (apply Hx; set_solver). cbn.
  specialize (IH ltac:(intros y Hy; apply Hx; set_solver)). lia.
Qed.

Lemma rank_of_none b l : (forall x, x ∈ l -> ~ Item.lt x b) -> rank_of b l = 0.
Proof.
  unfold rank_of, lenN. induction l as [|x l IH]; [done|]. intros Hx. cbn.
  rewrite (proj2 (Item.ltb_ge x b)) by (apply Hx; set_solver).
  apply IH. intros y Hy; apply Hx; set_solver.
Qed.

(** In a sorted list the items below a bound are a prefix. *)
Lemma rank_of_prefix b l i x : Item.sorted l -> l !! i = Some x ->
  N.of_nat i < rank_of b l <-> Item.lt x b.
Proof.
  intros Hs Hx. apply list_elem_of_split_length in Hx as (l1 & l2 & -> & ->).
  apply Item.sorted_middle in Hs as (_ & _ & H1 & H2).
  rewrite rank_of_app. change (x :: l2) with ([x] ++ l2). rewrite rank_of_app.
  unfold rank_of at 2. cbn [List.filter]. destruct (Item.ltb x b) eqn:E.
  - apply Item.ltb_lt in E. rewrite (rank_of_all b l1); [unfold lenN; cbn; split; [done|lia]|].
    intros y Hy. eapply Item.lt_trans; [by apply H1|done].
  - apply Item.ltb_ge in E. rewrite (rank_of_none b l2).
    + split; [|done]. unfold rank_of, lenN.
      pose proof (List.filter_length_le (fun y => Item.ltb y b) l1). cbn. lia.
    + intros y Hy Hyb. apply E. eapply Item.lt_trans; [by apply H2|done].
Qed.

Lemma rank_of_le b l : rank_of b l <= lenN l.
Proof. unfold rank_of, lenN. pose proof (List.filter_length_le (fun y => Item.ltb y b) l). lia. Qed.

Lemma sorted_ranks a b l : Item.sorted l -> Item.sorted (ranks a b l).
Proof.
  intros Hs. unfold ranks. rewrite <- (take_drop (N.to_nat a) l) in Hs.
  apply Item.sorted_app in Hs as (_ & Hs & _).
  rewrite <- (take_drop (N.to_nat (b - a)) (drop _ l)) in Hs. by apply Item.sorted_app in Hs as (? & _).
Qed.

Lemma elem_of_ranks x a b l : x ∈ ranks a b l <-> exists i, l !! i = Some x /\ a <= N.of_nat i < b.
Proof.
  unfold ranks. rewrite list_elem_of_lookup. split.
  - intros (i & [Hi Hlt]%lookup_take_Some). rewrite lookup_drop in Hi. eexists; split; [done|]. lia.
  - intros (i & Hi & Hr). exists (i - N.to_nat a)%nat. apply lookup_take_Some. rewrite lookup_drop.
    split; [|lia]. rewrite <- Hi. f_equal. lia.
Qed.

Lemma lower_bound_loop_rep fuel ns t b acc :
  rep ns t -> Item.sorted (elems t) -> (height t < fuel)%nat ->
  lower_bound_loop fuel ns b acc (root_of t) = Some (acc + rank_of b (elems t)).
Proof.
  revert t acc. induction fuel as [|fuel IH]; [lia|]. intros [|i it l r] acc; cbn [height].
  { intros _ _ _. change (Some acc = Some (acc + 0)). by rewrite N.add_0_r. }
  intros (Hg & Hi & Hl & Hr) Hs Hf. cbn [root_of lower_bound_loop elems] in *.
  apply Item.sorted_middle in Hs as (Hsl & Hsr & Hlt & Hgt).
  rewrite (proj2 (N.eqb_neq i NIL) Hi). run Hg. cbn [node_of Node.left Node.item Node.right].
  rewrite rank_of_app. change (it :: elems r) with ([it] ++ elems r). rewrite rank_of_app.
  destruct (Item.ltb it b) eqn:E.
  - run (subtree_count_rep _ _ Hl). rewrite IH by (done || lia). f_equal.
    apply Item.ltb_lt in E. rewrite (rank_of_all b (elems l)), size_elems.
    + rewrite (rank_of_all b [it]); [unfold lenN; cbn [length]; lia|]. intros x ->%list_elem_of_singleton. done.
    + intros x Hx. eapply Item.lt_trans; [by apply Hlt|done].
  - rewrite IH by (done || lia). f_equal. apply Item.ltb_ge in E.
    rewrite (rank_of_none b [it]), (rank_of_none b (elems r)); [lia|..].
    + intros x Hx Hxb. apply E. eapply Item.lt_trans; [by apply Hgt|done].
    + intros x ->%list_elem_of_singleton. done.
Qed.

Lemma sum_ids_snoc a i : IdSum.add_id (IdSum.sum_ids a) i = IdSum.sum_ids (a ++ [i]).
Proof. unfold IdSum.sum_ids. by rewrite foldl_app. Qed.

Lemma prefix_loop_rep fuel ns t k c a :
  rep ns t -> Forall Item.wf (elems t) -> Forall (fun i => length i = ID_SIZE) a ->
  k <= size t -> (height t < fuel)%nat ->
  prefix_loop fuel ns k c (IdSum.sum_ids a) (root_of t) =
    Some (c + k, IdSum.sum_ids (a ++ ids (take (N.to_nat k) (elems t)))).
Proof.
  revert t k c a. induction fuel as [|fuel IH]; [lia|]. intros t k c a Hrep Hw Ha Hk Hf.
  cbn [prefix_loop]. destruct (N.eqb_spec k 0) as [->|Hk0].
  { rewrite orb_true_r. cbn. by rewrite app_nil_r, N.add_0_r. }
  destruct t as [|i it l r]; [cbn in Hk; lia|]. destruct Hrep as (Hg & Hi & Hl & Hr).
  cbn [root_of size height elems] in *. rewrite (proj2 (N.eqb_neq i NIL) Hi). cbn [orb].
  run Hg. cbn [node_of Node.left Node.item Node.right]. run (subtree_count_rep _ _ Hl).
  apply Forall_app in Hw as (Hwl & [Hwi Hwr]%Forall_cons).
  assert (Hsz := size_elems l). unfold lenN in Hsz.
  destruct (N.leb_spec k (size l)).
  { rewrite IH by (done || lia). rewrite take_app_le by lia. done. }
  assert (Hleft : (if root_of l =? NIL then Some (c, IdSum.sum_ids a)
             else n ← get ns (root_of l);
                  Some (c + Node.count n, IdSum.combine (IdSum.sum_ids a) (Node.sum n)))
             = Some (c + size l, IdSum.sum_ids (a ++ ids (elems l)))).
  { destruct l as [|j jt ll lr]; [cbn; by rewrite app_nil_r, N.add_0_r|].
    destruct Hl as (Hgj & Hj & _). cbn [root_of]. rewrite (proj2 (N.eqb_neq j NIL) Hj). run Hgj.
    cbn [node_of Node.count Node.sum]. by rewrite IdSum.sum_ids_combine by (try done; by apply wf_ids). }
  run Hleft. rewrite sum_ids_snoc, IH; [|done|done| |lia|lia].
  - do 2 f_equal; [lia|]. f_equal. rewrite <- !app_assoc. f_equal.
    rewrite take_app_ge by lia. unfold ids. rewrite map_app. f_equal.
    replace (N.to_nat k - length (elems l))%nat with (S (N.to_nat (k - (size l + 1)))) by lia. done.
  - repeat (apply Forall_app; split); try done; [by apply wf_ids|]. constructor; [apply Hwi|done].
Qed.

(** ** Iteration *)

(** The items the stack still has to yield. *)
Definition pending1 (t : tree) : list Item.t :=
  match t with Leaf => [] | Bin _ it _ r => it :: elems r end.
Definition pending (ts : list tree) : list Item.t := concat (map pending1 ts).

Definition stack_rep (ns : list Node.t) (st : list N) (ts : list tree) : Prop :=
  Forall2 (fun idx t => idx = root_of t /\ t <> Leaf /\ rep ns t /\ size t <= lenN ns) st ts.

Lemma pending_left ns fuel t st ts :
  rep ns t -> size t <= lenN ns -> stack_rep ns st ts -> (height t < fuel)%nat ->
  exists st' ts', RangeIter.push_left fuel ns st (root_of t) = Some st' /\
    stack_rep ns st' ts' /\ pending ts' = elems t ++ pending ts.
Proof.
  revert t st ts. induction fuel as [|fuel IH]; [lia|].
  intros [|i it l r] st ts Hrep Hsz Hst Hf; cbn [height root_of RangeIter.push_left] in *.
  { by exists st, ts. }
  pose proof Hrep as (Hg & Hi & Hl & Hr). rewrite (proj2 (N.eqb_neq i NIL) Hi). run Hg.
  cbn [node_of Node.left size] in *.
  destruct (IH l (i :: st) (Bin i it l r :: ts)) as (st' & ts' & E & Hs & Hp); [done|lia| |lia|].
  { by constructor. }
  exists st', ts'. split_and!; [done|done|]. rewrite Hp. cbn [elems].
  by rewrite <- app_assoc.
Qed.

Lemma seed_rep ns fuel t st ts rank :
  rep ns t -> size t <= lenN ns -> stack_rep ns st ts -> (height t < fuel)%nat -> rank <= size t ->
  exists st' ts', RangeIter.seed fuel ns st rank (root_of t) = Some st' /\
    stack_rep ns st' ts' /\ pending ts' = drop (N.to_nat rank) (elems t) ++ pending ts.
Proof.
  revert t st ts rank. induction fuel as [|fuel IH]; [lia|].
  intros [|i it l r] st ts rank Hrep Hsz Hst Hf Hk; cbn [height root_of RangeIter.seed size elems] in *.
  { exists st, ts. by rewrite drop_nil. }
  pose proof Hrep as (Hg & Hi & Hl & Hr). rewrite (proj2 (N.eqb_neq i NIL) Hi). run Hg.
  cbn [node_of Node.left Node.right]. run (subtree_count_rep _ _ Hl).
  assert (Hle := size_elems l). unfold lenN in Hle.
  destruct (N.ltb_spec rank (size l)).
  - destruct (IH l (i :: st) (Bin i it l r :: ts) rank) as (st' & ts' & E & Hs & Hp);
      [done|lia|by constructor|lia|lia|].
    exists st', ts'. split_and!; [done|done|]. rewrite Hp, drop_app_le by lia.
    by rewrite <- app_assoc.
  - destruct (N.eqb_spec rank (size l)) as [->|].
    + exists (i :: st), (Bin i it l r :: ts). split_and!; [done|by constructor|].
      by rewrite drop_app_length' by lia.
    + destruct (IH r st ts (rank - (size l + 1))) as (st' & ts' & E & Hs & Hp);
        [done|lia|done|lia|lia|].
      exists st', ts'. split_and!; [done|done|]. rewrite Hp, drop_app_ge by lia.
      by replace (N.to_nat rank - length (elems l))%nat with (S (N.to_nat (rank - (size l + 1)))) by lia.
Qed.

(** The iterator [it] still has to yield the items [l]. *)
Definition yields (it : RangeIter.t) (l : list Item.t) : Prop :=
  exists ts, stack_rep (nodes (RangeIter.index it)) (RangeIter.stack it) ts /\
    l = take (N.to_nat (RangeIter.remaining it)) (pending ts) /\
    RangeIter.remaining it <= lenN (pending ts).

(** The hint is exact at every point of the iteration. *)
Lemma yields_size_hint it l : yields it l -> RangeIter.size_hint it = (lenN l, Some (lenN l)).
Proof.
  intros (ts & _ & -> & Hle). unfold RangeIter.size_hint.
  replace (lenN (take _ _)) with (RangeIter.remaining it); [done|]. unfold lenN in *. rewrite length_take. lia.
Qed.

Lemma next_nil it : yields it [] -> RangeIter.next it = Some (it, None).
Proof.
  intros (ts & Hs & Hl & Hle). unfold RangeIter.next. destruct (N.eqb_spec (RangeIter.remaining it) 0); [done|].
  apply (f_equal length) in Hl. rewrite length_take in Hl. unfold lenN in Hle. cbn in Hl. lia.
Qed.

Lemma next_cons it x l : yields it (x :: l) ->
  exists it', RangeIter.next it = Some (it', Some x) /\ yields it' l.
Proof.
  intros (ts & Hs & Hl & Hle). destruct it as [o st n]. cbn [RangeIter.index RangeIter.stack RangeIter.remaining] in *.
  unfold RangeIter.next. cbn [RangeIter.index RangeIter.stack RangeIter.remaining].
  destruct (N.eqb_spec n 0) as [->|Hn]; [done|].
  destruct Hs as [|i [|j it tl tr] st ts (Hj & Hne & Hrep & Hsz) Hst];
    [cbn in Hl; by rewrite take_nil in Hl|done|]. cbn [root_of] in Hj. subst j.
  destruct Hrep as (Hg & Hi & Htl & Htr). run Hg. cbn [node_of Node.right Node.item]. cbn [size] in Hsz.
  destruct (pending_left (nodes o) (fuel_of o) tr st ts) as (st' & ts' & E & Hs' & Hp); [done|lia|done| |].
  { pose proof (height_size tr). unfold fuel_of, lenN in *. lia. }
  assert (Hpend : pending (Bin i it tl tr :: ts) = it :: pending ts') by by rewrite Hp.
  rewrite Hpend in Hl, Hle. replace (N.to_nat n) with (S (N.to_nat (n - 1))) in Hl by lia.
  injection Hl as -> ->. run E. eexists. split; [done|].
  exists ts'. split_and!; [done|done|]. unfold lenN in *. cbn in *. lia.
Qed.

Lemma collect_yields l it fuel : yields it l -> (length l <= fuel)%nat ->
  RangeIter.collect fuel it = Some l.
Proof.
  revert it fuel. induction l as [|x l IH]; intros it [|fuel] Hy Hf; cbn in Hf; try lia; try done; cbn.
  - by rewrite next_nil.
  - destruct (next_cons _ _ _ Hy) as (it' & -> & Hy'). cbn. rewrite IH; [done|done|lia].
Qed.

(** ** The operations on a modelled index *)

Lemma models_new : models new [].
Proof.
  exists Leaf. split_and!; try done; [split|]; try constructor; cbn; unfold u32_max; lia.
Qed.

(** What every operation needs: the tree, its height under the fuel. *)
Lemma models_inv o l : models o l ->
  exists tr, rep (nodes o) tr /\ root o = root_of tr /\ wf_tree tr /\ size tr = lenN (nodes o) /\
    elems tr = l /\ Item.sorted l /\ balanced tr /\ (height tr < fuel_of o)%nat /\ size tr = lenN l.
Proof.
  intros (tr & Hrep & Hroot & Hwf & Hsz & He & Hs & Hb). exists tr. split_and!; try done.
  - pose proof (height_size tr). unfold fuel_of, lenN in *. lia.
  - by rewrite size_elems, He.
Qed.

Lemma models_bounds o l : models o l -> lenN l <= u32_max /\ Item.sorted l /\ Forall Item.wf l.
Proof.
  intros (tr & _ & _ & Hwf & _ & He & Hs & _ & _ & Hlen)%models_inv. destruct Hwf as [_ Hw Hsz].
  rewrite <- Hlen, <- He at 1. rewrite <- He. split_and!; [done|by rewrite He|done].
Qed.

Lemma models_insert o l x : models o l -> Item.wf x -> lenN l < u32_max ->
  exists o', insert o x = Some (o', bool_decide (x ∉ l)) /\ models o' (list_insert x l) /\
    (x ∈ l -> o' = o).
Proof.
  intros (tr & Hrep & Hroot & Hwf & Hsz & He & Hs & Hb & Hh & Hlen)%models_inv Hx Hn.
  destruct (insert_at_spec (fuel_of o) (nodes o) tr x) as (ns' & E & R & F);
    [done|done|done|by rewrite <- Hsz, Hlen|by rewrite Hlen|done|].
  destruct (elems_tree_insert (lenN (nodes o)) x tr) as [He' Hins]; [by rewrite He|]. rewrite He in *.
  exists (mk ns' (root_of (tree_insert (lenN (nodes o)) x tr).1)). unfold insert. rewrite Hroot. run E.
  split_and!.
  - do 2 f_equal. apply eq_true_iff_eq. by rewrite bool_decide_eq_true.
  - eexists. cbn [nodes root]. split_and!; [exact R|done|..].
    + apply wf_tree_insert; [done|done| |by rewrite Hlen].
      intros Hin. pose proof (rep_idxs _ _ _ Hrep Hin). lia.
    + pose proof (size_tree_insert (lenN (nodes o)) x tr) as Hsz'.
      pose proof (tree_insert_old (lenN (nodes o)) x tr) as Hold.
      destruct (tree_insert (lenN (nodes o)) x tr) as [t' []]; cbn [fst snd inserted_in] in *.
      * rewrite Hsz', Hsz by done. unfold lenN. rewrite (proj1 F). lia.
      * by rewrite Hold, F.
    + done.
    + by apply sorted_list_insert.
    + by apply balanced_tree_insert.
  - intros Hx'. destruct (tree_insert (lenN (nodes o)) x tr).2 eqn:Ei; [by apply Hins in Hx'|].
    rewrite (tree_insert_old _ _ _ Ei), <- Hroot. cbn in F. subst ns'. by destruct o.
Qed.

Lemma models_len o l : models o l -> len o = Some (lenN l).
Proof.
  intros (tr & Hrep & Hroot & _ & _ & _ & _ & _ & _ & Hlen)%models_inv. unfold len.
  by rewrite Hroot, (subtree_count_rep _ _ Hrep), Hlen.
Qed.

Lemma models_empty o l : models o l -> is_empty o = bool_decide (l = []).
Proof.
  intros (tr & Hrep & Hroot & _ & _ & He & _)%models_inv. unfold is_empty. rewrite Hroot, <- He.
  destruct tr as [|i it l1 l2]; [done|]. destruct Hrep as (_ & Hi & _). cbn [root_of elems].
  rewrite (proj2 (N.eqb_neq i NIL) Hi), bool_decide_eq_false_2; [done|]. by destruct (elems l1).
Qed.

Lemma small_rank o l k : models o l -> k <= lenN l -> k mod 2 ^ 32 = k.
Proof. intros [H _]%models_bounds Hk. apply N.mod_small. unfold u32_max in *. lia. Qed.

Lemma models_item_at o l rank : models o l -> item_at o rank = l !! N.to_nat rank.
Proof.
  intros Hm. unfold item_at. run (models_len _ _ Hm).
  destruct (N.ltb_spec rank (lenN l)).
  - rewrite (small_rank o l) by (done || lia).
    apply models_inv in Hm as (tr & Hrep & Hroot & _ & _ & <- & _ & _ & Hh & Hlen).
    rewrite Hroot. apply item_at_loop_rep; [done|lia|done].
  - symmetry. apply lookup_ge_None. unfold lenN in *. lia.
Qed.

Lemma models_lower_bound o l b : models o l -> lower_bound o b = Some (rank_of b l).
Proof.
  intros (tr & Hrep & Hroot & _ & _ & <- & Hs & _ & Hh & _)%models_inv.
  unfold lower_bound. rewrite Hroot. by rewrite lower_bound_loop_rep.
Qed.

Lemma models_prefix o l k : models o l -> k <= lenN l ->
  prefix_summary o k = Some (k, IdSum.sum_ids (ids (take (N.to_nat k) l))).
Proof.
  intros Hm Hk. unfold prefix_summary. rewrite (small_rank o l) by done.
  apply models_inv in Hm as (tr & Hrep & Hroot & Hwf & _ & <- & _ & _ & Hh & Hlen). rewrite Hroot.
  rewrite (prefix_loop_rep _ _ tr k 0 []); [done|done|apply Hwf|constructor|lia|done].
Qed.

Lemma models_summary o l start stop : models o l -> start <= stop -> stop <= lenN l ->
  summary o start stop = Some (stop - start, IdSum.sum_ids (ids (ranks start stop l))).
Proof.
  intros Hm H1 H2. unfold summary. run (models_len _ _ Hm).
  rewrite (proj2 (N.leb_le start stop) H1), (proj2 (N.leb_le stop _) H2). cbn [andb].
  run (models_prefix _ _ _ Hm H2). assert (H3 : start <= lenN l) by lia.
  run (models_prefix _ _ _ Hm H3).
  rewrite (proj2 (N.leb_le start stop) H1). do 2 f_equal.
  replace (take (N.to_nat stop) l) with (take (N.to_nat start) l ++ ranks start stop l).
  - unfold ids. rewrite map_app. apply models_bounds in Hm as (_ & _ & Hw).
    apply IdSum.sum_ids_subtract; apply wf_ids; [by apply Forall_take|by apply Forall_take, Forall_drop].
  - unfold ranks. rewrite <- (take_drop (N.to_nat start) (take (N.to_nat stop) l)) at 1.
    rewrite take_take, Nat.min_l by lia. f_equal.
    rewrite take_drop_commute. do 2 f_equal. lia.
Qed.

Lemma models_iter_range o l start stop : models o l -> start <= stop -> stop <= lenN l ->
  exists it, RangeIter.iter_range o start stop = Some it /\ yields it (ranks start stop l).
Proof.
  intros Hm H1 H2. unfold RangeIter.iter_range. run (models_len _ _ Hm).
  rewrite (proj2 (N.leb_le start stop) H1), (proj2 (N.leb_le stop _) H2). cbn [andb].
  rewrite (small_rank o l) by (done || lia).
  apply models_inv in Hm as (tr & Hrep & Hroot & _ & Hsz & <- & _ & _ & Hh & Hlen). rewrite Hroot.
  destruct (seed_rep (nodes o) (fuel_of o) tr [] [] start) as (st & ts & E & Hst & Hp);
    [done|lia|by constructor|done|lia|].
  run E. eexists. split; [done|]. exists ts. cbn. rewrite Hp, app_nil_r. split_and!; [done|done|].
  unfold lenN in *. rewrite length_drop. lia.
Qed.

(** The height bounds every loop: [4^h <= 3^h * (len + 1)]. *)
Lemma models_depth o l : models o l ->
  exists h, 4 ^ N.of_nat h <= 3 ^ N.of_nat h * (lenN l + 1) /\
    (forall b, lower_bound_loop (S h) (nodes o) b 0 (root o) = lower_bound o b) /\
    (forall k, k < lenN l -> item_at_loop (S h) (nodes o) k (root o) = item_at o k).
Proof.
  intros Hm. pose proof Hm as (tr & Hrep & Hroot & _ & _ & He & Hs & Hb & _ & Hlen)%models_inv.
  exists (height tr). split_and!.
  - rewrite <- Hlen. by apply balanced_height.
  - intros b. rewrite (models_lower_bound _ _ b Hm), Hroot, lower_bound_loop_rep; [by rewrite He|done|by rewrite He|lia].
  - intros k Hk. rewrite (models_item_at _ _ k Hm), Hroot, item_at_loop_rep; [by rewrite He|done|lia|lia].
Qed.

(** A history of insertions into an empty index. *)
Fixpoint insert_all (o : t) (xs : list Item.t) : option t :=
  match xs with
  | [] => Some o
  | x :: xs => '(o, _) ← insert o x; insert_all o xs
  end.

Lemma length_list_insert x l : lenN (list_insert x l) <= lenN l + 1.
Proof.
  unfold lenN. induction l as [|y l IH]; cbn; [lia|]. destruct (Item.cmp x y); cbn in *; lia.
Qed.

Lemma models_insert_all o l xs : models o l -> Forall Item.wf xs -> lenN l + lenN xs <= u32_max ->
  exists o', insert_all o xs = Some o' /\ models o' (foldl (fun l x => list_insert x l) l xs).
Proof.
  intros Hm Hw. revert o l Hm. induction Hw as [|x xs Hx Hw IH]; intros o l Hm Hlen; [by exists o|].
  unfold lenN in Hlen. cbn [length] in Hlen.
  destruct (models_insert o l x Hm Hx) as (o1 & E & Hm1 & _); [unfold lenN; lia|].
  cbn [insert_all foldl]. run E. apply IH; [done|]. pose proof (length_list_insert x l). unfold lenN in *. lia.
Qed.

(** ** The properties *)

(** C15: inserting into an index that holds the sorted list [l] never panics,
    reports whether the item was new, gives an index holding the sorted list
    with the item added (with exact counts, sums and balance), and leaves the
    index as it was when the item was present. *)
Theorem order_index_insert o l x : models o l -> Item.wf x -> lenN l < u32_max ->
  exists o', insert o x = Some (o', bool_decide (x ∉ l)) /\ models o' (list_insert x l) /\
    Item.sorted (list_insert x l) /\ (forall y, y ∈ list_insert x l <-> y = x \/ y ∈ l) /\
    (x ∈ l -> o' = o).
Proof.
  intros Hm Hx Hn. destruct (models_insert o l x Hm Hx Hn) as (o' & E & Hm' & Hold).
  exists o'. split_and!; [done|done| | |done].
  - apply (models_bounds o' _ Hm').
  - intros y. apply elem_of_list_insert.
Qed.

(** The index answers rank queries as the sorted list: its length,
    emptiness, the item at a rank (a panic exactly when out of range) and the
    number of items before a bound. *)
Theorem order_index_navigation o l b rank : models o l ->
  len o = Some (lenN l) /\ is_empty o = bool_decide (l = []) /\
  item_at o rank = l !! N.to_nat rank /\
  (exists k, lower_bound o b = Some k /\
     (forall i x, l !! i = Some x -> (N.of_nat i < k <-> Item.lt x b))).
Proof.
  intros Hm. split_and!; [by apply models_len|by apply models_empty|by apply models_item_at|].
  exists (rank_of b l). split; [by apply models_lower_bound|].
  apply models_bounds in Hm as (_ & Hs & _). intros i x. by apply rank_of_prefix.
Qed.

(** The summary of a rank range is the number of its items and the sum of
    their ids mod 2^256, obtained by subtracting two prefixes; a range outside
    the index panics. *)
Theorem order_index_summary o l start stop : models o l ->
  summary o start stop =
    if (start <=? stop) && (stop <=? lenN l)
    then Some (stop - start, IdSum.sum_ids (ids (ranks start stop l))) else None.
Proof.
  intros Hm. destruct (N.leb_spec start stop); destruct (N.leb_spec stop (lenN l)); cbn [andb].
  - by apply models_summary.
  - unfold summary. run (models_len _ _ Hm). rewrite (proj2 (N.leb_gt stop (lenN l))) by done.
    by rewrite andb_false_r.
  - unfold summary. run (models_len _ _ Hm). by rewrite (proj2 (N.leb_gt start stop)).
  - unfold summary. run (models_len _ _ Hm). by rewrite (proj2 (N.leb_gt start stop)).
Qed.

(** Iterating over a rank range yields the items of that range in order
    and then ends. *)
Theorem order_index_iter_range o l start stop fuel :
  models o l -> start <= stop -> stop <= lenN l -> (N.to_nat (stop - start) <= fuel)%nat ->
  exists it, RangeIter.iter_range o start stop = Some it /\
    RangeIter.size_hint it = (stop - start, Some (stop - start)) /\ RangeIter.collect fuel it = Some (ranks start stop l).
Proof.
  intros Hm H1 H2 Hf. destruct (models_iter_range o l start stop Hm H1 H2) as (it & E & Hy).
  exists it. split_and!; [done| |].
  - revert E. unfold RangeIter.iter_range. run (models_len _ _ Hm). destruct (_ && _); [|done].
    destruct (RangeIter.seed _ _ _ _ _); [|done]. by injection 1 as <-.
  - apply collect_yields; [done|]. unfold ranks. rewrite length_take. lia.
Qed.

(** The depth of the index is logarithmic: some height [h] with
    [(4/3)^h <= len + 1] bounds the iterations of every descent. *)
Theorem order_index_depth o l : models o l ->
  exists h, 4 ^ N.of_nat h <= 3 ^ N.of_nat h * (lenN l + 1) /\
    (forall b, lower_bound_loop (S h) (nodes o) b 0 (root o) = lower_bound o b) /\
    (forall k, k < lenN l -> item_at_loop (S h) (nodes o) k (root o) = item_at o k).
Proof. apply models_depth. Qed.

(** ** Concrete instances *)

Definition sample_items : list Item.t :=
  map (fun k => Item.mk k (replicate 32 (byte_of k))) [5; 1; 9; 3; 7; 2; 8; 6; 4; 5].

Definition sample_index : t := default new (insert_all new sample_items).
Definition sample_list : list Item.t := foldl (fun l x => list_insert x l) [] sample_items.

Lemma sample_models : models sample_index sample_list.
Proof.
  destruct (models_insert_all new [] sample_items models_new) as (o & E & Hm).
  - unfold sample_items. repeat (constructor; [split; [reflexivity|vm_compute; discriminate]|]). constructor.
  - vm_compute. discriminate.
  - unfold sample_index. by rewrite E.
Qed.

Lemma order_index_insert_witness :
  let x := Item.mk 6 (replicate 32 (byte_of 1)) in
  exists o', insert sample_index x = Some (o', true) /\ models o' (list_insert x sample_list).
Proof.
  intros x. destruct (order_index_insert sample_index sample_list x) as (o' & E & Hm & _).
  - exact sample_models.
  - split; [reflexivity|vm_compute; discriminate].
  - vm_compute. reflexivity.
  - exists o'. split; [|exact Hm]. rewrite E. reflexivity.
Defined.

Lemma order_index_navigation_witness :
  len sample_index = Some 9 /\ (forall k, item_at sample_index k = sample_list !! N.to_nat k).
Proof.
  split.
  - rewrite (proj1 (order_index_navigation _ _ (Item.mk 0 []) 0 sample_models)). reflexivity.
  - intros k. apply (order_index_navigation _ _ (Item.mk 0 []) k sample_models).
Defined.

Lemma order_index_summary_witness :
  summary sample_index 2 7 = Some (5, IdSum.sum_ids (ids (ranks 2 7 sample_list))) /\
  summary sample_index 2 10 = None.
Proof.
  split; rewrite (order_index_summary _ _ _ _ sample_models); reflexivity.
Defined.

Lemma order_index_iter_range_witness :
  exists it, RangeIter.iter_range sample_index 2 7 = Some it /\ RangeIter.size_hint it = (5, Some 5) /\
    RangeIter.collect 5 it = Some (ranks 2 7 sample_list).
Proof.
  apply (order_index_iter_range _ _ 2 7 5 sample_models); [lia|vm_compute; discriminate|reflexivity].
Defined.

Lemma order_index_depth_witness :
  exists h, 4 ^ N.of_nat h <= 3 ^ N.of_nat h * 10 /\
    forall k, k < 9 -> item_at_loop (S h) (nodes sample_index) k (root sample_index) = item_at sample_index k.
Proof.
  destruct (order_index_depth _ _ sample_models) as (h & H1 & _ & H2). exists h. split.
  - exact H1.
  - intros k Hk. apply H2. exact Hk.
Defined.
