(* ===== verification/Store.v ===== *)
(** * Entry storage: store/mod.rs and store/journal.rs

    The store verifies, deduplicates, journals and indexes entries. The
    journal file is a byte string; an append can stop after any number of
    the record's bytes, and opening a file recovers the committed records. *)
From S2P Require Import Prelude Errors Crypto Cbor CborRef Entry Msg Item IdSum.
From S2P Require Import OrderTree OrderIndex OrderRefine OrderSpec.
Open Scope N_scope.

Definition MAGIC : bytes := map byte_of [82; 65; 67; 78; 69; 84; 48; 49].
Definition MAX_RECORD : N := 1048576.
Definition MAX_BYTES : N := 67108864.
Definition MAX_ENTRIES : N := 10000.

(** What the operating system does to one append: everything succeeds,
    truncation to the committed length fails, or [n] bytes of the record
    reach the file before the write or the sync fails. *)
Inductive io_outcome : Type :=
  | IoOk
  | SetLenFails
  | WriteStops (n : nat).

Definition io_error {A} : result StoreError.t A := Err (StoreError.Storage "i/o error").

Section Store.
Context {cbor : Cbor} {crypto : Crypto}.

Definition record (e : Entry.t) : bytes :=
  le_bytes 4 (lenN (Entry.to_bytes e) mod 2 ^ 32) ++ Entry.to_bytes e.

End Store.

Module Journal.

(** The file's contents and the committed length. *)
Record t : Type := mk { file : bytes; len : N }.

Section Journal.
Context {cbor : Cbor} {crypto : Crypto}.

(** The file after [set_len(len)], [seek(len)] and writing [bs]. *)
Definition write_at_len (j : t) (bs : bytes) : bytes :=
  resize (N.to_nat (len j)) zero_byte (file j) ++ bs.

Definition append (j : t) (e : Entry.t) (io : io_outcome) : t * result StoreError.t unit :=
  let bytes := Entry.to_bytes e in
  if (MAX_RECORD <? lenN bytes) || (MAX_BYTES <? len j + 4 + lenN bytes) then (j, Err StoreError.Capacity)
  else
    match io with
    | SetLenFails => (j, io_error)
    | WriteStops n => (mk (write_at_len j (take n (record e))) (len j), io_error)
    | IoOk => (mk (write_at_len j (record e)) (len j + (4 + lenN bytes)), Ok tt)
    end.

End Journal.
End Journal.

Module EntryStore.

Record t : Type := mk {
  entries : gmap bytes Entry.t;
  order : OrderIndex.t;
  journal : option Journal.t;
}.

Definition new : t := mk ∅ OrderIndex.new None.

Section Ops.
Context {cbor : Cbor} {crypto : Crypto}.

Definition len (s : t) : N := N.of_nat (base.size (entries s)).
Definition is_empty (s : t) : bool := len s =? 0.
Definition get (s : t) (id : bytes) : option Entry.t := entries s !! id.
Definition contains (s : t) (id : bytes) : bool := bool_decide (is_Some (entries s !! id)).

(** The journal step of [insert]. *)
Definition journal_step (s : t) (e : Entry.t) (io : io_outcome) : option Journal.t * result StoreError.t unit :=
  match journal s with
  | None => (None, Ok tt)
  | Some j =>
      if MAX_ENTRIES <=? len s then (Some j, Err StoreError.Capacity)
      else let '(j, r) := Journal.append j e io in (Some j, r)
  end.

Definition insert (s : t) (e : Entry.t) (io : io_outcome) : t * result StoreError.t bool :=
  if Entry.sort_key e =? u64_max then (s, Err StoreError.SortKeyReserved)
  else
    match Entry.verify e with
    | Err _ => (s, Err StoreError.BadSignature)
    | Panic => (s, Panic)
    | Ok _ =>
        let id := Entry.id e in
        if contains s id then (s, Ok false)
        else
          let '(j, r) := journal_step s e io in
          let s := mk (entries s) (order s) j in
          match r with
          | Err err => (s, Err err)
          | Panic => (s, Panic)
          | Ok _ =>
              match OrderIndex.insert (order s) (Item.mk (Entry.sort_key e) id) with
              | None => (s, Panic)
              | Some (o, _) => (mk (<[id := e]> (entries s)) o (journal s), Ok true)
              end
          end
    end.

Definition snapshot (s : t) (window : SortKeyWindow.t) : option (list Item.t) :=
  lo ← OrderIndex.lower_bound (order s) (Item.mk (SortKeyWindow.since window) (replicate 32 zero_byte));
  hi ← OrderIndex.lower_bound (order s) (Item.mk (SortKeyWindow.until window) (replicate 32 zero_byte));
  it ← RangeIter.iter_range (order s) lo (N.max hi lo);
  RangeIter.collect (N.to_nat (N.max hi lo - lo)) it.

(** ** Opening a journal *)

(** [read_exact] of [n] bytes at [pos]. *)
Definition read_exact (file : bytes) (pos n : N) : result StoreError.t bytes :=
  if pos + n <=? lenN file then Ok (take (N.to_nat n) (drop (N.to_nat pos) file)) else io_error.

(** The header: an incomplete prefix of it is completed, anything else
    shorter is refused. *)
Definition open_header (file : bytes) : result StoreError.t bytes :=
  if MAX_BYTES <? lenN file then Err StoreError.Capacity
  else if lenN file <? lenN MAGIC then
    if decide (file = take (length file) MAGIC) then Ok MAGIC
    else Err (StoreError.Storage "unrecognized entry journal")
  else Ok file.

(** The body of the replay loop at a complete record. *)
Definition replay_record (s : t) (bytes : bytes) : result StoreError.t t :=
  match Entry.decode bytes with
  | Err what => Err (StoreError.Storage what)
  | Panic => Panic
  | Ok (entry, _) =>
      if decide (Entry.to_bytes entry <> bytes) then Err (StoreError.Storage "noncanonical journal record")
      else if MAX_ENTRIES <=? len s then Err StoreError.Capacity
      else let '(s, r) := insert s entry IoOk in
           match r with Ok _ => Ok s | Err e => Err e | Panic => Panic end
  end.

(** Every record takes at least five bytes, so the file length is enough
    fuel. *)
Fixpoint replay (fuel : nat) (file : bytes) (offset : N) (s : t) : result StoreError.t (t * N) :=
  match fuel with
  | O => Panic
  | S fuel =>
      if lenN file <=? offset then Ok (s, offset)
      else if lenN file - offset <? 4 then Ok (s, offset)
      else
        size ← read_exact file offset 4;
        let size := le_val size in
        if (size =? 0) || (MAX_RECORD <? size) then Err (StoreError.Storage "invalid journal record length")
        else if lenN file - offset - 4 <? size then Ok (s, offset)
        else
          bytes ← read_exact file (offset + 4) size;
          s ← replay_record s bytes;
          replay fuel file (offset + (4 + size)) s
  end.

Definition open (file : bytes) : result StoreError.t t :=
  file ← open_header file;
  magic ← read_exact file 0 8;
  if decide (magic <> MAGIC) then Err (StoreError.Storage "unrecognized entry journal")
  else
    '(s, offset) ← replay (length file) file (lenN MAGIC) new;
    let file := if offset =? lenN file then file else resize (N.to_nat offset) zero_byte file in
    Ok (mk (entries s) (order s) (Some (Journal.mk file offset))).

End Ops.
End EntryStore.
