(* ===== verification/StoreSpec.v ===== *)
(** * The contract of the entry store

    [wf]: every stored entry is valid and filed under its id, and the order
    index holds exactly the items of the stored entries. [journaled s es]:
    the journal of [s] durably holds the entries [es], up to an interrupted
    last append. *)
From S2P Require Import Prelude Errors Crypto Cbor CborRef Entry Msg Item IdSum Bound.
From S2P Require Import OrderTree OrderIndex OrderRefine OrderSpec Store.
Open Scope N_scope.
Import EntryStore.

Section Spec.
Context {cbor : Cbor} {crypto : Crypto}.

Definition valid (e : Entry.t) : Prop :=
  Entry.wf e /\ Entry.sort_key e <> u64_max /\ Entry.verify e = Ok tt.

Definition item_of (e : Entry.t) : Item.t := Item.mk (Entry.sort_key e) (Entry.id e).

Definition items_of (m : gmap bytes Entry.t) : list Item.t := map (fun p => item_of p.2) (map_to_list m).

Record wf (s : t) : Prop := {
  wf_entries : forall i e, entries s !! i = Some e -> Entry.id e = i /\ valid e;
  wf_order : exists l, models (order s) l /\ l ≡ₚ items_of (entries s) }.

(** ** The order index of a well-formed store *)

Lemma wf_item_of e : valid e -> Item.wf (item_of e).
Proof. intros [(_ & ? & _) _]. split; [apply Entry.length_id|done]. Qed.

Lemma elem_of_items_of s x : wf s ->
  x ∈ items_of (entries s) <->
    exists e, entries s !! Item.id x = Some e /\ Entry.sort_key e = Item.sort_key x.
Proof.
  intros Hwf. unfold items_of. rewrite list_elem_of_fmap. split.
  - intros ([i e] & -> & Hin%elem_of_map_to_list). pose proof (wf_entries s Hwf i e Hin) as [<- _].
    by exists e.
  - intros (e & He & Hk). exists (Item.id x, e). split; [|by apply elem_of_map_to_list].
    destruct (wf_entries s Hwf _ _ He) as [Hid _]. destruct x as [k i]; cbn in *. unfold item_of; congruence.
Qed.

Lemma store_wf_new : wf new.
Proof.
  split; [intros i e; cbn; by rewrite lookup_empty|]. exists []. split; [apply models_new|].
  unfold items_of; cbn. by rewrite map_to_list_empty.
Qed.

Lemma store_wf_ext s s' : entries s' = entries s -> order s' = order s -> wf s -> wf s'.
Proof. intros H1 H2 [He Ho]. split; by rewrite ?H1, ?H2. Qed.

Lemma insert_order s e : wf s -> valid e -> entries s !! Entry.id e = None ->
  N.of_nat (base.size (entries s)) < u32_max ->
  exists o, OrderIndex.insert (order s) (item_of e) = Some (o, true) /\
    forall j, wf (mk (<[Entry.id e := e]> (entries s)) o j).
Proof.
  intros Hwf He Hnew Hsz. destruct (wf_order s Hwf) as (l & Hm & Hp).
  assert (Hlen : lenN l = N.of_nat (base.size (entries s))).
  { unfold lenN. rewrite Hp. unfold items_of. by rewrite length_map, length_map_to_list. }
  assert (Hx : item_of e ∉ l).
  { rewrite Hp, elem_of_items_of by done. cbn. rewrite Hnew. by intros (? & ? & _). }
  destruct (models_insert (order s) l (item_of e) Hm) as (o & E & Hm' & _); [by apply wf_item_of|lia|].
  rewrite bool_decide_eq_true_2 in E by done. exists o. split; [done|]. intros j. split; cbn.
  - intros i e'. rewrite lookup_insert_Some. intros [[<- <-]|[_ H]]; [done|by apply (wf_entries s Hwf)].
  - exists (list_insert (item_of e) l). split; [done|]. rewrite list_insert_perm by done.
    unfold items_of. rewrite map_to_list_insert by done. cbn. by constructor.
Qed.

(** ** Insertion *)

Lemma contains_spec s i : contains s i = true <-> is_Some (entries s !! i).
Proof. apply bool_decide_eq_true. Qed.

(** The outcomes of [insert] on a well-formed store. *)
Inductive inserts (s : t) (e : Entry.t) (io : io_outcome) : t -> result StoreError.t bool -> Prop :=
  | ins_reserved : Entry.sort_key e = u64_max -> inserts s e io s (Err StoreError.SortKeyReserved)
  | ins_signature : Entry.sort_key e <> u64_max -> Entry.verify e <> Ok tt ->
      inserts s e io s (Err StoreError.BadSignature)
  | ins_held : valid e -> is_Some (entries s !! Entry.id e) -> inserts s e io s (Ok false)
  | ins_journal j err : valid e -> entries s !! Entry.id e = None ->
      journal_step s e io = (j, Err err) ->
      inserts s e io (mk (entries s) (order s) j) (Err err)
  | ins_new j o : valid e -> entries s !! Entry.id e = None ->
      journal_step s e io = (j, Ok tt) ->
      wf (mk (<[Entry.id e := e]> (entries s)) o j) ->
      inserts s e io (mk (<[Entry.id e := e]> (entries s)) o j) (Ok true).

Lemma verify_cases e : Entry.verify e = Ok tt \/ Entry.verify e = Err BadSignature.
Proof. unfold Entry.verify. destruct (negb _); [by right|]. destruct (ed_verify_strict _ _ _); auto. Qed.

Lemma journal_step_cases s e io :
  exists j, journal_step s e io = (j, Ok tt) \/ exists err, journal_step s e io = (j, Err err).
Proof.
  unfold journal_step. destruct (journal s) as [j|]; [|by eexists; left].
  destruct (_ <=? _); [by eauto|]. unfold Journal.append.
  destruct (_ || _); [by eauto|]. destruct io; unfold io_error; eauto.
Qed.

Lemma insert_inserts s e io : wf s -> Entry.wf e -> N.of_nat (base.size (entries s)) < u32_max ->
  inserts s e io (insert s e io).1 (insert s e io).2.
Proof.
  intros Hwf He Hsz. unfold insert. destruct (N.eqb_spec (Entry.sort_key e) u64_max); [by constructor|].
  destruct (verify_cases e) as [Hv|Hv]; rewrite Hv; [|constructor; [done|by rewrite Hv]].
  assert (Hval : valid e) by done.
  destruct (contains s (Entry.id e)) eqn:Hc; [by apply ins_held, contains_spec|].
  assert (Hnone : entries s !! Entry.id e = None).
  { apply eq_None_not_Some. rewrite <- contains_spec. by rewrite Hc. }
  destruct (journal_step_cases s e io) as (j & [Hj|(err & Hj)]); rewrite Hj; cbn [fst snd].
  - destruct (insert_order s e Hwf Hval Hnone Hsz) as (o & E & Hwf').
    change (Item.mk (Entry.sort_key e) (Entry.id e)) with (item_of e). cbn [order]. rewrite E.
    cbn [entries journal fst snd]. apply ins_new; auto.
  - by apply ins_journal.
Qed.

Lemma inserts_wf s e io s' r : wf s -> inserts s e io s' r -> wf s'.
Proof. intros Hwf []; try done. by apply (store_wf_ext s). Qed.

(** ** Snapshots *)

(** The items of the half-open window [since, until). *)
Definition in_window (w : SortKeyWindow.t) (x : Item.t) : bool :=
  (SortKeyWindow.since w <=? Item.sort_key x) && (Item.sort_key x <? SortKeyWindow.until w).

(** The least item of a sort key separates the keys below it. *)
Lemma lt_floor x k : Item.wf x -> Item.lt x (Item.mk k (replicate 32 zero_byte)) <-> Item.sort_key x < k.
Proof.
  intros [Hl _]. unfold Item.lt, Item.cmp. cbn. destruct (N.compare_spec (Item.sort_key x) k) as [->| |].
  - pose proof (BoundFacts.bytes_cmp_zero (Item.id x)) as Hz. rewrite Hl in Hz. split; [done|lia].
  - done.
  - split; [done|lia].
Qed.

Lemma rank_of_floor l k i x : Item.sorted l -> Forall Item.wf l -> l !! i = Some x ->
  N.of_nat i < rank_of (Item.mk k (replicate 32 zero_byte)) l <-> Item.sort_key x < k.
Proof.
  intros Hs Hw Hi. rewrite rank_of_prefix by done. apply lt_floor.
  rewrite Forall_forall in Hw. apply Hw. by eapply list_elem_of_lookup_2.
Qed.

Lemma snapshot_spec s w : wf s ->
  exists l, snapshot s w = Some l /\ Item.sorted l /\
    forall x, x ∈ l <-> x ∈ items_of (entries s) /\ in_window w x = true.
Proof.
  intros Hwf. destruct (wf_order s Hwf) as (l & Hm & Hp).
  destruct (models_bounds _ _ Hm) as (_ & Hs & Hw).
  assert (Hfl := fun k i x => rank_of_floor l k i x Hs Hw).
  unfold snapshot. run (models_lower_bound _ _ (Item.mk (SortKeyWindow.since w) (replicate 32 zero_byte)) Hm).
  run (models_lower_bound _ _ (Item.mk (SortKeyWindow.until w) (replicate 32 zero_byte)) Hm).
  assert (Hlo := fun i x => Hfl (SortKeyWindow.since w) i x).
  assert (Hhi := fun i x => Hfl (SortKeyWindow.until w) i x).
  pose proof (rank_of_le (Item.mk (SortKeyWindow.since w) (replicate 32 zero_byte)) l) as Hlo'.
  pose proof (rank_of_le (Item.mk (SortKeyWindow.until w) (replicate 32 zero_byte)) l) as Hhi'.
  revert Hlo Hhi Hlo' Hhi'. generalize (rank_of (Item.mk (SortKeyWindow.since w) (replicate 32 zero_byte)) l).
  generalize (rank_of (Item.mk (SortKeyWindow.until w) (replicate 32 zero_byte)) l).
  intros hi lo Hlo Hhi Hlo' Hhi'.
  destruct (models_iter_range _ l lo (N.max hi lo) Hm) as (it & E & Hy); [lia|lia|]. run E.
  exists (ranks lo (N.max hi lo) l). split_and!.
  - apply collect_yields; [done|]. unfold ranks. rewrite length_take. lia.
  - by apply sorted_ranks.
  - intros x. rewrite elem_of_ranks, <- Hp, list_elem_of_lookup. unfold in_window.
    rewrite andb_true_iff, N.leb_le, N.ltb_lt. split.
    + intros (i & Hi & H1 & H2). split; [by eauto|]. specialize (Hlo i x Hi). specialize (Hhi i x Hi). lia.
    + intros [(i & Hi) H]. exists i. split; [done|]. specialize (Hlo i x Hi). specialize (Hhi i x Hi). lia.
Qed.

Lemma journal_step_err s e io j err : journal_step s e io = (j, Err err) ->
  is_Some (journal s) /\ (err = StoreError.Capacity \/ exists w, err = StoreError.Storage w).
Proof.
  unfold journal_step. destruct (journal s) as [j0|]; [|done]. split; [done|]. revert H.
  destruct (_ <=? _); [intros [= <- <-]; by left|]. unfold Journal.append.
  destruct (_ || _); [intros [= <- <-]; by left|]. destruct io; [done|..]; intros [= <- <-]; right; by eexists.
Qed.

(** ** Properties *)

(** C22: inserting into a well-formed store never panics and keeps it
    well-formed, whatever the journal's i/o does. An entry is added exactly
    when it is new, its sort key is not the reserved one, its signature
    verifies and the journal accepts it; a duplicate id is the same entry
    unless SHA-256 collides; every refusal leaves the stored entries and the
    order as they were. *)
Theorem store_insert s e io :
  wf s -> Entry.wf e -> N.of_nat (base.size (entries s)) < u32_max ->
  let '(s', r) := insert s e io in
  wf s' /\
  match r with
  | Ok true => valid e /\ get s (Entry.id e) = None /\
      entries s' = <[Entry.id e := e]> (entries s)
  | Ok false => s' = s /\ exists held, get s (Entry.id e) = Some held /\
      (held = e \/ exists x y, x <> y /\ sha256 x = sha256 y)
  | Err StoreError.SortKeyReserved => s' = s /\ Entry.sort_key e = u64_max
  | Err StoreError.BadSignature => s' = s /\ Entry.verify e <> Ok tt
  | Err _ => is_Some (journal s) /\ valid e /\ entries s' = entries s /\ order s' = order s
  | Panic => False
  end.
Proof.
  intros Hwf He Hsz. pose proof (insert_inserts s e io Hwf He Hsz) as Hi.
  pose proof (inserts_wf _ _ _ _ _ Hwf Hi) as Hwf'.
  destruct (insert s e io) as [s' r]; cbn [fst snd] in *. split; [done|].
  destruct Hi as [| |Hv [held Hheld]|j err Hv Hnew Hstep|j o Hv Hnew Hstep]; try done.
  - split; [done|]. exists held. split; [done|]. destruct (wf_entries s Hwf _ _ Hheld) as [Hid [Hw _]].
    by apply Entry.id_inj.
  - destruct (journal_step_err _ _ _ _ _ Hstep) as [Hj [->|[w ->]]]; done.
Qed.

(** A snapshot is the sorted list of exactly the items of the stored
    entries whose sort key is in [since, until); an inverted window is
    empty, and [until = 2^64 - 1] takes everything from [since], since no
    stored entry has that sort key. *)
Theorem store_snapshot s w : wf s ->
  exists l, snapshot s w = Some l /\ Item.sorted l /\
    (forall x, x ∈ l <-> exists e, get s (Item.id x) = Some e /\ Entry.sort_key e = Item.sort_key x /\
       SortKeyWindow.since w <= Item.sort_key x < SortKeyWindow.until w) /\
    (SortKeyWindow.until w <= SortKeyWindow.since w -> l = []) /\
    (SortKeyWindow.until w = u64_max -> forall i e, get s i = Some e ->
       SortKeyWindow.since w <= Entry.sort_key e -> Item.mk (Entry.sort_key e) i ∈ l).
Proof.
  intros Hwf. destruct (snapshot_spec s w Hwf) as (l & E & Hs & Hl). exists l.
  assert (Hmem : forall x, x ∈ l <-> exists e, get s (Item.id x) = Some e /\
            Entry.sort_key e = Item.sort_key x /\
            SortKeyWindow.since w <= Item.sort_key x < SortKeyWindow.until w).
  { intros x. rewrite Hl, elem_of_items_of by done. unfold in_window.
    rewrite andb_true_iff, N.leb_le, N.ltb_lt. unfold get. naive_solver. }
  split_and!; [done|done|done| |].
  - intros Hw. destruct l as [|x l]; [done|]. destruct (proj1 (Hmem x)) as (e & _ & _ & ?); [by left|lia].
  - intros Hw i e He Hk. apply Hmem. exists e. cbn. split_and!; try done.
    destruct (wf_entries s Hwf i e He) as [_ ((_ & ? & _) & Hne & _)]. unfold u64_max in *. lia.
Qed.

End Spec.

(** ** Concrete instances *)

Definition sample_store : t := (insert (insert new (sample_entry 7 1000) IoOk).1 (sample_entry 8 2000) IoOk).1.

Lemma sample_entry_wf a b : b <= u64_max -> Entry.wf (sample_entry a b).
Proof. intros Hb. apply Entry.wf_sign; [done|vm_compute; discriminate|vm_compute; discriminate]. Qed.

Lemma sample_store_wf : wf sample_store.
Proof.
  unfold sample_store. eapply inserts_wf; [|apply insert_inserts].
  - eapply inserts_wf; [apply store_wf_new|]. apply insert_inserts; [apply store_wf_new|by apply sample_entry_wf|done].
  - eapply inserts_wf; [apply store_wf_new|]. apply insert_inserts; [apply store_wf_new|by apply sample_entry_wf|done].
  - by apply sample_entry_wf.
  - vm_compute. reflexivity.
Qed.

Lemma store_insert_witness :
  let '(s', r) := insert sample_store (sample_entry 9 1500) IoOk in
  wf s' /\ r = Ok true /\ entries s' = <[Entry.id (sample_entry 9 1500) := sample_entry 9 1500]> (entries sample_store).
Proof.
  pose proof (store_insert sample_store (sample_entry 9 1500) IoOk sample_store_wf
    (sample_entry_wf 9 1500 ltac:(vm_compute; discriminate)) ltac:(vm_compute; reflexivity)) as H.
  assert (Hr : (insert sample_store (sample_entry 9 1500) IoOk).2 = Ok true) by (vm_compute; reflexivity).
  destruct (insert sample_store (sample_entry 9 1500) IoOk) as [s' r]. cbn [snd] in Hr. subst r.
  split; [exact (proj1 H)|]. split; [reflexivity|]. apply H.
Defined.

Lemma store_snapshot_witness :
  exists l, snapshot sample_store (SortKeyWindow.mk 1000 2000) = Some l /\ Item.sorted l /\ length l = 1%nat.
Proof.
  destruct (store_snapshot sample_store (SortKeyWindow.mk 1000 2000) sample_store_wf) as (l & E & Hs & _).
  exists l. split; [exact E|]. split; [exact Hs|].
  assert (Hl : fmap length (snapshot sample_store (SortKeyWindow.mk 1000 2000)) = Some 1%nat)
    by (vm_compute; reflexivity).
  rewrite E in Hl. injection Hl as Hl. exact Hl.
Defined.
