(* ===== verification/JournalSpec.v ===== *)
(** * Durability of the entry journal

    A journal is the header and the records of the entries in insertion
    order. Whatever prefix of a record an interrupted append leaves behind,
    opening the file recovers exactly the committed entries, or those and
    the interrupted one when its record is complete. Any other file opens to
    an error or to a well-formed store, and never aborts. *)
From S2P Require Import Prelude Errors Crypto Cbor CborRef Entry Msg Item.
From S2P Require Import OrderTree OrderIndex OrderRefine OrderSpec Store StoreSpec.
Open Scope N_scope.
Import EntryStore.

Section Journal.
Context {cbor : Cbor} {crypto : Crypto}.

Definition records (es : list Entry.t) : bytes := concat (map record es).
Definition committed (es : list Entry.t) : bytes := MAGIC ++ records es.

(** The entry [e] can be appended to a journal of [es]. *)
Record addable (es : list Entry.t) (e : Entry.t) : Prop := {
  add_valid : valid e;
  add_new : Entry.id e ∉ map Entry.id es;
  add_record : lenN (Entry.to_bytes e) <= MAX_RECORD;
  add_bytes : lenN (committed es) + 4 + lenN (Entry.to_bytes e) <= MAX_BYTES;
  add_entries : lenN es < MAX_ENTRIES }.

(** The histories of successful appends. *)
Inductive log : list Entry.t -> Prop :=
  | log_nil : log []
  | log_snoc es e : log es -> addable es e -> log (es ++ [e]).

(** The file holds [es], perhaps followed by part of an append. *)
Definition on_disk (es : list Entry.t) (f : bytes) : Prop :=
  f = committed es \/ exists e n, addable es e /\ f = committed es ++ take n (record e).

Definition map_of (es : list Entry.t) : gmap bytes Entry.t :=
  list_to_map (map (fun e => (Entry.id e, e)) es).

Definition holds (s : t) (es : list Entry.t) : Prop := wf s /\ entries s = map_of es.

Definition journaled (s : t) (es : list Entry.t) : Prop :=
  holds s es /\ log es /\
  exists j, journal s = Some j /\ Journal.len j = lenN (committed es) /\ on_disk es (Journal.file j).

(** ** Logs and records *)

Lemma log_app es1 es2 : log (es1 ++ es2) -> log es1.
Proof.
  revert es1. induction es2 as [|e es2 IH] using rev_ind; intros es1; [by rewrite app_nil_r|].
  rewrite app_assoc. inversion 1 as [Hn|es e' Hl Ha Heq].
  - by destruct (es1 ++ es2).
  - apply app_inj_tail in Heq as [-> ->]. by apply IH.
Qed.

Lemma log_middle es1 e es2 : log (es1 ++ e :: es2) -> addable es1 e.
Proof.
  change (e :: es2) with ([e] ++ es2). rewrite app_assoc. intros Hl%log_app.
  inversion Hl as [Hn|es e' Hl' Ha Heq]; [by destruct es1|]. by apply app_inj_tail in Heq as [-> ->].
Qed.

Lemma lookup_map_of es i : NoDup (map Entry.id es) -> i ∉ map Entry.id es -> map_of es !! i = None.
Proof.
  intros _ Hi. apply not_elem_of_list_to_map. rewrite <- list_fmap_compose.
  intros (e & -> & He)%list_elem_of_fmap. apply Hi, list_elem_of_fmap. by exists e.
Qed.

Lemma map_of_snoc es e : Entry.id e ∉ map Entry.id es -> map_of (es ++ [e]) = <[Entry.id e := e]> (map_of es).
Proof.
  intros Hi. unfold map_of. rewrite map_app. cbn. apply list_to_map_snoc.
  rewrite <- list_fmap_compose. intros (e' & He' & Hin)%list_elem_of_fmap.
  apply Hi, list_elem_of_fmap. by exists e'.
Qed.

Lemma size_map_of es : NoDup (map Entry.id es) -> N.of_nat (base.size (map_of es)) = lenN es.
Proof.
  intros Hn. unfold map_of, lenN. rewrite map_size_list_to_map.
  - by rewrite length_map.
  - by rewrite <- list_fmap_compose.
Qed.

Lemma committed_snoc es e : committed (es ++ [e]) = committed es ++ record e.
Proof. unfold committed, records. rewrite map_app, concat_app, app_assoc. cbn [map concat]. by rewrite app_nil_r. Qed.

(** No entry has an empty encoding: it would decode from any input. *)
Lemma to_bytes_nonempty e : Entry.wf e -> 0 < lenN (Entry.to_bytes e).
Proof.
  intros He. destruct (Entry.to_bytes e) as [|b bs] eqn:E; [|unfold lenN; cbn; lia]. exfalso.
  assert (Hany : forall bs, Entry.decode bs = Ok (e, bs)).
  { intros bs. pose proof (Entry.decodes_entry e He bs) as H. unfold Entry.to_bytes in E. by rewrite E in H. }
  set (e' := Entry.mk (Entry.author e) (Entry.sort_key e) (if decide (Entry.kind e = 0) then 1 else 0)
               (Entry.payload e) (Entry.sig e)).
  assert (He' : Entry.wf e').
  { destruct He as (? & ? & ? & ? & ?). unfold Entry.wf, e'. cbn. split_and!; try done.
    unfold u64_max. case_decide; lia. }
  pose proof (Entry.decodes_entry e' He' []) as H. rewrite Hany in H.
  injection H as H _. apply (f_equal Entry.kind) in H. cbn in H. case_decide; congruence.
Qed.

Lemma length_record e : lenN (record e) = 4 + lenN (Entry.to_bytes e).
Proof. unfold record, lenN. len. Qed.

Lemma log_ids es : log es -> NoDup (map Entry.id es) /\ lenN es <= MAX_ENTRIES /\ lenN (committed es) <= MAX_BYTES.
Proof.
  induction 1 as [|es e Hl (Hn & Hl' & Hb) Ha].
  - split_and!; [constructor|done|vm_compute; discriminate].
  - destruct Ha as [_ Hnew _ Hby Hcnt]. rewrite map_app. split_and!.
    + apply NoDup_app. split_and!; [done| |repeat constructor; set_solver].
      intros i Hi ->%list_elem_of_singleton. done.
    + rewrite lenN_app, lenN_cons. unfold lenN at 2. cbn. lia.
    + rewrite committed_snoc, lenN_app, length_record. lia.
Qed.

Lemma record_size e : lenN (Entry.to_bytes e) <= MAX_RECORD ->
  le_val (le_bytes 4 (lenN (Entry.to_bytes e) mod 2 ^ 32)) = lenN (Entry.to_bytes e).
Proof.
  unfold MAX_RECORD. intros H. rewrite le_val_le_bytes. change (256 ^ N.of_nat 4) with (2 ^ 32).
  rewrite N.Div0.mod_mod. apply N.mod_small. lia.
Qed.

Lemma read_exact_app pre x post pos n : pos = lenN pre -> n = lenN x ->
  read_exact (pre ++ x ++ post) pos n = Ok x.
Proof.
  intros -> ->. unfold read_exact, lenN. rewrite !length_app, (proj2 (N.leb_le _ _)) by lia.
  rewrite !Nat2N.id, drop_app_length. by rewrite take_app_length.
Qed.

Lemma read_record pre e rest :
  read_exact (pre ++ record e ++ rest) (lenN pre) 4 = Ok (le_bytes 4 (lenN (Entry.to_bytes e) mod 2 ^ 32)) /\
  read_exact (pre ++ record e ++ rest) (lenN pre + 4) (lenN (Entry.to_bytes e)) = Ok (Entry.to_bytes e).
Proof.
  unfold record. rewrite <- app_assoc. split.
  - apply read_exact_app; [done|]. unfold lenN. by rewrite length_le_bytes.
  - rewrite (app_assoc pre). apply read_exact_app; [|done].
    rewrite lenN_app. unfold lenN. by rewrite length_le_bytes.
Qed.

(** ** Replaying *)

Lemma insert_unjournaled s es e : holds s es -> log es -> addable es e -> journal s = None ->
  exists s', insert s e IoOk = (s', Ok true) /\ holds s' (es ++ [e]) /\ journal s' = None.
Proof.
  intros [Hwf He] Hl Ha Hj. destruct (log_ids es Hl) as (Hn & Hcnt & _). pose proof Ha as [Hv Hnew _ _ Hlt].
  assert (Hsz : N.of_nat (base.size (entries s)) < u32_max).
  { rewrite He, size_map_of by done. unfold MAX_ENTRIES, u32_max in *. lia. }
  pose proof (insert_inserts s e IoOk Hwf (proj1 Hv) Hsz) as Hi.
  assert (Hnone : entries s !! Entry.id e = None) by (rewrite He; by apply lookup_map_of).
  assert (Hstep : journal_step s e IoOk = (None, Ok tt)) by (unfold journal_step; by rewrite Hj).
  destruct Hv as (_ & Hk & Hsig).
  destruct (insert s e IoOk) as [s' r]; cbn [fst snd] in Hi. inversion Hi; subst; try done.
  - by rewrite Hnone in *; match goal with H : is_Some None |- _ => apply is_Some_None in H end.
  - congruence.
  - eexists. split; [done|]. split; [|cbn; congruence]. split; [done|]. cbn. by rewrite map_of_snoc, He.
Qed.

Lemma replay_record_step s es e : holds s es -> log es -> addable es e -> journal s = None ->
  exists s', replay_record s (Entry.to_bytes e) = Ok s' /\ holds s' (es ++ [e]) /\ journal s' = None.
Proof.
  intros Hs Hl Ha Hj. destruct (insert_unjournaled s es e Hs Hl Ha Hj) as (s' & E & Hs' & Hj').
  exists s'. split; [|done]. unfold replay_record.
  pose proof (Entry.decodes_entry e (proj1 (add_valid _ _ Ha)) []) as Hd.
  unfold Entry.to_bytes at 1. rewrite app_nil_r in Hd. rewrite Hd, decide_False by tauto.
  destruct (log_ids es Hl) as (Hn & _). destruct Hs as [_ He]. unfold len.
  rewrite He, size_map_of by done. rewrite (proj2 (N.leb_gt _ _)) by apply Ha. by rewrite E.
Qed.

(** The first [n] bytes of a record, incomplete. *)
Definition torn (tail : bytes) : Prop :=
  tail = [] \/ exists es e n, addable es e /\ (n < length (record e))%nat /\ tail = take n (record e).

Lemma replay_torn fuel pre tail s : torn tail -> (0 < fuel)%nat ->
  replay fuel (pre ++ tail) (lenN pre) s = Ok (s, lenN pre).
Proof.
  intros Ht Hf. destruct fuel as [|fuel]; [lia|]. cbn [replay]. rewrite lenN_app.
  destruct (N.leb_spec (lenN pre + lenN tail) (lenN pre)); [done|].
  replace (lenN pre + lenN tail - lenN pre) with (lenN tail) by lia.
  destruct (N.ltb_spec (lenN tail) 4) as [|H4]; [done|].
  destruct Ht as [->|(es & e & n & Ha & Hn & ->)]; [unfold lenN in H4; cbn in H4; lia|].
  assert (Hn4 : (4 <= n)%nat) by (unfold lenN in H4; rewrite length_take in H4; lia).
  assert (Hsplit : exists rest, take n (record e) =
            le_bytes 4 (lenN (Entry.to_bytes e) mod 2 ^ 32) ++ rest /\ lenN rest < lenN (Entry.to_bytes e)).
  { pose proof (length_record e) as Hlen. unfold lenN in Hlen. unfold record at 1.
    rewrite take_app_ge by (rewrite length_le_bytes; lia). eexists; split; [done|].
    unfold lenN. rewrite length_take, length_le_bytes. lia. }
  destruct Hsplit as (rest & -> & Hrest).
  rewrite (read_exact_app pre) by (unfold lenN; rewrite ?length_le_bytes; done). cbn [mbind result_bind].
  rewrite record_size by apply Ha. pose proof (add_record _ _ Ha).
  rewrite (proj2 (N.eqb_neq _ 0)), (proj2 (N.ltb_ge _ _)) by lia. cbn [orb].
  rewrite lenN_app. unfold lenN at 1. rewrite length_le_bytes.
  by rewrite (proj2 (N.ltb_lt _ _)) by lia.
Qed.

Lemma replay_records es2 fuel es1 pre tail s :
  pre = committed es1 -> log (es1 ++ es2) -> holds s es1 -> journal s = None -> torn tail ->
  (length es2 < fuel)%nat ->
  exists s', replay fuel (pre ++ records es2 ++ tail) (lenN pre) s =
      Ok (s', lenN (committed (es1 ++ es2))) /\ holds s' (es1 ++ es2).
Proof.
  intros -> Hl Hs Hj Ht. revert fuel es1 s Hl Hs Hj.
  induction es2 as [|e es2 IH]; intros fuel es1 s Hl Hs Hj Hf.
  { rewrite app_nil_r in *. exists s. split; [|done]. apply replay_torn; [done|lia]. }
  destruct fuel as [|fuel]; [lia|]. cbn [length] in Hf.
  assert (Ha := log_middle _ _ _ Hl). assert (Hl1 := log_app _ _ Hl).
  destruct (replay_record_step s es1 e Hs Hl1 Ha Hj) as (s1 & E & Hs1 & Hj1).
  assert (Heq : es1 ++ e :: es2 = (es1 ++ [e]) ++ es2) by by rewrite <- app_assoc.
  rewrite Heq in *.
  destruct (IH fuel (es1 ++ [e]) s1) as (s' & E' & Hs'); [done|done|done|lia|].
  exists s'. split; [|done]. rewrite <- E', committed_snoc. clear E' IH.
  assert (Hrec : records (e :: es2) = record e ++ records es2) by done.
  rewrite Hrec, <- !app_assoc. cbn [replay]. set (rest := records es2 ++ tail).
  pose proof (to_bytes_nonempty e (proj1 (add_valid _ _ Ha))). pose proof (add_record _ _ Ha).
  rewrite !lenN_app, length_record.
  rewrite (proj2 (N.leb_gt _ _)), (proj2 (N.ltb_ge _ 4)) by lia.
  destruct (read_record (committed es1) e rest) as [R1 R2].
  rewrite R1. cbn [mbind result_bind].
  rewrite record_size by done. rewrite (proj2 (N.eqb_neq _ 0)), (proj2 (N.ltb_ge MAX_RECORD _)) by lia. cbn [orb].
  rewrite (proj2 (N.ltb_ge _ _)) by lia. rewrite R2. cbn [mbind result_bind]. by rewrite E.
Qed.

(** ** Opening *)

Lemma on_disk_prefix es f : on_disk es f -> exists tail, f = committed es ++ tail.
Proof. intros [->|(e & n & _ & ->)]; [exists []; by rewrite app_nil_r|by eexists]. Qed.

Lemma resize_committed es f : on_disk es f -> resize (N.to_nat (lenN (committed es))) zero_byte f = committed es.
Proof.
  intros [tail ->]%on_disk_prefix. unfold lenN. rewrite Nat2N.id.
  rewrite resize_le by (rewrite length_app; lia). apply take_app_length.
Qed.

Lemma log_length es : log es -> (length es < length (committed es))%nat.
Proof.
  induction 1 as [|es e Hl IH Ha]; [cbn; lia|]. rewrite committed_snoc, !length_app.
  pose proof (length_record e). unfold lenN in *. change (length [e]) with 1%nat. lia.
Qed.

Lemma open_torn es tail : log es -> torn tail -> lenN (committed es ++ tail) <= MAX_BYTES ->
  exists s, open (committed es ++ tail) = Ok s /\ holds s es /\
    journal s = Some (Journal.mk (committed es) (lenN (committed es))).
Proof.
  intros Hl Ht Hsz. unfold open, open_header. rewrite (proj2 (N.ltb_ge _ _)) by done.
  assert (Hmagic : lenN MAGIC = 8) by done.
  rewrite (proj2 (N.ltb_ge _ (lenN MAGIC))).
  2: { unfold committed. rewrite !lenN_app. lia. }
  cbn [mbind result_bind].
  assert (Hf : committed es ++ tail = [] ++ MAGIC ++ records es ++ tail).
  { unfold committed. by rewrite <- app_assoc. }
  assert (Hm : read_exact (committed es ++ tail) 0 8 = Ok MAGIC) by (rewrite Hf; by apply read_exact_app).
  rewrite Hm. cbn [mbind result_bind]. rewrite decide_False by tauto.
  pose proof (log_length es Hl). pose proof store_wf_new.
  destruct (replay_records es (length (committed es ++ tail)) [] MAGIC tail new) as (s & E & Hs);
    [done|done|done|done|done|rewrite length_app; lia|].
  cbn [app] in Hf, E, Hs. rewrite <- Hf in E. rewrite E. cbn [mbind result_bind].
  eexists. split; [done|]. split.
  - destruct Hs as [Hwf He]. split; [by apply (store_wf_ext s)|done].
  - cbn [journal]. do 2 f_equal. destruct (N.eqb_spec (lenN (committed es)) (lenN (committed es ++ tail))) as [Heq|].
    + rewrite lenN_app in Heq. destruct tail; [by rewrite app_nil_r|unfold lenN in Heq; cbn in Heq; lia].
    + unfold lenN. rewrite Nat2N.id, resize_le by (rewrite length_app; lia). apply take_app_length.
Qed.

Lemma open_on_disk es f : log es -> on_disk es f ->
  exists s es', open f = Ok s /\
    (es' = es \/ exists e, addable es e /\ f = committed (es ++ [e]) /\ es' = es ++ [e]) /\
    journaled s es' /\ journal s = Some (Journal.mk (committed es') (lenN (committed es'))).
Proof.
  intros Hl Hf.
  assert (Hcase : exists es' tail, f = committed es' ++ tail /\ torn tail /\ log es' /\
            lenN f <= MAX_BYTES /\
            (es' = es \/ exists e, addable es e /\ f = committed (es ++ [e]) /\ es' = es ++ [e])).
  { destruct (log_ids es Hl) as (_ & _ & Hsz). destruct Hf as [->|(e & n & Ha & ->)].
    - exists es, []. rewrite app_nil_r. split_and!; auto. by left.
    - pose proof (length_record e) as Hr. pose proof (add_bytes _ _ Ha).
      destruct (Nat.lt_ge_cases n (length (record e))).
      + exists es, (take n (record e)). split_and!; auto; [right; by exists es, e, n|].
        rewrite lenN_app. unfold lenN in *. rewrite length_take. lia.
      + exists (es ++ [e]), []. rewrite take_ge, <- committed_snoc, app_nil_r by done.
        split_and!; [done|by left|by constructor| |by eauto].
        rewrite committed_snoc, lenN_app. lia. }
  destruct Hcase as (es' & tail & -> & Ht & Hl' & Hsz & Hes').
  destruct (open_torn es' tail Hl' Ht Hsz) as (s & E & Hs & Hj). exists s, es'.
  split_and!; [done|done| |done]. split; [done|]. split; [done|]. eexists. split; [done|].
  split; [done|by left].
Qed.

(** ** Any file at all *)

(** A well-formed store within the journal's entry cap. *)
Definition capped (s : t) : Prop := wf s /\ N.of_nat (base.size (entries s)) <= MAX_ENTRIES.

Lemma inserts_size s e io s' r : inserts s e io s' r ->
  (base.size (entries s') <= S (base.size (entries s)))%nat /\ r <> Panic.
Proof. intros []; (split; [|done]); try (cbn [entries]; lia).
  cbn [entries]. rewrite map_size_insert_None by done. lia.
Qed.

Lemma replay_record_any s bs : capped s ->
  match replay_record s bs with Ok s' => capped s' | Err _ => True | Panic => False end.
Proof.
  intros [Hwf Hsz]. unfold replay_record. pose proof (Entry.safe_entry bs) as Hsafe.
  destruct (Entry.decode bs) as [[e rest]| |] eqn:Ed; [|done|done].
  destruct (decide _); [done|]. destruct (N.leb_spec MAX_ENTRIES (len s)) as [|Hlt]; [done|]. unfold len in Hlt.
  assert (He : Entry.wf e) by by eapply Entry.yields_entry.
  pose proof (insert_inserts s e IoOk Hwf He ltac:(unfold MAX_ENTRIES, u32_max in *; lia)) as Hi.
  destruct (insert s e IoOk) as [s' r]. cbn [fst snd] in Hi. pose proof (inserts_wf _ _ _ _ _ Hwf Hi).
  destruct (inserts_size _ _ _ _ _ Hi) as [Hs Hp]. destruct r; [|done|done]. split; [done|lia].
Qed.

Lemma read_exact_any file pos n : read_exact file pos n <> Panic.
Proof. unfold read_exact. by destruct (_ <=? _). Qed.

Lemma replay_any fuel file offset s : capped s -> offset <= lenN file -> (length file < fuel + N.to_nat offset)%nat ->
  match replay fuel file offset s with
  | Ok (s', o) => capped s' /\ offset <= o <= lenN file | Err _ => True | Panic => False end.
Proof.
  revert offset s. induction fuel as [|fuel IH]; intros offset s Hs Ho Hf; [unfold lenN in *; lia|]. cbn [replay].
  destruct (N.leb_spec (lenN file) offset); [split; [done|lia]|].
  destruct (N.ltb_spec (lenN file - offset) 4); [split; [done|lia]|].
  pose proof (read_exact_any file offset 4). destruct (read_exact file offset 4) as [sz| |]; [|done|done].
  cbn [mbind result_bind]. destruct (_ || _); [done|].
  destruct (N.ltb_spec (lenN file - offset - 4) (le_val sz)); [split; [done|lia]|].
  pose proof (read_exact_any file (offset + 4) (le_val sz)).
  destruct (read_exact file (offset + 4) (le_val sz)) as [bs| |]; [|done|done]. cbn [mbind result_bind].
  pose proof (replay_record_any s bs Hs) as Hr. destruct (replay_record s bs) as [s'| |]; [|done|done].
  cbn [mbind result_bind]. specialize (IH (offset + (4 + le_val sz)) s' Hr ltac:(lia) ltac:(lia)).
  destruct (replay _ _ _ _) as [[s2 o]| |]; [|done|done]. destruct IH. split; [done|lia].
Qed.

Lemma replay_range fuel file offset s s' o : replay fuel file offset s = Ok (s', o) -> offset <= lenN file ->
  offset <= o <= lenN file.
Proof.
  revert offset s. induction fuel as [|fuel IH]; intros offset s; [done|]. cbn [replay].
  destruct (N.leb_spec (lenN file) offset); [intros [= _ <-]; lia|].
  destruct (N.ltb_spec (lenN file - offset) 4); [intros [= _ <-]; lia|].
  destruct (read_exact file offset 4) as [sz| |]; [|done|done]. cbn [mbind result_bind]. destruct (_ || _); [done|].
  destruct (N.ltb_spec (lenN file - offset - 4) (le_val sz)); [intros [= _ <-]; lia|].
  destruct (read_exact file (offset + 4) (le_val sz)) as [bs| |]; [|done|done]. cbn [mbind result_bind].
  destruct (replay_record s bs) as [s1| |]; [|done|done]. cbn [mbind result_bind].
  intros E Ho. specialize (IH _ _ E). lia.
Qed.

Lemma read_exact_take file o pos n : pos + n <= o -> o <= lenN file ->
  read_exact (take (N.to_nat o) file) pos n = read_exact file pos n.
Proof.
  intros H1 H2. unfold read_exact, lenN in *. rewrite length_take.
  rewrite !(proj2 (N.leb_le _ _)) by lia. f_equal. rewrite !take_drop_commute, take_take. do 2 f_equal. lia.
Qed.

(** Replaying the part of the file that was recovered gives the same. *)
Lemma replay_prefix fuel fuel' file offset s s' o : replay fuel file offset s = Ok (s', o) -> offset <= lenN file ->
  (N.to_nat o < fuel' + N.to_nat offset)%nat -> replay fuel' (take (N.to_nat o) file) offset s = Ok (s', o).
Proof.
  revert fuel' offset s. induction fuel as [|fuel IH]; intros fuel' offset s E Hle Hf; [done|].
  pose proof (replay_range _ _ _ _ _ _ E Hle) as Ho.
  assert (Hlen : lenN (take (N.to_nat o) file) = o) by (unfold lenN in *; rewrite length_take; lia).
  destruct fuel' as [|fuel']; [lia|]. cbn [replay] in *. rewrite Hlen.
  destruct (N.leb_spec o offset) as [Hstop|Hgo].
  { assert (o = offset) as <- by lia. revert E. destruct (N.leb_spec (lenN file) o); [done|].
    destruct (N.ltb_spec (lenN file - o) 4); [done|]. destruct (read_exact file o 4) as [sz| |]; [|done|done]. cbn [mbind result_bind].
    destruct (_ || _); [done|]. destruct (N.ltb_spec (lenN file - o - 4) (le_val sz)); [done|].
    destruct (read_exact file (o + 4) (le_val sz)) as [bs| |]; [|done|done]. cbn [mbind result_bind].
    destruct (replay_record s bs) as [s1| |]; [|done|done]. cbn [mbind result_bind].
    intros E. apply replay_range in E; lia. }
  revert E. destruct (N.leb_spec (lenN file) offset); [intros [= _ <-]; lia|].
  destruct (N.ltb_spec (lenN file - offset) 4); [intros [= _ <-]; lia|].
  destruct (read_exact file offset 4) as [sz| |] eqn:Esz; [|done|done]. cbn [mbind result_bind].
  destruct (_ || _) eqn:Er; [done|].
  destruct (N.ltb_spec (lenN file - offset - 4) (le_val sz)); [intros [= _ <-]; lia|].
  destruct (read_exact file (offset + 4) (le_val sz)) as [bs| |] eqn:Ebs; [|done|done]. cbn [mbind result_bind].
  destruct (replay_record s bs) as [s1| |] eqn:Es; [|done|done]. cbn [mbind result_bind]. intros E.
  pose proof (replay_range _ _ _ _ _ _ E ltac:(lia)) as Ho1.
  rewrite (proj2 (N.ltb_ge (o - offset) 4)) by lia. rewrite read_exact_take, Esz by lia. cbn [mbind result_bind].
  rewrite Er. rewrite (proj2 (N.ltb_ge (o - offset - 4) _)) by lia. rewrite read_exact_take, Ebs by lia.
  cbn [mbind result_bind]. rewrite Es. cbn [mbind result_bind]. apply IH; [done|lia|lia].
Qed.

Lemma open_header_spec f :
  match open_header f with Ok file => lenN file <= MAX_BYTES | Err _ => True | Panic => False end.
Proof.
  unfold open_header. destruct (N.ltb_spec MAX_BYTES (lenN f)); [done|]. destruct (_ <? _); [|done].
  by case_decide.
Qed.

Lemma open_header_id file : lenN file <= MAX_BYTES -> 8 <= lenN file -> open_header file = Ok file.
Proof.
  intros H1 H2. unfold open_header. rewrite (proj2 (N.ltb_ge _ _)) by done.
  by rewrite (proj2 (N.ltb_ge _ _)) by (change (lenN MAGIC) with 8; lia).
Qed.

Lemma new_capped : capped new.
Proof. split; [apply store_wf_new|]. cbn. rewrite map_size_empty. lia. Qed.

Lemma open_any f :
  match open f with
  | Ok s => capped s /\ exists j, journal s = Some j /\ lenN (Journal.file j) = Journal.len j /\
      open (Journal.file j) = Ok s
  | Err _ => True
  | Panic => False
  end.
Proof.
  unfold open at 1. pose proof (open_header_spec f) as Hh. destruct (open_header f) as [file| |]; [|done|done].
  cbn [mbind result_bind]. unfold read_exact at 1. destruct (N.leb_spec (0 + 8) (lenN file)) as [H8|]; [|done].
  cbn [mbind result_bind]. destruct (decide _) as [|Hm]; [done|]. change (lenN MAGIC) with 8.
  pose proof (replay_any (length file) file 8 new new_capped ltac:(lia) ltac:(lia)) as Hr.
  destruct (replay _ file 8 new) as [[s o]| |] eqn:E; [|done|done]. destruct Hr as [[Hwf Hsz] Ho]. cbn.
  split; [split; [by apply (store_wf_ext s)|done]|].
  assert (Hf : (if o =? lenN file then file else resize (N.to_nat o) zero_byte file) = take (N.to_nat o) file).
  { destruct (N.eqb_spec o (lenN file)) as [->|]; [by rewrite take_ge by (unfold lenN; lia)|].
    apply resize_le. unfold lenN in *. lia. }
  rewrite Hf. assert (Hl : lenN (take (N.to_nat o) file) = o) by (unfold lenN in *; rewrite length_take; lia).
  eexists. split; [done|]. split; [done|]. cbn [Journal.file]. unfold open.
  rewrite open_header_id by (rewrite Hl; lia). cbn [mbind result_bind]. rewrite read_exact_take by lia.
  unfold read_exact. rewrite (proj2 (N.leb_le _ _)) by done. cbn [mbind result_bind]. rewrite decide_False by done.
  change (lenN MAGIC) with 8. rewrite (replay_prefix (length file) _ file 8 new s o E) by (rewrite ?length_take; unfold lenN in *; lia).
  cbn [mbind result_bind]. by rewrite Hl, N.eqb_refl.
Qed.

(** ** Insertion into a journaled store *)

Lemma not_held_new es i : map_of es !! i = None -> i ∉ map Entry.id es.
Proof.
  intros H%not_elem_of_list_to_map_2. rewrite <- list_fmap_compose in H.
  intros (e & -> & He)%list_elem_of_fmap. apply H, list_elem_of_fmap. by exists e.
Qed.

Lemma journal_step_journaled s es e io : journaled s es -> valid e -> entries s !! Entry.id e = None ->
  exists j, Journal.len j = lenN (committed es) /\ on_disk es (Journal.file j) /\
    ((journal_step s e io = (Some j, Err StoreError.Capacity) /\ ~ addable es e \/
      (io <> IoOk /\ journal_step s e io = (Some j, io_error) /\
       forall n, io = WriteStops n -> addable es e /\ Journal.file j = committed es ++ take n (record e))) \/
     (addable es e /\
      journal_step s e io = (Some (Journal.mk (committed (es ++ [e])) (lenN (committed (es ++ [e])))), Ok tt))).
Proof.
  intros ((Hwf & He) & Hl & j & Hj & Hlen & Hdisk) Hv Hnone.
  destruct (log_ids es Hl) as (Hn & _). unfold journal_step. rewrite Hj. unfold len.
  rewrite He, size_map_of by done. rewrite He in Hnone. apply not_held_new in Hnone.
  destruct (N.leb_spec MAX_ENTRIES (lenN es)).
  { exists j. split_and!; [done|done|]. left; left. split; [done|]. intros Ha. pose proof (add_entries _ _ Ha). lia. }
  unfold Journal.append.
  destruct (N.ltb_spec MAX_RECORD (lenN (Entry.to_bytes e))).
  { exists j. split_and!; [done|done|]. left; left. split; [done|]. intros Ha. pose proof (add_record _ _ Ha). lia. }
  rewrite Hlen. destruct (N.ltb_spec MAX_BYTES (lenN (committed es) + 4 + lenN (Entry.to_bytes e))).
  { exists j. split_and!; [done|done|]. left; left. split; [done|]. intros Ha. pose proof (add_bytes _ _ Ha). lia. }
  cbn [orb]. assert (Ha : addable es e) by done.
  unfold Journal.write_at_len. rewrite Hlen, (resize_committed es) by done. destruct io as [| |n].
  - exists j. split_and!; [done|done|right]. split; [done|].
    rewrite committed_snoc, lenN_app, length_record. done.
  - exists j. split_and!; [done|done|left; right]. done.
  - exists (Journal.mk (committed es ++ take n (record e)) (lenN (committed es))). split_and!; [done| |].
    + right. by exists e, n.
    + left; right. split_and!; [done|done|]. by intros ? [= ->].
Qed.

Lemma insert_journaled s es e io : journaled s es -> Entry.wf e ->
  let '(s', r) := insert s e io in
  match r with
  | Ok true => addable es e /\ journaled s' (es ++ [e]) /\
      journal s' = Some (Journal.mk (committed (es ++ [e])) (lenN (committed (es ++ [e]))))
  | Panic => False
  | _ => journaled s' es /\
      forall n, io = WriteStops n -> addable es e -> journal s' =
        Some (Journal.mk (committed es ++ take n (record e)) (lenN (committed es)))
  end.
Proof.
  intros Hjs He. pose proof Hjs as ((Hwf & Hent) & Hl & j & Hj & Hlen & Hdisk).
  destruct (log_ids es Hl) as (Hn & Hcnt & _).
  assert (Hsz : N.of_nat (base.size (entries s)) < u32_max).
  { rewrite Hent, size_map_of by done. unfold MAX_ENTRIES, u32_max in *. lia. }
  pose proof (insert_inserts s e io Hwf He Hsz) as Hi.
  pose proof (inserts_wf _ _ _ _ _ Hwf Hi) as Hwf'.
  destruct (insert s e io) as [s' r]; cbn [fst snd] in *.
  assert (Hkeep : forall j', Journal.len j' = lenN (committed es) -> on_disk es (Journal.file j') ->
            journaled (mk (entries s) (order s) (Some j')) es).
  { intros j' ??. split; [split; [by apply (store_wf_ext s)|done]|]. split; [done|by exists j']. }
  destruct Hi as [Hk|Hk Hsig|Hv Hheld|j' err Hv Hnew Hstep|j' o Hv Hnew Hstep _].
  - split; [done|]. intros n _ Ha. by destruct (add_valid _ _ Ha) as (_ & ? & _).
  - split; [done|]. intros n _ Ha. by destruct (add_valid _ _ Ha) as (_ & _ & ?).
  - split; [done|]. intros n _ Ha. destruct Hheld as [x Hx]. rewrite Hent, lookup_map_of in Hx; [done|done|].
    apply (add_new _ _ Ha).
  - destruct (journal_step_journaled s es e io Hjs Hv Hnew) as (j1 & H1 & H2 & [[[H3 H4]|(H3 & H4 & H5)]|[_ H3]]);
      [| |congruence].
    + rewrite Hstep in H3. injection H3 as -> ->. split; [by apply Hkeep|]. intros n _ Ha. done.
    + rewrite Hstep in H4. injection H4 as -> ->. split; [by apply Hkeep|]. intros n Hn' Ha. cbn. destruct (H5 n Hn') as [_ Hf].
      destruct j1; cbn in *; by subst.
  - destruct (journal_step_journaled s es e io Hjs Hv Hnew) as (j1 & H1 & H2 & [[[H3 H4]|(H3 & H4 & H5)]|[Ha H3]]);
      [congruence|unfold io_error in H4; congruence|].
    rewrite Hstep in H3. injection H3 as ->. split_and!; [done| |done].
    split; [split; [done|]|split; [by constructor|]].
    + cbn. rewrite map_of_snoc, Hent; [done|apply Ha].
    + eexists. split; [done|]. split; [done|by left].
Qed.

(** A journaled store never reports success when the write stopped. *)
Lemma insert_write_stops s e n j : journal s = Some j -> (insert s e (WriteStops n)).2 <> Ok true.
Proof.
  intros Hj. unfold insert. destruct (_ =? _); [done|]. destruct (Entry.verify e); [|done|done].
  destruct (contains _ _); [done|]. unfold journal_step. rewrite Hj.
  destruct (_ <=? _); [done|]. unfold Journal.append. by destruct (_ || _).
Qed.

(** ** Stores with room *)

(** The store can take [n] more entries of at most [c] bytes: one in memory
    always can, one with a journal that it agrees with as long as the file
    may grow and the writes succeed. *)
Definition storing (io : nat -> io_outcome) (c : N) (n : nat) (s : t) : Prop :=
  match journal s with
  | None => True
  | Some j =>
      (exists es, journaled s es) /\ (forall k, io k = IoOk) /\ c <= MAX_RECORD /\
      len s + N.of_nat n <= MAX_ENTRIES /\ Journal.len j + N.of_nat n * (4 + c) <= MAX_BYTES
  end.

Lemma storing_weaken io c c' n n' s : storing io c n s -> c' <= c -> (n' <= n)%nat -> storing io c' n' s.
Proof.
  unfold storing. destruct (journal s) as [j|]; [|done]. intros (He & Hio & Hc & Hn & Hb) Hlc Hle.
  split_and!; try done; [lia|lia|]. etrans; [|exact Hb]. apply N.add_le_mono_l, N.mul_le_mono; lia.
Qed.

Lemma storing_le io c n n' s : storing io c n s -> (n' <= n)%nat -> storing io c n' s.
Proof. intros H Hle. by eapply storing_weaken. Qed.

Lemma storing_memory io c n s : journal s = None -> storing io c n s.
Proof. unfold storing. by intros ->. Qed.

(** Storing one of them. *)
Lemma storing_insert io c n s e k : storing io c (S n) s -> wf s -> valid e -> lenN (Entry.to_bytes e) <= c ->
  N.of_nat (base.size (entries s)) < u32_max ->
  let '(s', r) := insert s e (io k) in
  wf s' /\ storing io c n s' /\
  (r = Ok false /\ s' = s /\ is_Some (entries s !! Entry.id e) \/
   r = Ok true /\ entries s !! Entry.id e = None /\ entries s' = <[Entry.id e := e]> (entries s)).
Proof.
  intros Hst Hwf Hv Hlen Hsz. pose proof Hv as (Hw & Hkey & Hsig).
  pose proof (insert_inserts s e (io k) Hwf Hw Hsz) as Hi.
  pose proof (fun es Hjs => insert_journaled s es e (io k) Hjs Hw) as Hij.
  assert (Hadd : forall j, journal s = Some j -> entries s !! Entry.id e = None -> exists es, journaled s es /\
            Journal.len j = lenN (committed es) /\ addable es e /\ forall j' err, journal_step s e (io k) <> (j', Err err)).
  { intros j Hj Hnone. unfold storing in Hst. rewrite Hj in Hst. destruct Hst as ([es Hjs] & Hio & Hc & Hn & Hb).
    exists es. split; [done|]. pose proof Hjs as ((_ & Hent) & Hl & j1 & Hj1 & Hlen1 & _).
    rewrite Hj in Hj1. injection Hj1 as <-. destruct (log_ids es Hl) as (Hnd & _). split; [done|].
    assert (Ha : addable es e).
    { split; [done| |lia|lia|].
      - apply not_held_new. by rewrite <- Hent.
      - rewrite <- (size_map_of es) by done. rewrite <- Hent. unfold len in Hn. lia. }
    split; [done|]. intros j' err.
    destruct (journal_step_journaled s es e (io k) Hjs Hv Hnone) as (j1 & _ & _ & [[[_ H]|[H _]]|[_ Hstep]]);
      [done|by rewrite Hio in H|congruence]. }
  pose proof (inserts_wf _ _ _ _ _ Hwf Hi) as Hwf'.
  destruct (insert s e (io k)) as [s' r] eqn:E; cbn [fst snd] in *. split; [done|].
  destruct Hi as [|?|Hv' Hheld|j err _ Hnone Hs|j o _ Hnone Hs _]; try congruence.
  - split; [by eapply storing_le; [exact Hst|lia]|left]. done.
  - destruct (journal s) as [j0|] eqn:Ej; [|unfold journal_step in Hs; by rewrite Ej in Hs].
    destruct (Hadd j0 eq_refl Hnone) as (es & _ & _ & _ & H). by destruct (H _ _ Hs).
  - split; [|by right]. unfold storing in *. destruct (journal s) as [j0|] eqn:Ej.
    + destruct (Hadd j0 eq_refl Hnone) as (es & Hjs & Hl & _). destruct Hst as (_ & Hio & Hc & Hn & Hb).
      destruct (Hij es Hjs) as (_ & Hjs' & Hj'). rewrite Hj'. split; [by eexists|].
      cbn [Journal.len]. rewrite committed_snoc, lenN_app, length_record. unfold len in *. cbn [entries] in *.
      rewrite map_size_insert_None by done. split_and!; [done|done|lia|nia].
    + unfold journal_step in Hs. rewrite Ej in Hs. injection Hs as <-. done.
Qed.

(** What such a store has in its file: reopening loses nothing. *)
Lemma storing_reopens io c n s j : storing io c n s -> journal s = Some j ->
  exists s', open (Journal.file j) = Ok s' /\ wf s' /\ entries s ⊆ entries s'.
Proof.
  unfold storing. intros Hst Hj. rewrite Hj in Hst. destruct Hst as ([es ((Hwf & Hent) & Hl & j1 & Hj1 & _ & Hd)] & _).
  rewrite Hj in Hj1. injection Hj1 as <-.
  destruct (open_on_disk es _ Hl Hd) as (s' & es' & E & Hes & ((Hwf' & Hent') & _) & _).
  exists s'. split; [done|]. split; [done|]. rewrite Hent, Hent'.
  destruct Hes as [->|(e & Ha & _ & ->)]; [done|]. destruct (log_ids es Hl) as (Hnd & _).
  rewrite map_of_snoc by apply Ha. apply insert_subseteq, lookup_map_of; [done|apply Ha].
Qed.

(** ** Properties *)

(** C24: recovery. Opening a file that holds the log [es], alone or followed
    by any part of the record of a further entry, succeeds; it yields the
    store of exactly the committed entries (with the last one when its record
    is complete), truncates the rest, and is ready to append. An empty file
    or an interrupted header yields the empty store; a file that starts
    otherwise is refused. *)
Theorem journal_recovery :
  (forall es f, log es -> on_disk es f ->
     exists s es', open f = Ok s /\ journaled s es' /\ entries s = map_of es' /\
       journal s = Some (Journal.mk (committed es') (lenN (committed es'))) /\
       (es' = es \/ exists e, addable es e /\ f = committed (es ++ [e]) /\ es' = es ++ [e])) /\
  (forall n, exists s, open (take n MAGIC) = Ok s /\ journaled s []) /\
  (forall f, take (length f) MAGIC <> take 8 f -> exists err, open f = Err err).
Proof.
  split_and!.
  - intros es f Hl Hf. destruct (open_on_disk es f Hl Hf) as (s & es' & E & Hes & Hjs & Hj).
    exists s, es'. split_and!; try done. apply Hjs.
  - intros n. assert (Hopen : open (take n MAGIC) = open (committed [])).
    { do 8 (destruct n as [|n]; [reflexivity|]). by rewrite take_ge by (cbn; lia). }
    rewrite Hopen. destruct (open_on_disk [] (committed []) log_nil) as (s & es' & E & Hes & Hjs & Hj); [by left|].
    exists s. split; [done|]. destruct Hes as [->|(e & _ & Hc & _)]; [done|].
    rewrite committed_snoc in Hc. apply (f_equal lenN) in Hc. rewrite lenN_app, length_record in Hc. lia.
  - intros f Hne. unfold open, open_header. destruct (_ <? lenN f) eqn:E1; [by eexists|].
    destruct (N.ltb_spec (lenN f) (lenN MAGIC)) as [Hlt|Hge].
    + assert (length f < 8)%nat by (unfold lenN in Hlt; cbn in Hlt; lia).
      rewrite decide_False; [by eexists|]. intros Hf. apply Hne. rewrite <- Hf. by rewrite take_ge by lia.
    + cbn [mbind result_bind]. unfold read_exact. change (lenN MAGIC) with 8 in Hge.
      rewrite (proj2 (N.leb_le _ _)) by lia. cbn [mbind result_bind].
      rewrite decide_True; [by eexists|]. intros Heq. apply Hne.
      assert (8 <= length f)%nat by (unfold lenN in Hge; lia).
      rewrite take_ge; [done|]. by change (length MAGIC) with 8%nat.
Qed.

(** C12: crash safety of an append. Whatever happens to the journal's i/o,
    inserting keeps the store journaled, with the entry when it reports
    [Ok true] and without it otherwise; and a process that stops right after
    (or in the middle of the write) reopens the file to a store that has lost
    nothing and has the new entry exactly when its whole record was written. *)
Theorem journal_crash_safety s es e io : journaled s es -> Entry.wf e ->
  let '(s', r) := insert s e io in
  r <> Panic /\
  journaled s' (match r with Ok true => es ++ [e] | _ => es end) /\
  (r = Ok true -> forall j', journal s' = Some j' ->
     exists s'', open (Journal.file j') = Ok s'' /\ journaled s'' (es ++ [e])) /\
  (forall n j', io = WriteStops n -> addable es e -> journal s' = Some j' ->
     exists s'', open (Journal.file j') = Ok s'' /\
       journaled s'' (if decide (n < length (record e))%nat then es else es ++ [e])).
Proof.
  intros Hjs He. pose proof (insert_journaled s es e io Hjs He) as Hi.
  assert (Hopen : forall es tail, log es -> torn tail -> lenN (committed es ++ tail) <= MAX_BYTES ->
            exists s'', open (committed es ++ tail) = Ok s'' /\ journaled s'' es).
  { intros es' tail Hl Ht Hsz. destruct (open_torn es' tail Hl Ht Hsz) as (s'' & E & Hs & Hj).
    exists s''. split; [done|]. split; [done|]. split; [done|]. eexists. split; [done|]. split; [done|by left]. }
  assert (Hfull : addable es e -> exists s'', open (committed (es ++ [e])) = Ok s'' /\ journaled s'' (es ++ [e])).
  { intros Ha. destruct Hjs as (_ & Hl & _).
    destruct (Hopen (es ++ [e]) []) as (s'' & E & H); [by constructor|by left| |].
    - rewrite app_nil_r. by apply (log_ids (es ++ [e])), log_snoc.
    - rewrite app_nil_r in E. by exists s''. }
  destruct (insert s e io) as [s' r] eqn:Eins.
  assert (Hwrite : forall n j', io = WriteStops n -> addable es e ->
            j' = Journal.mk (committed es ++ take n (record e)) (lenN (committed es)) ->
            exists s'', open (Journal.file j') = Ok s'' /\
              journaled s'' (if decide (n < length (record e))%nat then es else es ++ [e])).
  { intros n j' _ Ha ->. cbn [Journal.file]. case_decide as Hn.
    - destruct Hjs as (_ & Hl & _). apply Hopen; [done|right; by exists es, e, n|].
      pose proof (add_bytes _ _ Ha). pose proof (length_record e) as Hr. rewrite lenN_app.
      unfold lenN in *. rewrite length_take. lia.
    - rewrite take_ge, <- committed_snoc by lia. auto. }
  destruct r as [[]|err|]; [| | |done].
  - destruct Hi as (Ha & Hjs' & Hj'). split_and!; [done|done| |].
    + intros _ j' Hj. rewrite Hj' in Hj. injection Hj as <-. by apply Hfull.
    + intros n j' -> Ha' Hj. exfalso. destruct Hjs as (_ & _ & j & Hjs & _).
      apply (insert_write_stops s e n j Hjs). by rewrite Eins.
  - destruct Hi as (Hjs' & Hw). split_and!; [done|done|done|].
    intros n j' Hn Ha Hj. apply Hwrite; [done|done|]. rewrite (Hw n Hn Ha) in Hj. congruence.
  - destruct Hi as (Hjs' & Hw). split_and!; [done|done|done|].
    intros n j' Hn Ha Hj. apply Hwrite; [done|done|]. rewrite (Hw n Hn Ha) in Hj. congruence.
Qed.

(** C25: opening any file at all either fails with an error or gives a well-formed
    store within the entry cap; it never panics. The file it leaves behind is
    exactly as long as the recovered part, and opening that again gives the
    same store. *)
Theorem journal_open_total f :
  match open f with
  | Ok s => wf s /\ N.of_nat (base.size (entries s)) <= MAX_ENTRIES /\
      exists j, journal s = Some j /\ lenN (Journal.file j) = Journal.len j /\ open (Journal.file j) = Ok s
  | Err _ => True
  | Panic => False
  end.
Proof. pose proof (open_any f) as H. destruct (open f); [|done|done]. by destruct H as [[? ?] ?]. Qed.

End Journal.

(** ** Concrete instances *)

Definition sample_journal : t := match open [] with Ok s => s | _ => new end.

Lemma sample_journaled : journaled sample_journal [].
Proof.
  destruct (open_on_disk [] (committed []) log_nil) as (s & es & E & Hes & Hjs & _); [by left|].
  assert (Hs : sample_journal = s).
  { unfold sample_journal. change (open []) with (open (committed [])). by rewrite E. }
  rewrite Hs. destruct Hes as [->|(e & _ & Hc & _)]; [done|].
  rewrite committed_snoc in Hc. apply (f_equal lenN) in Hc. rewrite lenN_app, length_record in Hc. lia.
Qed.

Lemma journal_crash_safety_witness :
  let e := sample_entry 7 1000 in
  let '(s', r) := insert sample_journal e IoOk in
  r = Ok true /\ journaled s' [e] /\
  exists s'', open (default [] (Journal.file <$> journal s')) = Ok s'' /\ journaled s'' [e].
Proof.
  intros e. assert (He : Entry.wf e) by (apply sample_entry_wf; vm_compute; discriminate).
  pose proof (journal_crash_safety sample_journal [] e IoOk sample_journaled He) as H.
  assert (Hr : (insert sample_journal e IoOk).2 = Ok true) by (vm_compute; reflexivity).
  assert (Hj : is_Some (journal (insert sample_journal e IoOk).1)) by (vm_compute; eexists; reflexivity).
  destruct (insert sample_journal e IoOk) as [s' r]. cbn [fst snd] in Hr, Hj. subst r.
  destruct H as (_ & H1 & H2 & _). split; [reflexivity|]. split; [exact H1|].
  destruct Hj as [j Hj]. rewrite Hj. exact (H2 eq_refl j Hj).
Defined.

Lemma journal_recovery_witness :
  exists s, open (committed [] ++ take 20 (record (sample_entry 7 1000))) = Ok s /\ is_Some (journal s).
Proof.
  assert (Ha : addable [] (sample_entry 7 1000)).
  { split.
    - split; [by apply sample_entry_wf|]. by split; [|apply Entry.verify_sign].
    - apply not_elem_of_nil.
    - vm_compute; discriminate.
    - vm_compute; discriminate.
    - vm_compute; reflexivity. }
  destruct (proj1 journal_recovery [] (committed [] ++ take 20 (record (sample_entry 7 1000))) log_nil)
    as (s & es' & E & _ & _ & Hj & _).
  - right. exists (sample_entry 7 1000), 20%nat. split; [exact Ha|reflexivity].
  - exists s. split; [exact E|]. rewrite Hj. eexists; reflexivity.
Defined.
