(* ===== verification/NegStore.v ===== *)
(** * The item set of a reconciliation: sync/negentropy/store.rs

    [NegentropyStore] is the trait the engine works over: its operations
    (the outer option is a panic) together with what they promise relative
    to the sorted list of items the store presents. The sealed vector and
    the live order index are the two implementations; the engine's theorems
    use the class only. *)
From S2P Require Import Prelude Errors Crypto Varint Item IdSum Bound.
From S2P Require Import OrderTree OrderIndex OrderRefine OrderSpec.
From Stdlib Require Import Sorting.Sorted.
Open Scope N_scope.

(** Visiting items with their ranks until the callback returns false. *)
Fixpoint visit {A} (f : A -> N -> Item.t -> A * bool) (a : A) (rank : N) (l : list Item.t) : A :=
  match l with
  | [] => a
  | x :: l => let '(a, continue) := f a rank x in if continue then visit f a (rank + 1) l else a
  end.

(** A bound as an item that compares the same. *)
Definition bound_as_item (b : Bound.t) : Item.t := Item.mk (Bound.ts b) (Bound.padded_id b).

(** [Ord::clamp]. *)
Definition clamp (x lo hi : N) : N := if x <? lo then lo else if hi <? x then hi else x.

(** The fingerprint of a list of items. *)
Definition fingerprint_of {crypto : Crypto} (l : list Item.t) : bytes :=
  IdSum.fingerprint (IdSum.sum_ids (ids l)) (lenN l).

Class NegentropyStore {crypto : Crypto} (S : Type) := {
  ns_len : S -> option N;
  ns_item_at : S -> N -> option Item.t;
  ns_lower_bound : S -> N -> N -> Bound.t -> option N;
  ns_fingerprint : S -> N -> N -> option bytes;
  ns_for_each {A} : S -> N -> N -> (A -> N -> Item.t -> A * bool) -> A -> option A;

  (** The store presents the items [l], in order. *)
  ns_models : S -> list Item.t -> Prop;
  ns_models_sorted s l : ns_models s l -> Item.sorted l /\ Forall Item.wf l /\ lenN l <= u32_max;
  ns_len_spec s l : ns_models s l -> ns_len s = Some (lenN l);
  ns_item_at_spec s l r x : ns_models s l -> l !! N.to_nat r = Some x -> ns_item_at s r = Some x;
  ns_lower_bound_spec s l lo hi b : ns_models s l -> lo <= hi -> hi <= lenN l ->
    ns_lower_bound s lo hi b = Some (clamp (rank_of (bound_as_item b) l) lo hi);
  ns_fingerprint_spec s l lo hi : ns_models s l -> lo <= hi -> hi <= lenN l ->
    ns_fingerprint s lo hi = Some (fingerprint_of (ranks lo hi l));
  ns_for_each_spec {A} s l lo hi (f : A -> N -> Item.t -> A * bool) a :
    ns_models s l -> lo <= hi -> hi <= lenN l ->
    ns_for_each s lo hi f a = Some (visit f a lo (ranks lo hi l));
}.

(** ** The sealed snapshot *)

Module SealedVec.

Record t : Type := mk { items : list Item.t }.

(** [sort_unstable]: the sorted permutation, which is unique because items
    that compare equal are equal. *)
Fixpoint sort_insert (x : Item.t) (l : list Item.t) : list Item.t :=
  match l with
  | [] => [x]
  | y :: l' => match Item.cmp x y with Gt => y :: sort_insert x l' | _ => x :: l end
  end.
Definition sort_unstable (l : list Item.t) : list Item.t := foldr sort_insert [] l.

(** [Vec::dedup]: drops an element equal to the last one kept. *)
Fixpoint dedup (l : list Item.t) : list Item.t :=
  match l with
  | x :: ((y :: _) as l') => if decide (x = y) then dedup l' else x :: dedup l'
  | l => l
  end.

Definition new (items : list Item.t) : t := mk (dedup (sort_unstable items)).

(** [partition_point] on a slice. *)
Fixpoint partition_point (p : Item.t -> bool) (l : list Item.t) : N :=
  match l with
  | [] => 0
  | x :: l => if p x then 1 + partition_point p l else 0
  end.

Definition slice_items (s : t) (lo hi : N) : option (list Item.t) :=
  slice (N.to_nat lo) (N.to_nat hi) (items s).

Definition len (s : t) : option N := Some (lenN (items s)).
Definition item_at (s : t) (rank : N) : option Item.t := items s !! N.to_nat rank.

Definition lower_bound (s : t) (lo hi : N) (bound : Bound.t) : option N :=
  let key := bound_as_item bound in
  l ← slice_items s lo hi;
  Some (lo + partition_point (fun item => Item.ltb item key) l).

Definition fingerprint {crypto : Crypto} (s : t) (lo hi : N) : option bytes :=
  l ← slice_items s lo hi;
  Some (IdSum.fingerprint (foldl (fun sum item => IdSum.add_id sum (Item.id item)) IdSum.zero l) (hi - lo)).

Definition for_each {A} (s : t) (lo hi : N) (f : A -> N -> Item.t -> A * bool) (a : A) : option A :=
  l ← slice_items s lo hi;
  Some (visit f a lo l).

End SealedVec.

(** ** The live order index *)

Module OrderNeg.

Definition lower_bound (o : OrderIndex.t) (lo hi : N) (bound : Bound.t) : option N :=
  r ← OrderIndex.lower_bound o (bound_as_item bound);
  Some (clamp r lo hi).

Definition fingerprint {crypto : Crypto} (o : OrderIndex.t) (lo hi : N) : option bytes :=
  '(count, sum) ← OrderIndex.summary o lo hi;
  Some (IdSum.fingerprint sum count).

Definition for_each {A} (o : OrderIndex.t) (lo hi : N) (f : A -> N -> Item.t -> A * bool) (a : A) : option A :=
  it ← RangeIter.iter_range o lo hi;
  l ← RangeIter.collect (N.to_nat (hi - lo)) it;
  Some (visit f a lo l).

End OrderNeg.

(** ** Lemmas *)

Lemma lenN_ranks lo hi l : lo <= hi -> hi <= lenN l -> lenN (ranks lo hi l) = hi - lo.
Proof. unfold ranks, lenN. intros. rewrite length_take, length_drop. lia. Qed.

Lemma slice_ranks lo hi l : lo <= hi -> hi <= lenN l ->
  slice (N.to_nat lo) (N.to_nat hi) l = Some (ranks lo hi l).
Proof.
  unfold slice, ranks, lenN. intros. rewrite decide_True by lia. do 2 f_equal. lia.
Qed.

Lemma elem_of_sort_insert x y l : y ∈ SealedVec.sort_insert x l <-> y = x \/ y ∈ l.
Proof.
  induction l as [|z l IH]; cbn; [set_solver|]. destruct (Item.cmp x z); set_solver.
Qed.

(** Weakly sorted lists, as [sort_unstable] produces them. *)
Lemma sort_insert_sorted x l :
  StronglySorted Item.le l -> StronglySorted Item.le (SealedVec.sort_insert x l).
Proof.
  induction 1 as [|y l Hs IH Hy]; cbn; [repeat constructor|]. rewrite Forall_forall in Hy.
  assert (Hle : Item.cmp x y <> Gt -> Item.le x y).
  { intros Hc. unfold Item.le. by rewrite <- Item.cmp_gt. }
  assert (Hcons : Item.cmp x y <> Gt -> StronglySorted Item.le (x :: y :: l)).
  { intros Hc. constructor; [constructor; [done|by apply Forall_forall]|].
    apply Forall_forall. intros z [->|Hz]%elem_of_cons; [auto|].
    unfold Item.le in *. intros Hzx. apply (Hle Hc). eapply Item.le_lt_trans; [exact (Hy z Hz)|done]. }
  destruct (Item.cmp x y) eqn:E; [by apply Hcons|by apply Hcons|].
  constructor; [done|]. apply Forall_forall. intros z [->|Hz]%elem_of_sort_insert; [|auto].
  apply Item.cmp_gt in E. intros Hyx. eapply Item.lt_irrefl, Item.lt_trans; eauto.
Qed.

Lemma sort_unstable_spec l :
  StronglySorted Item.le (SealedVec.sort_unstable l) /\ forall x, x ∈ SealedVec.sort_unstable l <-> x ∈ l.
Proof.
  induction l as [|x l [IH1 IH2]]; cbn; [split; [constructor|done]|]. split.
  - by apply sort_insert_sorted.
  - intros y. rewrite elem_of_sort_insert, IH2. set_solver.
Qed.

Lemma dedup_cons a b l : SealedVec.dedup (a :: b :: l) =
  if decide (a = b) then SealedVec.dedup (b :: l) else a :: SealedVec.dedup (b :: l).
Proof. reflexivity. Qed.

Lemma elem_of_dedup x l : x ∈ SealedVec.dedup l <-> x ∈ l.
Proof.
  induction l as [|a [|b l] IH]; [done|done|]. rewrite dedup_cons.
  case_decide as Hab; [subst a|]; rewrite ?elem_of_cons, IH; set_solver.
Qed.

Lemma dedup_sorted l : StronglySorted Item.le l -> Item.sorted (SealedVec.dedup l).
Proof.
  induction 1 as [|a l Hs IH Ha]; [constructor|]. destruct l as [|b l]; [repeat constructor|].
  rewrite dedup_cons. case_decide as Hab; [done|]. constructor; [done|].
  rewrite Forall_forall in Ha. apply Forall_forall. intros x Hx. rewrite elem_of_dedup in Hx.
  assert (Hlt : Item.lt a b).
  { destruct (Item.cmp a b) eqn:E; [by apply Item.cmp_eq in E|done|].
    apply Item.cmp_gt in E. exfalso. apply (Ha b); [by left|done]. }
  apply elem_of_cons in Hx as [->|Hx]; [done|].
  inversion Hs as [|? ? _ Hb]; subst. rewrite Forall_forall in Hb.
  eapply Item.lt_le_trans; [exact Hlt|]. by apply Hb.
Qed.

(** The sealed set: sorted, without duplicates, with the same members. *)
Lemma sealed_new_spec l :
  Item.sorted (SealedVec.items (SealedVec.new l)) /\
  forall x, x ∈ SealedVec.items (SealedVec.new l) <-> x ∈ l.
Proof.
  destruct (sort_unstable_spec l) as [Hs He]. split; [by apply dedup_sorted|].
  intros x. cbn. by rewrite elem_of_dedup, He.
Qed.

Lemma partition_point_rank b l : Item.sorted l ->
  SealedVec.partition_point (fun x => Item.ltb x b) l = rank_of b l.
Proof.
  induction 1 as [|x l Hs IH Hx]; [done|]. cbn [SealedVec.partition_point]. rewrite Forall_forall in Hx.
  change (x :: l) with ([x] ++ l). rewrite rank_of_app. unfold rank_of at 1. cbn [List.filter].
  destruct (Item.ltb x b) eqn:E; [by rewrite IH|].
  rewrite (rank_of_none b l); [done|]. intros y Hy Hyb. apply Item.ltb_ge in E. apply E.
  eapply Item.lt_trans; [by apply Hx|done].
Qed.

(** The number of items of a rank range that are before a bound. *)
Lemma rank_of_range b lo hi l : Item.sorted l -> lo <= hi -> hi <= lenN l ->
  lo + rank_of b (ranks lo hi l) = clamp (rank_of b l) lo hi.
Proof.
  intros Hs H1 H2.
  assert (Hl : l = take (N.to_nat lo) l ++ ranks lo hi l ++ drop (N.to_nat hi) l).
  { rewrite <- (take_drop (N.to_nat lo) l) at 1. f_equal. unfold ranks.
    rewrite <- (take_drop (N.to_nat (hi - lo)) (drop _ l)) at 1. f_equal. rewrite drop_drop. f_equal. lia. }
  pose proof (lenN_ranks lo hi l H1 H2) as Hlen.
  assert (Hlo : lenN (take (N.to_nat lo) l) = lo) by (unfold lenN in *; rewrite length_take; lia).
  rewrite Hl in Hs at 1. rewrite Hl at 2. clear Hl. revert Hs Hlen Hlo.
  generalize (take (N.to_nat lo) l) (ranks lo hi l) (drop (N.to_nat hi) l).
  intros l1 l2 l3 Hs Hlen Hlo. rewrite !rank_of_app.
  apply Item.sorted_app in Hs as (Hs1 & Hs23 & H12). apply Item.sorted_app in Hs23 as (Hs2 & Hs3 & H23).
  pose proof (rank_of_le b l1). pose proof (rank_of_le b l2). pose proof (rank_of_le b l3).
  assert (Hstop : forall k k', (forall x y, x ∈ k -> y ∈ k' -> Item.lt x y) ->
            rank_of b k < lenN k -> rank_of b k' = 0).
  { intros k k' Hkk Hlt. apply rank_of_none. intros y Hy Hyb.
    rewrite rank_of_all in Hlt; [lia|]. intros x Hx. eapply Item.lt_trans; [by eapply Hkk|done]. }
  unfold clamp. destruct (N.ltb_spec (rank_of b l1 + (rank_of b l2 + rank_of b l3)) lo).
  - rewrite (Hstop l1 l2); [lia| |lia]. intros x y Hx Hy. apply H12; [done|set_solver].
  - assert (E1 : rank_of b l1 = lo).
    { destruct (N.eq_dec (rank_of b l1) (lenN l1)); [lia|].
      assert (rank_of b l2 = 0). { apply (Hstop l1); [|lia]. intros x y Hx Hy. apply H12; [done|set_solver]. }
      assert (rank_of b l3 = 0). { apply (Hstop l1); [|lia]. intros x y Hx Hy. apply H12; [done|set_solver]. }
      lia. }
    destruct (N.ltb_spec hi (rank_of b l1 + (rank_of b l2 + rank_of b l3))).
    + destruct (N.eq_dec (rank_of b l2) (lenN l2)); [lia|].
      assert (rank_of b l3 = 0) by (apply (Hstop l2); [done|lia]). lia.
    + destruct (N.eq_dec (rank_of b l2) (lenN l2)); [lia|]. rewrite (Hstop l2 l3); [lia|done|lia].
Qed.

(** ** The implementations *)

Section Instances.
Context {crypto : Crypto}.

Definition sealed_models (s : SealedVec.t) (l : list Item.t) : Prop :=
  SealedVec.items s = l /\ Item.sorted l /\ Forall Item.wf l /\ lenN l <= u32_max.

Lemma sum_foldl l : foldl (fun sum item => IdSum.add_id sum (Item.id item)) IdSum.zero l = IdSum.sum_ids (ids l).
Proof.
  unfold IdSum.sum_ids. generalize IdSum.zero. induction l as [|x l IH]; intros z; [done|]. cbn. apply IH.
Qed.

#[export] Program Instance sealed_store : NegentropyStore SealedVec.t := {
  ns_len := SealedVec.len;
  ns_item_at := SealedVec.item_at;
  ns_lower_bound := SealedVec.lower_bound;
  ns_fingerprint := SealedVec.fingerprint;
  ns_for_each A := SealedVec.for_each;
  ns_models := sealed_models;
}.
Next Obligation. intros s l (_ & H). exact H. Qed.
Next Obligation. by intros s l (<- & _). Qed.
Next Obligation. by intros s l r x (<- & _). Qed.
Next Obligation.
  intros s l lo hi b (<- & Hs & _) H1 H2. unfold SealedVec.lower_bound, SealedVec.slice_items.
  rewrite slice_ranks by done. cbn. rewrite partition_point_rank by by apply sorted_ranks.
  by rewrite rank_of_range.
Qed.
Next Obligation.
  intros s l lo hi (<- & _) H1 H2. unfold SealedVec.fingerprint, SealedVec.slice_items.
  rewrite slice_ranks by done. cbn. rewrite sum_foldl. unfold fingerprint_of. by rewrite lenN_ranks.
Qed.
Next Obligation.
  intros A s l lo hi f a (<- & _) H1 H2. unfold SealedVec.for_each, SealedVec.slice_items.
  by rewrite slice_ranks.
Qed.

#[export] Program Instance order_store : NegentropyStore OrderIndex.t := {
  ns_len := OrderIndex.len;
  ns_item_at := OrderIndex.item_at;
  ns_lower_bound := OrderNeg.lower_bound;
  ns_fingerprint := OrderNeg.fingerprint;
  ns_for_each A := OrderNeg.for_each;
  ns_models := models;
}.
Next Obligation. intros s l H%models_bounds. tauto. Qed.
Next Obligation. intros. by apply models_len. Qed.
Next Obligation. intros s l r x H Hx. by rewrite (models_item_at s l). Qed.
Next Obligation.
  intros s l lo hi b H _ _. unfold OrderNeg.lower_bound. by rewrite (models_lower_bound s l).
Qed.
Next Obligation.
  intros s l lo hi H H1 H2. unfold OrderNeg.fingerprint. rewrite (models_summary s l) by done. cbn.
  unfold fingerprint_of. by rewrite lenN_ranks.
Qed.
Next Obligation.
  intros A s l lo hi f a H H1 H2. unfold OrderNeg.for_each.
  destruct (models_iter_range s l lo hi H H1 H2) as (it & -> & Hy). cbn.
  erewrite collect_yields; [done|exact Hy|]. unfold ranks. rewrite length_take. lia.
Qed.

Lemma sealed_new_models l : Forall Item.wf l -> lenN l <= u32_max ->
  exists l', sealed_models (SealedVec.new l) l' /\ forall x, x ∈ l' <-> x ∈ l.
Proof.
  intros Hw Hlen. destruct (sealed_new_spec l) as [Hs He]. exists (SealedVec.items (SealedVec.new l)).
  split; [|done]. split_and!; [done|done| |].
  - rewrite Forall_forall in Hw |- *. intros x Hx%He. auto.
  - assert (Hsub : SealedVec.items (SealedVec.new l) ⊆+ l).
    { apply NoDup_submseteq; [by apply Item.sorted_NoDup|]. intros x. apply He. }
    apply submseteq_length in Hsub. unfold lenN in *. lia.
Qed.

Lemma elem_of_inserts x l xs :
  x ∈ foldl (fun l x => list_insert x l) l xs <-> x ∈ l \/ x ∈ xs.
Proof.
  revert l. induction xs as [|y xs IH]; intros l; cbn; [set_solver|].
  rewrite IH, elem_of_list_insert. set_solver.
Qed.

(** Two presentations of one sorted list answer alike. *)
Record agree {S1 S2} `{!NegentropyStore S1, !NegentropyStore S2} (s1 : S1) (s2 : S2) (n : N) : Prop := {
  agree_len : ns_len s1 = Some n /\ ns_len s2 = Some n;
  agree_item_at r : r < n -> ns_item_at s1 r = ns_item_at s2 r;
  agree_lower_bound lo hi b : lo <= hi -> hi <= n -> ns_lower_bound s1 lo hi b = ns_lower_bound s2 lo hi b;
  agree_fingerprint lo hi : lo <= hi -> hi <= n -> ns_fingerprint s1 lo hi = ns_fingerprint s2 lo hi;
  agree_for_each A lo hi (f : A -> N -> Item.t -> A * bool) a : lo <= hi -> hi <= n ->
    ns_for_each s1 lo hi f a = ns_for_each s2 lo hi f a }.

Lemma models_agree {S1 S2} `{!NegentropyStore S1, !NegentropyStore S2} (s1 : S1) (s2 : S2) l :
  ns_models s1 l -> ns_models s2 l -> agree s1 s2 (lenN l).
Proof.
  intros H1 H2. split.
  - split; by apply ns_len_spec.
  - intros r Hr. destruct (lookup_lt_is_Some_2 l (N.to_nat r)) as [x Hx]; [unfold lenN in Hr; lia|].
    by rewrite (ns_item_at_spec s1 l r x H1 Hx), (ns_item_at_spec s2 l r x H2 Hx).
  - intros lo hi b ??. by rewrite (ns_lower_bound_spec s1 l), (ns_lower_bound_spec s2 l).
  - intros lo hi ??. by rewrite (ns_fingerprint_spec s1 l), (ns_fingerprint_spec s2 l).
  - intros A lo hi f a ??. by rewrite (ns_for_each_spec s1 l), (ns_for_each_spec s2 l).
Qed.

(** ** Properties *)

(** C37: the two item stores of a reconciliation agree. Sealing a list of
    items (sorting and deduplicating it) and inserting the same items one by
    one into an empty order index give stores that present the same sorted,
    duplicate-free sequence and answer every length, rank, bound, fingerprint
    and traversal query of the engine identically. *)
Theorem stores_agree xs : Forall Item.wf xs -> lenN xs <= u32_max ->
  exists o l, insert_all OrderIndex.new xs = Some o /\
    Item.sorted l /\ (forall x, x ∈ l <-> x ∈ xs) /\
    ns_models (SealedVec.new xs) l /\ ns_models o l /\
    agree (SealedVec.new xs) o (lenN l).
Proof.
  intros Hw Hlen. destruct (models_insert_all OrderIndex.new [] xs models_new Hw Hlen) as (o & E & Ho).
  destruct (sealed_new_models xs Hw Hlen) as (l & Hs & He).
  assert (Hl : l = foldl (fun l x => list_insert x l) [] xs).
  { apply Item.sorted_ext; [apply Hs|apply (models_bounds o _ Ho)|].
    intros x. rewrite He, elem_of_inserts. set_solver. }
  rewrite <- Hl in Ho. exists o, l. split_and!; try done; [apply Hs|]. by apply models_agree.
Qed.

End Instances.

Lemma stores_agree_witness :
  exists o, insert_all OrderIndex.new sample_items = Some o /\
    ns_fingerprint (SealedVec.new sample_items) 2 5 = ns_fingerprint o 2 5.
Proof.
  destruct (stores_agree sample_items) as (o & l & E & _ & Hm & _ & _ & Ha).
  - repeat (constructor; [split; [reflexivity|vm_compute; discriminate]|]). constructor.
  - vm_compute. discriminate.
  - exists o. split; [exact E|]. apply (agree_fingerprint _ _ _ Ha); [lia|].
    assert (Hl : ns_len (SealedVec.new sample_items) = Some 9) by (vm_compute; reflexivity).
    rewrite (proj1 (agree_len _ _ _ Ha)) in Hl. injection Hl as ->. lia.
Defined.
