(* ===== verification/Negentropy.v ===== *)
(** * The reconciliation engine: sync/negentropy/mod.rs

    Range-based set reconciliation over any [NegentropyStore]. The item
    store's answers are partial (a panic is [None]); here they become
    [Panic] of [result]. *)
From S2P Require Import Prelude Errors Crypto Varint Item IdSum Bound.
From S2P Require Import OrderTree OrderIndex OrderRefine OrderSpec NegStore.
Open Scope N_scope.

Definition PROTOCOL_VERSION : byte := byte_of 97.
Definition BUCKETS : nat := 16.
Definition ID_LIST_THRESHOLD : N := 32.
Definition FRAME_MARGIN : N := 200.
Definition FRAME_LIMIT_FLOOR : N := 4096.
Definition MODE_SKIP : N := 0.
Definition MODE_FINGERPRINT : N := 1.
Definition MODE_ID_LIST : N := 2.

Module Round.
Record t : Type := mk { reply : option bytes; have : list bytes; need : list bytes }.
End Round.

(** An output of [len] bytes exceeds the budget; limits below the margin
    are refused by [new]. *)
Definition exceeds_limit (limit : option N) (len : N) : bool :=
  match limit with Some limit => limit - FRAME_MARGIN <? len | None => false end.

(** Emits the pending skip range: the flag, the codec and the output. *)
Definition flush_skip (skip : bool) (prev_bound : Bound.t) (codec : BoundCodec.t) (out : bytes)
  : bool * BoundCodec.t * bytes :=
  if skip then
    let '(codec, b) := BoundCodec.encode codec prev_bound in
    (false, codec, out ++ b ++ write_varint MODE_SKIP)
  else (false, codec, out).

(** [num_ids] ids of 32 bytes: the ids without repetitions in order of
    first appearance, and as a set. *)
Fixpoint read_ids (n : nat) (cursor : bytes) (order : list bytes) (theirs : gset bytes)
  : result SyncError.t (bytes * list bytes * gset bytes) :=
  match n with
  | O => Ok (cursor, order, theirs)
  | S n =>
      '(id, rest) ← expect (split_at ID_SIZE cursor);
      if decide (id ∈ theirs) then read_ids n rest order theirs
      else read_ids n rest (order ++ [id]) ({[id]} ∪ theirs)
  end.

(** The initiator's visit: unmatched own ids are [have]. *)
Definition match_item (a : gset bytes * list bytes) (rank : N) (item : Item.t)
  : gset bytes * list bytes * bool :=
  let '(theirs, have) := a in
  if decide (Item.id item ∈ theirs) then (theirs ∖ {[Item.id item]}, have, true)
  else (theirs, have ++ [Item.id item], true).

(** The responder's visit: ids collected, their number, the bound covered
    and the rank it ends at. *)
Definition list_item (limit : option N) (full_len : N) (a : bytes * N * Bound.t * N) (rank : N) (item : Item.t)
  : bytes * N * Bound.t * N * bool :=
  let '(ids, num, end_bound, upper) := a in
  if exceeds_limit limit (full_len + lenN ids) then
    (ids, num, Bound.at_item (Item.sort_key item) (Item.id item), rank, false)
  else (ids ++ Item.id item, num + 1, end_bound, upper, true).

Definition list_ids (out : bytes) (rank : N) (item : Item.t) : bytes * bool :=
  (out ++ Item.id item, true).

Module Negentropy.

Record t (S : Type) : Type := mk { store : S; frame_limit : option N; is_initiator : bool }.
Arguments mk {S}. Arguments store {S}. Arguments frame_limit {S}. Arguments is_initiator {S}.

Section Engine.
Context {crypto : Crypto} {S : Type} `{!NegentropyStore S}.

Definition new (store : S) (frame_limit : option N) : result SyncError.t (t S) :=
  match frame_limit with
  | Some limit =>
      if limit <? FRAME_LIMIT_FLOOR then Err (SyncError.FrameLimitTooSmall FRAME_LIMIT_FLOOR)
      else Ok (mk store frame_limit false)
  | None => Ok (mk store frame_limit false)
  end.

(** The bucket loop of [split_range]; [k] buckets remain, the [with_extra]
    first ones hold one item more. *)
Fixpoint split_buckets (s : S) (k : nat) (i curr upper per_bucket with_extra : N) (upper_bound : Bound.t)
    (codec : BoundCodec.t) (out : bytes) : result SyncError.t (BoundCodec.t * bytes) :=
  match k with
  | O => Ok (codec, out)
  | Datatypes.S k =>
      let bucket_size := per_bucket + (if i <? with_extra then 1 else 0) in
      fp ← expect (ns_fingerprint s curr (curr + bucket_size));
      let curr := curr + bucket_size in
      next_bound ←
        (if curr =? upper then Ok upper_bound
         else
           prev ← expect (ns_item_at s (curr - 1));
           next ← expect (ns_item_at s curr);
           Bound.min_separating (Item.sort_key prev) (Item.id prev) (Item.sort_key next) (Item.id next));
      let '(codec, b) := BoundCodec.encode codec next_bound in
      split_buckets s k (i + 1) curr upper per_bucket with_extra upper_bound codec
        (out ++ b ++ write_varint MODE_FINGERPRINT ++ fp)
  end.

Definition split_range (s : S) (lower upper : N) (upper_bound : Bound.t) (codec : BoundCodec.t) (out : bytes)
  : result SyncError.t (BoundCodec.t * bytes) :=
  if upper <? lower then Panic
  else
    let num_elems := upper - lower in
    if num_elems <? ID_LIST_THRESHOLD then
      let '(codec, b) := BoundCodec.encode codec upper_bound in
      let out := out ++ b ++ write_varint MODE_ID_LIST ++ write_varint num_elems in
      out ← expect (ns_for_each s lower upper list_ids out);
      Ok (codec, out)
    else
      split_buckets s BUCKETS 0 lower upper (num_elems / N.of_nat BUCKETS) (num_elems mod N.of_nat BUCKETS)
        upper_bound codec out.

Definition initiate (e : t S) : result SyncError.t (t S * bytes) :=
  if is_initiator e then Err SyncError.AlreadyInitiated
  else
    let e := mk (store e) (frame_limit e) true in
    n ← expect (ns_len (store e));
    '(_, out) ← split_range (store e) 0 n Bound.infinity BoundCodec.new [PROTOCOL_VERSION];
    Ok (e, out).

(** The variables of the loop in [reconcile]. *)
Record state : Type := St {
  cursor : bytes;
  full : bytes;
  codec : BoundCodec.t;
  prev_rank : N;
  prev_bound : Bound.t;
  skip : bool;
  have : list bytes;
  need : list bytes;
}.

(** What one range leaves: the cursor, the output so far and the pending
    output [o], the codec, the skip flag, the rank covered and the ids
    learnt. *)
Record outcome : Type := Out {
  o_cursor : bytes;
  o_full : bytes;
  o : bytes;
  o_codec : BoundCodec.t;
  o_skip : bool;
  o_upper : N;
  o_have : list bytes;
  o_need : list bytes;
}.

Definition do_fingerprint (e : t S) (st : state) (codec : BoundCodec.t) (cur : bytes) (curr_bound : Bound.t)
    (upper : N) : result SyncError.t outcome :=
  match split_at IdSum.FINGERPRINT_SIZE cur with
  | None => Err (SyncError.Malformed "fingerprint ends prematurely")
  | Some (their_fp, cur) =>
      ours ← expect (ns_fingerprint (store e) (prev_rank st) upper);
      if decide (their_fp <> ours) then
        let '(skip, codec, o) := flush_skip (skip st) (prev_bound st) codec [] in
        '(codec, o) ← split_range (store e) (prev_rank st) upper curr_bound codec o;
        Ok (Out cur (full st) o codec skip upper (have st) (need st))
      else Ok (Out cur (full st) [] codec true upper (have st) (need st))
  end.

Definition do_id_list (e : t S) (st : state) (codec : BoundCodec.t) (cur : bytes) (curr_bound : Bound.t)
    (upper : N) : result SyncError.t outcome :=
  '(num_ids, cur) ← read_varint cur;
  if lenN cur / N.of_nat ID_SIZE <? num_ids then Err (SyncError.Malformed "id list longer than the message")
  else
    '(cur, their_order, theirs) ← read_ids (N.to_nat num_ids) cur [] ∅;
    if is_initiator e then
      '(theirs, have) ← expect (ns_for_each (store e) (prev_rank st) upper match_item (theirs, have st));
      let need := need st ++ List.filter (fun id => bool_decide (id ∈ theirs)) their_order in
      Ok (Out cur (full st) [] codec true upper have need)
    else
      let '(skip, codec, o) := flush_skip (skip st) (prev_bound st) codec [] in
      '(response_ids, num_response, end_bound, upper) ←
        expect (ns_for_each (store e) (prev_rank st) upper
                  (list_item (frame_limit e) (lenN (full st))) ([], 0, curr_bound, upper));
      let '(codec, b) := BoundCodec.encode codec end_bound in
      let o := o ++ b ++ write_varint MODE_ID_LIST ++ write_varint num_response ++ response_ids in
      Ok (Out cur (full st ++ o) [] codec skip upper (have st) (need st)).

Definition do_range (e : t S) (st : state) (codec : BoundCodec.t) (mode : N) (cur : bytes)
    (curr_bound : Bound.t) (upper : N) : result SyncError.t outcome :=
  if mode =? MODE_SKIP then Ok (Out cur (full st) [] codec true upper (have st) (need st))
  else if mode =? MODE_FINGERPRINT then do_fingerprint e st codec cur curr_bound upper
  else if mode =? MODE_ID_LIST then do_id_list e st codec cur curr_bound upper
  else Err (SyncError.Malformed "unknown range mode").

(** The body of the loop; the flag tells to go on. *)
Definition step (e : t S) (n : N) (st : state) : result SyncError.t (state * bool) :=
  '(curr_bound, codec, cur) ← BoundCodec.decode (codec st) (cursor st);
  '(mode, cur) ← read_varint cur;
  upper ← expect (ns_lower_bound (store e) (prev_rank st) n curr_bound);
  out ← do_range e st codec mode cur curr_bound upper;
  if exceeds_limit (frame_limit e) (lenN (o_full out) + lenN (o out)) then
    remaining ← expect (ns_fingerprint (store e) (o_upper out) n);
    let '(codec, b) := BoundCodec.encode (o_codec out) Bound.infinity in
    let full := o_full out ++ b ++ write_varint MODE_FINGERPRINT ++ remaining in
    Ok (St (o_cursor out) full codec (prev_rank st) (prev_bound st) (o_skip out) (o_have out) (o_need out), false)
  else
    Ok (St (o_cursor out) (o_full out ++ o out) (o_codec out) (o_upper out) curr_bound (o_skip out)
          (o_have out) (o_need out), true).

(** Every range takes at least three bytes, so the message length is enough
    fuel. *)
Fixpoint run (fuel : nat) (e : t S) (n : N) (st : state) : result SyncError.t state :=
  match cursor st with
  | [] => Ok st
  | _ =>
      match fuel with
      | O => Panic
      | Datatypes.S fuel =>
          '(st, continue) ← step e n st;
          if continue : bool then run fuel e n st else Ok st
      end
  end.

Definition reconcile (e : t S) (msg : bytes) : result SyncError.t Round.t :=
  match msg with
  | [] => Err (SyncError.Malformed "empty message")
  | version :: cur =>
      if negb ((96 <=? byte_val version) && (byte_val version <=? 111)) then
        Err (SyncError.Malformed "invalid protocol version byte")
      else if decide (version <> PROTOCOL_VERSION) then
        if is_initiator e then Err (SyncError.UnsupportedVersion (byte_val version))
        else Ok (Round.mk (Some [PROTOCOL_VERSION]) [] [])
      else
        n ← expect (ns_len (store e));
        st ← run (length cur) e n (St cur [PROTOCOL_VERSION] BoundCodec.new 0 (Bound.from_ts 0) false [] []);
        let reply := if is_initiator e && (lenN (full st) =? 1) then None else Some (full st) in
        Ok (Round.mk reply (have st) (need st))
  end.

End Engine.
End Negentropy.
