(* ===== verification/NegFacts.v ===== *)
(** * The engine is total and its output is bounded

    Over any store that presents a sorted list, processing an arbitrary
    message never panics, terminates within the fuel, and answers within the
    frame limit. *)
From S2P Require Import Prelude Errors Crypto Varint Item IdSum Bound.
From S2P Require Import OrderTree OrderIndex OrderRefine OrderSpec NegStore Negentropy.
Open Scope N_scope.
Import Negentropy.

(** ** Sizes of encodings *)

Lemma length_encode c b : Bound.wf b -> lenN (BoundCodec.encode c b).2 <= 43.
Proof.
  intros Hb. pose proof (BoundFacts.length_prefix_bytes b Hb) as Hp. destruct Hb as (Hts & Hl & _).
  assert (Hv : forall v, v <= u64_max -> lenN (write_varint v) <= 10).
  { intros v Hv. pose proof (length_write_varint v Hv). unfold lenN. lia. }
  assert (H1 : lenN (write_varint (lenN (Bound.prefix_bytes b))) = 1).
  { rewrite Hp. unfold ID_SIZE in Hl. destruct (Bound.prefix_len b) as [|p]; [done|].
    do 33 (destruct p as [p|p|]; try done; try lia). }
  unfold BoundCodec.encode, TS_INFINITY. destruct (N.eqb_spec (Bound.ts b) u64_max); cbn [snd].
  - rewrite !lenN_app, H1, Hp. change (lenN (write_varint 0)) with 1. unfold ID_SIZE in Hl. lia.
  - rewrite !lenN_app, H1, Hp. specialize (Hv (Bound.ts b - BoundCodec.last_ts_out c + 1) ltac:(lia)).
    unfold ID_SIZE in Hl. lia.
Qed.

Lemma length_encode_infinity c : lenN (BoundCodec.encode c Bound.infinity).2 = 2.
Proof. reflexivity. Qed.

Lemma length_fingerprint {crypto : Crypto} l : lenN (fingerprint_of l) = 16.
Proof.
  unfold fingerprint_of, IdSum.fingerprint, lenN. rewrite length_take, sha256_length. done.
Qed.

Section Facts.
Context {crypto : Crypto} {S : Type} `{!NegentropyStore S}.

(** ** Visits *)

Lemma visit_list_ids out rank l : visit list_ids out rank l = out ++ concat (ids l).
Proof.
  revert out rank. induction l as [|x l IH]; intros out rank; cbn; [by rewrite app_nil_r|].
  by rewrite IH, <- app_assoc.
Qed.

Lemma length_concat_ids l : Forall Item.wf l -> lenN (concat (ids l)) = 32 * lenN l.
Proof.
  induction 1 as [|x l [Hx _] Hl IH]; [done|]. cbn [ids map concat]. rewrite lenN_app, lenN_cons.
  unfold ids in IH. rewrite IH. unfold lenN at 1. rewrite Hx. unfold ID_SIZE. lia.
Qed.

Lemma Forall_ranks P lo hi l : Forall P l -> Forall P (ranks lo hi l).
Proof. intros H. by apply Forall_take, Forall_drop. Qed.

(** ** Splitting a range *)

Lemma encode_wf_pair c b : BoundCodec.encode c b = ((BoundCodec.encode c b).1, (BoundCodec.encode c b).2).
Proof. by destruct (BoundCodec.encode c b). Qed.

Lemma separating_ok l k : Item.sorted l -> Forall Item.wf l -> 0 < k -> k < lenN l ->
  exists prev next b, l !! N.to_nat (k - 1) = Some prev /\ l !! N.to_nat k = Some next /\
    @Bound.min_separating SyncError.t (Item.sort_key prev) (Item.id prev) (Item.sort_key next) (Item.id next) = Ok b /\
    Bound.wf b /\ Bound.ts b = Item.sort_key next /\ rank_of (bound_as_item b) l = k.
Proof.
  intros Hs Hw H0 Hk. unfold lenN in Hk.
  destruct (lookup_lt_is_Some_2 l (N.to_nat (k - 1))) as [prev Hp]; [lia|].
  destruct (lookup_lt_is_Some_2 l (N.to_nat k)) as [next Hn]; [lia|].
  rewrite Forall_forall in Hw.
  assert (Hwp : Item.wf prev) by (apply Hw; by eapply list_elem_of_lookup_2).
  assert (Hwn : Item.wf next) by (apply Hw; by eapply list_elem_of_lookup_2).
  assert (Hlt : Item.lt prev next).
  { apply list_elem_of_split_length in Hn as (l1 & l2 & -> & Hl1).
    apply Item.sorted_middle in Hs as (_ & _ & H1 & _). apply H1.
    rewrite lookup_app_l in Hp by lia. by eapply list_elem_of_lookup_2. }
  destruct (BoundFacts.min_separating_Ok (E := SyncError.t) prev next Hwp Hwn Hlt) as (b & E & Hb & Hbts & Hb1 & Hb2 & _).
  exists prev, next, b. split_and!; try done.
  rewrite BoundFacts.item_is_before_lt in Hb1, Hb2. fold (bound_as_item b) in *.
  apply Item.ltb_lt in Hb1. apply Item.ltb_ge in Hb2.
  pose proof (rank_of_prefix (bound_as_item b) l _ _ Hs Hp) as R1.
  pose proof (rank_of_prefix (bound_as_item b) l _ _ Hs Hn) as R2.
  assert (N.of_nat (N.to_nat (k - 1)) < rank_of (bound_as_item b) l) by tauto.
  assert (~ N.of_nat (N.to_nat k) < rank_of (bound_as_item b) l) by tauto. lia.
Qed.

Lemma split_buckets_sat s l k i curr upper per extra ub c out :
  ns_models s l -> Bound.wf ub -> upper <= lenN l -> 1 <= per ->
  i + N.of_nat k = 16 -> extra <= 16 ->
  curr + N.of_nat k * per + (extra - i) = upper ->
  sat (split_buckets s k i curr upper per extra ub c out)
    (fun '(_, out') => lenN out' <= lenN out + N.of_nat k * 60).
Proof.
  intros Hm Hub Hup Hper. destruct (ns_models_sorted s l Hm) as (Hs & Hw & _).
  revert i curr c out. induction k as [|k IH]; intros i curr c out Hi He Hsum; cbn [split_buckets].
  { cbn. lia. }
  set (sz := per + (if i <? extra then 1 else 0)).
  assert (Hsz : curr + sz + N.of_nat k * per + (extra - (i + 1)) = upper).
  { unfold sz. destruct (N.ltb_spec i extra); lia. }
  assert (Hpos : 1 <= sz) by (unfold sz; destruct (_ <? _); lia). clearbody sz.
  rewrite (ns_fingerprint_spec s l) by (done || lia). cbn [expect mbind result_bind].
  eapply sat_bind with (P := Bound.wf).
  - destruct (N.eqb_spec (curr + sz) upper) as [|Hne]; [done|].
    destruct (separating_ok l (curr + sz) Hs Hw) as (prev & next & b & Hp & Hn & E & Hb & _ & _); [lia|lia|].
    rewrite (ns_item_at_spec s l _ _ Hm Hp), (ns_item_at_spec s l _ _ Hm Hn). cbn. by rewrite E.
  - intros b Hb. rewrite encode_wf_pair. eapply sat_mono; [apply IH; lia|]. intros [c' out'].
    rewrite !lenN_app, length_fingerprint. change (lenN (write_varint MODE_FINGERPRINT)) with 1.
    pose proof (length_encode c b Hb). lia.
Qed.

Lemma split_range_sat s l lower upper ub c out :
  ns_models s l -> Bound.wf ub -> lower <= upper -> upper <= lenN l ->
  sat (split_range s lower upper ub c out) (fun '(_, out') => lenN out' <= lenN out + 1040).
Proof.
  intros Hm Hub H1 H2. destruct (ns_models_sorted s l Hm) as (Hs & Hw & _).
  unfold split_range. rewrite (proj2 (N.ltb_ge upper lower)) by done.
  unfold ID_LIST_THRESHOLD, BUCKETS. destruct (N.ltb_spec (upper - lower) 32) as [Hsm|Hlg].
  - rewrite encode_wf_pair, (ns_for_each_spec s l) by done. cbn [expect mbind result_bind].
    rewrite visit_list_ids. cbn [sat]. rewrite !lenN_app, length_concat_ids, lenN_ranks by (done || by apply Forall_ranks).
    pose proof (length_encode c ub Hub). change (lenN (write_varint MODE_ID_LIST)) with 1.
    assert (lenN (write_varint (upper - lower)) <= 1).
    { destruct (upper - lower) as [|p]; [done|]. do 5 (destruct p as [p|p|]; try done; try lia). }
    cbn. lia.
  - eapply sat_mono; [eapply (split_buckets_sat s l); try done|].
    + change (N.of_nat 16) with 16. lia.
    + change (N.of_nat 16) with 16. lia.
    + change (N.of_nat 16) with 16. rewrite N.sub_0_r. lia.
    + intros [c' out']. change (N.of_nat 16) with 16. lia.
Qed.

(** Splitting always succeeds. *)
Lemma split_buckets_no_err s l k i curr upper per extra ub c out err :
  ns_models s l -> Bound.wf ub -> upper <= lenN l -> 1 <= per ->
  i + N.of_nat k = 16 -> extra <= 16 ->
  curr + N.of_nat k * per + (extra - i) = upper ->
  split_buckets s k i curr upper per extra ub c out <> Err err.
Proof.
  intros Hm Hub Hup Hper. destruct (ns_models_sorted s l Hm) as (Hs & Hw & _).
  revert i curr c out. induction k as [|k IH]; intros i curr c out Hi He Hsum; cbn [split_buckets]; [done|].
  set (sz := per + (if i <? extra then 1 else 0)).
  assert (Hsz : curr + sz + N.of_nat k * per + (extra - (i + 1)) = upper).
  { unfold sz. destruct (N.ltb_spec i extra); lia. }
  assert (Hpos : 1 <= sz) by (unfold sz; destruct (_ <? _); lia). clearbody sz.
  rewrite (ns_fingerprint_spec s l) by (done || lia). cbn [expect mbind result_bind].
  destruct (N.eqb_spec (curr + sz) upper) as [Heq|Hne]; cbn [mbind result_bind].
  - rewrite encode_wf_pair. apply IH; lia.
  - destruct (separating_ok l (curr + sz) Hs Hw) as (prev & next & b & Hp & Hn & E & _ & _); [lia|lia|].
    rewrite (ns_item_at_spec s l _ _ Hm Hp), (ns_item_at_spec s l _ _ Hm Hn).
    cbn [expect mbind result_bind]. rewrite E. cbn [mbind result_bind]. rewrite encode_wf_pair. apply IH; lia.
Qed.

Lemma split_range_no_err s l lower upper ub c out err :
  ns_models s l -> Bound.wf ub -> lower <= upper -> upper <= lenN l ->
  split_range s lower upper ub c out <> Err err.
Proof.
  intros Hm Hub H1 H2. unfold split_range. rewrite (proj2 (N.ltb_ge upper lower)) by done.
  unfold ID_LIST_THRESHOLD, BUCKETS. destruct (N.ltb_spec (upper - lower) 32) as [Hsm|Hlg].
  - rewrite encode_wf_pair, (ns_for_each_spec s l) by done. done.
  - change (N.of_nat 16) with 16. eapply split_buckets_no_err; try done; change (N.of_nat 16) with 16; lia.
Qed.

(** ** One range *)

(** Refused limits never reach an engine. *)
Definition wf_engine (e : t S) : Prop :=
  match frame_limit e with Some lim => FRAME_LIMIT_FLOOR <= lim | None => True end.

(** The output stays [slack] bytes below the limit. *)
Definition within (e : t S) (slack len : N) : Prop :=
  match frame_limit e with Some lim => len + slack <= lim | None => True end.

Lemma not_exceeds e len : wf_engine e -> exceeds_limit (frame_limit e) len = false <-> within e 200 len.
Proof.
  unfold wf_engine, within, exceeds_limit, FRAME_LIMIT_FLOOR, FRAME_MARGIN.
  destruct (frame_limit e); [|done]. rewrite N.ltb_ge. lia.
Qed.

Lemma flush_skip_spec sk b c o : Bound.wf b ->
  exists c' o', flush_skip sk b c o = (false, c', o ++ o') /\ lenN o' <= 44.
Proof.
  intros Hb. unfold flush_skip. destruct sk.
  - rewrite encode_wf_pair. do 2 eexists. split; [done|]. rewrite lenN_app.
    pose proof (length_encode c b Hb). change (lenN (write_varint MODE_SKIP)) with 1. lia.
  - exists c, []. rewrite app_nil_r. split; [done|]. unfold lenN; cbn; lia.
Qed.

Lemma visit_list_item e full_len l ids0 num eb up rank :
  wf_engine e -> Forall Item.wf l -> Bound.wf eb -> rank + lenN l = up -> within e 168 (full_len + lenN ids0) ->
  let '(ids', num', eb', up') := visit (list_item (frame_limit e) full_len) (ids0, num, eb, up) rank l in
  Bound.wf eb' /\ rank <= up' <= up /\ num' <= num + lenN l /\ within e 168 (full_len + lenN ids').
Proof.
  intros He Hw. revert ids0 num eb up rank.
  induction Hw as [|x l [Hx Hk] Hw IH]; intros ids0 num eb up rank Hb Hr Hin.
  { cbn in *. unfold lenN in *. cbn in *. split_and!; try done; lia. }
  rewrite lenN_cons in Hr. cbn [visit list_item].
  destruct (exceeds_limit (frame_limit e) (full_len + lenN ids0)) eqn:E.
  - rewrite lenN_cons. split_and!; [by apply BoundFacts.wf_at_item|lia|lia|lia|done].
  - specialize (IH (ids0 ++ Item.id x) (num + 1) eb up (rank + 1) Hb ltac:(lia)).
    destruct (visit _ _ _ _) as [[[ids' num'] eb'] up'].
    apply not_exceeds in E; [|done]. rewrite lenN_cons. destruct IH as (H1 & H2 & H3 & H4).
    + unfold within in *. destruct (frame_limit e); [|done]. rewrite lenN_app.
      unfold lenN at 2. rewrite Hx. unfold ID_SIZE. lia.
    + split_and!; try done; lia.
Qed.

Lemma visit_match_item theirs hv rank l :
  let '(theirs', hv') := visit match_item (theirs, hv) rank l in
  (forall i, i ∈ hv' -> i ∈ hv \/ i ∈ ids l) /\ theirs' ⊆ theirs.
Proof.
  revert theirs hv rank. induction l as [|x l IH]; intros theirs hv rank; [cbn; auto|].
  cbn [visit match_item]. destruct (decide (Item.id x ∈ theirs)).
  - specialize (IH (theirs ∖ {[Item.id x]}) hv (rank + 1)).
    destruct (visit _ _ _ _) as [th' hv']. destruct IH as [IH1 IH2]. split; [|set_solver].
    intros i Hi. apply IH1 in Hi as [|]; [by left|]. right. cbn. by right.
  - specialize (IH theirs (hv ++ [Item.id x]) (rank + 1)).
    destruct (visit _ _ _ _) as [th' hv']. destruct IH as [IH1 IH2]. split; [|done].
    intros i Hi. apply IH1 in Hi as [Hi|]; [|right; by right]. cbn. set_solver.
Qed.

Lemma read_ids_ok n cur order theirs : (n * 32 <= length cur)%nat ->
  exists order' theirs', read_ids n cur order theirs = Ok (drop (n * 32) cur, order', theirs').
Proof.
  revert cur order theirs. induction n as [|n IH]; intros cur order theirs Hl; [by do 2 eexists|].
  cbn [read_ids]. unfold split_at. rewrite decide_True by (unfold ID_SIZE; lia).
  cbn [expect mbind result_bind].
  assert (Hl' : (n * 32 <= length (drop ID_SIZE cur))%nat) by (rewrite length_drop; unfold ID_SIZE; lia).
  replace (drop (Datatypes.S n * 32) cur) with (drop (n * 32) (drop ID_SIZE cur)).
  - case_decide; by apply IH.
  - by rewrite drop_drop.
Qed.

(** The invariant of the loop. *)
Record inv (e : t S) (l : list Item.t) (st : state) : Prop := {
  inv_engine : wf_engine e;
  inv_within : within e 200 (lenN (full st));
  inv_rank : prev_rank st <= lenN l;
  inv_bound : Bound.wf (prev_bound st);
  inv_head : exists tl, full st = PROTOCOL_VERSION :: tl;
  inv_have : forall i, i ∈ have st -> is_initiator e = true /\ i ∈ ids l;
  inv_need : need st <> [] -> is_initiator e = true }.

(** What every range guarantees. *)
Record good (e : t S) (l : list Item.t) (st : state) (cur : bytes) (upper : N) (out : outcome) : Prop := {
  good_cursor : lenN (o_cursor out) <= lenN cur;
  good_upper : prev_rank st <= o_upper out <= upper;
  good_full : exists tl, o_full out = full st ++ tl;
  good_within : within e 69 (lenN (o_full out));
  good_have : forall i, i ∈ o_have out -> is_initiator e = true /\ i ∈ ids l;
  good_need : o_need out <> [] -> is_initiator e = true }.

Lemma within_weaken e a b len len' : within e a len -> len' + b <= len + a -> within e b len'.
Proof. unfold within. destruct (frame_limit e); [lia|done]. Qed.

Lemma good_plain e l st cur cur' upper o c sk hv nd : inv e l st -> lenN cur' <= lenN cur -> prev_rank st <= upper ->
  (forall i, i ∈ hv -> is_initiator e = true /\ i ∈ ids l) -> (nd <> [] -> is_initiator e = true) ->
  good e l st cur upper (Out cur' (full st) o c sk upper hv nd).
Proof.
  intros Hi Hc Hu Hh Hn. split; cbn; try done.
  - exists []. by rewrite app_nil_r.
  - eapply within_weaken; [apply Hi|lia].
Qed.

Lemma do_fingerprint_sat e l st c cur cb upper :
  ns_models (store e) l -> inv e l st -> Bound.wf cb -> prev_rank st <= upper -> upper <= lenN l ->
  sat (do_fingerprint e st c cur cb upper) (good e l st cur upper).
Proof.
  intros Hm Hi Hcb H1 H2. unfold do_fingerprint. destruct (split_at _ cur) as [[fp cur']|] eqn:Es; [|done].
  apply split_at_Some in Es as [-> Hfp]. rewrite (ns_fingerprint_spec _ l) by done.
  cbn [expect mbind result_bind].
  assert (Hc : lenN cur' <= lenN (fp ++ cur')) by (rewrite lenN_app; lia).
  case_decide.
  - destruct (flush_skip_spec (skip st) (prev_bound st) c [] (inv_bound _ _ _ Hi)) as (c' & o' & -> & _).
    eapply sat_bind; [by apply (split_range_sat _ l)|]. intros [c'' o''] _. cbn [sat].
    apply good_plain; try done; [apply (inv_have _ _ _ Hi)|apply (inv_need _ _ _ Hi)].
  - apply good_plain; try done; [apply (inv_have _ _ _ Hi)|apply (inv_need _ _ _ Hi)].
Qed.

Lemma elem_of_ids_ranks i lo hi l : i ∈ ids (ranks lo hi l) -> i ∈ ids l.
Proof.
  unfold ids. intros (x & -> & Hx)%list_elem_of_fmap. apply list_elem_of_fmap. exists x. split; [done|].
  apply elem_of_ranks in Hx as (k & Hk & _). by eapply list_elem_of_lookup_2.
Qed.

Lemma do_id_list_sat e l st c cur cb upper :
  ns_models (store e) l -> inv e l st -> Bound.wf cb -> prev_rank st <= upper -> upper <= lenN l ->
  sat (do_id_list e st c cur cb upper) (good e l st cur upper).
Proof.
  intros Hm Hi Hcb H1 H2. destruct (ns_models_sorted _ l Hm) as (_ & Hw & Hmax). unfold do_id_list.
  destruct (read_varint cur) as [[num cur']| |] eqn:Ev; [|done|by destruct (read_varint_no_panic cur)].
  apply read_varint_sound in Ev as (_ & pre & -> & _). cbn [mbind result_bind].
  destruct (N.ltb_spec (lenN cur' / N.of_nat ID_SIZE) num) as [|Hnum]; [done|].
  destruct (read_ids_ok (N.to_nat num) cur' [] ∅) as (order & theirs & ->).
  { unfold lenN, ID_SIZE in Hnum. change (N.of_nat 32) with 32 in Hnum. lia. }
  cbn [mbind result_bind].
  assert (Hcur : lenN (drop (N.to_nat num * 32) cur') <= lenN (pre ++ cur')).
  { unfold lenN. rewrite length_drop, length_app. lia. }
  destruct (is_initiator e) eqn:Hin.
  - rewrite (ns_for_each_spec _ l) by done. cbn [expect mbind result_bind].
    pose proof (visit_match_item theirs (have st) (prev_rank st) (ranks (prev_rank st) upper l)) as Hv.
    destruct (visit _ _ _ _) as [th hv]. destruct Hv as [Hv _]. cbn [mbind result_bind sat].
    apply good_plain; try done. intros i Hh. split; [done|]. apply Hv in Hh as [Hh|Hh].
    + by apply (inv_have _ _ _ Hi).
    + by eapply elem_of_ids_ranks.
  - destruct (flush_skip_spec (skip st) (prev_bound st) c [] (inv_bound _ _ _ Hi)) as (c' & o' & -> & Ho').
    rewrite (ns_for_each_spec _ l) by done. cbn [expect mbind result_bind].
    pose proof (visit_list_item e (lenN (full st)) (ranks (prev_rank st) upper l) [] 0 cb upper (prev_rank st)
      (inv_engine _ _ _ Hi) (Forall_ranks _ _ _ _ Hw) Hcb) as Hv.
    rewrite lenN_ranks in Hv by done. specialize (Hv ltac:(lia)).
    destruct (visit _ _ _ _) as [[[rids num'] eb] up]. destruct Hv as (Hb & Hup & Hn & Hwi).
    { eapply within_weaken; [apply Hi|]. unfold lenN at 2; cbn. lia. }
    cbn [mbind result_bind]. rewrite encode_wf_pair. cbn [sat]. split; cbn [o_cursor o_full o_upper o_have o_need]; try done.
    + eauto.
    + eapply within_weaken; [exact Hwi|]. rewrite app_nil_l, !lenN_app. pose proof (length_encode c' eb Hb).
      assert (lenN (write_varint num') <= 10).
      { pose proof (length_write_varint num'). unfold lenN, u64_max, u32_max in *. lia. }
      change (lenN (write_varint MODE_ID_LIST)) with 1. lia.
    + intros i Hh. by destruct (inv_have _ _ _ Hi i Hh).
    + intros Hn'. by rewrite (inv_need _ _ _ Hi Hn') in Hin.
Qed.

Lemma do_range_sat e l st c mode cur cb upper :
  ns_models (store e) l -> inv e l st -> Bound.wf cb -> prev_rank st <= upper -> upper <= lenN l ->
  sat (do_range e st c mode cur cb upper) (good e l st cur upper).
Proof.
  intros Hm Hi Hcb H1 H2. unfold do_range. destruct (mode =? MODE_SKIP).
  - apply good_plain; try done; [apply (inv_have _ _ _ Hi)|apply (inv_need _ _ _ Hi)].
  - destruct (mode =? MODE_FINGERPRINT); [by apply do_fingerprint_sat|].
    destruct (mode =? MODE_ID_LIST); [by apply do_id_list_sat|done].
Qed.

(** ** The loop *)

(** What holds when the loop is left, also after the truncating break. *)
Record final (e : t S) (l : list Item.t) (st : state) : Prop := {
  fin_within : within e 0 (lenN (full st));
  fin_head : exists tl, full st = PROTOCOL_VERSION :: tl;
  fin_have : forall i, i ∈ have st -> is_initiator e = true /\ i ∈ ids l;
  fin_need : need st <> [] -> is_initiator e = true }.

Lemma inv_final e l st : inv e l st -> final e l st.
Proof. intros [? Hw ? ? ? ? ?]. split; try done. eapply within_weaken; [exact Hw|lia]. Qed.

Lemma clamp_range x lo hi : lo <= hi -> lo <= clamp x lo hi <= hi.
Proof. unfold clamp. destruct (N.ltb_spec x lo), (N.ltb_spec hi x); lia. Qed.

Lemma head_app (f tl f' : bytes) : (exists t0, f = PROTOCOL_VERSION :: t0) -> f' = f ++ tl ->
  exists t1, f' = PROTOCOL_VERSION :: t1.
Proof. intros [t0 ->] ->. by eexists. Qed.

Lemma step_sat e l st :
  ns_models (store e) l -> inv e l st ->
  sat (step e (lenN l) st) (fun '(st', continue) =>
    (length (cursor st') < length (cursor st))%nat /\
    (if continue : bool then inv e l st' else final e l st')).
Proof.
  intros Hm Hi. unfold step.
  destruct (BoundCodec.decode (codec st) (cursor st)) as [[[cb c] cur]| |] eqn:Ed;
    [|done|by destruct (BoundFacts.decode_no_panic (codec st) (cursor st))].
  apply BoundFacts.decode_wf in Ed as (Hcb & _ & Hlen). cbn [mbind result_bind].
  destruct (read_varint cur) as [[mode cur']| |] eqn:Ev; [|done|by destruct (read_varint_no_panic cur)].
  apply read_varint_sound in Ev as (_ & pre & -> & _). cbn [mbind result_bind].
  pose proof (inv_rank _ _ _ Hi) as Hr.
  rewrite (ns_lower_bound_spec _ l) by done. cbn [expect mbind result_bind].
  pose proof (clamp_range (rank_of (bound_as_item cb) l) (prev_rank st) (lenN l) Hr) as Hcl.
  eapply sat_bind; [apply (do_range_sat e l); try done; lia|]. intros out Hg.
  destruct (good_full _ _ _ _ _ _ Hg) as [tl Htl].
  assert (Hcur : (length (o_cursor out) < length (cursor st))%nat).
  { pose proof (good_cursor _ _ _ _ _ _ Hg). rewrite length_app in Hlen. unfold lenN in *. lia. }
  pose proof (good_upper _ _ _ _ _ _ Hg) as Hup.
  destruct (exceeds_limit _ _) eqn:Ex.
  - rewrite (ns_fingerprint_spec _ l) by (done || lia). cbn [expect mbind result_bind].
    rewrite encode_wf_pair. cbn [sat cursor]. split; [done|]. split; cbn [full have need].
    + eapply within_weaken; [apply Hg|].
      rewrite !lenN_app, length_encode_infinity, length_fingerprint.
      change (lenN (write_varint MODE_FINGERPRINT)) with 1. lia.
    + eapply head_app; [apply (inv_head _ _ _ Hi)|]. by rewrite Htl, <- app_assoc.
    + apply (good_have _ _ _ _ _ _ Hg).
    + apply (good_need _ _ _ _ _ _ Hg).
  - apply not_exceeds in Ex; [|apply Hi]. cbn [sat cursor]. split; [done|].
    split; cbn [full prev_rank prev_bound have need]; try done.
    + apply (inv_engine _ _ _ Hi).
    + by rewrite lenN_app.
    + lia.
    + eapply head_app; [apply (inv_head _ _ _ Hi)|]. by rewrite Htl, <- app_assoc.
    + apply (good_have _ _ _ _ _ _ Hg).
    + apply (good_need _ _ _ _ _ _ Hg).
Qed.

Lemma run_sat fuel e l st :
  ns_models (store e) l -> inv e l st -> (length (cursor st) <= fuel)%nat ->
  sat (run fuel e (lenN l) st) (final e l).
Proof.
  intros Hm. revert st. induction fuel as [|fuel IH]; intros st Hi Hf; cbn [run].
  - destruct (cursor st); [|cbn in Hf; lia]. by apply inv_final.
  - destruct (cursor st) eqn:Ec; [by apply inv_final|].
    eapply sat_bind; [by apply (step_sat e l)|]. intros [st' [|]] [Hlt Hst']; [|done].
    apply IH; [done|]. rewrite Ec in Hlt. cbn in *. lia.
Qed.

Lemma reconcile_sat e l msg : ns_models (store e) l -> wf_engine e ->
  sat (reconcile e msg) (fun r =>
    (forall i, i ∈ Round.have r -> is_initiator e = true /\ i ∈ ids l) /\
    (Round.need r <> [] -> is_initiator e = true) /\
    match Round.reply r with
    | None => is_initiator e = true
    | Some out => within e 0 (lenN out) /\ exists tl, out = PROTOCOL_VERSION :: tl
    end).
Proof.
  intros Hm He. destruct msg as [|v cur]; [done|]. cbn [reconcile]. destruct (negb _); [done|].
  case_decide.
  - destruct (is_initiator e); [done|]. cbn. split; [set_solver|split; [done|split; [|by eexists]]].
    unfold within, wf_engine, FRAME_LIMIT_FLOOR, lenN in *. cbn.
    destruct (frame_limit e); [lia|done].
  - rewrite (ns_len_spec _ l) by done. cbn [expect mbind result_bind].
    eapply sat_bind; [apply (run_sat _ e l)|]; [done| |done|].
    + split; cbn; try done; try lia; [|by eexists|set_solver].
      unfold within, wf_engine, FRAME_LIMIT_FLOOR, lenN in *. cbn. destruct (frame_limit e); [lia|done].
    + intros st [H1 H2 H3 H4]. cbn. split_and!; try done.
      destruct (is_initiator e && _) eqn:Eb; [|done]. by apply andb_true_iff in Eb as [-> _].
Qed.

(** Opening succeeds, with a bounded message. *)
Lemma initiate_ok e l : ns_models (store e) l -> is_initiator e = false ->
  exists out, initiate e = Ok (mk (store e) (frame_limit e) true, out) /\ lenN out <= 1041.
Proof.
  intros Hm Hin. unfold initiate. rewrite Hin. cbn [store].
  rewrite (ns_len_spec _ l) by done. cbn [expect mbind result_bind].
  assert (Hinf : Bound.wf Bound.infinity) by by apply BoundFacts.wf_from_ts.
  assert (H0 : 0 <= lenN l) by lia.
  pose proof (split_range_sat (store e) l 0 (lenN l) Bound.infinity BoundCodec.new [PROTOCOL_VERSION] Hm Hinf H0) as Hs.
  destruct (split_range _ _ _ _ _ _) as [[c out]|err|] eqn:Es.
  - exists out. split; [done|]. specialize (Hs ltac:(done)). change (lenN [PROTOCOL_VERSION]) with 1 in Hs. cbn in Hs. lia.
  - exfalso. by eapply (split_range_no_err (store e) l 0 (lenN l) Bound.infinity BoundCodec.new [PROTOCOL_VERSION] err Hm Hinf H0).
  - exfalso. by apply Hs.
Qed.

End Facts.
