(* ===== verification/NegExact.v ===== *)
(** * Reconciliation reports the differences

    Two engines running the protocol with each other. When the initiator's
    set is small (an id list is sent), one round trip yields exactly the two
    set differences, whatever the responder holds; when both hold the same
    set, one round trip ends the session with nothing reported, whatever its
    size. *)
From S2P Require Import Prelude Errors Crypto Varint Item IdSum Bound.
From S2P Require Import OrderTree OrderIndex OrderRefine OrderSpec NegStore Negentropy NegFacts.
Open Scope N_scope.
Import Negentropy.

(** ** Parsing what an engine writes *)

Lemma read_ids_concat xs rest order theirs :
  Forall (fun i => length i = ID_SIZE) xs -> NoDup xs -> (forall i, i ∈ xs -> i ∉ theirs) ->
  exists theirs', read_ids (length xs) (concat xs ++ rest) order theirs = Ok (rest, order ++ xs, theirs') /\
    forall i, i ∈ theirs' <-> i ∈ xs \/ i ∈ theirs.
Proof.
  intros Hl. revert order theirs. induction Hl as [|x xs Hx Hl IH]; intros order theirs Hn Hd.
  { exists theirs. cbn. rewrite app_nil_r. split; [done|]. set_solver. }
  apply NoDup_cons in Hn as [Hnx Hn]. cbn [length concat read_ids]. rewrite <- app_assoc.
  rewrite <- Hx, split_at_app. cbn [expect mbind result_bind].
  rewrite decide_False by (apply Hd; by left).
  destruct (IH (order ++ [x]) ({[x]} ∪ theirs) Hn) as (th & E & Hth).
  { intros i Hi. apply not_elem_of_union. split; [|apply Hd; by right].
    intros ->%elem_of_singleton. done. }
  exists th. rewrite E, <- app_assoc. split; [done|]. intros i. rewrite Hth. set_solver.
Qed.

Lemma visit_match_exact theirs hv rank l : NoDup (ids l) ->
  exists theirs', visit match_item (theirs, hv) rank l =
      (theirs', hv ++ List.filter (fun i => bool_decide (i ∉ theirs)) (ids l)) /\
    forall i, i ∈ theirs' <-> i ∈ theirs /\ i ∉ ids l.
Proof.
  revert theirs hv rank. induction l as [|x l IH]; intros theirs hv rank Hn.
  { exists theirs. cbn. rewrite app_nil_r. split; [done|]. set_solver. }
  cbn [ids map] in Hn. fold (ids l) in Hn. apply NoDup_cons in Hn as [Hx Hn].
  cbn [visit match_item ids map List.filter]. fold (ids l). destruct (decide (Item.id x ∈ theirs)) as [Hin|Hout].
  - destruct (IH (theirs ∖ {[Item.id x]}) hv (rank + 1) Hn) as (th & E & Hth). exists th.
    rewrite E, bool_decide_eq_false_2 by tauto. split.
    + do 2 f_equal. apply List.filter_ext_in. intros i Hi. apply bool_decide_ext.
      apply list_elem_of_In in Hi. set_solver.
    + intros i. rewrite Hth. set_solver.
  - destruct (IH theirs (hv ++ [Item.id x]) (rank + 1) Hn) as (th & E & Hth). exists th.
    rewrite E, bool_decide_eq_true_2, <- app_assoc by done. split; [done|].
    intros i. rewrite Hth. set_solver.
Qed.

Lemma decode_infinity rest :
  BoundCodec.decode BoundCodec.new ((BoundCodec.encode BoundCodec.new Bound.infinity).2 ++ rest) =
    Ok (Bound.infinity, BoundCodec.mk TS_INFINITY 0, rest).
Proof.
  apply (BoundFacts.decode_encode BoundCodec.new BoundCodec.new Bound.infinity rest); [|done|done].
  by apply BoundFacts.wf_from_ts.
Qed.

Lemma rank_infinity l : Forall Item.wf l -> (forall x, x ∈ l -> Item.sort_key x < u64_max) ->
  rank_of (bound_as_item Bound.infinity) l = lenN l.
Proof.
  intros Hw Hk. apply rank_of_all. intros x Hx. unfold Item.lt, Item.cmp. cbn.
  specialize (Hk x Hx). unfold TS_INFINITY. by rewrite (proj2 (N.compare_lt_iff _ _) Hk).
Qed.

Lemma ranks_all l : ranks 0 (lenN l) l = l.
Proof. unfold ranks, lenN. cbn. rewrite N.sub_0_r, Nat2N.id. apply take_ge. done. Qed.

Lemma clamp_top n : clamp n 0 n = n.
Proof. unfold clamp. destruct (N.ltb_spec n 0); [lia|]. by rewrite N.ltb_irrefl. Qed.

(** An id-list message covering everything. *)
Definition id_list_message (l : list Item.t) : bytes :=
  (BoundCodec.encode BoundCodec.new Bound.infinity).2 ++
  write_varint MODE_ID_LIST ++ write_varint (lenN l) ++ concat (ids l).

(** The items an engine may hold: stored sort keys are below 2^64 - 1 and an
    id has one sort key. *)
Definition proper (l : list Item.t) : Prop :=
  NoDup (ids l) /\ forall x, x ∈ l -> Item.sort_key x < u64_max.

Section Exact.
Context {crypto : Crypto} {S : Type} `{!NegentropyStore S}.

Lemma initiate_small s lim l : ns_models s l -> lenN l < 32 ->
  initiate (mk s lim false) = Ok (mk s lim true, PROTOCOL_VERSION :: id_list_message l).
Proof.
  intros Hm Hl. unfold initiate. cbn [is_initiator store frame_limit].
  rewrite (ns_len_spec s l Hm). cbn [expect mbind result_bind]. unfold split_range.
  rewrite (proj2 (N.ltb_ge _ 0)) by lia. rewrite N.sub_0_r. unfold ID_LIST_THRESHOLD.
  rewrite (proj2 (N.ltb_lt _ 32)) by done. rewrite encode_wf_pair.
  rewrite (ns_for_each_spec s l) by (done || lia). cbn [expect mbind result_bind].
  rewrite visit_list_ids, ranks_all. unfold id_list_message. by rewrite <- !app_assoc.
Qed.

(** The whole answer of a responder with the items [l] fits its limit. *)
Definition fits (e : Negentropy.t S) (l : list Item.t) : Prop := within e 214 (32 * lenN l).

Lemma visit_list_exact (e : Negentropy.t S) full_len l ids0 num eb up rank :
  wf_engine e -> Forall Item.wf l -> within e 200 (full_len + lenN ids0 + 32 * lenN l) ->
  visit (list_item (frame_limit e) full_len) (ids0, num, eb, up) rank l =
    (ids0 ++ concat (ids l), num + lenN l, eb, up).
Proof.
  intros He Hw. revert ids0 num rank. induction Hw as [|x l [Hx Hk] Hw IH]; intros ids0 num rank Hin.
  - cbn. by rewrite app_nil_r, N.add_0_r.
  - rewrite lenN_cons in *. cbn [visit list_item].
    rewrite (proj2 (not_exceeds e _ He)) by (eapply within_weaken; [exact Hin|lia]).
    rewrite IH.
    + cbn [ids map concat]. rewrite <- app_assoc. do 3 f_equal. lia.
    + eapply within_weaken; [exact Hin|]. rewrite lenN_app. unfold lenN at 2. rewrite Hx. unfold ID_SIZE. lia.
Qed.

(** Parsing an id-list message up to its ids. *)
Lemma read_mode rest : read_varint (write_varint MODE_ID_LIST ++ rest) = Ok (MODE_ID_LIST, rest).
Proof. by apply read_write_varint. Qed.

Lemma read_their_ids l theirs_l : Forall Item.wf l -> NoDup (ids l) -> theirs_l = concat (ids l) ->
  (lenN theirs_l / N.of_nat ID_SIZE <? lenN l) = false /\
  exists theirs, read_ids (N.to_nat (lenN l)) theirs_l [] ∅ = Ok ([], ids l, theirs) /\
    forall i, i ∈ theirs <-> i ∈ ids l.
Proof.
  intros Hw Hn ->. split.
  - apply N.ltb_ge. rewrite length_concat_ids by done. unfold ID_SIZE. change (N.of_nat 32) with 32. lia.
  - destruct (read_ids_concat (ids l) [] [] ∅ (wf_ids l Hw) Hn) as (th & E & Hth); [set_solver|].
    rewrite app_nil_r in E. unfold lenN. rewrite Nat2N.id. unfold ids in E at 1. rewrite length_map in E.
    exists th. split; [done|]. set_solver.
Qed.

(** One range with an id list, read by a responder whose answer fits and by
    the initiator. *)
Lemma step_id_list e l l1 st :
  ns_models (store e) l -> proper l -> Forall Item.wf l1 -> NoDup (ids l1) -> lenN l1 <= u32_max ->
  fits e l \/ is_initiator e = true -> wf_engine e ->
  st = St (id_list_message l1) [PROTOCOL_VERSION] BoundCodec.new 0 (Bound.from_ts 0) false [] [] ->
  exists st', step e (lenN l) st = Ok (st', true) /\ cursor st' = [] /\
    full st' = (if is_initiator e then [PROTOCOL_VERSION] else PROTOCOL_VERSION :: id_list_message l) /\
    have st' = (if is_initiator e then List.filter (fun i => bool_decide (i ∉ ids l1)) (ids l) else []) /\
    need st' = (if is_initiator e then List.filter (fun i => bool_decide (i ∉ ids l)) (ids l1) else []).
Proof.
  intros Hm [Hn Hk] Hw1 Hn1 Hl1 Hlim He Hst. destruct (ns_models_sorted _ l Hm) as (_ & Hw & Hmax).
  destruct (read_their_ids l1 _ Hw1 Hn1 eq_refl) as (Hlen & theirs & Hread & Hth).
  assert (Hcur : cursor st = (BoundCodec.encode BoundCodec.new Bound.infinity).2 ++
            write_varint MODE_ID_LIST ++ write_varint (lenN l1) ++ concat (ids l1)) by by rewrite Hst.
  assert (Hcod : codec st = BoundCodec.new) by by rewrite Hst.
  unfold step. rewrite Hcod, Hcur, decode_infinity. cbn [mbind result_bind]. clear Hcur Hcod.
  rewrite read_mode. cbn [mbind result_bind]. subst st. cbn [prev_rank prev_bound]. rewrite (ns_lower_bound_spec _ l) by (done || lia).
  cbn [expect mbind result_bind]. rewrite rank_infinity, clamp_top by done.
  unfold do_range. change (MODE_ID_LIST =? MODE_SKIP) with false. change (MODE_ID_LIST =? MODE_FINGERPRINT) with false.
  rewrite N.eqb_refl. unfold do_id_list. cbn [codec cursor full prev_rank prev_bound skip have need].
  rewrite read_write_varint by (unfold u32_max, u64_max in *; lia). cbn [mbind result_bind].
  rewrite Hlen, Hread. cbn [mbind result_bind].
  destruct (is_initiator e) eqn:Hin.
  - rewrite (ns_for_each_spec _ l), ranks_all by (done || lia). cbn [expect mbind result_bind].
    destruct (visit_match_exact theirs [] 0 l Hn) as (th & -> & Hth'). cbn [mbind result_bind].
    cbn [o_full o o_cursor o_codec o_skip o_upper o_have o_need].
    rewrite (proj2 (not_exceeds e _ He)).
    + eexists. split; [done|]. cbn [cursor full have need app]. split_and!; [done|done| |].
      * apply List.filter_ext_in. intros i _. apply bool_decide_ext. by rewrite Hth.
      * apply List.filter_ext_in. intros i Hi. apply bool_decide_ext. apply list_elem_of_In in Hi.
        rewrite Hth', Hth. tauto.
    + unfold within, wf_engine, FRAME_LIMIT_FLOOR, lenN in *. cbn. destruct (frame_limit e); [lia|done].
  - destruct Hlim as [Hlim|]; [|done]. cbn [flush_skip].
    rewrite (ns_for_each_spec _ l), ranks_all by (done || lia). cbn [expect mbind result_bind].
    rewrite visit_list_exact; [|done|done|].
    2: { eapply within_weaken; [exact Hlim|]. cbn. unfold lenN; cbn. lia. }
    cbn [mbind result_bind]. rewrite encode_wf_pair.
    cbn [app mbind result_bind o_full o o_cursor o_codec o_skip o_upper o_have o_need].
    rewrite (proj2 (not_exceeds e _ He)).
    2: { eapply within_weaken; [exact Hlim|]. rewrite lenN_cons, !lenN_app, length_encode_infinity, length_concat_ids by done.
         change (lenN (write_varint MODE_ID_LIST)) with 1. change (@lenN byte []) with 0.
         pose proof (length_write_varint (0 + lenN l)). unfold lenN, u32_max, u64_max in *. lia. }
    eexists. split; [done|]. cbn [cursor full have need app]. split_and!; [done| |done|done].
    by rewrite app_nil_r, N.add_0_l.
Qed.

Lemma reconcile_id_list e l l1 :
  ns_models (store e) l -> proper l -> Forall Item.wf l1 -> NoDup (ids l1) -> lenN l1 <= u32_max ->
  fits e l \/ is_initiator e = true -> wf_engine e ->
  reconcile e (PROTOCOL_VERSION :: id_list_message l1) =
    Ok (if is_initiator e then
          Round.mk None (List.filter (fun i => bool_decide (i ∉ ids l1)) (ids l))
            (List.filter (fun i => bool_decide (i ∉ ids l)) (ids l1))
        else Round.mk (Some (PROTOCOL_VERSION :: id_list_message l)) [] []).
Proof.
  intros Hm Hp Hw1 Hn1 Hl1 Hlim He.
  destruct (step_id_list e l l1 _ Hm Hp Hw1 Hn1 Hl1 Hlim He eq_refl) as (st & E & Hc & Hf & Hh & Hnd).
  cbn [reconcile]. change (negb _) with false. cbn match. rewrite decide_False by tauto.
  rewrite (ns_len_spec _ l Hm). cbn [expect mbind result_bind].
  assert (Hrun : forall fuel, (0 < fuel)%nat -> run fuel e (lenN l)
            (St (id_list_message l1) [PROTOCOL_VERSION] BoundCodec.new 0 (Bound.from_ts 0) false [] []) = Ok st).
  { intros [|fuel]; [lia|]. intros _. cbn [run]. rewrite E. cbn [cursor mbind result_bind].
    destruct (id_list_message l1) eqn:Em; [by destruct (app_cons_not_nil _ _ _ (eq_sym Em))|].
    destruct fuel; cbn [run]; by rewrite Hc. }
  rewrite Hrun by (unfold id_list_message; rewrite length_app; cbn; lia). cbn [mbind result_bind].
  rewrite Hf, Hh, Hnd. by destruct (is_initiator e).
Qed.

(** The ids of [l1] that [l2] lacks, in order. *)
Definition only_in (l1 l2 : list Item.t) : list bytes :=
  List.filter (fun i => bool_decide (i ∉ ids l2)) (ids l1).

Lemma elem_of_only_in i l1 l2 : i ∈ only_in l1 l2 <-> i ∈ ids l1 /\ i ∉ ids l2.
Proof. unfold only_in. by rewrite list_elem_of_In, List.filter_In, <- list_elem_of_In, bool_decide_eq_true. Qed.

Lemma NoDup_only_in l1 l2 : NoDup (ids l1) -> NoDup (only_in l1 l2).
Proof. intros Hn. apply NoDup_ListNoDup, List.NoDup_filter. by apply NoDup_ListNoDup. Qed.

(** ** Equal sets *)

(** One fingerprint range over which both sides agree. *)
Lemma step_same e l st b r rest :
  ns_models (store e) l -> wf_engine e -> Bound.wf b ->
  BoundCodec.last_ts_in (codec st) <= Bound.ts b -> rank_of (bound_as_item b) l = r ->
  prev_rank st <= r -> r <= lenN l -> full st = [PROTOCOL_VERSION] ->
  forall c, BoundCodec.last_ts_out c = BoundCodec.last_ts_in (codec st) ->
  cursor st = (BoundCodec.encode c b).2 ++ write_varint MODE_FINGERPRINT ++
                fingerprint_of (ranks (prev_rank st) r l) ++ rest ->
  exists st', step e (lenN l) st = Ok (st', true) /\ cursor st' = rest /\
    BoundCodec.last_ts_in (codec st') = Bound.ts b /\ prev_rank st' = r /\ full st' = [PROTOCOL_VERSION] /\
    have st' = have st /\ need st' = need st.
Proof.
  intros Hm He Hb Hts Hr H1 H2 Hf c Hc Hcur. unfold step. rewrite Hcur.
  destruct (BoundFacts.decode_encode c (codec st) b
    (write_varint MODE_FINGERPRINT ++ fingerprint_of (ranks (prev_rank st) r l) ++ rest) Hb) as [-> _]; [done|lia|].
  cbn [mbind result_bind]. rewrite read_write_varint by done. cbn [mbind result_bind].
  rewrite (ns_lower_bound_spec _ l), Hr by (done || lia). cbn [expect mbind result_bind].
  assert (Hcl : clamp r (prev_rank st) (lenN l) = r).
  { unfold clamp. destruct (N.ltb_spec r (prev_rank st)), (N.ltb_spec (lenN l) r); lia. }
  rewrite Hcl. unfold do_range. change (MODE_FINGERPRINT =? MODE_SKIP) with false. rewrite N.eqb_refl.
  unfold do_fingerprint.
  assert (H16 : IdSum.FINGERPRINT_SIZE = length (fingerprint_of (ranks (prev_rank st) r l))).
  { pose proof (length_fingerprint (ranks (prev_rank st) r l)) as H. unfold lenN in H.
    unfold IdSum.FINGERPRINT_SIZE. lia. }
  rewrite H16, split_at_app, (ns_fingerprint_spec _ l) by done. cbn [expect mbind result_bind].
  rewrite decide_False by tauto. cbn [mbind result_bind o_full o o_cursor o_codec o_skip o_upper o_have o_need].
  rewrite Hf. rewrite (proj2 (not_exceeds e _ He)).
  - eexists. split; [done|]. done.
  - unfold within, wf_engine, FRAME_LIMIT_FLOOR, lenN in *. cbn. destruct (frame_limit e); [lia|done].
Qed.

Lemma sorted_keys l i j x y : Item.sorted l -> l !! i = Some x -> l !! j = Some y -> (i <= j)%nat ->
  Item.sort_key x <= Item.sort_key y.
Proof.
  intros Hs Hi Hj Hij. destruct (decide (i = j)) as [->|Hne]; [rewrite Hi in Hj; by injection Hj as ->|].
  apply list_elem_of_split_length in Hj as (l1 & l2 & -> & Hl1).
  apply Item.sorted_middle in Hs as (_ & _ & H1 & _). rewrite lookup_app_l in Hi by lia.
  apply list_elem_of_lookup_2, H1 in Hi. unfold Item.lt, Item.cmp in Hi.
  destruct (N.compare_spec (Item.sort_key x) (Item.sort_key y)); [lia|lia|done].
Qed.

Definition idle (st : state) : Prop := full st = [PROTOCOL_VERSION] /\ have st = [] /\ need st = [].

Lemma buckets_same s e l k i curr per extra c out :
  ns_models s l -> ns_models (store e) l -> wf_engine e -> (forall x, x ∈ l -> Item.sort_key x < u64_max) ->
  1 <= per -> i + N.of_nat k = 16 -> extra <= 16 -> curr + N.of_nat k * per + (extra - i) = lenN l ->
  (forall j x, l !! j = Some x -> curr <= N.of_nat j -> BoundCodec.last_ts_out c <= Item.sort_key x) ->
  BoundCodec.last_ts_out c <= u64_max ->
  exists c' bs, split_buckets s k i curr (lenN l) per extra Bound.infinity c out = Ok (c', out ++ bs) /\
    forall st fuel, cursor st = bs -> BoundCodec.last_ts_in (codec st) = BoundCodec.last_ts_out c ->
      prev_rank st = curr -> idle st -> (length bs <= fuel)%nat ->
      exists st', run fuel e (lenN l) st = Ok st' /\ idle st'.
Proof.
  intros Hm Hme He Hk Hper. destruct (ns_models_sorted s l Hm) as (Hs & Hw & _).
  revert i curr c out. induction k as [|k IH]; intros i curr c out Hi Hex Hsum Hts Hmax; cbn [split_buckets].
  { exists c, []. rewrite app_nil_r. split; [done|]. intros st fuel Hc _ _ Hid _. exists st. split; [|done].
    destruct fuel; cbn [run]; by rewrite Hc. }
  set (sz := per + (if i <? extra then 1 else 0)).
  assert (Hsz : curr + sz + N.of_nat k * per + (extra - (i + 1)) = lenN l).
  { unfold sz. destruct (N.ltb_spec i extra); lia. }
  assert (Hpos : 1 <= sz) by (unfold sz; destruct (_ <? _); lia). clearbody sz.
  rewrite (ns_fingerprint_spec s l) by (done || lia). cbn [expect mbind result_bind].
  assert (Hnext : exists b, (if curr + sz =? lenN l then @Ok SyncError.t _ Bound.infinity
      else prev ← expect (ns_item_at s (curr + sz - 1)); next ← expect (ns_item_at s (curr + sz));
           Bound.min_separating (Item.sort_key prev) (Item.id prev) (Item.sort_key next) (Item.id next)) = Ok b /\
      Bound.wf b /\ rank_of (bound_as_item b) l = curr + sz /\ BoundCodec.last_ts_out c <= Bound.ts b /\
      forall j x, l !! j = Some x -> curr + sz <= N.of_nat j -> Bound.ts b <= Item.sort_key x).
  { destruct (N.eqb_spec (curr + sz) (lenN l)) as [Heq|Hne].
    - exists Bound.infinity. rewrite rank_infinity by done. split_and!; try done.
      intros j x Hj%lookup_lt_Some Hlj. unfold lenN in *. lia.
    - destruct (separating_ok l (curr + sz) Hs Hw) as (prev & next & b & Hp & Hn & E & Hb & Hbt & Hr); [lia|lia|].
      exists b. rewrite (ns_item_at_spec s l _ _ Hm Hp), (ns_item_at_spec s l _ _ Hm Hn). cbn [expect mbind result_bind].
      split_and!; try done; rewrite Hbt.
      + eapply Hts; [exact Hn|lia].
      + intros j x Hj Hlj. eapply sorted_keys; [exact Hs|exact Hn|exact Hj|lia]. }
  destruct Hnext as (b & -> & Hb & Hr & Hcb & Hrest). cbn [mbind result_bind]. rewrite encode_wf_pair.
  pose proof (proj2 (BoundFacts.decode_encode c (BoundCodec.mk (BoundCodec.last_ts_out c) 0) b [] Hb eq_refl Hcb)) as Hlast.
  destruct (IH (i + 1) (curr + sz) (BoundCodec.encode c b).1
    (out ++ (BoundCodec.encode c b).2 ++ write_varint MODE_FINGERPRINT ++ fingerprint_of (ranks curr (curr + sz) l)))
    as (c' & bs & E & Hrun); [lia|done|lia|by rewrite Hlast|rewrite Hlast; apply Hb|].
  eexists c', _. rewrite E, <- !app_assoc. split; [done|].
  intros st fuel Hc Hin Hp (Hf & Hh & Hn) Hfuel.
  destruct (step_same e l st b (curr + sz) bs) with (c := c) as (st' & Es & Hc' & Hin' & Hp' & Hf' & Hh' & Hn');
    [done|done|done|by rewrite Hin|done|lia|lia|done|done|by rewrite Hp|].
  assert (Hlen : (length bs < length (cursor st))%nat).
  { rewrite Hc, !length_app. pose proof (length_fingerprint (ranks curr (curr + sz) l)). unfold lenN in *. lia. }
  rewrite <- Hc in Hfuel. destruct fuel as [|fuel]; [lia|]. cbn [run].
  destruct (cursor st) eqn:Ec; [cbn in Hlen; lia|]. rewrite Es. cbn [mbind result_bind].
  apply Hrun; [done|by rewrite Hlast|done|split_and!; congruence|cbn in *; lia].
Qed.

Lemma initiate_large s lim l : ns_models s l -> 32 <= lenN l -> (forall x, x ∈ l -> Item.sort_key x < u64_max) ->
  exists m, initiate (mk s lim false) = Ok (mk s lim true, PROTOCOL_VERSION :: m) /\
    forall e, ns_models (store e) l -> wf_engine e -> is_initiator e = false ->
      reconcile e (PROTOCOL_VERSION :: m) = Ok (Round.mk (Some [PROTOCOL_VERSION]) [] []).
Proof.
  intros Hm Hl Hk. unfold initiate. cbn [is_initiator store frame_limit].
  rewrite (ns_len_spec s l Hm). cbn [expect mbind result_bind]. unfold split_range.
  rewrite (proj2 (N.ltb_ge _ 0)) by lia. rewrite N.sub_0_r. unfold ID_LIST_THRESHOLD.
  rewrite (proj2 (N.ltb_ge _ 32)) by done. unfold BUCKETS. change (N.of_nat 16) with 16.
  assert (Hb : forall e, ns_models (store e) l -> wf_engine e -> exists c' bs,
    split_buckets s 16 0 0 (lenN l) (lenN l / 16) (lenN l mod 16) Bound.infinity BoundCodec.new [PROTOCOL_VERSION] =
      Ok (c', [PROTOCOL_VERSION] ++ bs) /\
    forall st fuel, cursor st = bs -> BoundCodec.last_ts_in (codec st) = BoundCodec.last_ts_out BoundCodec.new ->
      prev_rank st = 0 -> idle st -> (length bs <= fuel)%nat ->
      exists st', run fuel e (lenN l) st = Ok st' /\ idle st').
  { intros e Hme He. apply buckets_same; try done; cbn -[N.div N.modulo]; lia. }
  destruct (Hb (mk s None false) Hm I) as (c' & bs & E & _). rewrite E. cbn [mbind result_bind].
  exists bs. split; [done|]. intros e Hme He Hin.
  destruct (Hb e Hme He) as (c'' & bs' & E' & Hrun). rewrite E in E'. injection E' as _ <-.
  cbn [reconcile]. change (negb _) with false. cbn match. rewrite decide_False by tauto.
  rewrite (ns_len_spec _ l Hme). cbn [expect mbind result_bind].
  destruct (Hrun (St bs [PROTOCOL_VERSION] BoundCodec.new 0 (Bound.from_ts 0) false [] []) (length bs))
    as (st' & -> & Hf & Hh & Hn); [done|done|done|done|done|].
  cbn [mbind result_bind]. by rewrite Hin, Hf, Hh, Hn.
Qed.

(** An initiator fed the bare version byte is done. *)
Lemma reconcile_done e l : ns_models (store e) l -> is_initiator e = true ->
  reconcile e [PROTOCOL_VERSION] = Ok (Round.mk None [] []).
Proof.
  intros Hm Hin. cbn [reconcile]. change (negb _) with false. cbn match. rewrite decide_False by tauto.
  rewrite (ns_len_spec _ l Hm). cbn. by rewrite Hin.
Qed.

(** ** Properties *)

(** C16: the engine is total. Over a store that presents a sorted list,
    processing an arbitrary byte string never panics and always returns (a
    round or an error); [initiate] succeeds exactly once. A responder learns
    no ids and always replies; the ids reported as [have] are ids of own
    items; a reply begins with the version byte and respects the frame
    limit, and the opening message stays below 1 041 bytes. *)
Theorem negentropy_total e l : ns_models (store e) l -> wf_engine e ->
  (forall msg, reconcile e msg <> Panic /\
     forall r, reconcile e msg = Ok r ->
       (forall i, i ∈ Round.have r -> i ∈ ids l) /\
       (is_initiator e = false -> Round.have r = [] /\ Round.need r = [] /\ Round.reply r <> None) /\
       (forall out, Round.reply r = Some out -> (exists tl, out = PROTOCOL_VERSION :: tl) /\
          forall lim, frame_limit e = Some lim -> lenN out <= lim)) /\
  (if is_initiator e then initiate e = Err SyncError.AlreadyInitiated
   else exists e' out, initiate e = Ok (e', out) /\ is_initiator e' = true /\ lenN out <= 1041).
Proof.
  intros Hm He. split.
  - intros msg. pose proof (reconcile_sat e l msg Hm He) as Hs. split; [by eapply sat_no_panic|].
    intros r Hr. rewrite Hr in Hs. destruct Hs as (Hh & Hn & Hrep). split_and!.
    + intros i Hi. by apply Hh.
    + intros Hin. rewrite Hin in *. split_and!.
      * destruct (Round.have r) as [|i hv]; [done|]. by destruct (Hh i (list_elem_of_here _ _)).
      * destruct (Round.need r) as [|i nd]; [done|]. by specialize (Hn ltac:(done)).
      * intros Hnone. by rewrite Hnone in Hrep.
    + intros out Hout. rewrite Hout in Hrep. destruct Hrep as [Hwi Hhd]. split; [done|].
      intros lim Hlim. unfold within in Hwi. rewrite Hlim in Hwi. lia.
  - destruct (is_initiator e) eqn:Hin; [unfold initiate; by rewrite Hin|].
    destruct (initiate_ok e l Hm Hin) as (out & E & Hl). by do 2 eexists.
Qed.

(** Exact differences. An initiator with fewer than 32 items and a
    responder with any set whose ids fit one message (121 items at the
    default frame limit): one round trip ends the session, with [have] the
    ids only the initiator holds and [need] the ids only the responder holds,
    without repetition. *)
Theorem negentropy_exact_small s1 s2 l1 l2 lim1 lim2 :
  ns_models s1 l1 -> ns_models s2 l2 -> proper l1 -> proper l2 -> lenN l1 < 32 ->
  wf_engine (mk s1 lim1 true) -> wf_engine (mk s2 lim2 false) -> fits (mk s2 lim2 false) l2 ->
  exists e1 m1 m2 hv nd, initiate (mk s1 lim1 false) = Ok (e1, m1) /\
    reconcile (mk s2 lim2 false) m1 = Ok (Round.mk (Some m2) [] []) /\
    reconcile e1 m2 = Ok (Round.mk None hv nd) /\
    NoDup hv /\ NoDup nd /\
    (forall i, i ∈ hv <-> i ∈ ids l1 /\ i ∉ ids l2) /\
    (forall i, i ∈ nd <-> i ∈ ids l2 /\ i ∉ ids l1).
Proof.
  intros Hm1 Hm2 Hp1 Hp2 Hl1 He1 He2 Hfits.
  destruct (ns_models_sorted s1 l1 Hm1) as (_ & Hw1 & Hb1), (ns_models_sorted s2 l2 Hm2) as (_ & Hw2 & Hb2).
  pose proof (proj1 Hp1) as Hn1. pose proof (proj1 Hp2) as Hn2.
  exists (mk s1 lim1 true), (PROTOCOL_VERSION :: id_list_message l1), (PROTOCOL_VERSION :: id_list_message l2).
  exists (only_in l1 l2), (only_in l2 l1). split; [by apply initiate_small|].
  split; [by rewrite (reconcile_id_list (mk s2 lim2 false) l2 l1) by (try done; by left)|].
  split; [by rewrite (reconcile_id_list (mk s1 lim1 true) l1 l2) by (try done; by right)|].
  split_and!; [by apply NoDup_only_in|by apply NoDup_only_in|..]; intros i; apply elem_of_only_in.
Qed.

(** Equal sets converge. When both sides hold the same set, of any size
    and under any frame limit on the initiator, one round trip ends the
    session with nothing to send and nothing to fetch; from 32 items on the
    reply is the bare version byte. *)
Theorem negentropy_equal_sets s1 s2 l lim :
  ns_models s1 l -> ns_models s2 l -> proper l ->
  match lim with Some n => FRAME_LIMIT_FLOOR <= n | None => True end ->
  exists e1 m1 m2, initiate (mk s1 lim false) = Ok (e1, m1) /\
    reconcile (mk s2 None false) m1 = Ok (Round.mk (Some m2) [] []) /\
    reconcile e1 m2 = Ok (Round.mk None [] []) /\
    (32 <= lenN l -> m2 = [PROTOCOL_VERSION]).
Proof.
  intros Hm1 Hm2 Hp Hlim.
  destruct (ns_models_sorted s1 l Hm1) as (_ & Hw & Hb). pose proof (proj1 Hp) as Hn.
  destruct (N.lt_ge_cases (lenN l) 32) as [Hl|Hl].
  - exists (mk s1 lim true), (PROTOCOL_VERSION :: id_list_message l), (PROTOCOL_VERSION :: id_list_message l).
    split; [by apply initiate_small|].
    split; [by rewrite (reconcile_id_list (mk s2 None false) l l) by (try done; by left)|].
    split; [|lia]. rewrite (reconcile_id_list (mk s1 lim true) l l) by (try done; by right). cbn [is_initiator].
    assert (Hnil : only_in l l = []); [|unfold only_in in Hnil; by rewrite Hnil].
    apply elem_of_nil_inv. intros i. rewrite elem_of_only_in. tauto.
  - destruct (initiate_large s1 lim l Hm1 Hl (proj2 Hp)) as (m & E & Hrec).
    exists (mk s1 lim true), (PROTOCOL_VERSION :: m), [PROTOCOL_VERSION]. split_and!; try done.
    + by apply Hrec.
    + by apply (reconcile_done _ l).
Qed.

End Exact.

(** ** Concrete instances *)

Definition items_from (ks : list N) : list Item.t :=
  map (fun k => Item.mk k (replicate 32 (byte_of k))) ks.

Definition sample_a : SealedVec.t := SealedVec.new (items_from [1; 2; 3; 4; 5]).
Definition sample_b : SealedVec.t := SealedVec.new (items_from [9; 2; 4; 7]).
Definition sample_big : SealedVec.t := SealedVec.new (items_from (map N.of_nat (seq 1 40))).

Lemma sealed_sample ks : Forall (fun k => k < u64_max) ks -> lenN ks <= u32_max ->
  sealed_models (SealedVec.new (items_from ks)) (SealedVec.items (SealedVec.new (items_from ks))).
Proof.
  intros Hk Hl. destruct (sealed_new_models (items_from ks)) as (l' & Hm & _).
  - apply Forall_map. eapply Forall_impl; [exact Hk|]. intros k Hlt. split; [done|]. by apply N.lt_le_incl.
  - unfold items_from, lenN in *. by rewrite length_map.
  - pose proof Hm as (He & _). by rewrite He.
Qed.

Lemma sample_a_models : ns_models (crypto := toy_crypto) sample_a (SealedVec.items sample_a).
Proof. apply sealed_sample; [repeat constructor|vm_compute; discriminate]. Qed.
Lemma sample_b_models : ns_models (crypto := toy_crypto) sample_b (SealedVec.items sample_b).
Proof. apply sealed_sample; [repeat constructor|vm_compute; discriminate]. Qed.
Lemma sample_big_models : ns_models (crypto := toy_crypto) sample_big (SealedVec.items sample_big).
Proof. apply sealed_sample; [repeat constructor|vm_compute; discriminate]. Qed.

(** [proper] on a concrete list. *)
Definition proper_b (l : list Item.t) : bool :=
  bool_decide (NoDup (ids l)) && forallb (fun x => Item.sort_key x <? u64_max) l.

Lemma proper_b_spec l : proper_b l = true -> proper l.
Proof.
  unfold proper_b. intros [Hn Hk]%andb_true_iff. split; [by apply bool_decide_eq_true in Hn|].
  intros x Hx. apply list_elem_of_In in Hx. rewrite forallb_forall in Hk. by apply N.ltb_lt, Hk.
Qed.

Lemma negentropy_total_witness :
  Negentropy.reconcile (Negentropy.mk sample_a (Some 4096) false) [byte_of 97; byte_of 7; byte_of 200] <> Panic /\
  exists e' out, Negentropy.initiate (Negentropy.mk sample_a (Some 4096) false) = Ok (e', out) /\ lenN out <= 1041.
Proof.
  assert (He : wf_engine (Negentropy.mk sample_a (Some 4096) false)) by (vm_compute; discriminate).
  destruct (negentropy_total (crypto := toy_crypto) (Negentropy.mk sample_a (Some 4096) false)
    (SealedVec.items sample_a) sample_a_models He) as [H1 H2].
  split; [apply H1|]. destruct H2 as (e' & out & E & _ & Hl). exists e', out. split; [exact E|exact Hl].
Defined.

Lemma negentropy_exact_small_witness :
  exists e1 m1 m2 hv nd, Negentropy.initiate (Negentropy.mk sample_a (Some 4096) false) = Ok (e1, m1) /\
    Negentropy.reconcile (Negentropy.mk sample_b (Some 4096) false) m1 = Ok (Round.mk (Some m2) [] []) /\
    Negentropy.reconcile e1 m2 = Ok (Round.mk None hv nd) /\
    (forall i, i ∈ nd <-> i ∈ ids (SealedVec.items sample_b) /\ i ∉ ids (SealedVec.items sample_a)).
Proof.
  destruct (negentropy_exact_small (crypto := toy_crypto) sample_a sample_b _ _ (Some 4096) (Some 4096)
    sample_a_models sample_b_models) as (e1 & m1 & m2 & hv & nd & E1 & E2 & E3 & _ & _ & _ & Hnd).
  - apply proper_b_spec. vm_compute. reflexivity.
  - apply proper_b_spec. vm_compute. reflexivity.
  - vm_compute. reflexivity.
  - vm_compute. discriminate.
  - vm_compute. discriminate.
  - vm_compute. discriminate.
  - exists e1, m1, m2, hv, nd. split; [exact E1|]. split; [exact E2|]. split; [exact E3|exact Hnd].
Defined.

Lemma negentropy_equal_sets_witness :
  exists e1 m1 m2, Negentropy.initiate (Negentropy.mk sample_big (Some 4096) false) = Ok (e1, m1) /\
    Negentropy.reconcile (Negentropy.mk sample_big None false) m1 = Ok (Round.mk (Some m2) [] []) /\
    m2 = [PROTOCOL_VERSION].
Proof.
  destruct (negentropy_equal_sets (crypto := toy_crypto) sample_big sample_big _ (Some 4096) sample_big_models sample_big_models)
    as (e1 & m1 & m2 & E1 & E2 & _ & Hlen).
  - apply proper_b_spec. vm_compute. reflexivity.
  - vm_compute. discriminate.
  - exists e1, m1, m2. split; [exact E1|]. split; [exact E2|]. apply Hlen. vm_compute. discriminate.
Defined.
