(* ===== verification/NegRanges.v ===== *)
(** * Messages as lists of ranges

    The abstract side of sync/negentropy/mod.rs: a message body is a list of
    ranges, each an upper bound with a skip, a fingerprint or an id list.
    [enc] writes such a list the way the engine does; [split] and [answer]
    are reference definitions of [split_range] and of the loop of
    [reconcile] on ranges, and the concrete functions are proved to compute
    them as long as the frame limit is not reached. *)
From S2P Require Import Prelude Errors Crypto Varint Item IdSum Bound.
From S2P Require Import OrderTree OrderIndex OrderRefine OrderSpec NegStore Negentropy NegFacts NegExact.
Open Scope N_scope.
Import Negentropy.

(** ** Bounds in the order of items *)

Definition ble (a b : Bound.t) : Prop := Item.le (bound_as_item a) (bound_as_item b).

(** The items [a <= x < b]. *)
Definition inside (a b : Bound.t) (x : Item.t) : Prop :=
  ~ Item.lt x (bound_as_item a) /\ Item.lt x (bound_as_item b).

Definition rank (b : Bound.t) (l : list Item.t) : N := rank_of (bound_as_item b) l.

(** The part of a sorted list between two bounds. *)
Definition seg (a b : Bound.t) (l : list Item.t) : list Item.t := ranks (rank a l) (rank b l) l.

#[export] Instance ble_refl : Reflexive ble.
Proof. intros a. apply Item.lt_irrefl. Qed.

Lemma item_le_trans a b c : Item.le a b -> Item.le b c -> Item.le a c.
Proof. intros Hab Hbc Hca. apply Hbc. eapply Item.lt_le_trans; [exact Hca|exact Hab]. Qed.

#[export] Instance ble_trans : Transitive ble.
Proof. intros a b c. apply item_le_trans. Qed.

Lemma ble_ts a b : ble a b -> Bound.ts a <= Bound.ts b.
Proof.
  unfold ble, Item.le, Item.lt, Item.cmp. cbn. intros H.
  destruct (N.compare_spec (Bound.ts b) (Bound.ts a)); try lia. by destruct H.
Qed.

Lemma rank_le a l : rank a l <= lenN l.
Proof. apply rank_of_le. Qed.

Lemma rank_mono a b l : ble a b -> rank a l <= rank b l.
Proof.
  intros Hab. unfold rank, rank_of, lenN. induction l as [|x l IH]; [done|]. cbn [List.filter].
  destruct (Item.ltb x (bound_as_item a)) eqn:E.
  - apply Item.ltb_lt in E. assert (Item.lt x (bound_as_item b)) as ->%Item.ltb_lt.
    { by eapply Item.lt_le_trans. }
    cbn [length]. lia.
  - destruct (Item.ltb x (bound_as_item b)); cbn [length]; lia.
Qed.

Lemma rank_lt_ble a b l : rank a l < rank b l -> ble a b.
Proof.
  intros Hr Hba. assert (ble b a) as Hle%(rank_mono _ _ l); [|lia].
  intros Hab. eapply Item.lt_irrefl, Item.lt_trans; eauto.
Qed.

Lemma elem_of_seg x a b l : Item.sorted l -> x ∈ seg a b l <-> x ∈ l /\ inside a b x.
Proof.
  intros Hs. unfold seg, inside, rank. rewrite elem_of_ranks, list_elem_of_lookup. split.
  - intros (i & Hi & Hlo & Hhi). split; [by exists i|].
    rewrite <- (rank_of_prefix _ l i x Hs Hi) at 1. rewrite <- (rank_of_prefix _ l i x Hs Hi). lia.
  - intros ((i & Hi) & Hlo & Hhi). exists i. split; [done|].
    rewrite <- (rank_of_prefix _ l i x Hs Hi) in Hlo. rewrite <- (rank_of_prefix _ l i x Hs Hi) in Hhi. lia.
Qed.

Lemma lenN_seg a b l : ble a b -> lenN (seg a b l) = rank b l - rank a l.
Proof. intros H. apply lenN_ranks; [by apply rank_mono|apply rank_le]. Qed.

Lemma inside_mono a a' b' b x : ble a a' -> ble b' b -> inside a' b' x -> inside a b x.
Proof.
  intros Ha Hb [H1 H2]. split; [|by eapply Item.lt_le_trans].
  intros Hx. apply H1. by eapply Item.lt_le_trans.
Qed.

Lemma seg_mono a a' b' b l : ble a a' -> ble a' b' -> ble b' b -> lenN (seg a' b' l) <= lenN (seg a b l).
Proof.
  intros H1 H2 H3. assert (ble a b) by (etransitivity; [done|]; by etransitivity).
  rewrite !lenN_seg by done.
  pose proof (rank_mono _ _ l H1). pose proof (rank_mono _ _ l H2). pose proof (rank_mono _ _ l H3). lia.
Qed.

(** ** Ranges *)

Inductive body : Type :=
  | Skip
  | Fp (fp : bytes)
  | Ids (xs : list bytes).

Notation range := (Bound.t * body)%type.

(** The bound a list of ranges ends at, and every range with its two
    bounds. *)
Fixpoint last_bound (p : Bound.t) (rs : list range) : Bound.t :=
  match rs with [] => p | (b, _) :: rs => last_bound b rs end.

Fixpoint spans (p : Bound.t) (rs : list range) : list (Bound.t * Bound.t * body) :=
  match rs with [] => [] | (b, y) :: rs => (p, b, y) :: spans b rs end.

Lemma last_bound_app p rs rs' : last_bound p (rs ++ rs') = last_bound (last_bound p rs) rs'.
Proof. revert p. induction rs as [|[b y] rs IH]; intros p; [done|]. apply IH. Qed.

Lemma spans_app p rs rs' : spans p (rs ++ rs') = spans p rs ++ spans (last_bound p rs) rs'.
Proof. revert p. induction rs as [|[b y] rs IH]; intros p; [done|]. cbn. by rewrite IH. Qed.

(** The bounds ascend. *)
Fixpoint ascending (p : Bound.t) (rs : list range) : Prop :=
  match rs with [] => True | (b, _) :: rs => ble p b /\ Bound.wf b /\ ascending b rs end.

Lemma ascending_app p rs rs' :
  ascending p (rs ++ rs') <-> ascending p rs /\ ascending (last_bound p rs) rs'.
Proof. revert p. induction rs as [|[b y] rs IH]; intros p; cbn; [tauto|]. rewrite IH. tauto. Qed.

Lemma ascending_last p rs : ascending p rs -> ble p (last_bound p rs).
Proof.
  revert p. induction rs as [|[b y] rs IH]; intros p; cbn; [done|]. intros (H1 & _ & H2).
  etransitivity; [exact H1|by apply IH].
Qed.

Lemma ascending_spans p rs a b y : ascending p rs -> (a, b, y) ∈ spans p rs ->
  ble p a /\ ble a b /\ Bound.wf b /\ ble b (last_bound p rs).
Proof.
  revert p. induction rs as [|[c z] rs IH]; intros p; cbn [ascending spans last_bound].
  { intros _ H. by apply not_elem_of_nil in H. }
  intros (H1 & H2 & H3) [[= -> -> ->]|Hin]%elem_of_cons.
  - split_and!; [done|done|done|by apply ascending_last].
  - destruct (IH c H3 Hin) as (Ha & Hb & Hw & Hl). split_and!; try done. by etransitivity.
Qed.

(** A range a message starts later does not touch an earlier one. *)
Lemma ascending_inside p rs a b y x : ascending p rs -> (a, b, y) ∈ spans p rs -> inside a b x ->
  ~ Item.lt x (bound_as_item p) /\ Item.lt x (bound_as_item (last_bound p rs)).
Proof.
  intros Ha Hin [H1 H2]. destruct (ascending_spans _ _ _ _ _ Ha Hin) as (Hp & _ & _ & Hl). split.
  - intros Hx. apply H1. by eapply Item.lt_le_trans.
  - by eapply Item.lt_le_trans.
Qed.

(** An item is inside one range only. *)
Lemma span_unique p rs a b y a' b' y' x : ascending p rs ->
  (a, b, y) ∈ spans p rs -> (a', b', y') ∈ spans p rs -> inside a b x -> inside a' b' x ->
  (a, b, y) = (a', b', y').
Proof.
  revert p. induction rs as [|[c z] rs IH]; intros p Hasc; cbn [spans].
  { intros H. by apply not_elem_of_nil in H. }
  destruct Hasc as (_ & _ & Hasc).
  intros [E|Hin]%elem_of_cons [E'|Hin']%elem_of_cons Hx Hx'.
  - congruence.
  - injection E as -> -> ->. destruct (ascending_inside _ _ _ _ _ _ Hasc Hin' Hx') as [H _].
    by destruct H; apply Hx.
  - injection E' as -> -> ->. destruct (ascending_inside _ _ _ _ _ _ Hasc Hin Hx) as [H _].
    by destruct H; apply Hx'.
  - by eapply IH.
Qed.

(** The items of the ranges, taken in order, form a sublist. *)
Lemma ranks_app lo mid hi l : lo <= mid -> mid <= hi -> ranks lo hi l = ranks lo mid l ++ ranks mid hi l.
Proof.
  intros H1 H2. unfold ranks.
  rewrite <- (take_drop (N.to_nat (mid - lo)) (take (N.to_nat (hi - lo)) (drop (N.to_nat lo) l))).
  rewrite take_take. f_equal; [f_equal; lia|].
  rewrite skipn_firstn_comm, drop_drop. f_equal; [lia|f_equal; lia].
Qed.

Lemma seg_app a b c l : ble a b -> ble b c -> seg a c l = seg a b l ++ seg b c l.
Proof. intros H1 H2. by apply ranks_app; apply rank_mono. Qed.

Definition segs (l : list Item.t) (ss : list (Bound.t * Bound.t * body)) : list Item.t :=
  concat (map (fun '(a, b, _) => seg a b l) ss).

Lemma segs_spans p rs l : ascending p rs -> segs l (spans p rs) = seg p (last_bound p rs) l.
Proof.
  revert p. induction rs as [|[b y] rs IH]; intros p; cbn [ascending spans last_bound].
  - intros _. unfold segs, seg, ranks. cbn. by rewrite N.sub_diag.
  - intros (H1 & _ & H2). unfold segs in *. cbn [map concat]. rewrite IH by done.
    symmetry. apply seg_app; [done|by apply ascending_last].
Qed.

Lemma lenN_ids l : lenN (ids l) = lenN l.
Proof. unfold ids, lenN. by rewrite length_map. Qed.

Lemma seg_sublist a b l : seg a b l `sublist_of` l.
Proof.
  unfold seg, ranks. etransitivity; [apply sublist_take|apply sublist_drop].
Qed.

(** ** Writing ranges *)

Definition enc_body (y : body) : bytes :=
  match y with
  | Skip => write_varint MODE_SKIP
  | Fp fp => write_varint MODE_FINGERPRINT ++ fp
  | Ids xs => write_varint MODE_ID_LIST ++ write_varint (lenN xs) ++ concat xs
  end.

(** [ts] is the running timestamp of the codec. *)
Fixpoint enc (ts : N) (rs : list range) : bytes :=
  match rs with
  | [] => []
  | (b, y) :: rs => (BoundCodec.encode (BoundCodec.mk 0 ts) b).2 ++ enc_body y ++ enc (Bound.ts b) rs
  end.

Fixpoint last_ts (ts : N) (rs : list range) : N :=
  match rs with [] => ts | (b, _) :: rs => last_ts (Bound.ts b) rs end.

Lemma enc_app ts rs rs' : enc ts (rs ++ rs') = enc ts rs ++ enc (last_ts ts rs) rs'.
Proof.
  revert ts. induction rs as [|[b y] rs IH]; intros ts; [done|]. cbn [app enc last_ts].
  by rewrite IH, <- !app_assoc.
Qed.

Lemma last_ts_app ts rs rs' : last_ts ts (rs ++ rs') = last_ts (last_ts ts rs) rs'.
Proof. revert ts. induction rs as [|[b y] rs IH]; intros ts; [done|]. apply IH. Qed.

Lemma last_ts_bound p rs : last_ts (Bound.ts p) rs = Bound.ts (last_bound p rs).
Proof. revert p. induction rs as [|[b y] rs IH]; intros p; [done|]. apply IH. Qed.

(** What encoding a bound depends on and does to the codec. *)
Lemma encode_snd c b : (BoundCodec.encode c b).2 = (BoundCodec.encode (BoundCodec.mk 0 (BoundCodec.last_ts_out c)) b).2.
Proof. unfold BoundCodec.encode. by destruct (Bound.ts b =? TS_INFINITY). Qed.

Lemma encode_fst c b : (BoundCodec.encode c b).1 = BoundCodec.mk (BoundCodec.last_ts_in c) (Bound.ts b).
Proof. unfold BoundCodec.encode. by destruct (N.eqb_spec (Bound.ts b) TS_INFINITY) as [->|]. Qed.

Lemma encode_pair c b : BoundCodec.encode c b =
  (BoundCodec.mk (BoundCodec.last_ts_in c) (Bound.ts b),
   (BoundCodec.encode (BoundCodec.mk 0 (BoundCodec.last_ts_out c)) b).2).
Proof. rewrite encode_wf_pair. by rewrite encode_snd, encode_fst. Qed.

Lemma decode_enc c p b rest : Bound.wf b -> ble p b -> BoundCodec.last_ts_in c = Bound.ts p ->
  BoundCodec.decode c ((BoundCodec.encode (BoundCodec.mk 0 (Bound.ts p)) b).2 ++ rest) =
    Ok (b, BoundCodec.mk (Bound.ts b) (BoundCodec.last_ts_out c), rest).
Proof.
  intros Hb Hp Hc.
  apply (BoundFacts.decode_encode (BoundCodec.mk 0 (Bound.ts p)) c b rest); [done|done|]. by apply ble_ts.
Qed.

(** ** Reference definitions *)

(** The shortest bound between the items at ranks [k - 1] and [k]. *)
Definition cut (l : list Item.t) (k : N) : Bound.t :=
  match l !! N.to_nat (k - 1), l !! N.to_nat k with
  | Some prev, Some next =>
      match Bound.min_separating (E := SyncError.t) (Item.sort_key prev) (Item.id prev)
              (Item.sort_key next) (Item.id next) with
      | Ok b => b
      | Err _ | Panic => Bound.infinity
      end
  | _, _ => Bound.infinity
  end.

Section Reference.
Context {crypto : Crypto}.

Fixpoint buckets (l : list Item.t) (k : nat) (i curr upper per extra : N) (ub : Bound.t) : list range :=
  match k with
  | O => []
  | S k =>
      let next := curr + (per + (if i <? extra then 1 else 0)) in
      (if next =? upper then ub else cut l next, Fp (fingerprint_of (ranks curr next l))) ::
        buckets l k (i + 1) next upper per extra ub
  end.

(** The items from [p] to [b]: below 32 of them their ids, else sixteen
    fingerprints. *)
Definition split (l : list Item.t) (p b : Bound.t) : list range :=
  let n := rank b l - rank p l in
  if n <? ID_LIST_THRESHOLD then [(b, Ids (ids (seg p b l)))]
  else buckets l BUCKETS 0 (rank p l) (rank b l) (n / N.of_nat BUCKETS) (n mod N.of_nat BUCKETS) b.

(** The pending skip. *)
Definition skips (sk : bool) (p : Bound.t) : list range := if sk then [(p, Skip)] else [].

(** The ranges answered to one range read from the bound [p] on with the skip
    flag [sk], and the flag left. *)
Definition answer1 (ini : bool) (l : list Item.t) (p : Bound.t) (sk : bool) (r : range) : list range * bool :=
  match r with
  | (b, Skip) => ([], true)
  | (b, Fp fp) =>
      if decide (fp = fingerprint_of (seg p b l)) then ([], true) else (skips sk p ++ split l p b, false)
  | (b, Ids xs) => if ini then ([], true) else (skips sk p ++ [(b, Ids (ids (seg p b l)))], false)
  end.

(** The whole answer. *)
Fixpoint answer (ini : bool) (l : list Item.t) (p : Bound.t) (sk : bool) (rs : list range) : list range :=
  match rs with
  | [] => []
  | r :: rs => (answer1 ini l p sk r).1 ++ answer ini l r.1 (answer1 ini l p sk r).2 rs
  end.

(** The ids one range with an id list reports. *)
Definition haves (l : list Item.t) (s : Bound.t * Bound.t * body) : list bytes :=
  match s with
  | (a, b, Ids xs) => List.filter (fun i => bool_decide (i ∉ xs)) (ids (seg a b l))
  | _ => []
  end.

Definition needs (l : list Item.t) (s : Bound.t * Bound.t * body) : list bytes :=
  match s with
  | (a, b, Ids xs) => List.filter (fun i => bool_decide (i ∉ ids (seg a b l))) xs
  | _ => []
  end.

(** What the holder of [l] says about its own items. *)
Definition honest (l : list Item.t) (s : Bound.t * Bound.t * body) : Prop :=
  match s with
  | (a, b, Skip) => True
  | (a, b, Fp fp) => fp = fingerprint_of (seg a b l) /\ 2 <= lenN (seg a b l)
  | (a, b, Ids xs) => xs = ids (seg a b l)
  end.

(** ** The concrete loop computes them *)

Context {S : Type} `{!NegentropyStore S}.

Lemma cut_spec s l k : ns_models s l -> 0 < k -> k < lenN l ->
  (prev ← expect (ns_item_at s (k - 1)); next ← expect (ns_item_at s k);
   Bound.min_separating (Item.sort_key prev) (Item.id prev) (Item.sort_key next) (Item.id next)) =
    @Ok SyncError.t _ (cut l k) /\
  Bound.wf (cut l k) /\ rank (cut l k) l = k.
Proof.
  intros Hm H0 Hk. destruct (ns_models_sorted s l Hm) as (Hs & Hw & _).
  destruct (separating_ok l k Hs Hw H0 Hk) as (prev & next & b & Hp & Hn & E & Hb & _ & Hr).
  unfold cut. rewrite Hp, Hn, E. split_and!; [|done|done].
  rewrite (ns_item_at_spec s l _ _ Hm Hp), (ns_item_at_spec s l _ _ Hm Hn). cbn [expect mbind result_bind]. done.
Qed.

(** The concrete bucket loop writes [buckets]. *)
Lemma split_buckets_enc s l k i curr upper per extra ub c out :
  ns_models s l -> upper <= lenN l -> 1 <= per -> i + N.of_nat k = 16 -> extra <= 16 ->
  curr + N.of_nat k * per + (extra - i) = upper ->
  let rs := buckets l k i curr upper per extra ub in
  split_buckets s k i curr upper per extra ub c out =
    Ok (BoundCodec.mk (BoundCodec.last_ts_in c) (last_ts (BoundCodec.last_ts_out c) rs),
        out ++ enc (BoundCodec.last_ts_out c) rs).
Proof.
  intros Hm Hup Hper. revert i curr c out.
  induction k as [|k IH]; intros i curr c out Hi He Hsum; cbn [split_buckets buckets].
  { cbn. rewrite app_nil_r. by destruct c. }
  set (sz := per + (if i <? extra then 1 else 0)).
  assert (Hsz : curr + sz + N.of_nat k * per + (extra - (i + 1)) = upper).
  { unfold sz. destruct (N.ltb_spec i extra); lia. }
  assert (Hpos : 1 <= sz) by (unfold sz; destruct (_ <? _); lia). clearbody sz.
  rewrite (ns_fingerprint_spec s l) by (done || lia). cbn [expect mbind result_bind].
  set (b := if curr + sz =? upper then ub else cut l (curr + sz)).
  assert (Hb : (if curr + sz =? upper then @Ok SyncError.t _ ub else
    prev ← expect (ns_item_at s (curr + sz - 1)); next ← expect (ns_item_at s (curr + sz));
    Bound.min_separating (Item.sort_key prev) (Item.id prev) (Item.sort_key next) (Item.id next)) = Ok b).
  { subst b. destruct (N.eqb_spec (curr + sz) upper); [done|]. by apply cut_spec; [..|lia|lia]. }
  rewrite Hb. cbn [mbind result_bind]. rewrite encode_pair. rewrite IH by lia.
  cbn [BoundCodec.last_ts_in BoundCodec.last_ts_out enc last_ts enc_body]. by rewrite <- !app_assoc.
Qed.

Lemma split_range_enc s l p b c out : ns_models s l -> ble p b ->
  let rs := split l p b in
  split_range s (rank p l) (rank b l) b c out =
    Ok (BoundCodec.mk (BoundCodec.last_ts_in c) (last_ts (BoundCodec.last_ts_out c) rs),
        out ++ enc (BoundCodec.last_ts_out c) rs).
Proof.
  intros Hm Hpb. pose proof (rank_mono p b l Hpb) as Hr. pose proof (rank_le b l) as Hn.
  unfold split_range, split. rewrite (proj2 (N.ltb_ge _ _)) by done.
  unfold ID_LIST_THRESHOLD, BUCKETS. destruct (N.ltb_spec (rank b l - rank p l) 32).
  - rewrite encode_pair. rewrite (ns_for_each_spec s l) by done. cbn [expect mbind result_bind].
    rewrite visit_list_ids. cbn [enc last_ts enc_body]. rewrite app_nil_r, <- !app_assoc.
    by rewrite lenN_ids, lenN_seg.
  - change (N.of_nat 16) with 16. apply split_buckets_enc; try done; change (N.of_nat 16) with 16; lia.
Qed.

(** ** What a split consists of *)

Lemma buckets_spec (s : S) l k i p curr upper per extra ub :
  ns_models s l -> upper <= lenN l -> 2 <= per -> i + N.of_nat k = 16 -> extra <= 16 ->
  curr + N.of_nat k * per + (extra - i) = upper -> rank p l = curr -> rank ub l = upper -> Bound.wf ub ->
  let rs := buckets l k i curr upper per extra ub in
  (k <> O -> last_bound p rs = ub) /\ ascending p rs /\
  forall a b y, (a, b, y) ∈ spans p rs ->
    y = Fp (fingerprint_of (seg a b l)) /\ 2 <= lenN (seg a b l) <= per + (if 0 <? extra then 1 else 0).
Proof.
  intros Hm Hup Hper. revert i p curr.
  induction k as [|k IH]; intros i p curr Hi He Hsum Hp Hub Hwf; cbn [buckets].
  { split_and!; [done|done|]. intros a b y H. by apply not_elem_of_nil in H. }
  set (sz := per + (if i <? extra then 1 else 0)).
  assert (Hszle : sz <= per + (if 0 <? extra then 1 else 0)).
  { unfold sz. destruct (N.ltb_spec i extra), (N.ltb_spec 0 extra); lia. }
  assert (Hsz : curr + sz + N.of_nat k * per + (extra - (i + 1)) = upper).
  { unfold sz. destruct (N.ltb_spec i extra); lia. }
  assert (Hpos : 2 <= sz) by (unfold sz; destruct (_ <? _); lia). clearbody sz.
  set (b := if curr + sz =? upper then ub else cut l (curr + sz)).
  assert (Hb : rank b l = curr + sz /\ Bound.wf b).
  { subst b. destruct (N.eqb_spec (curr + sz) upper) as [->|]; [done|].
    destruct (cut_spec s l (curr + sz) Hm) as (_ & ? & ?); [lia|lia|done]. }
  destruct Hb as [Hrb Hwb]. assert (Hpb : ble p b) by (apply (rank_lt_ble _ _ l); lia).
  destruct (IH (i + 1) b (curr + sz)) as (Hl & Ha & Hs); [lia|done|lia|done|done|done|].
  cbn [last_bound ascending spans]. split_and!; try done.
  - intros _. destruct k as [|k]; [|by apply Hl]. cbn. subst b.
    destruct (N.eqb_spec (curr + sz) upper); [done|lia].
  - intros a c y [[= -> -> ->]|Hin]%elem_of_cons; [|by apply Hs].
    rewrite lenN_seg by done. unfold seg. rewrite Hp, Hrb. split; [done|]. lia.
Qed.

(** The largest of sixteen buckets. *)
Definition bucket_max (n : N) : N := n / 16 + (if 0 <? n mod 16 then 1 else 0).

Lemma split_spec (s : S) l p b : ns_models s l -> ble p b -> Bound.wf b ->
  last_bound p (split l p b) = b /\ ascending p (split l p b) /\
  (forall sp, sp ∈ spans p (split l p b) -> honest l sp) /\
  forall a c y, (a, c, y) ∈ spans p (split l p b) ->
    if lenN (seg p b l) <? 32 then split l p b = [(b, Ids (ids (seg p b l)))]
    else exists fp, y = Fp fp /\ lenN (seg a c l) <= bucket_max (lenN (seg p b l)).
Proof.
  intros Hm Hpb Hwf. unfold split. rewrite <- lenN_seg by done. unfold ID_LIST_THRESHOLD.
  destruct (N.ltb_spec (lenN (seg p b l)) 32) as [Hn|Hn].
  - cbn. split_and!; try done. by intros sp ->%list_elem_of_singleton.
  - change (N.of_nat BUCKETS) with 16.
    pose proof (rank_le b l). rewrite lenN_seg in * by done.
    destruct (buckets_spec s l BUCKETS 0 p (rank p l) (rank b l) ((rank b l - rank p l) / 16)
      ((rank b l - rank p l) mod 16) b Hm) as (Hl & Ha & Hs); try done; unfold BUCKETS in *; try lia.
    split_and!; [by apply Hl|done| |].
    + intros [[a c] y] Hin. destruct (Hs a c y Hin) as [-> ?]. cbn. split; [done|lia].
    + intros a c y Hin. destruct (Hs a c y Hin) as [-> ?]. eexists. split; [done|]. unfold bucket_max. lia.
Qed.

End Reference.
