(* ===== verification/NegRun.v ===== *)
(** * The loop of [reconcile] computes [answer]

    On a well-formed message, and as long as the answer stays below the frame
    limit, the loop of sync/negentropy/mod.rs writes exactly the ranges of
    [NegRanges.answer] and reports exactly [haves] and [needs]. *)
From S2P Require Import Prelude Errors Crypto Varint Item IdSum Bound.
From S2P Require Import OrderTree OrderIndex OrderRefine OrderSpec NegStore Negentropy NegFacts NegExact NegRanges.
Open Scope N_scope.
Import Negentropy.

(** A range that can be read back. *)
Definition wf_body (y : body) : Prop :=
  match y with
  | Skip => True
  | Fp fp => length fp = IdSum.FINGERPRINT_SIZE
  | Ids xs => Forall (fun i => length i = ID_SIZE) xs /\ NoDup xs /\ lenN xs <= u32_max
  end.

Lemma lenN_concat (xs : list bytes) : Forall (fun i => length i = ID_SIZE) xs -> lenN (concat xs) = 32 * lenN xs.
Proof.
  induction 1 as [|x xs Hx _ IH]; [done|]. cbn [concat]. rewrite lenN_app, lenN_cons, IH.
  unfold lenN at 1. rewrite Hx. unfold ID_SIZE. lia.
Qed.

Lemma enc_body_pos y : (0 < length (enc_body y))%nat.
Proof.
  destruct y; cbn [enc_body]; rewrite ?length_app;
    change (length (write_varint MODE_SKIP)) with 1%nat;
    change (length (write_varint MODE_FINGERPRINT)) with 1%nat;
    change (length (write_varint MODE_ID_LIST)) with 1%nat; lia.
Qed.

Section Run.
Context {crypto : Crypto} {S : Type} `{!NegentropyStore S}.
Context (e : Negentropy.t S) (l : list Item.t).
Context (Hm : ns_models (store e) l) (Hprop : proper l) (He : wf_engine e).

(** The loop at the bound [p]: the ranges [inp] to read, [out] written. *)
Definition at_range (p : Bound.t) (inp out : list range) (sk : bool) (hv nd : list bytes) : state :=
  St (enc (Bound.ts p) inp) (PROTOCOL_VERSION :: enc 0 out) (BoundCodec.mk (Bound.ts p) (last_ts 0 out))
    (rank p l) p sk hv nd.

Lemma NoDup_seg a b : NoDup (ids (seg a b l)).
Proof.
  eapply sublist_NoDup; [exact (proj1 Hprop)|]. apply (fmap_sublist Item.id), seg_sublist.
Qed.

Lemma wf_seg a b : Forall Item.wf (seg a b l).
Proof. destruct (ns_models_sorted _ l Hm) as (_ & Hw & _). by apply Forall_ranks. Qed.

(** Emitting the pending skip. *)
Lemma flush_skip_enc sk p ti out :
  flush_skip sk p (BoundCodec.mk ti (last_ts 0 out)) [] =
    (false, BoundCodec.mk ti (last_ts 0 (out ++ skips sk p)), enc (last_ts 0 out) (skips sk p)).
Proof.
  unfold flush_skip. destruct sk; cbn [skips].
  - rewrite encode_pair, last_ts_app. cbn [app enc last_ts enc_body]. by rewrite app_nil_r.
  - by rewrite app_nil_r.
Qed.

(** The initiator's treatment of an id list. *)
Lemma match_ids xs p b hv rest : Forall (fun i => length i = ID_SIZE) xs -> NoDup xs -> ble p b ->
  exists th th', read_ids (N.to_nat (lenN xs)) (concat xs ++ rest) [] ∅ = Ok (rest, xs, th) /\
    ns_for_each (store e) (rank p l) (rank b l) match_item (th, hv) = Some (th', hv ++ haves l (p, b, Ids xs)) /\
    List.filter (fun i => bool_decide (i ∈ th')) xs = needs l (p, b, Ids xs).
Proof.
  intros Hxs Hn Hpb. destruct (read_ids_concat xs rest [] ∅ Hxs Hn) as (th & E & Hth); [set_solver|].
  destruct (visit_match_exact th hv (rank p l) (seg p b l) (NoDup_seg p b)) as (th' & Ev & Hth').
  exists th, th'. unfold lenN. rewrite Nat2N.id. split_and!; [done| |].
  - rewrite (ns_for_each_spec _ l) by (done || by apply rank_mono || apply rank_le).
    fold (seg p b l). rewrite Ev. do 3 f_equal. apply List.filter_ext. intros i.
    apply bool_decide_ext. rewrite Hth. set_solver.
  - apply List.filter_ext_in. intros i Hi. apply list_elem_of_In in Hi.
    apply bool_decide_ext. rewrite Hth', Hth. tauto.
Qed.

(** A fingerprint that differs is answered by a split, not yet appended. *)
Lemma do_fp_enc p b fp inp out sk hv nd : Bound.wf b -> ble p b -> length fp = IdSum.FINGERPRINT_SIZE ->
  fp <> fingerprint_of (seg p b l) ->
  do_fingerprint e (at_range p ((b, Fp fp) :: inp) out sk hv nd) (BoundCodec.mk (Bound.ts b) (last_ts 0 out))
    (fp ++ enc (Bound.ts b) inp) b (rank b l) =
  Ok (Out (enc (Bound.ts b) inp) (PROTOCOL_VERSION :: enc 0 out) (enc (last_ts 0 out) (skips sk p ++ split l p b))
        (BoundCodec.mk (Bound.ts b) (last_ts 0 (out ++ skips sk p ++ split l p b))) false (rank b l) hv nd).
Proof.
  intros Hb Hpb Hy Hne. pose proof (rank_mono p b l Hpb) as Hr. pose proof (rank_le b l) as Hrl.
  unfold do_fingerprint. rewrite (split_at_len _ _ _ Hy). unfold at_range. cbn [prev_rank].
  rewrite (ns_fingerprint_spec _ l) by done.
  fold (seg p b l). cbn [expect mbind result_bind skip prev_bound codec full have need].
  rewrite decide_True by done. rewrite flush_skip_enc, (split_range_enc _ l) by done.
  cbn [mbind result_bind BoundCodec.last_ts_in BoundCodec.last_ts_out].
  rewrite (app_assoc out), (last_ts_app 0 (out ++ _)), enc_app, last_ts_app. done.
Qed.

(** One range. *)
Lemma do_range_enc p b y inp out sk hv nd cur :
  Bound.wf b -> ble p b -> wf_body y ->
  cur = match y with Skip => [] | Fp fp => fp | Ids xs => write_varint (lenN xs) ++ concat xs end ++ enc (Bound.ts b) inp ->
  let '(o1, sk') := answer1 (is_initiator e) l p sk (b, y) in
  within e 200 (1 + lenN (enc 0 (out ++ o1))) ->
  exists o_full o_out,
    do_range e (at_range p ((b, y) :: inp) out sk hv nd) (BoundCodec.mk (Bound.ts b) (last_ts 0 out))
      (match y with Skip => MODE_SKIP | Fp _ => MODE_FINGERPRINT | Ids _ => MODE_ID_LIST end) cur b (rank b l) =
    Ok (Out (enc (Bound.ts b) inp) o_full o_out (BoundCodec.mk (Bound.ts b) (last_ts 0 (out ++ o1))) sk' (rank b l)
          (hv ++ if is_initiator e then haves l (p, b, y) else [])
          (nd ++ if is_initiator e then needs l (p, b, y) else [])) /\
    o_full ++ o_out = PROTOCOL_VERSION :: enc 0 (out ++ o1).
Proof.
  intros Hb Hpb Hy ->. pose proof (rank_mono p b l Hpb) as Hr. pose proof (rank_le b l) as Hrl.
  destruct (ns_models_sorted _ l Hm) as (_ & Hw & Hmax).
  unfold do_range. destruct y as [|fp|xs]; cbn [answer1].
  - intros _. change (MODE_SKIP =? MODE_SKIP) with true. cbn match.
    exists (PROTOCOL_VERSION :: enc 0 out), []. cbn [app haves needs]. rewrite !app_nil_r.
    split; [|done]. by destruct (is_initiator e); rewrite !app_nil_r.
  - change (MODE_FINGERPRINT =? MODE_SKIP) with false. rewrite N.eqb_refl. cbn [haves needs].
    assert (Hnil : forall k : list bytes, k ++ (if is_initiator e then [] else []) = k).
    { intros k. destruct (is_initiator e); apply app_nil_r. }
    rewrite !Hnil. clear Hnil. destruct (decide (fp = _)) as [Heq|Hne]; intros _.
    + unfold do_fingerprint. rewrite (split_at_len _ _ _ Hy). unfold at_range. cbn [prev_rank].
      rewrite (ns_fingerprint_spec _ l) by done. fold (seg p b l).
      cbn [expect mbind result_bind skip prev_bound codec full have need]. rewrite decide_False by tauto.
      exists (PROTOCOL_VERSION :: enc 0 out), []. by rewrite !app_nil_r.
    + rewrite do_fp_enc by done. do 2 eexists. split; [done|]. by rewrite (enc_app 0 out).
  - change (MODE_ID_LIST =? MODE_SKIP) with false. change (MODE_ID_LIST =? MODE_FINGERPRINT) with false.
    rewrite N.eqb_refl. destruct Hy as (Hxs & Hn & Hlen). unfold do_id_list. rewrite <- app_assoc.
    rewrite read_write_varint by (unfold u32_max, u64_max in *; lia). cbn [mbind result_bind].
    rewrite (proj2 (N.ltb_ge _ _)).
    2: { rewrite lenN_app, lenN_concat by done. unfold ID_SIZE. change (N.of_nat 32) with 32. lia. }
    destruct (match_ids xs p b hv (enc (Bound.ts b) inp) Hxs Hn Hpb) as (th & th' & -> & Hfe & Hnd).
    unfold at_range. cbn [mbind result_bind prev_rank prev_bound skip codec full have need].
    destruct (is_initiator e).
    + intros _. rewrite Hfe. cbn [expect mbind result_bind].
      exists (PROTOCOL_VERSION :: enc 0 out), []. by rewrite Hnd, !app_nil_r.
    + intros Hin. rewrite flush_skip_enc, (ns_for_each_spec _ l) by done. cbn [expect mbind result_bind].
      fold (seg p b l). rewrite visit_list_exact; [|done|apply wf_seg|].
      2: { eapply within_weaken; [exact Hin|]. rewrite lenN_cons, enc_app, lenN_app, enc_app, lenN_app.
           cbn [enc enc_body]. rewrite !lenN_app, lenN_concat, lenN_ids by apply wf_ids, wf_seg.
           change (lenN (@nil byte)) with 0. lia. }
      cbn [mbind result_bind]. rewrite encode_pair. cbn [mbind result_bind BoundCodec.last_ts_in BoundCodec.last_ts_out].
      eexists _, []. rewrite N.add_0_l, !last_ts_app, (app_nil_r hv), (app_nil_r nd). split; [done|].
      rewrite app_nil_r, !enc_app. cbn [enc enc_body app].
      by rewrite lenN_ids, app_nil_r.
Qed.

(** The mode of a body and what follows it. *)
Definition mode_of (y : body) : N :=
  match y with Skip => MODE_SKIP | Fp _ => MODE_FINGERPRINT | Ids _ => MODE_ID_LIST end.
Definition rest_of (y : body) : bytes :=
  match y with Skip => [] | Fp fp => fp | Ids xs => write_varint (lenN xs) ++ concat xs end.

(** Reading the next range. *)
Lemma step_head p b y inp out sk hv nd : Bound.wf b -> ble p b ->
  step e (lenN l) (at_range p ((b, y) :: inp) out sk hv nd) =
    (res ← do_range e (at_range p ((b, y) :: inp) out sk hv nd) (BoundCodec.mk (Bound.ts b) (last_ts 0 out))
             (mode_of y) (rest_of y ++ enc (Bound.ts b) inp) b (rank b l);
     if exceeds_limit (frame_limit e) (lenN (o_full res) + lenN (o res)) then
       remaining ← expect (ns_fingerprint (store e) (o_upper res) (lenN l));
       let '(codec, bs) := BoundCodec.encode (o_codec res) Bound.infinity in
       Ok (St (o_cursor res) (o_full res ++ bs ++ write_varint MODE_FINGERPRINT ++ remaining) codec (rank p l) p
             (o_skip res) (o_have res) (o_need res), false)
     else
       Ok (St (o_cursor res) (o_full res ++ o res) (o_codec res) (o_upper res) b (o_skip res)
             (o_have res) (o_need res), true)).
Proof.
  intros Hb Hpb. set (st := at_range p ((b, y) :: inp) out sk hv nd). unfold step.
  change (cursor st) with (enc (Bound.ts p) ((b, y) :: inp)). change (prev_rank st) with (rank p l).
  change (codec st) with (BoundCodec.mk (Bound.ts p) (last_ts 0 out)). change (prev_bound st) with p. cbn [enc].
  rewrite (decode_enc _ p) by done. cbn [mbind result_bind].
  assert (Hbody : enc_body y = write_varint (mode_of y) ++ rest_of y) by (destruct y; cbn; by rewrite ?app_nil_r).
  rewrite Hbody, <- app_assoc, read_write_varint by (by destruct y). cbn [mbind result_bind].
  pose proof (rank_mono p b l Hpb) as Hr. pose proof (rank_le b l) as Hrl.
  rewrite (ns_lower_bound_spec _ l) by (done || lia).
  fold (rank b l). assert (clamp (rank b l) (rank p l) (lenN l) = rank b l) as ->.
  { unfold clamp. destruct (N.ltb_spec (rank b l) (rank p l)), (N.ltb_spec (lenN l) (rank b l)); lia. }
  done.
Qed.

Lemma step_enc p b y inp out sk hv nd : Bound.wf b -> ble p b -> wf_body y ->
  let '(o1, sk') := answer1 (is_initiator e) l p sk (b, y) in
  within e 200 (1 + lenN (enc 0 (out ++ o1))) ->
  step e (lenN l) (at_range p ((b, y) :: inp) out sk hv nd) =
    Ok (at_range b inp (out ++ o1) sk'
          (hv ++ if is_initiator e then haves l (p, b, y) else [])
          (nd ++ if is_initiator e then needs l (p, b, y) else []), true).
Proof.
  intros Hb Hpb Hy. pose proof (do_range_enc p b y inp out sk hv nd _ Hb Hpb Hy eq_refl) as Hdo.
  destruct (answer1 (is_initiator e) l p sk (b, y)) as [o1 sk'] eqn:E1. intros Hin.
  destruct (Hdo Hin) as (ofull & oout & Hd & Hout). rewrite step_head by done.
  unfold mode_of, rest_of. rewrite Hd. cbn [mbind result_bind o_full o o_cursor o_codec o_skip o_upper o_have o_need].
  rewrite <- lenN_app, Hout, (proj2 (not_exceeds e _ He)); [done|]. by rewrite lenN_cons.
Qed.

Lemma within_le a n n' : within e a n -> n' <= n -> within e a n'.
Proof. intros H Hn. eapply within_weaken; [exact H|lia]. Qed.

Lemma run_enc inp fuel p out sk hv nd :
  ascending p inp -> Forall (fun r => wf_body r.2) inp -> (length (enc (Bound.ts p) inp) <= fuel)%nat ->
  within e 200 (1 + lenN (enc 0 (out ++ answer (is_initiator e) l p sk inp))) ->
  exists st, run fuel e (lenN l) (at_range p inp out sk hv nd) = Ok st /\
    full st = PROTOCOL_VERSION :: enc 0 (out ++ answer (is_initiator e) l p sk inp) /\
    have st = hv ++ (if is_initiator e then concat (map (haves l) (spans p inp)) else []) /\
    need st = nd ++ (if is_initiator e then concat (map (needs l) (spans p inp)) else []).
Proof.
  revert fuel p out sk hv nd. induction inp as [|[b y] inp IH]; intros fuel p out sk hv nd Ha Hw Hf Hin.
  { exists (at_range p [] out sk hv nd). cbn [answer spans map concat]. rewrite app_nil_r.
    split; [by destruct fuel|]. destruct (is_initiator e); by rewrite !app_nil_r. }
  destruct Ha as (Hpb & Hb & Ha). apply Forall_cons in Hw as [Hy Hw].
  cbn [answer fst] in Hin |- *. rewrite app_assoc in Hin |- *.
  pose proof (step_enc p b y inp out sk hv nd Hb Hpb Hy) as Hstep.
  destruct (answer1 (is_initiator e) l p sk (b, y)) as [o1 sk'].
  cbn [fst snd] in *.
  assert (Hlen : (length (enc (Bound.ts b) inp) < length (enc (Bound.ts p) ((b, y) :: inp)))%nat).
  { cbn [enc]. rewrite !length_app. pose proof (enc_body_pos y). lia. }
  destruct fuel as [|fuel]; [lia|]. cbn [run].
  destruct (cursor (at_range p ((b, y) :: inp) out sk hv nd)) eqn:Ec.
  { change (enc (Bound.ts p) ((b, y) :: inp) = []) in Ec. rewrite Ec in Hlen. cbn in Hlen. lia. }
  rewrite Hstep; [|eapply within_le; [exact Hin|]; rewrite (enc_app 0 (out ++ o1)), lenN_app; lia].
  cbn [mbind result_bind].
  set (hv' := hv ++ _). set (nd' := nd ++ _).
  destruct (IH fuel b (out ++ o1) sk' hv' nd' Ha Hw ltac:(lia) Hin) as (st & -> & Hfull & Hh & Hn).
  exists st. split; [done|]. rewrite Hfull, Hh, Hn. cbn [spans map concat].
  subst hv' nd'. split; [done|]. by destruct (is_initiator e); rewrite <- !app_assoc.
Qed.

(** The lower end of the order. *)
Definition start : Bound.t := Bound.from_ts 0.

Lemma start_least b : Bound.wf b -> ble start b.
Proof.
  intros Hb. unfold ble, Item.le, Item.lt, Item.cmp, bound_as_item, start, Bound.from_ts, Bound.padded_id.
  cbn [Item.sort_key Item.id Bound.ts Bound.prefix]. pose proof (BoundFacts.length_prefix b Hb) as Hl.
  destruct (N.compare_spec (Bound.ts b) 0) as [_|H|H]; [|lia|done].
  rewrite <- Hl. apply BoundFacts.bytes_cmp_zero.
Qed.

Lemma start_item x : Item.wf x -> ~ Item.lt x (bound_as_item start).
Proof.
  intros [Hl Hk]. unfold Item.lt, Item.cmp, bound_as_item, start, Bound.from_ts, Bound.padded_id.
  cbn [Item.sort_key Item.id Bound.ts Bound.prefix].
  destruct (N.compare_spec (Item.sort_key x) 0) as [_|H|H]; [|lia|done].
  rewrite <- Hl. apply BoundFacts.bytes_cmp_zero.
Qed.

Lemma rank_start : rank start l = 0.
Proof.
  destruct (ns_models_sorted _ l Hm) as (_ & Hw & _). rewrite Forall_forall in Hw.
  apply rank_of_none. intros x Hx. by apply start_item, Hw.
Qed.

Lemma rank_infinity' : rank Bound.infinity l = lenN l.
Proof. destruct (ns_models_sorted _ l Hm) as (_ & Hw & _). by apply rank_infinity; [|apply Hprop]. Qed.

(** The reply, absent when an initiator has nothing to say. *)
Definition reply_of (out : list range) : option bytes :=
  if is_initiator e && bool_decide (out = []) then None else Some (PROTOCOL_VERSION :: enc 0 out).

Lemma enc_nil ts rs : enc ts rs = [] <-> rs = [].
Proof.
  split; [|by intros ->]. destruct rs as [|[b y] rs]; [done|]. cbn [enc]. intros H.
  apply app_eq_nil in H as [_ H]. apply app_eq_nil in H as [H _]. by pose proof (enc_body_pos y) as Hp; rewrite H in Hp; cbn in Hp; lia.
Qed.

(** What the loop leaves is what [reconcile] answers. *)
Lemma reconcile_run inp st out hv nd :
  run (length (enc 0 inp)) e (lenN l) (at_range start inp [] false [] []) = Ok st ->
  full st = PROTOCOL_VERSION :: enc 0 out -> have st = hv -> need st = nd ->
  reconcile e (PROTOCOL_VERSION :: enc 0 inp) = Ok (Round.mk (reply_of out) hv nd).
Proof.
  intros Hrun Hf Hh Hn. cbn [reconcile]. change (negb _) with false. cbn match.
  rewrite decide_False by tauto. rewrite (ns_len_spec _ l Hm). cbn [expect mbind result_bind].
  unfold at_range in Hrun. rewrite rank_start in Hrun.
  change (BoundCodec.mk (Bound.ts start) (last_ts 0 [])) with BoundCodec.new in Hrun.
  change (St (enc (Bound.ts start) inp) (PROTOCOL_VERSION :: enc 0 []))
    with (St (enc 0 inp) [PROTOCOL_VERSION]) in Hrun.
  change start with (Bound.from_ts 0) in Hrun at 1. rewrite Hrun. cbn [mbind result_bind].
  rewrite Hf, Hh, Hn. unfold reply_of. do 2 f_equal.
  rewrite lenN_cons. destruct (is_initiator e); [|done]. cbn [andb].
  destruct (bool_decide_reflect (out = [])) as [->|Hne]; [done|].
  destruct (N.eqb_spec (1 + lenN (enc 0 out)) 1) as [H1|]; [|done].
  destruct Hne. apply (enc_nil 0). apply length_zero_iff_nil. unfold lenN in H1. lia.
Qed.

Lemma reconcile_enc inp : ascending start inp -> Forall (fun r => wf_body r.2) inp ->
  let out := answer (is_initiator e) l start false inp in
  within e 200 (1 + lenN (enc 0 out)) ->
  reconcile e (PROTOCOL_VERSION :: enc 0 inp) = Ok (Round.mk (reply_of out)
    (if is_initiator e then concat (map (haves l) (spans start inp)) else [])
    (if is_initiator e then concat (map (needs l) (spans start inp)) else [])).
Proof.
  intros Ha Hw out Hin.
  destruct (run_enc inp (length (enc 0 inp)) start [] false [] [] Ha Hw) as (st & Hrun & Hf & Hh & Hn); [done|done|].
  by apply (reconcile_run inp st out).
Qed.

End Run.

(** The opening message is the split of everything. *)
Lemma initiate_enc {crypto : Crypto} {S : Type} `{!NegentropyStore S} (s : S) lim l :
  ns_models s l -> proper l ->
  initiate (mk s lim false) =
    Ok (mk s lim true, PROTOCOL_VERSION :: enc 0 (split l start Bound.infinity)).
Proof.
  intros Hm Hp. unfold initiate. cbn [is_initiator store frame_limit].
  rewrite (ns_len_spec s l Hm). cbn [expect mbind result_bind].
  pose proof (split_range_enc s l start Bound.infinity BoundCodec.new [PROTOCOL_VERSION] Hm) as Hs.
  change (mk s lim false) with (mk s lim false) in *.
  rewrite (rank_start (mk s lim false)), (rank_infinity' (mk s lim false)) in Hs by done.
  rewrite Hs by (apply start_least, BoundFacts.wf_from_ts; done). done.
Qed.
