(* ===== verification/NegReply.v ===== *)
(** * What an answer consists of

    The ranges one side answers to the ranges it reads: they ascend, they
    are honest about its items, every unsettled item of an incoming range
    is covered again, every answered range lies inside an incoming one and is
    smaller, and the size of the whole is bounded by the two sets. *)
From S2P Require Import Prelude Errors Crypto Varint Item IdSum Bound.
From S2P Require Import OrderTree OrderIndex OrderRefine OrderSpec NegStore Negentropy NegFacts NegExact NegRanges NegRun.
Open Scope N_scope.
Import Negentropy.

Notation span := (Bound.t * Bound.t * body)%type.

(** An item is inside one of the ranges that are not skipped. *)
Definition covers (ss : list span) (x : Item.t) : Prop :=
  exists a b y, (a, b, y) ∈ ss /\ y <> Skip /\ inside a b x.

Lemma covers_app ss ss' x : covers (ss ++ ss') x <-> covers ss x \/ covers ss' x.
Proof.
  split.
  - intros (a & b & y & [H|H]%elem_of_app & Hy & Hx); [left|right]; by exists a, b, y.
  - intros [(a & b & y & H & Hy & Hx)|(a & b & y & H & Hy & Hx)]; exists a, b, y;
      (split; [apply elem_of_app; tauto|done]).
Qed.

(** Consecutive ranges leave no gap. *)
Lemma spans_between p rs x : inside p (last_bound p rs) x ->
  exists a b y, (a, b, y) ∈ spans p rs /\ inside a b x.
Proof.
  revert p. induction rs as [|[b y] rs IH]; intros p [H1 H2]; cbn [last_bound spans] in *; [done|].
  destruct (Item.ltb x (bound_as_item b)) eqn:E.
  - apply Item.ltb_lt in E. exists p, b, y. by split; [left|].
  - apply Item.ltb_ge in E. destruct (IH b (conj E H2)) as (a & c & z & Hin & Hx).
    exists a, c, z. by split; [right|].
Qed.

Section Reply.
Context {crypto : Crypto}.

(** Nothing is left to say about a range. *)
Definition settled (ini : bool) (l : list Item.t) (s : span) : Prop :=
  match s with
  | (a, b, Skip) => True
  | (a, b, Fp fp) => fp = fingerprint_of (seg a b l)
  | (a, b, Ids _) => ini = true
  end.

(** How the body [y] of the range [a .. b] answers an incoming range. *)
Definition derived (ini : bool) (l : list Item.t) (s : span) (a b : Bound.t) (y : body) : Prop :=
  match s with
  | (a', b', Skip) => False
  | (a', b', Fp fp) =>
      if lenN (seg a' b' l) <? 32 then exists xs, y = Ids xs
      else exists fp', y = Fp fp' /\ lenN (seg a b l) <= bucket_max (lenN (seg a' b' l))
  | (a', b', Ids _) => ini = false /\ exists xs, y = Ids xs
  end.

Record replies (ini : bool) (l : list Item.t) (ins outs : list span) : Prop := {
  rp_honest : forall s, s ∈ outs -> honest l s;
  rp_origin : forall a b y, (a, b, y) ∈ outs -> y <> Skip -> exists a' b' y',
    (a', b', y') ∈ ins /\ ble a' a /\ ble a b /\ ble b b' /\ derived ini l (a', b', y') a b y;
  rp_cover : forall a b y x, (a, b, y) ∈ ins -> inside a b x -> settled ini l (a, b, y) \/ covers outs x }.

Lemma replies_app ini l ins outs ins' outs' :
  replies ini l ins outs -> replies ini l ins' outs' -> replies ini l (ins ++ ins') (outs ++ outs').
Proof.
  intros [H1 H2 H3] [K1 K2 K3]. split.
  - intros s [Hs|Hs]%elem_of_app; auto.
  - intros a b y [Hs|Hs]%elem_of_app Hy;
      [destruct (H2 a b y Hs Hy) as (a' & b' & y' & Hin & ?)|destruct (K2 a b y Hs Hy) as (a' & b' & y' & Hin & ?)];
      exists a', b', y'; (split; [apply elem_of_app; tauto|done]).
  - intros a b y x [Hs|Hs]%elem_of_app Hx;
      [destruct (H3 a b y x Hs Hx)|destruct (K3 a b y x Hs Hx)]; rewrite covers_app; tauto.
Qed.

Lemma replies_skip ini l ins outs a b :
  replies ini l ins outs -> replies ini l ins ((a, b, Skip) :: outs).
Proof.
  intros [H1 H2 H3]. split.
  - intros s [->|Hs]%elem_of_cons; [done|auto].
  - intros a' b' y [[= -> -> ->]|Hs]%elem_of_cons Hy; [done|auto].
  - intros a' b' y x Hs Hx. change ((a, b, Skip) :: outs) with ([(a, b, Skip)] ++ outs).
    rewrite covers_app. destruct (H3 a' b' y x Hs Hx); tauto.
Qed.

Lemma replies_settled ini l s : settled ini l s -> replies ini l [s] [].
Proof.
  intros Hs. split.
  - intros ? H. by apply not_elem_of_nil in H.
  - intros ? ? ? H. by apply not_elem_of_nil in H.
  - intros a b y x ->%list_elem_of_singleton _. by left.
Qed.

Context {S : Type} `{!NegentropyStore S}.
Context (s : S) (l : list Item.t) (Hm : ns_models s l).

Lemma replies_split ini p b fp : ble p b -> Bound.wf b ->
  replies ini l [(p, b, Fp fp)] (spans p (split l p b)).
Proof.
  intros Hpb Hb. destruct (split_spec s l p b Hm Hpb Hb) as (Hl & Ha & Hh & Hk). split; [done| |].
  - intros a c y Hin Hy. exists p, b, (Fp fp). destruct (ascending_spans _ _ _ _ _ Ha Hin) as (H1 & H2 & _ & H3).
    rewrite Hl in H3. split; [by apply list_elem_of_singleton|]. split_and!; try done.
    cbn [derived]. specialize (Hk a c y Hin). destruct (_ <? 32).
    + rewrite Hk in Hin. apply list_elem_of_singleton in Hin as [= -> -> ->]. by eexists.
    + exact Hk.
  - intros a c y x [= -> -> ->]%list_elem_of_singleton Hx. right.
    destruct (spans_between p (split l p b) x) as (a' & c' & y' & Hin & Hx'); [by rewrite Hl|].
    exists a', c', y'. split_and!; [done| |done]. specialize (Hk a' c' y' Hin). destruct (_ <? 32).
    + rewrite Hk in Hin. by apply list_elem_of_singleton in Hin as [= -> -> ->].
    + by destruct Hk as (fp' & -> & _).
Qed.

Lemma replies_ids p b xs : ble p b -> replies false l [(p, b, Ids xs)] [(p, b, Ids (ids (seg p b l)))].
Proof.
  intros Hpb. split.
  - by intros ? ->%list_elem_of_singleton.
  - intros a c y [= -> -> ->]%list_elem_of_singleton _. exists p, b, (Ids xs).
    split; [by apply list_elem_of_singleton|]. split_and!; try done. cbn. eauto.
  - intros a c y x [= -> -> ->]%list_elem_of_singleton Hx. right. eexists p, b, _.
    split; [by apply list_elem_of_singleton|done].
Qed.

(** One range, written after the bound [q]; without a pending skip that is
    where the range read starts. *)
Lemma answer1_spec ini p q sk b y : ble q p -> (sk = false -> q = p) -> Bound.wf p -> ble p b -> Bound.wf b ->
  let '(o1, sk') := answer1 ini l p sk (b, y) in
  ascending q o1 /\ ble (last_bound q o1) b /\ (sk' = false -> last_bound q o1 = b) /\
  replies ini l [(p, b, y)] (spans q o1).
Proof.
  intros Hqp Hsk Hwp Hpb Hwb.
  assert (Hnil : forall z, settled ini l (p, b, z) ->
    ascending q [] /\ ble (last_bound q []) b /\ (true = false -> last_bound q [] = b) /\
    replies ini l [(p, b, z)] (spans q [])).
  { intros z Hz. split_and!; [done|by etransitivity|done|by apply replies_settled]. }
  assert (Hpre : forall z rs, last_bound p rs = b -> ascending p rs ->
    replies ini l [(p, b, z)] (spans p rs) ->
    ascending q (skips sk p ++ rs) /\ ble (last_bound q (skips sk p ++ rs)) b /\
    (false = false -> last_bound q (skips sk p ++ rs) = b) /\
    replies ini l [(p, b, z)] (spans q (skips sk p ++ rs))).
  { intros z rs Hl Ha Hr. destruct sk; cbn [skips app ascending last_bound spans].
    - rewrite Hl. split_and!; try done. by apply replies_skip.
    - rewrite (Hsk eq_refl), Hl. done. }
  cbn [answer1]. destruct y as [|fp|xs].
  - by apply Hnil.
  - destruct (decide (fp = _)) as [Heq|Hne]; [by apply Hnil|].
    destruct (split_spec s l p b Hm Hpb Hwb) as (Hl & Ha & _). apply Hpre; [done|done|by apply replies_split].
  - destruct ini; [by apply Hnil|]. apply Hpre; [done|done|]. by apply replies_ids.
Qed.

Lemma answer_spec ini inp p q sk : ble q p -> (sk = false -> q = p) -> Bound.wf p -> ascending p inp ->
  ascending q (answer ini l p sk inp) /\ replies ini l (spans p inp) (spans q (answer ini l p sk inp)).
Proof.
  revert p q sk. induction inp as [|[b y] inp IH]; intros p q sk Hqp Hsk Hwp; cbn [ascending answer spans].
  { intros _. split; [done|]. split; intros *; intros H; by apply not_elem_of_nil in H. }
  intros (Hpb & Hwb & Ha). pose proof (answer1_spec ini p q sk b y Hqp Hsk Hwp Hpb Hwb) as H1.
  destruct (answer1 ini l p sk (b, y)) as [o1 sk']. destruct H1 as (Ha1 & Hb1 & Hs1 & Hr1). cbn [fst snd].
  destruct (IH b (last_bound q o1) sk' Hb1 Hs1 Hwb Ha) as [Ha2 Hr2].
  rewrite ascending_app, spans_app. split; [done|].
  change ((p, b, y) :: spans b inp) with ([(p, b, y)] ++ spans b inp). by apply replies_app.
Qed.

(** ** Sizes *)

Definition cost_body (y : body) : N :=
  match y with Skip => 44 | Fp _ => 60 | Ids xs => 54 + 32 * lenN xs end.

Fixpoint cost (rs : list range) : N :=
  match rs with [] => 0 | (_, y) :: rs => cost_body y + cost rs end.

Lemma cost_app rs rs' : cost (rs ++ rs') = cost rs + cost rs'.
Proof. induction rs as [|[b y] rs IH]; cbn [app cost]; [done|]. rewrite IH. lia. Qed.

Lemma enc_cost p rs : ascending p rs -> Forall (fun r => wf_body r.2) rs -> lenN (enc (Bound.ts p) rs) <= cost rs.
Proof.
  revert p. induction rs as [|[b y] rs IH]; intros p Ha Hw; cbn [enc cost]; [done|].
  destruct Ha as (_ & Hb & Ha). apply Forall_cons in Hw as [Hy Hw]. specialize (IH b Ha Hw).
  rewrite !lenN_app. pose proof (length_encode (BoundCodec.mk 0 (Bound.ts p)) b Hb).
  assert (lenN (enc_body y) + 43 <= cost_body y); [|lia].
  destruct y as [|fp|xs]; cbn [enc_body cost_body snd wf_body] in *.
  - change (lenN (write_varint MODE_SKIP)) with 1. lia.
  - rewrite lenN_app. change (lenN (write_varint MODE_FINGERPRINT)) with 1. unfold lenN. rewrite Hy.
    unfold IdSum.FINGERPRINT_SIZE. lia.
  - destruct Hy as (Hxs & _ & Hlen). rewrite !lenN_app, lenN_concat by done.
    change (lenN (write_varint MODE_ID_LIST)) with 1.
    pose proof (length_write_varint (lenN xs)). unfold lenN, u32_max, u64_max in *. lia.
Qed.

(** The number of ranges of a kind. *)
Definition is_fp (y : body) : bool := match y with Fp _ => true | _ => false end.
Definition is_ids (y : body) : bool := match y with Ids _ => true | _ => false end.

Fixpoint count (f : body -> bool) (rs : list range) : N :=
  match rs with [] => 0 | (_, y) :: rs => (if f y then 1 else 0) + count f rs end.

Lemma count_app f rs rs' : count f (rs ++ rs') = count f rs + count f rs'.
Proof. induction rs as [|[b y] rs IH]; cbn [app count]; [done|]. rewrite IH. lia. Qed.

(** Fingerprinted ranges hold two own items each. *)
Lemma count_fp k p rs : ascending p rs -> (forall s, s ∈ spans p rs -> honest k s) ->
  2 * count is_fp rs <= lenN (seg p (last_bound p rs) k).
Proof.
  revert p. induction rs as [|[b y] rs IH]; intros p Ha Hh; cbn [count last_bound]; [lia|].
  destruct Ha as (Hpb & _ & Ha). rewrite (seg_app p b) by (done || by apply ascending_last).
  rewrite lenN_app. specialize (IH b Ha ltac:(intros s' Hs; apply Hh; by right)).
  specialize (Hh _ (list_elem_of_here _ _)). destruct y; cbn [is_fp honest] in *; lia.
Qed.

Lemma lenN_seg_le a b k : lenN (seg a b k) <= lenN k.
Proof. pose proof (sublist_length _ _ (seg_sublist a b k)). unfold lenN. lia. Qed.

Lemma buckets_cost k n i curr upper per extra ub :
  cost (buckets k n i curr upper per extra ub) = 60 * N.of_nat n /\
  count is_ids (buckets k n i curr upper per extra ub) = 0.
Proof.
  revert i curr. induction n as [|n IH]; intros i curr; cbn [buckets cost count]; [done|].
  specialize (IH (i + 1) (curr + (per + (if i <? extra then 1 else 0)))). cbn [cost_body is_ids]. lia.
Qed.

Lemma split_cost p b : ble p b ->
  cost (split l p b) <= 54 + 32 * lenN (seg p b l) /\ count is_ids (split l p b) <= 1.
Proof.
  intros Hpb. unfold split. rewrite <- lenN_seg by done. unfold ID_LIST_THRESHOLD.
  destruct (N.ltb_spec (lenN (seg p b l)) 32).
  - cbn [cost count cost_body is_ids]. rewrite lenN_ids. lia.
  - match goal with |- context [buckets ?a ?b ?c ?d ?e ?f ?g ?h] => destruct (buckets_cost a b c d e f g h) as [-> ->] end.
    unfold BUCKETS. lia.
Qed.

Lemma skips_cost sk p : cost (skips sk p) <= 44 /\ count is_ids (skips sk p) = 0.
Proof. destruct sk; cbn; lia. Qed.

(** What a reader answers to. *)
Definition active (ini : bool) (y : body) : bool :=
  match y with Skip => false | Fp _ => true | Ids _ => negb ini end.

Lemma answer_cost ini inp p sk : ascending p inp ->
  cost (answer ini l p sk inp) <= 98 * count (active ini) inp + 32 * lenN (seg p (last_bound p inp) l) /\
  (ini = true -> count is_ids (answer ini l p sk inp) <= count is_fp inp).
Proof.
  revert p sk. induction inp as [|[b y] inp IH]; intros p sk Ha; cbn [answer count last_bound cost]; [lia|].
  destruct Ha as (Hpb & Hwb & Ha). rewrite (seg_app p b) by (done || by apply ascending_last).
  rewrite lenN_app, cost_app, count_app. cbn [fst].
  destruct (IH b (answer1 ini l p sk (b, y)).2 Ha) as [IH1 IH2].
  assert (H1 : cost (answer1 ini l p sk (b, y)).1 <=
      98 * (if active ini y then 1 else 0) + 32 * lenN (seg p b l) /\
    (ini = true -> count is_ids (answer1 ini l p sk (b, y)).1 <= (if is_fp y then 1 else 0))).
  { pose proof (skips_cost sk p). pose proof (split_cost p b Hpb).
    destruct y as [|fp|xs]; cbn [answer1 active is_fp]; [cbn [fst cost count]; lia| |].
    - destruct (decide _); cbn [fst cost count]; rewrite ?cost_app, ?count_app; lia.
    - destruct ini; cbn [fst cost count negb]; [lia|].
      rewrite cost_app. cbn [cost cost_body]. rewrite lenN_ids. split; [lia|done]. }
  destruct H1 as [H1 H2]. split; [lia|]. intros Hi. specialize (H2 Hi). specialize (IH2 Hi). lia.
Qed.

(** Nothing fingerprinted: an initiator has nothing to say. *)
Lemma answer_quiet inp p sk : count is_fp inp = 0 -> answer true l p sk inp = [].
Proof.
  revert p sk. induction inp as [|[b y] inp IH]; intros p sk; cbn [answer count]; [done|]. intros Hc.
  destruct y; cbn [is_fp] in Hc; [|lia|]; cbn [answer1 fst snd app]; apply IH; lia.
Qed.

Lemma count_fp_zero p rs : (forall a b fp, (a, b, Fp fp) ∉ spans p rs) -> count is_fp rs = 0.
Proof.
  revert p. induction rs as [|[b y] rs IH]; intros p H; cbn [count]; [done|].
  rewrite (IH b) by (intros a c fp Hin; apply (H a c fp); by right).
  destruct y as [|fp|xs]; [done| |done]. by destruct (H p b fp); left.
Qed.

(** An id list of a holder of [l] can be read back. *)
Lemma ids_wf p b : NoDup (ids l) -> wf_body (Ids (ids (seg p b l))).
Proof.
  intros Hn. destruct (ns_models_sorted s l Hm) as (_ & Hw & Hmax). split_and!.
  - by apply wf_ids, Forall_ranks.
  - eapply sublist_NoDup; [exact Hn|]. apply (fmap_sublist Item.id), seg_sublist.
  - rewrite lenN_ids. pose proof (lenN_seg_le p b l). lia.
Qed.

(** An honest holder's ranges can be read back. *)
Lemma honest_wf rs p : NoDup (ids l) -> (forall s, s ∈ spans p rs -> honest l s) ->
  Forall (fun r => wf_body r.2) rs.
Proof.
  intros Hn. revert p. induction rs as [|[b y] rs IH]; intros p Hh; constructor.
  - specialize (Hh _ (list_elem_of_here _ _)). destruct y as [|fp|xs]; cbn [honest wf_body snd] in *; [done| |].
    + destruct Hh as [-> _]. pose proof (length_fingerprint (seg p b l)) as H. unfold lenN in H.
      unfold IdSum.FINGERPRINT_SIZE. lia.
    + subst xs. by apply ids_wf.
  - apply (IH b). intros s' Hs. apply Hh. by right.
Qed.

End Reply.
