(* ===== verification/NegGeneral.v ===== *)
(** * Reconciliation of two sets of any size

    An initiator and a responder exchange messages until the initiator has
    nothing left to say. The invariant of the initiator's messages: what is
    reported is a difference and lies in no range that is still open; every
    difference is reported, lies in an open range, or a fingerprint collision
    between the two sets exists. The ranges shrink sixteen-fold with every
    round trip, so the number of round trips is logarithmic. *)
From S2P Require Import Prelude Errors Crypto Varint Item IdSum Bound.
From S2P Require Import OrderTree OrderIndex OrderRefine OrderSpec NegStore Negentropy NegFacts NegExact NegRanges NegRun NegReply.
Open Scope N_scope.
Import Negentropy.

(** An id belongs to the same item on both sides (it is the hash of the
    entry that also determines the sort key). *)
Definition consistent (l1 l2 : list Item.t) : Prop :=
  forall x y, x ∈ l1 -> y ∈ l2 -> Item.id x = Item.id y -> x = y.

(** The frame limit leaves room for answers about [n] items. *)
Definition roomy (lim : option N) (n : N) : Prop :=
  match lim with Some lim => 300 + 81 * n <= lim | None => True end.

(** Two different parts of the sets between the same bounds with one
    fingerprint. *)
Definition collision {crypto : Crypto} (l1 l2 : list Item.t) : Prop :=
  exists a b, seg a b l1 <> seg a b l2 /\ fingerprint_of (seg a b l1) = fingerprint_of (seg a b l2).

(** The exchange, from an initiator's message on, for at most [fuel] round
    trips: the ids reported. *)
Fixpoint converse {crypto : Crypto} {S1 S2 : Type} `{!NegentropyStore S1, !NegentropyStore S2}
    (fuel : nat) (e1 : Negentropy.t S1) (e2 : Negentropy.t S2) (m : bytes) (hv nd : list bytes) :
    result SyncError.t (list bytes * list bytes) :=
  match fuel with
  | O => Panic
  | S fuel =>
      r2 ← reconcile e2 m;
      m2 ← expect (Round.reply r2);
      r1 ← reconcile e1 m2;
      let hv := hv ++ Round.have r1 in
      let nd := nd ++ Round.need r1 in
      match Round.reply r1 with
      | None => Ok (hv, nd)
      | Some m => converse fuel e1 e2 m hv nd
      end
  end.

(** What carries an exchange to its end: [R k m hv nd] for the initiator's
    message [m] on its way after the reports [hv] and [nd], with at most [k]
    more messages to come from it, and [F] for an exchange that is over. *)
Record rounds {crypto : Crypto} {S1 S2 : Type} `{!NegentropyStore S1, !NegentropyStore S2}
    (e1 : Negentropy.t S1) (e2 : Negentropy.t S2) (own : list bytes)
    (R : nat -> bytes -> list bytes -> list bytes -> Prop) (F : list bytes -> list bytes -> Prop) : Prop := {
  rd_trip k m hv nd : R k m hv nd -> exists m2 reply hn nn,
    reconcile e2 m = Ok (Round.mk (Some m2) [] []) /\
    reconcile e1 m2 = Ok (Round.mk reply hn nn) /\
    (forall i, i ∈ hn -> i ∈ own) /\
    match reply with
    | None => F (hv ++ hn) (nd ++ nn)
    | Some m' => exists k', k = S k' /\ R k' m' (hv ++ hn) (nd ++ nn)
    end }.

Lemma converse_rounds {crypto : Crypto} {S1 S2 : Type} `{!NegentropyStore S1, !NegentropyStore S2}
    (e1 : Negentropy.t S1) (e2 : Negentropy.t S2) own R F k m hv nd : rounds e1 e2 own R F -> R k m hv nd ->
  exists hv' nd', converse (S k) e1 e2 m hv nd = Ok (hv', nd') /\ F hv' nd'.
Proof.
  intros Hr. revert m hv nd. induction k as [|k IH]; intros m hv nd HR;
    destruct (rd_trip _ _ _ _ _ Hr _ _ _ _ HR) as (m2 & reply & hn & nn & E2 & E1 & _ & Hnext);
    cbn [converse]; rewrite E2; cbn [mbind result_bind expect Round.reply];
    rewrite E1; cbn [mbind result_bind Round.reply Round.have Round.need].
  - destruct reply as [m'|]; [by destruct Hnext as (k' & ? & _)|]. by do 2 eexists.
  - destruct reply as [m'|]; [|by do 2 eexists]. destruct Hnext as (k' & [= <-] & HR'). by apply IH.
Qed.

Section Pair.
Context {crypto : Crypto} {S1 S2 : Type} `{!NegentropyStore S1, !NegentropyStore S2}.
Context (s1 : S1) (s2 : S2) (lim1 lim2 : option N) (l1 l2 : list Item.t).
Context (Hm1 : ns_models s1 l1) (Hm2 : ns_models s2 l2) (Hp1 : proper l1) (Hp2 : proper l2).
Context (Hcon : consistent l1 l2).
Context (He1 : wf_engine (mk s1 lim1 true)) (He2 : wf_engine (mk s2 lim2 false)).
Context (Hroom1 : roomy lim1 (lenN l1 + lenN l2)) (Hroom2 : roomy lim2 (lenN l1 + lenN l2)).

Let Hs1 : Item.sorted l1.
Proof. apply (ns_models_sorted s1 l1 Hm1). Qed.
Let Hs2 : Item.sorted l2.
Proof. apply (ns_models_sorted s2 l2 Hm2). Qed.

(** The largest fingerprinted range after some round trips. *)
Definition cap (k : nat) : N := match k with O => 0 | S k => 31 * 16 ^ N.of_nat k end.

Record inv (k : nat) (rs : list range) (hv nd : list bytes) : Prop := {
  inv_asc : ascending start rs;
  inv_honest : forall s, s ∈ spans start rs -> honest l1 s;
  inv_cap : forall a b fp, (a, b, Fp fp) ∈ spans start rs -> lenN (seg a b l1) <= cap k;
  inv_count : 2 * count is_ids rs <= lenN l2 + 2;
  inv_hv : NoDup hv /\ forall i, i ∈ hv -> exists x,
    i = Item.id x /\ x ∈ l1 /\ x ∉ l2 /\ ~ covers (spans start rs) x;
  inv_nd : NoDup nd /\ forall i, i ∈ nd -> exists x,
    i = Item.id x /\ x ∈ l2 /\ x ∉ l1 /\ ~ covers (spans start rs) x;
  inv_done1 : forall x, x ∈ l1 -> x ∉ l2 ->
    collision l1 l2 \/ Item.id x ∈ hv \/ covers (spans start rs) x;
  inv_done2 : forall x, x ∈ l2 -> x ∉ l1 ->
    collision l1 l2 \/ Item.id x ∈ nd \/ covers (spans start rs) x }.

(** ** One direction *)

(** A range both sides give one fingerprint settles its items. *)
Lemma same_fp a b x : fingerprint_of (seg a b l1) = fingerprint_of (seg a b l2) -> inside a b x ->
  (x ∈ l1 /\ x ∉ l2) \/ (x ∈ l2 /\ x ∉ l1) -> collision l1 l2.
Proof.
  intros Hfp Hx Hd. exists a, b. split; [|done]. intros Heq.
  pose proof (elem_of_seg x a b l1 Hs1). pose proof (elem_of_seg x a b l2 Hs2). rewrite Heq in *. tauto.
Qed.

(** What an open range of a message, honest about one set, leaves after it
    was answered from the other set: a collision, an open range, or an id
    list the initiator settles. *)
Lemma cover_next ini (fst_first : bool) ins outs x :
  (forall s, s ∈ ins -> honest (if fst_first then l1 else l2) s) ->
  replies ini (if fst_first then l2 else l1) ins outs -> covers ins x ->
  (x ∈ l1 /\ x ∉ l2) \/ (x ∈ l2 /\ x ∉ l1) ->
  collision l1 l2 \/ covers outs x \/
    (ini = true /\ exists a b xs, (a, b, Ids xs) ∈ ins /\ inside a b x).
Proof.
  intros Hh Hr (a & b & y & Hin & Hy & Hx) Hd.
  destruct (rp_cover _ _ _ _ Hr a b y x Hin Hx) as [Hset|]; [|tauto].
  specialize (Hh _ Hin). destruct y as [|fp|xs]; [done| |].
  - left. cbn [settled honest] in Hset, Hh. destruct Hh as [Hh _]. eapply (same_fp a b x); [|done|done].
    destruct fst_first; congruence.
  - right; right. cbn in Hset. split; [done|]. by exists a, b, xs.
Qed.

(** ** What the initiator reports *)

Lemma filter_sublist {A} (f : A -> bool) k : List.filter f k `sublist_of` k.
Proof.
  induction k as [|x k IH]; cbn; [done|]. destruct (f x); [by apply sublist_skip|by apply sublist_cons].
Qed.

Lemma reported_sublist k (f : span -> list bytes) ss :
  (forall a b y, (a, b, y) ∈ ss -> f (a, b, y) `sublist_of` ids (seg a b k)) ->
  concat (map f ss) `sublist_of` ids (segs k ss).
Proof.
  induction ss as [|[[a b] y] ss IH]; intros H; [done|]. unfold segs in *. cbn [map concat].
  unfold ids in *. rewrite map_app. apply sublist_app.
  - apply H. by left.
  - apply IH. intros c d z Hin. apply H. by right.
Qed.

Lemma reported_NoDup k (f : span -> list bytes) rs : proper k -> ascending start rs ->
  (forall a b y, (a, b, y) ∈ spans start rs -> f (a, b, y) `sublist_of` ids (seg a b k)) ->
  NoDup (concat (map f (spans start rs))).
Proof.
  intros Hk Ha Hf. eapply sublist_NoDup; [|by apply (reported_sublist k)].
  rewrite segs_spans by done. eapply sublist_NoDup; [exact (proj1 Hk)|].
  apply (fmap_sublist Item.id), seg_sublist.
Qed.

Lemma elem_of_concat_map {A B} (f : A -> list B) ss i :
  i ∈ concat (map f ss) <-> exists s, s ∈ ss /\ i ∈ f s.
Proof.
  rewrite list_elem_of_In, in_concat. split.
  - intros (k & Hk & Hi). apply in_map_iff in Hk as (s & <- & Hs).
    exists s. by split; apply list_elem_of_In.
  - intros (s & Hs%list_elem_of_In & Hi%list_elem_of_In). exists (f s). split; [by apply in_map|done].
Qed.

Lemma NoDup_ids_inj k x y : NoDup (ids k) -> x ∈ k -> y ∈ k -> Item.id x = Item.id y -> x = y.
Proof.
  intros Hn [i Hi]%list_elem_of_lookup [j Hj]%list_elem_of_lookup Hid.
  assert (i = j) as <-; [|rewrite Hi in Hj; by injection Hj].
  eapply (NoDup_lookup (ids k) i j (Item.id x)); [done| |];
    unfold ids; change (map Item.id k) with (Item.id <$> k); rewrite list_lookup_fmap.
  - by rewrite Hi.
  - by rewrite Hj, Hid.
Qed.

Lemma elem_of_ids_seg k x a b : Item.sorted k -> proper k -> x ∈ k ->
  Item.id x ∈ ids (seg a b k) <-> inside a b x.
Proof.
  intros Hk Hp Hx. split.
  - intros (y & Hid & Hy)%list_elem_of_fmap. apply elem_of_seg in Hy as [Hyk Hy]; [|done].
    by rewrite (NoDup_ids_inj k x y (proj1 Hp) Hx Hyk Hid).
  - intros Hin. apply list_elem_of_fmap. exists x. split; [done|]. by apply elem_of_seg.
Qed.

(** An item of one side whose id the other side has is an item of it. *)
Lemma id_other x a b : x ∈ l1 -> Item.id x ∈ ids (seg a b l2) <-> x ∈ l2 /\ inside a b x.
Proof.
  intros Hx. split.
  - intros (y & Hid & Hy)%list_elem_of_fmap. apply elem_of_seg in Hy as [Hyl Hy]; [|done].
    by rewrite (Hcon x y Hx Hyl Hid).
  - intros [Hx2 Hin]. by apply elem_of_ids_seg.
Qed.

Lemma id_other' x a b : x ∈ l2 -> Item.id x ∈ ids (seg a b l1) <-> x ∈ l1 /\ inside a b x.
Proof.
  intros Hx. split.
  - intros (y & Hid & Hy)%list_elem_of_fmap. apply elem_of_seg in Hy as [Hyl Hy]; [|done].
    by rewrite <- (Hcon y x Hyl Hx (eq_sym Hid)).
  - intros [Hx2 Hin]. by apply elem_of_ids_seg.
Qed.

(** ** One round trip *)

Definition next2 (rs : list range) : list range := answer false l2 start false rs.
Definition next1 (rs : list range) : list range := answer true l1 start false (next2 rs).
Definition new_have (rs : list range) : list bytes := concat (map (haves l1) (spans start (next2 rs))).
Definition new_need (rs : list range) : list bytes := concat (map (needs l1) (spans start (next2 rs))).

Lemma wf_start : Bound.wf start.
Proof. by apply BoundFacts.wf_from_ts. Qed.

Section Trip.
Context (k : nat) (rs : list range) (hv nd : list bytes) (Hinv : inv k rs hv nd).

Lemma next2_spec : ascending start (next2 rs) /\ replies false l2 (spans start rs) (spans start (next2 rs)).
Proof. apply (answer_spec s2 l2 Hm2); [done|done|exact wf_start|apply Hinv]. Qed.

Lemma next1_spec : ascending start (next1 rs) /\ replies true l1 (spans start (next2 rs)) (spans start (next1 rs)).
Proof. apply (answer_spec s1 l1 Hm1); [done|done|exact wf_start|apply next2_spec]. Qed.

Lemma honest2 s : s ∈ spans start (next2 rs) -> honest l2 s.
Proof. apply (rp_honest _ _ _ _ (proj2 next2_spec)). Qed.

(** An open range of the answer lies in an open range of the message. *)
Lemma covers_back ini k' ins outs x : replies ini k' ins outs -> covers outs x -> covers ins x.
Proof.
  intros Hr (a & b & y & Hin & Hy & Hx).
  destruct (rp_origin _ _ _ _ Hr a b y Hin Hy) as (a' & b' & y' & Hin' & Ha & _ & Hb & Hd).
  exists a', b', y'. split_and!; [done|by intros ->|by eapply inside_mono].
Qed.

(** The items of an id list the responder sent are closed in what the
    initiator writes next. *)
Lemma ids_closed a b xs x : (a, b, Ids xs) ∈ spans start (next2 rs) -> inside a b x ->
  covers (spans start rs) x /\ ~ covers (spans start (next1 rs)) x.
Proof.
  intros Hin Hx. destruct next2_spec as [Ha2 Hr2]. split.
  - apply (covers_back _ _ _ _ _ Hr2). by exists a, b, (Ids xs).
  - intros (a1 & b1 & y1 & Hin1 & Hy1 & Hx1).
    destruct (rp_origin _ _ _ _ (proj2 next1_spec) _ _ _ Hin1 Hy1) as (a' & b' & y' & Hin' & Hle1 & _ & Hle2 & Hd).
    assert (Heq : (a, b, Ids xs) = (a', b', y')).
    { eapply (span_unique start (next2 rs)); [done|done|done|exact Hx|]. by eapply inside_mono. }
    injection Heq as -> -> <-. by destruct Hd.
Qed.

Lemma new_have_spec i : i ∈ new_have rs -> exists x,
  i = Item.id x /\ x ∈ l1 /\ x ∉ l2 /\ covers (spans start rs) x /\ ~ covers (spans start (next1 rs)) x.
Proof.
  intros ([[a b] y] & Hin & Hi)%elem_of_concat_map. pose proof (honest2 _ Hin) as Hh.
  destruct y as [|fp|xs]; cbn [haves] in Hi; try by apply not_elem_of_nil in Hi. cbn [honest] in Hh. subst xs.
  apply list_elem_of_In, filter_In in Hi as [Hi Hout]. apply list_elem_of_In in Hi.
  apply bool_decide_eq_true in Hout. apply list_elem_of_fmap in Hi as (x & -> & Hx).
  apply elem_of_seg in Hx as [Hx1 Hx]; [|done]. exists x. rewrite id_other in Hout by done.
  split_and!; [done|done|tauto|by eapply ids_closed..].
Qed.

Lemma new_need_spec i : i ∈ new_need rs -> exists x,
  i = Item.id x /\ x ∈ l2 /\ x ∉ l1 /\ covers (spans start rs) x /\ ~ covers (spans start (next1 rs)) x.
Proof.
  intros ([[a b] y] & Hin & Hi)%elem_of_concat_map. pose proof (honest2 _ Hin) as Hh.
  destruct y as [|fp|xs]; cbn [needs] in Hi; try by apply not_elem_of_nil in Hi. cbn [honest] in Hh. subst xs.
  apply list_elem_of_In, filter_In in Hi as [Hi Hout]. apply list_elem_of_In in Hi.
  apply bool_decide_eq_true in Hout. apply list_elem_of_fmap in Hi as (x & -> & Hx).
  apply elem_of_seg in Hx as [Hx1 Hx]; [|done]. exists x. rewrite id_other' in Hout by done.
  split_and!; [done|done|tauto|by eapply ids_closed..].
Qed.

Lemma new_have_NoDup : NoDup (new_have rs).
Proof.
  apply (reported_NoDup l1); [done|apply next2_spec|]. intros a b [|fp|xs] _; cbn [haves];
    [apply sublist_nil_l..|apply filter_sublist].
Qed.

Lemma new_need_NoDup : NoDup (new_need rs).
Proof.
  apply (reported_NoDup l2); [done|apply next2_spec|]. intros a b [|fp|xs] Hin; cbn [needs];
    [apply sublist_nil_l..|]. pose proof (honest2 _ Hin) as Hh. cbn [honest] in Hh. subst xs. apply filter_sublist.
Qed.

(** The ids reported so far and now, for one of the two reports. *)
Lemma report_app old new (own other : list Item.t) : NoDup (ids own) ->
  (NoDup old /\ forall i, i ∈ old -> exists x,
     i = Item.id x /\ x ∈ own /\ x ∉ other /\ ~ covers (spans start rs) x) ->
  NoDup new ->
  (forall i, i ∈ new -> exists x, i = Item.id x /\ x ∈ own /\ x ∉ other /\
     covers (spans start rs) x /\ ~ covers (spans start (next1 rs)) x) ->
  NoDup (old ++ new) /\ forall i, i ∈ old ++ new -> exists x,
    i = Item.id x /\ x ∈ own /\ x ∉ other /\ ~ covers (spans start (next1 rs)) x.
Proof.
  intros Hn [Hold Hospec] Hnew Hnspec. split.
  - apply NoDup_app. split_and!; [done| |done]. intros i Ho Hw.
    destruct (Hospec i Ho) as (x & -> & Hx & _ & Hc). destruct (Hnspec _ Hw) as (x' & Hid & Hx' & _ & Hc' & _).
    apply Hc. replace x with x'; [done|]. by apply (NoDup_ids_inj own).
  - intros i [Ho|Hw]%elem_of_app.
    + destruct (Hospec i Ho) as (x & -> & Hx & Hx' & Hc). exists x. split_and!; try done.
      intros Hc1. apply Hc, (covers_back _ _ _ _ _ (proj2 next2_spec)), (covers_back _ _ _ _ _ (proj2 next1_spec)), Hc1.
    + destruct (Hnspec i Hw) as (x & -> & ? & ? & _ & ?). eauto.
Qed.

(** A difference in an open range is reported or stays in one. *)
Lemma cover_trip x : covers (spans start rs) x -> (x ∈ l1 /\ x ∉ l2) \/ (x ∈ l2 /\ x ∉ l1) ->
  collision l1 l2 \/ covers (spans start (next1 rs)) x \/
    exists a b xs, (a, b, Ids xs) ∈ spans start (next2 rs) /\ inside a b x.
Proof.
  intros Hc Hd.
  destruct (cover_next false true (spans start rs) (spans start (next2 rs)) x) as [|[Hc2|[? _]]];
    [apply Hinv|apply next2_spec|done|done|tauto| |done].
  destruct (cover_next true false (spans start (next2 rs)) (spans start (next1 rs)) x) as [|[|[_ H]]];
    [exact honest2|apply next1_spec|done|done|tauto|tauto|tauto].
Qed.

Lemma open_have x : x ∈ l1 -> x ∉ l2 -> covers (spans start rs) x ->
  collision l1 l2 \/ Item.id x ∈ new_have rs \/ covers (spans start (next1 rs)) x.
Proof.
  intros Hx1 Hx2 Hc. destruct (cover_trip x Hc) as [|[|(a & b & xs & Hin & Hx)]]; [by left|tauto|tauto|].
  right; left. apply elem_of_concat_map. exists (a, b, Ids xs). split; [done|].
  pose proof (honest2 _ Hin) as Hh. cbn [honest] in Hh. subst xs. cbn [haves].
  apply list_elem_of_In, filter_In. rewrite <- list_elem_of_In, bool_decide_eq_true.
  split; [by apply elem_of_ids_seg|]. rewrite id_other by done. tauto.
Qed.

Lemma open_need x : x ∈ l2 -> x ∉ l1 -> covers (spans start rs) x ->
  collision l1 l2 \/ Item.id x ∈ new_need rs \/ covers (spans start (next1 rs)) x.
Proof.
  intros Hx1 Hx2 Hc. destruct (cover_trip x Hc) as [|[|(a & b & xs & Hin & Hx)]]; [by right|tauto|tauto|].
  right; left. apply elem_of_concat_map. exists (a, b, Ids xs). split; [done|].
  pose proof (honest2 _ Hin) as Hh. cbn [honest] in Hh. subst xs. cbn [needs].
  apply list_elem_of_In, filter_In. rewrite <- list_elem_of_In, bool_decide_eq_true.
  split; [by apply elem_of_ids_seg|]. rewrite id_other' by done. tauto.
Qed.
End Trip.

(** ** The messages *)

Lemma count_active rs : count (active false) rs = count is_fp rs + count is_ids rs.
Proof.
  induction rs as [|[b y] rs IH]; cbn [count]; [done|]. rewrite IH. destruct y; cbn [active is_fp is_ids negb]; lia.
Qed.

Lemma roomy_within {S} (e : Negentropy.t S) n : roomy (frame_limit e) (lenN l1 + lenN l2) ->
  n <= 100 + 81 * (lenN l1 + lenN l2) -> within e 200 n.
Proof. unfold roomy, within. destruct (frame_limit e); [lia|done]. Qed.

Lemma next2_count k rs hv nd : inv k rs hv nd -> 2 * count is_fp (next2 rs) <= lenN l2.
Proof.
  intros Hi. destruct (next2_spec _ _ _ _ Hi) as [Ha Hr].
  pose proof (count_fp l2 start (next2 rs) Ha (rp_honest _ _ _ _ Hr)).
  pose proof (lenN_seg_le start (last_bound start (next2 rs)) l2). lia.
Qed.

Lemma next2_fits k rs hv nd : inv k rs hv nd -> lenN (enc 0 (next2 rs)) <= 99 + 81 * (lenN l1 + lenN l2) - 1.
Proof.
  intros Hi. destruct (next2_spec _ _ _ _ Hi) as [Ha Hr].
  pose proof (enc_cost start (next2 rs) Ha (honest_wf s2 l2 Hm2 _ _ (proj1 Hp2) (rp_honest _ _ _ _ Hr))) as Hc.
  destruct (answer_cost l2 false rs start false (inv_asc _ _ _ _ Hi)) as [Hcost _]. fold (next2 rs) in Hcost.
  rewrite count_active in Hcost. pose proof (inv_count _ _ _ _ Hi).
  pose proof (count_fp l1 start rs (inv_asc _ _ _ _ Hi) (inv_honest _ _ _ _ Hi)).
  pose proof (lenN_seg_le start (last_bound start rs) l1).
  pose proof (lenN_seg_le start (last_bound start rs) l2).
  change (enc 0) with (enc (Bound.ts start)). lia.
Qed.

Lemma count_inactive rs : count (active true) rs = count is_fp rs.
Proof. induction rs as [|[b y] rs IH]; cbn [count]; [done|]. rewrite IH. by destruct y. Qed.

Lemma next1_fits k rs hv nd : inv k rs hv nd -> lenN (enc 0 (next1 rs)) <= 98 + 81 * (lenN l1 + lenN l2).
Proof.
  intros Hi. destruct (next1_spec _ _ _ _ Hi) as [Ha Hr]. destruct (next2_spec _ _ _ _ Hi) as [Ha2 _].
  pose proof (enc_cost start (next1 rs) Ha (honest_wf s1 l1 Hm1 _ _ (proj1 Hp1) (rp_honest _ _ _ _ Hr))) as Hc.
  destruct (answer_cost l1 true (next2 rs) start false Ha2) as [Hcost _]. fold (next1 rs) in Hcost.
  rewrite count_inactive in Hcost. pose proof (next2_count _ _ _ _ Hi).
  pose proof (lenN_seg_le start (last_bound start (next2 rs)) l1).
  change (enc 0) with (enc (Bound.ts start)). lia.
Qed.

Lemma trip_reconcile k rs hv nd : inv k rs hv nd ->
  reconcile (mk s2 lim2 false) (PROTOCOL_VERSION :: enc 0 rs) =
    Ok (Round.mk (Some (PROTOCOL_VERSION :: enc 0 (next2 rs))) [] []) /\
  reconcile (mk s1 lim1 true) (PROTOCOL_VERSION :: enc 0 (next2 rs)) =
    Ok (Round.mk (if bool_decide (next1 rs = []) then None else Some (PROTOCOL_VERSION :: enc 0 (next1 rs)))
          (new_have rs) (new_need rs)).
Proof.
  intros Hi. destruct (next2_spec _ _ _ _ Hi) as [Ha2 Hr2]. split.
  - rewrite (reconcile_enc (mk s2 lim2 false) l2 Hm2 Hp2 He2 rs); [done|apply Hi| |].
    + apply (honest_wf s1 l1 Hm1 _ start (proj1 Hp1)), Hi.
    + apply roomy_within; [done|]. pose proof (next2_fits _ _ _ _ Hi). unfold next2 in *. cbn [is_initiator]. lia.
  - rewrite (reconcile_enc (mk s1 lim1 true) l1 Hm1 Hp1 He1 (next2 rs)); [done|done| |].
    + apply (honest_wf s2 l2 Hm2 _ start (proj1 Hp2)), Hr2.
    + apply roomy_within; [done|]. pose proof (next1_fits _ _ _ _ Hi). unfold next1 in *. cbn [is_initiator]. lia.
Qed.

(** ** Ranges shrink *)

Lemma bucket_cap n k : n <= 31 * 16 ^ N.of_nat (S k) -> bucket_max n <= 31 * 16 ^ N.of_nat k.
Proof.
  rewrite Nat2N.inj_succ, N.pow_succ_r'. unfold bucket_max. generalize (16 ^ N.of_nat k). intros p Hp.
  destruct (N.ltb_spec 0 (n mod 16)); lia.
Qed.

(** The fingerprints of the responder's answer are in ranges the initiator
    fingerprinted. *)
Lemma next2_cap k rs hv nd a b fp : inv k rs hv nd -> (a, b, Fp fp) ∈ spans start (next2 rs) ->
  lenN (seg a b l1) <= cap k.
Proof.
  intros Hi Hin. destruct (next2_spec _ _ _ _ Hi) as [_ Hr].
  destruct (rp_origin _ _ _ _ Hr _ _ _ Hin) as (a' & b' & y' & Hin' & Ha & Hab & Hb & Hd); [done|].
  pose proof (seg_mono a' a b b' l1 Ha Hab Hb). destruct y' as [|fp'|xs]; [done| |].
  - pose proof (inv_cap _ _ _ _ Hi _ _ _ Hin'). lia.
  - by destruct Hd as (_ & ? & ?).
Qed.

Lemma next1_cap k rs hv nd a b fp : inv k rs hv nd -> (a, b, Fp fp) ∈ spans start (next1 rs) ->
  lenN (seg a b l1) <= cap (pred k).
Proof.
  intros Hi Hin. destruct (next1_spec _ _ _ _ Hi) as [_ Hr].
  destruct (rp_origin _ _ _ _ Hr _ _ _ Hin) as (a' & b' & y' & Hin' & Ha & Hab & Hb & Hd); [done|].
  destruct y' as [|fp'|xs]; [done| |by destruct Hd].
  pose proof (next2_cap _ _ _ _ _ _ _ Hi Hin') as Hcap. cbn [derived] in Hd.
  destruct (N.ltb_spec (lenN (seg a' b' l1)) 32) as [|Hlarge]; [by destruct Hd|].
  destruct Hd as (_ & _ & Hd). destruct k as [|[|k]]; cbn [cap pred] in *; [lia|cbn in *; lia|].
  etransitivity; [exact Hd|]. by apply bucket_cap.
Qed.

(** With nothing fingerprinted the round trip is the last. *)
Lemma next1_last rs hv nd : inv 0 rs hv nd -> next1 rs = [].
Proof.
  intros Hi. apply answer_quiet, (count_fp_zero start). intros a b fp Hin.
  destruct (next2_spec _ _ _ _ Hi) as [_ Hr].
  destruct (rp_origin _ _ _ _ Hr _ _ _ Hin) as (a' & b' & y' & Hin' & _ & _ & _ & Hd); [done|].
  destruct y' as [|fp'|xs]; [done| |by destruct Hd as (_ & ? & ?)].
  pose proof (inv_cap _ _ _ _ Hi _ _ _ Hin') as Hc. destruct (inv_honest _ _ _ _ Hi _ Hin') as [_ H2].
  cbn [cap] in Hc. lia.
Qed.

Lemma trip_inv k rs hv nd : inv k rs hv nd ->
  inv (pred k) (next1 rs) (hv ++ new_have rs) (nd ++ new_need rs).
Proof.
  intros Hi. destruct (next1_spec _ _ _ _ Hi) as [Ha Hr]. split.
  - done.
  - apply Hr.
  - intros a b fp. by apply (next1_cap _ _ _ _ _ _ _ Hi).
  - destruct (next2_spec _ _ _ _ Hi) as [Ha2 _].
    destruct (answer_cost l1 true (next2 rs) start false Ha2) as [_ Hc]. specialize (Hc eq_refl).
    fold (next1 rs) in Hc. pose proof (next2_count _ _ _ _ Hi). lia.
  - apply (report_app _ _ _ _ Hi _ _ l1 l2); [apply Hp1|apply Hi|by eapply new_have_NoDup|by eapply new_have_spec].
  - apply (report_app _ _ _ _ Hi _ _ l2 l1); [apply Hp2|apply Hi|by eapply new_need_NoDup|by eapply new_need_spec].
  - intros x Hx1 Hx2. rewrite elem_of_app. destruct (inv_done1 _ _ _ _ Hi x Hx1 Hx2) as [|[|Hc]]; [tauto|tauto|].
    destruct (open_have _ _ _ _ Hi x Hx1 Hx2 Hc) as [|[|]]; tauto.
  - intros x Hx1 Hx2. rewrite elem_of_app. destruct (inv_done2 _ _ _ _ Hi x Hx1 Hx2) as [|[|Hc]]; [tauto|tauto|].
    destruct (open_need _ _ _ _ Hi x Hx1 Hx2 Hc) as [|[|]]; tauto.
Qed.

(** ** The whole exchange *)

(** The invariant's trips. *)
Definition sent (k : nat) (m : bytes) (hv nd : list bytes) : Prop :=
  exists rs, m = PROTOCOL_VERSION :: enc 0 rs /\ inv k rs hv nd.
Definition over (hv nd : list bytes) : Prop := exists j, inv j [] hv nd.

Lemma inv_rounds : rounds (mk s1 lim1 true) (mk s2 lim2 false) (ids l1) sent over.
Proof.
  split. intros k m hv nd (rs & -> & Hi). destruct (trip_reconcile _ _ _ _ Hi) as [E2 E1].
  pose proof (trip_inv _ _ _ _ Hi) as Hi'. do 4 eexists. split; [exact E2|]. split; [exact E1|]. split.
  - intros i Hin. destruct (proj2 (inv_hv _ _ _ _ Hi') i) as (x & -> & Hx & _); [apply elem_of_app; by right|].
    apply list_elem_of_fmap. eauto.
  - case_bool_decide as Hnil; [rewrite Hnil in Hi'; by eexists|]. destruct k as [|k].
    + by destruct Hnil; apply (next1_last _ _ _ Hi).
    + exists k. split; [done|]. by exists (next1 rs).
Qed.

(** Everything lies in the ranges of the opening message. *)
Lemma inside_all x k : k = l1 \/ k = l2 -> x ∈ k -> inside start Bound.infinity x.
Proof.
  intros Hk Hx.
  assert (Item.wf x /\ Item.sort_key x < u64_max) as [Hw Hlt].
  { destruct (ns_models_sorted s1 l1 Hm1) as (_ & Hw1 & _), (ns_models_sorted s2 l2 Hm2) as (_ & Hw2 & _).
    rewrite Forall_forall in Hw1, Hw2. destruct Hp1, Hp2. destruct Hk as [-> | ->]; auto. }
  split; [by apply start_item|]. unfold Item.lt, Item.cmp.
  by rewrite (proj2 (N.compare_lt_iff (Item.sort_key x) (Item.sort_key (bound_as_item Bound.infinity))) Hlt).
Qed.

Lemma open_covers x k : k = l1 \/ k = l2 -> x ∈ k -> covers (spans start (split l1 start Bound.infinity)) x.
Proof.
  intros Hk Hx. assert (Hinf : Bound.wf Bound.infinity) by by apply BoundFacts.wf_from_ts.
  destruct (split_spec s1 l1 start Bound.infinity Hm1 (start_least _ Hinf) Hinf) as (Hl & _ & _ & Hspan).
  destruct (spans_between start (split l1 start Bound.infinity) x) as (a & b & y & Hin & Hxin).
  { rewrite Hl. by eapply inside_all. }
  exists a, b, y. split_and!; [done| |done]. specialize (Hspan a b y Hin). destruct (_ <? 32).
  - rewrite Hspan in Hin. by apply list_elem_of_singleton in Hin as [= -> -> ->].
  - by destruct Hspan as (fp & -> & _).
Qed.

Lemma inv_open k : lenN l1 <= 31 * 16 ^ N.of_nat k -> inv k (split l1 start Bound.infinity) [] [].
Proof.
  intros Hk. assert (Hinf : Bound.wf Bound.infinity) by by apply BoundFacts.wf_from_ts.
  assert (Hle : ble start Bound.infinity) by by apply start_least.
  destruct (split_spec s1 l1 start Bound.infinity Hm1 Hle Hinf) as (Hl & Ha & Hh & Hspan).
  assert (Hall : lenN (seg start Bound.infinity l1) = lenN l1).
  { rewrite lenN_seg by done. rewrite (rank_start (mk s1 None true)), (rank_infinity' (mk s1 None true)) by done. lia. }
  rewrite Hall in Hspan.
  split; try done.
  - intros a b fp Hin. specialize (Hspan a b _ Hin). destruct (N.ltb_spec (lenN l1) 32) as [|Hlarge].
    + rewrite Hspan in Hin. by apply list_elem_of_singleton in Hin.
    + destruct Hspan as (_ & _ & Hb). destruct k as [|k]; [cbn in Hk; lia|].
      etransitivity; [exact Hb|]. by apply bucket_cap.
  - pose proof (split_cost l1 start Bound.infinity Hle) as [_ Hc]. lia.
  - split; [constructor|]. intros i Hi. by apply not_elem_of_nil in Hi.
  - split; [constructor|]. intros i Hi. by apply not_elem_of_nil in Hi.
  - intros x Hx _. right; right. apply (open_covers x l1); tauto.
  - intros x Hx _. right; right. apply (open_covers x l2); tauto.
Qed.

Lemma uncovered x : ~ covers [] x.
Proof. intros (a & b & y & Hin & _). by apply not_elem_of_nil in Hin. Qed.

(** A common alternative to every member's property. *)
Lemma or_forall {A} (C : Prop) (P : A -> Prop) (k : list A) :
  (forall x, x ∈ k -> C \/ P x) -> C \/ forall x, x ∈ k -> P x.
Proof.
  induction k as [|x k IH]; intros H; [right; intros x Hx; by apply not_elem_of_nil in Hx|].
  destruct (H x (list_elem_of_here _ _)) as [|Hx]; [by left|].
  destruct IH as [|Hk]; [intros y Hy; apply H; by right|by left|].
  right. intros y [->|Hy]%elem_of_cons; auto.
Qed.

Lemma id_in_l2 x : x ∈ l1 -> Item.id x ∈ ids l2 <-> x ∈ l2.
Proof.
  intros Hx. split; [|intros H; apply list_elem_of_fmap; eauto].
  intros (y & Hid & Hy)%list_elem_of_fmap. by rewrite (Hcon x y Hx Hy Hid).
Qed.

Lemma id_in_l1 x : x ∈ l2 -> Item.id x ∈ ids l1 <-> x ∈ l1.
Proof.
  intros Hx. split; [|intros H; apply list_elem_of_fmap; eauto].
  intros (y & Hid & Hy)%list_elem_of_fmap. by rewrite <- (Hcon y x Hy Hx (eq_sym Hid)).
Qed.

(** Every difference reported, or one reason why some are not. *)
Lemma report_complete (C : Prop) (hv nd : list bytes) :
  (forall x, x ∈ l1 -> x ∉ l2 -> C \/ Item.id x ∈ hv) -> (forall x, x ∈ l2 -> x ∉ l1 -> C \/ Item.id x ∈ nd) ->
  C \/ (forall i, i ∈ ids l1 -> i ∉ ids l2 -> i ∈ hv) /\ (forall i, i ∈ ids l2 -> i ∉ ids l1 -> i ∈ nd).
Proof.
  intros D1 D2. destruct (or_forall C (fun x => x ∉ l2 -> Item.id x ∈ hv) l1) as [|C1]; [|by left|].
  { intros x Hx. destruct (decide (x ∈ l2)); [by right|]. destruct (D1 x); tauto. }
  destruct (or_forall C (fun x => x ∉ l1 -> Item.id x ∈ nd) l2) as [|C2]; [|by left|].
  { intros x Hx. destruct (decide (x ∈ l1)); [by right|]. destruct (D2 x); tauto. }
  right. split; intros i (x & -> & Hx)%list_elem_of_fmap Hout; [apply C1|apply C2]; try done.
  - by rewrite <- id_in_l2.
  - by rewrite <- id_in_l1.
Qed.

(** What the invariant says once nothing is open. *)
Lemma closed_final j hv nd : inv j [] hv nd ->
  NoDup hv /\ NoDup nd /\
  (forall i, i ∈ hv -> i ∈ ids l1 /\ i ∉ ids l2) /\ (forall i, i ∈ nd -> i ∈ ids l2 /\ i ∉ ids l1) /\
  (collision l1 l2 \/
     (forall i, i ∈ ids l1 -> i ∉ ids l2 -> i ∈ hv) /\ (forall i, i ∈ ids l2 -> i ∉ ids l1 -> i ∈ nd)).
Proof.
  intros [_ _ _ _ [Hn1 H1] [Hn2 H2] D1 D2]. split_and!; try done.
  - intros i Hi. destruct (H1 i Hi) as (x & -> & Hx1 & Hx2 & _). rewrite id_in_l2 by done.
    split; [|done]. apply list_elem_of_fmap. eauto.
  - intros i Hi. destruct (H2 i Hi) as (x & -> & Hx2 & Hx1 & _). rewrite id_in_l1 by done.
    split; [|done]. apply list_elem_of_fmap. eauto.
  - apply report_complete; intros x Hx Hx'.
    + destruct (D1 x Hx Hx') as [|[|Hc]]; [by left|by right|by apply uncovered in Hc].
    + destruct (D2 x Hx Hx') as [|[|Hc]]; [by left|by right|by apply uncovered in Hc].
Qed.

End Pair.

(** ** Properties *)

(** C9: exact differences where no answer is cut short. Between an initiator
    with at most 31 * 16^k items and a responder with any set, both sides
    without a frame limit or with a [roomy] one (at least 300 bytes and 81 per
    item of the two sets; under a smaller limit, as for more than 46 items
    together at 4096 bytes, items can be lost, see [negentropy_limited] and
    [fallback_hides_difference]), the exchange ends
    within k + 1 round trips (eight for the largest sets that fit 32-bit
    ranks). What it reports is right without any assumption on hashing:
    [have] are ids only the initiator holds, [need] ids only the responder
    holds, each once. It is complete unless two different parts of the sets
    between the same bounds have the same fingerprint. *)
Theorem negentropy_exact {crypto : Crypto} {S1 S2 : Type} `{!NegentropyStore S1, !NegentropyStore S2}
    (s1 : S1) (s2 : S2) lim1 lim2 l1 l2 k :
  ns_models s1 l1 -> ns_models s2 l2 -> proper l1 -> proper l2 -> consistent l1 l2 ->
  wf_engine (mk s1 lim1 true) -> wf_engine (mk s2 lim2 false) ->
  roomy lim1 (lenN l1 + lenN l2) -> roomy lim2 (lenN l1 + lenN l2) ->
  lenN l1 <= 31 * 16 ^ N.of_nat k ->
  exists e1 m hv nd,
    initiate (mk s1 lim1 false) = Ok (e1, m) /\
    converse (S k) e1 (mk s2 lim2 false) m [] [] = Ok (hv, nd) /\
    NoDup hv /\ NoDup nd /\
    (forall i, i ∈ hv -> i ∈ ids l1 /\ i ∉ ids l2) /\ (forall i, i ∈ nd -> i ∈ ids l2 /\ i ∉ ids l1) /\
    (collision l1 l2 \/
       (forall i, i ∈ ids l1 -> i ∉ ids l2 -> i ∈ hv) /\ (forall i, i ∈ ids l2 -> i ∉ ids l1 -> i ∈ nd)).
Proof.
  intros Hm1 Hm2 Hp1 Hp2 Hcon He1 He2 Hr1 Hr2 Hk.
  pose proof (inv_open s1 s2 l1 l2 Hm1 Hm2 Hp1 Hp2 k Hk) as Hi.
  destruct (converse_rounds _ _ _ _ _ k (PROTOCOL_VERSION :: enc 0 (split l1 start Bound.infinity)) [] []
    (inv_rounds s1 s2 lim1 lim2 l1 l2 Hm1 Hm2 Hp1 Hp2 Hcon He1 He2 Hr1 Hr2)) as (hv & nd & E & j & Hj); [by eexists|].
  do 2 eexists. exists hv, nd. split; [by apply (initiate_enc s1 lim1 l1)|]. split; [exact E|].
  by eapply (closed_final l1 l2).
Qed.

(** ** A concrete instance *)

Definition sample_many (from n : nat) : SealedVec.t := SealedVec.new (items_from (map N.of_nat (seq from n))).

Definition consistent_b (l1 l2 : list Item.t) : bool :=
  forallb (fun x => forallb (fun y => negb (bool_decide (Item.id x = Item.id y)) || bool_decide (x = y)) l2) l1.

Lemma consistent_b_spec l1 l2 : consistent_b l1 l2 = true -> consistent l1 l2.
Proof.
  unfold consistent_b, consistent. rewrite forallb_forall. intros H x y Hx%list_elem_of_In Hy%list_elem_of_In Hid.
  specialize (H x Hx). rewrite forallb_forall in H. specialize (H y Hy).
  rewrite (bool_decide_eq_true_2 _ Hid) in H. by apply bool_decide_eq_true in H.
Qed.

Lemma sample_many_models from n : forallb (fun k => N.of_nat k <? u64_max) (seq from n) = true ->
  lenN (seq from n) <= u32_max ->
  ns_models (crypto := toy_crypto) (sample_many from n) (SealedVec.items (sample_many from n)).
Proof.
  intros Hk Hl. apply sealed_sample; [|unfold lenN in *; by rewrite length_map].
  apply Forall_map, Forall_forall. intros k Hin%list_elem_of_In.
  rewrite forallb_forall in Hk. by apply N.ltb_lt, Hk.
Qed.

Lemma negentropy_exact_witness :
  exists e1 m hv nd, initiate (crypto := toy_crypto) (mk (sample_many 1 40) (Some 8192) false) = Ok (e1, m) /\
    converse (crypto := toy_crypto) 2 e1 (mk (sample_many 3 42) None false) m [] [] = Ok (hv, nd) /\
    forall i, i ∈ hv -> i ∉ ids (SealedVec.items (sample_many 3 42)).
Proof.
  destruct (negentropy_exact (crypto := toy_crypto) (sample_many 1 40) (sample_many 3 42) (Some 8192) None
    (SealedVec.items (sample_many 1 40)) (SealedVec.items (sample_many 3 42)) 1)
    as (e1 & m & hv & nd & E1 & E2 & _ & _ & Hhv & _).
  - apply sample_many_models; [vm_compute; reflexivity|vm_compute; discriminate].
  - apply sample_many_models; [vm_compute; reflexivity|vm_compute; discriminate].
  - apply proper_b_spec. vm_compute. reflexivity.
  - apply proper_b_spec. vm_compute. reflexivity.
  - apply consistent_b_spec. vm_compute. reflexivity.
  - vm_compute. discriminate.
  - exact I.
  - vm_compute. discriminate.
  - exact I.
  - vm_compute. discriminate.
  - exists e1, m, hv, nd. split; [exact E1|]. split; [exact E2|]. intros i Hi. apply Hhv, Hi.
Defined.
