(* ===== verification/NegCut.v ===== *)
(** * Answers cut short by the frame limit

    Under a frame limit the loop of [reconcile] may stop before the message
    is read: an id list is ended at the item that does not fit, or the split
    of a range is dropped, and everything left is covered by one fingerprint.
    [answers] is the reference relation; the concrete loop is proved to
    follow it under every limit the constructor accepts. *)
From S2P Require Import Prelude Errors Crypto Varint Item IdSum Bound.
From S2P Require Import OrderTree OrderIndex OrderRefine OrderSpec NegStore Negentropy NegFacts NegExact NegRanges NegRun NegReply NegGeneral.
Open Scope N_scope.
Import Negentropy.

Section Reference.
Context {crypto : Crypto} (ini : bool) (l : list Item.t).

(** The fingerprint of everything from [b] on. *)
Definition tail_fp (b : Bound.t) : range := (Bound.infinity, Fp (fingerprint_of (seg b Bound.infinity l))).

(** From the bound [p] on, with the skip flag [sk], after some output or not
    ([ne]): the ranges to read, those written and those of the first that
    were taken into account. *)
Inductive answers : Bound.t -> bool -> bool -> list range -> list range -> list span -> Prop :=
  | an_done p sk ne : answers p sk ne [] [] []
  | an_range p sk ne b y o1 sk' inp outs seen :
      answer1 ini l p sk (b, y) = (o1, sk') ->
      answers b sk' (ne || negb (bool_decide (o1 = []))) inp outs seen ->
      answers p sk ne ((b, y) :: inp) (o1 ++ outs) ((p, b, y) :: seen)
  | an_drop p sk b fp inp :
      fp <> fingerprint_of (seg p b l) ->
      answers p sk true ((b, Fp fp) :: inp) [tail_fp b] [(p, b, Fp fp)]
  | an_part p sk ne b xs c inp :
      ini = false -> ble p c -> ble c b -> Bound.wf c -> (c = b \/ seg p c l <> []) ->
      answers p sk ne ((b, Ids xs) :: inp) (skips sk p ++ [(c, Ids (ids (seg p c l))); tail_fp c]) [(p, b, Ids xs)].

End Reference.

Section Run.
Context {crypto : Crypto} {S : Type} `{!NegentropyStore S}.
Context (e : Negentropy.t S) (l : list Item.t).
Context (Hm : ns_models (store e) l) (Hprop : proper l) (He : wf_engine e).

Notation at_range := (NegRun.at_range l).

(** The id list of a responder, up to the item that does not fit. *)
Lemma visit_list_cut full_len k ids0 num eb up rank : Forall Item.wf k ->
  exists j, let '(ids', num', eb', up') := visit (list_item (frame_limit e) full_len) (ids0, num, eb, up) rank k in
    ids' = ids0 ++ concat (ids (take j k)) /\ num' = num + lenN (take j k) /\ (j <= length k)%nat /\
    ((j = length k /\ eb' = eb /\ up' = up) \/
     exists x, k !! j = Some x /\ eb' = Bound.at_item (Item.sort_key x) (Item.id x) /\ up' = rank + N.of_nat j /\
       ~ within e 200 (full_len + lenN ids')).
Proof.
  intros Hw. revert ids0 num rank. induction Hw as [|x k Hx Hw IH]; intros ids0 num rank; cbn [visit].
  - exists 0%nat. rewrite app_nil_r. split_and!; [done|by rewrite N.add_0_r|done|by left].
  - unfold list_item at 1. destruct (exceeds_limit (frame_limit e) (full_len + lenN ids0)) eqn:E.
    + exists 0%nat. rewrite app_nil_r. split_and!; [done|by rewrite N.add_0_r|cbn; lia|]. right. exists x.
      split_and!; [done|done|lia|]. rewrite <- not_exceeds by done. by rewrite E.
    + destruct (IH (ids0 ++ Item.id x) (num + 1) (rank + 1)) as [j Hj].
      destruct (visit _ _ _ _) as [[[ids' num'] eb'] up']. destruct Hj as (H1 & H2 & H3 & H4).
      exists (Datatypes.S j). cbn [take length].
      change (ids (x :: take j k)) with (Item.id x :: ids (take j k)). cbn [concat]. rewrite H1, <- app_assoc, lenN_cons.
      split_and!; [done|lia|lia|]. destruct H4 as [(-> & -> & ->)|(y & Hy & -> & -> & Hn)]; [left; split_and!; lia || done|].
      right. exists y. split_and!; [done|done|lia|]. by rewrite H1, <- app_assoc in Hn.
Qed.

(** An item cuts its list at its rank. *)
Lemma rank_at_item j x : l !! j = Some x -> rank (Bound.at_item (Item.sort_key x) (Item.id x)) l = N.of_nat j.
Proof.
  intros Hx. destruct (ns_models_sorted _ l Hm) as (Hs & _ & _). unfold rank.
  change (bound_as_item (Bound.at_item (Item.sort_key x) (Item.id x))) with (Item.mk (Item.sort_key x) (Item.id x)).
  assert (Item.mk (Item.sort_key x) (Item.id x) = x) as -> by by destruct x.
  pose proof (rank_of_prefix x l j x Hs Hx) as H1. pose proof (Item.lt_irrefl x) as H2.
  assert (Hge : ~ N.of_nat j < rank_of x l) by tauto. clear H1 H2.
  destruct j as [|j]; [lia|]. pose proof (lookup_lt_Some _ _ _ Hx) as Hlen.
  destruct (lookup_lt_is_Some_2 l j ltac:(lia)) as [y Hy].
  pose proof (rank_of_prefix x l j y Hs Hy) as H3.
  assert (Item.lt y x).
  { apply list_elem_of_split_length in Hx as (k1 & k2 & -> & Hk). apply Item.sorted_middle in Hs as (_ & _ & H & _).
    apply H. rewrite lookup_app_l in Hy by lia. by eapply list_elem_of_lookup_2. }
  assert (N.of_nat j < rank_of x l) by tauto. lia.
Qed.

(** Where an id list ended at an item stops. *)
Lemma seg_at_item p b j x : ble p b -> seg p b l !! j = Some x ->
  let c := Bound.at_item (Item.sort_key x) (Item.id x) in
  ble p c /\ ble c b /\ Bound.wf c /\ rank c l = rank p l + N.of_nat j /\ seg p c l = take j (seg p b l).
Proof.
  intros Hpb Hx c. destruct (ns_models_sorted _ l Hm) as (Hs & Hw & _).
  assert (Hc : bound_as_item c = x) by by destruct x.
  pose proof (list_elem_of_lookup_2 _ _ _ Hx) as Hin. apply elem_of_seg in Hin as [Hxl [Hpx Hxb]]; [|done].
  pose proof (lookup_lt_Some _ _ _ Hx) as Hj. pose proof (rank_mono p b l Hpb) as Hr. pose proof (rank_le b l) as Hrl.
  assert (Hlook : l !! (N.to_nat (rank p l) + j)%nat = Some x).
  { unfold seg, ranks in Hx. rewrite lookup_take_lt, lookup_drop in Hx; [done|].
    unfold seg, ranks in Hj. rewrite length_take in Hj. lia. }
  pose proof (rank_at_item _ _ Hlook) as Hrank. fold c in Hrank.
  assert (Hrc : rank c l = rank p l + N.of_nat j) by lia.
  split_and!.
  - unfold ble. by rewrite Hc.
  - unfold ble. rewrite Hc. intros Hbx. eapply Item.lt_irrefl, Item.lt_trans; eauto.
  - rewrite Forall_forall in Hw. destruct (Hw x Hxl) as [Hl Hk]. by apply BoundFacts.wf_at_item.
  - done.
  - unfold seg, ranks. rewrite take_take, Hrc. f_equal.
    assert (j < length (seg p b l))%nat as Hj' by done. unfold seg, ranks in Hj'. rewrite length_take in Hj'. lia.
Qed.

Lemma enc_body_ids xs : enc_body (Ids xs) = write_varint MODE_ID_LIST ++ write_varint (lenN xs) ++ concat xs.
Proof. done. Qed.

(** The responder's answer to an id list: complete, or ended where the
    limit is passed. *)
Lemma do_ids_cut p b xs inp out sk hv nd : is_initiator e = false ->
  Bound.wf b -> ble p b -> wf_body (Ids xs) -> within e 200 (1 + lenN (enc 0 out)) ->
  exists c, let out' := out ++ skips sk p ++ [(c, Ids (ids (seg p c l)))] in
    ble p c /\ ble c b /\ Bound.wf c /\ (c = b \/ seg p c l <> [] /\ ~ within e 200 (1 + lenN (enc 0 out'))) /\
    do_range e (at_range p ((b, Ids xs) :: inp) out sk hv nd) (BoundCodec.mk (Bound.ts b) (last_ts 0 out))
      MODE_ID_LIST (rest_of (Ids xs) ++ enc (Bound.ts b) inp) b (rank b l) =
    Ok (Out (enc (Bound.ts b) inp) (PROTOCOL_VERSION :: enc 0 out') [] (BoundCodec.mk (Bound.ts b) (last_ts 0 out'))
          false (rank c l) hv nd).
Proof.
  intros Hini Hb Hpb (Hxs & Hn & Hlen) Hin. pose proof (rank_mono p b l Hpb) as Hr. pose proof (rank_le b l) as Hrl.
  destruct (ns_models_sorted _ l Hm) as (Hs & Hw & Hmax).
  assert (Hdo : forall ids' num' c, ids' = concat (ids (seg p c l)) -> num' = lenN (seg p c l) ->
    visit (list_item (frame_limit e) (lenN (PROTOCOL_VERSION :: enc 0 out))) ([], 0, b, rank b l) (rank p l) (seg p b l) =
      (ids', num', c, rank c l) ->
    do_range e (at_range p ((b, Ids xs) :: inp) out sk hv nd) (BoundCodec.mk (Bound.ts b) (last_ts 0 out))
      MODE_ID_LIST (rest_of (Ids xs) ++ enc (Bound.ts b) inp) b (rank b l) =
    Ok (Out (enc (Bound.ts b) inp) (PROTOCOL_VERSION :: enc 0 (out ++ skips sk p ++ [(c, Ids (ids (seg p c l)))])) []
      (BoundCodec.mk (Bound.ts b) (last_ts 0 (out ++ skips sk p ++ [(c, Ids (ids (seg p c l)))]))) false (rank c l) hv nd)).
  { intros ids' num' c -> -> Hv. unfold do_range. change (MODE_ID_LIST =? MODE_SKIP) with false.
    change (MODE_ID_LIST =? MODE_FINGERPRINT) with false. rewrite N.eqb_refl. unfold do_id_list. cbn [rest_of].
    rewrite <- app_assoc, read_write_varint by (unfold u32_max, u64_max in *; lia). cbn [mbind result_bind].
    rewrite (proj2 (N.ltb_ge _ _)).
    2: { rewrite lenN_app, lenN_concat by done. unfold ID_SIZE. change (N.of_nat 32) with 32. lia. }
    destruct (match_ids e l Hm Hprop He xs p b hv (enc (Bound.ts b) inp) Hxs Hn Hpb) as (th & th' & -> & _ & _).
    unfold at_range. cbn [mbind result_bind prev_rank prev_bound skip codec full have need].
    rewrite Hini, flush_skip_enc, (ns_for_each_spec _ l) by done. cbn [expect mbind result_bind].
    fold (seg p b l). rewrite Hv. cbn [mbind result_bind]. rewrite encode_pair.
    cbn [mbind result_bind BoundCodec.last_ts_in BoundCodec.last_ts_out].
    rewrite !last_ts_app, !enc_app, ?last_ts_app. cbn [enc last_ts app]. by rewrite enc_body_ids, lenN_ids, app_nil_r. }
  destruct (visit_list_cut (lenN (PROTOCOL_VERSION :: enc 0 out)) (seg p b l) [] 0 b (rank b l) (rank p l)) as [j Hj];
    [by apply (wf_seg e)|].
  destruct (visit _ _ _ _) as [[[ids' num'] eb'] up']. destruct Hj as (H1 & H2 & H3 & H4). cbn [app] in H1. rewrite N.add_0_l in H2.
  destruct H4 as [(-> & -> & ->)|(x & Hx & -> & -> & Hno)].
  - rewrite firstn_all in *. exists b. split_and!; try done; [by left|]. by apply (Hdo ids' num').
  - destruct (seg_at_item p b j x Hpb Hx) as (C1 & C2 & C3 & C4 & C5).
    set (c := Bound.at_item (Item.sort_key x) (Item.id x)) in *. rewrite <- C5 in *. exists c.
    split_and!; try done; [|apply (Hdo ids' num'); [done|done|by rewrite C4]]. right. split.
    + intros Hnil. apply Hno. eapply within_le; [exact Hin|]. rewrite H1, Hnil, lenN_cons.
      change (lenN (concat (ids []))) with 0. lia.
    + intros Hw'. apply Hno. eapply within_le; [exact Hw'|]. rewrite H1, lenN_cons, !enc_app, !lenN_app.
      cbn [enc]. rewrite enc_body_ids, !lenN_app. lia.
Qed.

(** Writing the fallback. *)
Lemma tail_enc ti out c :
  (PROTOCOL_VERSION :: enc 0 out) ++ (BoundCodec.encode (BoundCodec.mk ti (last_ts 0 out)) Bound.infinity).2 ++
    write_varint MODE_FINGERPRINT ++ fingerprint_of (ranks (rank c l) (lenN l) l) =
  PROTOCOL_VERSION :: enc 0 (out ++ [tail_fp l c]).
Proof.
  unfold tail_fp, seg. rewrite (rank_infinity' e l Hm Hprop), enc_app. cbn [enc enc_body app].
  by rewrite app_nil_r, encode_snd.
Qed.

(** A split fits when nothing was written before it. *)
Lemma split_fits sk p b : Bound.wf p -> Bound.wf b -> ble p b -> within e 200 (1 + lenN (enc 0 (skips sk p ++ split l p b))).
Proof.
  intros Hp Hb Hpb. pose proof (rank_mono p b l Hpb) as Hr. pose proof (rank_le b l) as Hrl.
  assert (Hs : lenN (enc 0 (skips sk p ++ split l p b)) <= 44 + 1040).
  { rewrite enc_app, lenN_app. apply N.add_le_mono.
    - destruct sk; cbn [skips enc enc_body]; [|by apply N.leb_le]. rewrite !lenN_app.
      pose proof (length_encode (BoundCodec.mk 0 0) p Hp). change (lenN (write_varint MODE_SKIP)) with 1.
      change (lenN (@nil byte)) with 0. lia.
    - pose proof (split_range_sat (store e) l (rank p l) (rank b l) b (BoundCodec.mk 0 (last_ts 0 (skips sk p))) []
        Hm Hb Hr Hrl) as Hsat.
      rewrite (split_range_enc _ l) in Hsat by done. cbn [sat] in Hsat. exact Hsat. }
  unfold within, wf_engine, FRAME_LIMIT_FLOOR in *. destruct (frame_limit e); [lia|done].
Qed.

Lemma step_cut p b y inp out sk hv nd : Bound.wf p -> Bound.wf b -> ble p b -> wf_body y ->
  within e 200 (1 + lenN (enc 0 out)) ->
  let hv' := hv ++ (if is_initiator e then haves l (p, b, y) else []) in
  let nd' := nd ++ (if is_initiator e then needs l (p, b, y) else []) in
  (let '(o1, sk') := answer1 (is_initiator e) l p sk (b, y) in
   within e 200 (1 + lenN (enc 0 (out ++ o1))) /\
   step e (lenN l) (at_range p ((b, y) :: inp) out sk hv nd) = Ok (at_range b inp (out ++ o1) sk' hv' nd', true)) \/
  exists st outs, step e (lenN l) (at_range p ((b, y) :: inp) out sk hv nd) = Ok (st, false) /\
    full st = PROTOCOL_VERSION :: enc 0 (out ++ outs) /\ have st = hv' /\ need st = nd' /\
    answers (is_initiator e) l p sk (negb (bool_decide (out = []))) ((b, y) :: inp) outs [(p, b, y)].
Proof.
  intros Hp Hb Hpb Hy Hin hv' nd'. pose proof (step_enc e l Hm Hprop He p b y inp out sk hv nd Hb Hpb Hy) as Hstep.
  destruct (answer1 (is_initiator e) l p sk (b, y)) as [o1 sk'] eqn:E1.
  destruct (exceeds_limit (frame_limit e) (1 + lenN (enc 0 (out ++ o1)))) eqn:Ex.
  2: { left. apply not_exceeds in Ex; [|done]. split; [done|]. by apply Hstep. }
  right. clear Hstep.
  assert (Hnil : o1 <> []).
  { intros ->. rewrite app_nil_r in Ex. apply not_exceeds in Hin; [|done]. congruence. }
  assert (Hfp : ns_fingerprint (store e) (rank b l) (lenN l) = Some (fingerprint_of (ranks (rank b l) (lenN l) l))).
  { apply (ns_fingerprint_spec _ l); [done|apply rank_le|done]. }
  destruct y as [|fp|xs]; cbn [answer1] in E1; [by injection E1 as <- _| |].
  - destruct (decide (fp = _)) as [|Hne]; [by injection E1 as <- _|]. injection E1 as <- <-.
    rewrite step_head by done. cbn [mode_of rest_of]. unfold do_range.
    change (MODE_FINGERPRINT =? MODE_SKIP) with false. rewrite N.eqb_refl, do_fp_enc by done.
    cbn [mbind result_bind o_full o o_cursor o_codec o_skip o_upper o_have o_need].
    rewrite <- lenN_app. assert (Happ : (PROTOCOL_VERSION :: enc 0 out) ++ enc (last_ts 0 out) (skips sk p ++ split l p b) =
      PROTOCOL_VERSION :: enc 0 (out ++ skips sk p ++ split l p b)) by by rewrite (enc_app 0 out).
    rewrite Happ, lenN_cons, Ex, Hfp. cbn [expect mbind result_bind]. rewrite encode_wf_pair.
    do 2 eexists. split; [done|]. cbn [full have need]. subst hv' nd'. cbn [haves needs].
    split_and!; [|by destruct (is_initiator e); rewrite app_nil_r..|].
    + rewrite encode_snd. cbn [BoundCodec.last_ts_out]. rewrite <- (tail_enc 0 out b). by rewrite (encode_snd (BoundCodec.mk 0 _)).
    + rewrite bool_decide_eq_false_2; [by apply an_drop|]. intros ->. cbn [app] in Ex.
      pose proof (split_fits sk p b Hp Hb Hpb) as Hfit. apply not_exceeds in Hfit; [|done]. congruence.
  - destruct (is_initiator e) eqn:Hini; [by injection E1 as <- _|]. injection E1 as <- <-.
    destruct (do_ids_cut p b xs inp out sk hv nd Hini Hb Hpb Hy Hin) as (c & Hpc & Hcb & Hwc & Hc & Hdo).
    rewrite step_head by done. cbn [mode_of]. rewrite Hdo.
    cbn [mbind result_bind o_full o o_cursor o_codec o_skip o_upper o_have o_need]. change (lenN (@nil byte)) with 0.
    rewrite lenN_cons, N.add_0_r.
    assert (Hex : exceeds_limit (frame_limit e) (1 + lenN (enc 0 (out ++ skips sk p ++ [(c, Ids (ids (seg p c l)))]))) = true).
    { destruct Hc as [->|[_ Hno]]; [done|]. apply not_false_iff_true. intros E.
      by apply not_exceeds in E. }
    rewrite Hex, (ns_fingerprint_spec _ l) by (done || apply rank_le). cbn [expect mbind result_bind]. rewrite encode_wf_pair.
    eexists _, (skips sk p ++ [(c, Ids (ids (seg p c l))); tail_fp l c]). split; [done|]. cbn [full have need].
    subst hv' nd'. rewrite (app_nil_r hv), (app_nil_r nd). split_and!; [|done|done|].
    + rewrite tail_enc. by rewrite <- !app_assoc.
    + apply an_part; try done. destruct Hc as [|[? _]]; tauto.
Qed.

(** The loop follows [answers]. *)
Lemma run_cut inp fuel p out sk hv nd : Bound.wf p ->
  ascending p inp -> Forall (fun r => wf_body r.2) inp -> (length (enc (Bound.ts p) inp) <= fuel)%nat ->
  within e 200 (1 + lenN (enc 0 out)) ->
  exists st outs seen, run fuel e (lenN l) (at_range p inp out sk hv nd) = Ok st /\
    full st = PROTOCOL_VERSION :: enc 0 (out ++ outs) /\
    have st = hv ++ (if is_initiator e then concat (map (haves l) seen) else []) /\
    need st = nd ++ (if is_initiator e then concat (map (needs l) seen) else []) /\
    answers (is_initiator e) l p sk (negb (bool_decide (out = []))) inp outs seen.
Proof.
  revert fuel p out sk hv nd. induction inp as [|[b y] inp IH]; intros fuel p out sk hv nd Hp Ha Hw Hf Hin.
  { exists (at_range p [] out sk hv nd), [], []. cbn [map concat]. rewrite app_nil_r.
    split; [by destruct fuel|]. split_and!; [done| | |apply an_done]; destruct (is_initiator e); by rewrite app_nil_r. }
  destruct Ha as (Hpb & Hb & Ha). apply Forall_cons in Hw as [Hy Hw].
  assert (Hlen : (length (enc (Bound.ts b) inp) < length (enc (Bound.ts p) ((b, y) :: inp)))%nat).
  { cbn [enc]. rewrite !length_app. pose proof (enc_body_pos y). lia. }
  destruct fuel as [|fuel]; [lia|]. cbn [run].
  destruct (cursor (at_range p ((b, y) :: inp) out sk hv nd)) eqn:Ec.
  { change (enc (Bound.ts p) ((b, y) :: inp) = []) in Ec. rewrite Ec in Hlen. cbn in Hlen. lia. }
  destruct (step_cut p b y inp out sk hv nd Hp Hb Hpb Hy Hin) as [Hon|(st & outs & -> & Hfull & Hh & Hn & Hans)].
  - destruct (answer1 (is_initiator e) l p sk (b, y)) as [o1 sk'] eqn:E1. destruct Hon as [Hin' ->].
    cbn [mbind result_bind]. set (hv' := hv ++ _). set (nd' := nd ++ _).
    destruct (IH fuel b (out ++ o1) sk' hv' nd' Hb Ha Hw ltac:(lia) Hin') as (st & outs & seen & -> & Hfull & Hh & Hn & Hans).
    exists st, (o1 ++ outs), ((p, b, y) :: seen). cbn [map concat]. rewrite Hfull, Hh, Hn. subst hv' nd'.
    split; [done|]. split; [by rewrite app_assoc|].
    split; [by destruct (is_initiator e); rewrite <- !app_assoc|].
    split; [by destruct (is_initiator e); rewrite <- !app_assoc|].
    eapply an_range; [exact E1|]. replace (negb _ || negb _) with (negb (bool_decide (out ++ o1 = []))); [done|].
    rewrite <- negb_andb. f_equal. rewrite <- bool_decide_and. apply bool_decide_ext. apply app_nil.
  - exists st, outs, [(p, b, y)]. cbn [mbind result_bind map concat]. rewrite (app_nil_r (haves _ _)), (app_nil_r (needs _ _)).
    by split_and!.
Qed.

(** The reply and the report of [reconcile], under any limit accepted. *)
Lemma reconcile_cut inp : ascending start inp -> Forall (fun r => wf_body r.2) inp ->
  exists outs seen, answers (is_initiator e) l start false false inp outs seen /\
    reconcile e (PROTOCOL_VERSION :: enc 0 inp) = Ok (Round.mk (reply_of e outs)
      (if is_initiator e then concat (map (haves l) seen) else [])
      (if is_initiator e then concat (map (needs l) seen) else [])).
Proof.
  intros Ha Hw.
  destruct (run_cut inp (length (enc 0 inp)) start [] false [] []) as (st & outs & seen & Hrun & Hf & Hh & Hn & Hans);
    [by apply BoundFacts.wf_from_ts|done|done|done| |].
  { unfold within, wf_engine, FRAME_LIMIT_FLOOR in *. destruct (frame_limit e); [|done].
    change (lenN (enc 0 [])) with 0. lia. }
  exists outs, seen. split; [done|]. by apply (reconcile_run e l Hm inp st outs).
Qed.

End Run.
