(* ===== verification/NegLimit.v ===== *)
(** * Reconciliation under any frame limit

    What remains true of an exchange when answers are cut short: it ends,
    and what is reported is right. The fallback fingerprint of a dropped
    split does not cover the whole range it is written for
    ([decent]), so the report may miss differences where such a fingerprint
    agrees with a smaller part of the other set ([overlooked]). *)
From S2P Require Import Prelude Errors Crypto Varint Item IdSum Bound.
From S2P Require Import OrderTree OrderIndex OrderRefine OrderSpec NegStore Negentropy NegFacts NegExact NegRanges NegRun NegReply NegGeneral NegCut.
Open Scope N_scope.
Import Negentropy.

Definition blt (a b : Bound.t) : Prop := Item.lt (bound_as_item a) (bound_as_item b).

(** The first range that is not skipped. *)
Fixpoint front (p : Bound.t) (rs : list range) : option span :=
  match rs with
  | [] => None
  | (b, Skip) :: rs => front b rs
  | (b, y) :: _ => Some (p, b, y)
  end.

Lemma front_app p rs rs' s : front p rs = Some s -> front p (rs ++ rs') = Some s.
Proof. revert p. induction rs as [|[b [|fp|xs]] rs IH]; intros p H; cbn in *; auto; discriminate. Qed.

Lemma front_in p rs s : front p rs = Some s -> s ∈ spans p rs /\ s.2 <> Skip.
Proof.
  revert p. induction rs as [|[b y] rs IH]; intros p H; cbn [front spans] in *; [done|].
  destruct y as [|fp|xs]; [destruct (IH b H); split; [by right|done]|injection H as <-; split; [by left|done]..].
Qed.

Lemma ble_below x a b : ble b a -> ~ Item.lt x (bound_as_item a) -> ~ Item.lt x (bound_as_item b).
Proof. intros H Hx Hb. apply Hx. by eapply Item.lt_le_trans. Qed.

Lemma lenN_two {A} (k : list A) : 2 <= lenN k -> k <> [].
Proof. by intros H ->. Qed.

Section Answers.
Context {crypto : Crypto}.

(** What the holder of [l] says about its own items when answers may be cut
    short. *)
Definition decent (l : list Item.t) (s : span) : Prop :=
  match s with
  | (a, b, Skip) => True
  | (a, b, Fp fp) => fp = fingerprint_of (seg a b l) \/
      (b = Bound.infinity /\ blt a b /\ exists c, ble a c /\ fp = fingerprint_of (seg c b l))
  | (a, b, Ids xs) => xs = ids (seg a b l)
  end.

Lemma honest_decent l s : honest l s -> decent l s.
Proof. destruct s as [[a b] [|fp|xs]]; cbn; [done|intros [H _]; by left|done]. Qed.

(** How the first range of an answer comes from one that was read. *)
Definition reduces (ini : bool) (l : list Item.t) (s s' : span) : Prop :=
  let '(a, b, y) := s in
  let '(a', b', y') := s' in
  a' = a /\ ble a b' /\ ble b' b /\
  match y with
  | Skip => False
  | Fp fp => fp <> fingerprint_of (seg a b l) /\
      ((b' = b /\ exists xs, y' = Ids xs) \/ (2 <= lenN (seg a b' l) < lenN (seg a b l) /\ exists fp', y' = Fp fp'))
  | Ids _ => ini = false /\ (b' = b \/ seg a b' l <> []) /\ exists xs, y' = Ids xs
  end.

Context {S : Type} `{!NegentropyStore S}.
Context (s : S) (l : list Item.t) (Hm : ns_models s l).

Lemma split_front p b fp : ble p b -> Bound.wf b -> fp <> fingerprint_of (seg p b l) ->
  exists s', front p (split l p b) = Some s' /\ reduces true l (p, b, Fp fp) s' /\ reduces false l (p, b, Fp fp) s'.
Proof.
  intros Hpb Hb Hne. destruct (split_spec s l p b Hm Hpb Hb) as (Hl & Ha & Hh & Hk).
  destruct (split l p b) as [|[b' y'] rs] eqn:E; [unfold split in E; by destruct (_ <? _)|].
  destruct (ascending_spans p _ p b' y' Ha (list_elem_of_here _ _)) as (_ & H1 & _ & H2). rewrite Hl in H2.
  specialize (Hk p b' y' (list_elem_of_here _ _)). specialize (Hh _ (list_elem_of_here _ _)).
  destruct (N.ltb_spec (lenN (seg p b l)) 32) as [|Hn].
  - injection Hk as -> -> ->. eexists. split; [done|]. cbn [reduces]. split_and!; eauto.
  - destruct Hk as (fp' & -> & Hmax). destruct Hh as [_ H3].
    assert (lenN (seg p b' l) < lenN (seg p b l)).
    { unfold bucket_max in Hmax. destruct (_ <? _); lia. }
    eexists. split; [done|]. cbn [reduces]. split_and!; eauto.
Qed.

Lemma answer1_front ini p q sk b y o1 sk' : (sk = false -> q = p) -> ble p b -> Bound.wf b ->
  answer1 ini l p sk (b, y) = (o1, sk') ->
  (o1 = [] /\ sk' = true) \/ exists s', front q o1 = Some s' /\ reduces ini l (p, b, y) s'.
Proof.
  intros Hsk Hpb Hb.
  assert (Hpre : forall rs, front q (skips sk p ++ rs) = front p rs).
  { intros rs. destruct sk; [done|]. by rewrite (Hsk eq_refl). }
  destruct y as [|fp|xs]; cbn [answer1]; [intros [= <- <-]; by left| |].
  - destruct (decide (fp = _)) as [|Hne]; intros [= <- <-]; [by left|right].
    destruct (split_front p b fp Hpb Hb Hne) as (s' & Hs' & H1 & H2). exists s'. rewrite Hpre. by destruct ini.
  - destruct ini; intros [= <- <-]; [by left|right]. rewrite Hpre. eexists. split; [done|]. cbn. split_and!; (done || eauto).
Qed.

Context (l' : list Item.t) (Hs' : Item.sorted l').

Let Hs : Item.sorted l.
Proof. apply (ns_models_sorted s l Hm). Qed.

(** Ranges still to say something about are not at the upper end. *)
Lemma unsettled_lt a b fp : decent l' (a, b, Fp fp) -> fp <> fingerprint_of (seg a b l) -> ble b Bound.infinity ->
  seg a b l <> [] \/ seg a b l' <> [] \/ (b = Bound.infinity /\ blt a b).
Proof.
  intros [-> |(-> & Hlt & _)] Hne Hb; [|by auto]. destruct (seg a b l) as [|x k] eqn:E1; [|by left].
  destruct (seg a b l') eqn:E2; [done|right; by left].
Qed.

Lemma seg_lt a b k : Item.sorted k -> seg a b k <> [] -> blt a b.
Proof.
  intros Hk Hne. destruct (seg a b k) as [|x k'] eqn:E; [done|].
  assert (Hx : x ∈ seg a b k) by (rewrite E; by left). apply elem_of_seg in Hx as (_ & H1 & H2); [|done].
  destruct (Item.ltb (bound_as_item a) (bound_as_item b)) eqn:Eb; [by apply Item.ltb_lt|].
  apply Item.ltb_ge in Eb. destruct H1. by eapply Item.lt_le_trans.
Qed.

Lemma answers_seen ini p sk ne inp outs seen x : answers ini l p sk ne inp outs seen -> x ∈ seen -> x ∈ spans p inp.
Proof.
  induction 1 as [| |p sk b fp inp|p sk ne b xs c inp]; cbn [spans]; intros Hx.
  - by apply not_elem_of_nil in Hx.
  - apply elem_of_cons in Hx as [->|]; [by left|right; auto].
  - apply list_elem_of_singleton in Hx as ->. by left.
  - apply list_elem_of_singleton in Hx as ->. by left.
Qed.

(** Read from a decent peer, a decent answer; [q] is the bound written
    last. *)
Lemma answers_decent ini p q sk ne inp outs seen : answers ini l p sk ne inp outs seen ->
  ble q p -> (sk = false -> q = p) -> Bound.wf p -> ascending p inp -> ble (last_bound p inp) Bound.infinity ->
  (forall x, x ∈ spans p inp -> decent l' x) ->
  ascending q outs /\ ble (last_bound q outs) Bound.infinity /\ forall x, x ∈ spans q outs -> decent l x.
Proof.
  intros Hans. revert q. induction Hans as [p sk ne|p sk ne b y o1 sk' inp outs seen E1 _ IH|p sk b fp inp Hne|p sk ne b xs c inp _ Hpc Hcb Hc _];
    cbn [ascending spans last_bound]; intros q Hqp Hsk Hwp Ha Hinf Hd.
  - split_and!; [done|by etransitivity|]. intros x Hx. by apply not_elem_of_nil in Hx.
  - destruct Ha as (Hpb & Hwb & Ha). pose proof (answer1_spec s l Hm ini p q sk b y Hqp Hsk Hwp Hpb Hwb) as H1.
    rewrite E1 in H1. destruct H1 as (Ha1 & Hb1 & Hs1 & Hr1).
    destruct (IH (last_bound q o1) Hb1 Hs1 Hwb Ha Hinf) as (Ha2 & Hl2 & Hd2); [intros x Hx; apply Hd; by right|].
    rewrite ascending_app, spans_app, last_bound_app. split_and!; [done|done|done|].
    intros x [Hx|Hx]%elem_of_app; [|auto]. apply honest_decent. by apply (rp_honest _ _ _ _ Hr1).
  - destruct Ha as (Hpb & Hwb & Ha). pose proof (ascending_last _ _ Ha) as Hl.
    assert (Hbi : ble b Bound.infinity) by by etransitivity.
    unfold tail_fp. cbn [ascending spans last_bound]. split_and!; [|by apply BoundFacts.wf_from_ts|done|done|].
    { etransitivity; [exact Hqp|by etransitivity]. }
    intros x ->%list_elem_of_singleton. cbn. right. split_and!; [done| |exists b; split; [by etransitivity|done]].
    assert (Hlt : blt p Bound.infinity); [|intros; by eapply Item.le_lt_trans].
    destruct (unsettled_lt p b fp) as [H|[H|[-> H]]]; [apply Hd; by left|done|done| | |done];
      (eapply Item.lt_le_trans; [eapply (seg_lt p b); [|exact H]; assumption|done]).
  - destruct Ha as (Hpb & Hwb & Ha). pose proof (ascending_last _ _ Ha) as Hl.
    assert (Hci : ble c Bound.infinity) by (etransitivity; [exact Hcb|by etransitivity]).
    assert (Hwi : Bound.wf Bound.infinity) by by apply BoundFacts.wf_from_ts.
    unfold tail_fp. destruct sk; cbn [skips app ascending spans last_bound]; [|rewrite (Hsk eq_refl) in *]; (split_and!; try done);
      repeat (intros x [->|Hx]%elem_of_cons; [|revert x Hx]); cbn [decent]; auto;
      intros x Hx; by apply not_elem_of_nil in Hx.
Qed.

(** Every item of a range read is settled or covered by the answer. *)
Lemma answers_cover ini p q sk ne inp outs seen : answers ini l p sk ne inp outs seen ->
  ble q p -> (sk = false -> q = p) -> Bound.wf p -> ascending p inp ->
  forall a b y x, (a, b, y) ∈ spans p inp -> y <> Skip -> inside a b x -> Item.lt x (bound_as_item Bound.infinity) ->
    covers (spans q outs) x \/ ((a, b, y) ∈ seen /\ settled ini l (a, b, y)).
Proof.
  intros Hans. revert q. induction Hans as [p sk ne|p sk ne b y o1 sk' inp outs seen E1 _ IH|p sk b fp inp Hne|p sk ne b xs c inp _ Hpc Hcb Hc _];
    intros q Hqp Hsk Hwp Ha a0 b0 y0 x Hin Hy Hx Hxi.
  - by apply not_elem_of_nil in Hin.
  - destruct Ha as (Hpb & Hwb & Ha). pose proof (answer1_spec s l Hm ini p q sk b y Hqp Hsk Hwp Hpb Hwb) as H1.
    rewrite E1 in H1. destruct H1 as (Ha1 & Hb1 & Hs1 & Hr1). rewrite spans_app, covers_app.
    cbn [spans] in Hin. apply elem_of_cons in Hin as [[= -> -> ->]|Hin].
    + destruct (rp_cover _ _ _ _ Hr1 p b y x (list_elem_of_here _ _) Hx); [right; split; [by left|done]|tauto].
    + destruct (IH _ Hb1 Hs1 Hwb Ha _ _ _ _ Hin Hy Hx Hxi) as [|[]]; [tauto|right; split; [by right|done]].
  - left. destruct (ascending_inside _ _ _ _ _ _ Ha Hin Hx) as [Hlo _].
    eexists q, Bound.infinity, _. split; [by left|]. split; [done|]. split; [by eapply ble_below|done].
  - left. destruct (ascending_inside _ _ _ _ _ _ Ha Hin Hx) as [Hlo _].
    assert (Hsp : exists pre, spans q (skips sk p ++ [(c, Ids (ids (seg p c l))); tail_fp l c]) =
      pre ++ [(p, c, Ids (ids (seg p c l))); (c, Bound.infinity, (tail_fp l c).2)]).
    { destruct sk; [by exists [(q, p, Skip)]|]. exists []. by rewrite (Hsk eq_refl). }
    destruct Hsp as [pre ->]. apply covers_app. right.
    destruct (Item.ltb x (bound_as_item c)) eqn:E.
    + apply Item.ltb_lt in E. eexists _, _, _. split; [by left|]. split; done.
    + apply Item.ltb_ge in E. eexists _, _, _. split; [right; by left|]. split; done.
Qed.

(** The first range of an answer moved on or became smaller. *)
Lemma answers_front ini p q sk ne inp outs seen : answers ini l p sk ne inp outs seen -> ne = false ->
  (sk = false -> q = p) -> ascending p inp ->
  outs = [] \/ exists x y z, front p inp = Some x /\ y ∈ spans p inp /\ (y = x \/ ble x.1.2 y.1.1) /\
    reduces ini l y z /\ front q outs = Some z.
Proof.
  intros Hans. revert q. induction Hans as [p sk ne|p sk ne b y o1 sk' inp outs seen E1 _ IH|p sk b fp inp Hne|p sk ne b xs c inp Hi Hpc Hcb Hc Hprog];
    intros q Hn Hsk Ha.
  - by left.
  - destruct Ha as (Hpb & Hwb & Ha). cbn [spans].
    destruct (answer1_front ini p q sk b y o1 sk' Hsk Hpb Hwb E1) as [[-> ->]|(z & Hz & Hr)].
    + destruct (IH q) as [->|(x & y' & z & Hx & Hy' & Hxy & Hr & Hz)]; [by rewrite Hn|done|done|by left|]. right.
      assert (Hfr : exists x, front p ((b, y) :: inp) = Some x /\ (y' = x \/ ble x.1.2 y'.1.1)).
      { destruct y; cbn [front]; [by exists x|eexists; split; [done|]; right; destruct y' as [[a' b'] z'];
          apply (ascending_spans _ _ _ _ _ Ha Hy')..]. }
      destruct Hfr as (x' & Hx' & Hc). exists x', y', z. split_and!; [done|by right|done|done|done].
    + right. destruct y as [|fp|xs]; [by destruct z as [[? ?] ?], Hr as (_ & _ & _ & [])|..];
        (eexists _, _, z; split_and!; [done|by left|by left|done|by apply front_app]).
  - done.
  - right. destruct Ha as (Hpb & Hwb & Ha). eexists _, _, (p, c, Ids (ids (seg p c l))).
    split; [done|]. split; [by left|]. split; [by left|]. split; [cbn [reduces]; split_and!; (done || eauto)|].
    destruct sk; [done|]. by rewrite (Hsk eq_refl).
Qed.

(** A decent holder's ranges can be read back. *)
Lemma decent_wf rs p : NoDup (ids l) -> (forall x, x ∈ spans p rs -> decent l x) -> Forall (fun r => wf_body r.2) rs.
Proof.
  intros Hn. revert p. induction rs as [|[b y] rs IH]; intros p Hd; constructor.
  - specialize (Hd _ (list_elem_of_here _ _)). destruct y as [|fp|xs]; cbn [decent snd] in *; [done| |].
    + assert (Hlen : forall k, length (fingerprint_of k) = IdSum.FINGERPRINT_SIZE).
      { intros k. pose proof (length_fingerprint k) as H. unfold lenN in H. unfold IdSum.FINGERPRINT_SIZE. lia. }
      cbn [wf_body]. destruct Hd as [-> |(_ & _ & c & _ & ->)]; apply Hlen.
    + subst xs. by apply (ids_wf s l Hm).
  - apply (IH b). intros x Hx. apply Hd. by right.
Qed.

End Answers.

(** The fingerprint of everything from [a] on in one set is that of a smaller
    part of the other. *)
Definition overlooked {crypto : Crypto} (l1 l2 : list Item.t) : Prop :=
  exists a c, ble a c /\ seg a Bound.infinity l1 <> seg a Bound.infinity l2 /\
    fingerprint_of (seg c Bound.infinity l1) = fingerprint_of (seg a Bound.infinity l2).

Definition confused {crypto : Crypto} (l1 l2 : list Item.t) : Prop :=
  collision l1 l2 \/ overlooked l1 l2 \/ overlooked l2 l1.

(** Round trips that are enough. *)
Definition trips (l1 l2 : list Item.t) : N := (lenN l1 + lenN l2 + 2) * (lenN l1 + 2).

Section Pair.
Context {crypto : Crypto} {S1 S2 : Type} `{!NegentropyStore S1, !NegentropyStore S2}.
Context (s1 : S1) (s2 : S2) (lim1 lim2 : option N) (l1 l2 : list Item.t).
Context (Hm1 : ns_models s1 l1) (Hm2 : ns_models s2 l2) (Hp1 : proper l1) (Hp2 : proper l2).
Context (Hcon : consistent l1 l2).
Context (He1 : wf_engine (mk s1 lim1 true)) (He2 : wf_engine (mk s2 lim2 false)).

Let Hs1 : Item.sorted l1.
Proof. apply (ns_models_sorted s1 l1 Hm1). Qed.
Let Hs2 : Item.sorted l2.
Proof. apply (ns_models_sorted s2 l2 Hm2). Qed.

(** ** The measure *)

(** What is left from a bound on. *)
Definition left_from (a : Bound.t) : N :=
  (lenN l1 - rank a l1) + (lenN l2 - rank a l2) +
  (if Item.ltb (bound_as_item a) (bound_as_item Bound.infinity) then 1 else 0).

Definition measure (x : span) : N :=
  left_from x.1.1 * (lenN l1 + 2) + match x.2 with Fp _ => 1 + lenN (seg x.1.1 x.1.2 l1) | _ => 0 end.

Lemma left_mono a b : ble a b -> left_from b <= left_from a.
Proof.
  intros Hab. unfold left_from. pose proof (rank_mono a b l1 Hab). pose proof (rank_mono a b l2 Hab).
  pose proof (rank_le b l1). pose proof (rank_le b l2).
  destruct (Item.ltb (bound_as_item b) _) eqn:Eb; [|destruct (Item.ltb _ _); lia].
  apply Item.ltb_lt in Eb. assert (Item.lt (bound_as_item a) (bound_as_item Bound.infinity)) as ->%Item.ltb_lt; [|lia].
  by eapply Item.le_lt_trans.
Qed.

Lemma seg_ranks a b k : ble a b -> seg a b k <> [] -> rank a k < rank b k.
Proof.
  intros Hab Hne. pose proof (lenN_seg a b k Hab) as Hl. destruct (seg a b k); [done|]. rewrite lenN_cons in Hl. lia.
Qed.

Lemma left_strict a b : ble a b ->
  seg a b l1 <> [] \/ seg a b l2 <> [] \/ (b = Bound.infinity /\ blt a b) -> left_from b < left_from a.
Proof.
  intros Hab Hc. pose proof (left_mono a b Hab) as Hle. unfold left_from in *.
  pose proof (rank_mono a b l1 Hab). pose proof (rank_mono a b l2 Hab). pose proof (rank_le b l1). pose proof (rank_le b l2).
  assert (Hflag : (if Item.ltb (bound_as_item b) (bound_as_item Bound.infinity) then 1 else 0) <=
    (if Item.ltb (bound_as_item a) (bound_as_item Bound.infinity) then 1 else 0)).
  { destruct (Item.ltb (bound_as_item b) _) eqn:Eb; [|destruct (Item.ltb _ _); lia].
    apply Item.ltb_lt in Eb. assert (Item.lt (bound_as_item a) (bound_as_item Bound.infinity)) as ->%Item.ltb_lt; [|lia].
    by eapply Item.le_lt_trans. }
  destruct Hc as [Hc|[Hc|[-> Hc]]].
  - pose proof (seg_ranks a b l1 Hab Hc). lia.
  - pose proof (seg_ranks a b l2 Hab Hc). lia.
  - apply Item.ltb_lt in Hc. rewrite Hc in *. pose proof (Item.lt_irrefl (bound_as_item Bound.infinity)) as Hirr.
    destruct (Item.ltb (bound_as_item Bound.infinity) _) eqn:E; [by apply Item.ltb_lt in E|]. lia.
Qed.

(** A smaller first range. *)
Lemma measure_moved x y : left_from y.1.1 < left_from x.1.1 -> measure y < measure x.
Proof.
  intros H. unfold measure. destruct x as [[a b] z], y as [[a' b'] z']. cbn [fst snd] in *.
  pose proof (lenN_seg_le a' b' l1). destruct z', z; nia.
Qed.

(** ** The invariant of the initiator's messages *)

Record live (rs : list range) (hv nd : list bytes) : Prop := {
  lv_asc : ascending start rs;
  lv_last : ble (last_bound start rs) Bound.infinity;
  lv_decent : forall x, x ∈ spans start rs -> decent l1 x;
  lv_solid : forall x, front start rs = Some x -> left_from x.1.2 < left_from x.1.1;
  lv_hv : forall i, i ∈ hv -> i ∈ ids l1 /\ i ∉ ids l2;
  lv_nd : forall i, i ∈ nd -> i ∈ ids l2 /\ i ∉ ids l1;
  lv_done : forall x, (x ∈ l1 /\ x ∉ l2 -> confused l1 l2 \/ Item.id x ∈ hv \/ covers (spans start rs) x) /\
    (x ∈ l2 /\ x ∉ l1 -> confused l1 l2 \/ Item.id x ∈ nd \/ covers (spans start rs) x) }.

(** A range both sides settle hides no difference, or they are confused. *)
Lemma same_fp_cut (swap : bool) a b fp x :
  decent (if swap then l2 else l1) (a, b, Fp fp) -> fp = fingerprint_of (seg a b (if swap then l1 else l2)) ->
  inside a b x -> (x ∈ l1 /\ x ∉ l2) \/ (x ∈ l2 /\ x ∉ l1) -> confused l1 l2.
Proof.
  intros Hd Hfp Hx Hdiff.
  assert (Hne : seg a b l1 <> seg a b l2).
  { intros Heq. pose proof (elem_of_seg x a b l1 Hs1). pose proof (elem_of_seg x a b l2 Hs2). rewrite Heq in *. tauto. }
  destruct Hd as [Hd|(-> & _ & c & Hac & Hd)].
  - left. exists a, b. split; [done|]. destruct swap; congruence.
  - right. destruct swap; [right|left]; exists a, c; (split_and!; [done|congruence|congruence]).
Qed.

(** ** One round trip *)

Section Trip.
Context (rs : list range) (hv nd : list bytes) (Hlive : live rs hv nd).
Context (outs2 outs1 : list range) (seen2 seen1 : list span).
Context (Hans2 : answers false l2 start false false rs outs2 seen2).
Context (Hans1 : answers true l1 start false false outs2 outs1 seen1).

Lemma outs2_spec : ascending start outs2 /\ ble (last_bound start outs2) Bound.infinity /\
  forall x, x ∈ spans start outs2 -> decent l2 x.
Proof.
  destruct Hlive. by apply (answers_decent s2 l2 Hm2 l1 Hs1 _ _ start _ _ _ _ _ Hans2); try apply wf_start.
Qed.

Lemma outs1_spec : ascending start outs1 /\ ble (last_bound start outs1) Bound.infinity /\
  forall x, x ∈ spans start outs1 -> decent l1 x.
Proof.
  destruct outs2_spec as (Ha & Hl & Hd).
  by apply (answers_decent s1 l1 Hm1 l2 Hs2 _ _ start _ _ _ _ _ Hans1); try apply wf_start.
Qed.

(** What a range leaves of one it was reduced from. *)
Lemma trip_front : outs1 = [] \/ exists x z, front start rs = Some x /\ front start outs1 = Some z /\
  measure z < measure x /\ left_from z.1.2 < left_from z.1.1.
Proof.
  destruct outs2_spec as (Ha2 & Hl2 & Hd2).
  destruct (answers_front s1 l1 Hm1 _ _ start _ _ _ _ _ Hans1) as [|(x2 & y2 & z & Hx2 & Hy2 & Hxy2 & Hr1 & Hz)];
    [done|done|done|by left|right].
  destruct (answers_front s2 l2 Hm2 _ _ start _ _ _ _ _ Hans2) as [->|(x & y & z2 & Hx & Hy & Hxy & Hr2 & Hz2)];
    [done|done|apply Hlive|done|].
  rewrite Hx2 in Hz2. injection Hz2 as <-. exists x, z. split; [done|]. split; [done|].
  pose proof (lv_solid _ _ _ Hlive x Hx) as Hsolid.
  destruct (front_in _ _ _ Hx) as [Hxin _], (front_in _ _ _ Hx2) as [Hx2in _].
  destruct x as [[a b] v], y as [[a1 b1] v1], x2 as [[a2 b2] v2], y2 as [[a3 b3] v3], z as [[a4 b4] v4].
  cbn [fst snd] in *.
  destruct (ascending_spans _ _ _ _ _ Ha2 Hy2) as (_ & H3 & _ & H3i).
  destruct (ascending_spans _ _ _ _ _ Ha2 Hx2in) as (_ & H2 & _).
  destruct (ascending_spans _ _ _ _ _ (lv_asc _ _ _ Hlive) Hxin) as (_ & Hab & _).
  destruct Hr1 as (-> & H34 & H43 & Hv3). destruct Hr2 as (-> & H12 & H21 & Hv1).
  assert (Hz4 : left_from b4 < left_from a3).
  { apply left_strict; [done|]. destruct v3 as [|fp|xs]; [done| |by destruct Hv3].
    destruct Hv3 as (Hne & [(-> & _)|((Hseg & _) & _)]); [|left; by apply lenN_two].
    eapply (unsettled_lt l1 l2 _ _ fp); [by apply Hd2|done|by etransitivity]. }
  split; [|done].
  assert (Ha13 : left_from a3 <= left_from a1).
  { destruct Hxy2 as [[= -> -> ->]|Hle]; [done|]. apply left_mono. by etransitivity. }
  destruct Hxy as [[= -> -> ->]|Hle].
  2: { apply measure_moved. cbn [fst snd]. pose proof (left_mono _ _ Hle). lia. }
  destruct Hxy2 as [[= -> -> ->]|Hle].
  - destruct v2 as [|fp2|xs2]; [done| |by destruct Hv3]. destruct Hv3 as (_ & Hv4).
    destruct v as [|fp|xs]; [done| |by destruct Hv1 as (_ & _ & ? & ?)].
    pose proof (seg_mono a a b2 b l1 (reflexivity a) H2 H21) as Hm.
    unfold measure. cbn [fst snd]. destruct Hv4 as [(-> & xs & ->)|((_ & Hlt) & fp' & ->)]; lia.
  - apply measure_moved. cbn [fst snd]. pose proof (left_mono _ _ Hle).
    enough (left_from b2 < left_from a) by lia. 
    destruct v as [|fp|xs]; [done| |].
    + destruct Hv1 as (_ & [(-> & _)|((Hseg & _) & _)]); [done|]. apply left_strict; [done|]. right; left.
      by apply lenN_two.
    + destruct Hv1 as (_ & [-> |Hne] & _); [done|]. apply left_strict; [done|]. right; by left.
Qed.

Lemma trip_have i : i ∈ concat (map (haves l1) seen1) -> i ∈ ids l1 /\ i ∉ ids l2.
Proof.
  destruct outs2_spec as (Ha2 & Hl2 & Hd2). intros ([[a b] y] & Hin & Hi)%elem_of_concat_map.
  pose proof (Hd2 _ (answers_seen _ _ _ _ _ _ _ _ _ Hans1 Hin)) as Hd.
  destruct y as [|fp|xs]; cbn [haves] in Hi; try by apply not_elem_of_nil in Hi. cbn [decent] in Hd. subst xs.
  apply list_elem_of_In, filter_In in Hi as [Hi Hout]. apply list_elem_of_In in Hi.
  apply bool_decide_eq_true in Hout. apply list_elem_of_fmap in Hi as (x & -> & Hx).
  apply elem_of_seg in Hx as [Hx1 Hx]; [|done]. rewrite (id_other s2 l1 l2 Hm2 Hp2 Hcon) in Hout by done.
  rewrite (id_in_l2 l1 l2 Hcon) by done. split; [|tauto]. apply list_elem_of_fmap. eauto.
Qed.

Lemma trip_need i : i ∈ concat (map (needs l1) seen1) -> i ∈ ids l2 /\ i ∉ ids l1.
Proof.
  destruct outs2_spec as (Ha2 & Hl2 & Hd2). intros ([[a b] y] & Hin & Hi)%elem_of_concat_map.
  pose proof (Hd2 _ (answers_seen _ _ _ _ _ _ _ _ _ Hans1 Hin)) as Hd.
  destruct y as [|fp|xs]; cbn [needs] in Hi; try by apply not_elem_of_nil in Hi. cbn [decent] in Hd. subst xs.
  apply list_elem_of_In, filter_In in Hi as [Hi Hout]. apply list_elem_of_In in Hi.
  apply bool_decide_eq_true in Hout. apply list_elem_of_fmap in Hi as (x & -> & Hx).
  apply elem_of_seg in Hx as [Hx1 Hx]; [|done]. rewrite (id_other' s1 l1 l2 Hm1 Hp1 Hcon) in Hout by done.
  rewrite (id_in_l1 l1 l2 Hcon) by done. split; [|tauto]. apply list_elem_of_fmap. eauto.
Qed.

(** A difference in an open range is hidden, stays open or is reported. *)
Lemma trip_cover x : (x ∈ l1 /\ x ∉ l2) \/ (x ∈ l2 /\ x ∉ l1) -> covers (spans start rs) x ->
  confused l1 l2 \/ covers (spans start outs1) x \/
    exists a b, (a, b, Ids (ids (seg a b l2))) ∈ seen1 /\ inside a b x.
Proof.
  intros Hdiff (a & b & y & Hin & Hy & Hx). destruct outs2_spec as (Ha2 & Hl2 & Hd2).
  assert (Hxi : Item.lt x (bound_as_item Bound.infinity)).
  { apply (inside_all s1 s2 l1 l2 Hm1 Hm2 Hp1 Hp2 x (if decide (x ∈ l1) then l1 else l2));
      destruct (decide (x ∈ l1)); tauto. }
  destruct (answers_cover s2 l2 Hm2 _ _ start _ _ _ _ _ Hans2 (reflexivity _) ltac:(done) wf_start (lv_asc _ _ _ Hlive)
    a b y x Hin Hy Hx Hxi) as [(a2 & b2 & y2 & Hin2 & Hy2 & Hx2)|[_ Hset]].
  - destruct (answers_cover s1 l1 Hm1 _ _ start _ _ _ _ _ Hans1 (reflexivity _) ltac:(done) wf_start Ha2
      a2 b2 y2 x Hin2 Hy2 Hx2 Hxi) as [Hc|[Hseen Hset]]; [tauto|].
    pose proof (Hd2 _ Hin2) as Hd. destruct y2 as [|fp|xs]; [done| |].
    + left. by apply (same_fp_cut true a2 b2 fp x).
    + right; right. cbn [decent] in Hd. subst xs. by exists a2, b2.
  - pose proof (lv_decent _ _ _ Hlive _ Hin) as Hd. destruct y as [|fp|xs]; [done| |done].
    left. by apply (same_fp_cut false a b fp x).
Qed.

Lemma trip_live : live outs1 (hv ++ concat (map (haves l1) seen1)) (nd ++ concat (map (needs l1) seen1)).
Proof.
  destruct outs1_spec as (Ha1 & Hl1 & Hd1). split; [done|done|done| | | |].
  - intros z Hz. destruct trip_front as [->|(x & z' & _ & Hz' & _ & Hlt)]; [done|]. congruence.
  - intros i [Hi|Hi]%elem_of_app; [by apply (lv_hv _ _ _ Hlive)|by apply trip_have].
  - intros i [Hi|Hi]%elem_of_app; [by apply (lv_nd _ _ _ Hlive)|by apply trip_need].
  - intros x. destruct (lv_done _ _ _ Hlive x) as [D1 D2]. rewrite !elem_of_app. split; intros Hx.
    + destruct (D1 Hx) as [|[|Hc]]; [tauto|tauto|].
      destruct (trip_cover x (or_introl Hx) Hc) as [|[|(a & b & Hin & Hxin)]]; [tauto|tauto|].
      right; left; right. apply elem_of_concat_map. eexists. split; [exact Hin|]. cbn [haves].
      apply list_elem_of_In, filter_In. rewrite <- list_elem_of_In, bool_decide_eq_true.
      rewrite (id_other s2 l1 l2 Hm2 Hp2 Hcon) by tauto. split; [|tauto]. apply elem_of_ids_seg; tauto.
    + destruct (D2 Hx) as [|[|Hc]]; [tauto|tauto|].
      destruct (trip_cover x (or_intror Hx) Hc) as [|[|(a & b & Hin & Hxin)]]; [tauto|tauto|].
      right; left; right. apply elem_of_concat_map. eexists. split; [exact Hin|]. cbn [needs].
      apply list_elem_of_In, filter_In. rewrite <- list_elem_of_In, bool_decide_eq_true.
      rewrite (id_other' s1 l1 l2 Hm1 Hp1 Hcon) by tauto. split; [|tauto]. apply elem_of_ids_seg; tauto.
Qed.

End Trip.

(** ** The whole exchange *)

Definition sent_cut (k : nat) (m : bytes) (hv nd : list bytes) : Prop :=
  exists rs x, m = PROTOCOL_VERSION :: enc 0 rs /\ live rs hv nd /\ front start rs = Some x /\ measure x <= N.of_nat k.

Lemma live_rounds : rounds (mk s1 lim1 true) (mk s2 lim2 false) (ids l1) sent_cut (live []).
Proof.
  split. intros k m hv nd (rs & x & -> & Hl & Hx & Hk).
  destruct (reconcile_cut (mk s2 lim2 false) l2 Hm2 Hp2 He2 rs) as (outs2 & seen2 & Hans2 & E2);
    [apply Hl|apply (decent_wf s1 l1 Hm1 rs start); [apply Hp1|apply Hl]|].
  cbn [is_initiator] in Hans2, E2. destruct (outs2_spec _ _ _ Hl _ _ Hans2) as (Ha2 & _ & Hd2).
  destruct (reconcile_cut (mk s1 lim1 true) l1 Hm1 Hp1 He1 outs2) as (outs1 & seen1 & Hans1 & E1);
    [done|by apply (decent_wf s2 l2 Hm2 outs2 start); [apply Hp2|]|].
  cbn [is_initiator] in Hans1, E1. pose proof (trip_live _ _ _ Hl _ _ _ _ Hans2 Hans1) as Hl1.
  do 4 eexists. split; [exact E2|]. split; [exact E1|]. split.
  { intros i Hi. apply (lv_hv _ _ _ Hl1). apply elem_of_app. by right. }
  unfold reply_of. cbn [is_initiator andb]. destruct (bool_decide_reflect (outs1 = [])) as [->|Hne]; [done|].
  destruct (trip_front _ _ _ Hl _ _ _ _ Hans2 Hans1) as [|(x' & z & Hx' & Hz & Hlt & _)]; [done|].
  rewrite Hx' in Hx. injection Hx as ->. destruct k as [|k]; [lia|]. exists k. split; [done|].
  exists outs1, z. split_and!; try done. lia.
Qed.

Lemma measure_trips x : measure x < trips l1 l2.
Proof.
  unfold measure, trips, left_from. destruct x as [[a b] y]. cbn [fst snd]. pose proof (lenN_seg_le a b l1).
  pose proof (rank_le a l1). pose proof (rank_le a l2). destruct y, (Item.ltb _ _); nia.
Qed.

(** The opening message. *)
Lemma live_open : live (split l1 start Bound.infinity) [] [] /\ front start (split l1 start Bound.infinity) <> None.
Proof.
  assert (Hinf : Bound.wf Bound.infinity) by by apply BoundFacts.wf_from_ts.
  assert (Hle : ble start Bound.infinity) by by apply start_least.
  destruct (split_spec s1 l1 start Bound.infinity Hm1 Hle Hinf) as (Hl & Ha & Hh & _).
  destruct (split_front s1 l1 Hm1 start Bound.infinity [] Hle Hinf) as ([[a b] y] & Hz & (-> & Hab & _ & _ & Hy) & _).
  { intros E. pose proof (length_fingerprint (seg start Bound.infinity l1)) as Hf. rewrite <- E in Hf. done. }
  split; [|by rewrite Hz]. split.
  - done.
  - by rewrite Hl.
  - intros x Hx. by apply honest_decent, Hh.
  - intros x Hx. rewrite Hz in Hx. injection Hx as <-. cbn [fst snd]. apply left_strict; [done|].
    destruct Hy as [(-> & _)|((Hseg & _) & _)]; [by right; right|left; by apply lenN_two].
  - intros i Hi. by apply not_elem_of_nil in Hi.
  - intros i Hi. by apply not_elem_of_nil in Hi.
  - intros x. split; intros [Hx _]; right; right; apply (open_covers s1 s2 l1 l2 Hm1 Hm2 Hp1 Hp2 x (if decide (x ∈ l1) then l1 else l2));
      destruct (decide (x ∈ l1)); tauto.
Qed.

(** What is left when the exchange is over. *)
Lemma live_final hv nd : live [] hv nd ->
  (forall i, i ∈ hv -> i ∈ ids l1 /\ i ∉ ids l2) /\ (forall i, i ∈ nd -> i ∈ ids l2 /\ i ∉ ids l1) /\
  (confused l1 l2 \/
     (forall i, i ∈ ids l1 -> i ∉ ids l2 -> i ∈ hv) /\ (forall i, i ∈ ids l2 -> i ∉ ids l1 -> i ∈ nd)).
Proof.
  intros Hl. split; [apply Hl|]. split; [apply Hl|]. apply (report_complete l1 l2 Hcon).
  - intros y H1 H2. destruct (proj1 (lv_done _ _ _ Hl y)) as [|[|Hc]]; [done|by left|by right|by apply uncovered in Hc].
  - intros y H1 H2. destruct (proj2 (lv_done _ _ _ Hl y)) as [|[|Hc]]; [done|by left|by right|by apply uncovered in Hc].
Qed.

End Pair.

