(* ===== verification/NegLoss.v ===== *)
(** * An exchange cut short that loses items

    Two concrete sets for which the fallback of [reconcile] goes wrong under
    the smallest limit accepted: the initiator holds sixteen buckets of 31
    items, the responder has others in the first three buckets and in three
    late ones, and nothing in the last bucket. The responder's id lists for
    the first three buckets fill its message, the splits of later ranges are
    dropped, and the fallback fingerprints both sides write are the one of
    the empty set. *)
From S2P Require Import Prelude Errors Crypto Varint Item IdSum Bound.
From S2P Require Import OrderTree OrderIndex OrderRefine OrderSpec NegStore Negentropy NegFacts NegExact NegRanges NegRun NegReply NegGeneral NegCut NegLimit.
Open Scope N_scope.
Import Negentropy.

(** The item number [n] as an id. *)
Definition num_id (n : N) : bytes := byte_of (n mod 256) :: byte_of (n / 256) :: replicate 30 (byte_of 0).

(** Where a bucket of items starts. *)
Definition bucket_key (k : nat) : N :=
  if (k <=? 5)%nat then 20000 * N.of_nat k else 100000 + 1000 * (N.of_nat k - 5).

Definition bucket_items (first shift : N) (n k : nat) : list Item.t :=
  map (fun i => Item.mk (bucket_key k + 10 * N.of_nat i + shift) (num_id (first + 100 * N.of_nat k + N.of_nat i))) (seq 0 n).

Definition items_a : list Item.t := concat (map (bucket_items 1 0 31) (seq 0 16)).
Definition items_b : list Item.t :=
  concat (map (bucket_items 5000 0 31) [0; 1]%nat) ++ bucket_items 5000 0 29 2 ++
  concat (map (bucket_items 5000 1 32) [12; 13; 14]%nat).

Definition set_a : SealedVec.t := SealedVec.new items_a.
Definition set_b : SealedVec.t := SealedVec.new items_b.

(** Sealing sorted items changes nothing. *)
Lemma sealed_concrete k : forallb (fun x => (length (Item.id x) =? 32)%nat && (Item.sort_key x <? u64_max)) k = true ->
  lenN k <= u32_max -> SealedVec.items (SealedVec.new k) = k -> ns_models (crypto := toy_crypto) (SealedVec.new k) k.
Proof.
  intros Hk Hl He. destruct (sealed_new_models k) as (l' & Hm & _).
  - apply Forall_forall. intros x Hx%list_elem_of_In. rewrite forallb_forall in Hk.
    specialize (Hk x Hx). apply andb_true_iff in Hk as [H1%Nat.eqb_eq H2%N.ltb_lt]. split; [done|lia].
  - done.
  - pose proof Hm as (He' & _). change (ns_models (SealedVec.new k) l') in Hm. congruence.
Qed.

Lemma set_a_models : ns_models (crypto := toy_crypto) set_a items_a.
Proof. apply sealed_concrete; [vm_compute; reflexivity|vm_compute; discriminate|vm_compute; reflexivity]. Qed.
Lemma set_b_models : ns_models (crypto := toy_crypto) set_b items_b.
Proof. apply sealed_concrete; [vm_compute; reflexivity|vm_compute; discriminate|vm_compute; reflexivity]. Qed.
Lemma items_a_proper : proper items_a.
Proof. apply proper_b_spec. vm_compute. reflexivity. Qed.
Lemma items_b_proper : proper items_b.
Proof. apply proper_b_spec. vm_compute. reflexivity. Qed.
Lemma items_consistent : consistent items_a items_b.
Proof. apply consistent_b_spec. vm_compute. reflexivity. Qed.


(** An id of the last bucket. *)
Definition lost : bytes := num_id 1504.

(** Whether the outcome of the exchange fails to report an id of the initiator. *)
Definition loses (r : result SyncError.t (list bytes * list bytes)) (i : bytes) : bool :=
  match r with
  | Ok (hv, _) =>
      forallb (fun j => negb (bool_decide (i = j))) hv && existsb (fun j => bool_decide (i = j)) (ids items_a) &&
      forallb (fun j => negb (bool_decide (i = j))) (ids items_b)
  | _ => false
  end.

Lemma notin_b i (k : list bytes) : forallb (fun j => negb (bool_decide (i = j))) k = true -> i ∉ k.
Proof.
  rewrite forallb_forall. intros H Hi%list_elem_of_In. specialize (H i Hi).
  by rewrite bool_decide_eq_true_2 in H.
Qed.

Lemma loses_spec {A} (r1 : result SyncError.t (A * bytes)) (f : A -> bytes -> result SyncError.t (list bytes * list bytes)) i :
  loses ('(e, m) ← r1; f e m) i = true ->
  exists e m hv nd j, r1 = Ok (e, m) /\ f e m = Ok (hv, nd) /\ j ∈ ids items_a /\ j ∉ ids items_b /\ j ∉ hv.
Proof.
  destruct r1 as [[e m]|er|]; try discriminate. cbn [mbind result_bind].
  destruct (f e m) as [[hv nd]|er|] eqn:E; try discriminate.
  unfold loses. intros [[H1 H2]%andb_true_iff H3]%andb_true_iff.
  exists e, m, hv, nd, i. split; [done|]. split; [done|]. split_and!; [|by apply notin_b..].
  apply existsb_exists in H2 as (j & Hj & ->%bool_decide_eq_true). by apply list_elem_of_In.
Qed.

Lemma exchange_loses :
  loses ('(e, m) ← initiate (crypto := toy_crypto) (mk set_a (Some 4096) false);
         converse (crypto := toy_crypto) 2 e (mk set_b (Some 4096) false) m [] []) lost = true.
Proof. vm_compute. reflexivity. Qed.

(** C17: the fallback fingerprint can hide a difference for good. Both engines
    run with the limit of 4096 bytes, the sets are proper and agree on
    what an id stands for; the exchange ends by itself after two round trips,
    and an id only the initiator holds is never reported: the initiator's
    next message would have been the split of the rest, but both fallbacks
    compare a remainder with a longer one. *)
Theorem fallback_hides_difference :
  ns_models (crypto := toy_crypto) set_a items_a /\ ns_models (crypto := toy_crypto) set_b items_b /\
  proper items_a /\ proper items_b /\ consistent items_a items_b /\
  exists e1 m hv nd i,
    initiate (crypto := toy_crypto) (mk set_a (Some 4096) false) = Ok (e1, m) /\
    converse (crypto := toy_crypto) 2 e1 (mk set_b (Some 4096) false) m [] [] = Ok (hv, nd) /\
    i ∈ ids items_a /\ i ∉ ids items_b /\ i ∉ hv.
Proof.
  split; [exact set_a_models|]. split; [exact set_b_models|]. split; [exact items_a_proper|].
  split; [exact items_b_proper|]. split; [exact items_consistent|]. exact (loses_spec _ _ _ exchange_loses).
Qed.
