(* ===== verification/Harness.v ===== *)
(** * The conformance harness: core/examples/negentropy_harness.rs

    The line protocol of the upstream suite around one engine. A line and an
    output line are strings of ASCII characters; [None] is a harness that
    died. The [hex] crate is not under src/: [Hex] states what is used of
    it. *)
From S2P Require Import Prelude HexDigits Errors Crypto Varint Item IdSum Bound.
From S2P Require Import OrderTree OrderIndex OrderRefine OrderSpec NegStore Negentropy NegFacts NegExact.
Open Scope N_scope.

(** The characters the protocol names. *)
Definition comma : Ascii.ascii := Ascii.ascii_of_N 44.
Definition plus : Ascii.ascii := Ascii.ascii_of_N 43.

(** [hex::encode] and [hex::decode]. *)
Class Hex := {
  hex_encode : bytes -> string;
  hex_decode : string -> option bytes;
  hex_roundtrip bs : hex_decode (hex_encode bs) = Some bs;
  (** The digits are neither commas nor spaces. *)
  hex_digits bs : Forall (fun c => c <> comma /\ 32 < Ascii.N_of_ascii c) (String.list_ascii_of_string (hex_encode bs));
}.

(** [str::split] at a comma: at least one field. *)
Fixpoint split_comma (s : string) : string * list string :=
  match s with
  | EmptyString => (EmptyString, [])
  | String c s =>
      let '(field, fields) := split_comma s in
      if decide (c = comma) then (EmptyString, field :: fields) else (String c field, fields)
  end.

(** [str::trim]. *)
Definition is_space (c : Ascii.ascii) : bool :=
  ((9 <=? Ascii.N_of_ascii c) && (Ascii.N_of_ascii c <=? 13)) || (Ascii.N_of_ascii c =? 32).
Fixpoint trim_start (l : list Ascii.ascii) : list Ascii.ascii :=
  match l with c :: tl => if is_space c then trim_start tl else l | [] => [] end.
Definition trim (s : string) : string :=
  String.string_of_list_ascii (reverse (trim_start (reverse (trim_start (String.list_ascii_of_string s))))).

(** [str::parse] at an unsigned type of values below or equal to [max]: an
    optional plus sign and at least one digit. *)
Fixpoint parse_digits (max : N) (acc : N) (l : list Ascii.ascii) : option N :=
  match l with
  | [] => Some acc
  | c :: l =>
      let n := Ascii.N_of_ascii c in
      if (48 <=? n) && (n <=? 57) then
        let acc := 10 * acc + (n - 48) in
        if max <? acc then None else parse_digits max acc l
      else None
  end.
Definition parse_unsigned (max : N) (s : string) : option N :=
  let l := String.list_ascii_of_string s in
  let digits := match l with c :: tl => if decide (c = plus) then tl else l | [] => l end in
  match digits with [] => None | _ => parse_digits max 0 digits end.

Module Harness.
Section Run.
Context {crypto : Crypto} {hex : Hex}.

(** The FRAMESIZELIMIT variable, zero meaning none. *)
Definition frame_limit (var : option string) : option (option N) :=
  match var with
  | None => Some None
  | Some v =>
      n ← parse_unsigned u64_max v;
      Some (if n =? 0 then None else Some n)
  end.

Record t : Type := mk { items : list Item.t; engine : option (Negentropy.t SealedVec.t) }.
Definition new : t := mk [] None.

(** [expect] on a result. *)
Definition ok {A} (r : result SyncError.t A) : option A := match r with Ok a => Some a | _ => None end.

Definition assert_within_limit (limit : option N) (len : N) : option unit :=
  match limit with
  | Some limit => if len <=? limit then Some tt else None
  | None => Some tt
  end.

(** One line: the state and the lines written. *)
Definition command (limit : option N) (h : t) (line : string) : option (t * list string) :=
  let '(name, fields) := split_comma line in
  if decide (name = "item"%string) then
    created ← head fields;
    created ← parse_unsigned u64_max created;
    id_hex ← head (tail fields);
    id ← hex_decode (trim id_hex);
    if (length id =? 32)%nat then Some (mk (items h ++ [Item.mk created id]) (engine h), []) else None
  else if decide (name = "seal"%string) then
    e ← ok (Negentropy.new (SealedVec.new (items h)) limit);
    Some (mk [] (Some e), [])
  else if decide (name = "initiate"%string) then
    e ← engine h;
    '(e, msg) ← ok (Negentropy.initiate e);
    _ ← assert_within_limit limit (lenN msg);
    Some (mk (items h) (Some e), [("msg," ++ hex_encode msg)%string])
  else if decide (name = "msg"%string) then
    msg ← hex_decode (trim (default EmptyString (head fields)));
    e ← engine h;
    round ← ok (Negentropy.reconcile e msg);
    let report := (map (fun id => ("have," ++ hex_encode id)%string) (Round.have round) ++
                   map (fun id => ("need," ++ hex_encode id)%string) (Round.need round))%list in
    match Round.reply round with
    | Some reply =>
        _ ← assert_within_limit limit (lenN reply);
        Some (h, (report ++ [("msg," ++ hex_encode reply)%string])%list)
    | None => Some (h, (report ++ ["done"%string])%list)
    end
  else None.

(** The loop over standard input: what was written, and whether the input was
    read to its end. *)
Fixpoint run (limit : option N) (h : t) (lines : list string) : list string * bool :=
  match lines with
  | [] => ([], true)
  | line :: lines =>
      match command limit h line with
      | None => ([], false)
      | Some (h, out) =>
          let '(more, alive) := run limit h lines in ((out ++ more)%list, alive)
      end
  end.

Definition main (var : option string) (lines : list string) : list string * bool :=
  match frame_limit var with
  | Some limit => run limit new lines
  | None => ([], false)
  end.

End Run.
End Harness.

(** ** The fields of a line *)

Section Spec.
Context {crypto : Crypto} {hex : Hex}.
Import Harness.

Notation chars := String.list_ascii_of_string.

Lemma split_comma_plain s : Forall (fun c => c <> comma) (chars s) -> split_comma s = (s, []).
Proof.
  induction s as [|c s IH]; [done|]. cbn [String.list_ascii_of_string split_comma].
  intros [Hc Hs]%Forall_cons. rewrite (IH Hs). by rewrite decide_False.
Qed.

Lemma split_comma_field a b : Forall (fun c => c <> comma) (chars a) ->
  split_comma (a ++ String.String comma b)%string = (a, (split_comma b).1 :: (split_comma b).2).
Proof.
  induction a as [|c a IH]; cbn [String.list_ascii_of_string].
  - intros _. change ("" ++ _)%string with (String.String comma b). cbn [split_comma].
    destruct (split_comma b). by rewrite decide_True.
  - intros [Hc Ha]%Forall_cons. change (String.String c a ++ ?x)%string with (String.String c (a ++ x)%string).
    cbn [split_comma]. rewrite (IH Ha). by rewrite decide_False.
Qed.

Lemma trim_start_plain l : Forall (fun c => is_space c = false) l -> trim_start l = l.
Proof. destruct l as [|c l]; [done|]. intros [Hc _]%Forall_cons. cbn. by rewrite Hc. Qed.

Lemma trim_plain s : Forall (fun c => is_space c = false) (chars s) -> trim s = s.
Proof.
  intros H. unfold trim. rewrite (trim_start_plain (chars s)) by done.
  rewrite trim_start_plain by by apply Forall_reverse. rewrite reverse_involutive.
  apply String.string_of_list_ascii_of_string.
Qed.

Lemma hex_plain bs : split_comma (hex_encode bs) = (hex_encode bs, []) /\ trim (hex_encode bs) = hex_encode bs.
Proof.
  pose proof (hex_digits bs) as H. split.
  - apply split_comma_plain. eapply Forall_impl; [exact H|]. by intros c [Hc _].
  - apply trim_plain. eapply Forall_impl; [exact H|]. intros c [_ Hc]. unfold is_space.
    destruct (N.leb_spec (Ascii.N_of_ascii c) 13), (N.eqb_spec (Ascii.N_of_ascii c) 32); lia || by rewrite andb_false_r.
Qed.

(** A line [name,hex]. *)
Lemma split_hex_line name bs : Forall (fun c => c <> comma) (chars name) ->
  split_comma (name ++ String.String comma (hex_encode bs))%string = (name, [hex_encode bs]).
Proof. intros H. rewrite split_comma_field by done. by rewrite (proj1 (hex_plain bs)). Qed.

(** The lines for one round. *)
Definition report (r : Round.t) : list string :=
  map (fun id => ("have," ++ hex_encode id)%string) (Round.have r) ++
  map (fun id => ("need," ++ hex_encode id)%string) (Round.need r) ++
  [match Round.reply r with Some m => ("msg," ++ hex_encode m)%string | None => "done"%string end].

Lemma within_assert limit (e : Negentropy.t SealedVec.t) slack n : Negentropy.frame_limit e = limit -> within e slack n ->
  assert_within_limit limit n = Some tt.
Proof.
  unfold within, assert_within_limit. intros ->. destruct limit as [lim|]; [|done].
  intros H. by rewrite (proj2 (N.leb_le _ _)) by lia.
Qed.

(** C31: the harness speaks for the engine. A harness whose engine was made
    under the limit of the environment answers a message line with one line
    per id of the round and the reply or [done]; it dies exactly when the
    engine returns an error, never by the assertion on the frame limit. The
    first [initiate] prints the opening message, a second one dies. *)
Theorem harness_speaks limit h e l m :
  engine h = Some e -> ns_models (Negentropy.store e) l -> wf_engine e -> Negentropy.frame_limit e = limit ->
  command limit h ("msg," ++ hex_encode m)%string =
    match Negentropy.reconcile e m with Ok r => Some (h, report r) | _ => None end /\
  Negentropy.reconcile e m <> Panic /\
  command limit h "initiate" =
    (if Negentropy.is_initiator e then None
     else match Negentropy.initiate e with
          | Ok (e', m) => Some (mk (items h) (Some e'), [("msg," ++ hex_encode m)%string])
          | _ => None
          end) /\
  (Negentropy.is_initiator e = false -> is_Some (command limit h "initiate")).
Proof.
  intros He Hm Hwf Hlim. pose proof (reconcile_sat e l m Hm Hwf) as Hs. split; [|split; [by eapply sat_no_panic|]].
  - unfold command. change ("msg," ++ hex_encode m)%string with ("msg" ++ String.String comma (hex_encode m))%string.
    rewrite split_hex_line by (repeat constructor; discriminate).
    do 3 (rewrite decide_False by discriminate). rewrite decide_True by done.
    change (trim (default _ _)) with (trim (hex_encode m)).
    rewrite (proj2 (hex_plain m)), hex_roundtrip. cbn [mbind option_bind]. rewrite He. cbn [mbind option_bind].
    destruct (Negentropy.reconcile e m) as [r| |]; [|done|done]. cbn [ok mbind option_bind]. unfold report.
    destruct Hs as (_ & _ & Hrep). destruct (Round.reply r) as [reply|]; [|by rewrite app_assoc].
    destruct Hrep as [Hin _]. rewrite (within_assert limit e _ _ Hlim Hin). cbn [mbind option_bind]. by rewrite app_assoc.
  - assert (Hi : command limit h "initiate" =
      ('(e', msg) ← ok (Negentropy.initiate e); _ ← assert_within_limit limit (lenN msg);
       Some (mk (items h) (Some e'), [("msg," ++ hex_encode msg)%string]))).
    { unfold command. rewrite split_comma_plain by (repeat constructor; discriminate).
      do 2 (rewrite decide_False by discriminate). rewrite decide_True by done. by rewrite He. }
    rewrite Hi. destruct (Negentropy.is_initiator e) eqn:Hini.
    + split; [|done]. unfold Negentropy.initiate. by rewrite Hini.
    + destruct (initiate_ok e l Hm Hini) as (out & -> & Hl). cbn [ok mbind option_bind].
      assert (Hin : within e 0 (lenN out)).
      { unfold within, wf_engine, FRAME_LIMIT_FLOOR in *. destruct (Negentropy.frame_limit e); [lia|done]. }
      rewrite (within_assert limit e _ _ Hlim Hin). split; [done|]. intros _. by eexists.
Qed.

End Spec.

(** ** A concrete instance *)

Lemma encode_plain bs :
  Forall (fun c => c <> comma /\ 32 < Ascii.N_of_ascii c) (String.list_ascii_of_string (HexDigits.encode bs)).
Proof.
  eapply Forall_impl; [apply HexDigits.encode_digits|]. intros c Hc%HexDigits.is_digit_plain.
  split; [|lia]. intros ->. by vm_compute in Hc.
Qed.

#[export] Instance ref_hex : Hex := {|
  hex_encode := HexDigits.encode;
  hex_decode := HexDigits.decode;
  hex_roundtrip := HexDigits.hex_decode_encode;
  hex_digits := encode_plain;
|}.

(** The lines of a conversation as the suite starts it. *)
Example harness_opens :
  Harness.main (crypto := toy_crypto) (Some "5000") [("item,7, " ++ hex_encode (replicate 32 (byte_of 171)))%string; "seal"; "initiate"]%string =
    ([("msg,61000002" ++ "01" ++ hex_encode (replicate 32 (byte_of 171)))%string], true).
Proof. vm_compute. reflexivity. Qed.

Lemma harness_speaks_witness :
  Harness.command (crypto := toy_crypto) (Some 4096) (Harness.mk [] (Some (Negentropy.mk sample_a (Some 4096) false))) "msg,6100000200" =
    Some (Harness.mk [] (Some (Negentropy.mk sample_a (Some 4096) false)),
      ["msg,610000" ++ "0205" ++ hex_encode (concat (map Item.id (SealedVec.items sample_a)))])%string.
Proof.
  pose proof (harness_speaks (crypto := toy_crypto) (Some 4096) (Harness.mk [] (Some (Negentropy.mk sample_a (Some 4096) false)))
    (Negentropy.mk sample_a (Some 4096) false) (SealedVec.items sample_a) (map byte_of [97; 0; 0; 2; 0]) eq_refl sample_a_models
    ltac:(vm_compute; discriminate) eq_refl) as (H & _).
  vm_compute in H |- *. exact H.
Defined.
