(* ===== verification/Session.v ===== *)
(** * Reconciliation sessions: sync/session.rs

    [Syncer] manages the sessions of one link. Handling a message changes
    the syncer, the entry store and the output; all three are threaded, so
    that what happened before a failure is kept, as in
    [handle_message_into]. *)
From S2P Require Import Prelude Errors Crypto Cbor CborRef Entry Msg Item IdSum Bound.
From S2P Require Import OrderTree OrderIndex OrderRefine OrderSpec Store NegStore Negentropy.
Open Scope N_scope.

Definition PUSH_BATCH_BUDGET : N := 32768.

Inductive LinkRole : Type := Initiator | Responder.

#[export] Instance link_role_eq_dec : EqDecision LinkRole.
Proof. solve_decision. Defined.

Module SyncConfig.
Record t : Type := mk { frame_limit : option N; push_ttl : N; max_sessions : N }.
Definition default : t := mk (Some FRAME_LIMIT_FLOOR) 0 8.
End SyncConfig.

Inductive SyncEvent : Type :=
  | Stored (id : bytes)
  | DuplicateIgnored (id : bytes)
  | Reconciled (sid : N) (have need : list bytes)
  | SessionClosed (sid : N) (opened_by_us : bool).

Module SyncOutput.
Record t : Type := mk { replies : list Message; events : list SyncEvent }.
Definition default : t := mk [] [].
Definition extend (o next : t) : t := mk (replies o ++ replies next) (events o ++ events next).
Definition push_event (o : t) (e : SyncEvent) : t := mk (replies o) (events o ++ [e]).
End SyncOutput.

Module Session.
Record t : Type := mk { engine : Negentropy.t SealedVec.t; pushed : gset bytes }.
End Session.

(** [iter().filter(|id| set.insert( *id))]: keeps the ids that are new to
    the set, which is returned as well. *)
Fixpoint filter_insert (seen : gset bytes) (ids : list bytes) : gset bytes * list bytes :=
  match ids with
  | [] => (seen, [])
  | i :: ids =>
      if decide (i ∈ seen) then filter_insert seen ids
      else let '(seen, l) := filter_insert ({[i]} ∪ seen) ids in (seen, i :: l)
  end.

Module Syncer.

Record t : Type := mk {
  role : LinkRole;
  config : SyncConfig.t;
  sessions : gmap (bool * N) Session.t;
  next_sid : N;
}.

Definition new (role : LinkRole) (config : SyncConfig.t) : t :=
  mk role config ∅ (match role with Initiator => 0 | Responder => 1 end).

Definition open_sessions (s : t) : N := N.of_nat (base.size (sessions s)).

Definition our_parity (s : t) : N := match role s with Initiator => 0 | Responder => 1 end.
Definition peer_parity (s : t) : N := 1 - our_parity s.

(** The key of an incoming session id: the parity tells who opened it. *)
Definition session_key (s : t) (sid : N) : bool * N := (sid mod 2 =? our_parity s, sid).

Definition set_sessions (s : t) (m : gmap (bool * N) Session.t) : t :=
  mk (role s) (config s) m (next_sid s).

Section Ops.
Context {cbor : Cbor} {crypto : Crypto}.

(** The loop of [push_batches]: finished messages, the open batch and its
    size. *)
Fixpoint batch_loop (store : EntryStore.t) (ttl : N) (ids : list bytes) (messages : list Message)
    (batch : list Entry.t) (batch_bytes : N) : list Message :=
  match ids with
  | [] => if decide (batch = []) then messages else messages ++ [MGossipPush (GossipPush.mk batch ttl)]
  | id :: ids =>
      match EntryStore.get store id with
      | None => batch_loop store ttl ids messages batch batch_bytes
      | Some entry =>
          let size := lenN (Entry.to_bytes entry) in
          if negb (bool_decide (batch = [])) && (PUSH_BATCH_BUDGET <? batch_bytes + size) then
            batch_loop store ttl ids (messages ++ [MGossipPush (GossipPush.mk batch ttl)]) [entry] (0 + size)
          else batch_loop store ttl ids messages (batch ++ [entry]) (batch_bytes + size)
      end
  end.
Definition push_batches (store : EntryStore.t) (ids : list bytes) (ttl : N) : list Message :=
  batch_loop store ttl ids [] [] 0.

(** The engine over a sealed snapshot of the window. *)
Definition sealed_engine (s : t) (store : EntryStore.t) (window : SortKeyWindow.t)
  : result SyncError.t (Negentropy.t SealedVec.t) :=
  items ← expect (EntryStore.snapshot store window);
  Negentropy.new (SealedVec.new items) (SyncConfig.frame_limit (config s)).

(** [self.next_sid += 2] aborts on overflow of [u64]. *)
Definition open_session (s : t) (store : EntryStore.t) (window : SortKeyWindow.t)
  : result SyncError.t (t * N * Message) :=
  if SyncConfig.max_sessions (config s) <=? open_sessions s then Err SyncError.ResourceLimit
  else
    engine ← sealed_engine s store window;
    '(engine, msg) ← Negentropy.initiate engine;
    let sid := next_sid s in
    if u64_max <? sid + 2 then Panic
    else
      let s := mk (role s) (config s) (<[(true, sid) := Session.mk engine ∅]> (sessions s)) (sid + 2) in
      Ok (s, sid, MReconInit (ReconInit.mk sid window msg)).

Definition abort_session (s : t) (sid : N) : t * option Message :=
  match sessions s !! (true, sid) with
  | None => (s, None)
  | Some _ => (set_sessions s (delete (true, sid) (sessions s)), Some (MReconDone (ReconDone.mk sid)))
  end.

(** [io] gives the journal outcome of each entry of the push. *)
Fixpoint push_loop (store : EntryStore.t) (io : nat -> io_outcome) (k : nat) (entries : list Entry.t)
    (output : SyncOutput.t) : EntryStore.t * SyncOutput.t * result SyncError.t unit :=
  match entries with
  | [] => (store, output, Ok tt)
  | entry :: entries =>
      let id := Entry.id entry in
      let '(store, r) := EntryStore.insert store entry (io k) in
      match r with
      | Ok true => push_loop store io (S k) entries (SyncOutput.push_event output (Stored id))
      | Ok false => push_loop store io (S k) entries (SyncOutput.push_event output (DuplicateIgnored id))
      | Err (StoreError.Storage _) => (store, output, Err SyncError.Storage)
      | Err StoreError.Capacity => (store, output, Err SyncError.ResourceLimit)
      | Err StoreError.BadSignature =>
          (store, output, Err (SyncError.Violation "pushed entry signature invalid"))
      | Err StoreError.SortKeyReserved =>
          (store, output, Err (SyncError.Violation "pushed entry uses the reserved sort key"))
      | Panic => (store, output, Panic)
      end
  end.

Definition handle_init (s : t) (store : EntryStore.t) (init : ReconInit.t)
  : result SyncError.t (t * SyncOutput.t) :=
  let sid := ReconInit.sid init in
  if negb (sid mod 2 =? peer_parity s) then Err (SyncError.Violation "session id has the sender's parity")
  else if decide (is_Some (sessions s !! (false, sid))) then
    Err (SyncError.Violation "session id already open")
  else if SyncConfig.max_sessions (config s) <=? open_sessions s then Err SyncError.ResourceLimit
  else
    engine ← sealed_engine s store (ReconInit.window init);
    round ← Negentropy.reconcile engine (ReconInit.msg init);
    reply ← expect (Round.reply round);
    let s := set_sessions s (<[(false, sid) := Session.mk engine ∅]> (sessions s)) in
    Ok (s, SyncOutput.mk [MReconMsg (ReconMsg.mk sid reply)] []).

Definition handle_recon_msg (s : t) (store : EntryStore.t) (rm : ReconMsg.t)
  : result SyncError.t (t * SyncOutput.t) :=
  let key := session_key s (ReconMsg.sid rm) in
  session ← ok_or (sessions s !! key) (SyncError.Violation "no open session with this id");
  round ← Negentropy.reconcile (Session.engine session) (ReconMsg.msg rm);
  let '(opened_by_us, sid) := key in
  let '(pushed, have) := filter_insert (Session.pushed session) (Round.have round) in
  let '(_, need) := filter_insert ∅ (Round.need round) in
  let s := set_sessions s (<[key := Session.mk (Session.engine session) pushed]> (sessions s)) in
  let output :=
    if decide (have <> [] \/ need <> []) then
      SyncOutput.mk (push_batches store have (SyncConfig.push_ttl (config s))) [Reconciled sid have need]
    else SyncOutput.default in
  match Round.reply round with
  | Some reply =>
      Ok (s, SyncOutput.extend output (SyncOutput.mk [MReconMsg (ReconMsg.mk sid reply)] []))
  | None =>
      Ok (set_sessions s (delete key (sessions s)),
          SyncOutput.extend output
            (SyncOutput.mk [MReconDone (ReconDone.mk sid)] [SessionClosed sid opened_by_us]))
  end.

Definition handle_done (s : t) (done : ReconDone.t) : result SyncError.t (t * SyncOutput.t) :=
  let key := session_key s (ReconDone.sid done) in
  match sessions s !! key with
  | None => Err (SyncError.Violation "no open session with this id")
  | Some _ =>
      Ok (set_sessions s (delete key (sessions s)),
          SyncOutput.mk [] [SessionClosed (ReconDone.sid done) key.1])
  end.

Definition handle_message_into (s : t) (store : EntryStore.t) (io : nat -> io_outcome) (msg : Message)
    (output : SyncOutput.t) : t * EntryStore.t * SyncOutput.t * result SyncError.t unit :=
  match msg with
  | MGossipPush push =>
      let '(store, output, r) := push_loop store io 0 (GossipPush.entries push) output in
      (s, store, output, r)
  | _ =>
      let next :=
        match msg with
        | MReconInit init => handle_init s store init
        | MReconMsg rm => handle_recon_msg s store rm
        | MReconDone done => handle_done s done
        | _ => Err (SyncError.Violation "message type not for the sync layer")
        end in
      match next with
      | Ok (s, next) => (s, store, SyncOutput.extend output next, Ok tt)
      | Err e => (s, store, output, Err e)
      | Panic => (s, store, output, Panic)
      end
  end.

Definition handle_message (s : t) (store : EntryStore.t) (io : nat -> io_outcome) (msg : Message)
  : t * EntryStore.t * result SyncError.t SyncOutput.t :=
  let '(s, store, output, r) := handle_message_into s store io msg SyncOutput.default in
  (s, store, match r with Ok _ => Ok output | Err e => Err e | Panic => Panic end).

End Ops.
End Syncer.
