(* ===== verification/SessionSpec.v ===== *)
(** * Session correctness

    The invariant of the session table, the push discipline, batching, and
    the convergence of a session between two honest sides. *)
From S2P Require Import Prelude Errors Crypto Cbor CborRef Entry Msg Item IdSum Bound.
From S2P Require Import OrderTree OrderIndex OrderRefine OrderSpec Store StoreSpec JournalSpec.
From S2P Require Import NegStore Negentropy NegFacts NegExact Session.
Open Scope N_scope.
Import Syncer.

Section Spec.
Context {cbor : Cbor} {crypto : Crypto}.

(** ** Sealed engines *)

Record engine_ok (e : Negentropy.t SealedVec.t) (init : bool) : Prop := {
  ok_models : ns_models (Negentropy.store e) (SealedVec.items (Negentropy.store e));
  ok_engine : wf_engine e;
  ok_init : Negentropy.is_initiator e = init }.

(** The items of a window of a well-formed store, sealed. *)
Lemma sealed_snapshot store w : StoreSpec.wf store ->
  exists items, EntryStore.snapshot store w = Some items /\
    SealedVec.items (SealedVec.new items) = items /\ ns_models (SealedVec.new items) items /\
    forall x, x ∈ items <->
      exists e, EntryStore.get store (Item.id x) = Some e /\ Entry.sort_key e = Item.sort_key x /\
        in_window w x = true.
Proof.
  intros Hwf. destruct (snapshot_spec store w Hwf) as (items & E & Hs & Hmem).
  destruct (wf_order store Hwf) as (l & Hm & Hp). destruct (models_bounds _ _ Hm) as (Hlen & _ & Hw).
  exists items. split; [done|].
  assert (Hsub : forall x, x ∈ items -> x ∈ l) by (intros x Hx; rewrite Hp; by apply Hmem).
  destruct (sealed_new_models items) as (l' & Hm' & Hl').
  - rewrite Forall_forall in Hw |- *. auto.
  - assert (Hsm : items ⊆+ l) by (apply NoDup_submseteq; [by apply Item.sorted_NoDup|done]).
    apply submseteq_length in Hsm. unfold lenN in *. lia.
  - assert (Heq : l' = items) by (apply Item.sorted_ext; [apply Hm'|done|done]). subst l'.
    split; [apply Hm'|]. split; [done|]. intros x. rewrite Hmem. rewrite elem_of_items_of by done. unfold EntryStore.get. naive_solver.
Qed.

(** A store whose sessions can be opened: the configured limit is accepted. *)
Definition good_config (c : SyncConfig.t) : Prop :=
  match SyncConfig.frame_limit c with Some lim => FRAME_LIMIT_FLOOR <= lim | None => True end.

Lemma sealed_engine_sat s store w : StoreSpec.wf store ->
  sat (sealed_engine s store w) (fun e => engine_ok e false).
Proof.
  intros Hwf. destruct (sealed_snapshot store w Hwf) as (items & E & Heq & Hm & _).
  unfold sealed_engine. rewrite E. cbn [expect mbind result_bind]. unfold Negentropy.new.
  destruct (SyncConfig.frame_limit (config s)) as [lim|] eqn:El; [|split; cbn [Negentropy.store Negentropy.is_initiator]; rewrite ?Heq; done].
  destruct (N.ltb_spec lim FRAME_LIMIT_FLOOR); [done|].
  split; cbn [Negentropy.store Negentropy.is_initiator]; rewrite ?Heq; done.
Qed.

(** ** The invariant of the session table *)

Record inv (s : t) : Prop := {
  inv_sessions : open_sessions s <= SyncConfig.max_sessions (config s);
  inv_next : next_sid s mod 2 = our_parity s;
  inv_key o sid se : sessions s !! (o, sid) = Some se ->
    engine_ok (Session.engine se) o /\
    sid mod 2 = (if o : bool then our_parity s else peer_parity s) /\
    (o = true -> sid < next_sid s) }.

Lemma parity_cases s : our_parity s = 0 /\ peer_parity s = 1 \/ our_parity s = 1 /\ peer_parity s = 0.
Proof. unfold peer_parity, our_parity. destruct (role s); auto. Qed.

Lemma inv_new role config : inv (new role config).
Proof.
  split; cbn.
  - unfold open_sessions. cbn. rewrite map_size_empty. lia.
  - by destruct role.
  - intros o sid se H. by rewrite lookup_empty in H.
Qed.

Lemma size_delete_le (m : gmap (bool * N) Session.t) k : (base.size (delete k m) <= base.size m)%nat.
Proof. rewrite map_size_delete. destruct (m !! k); [apply Nat.le_pred_l|done]. Qed.

Lemma inv_delete s k : inv s -> inv (set_sessions s (delete k (sessions s))).
Proof.
  intros [H1 H2 H3]. split; cbn; try done.
  - unfold open_sessions in *. cbn. pose proof (size_delete_le (sessions s) k). lia.
  - intros o sid se [_ H]%lookup_delete_Some. by apply H3.
Qed.

Lemma inv_update s k se se' : inv s -> sessions s !! k = Some se ->
  Session.engine se' = Session.engine se -> inv (set_sessions s (<[k := se']> (sessions s))).
Proof.
  intros [H1 H2 H3] Hk He. split; cbn; try done.
  - unfold open_sessions in *. cbn. rewrite map_size_insert_Some; [done|by eexists].
  - intros o sid se0 [[-> <-]|[_ H]]%lookup_insert_Some; [rewrite He; by apply H3|by apply H3].
Qed.

(** ** The operations preserve it and never panic *)

Lemma engine_initiate e : engine_ok e false ->
  exists e' msg, Negentropy.initiate e = Ok (e', msg) /\ engine_ok e' true.
Proof.
  intros [Hm He Hi]. pose proof (initiate_ok e _ Hm Hi) as (msg & E & _).
  do 2 eexists. split; [exact E|]. by split.
Qed.

Lemma inv_fresh s : inv s -> sessions s !! (true, next_sid s) = None.
Proof.
  intros Hi. apply eq_None_not_Some. intros [se Hse]. destruct (inv_key s Hi _ _ _ Hse) as (_ & _ & Hlt).
  specialize (Hlt eq_refl). lia.
Qed.

Lemma open_session_sat s store w : StoreSpec.wf store -> inv s -> next_sid s + 2 <= u64_max ->
  sat (open_session s store w) (fun '(s', sid, msg) =>
    inv s' /\ sid = next_sid s /\ next_sid s' = sid + 2 /\ sessions s !! (true, sid) = None /\
    exists se m, sessions s' = <[(true, sid) := se]> (sessions s) /\ Session.pushed se = ∅ /\
      msg = MReconInit (ReconInit.mk sid w m)).
Proof.
  intros Hwf Hi Hsid. unfold open_session. destruct (N.leb_spec (SyncConfig.max_sessions (config s)) (open_sessions s)); [done|].
  eapply sat_bind; [by apply sealed_engine_sat|]. intros e He.
  destruct (engine_initiate e He) as (e' & msg & -> & He'). cbn [mbind result_bind].
  rewrite (proj2 (N.ltb_ge _ _)) by done. cbn [sat].
  pose proof (inv_fresh s Hi) as Hfresh.
  split; [|split; [done|split; [done|split; [done|by do 2 eexists]]]].
  destruct Hi as [H1 H2 H3]. split; cbn.
  - unfold open_sessions in *. cbn. rewrite map_size_insert_None by done. lia.
  - assert (E : our_parity (mk (role s) (config s) (<[(true, next_sid s) := Session.mk e' ∅]> (sessions s)) (next_sid s + 2)) = our_parity s) by done.
    rewrite E, <- H2. lia.
  - intros o sid se [[[= <- <-] <-]|[_ Hk]]%lookup_insert_Some.
    + split_and!; [done|done|lia].
    + destruct (H3 _ _ _ Hk) as (? & ? & Hlt). split_and!; try done. intros Ho. specialize (Hlt Ho). lia.
Qed.

Lemma handle_init_sat s store init : StoreSpec.wf store -> inv s ->
  sat (handle_init s store init) (fun '(s', out) =>
    inv s' /\ next_sid s' = next_sid s /\ sessions s !! (false, ReconInit.sid init) = None /\
    exists se reply, sessions s' = <[(false, ReconInit.sid init) := se]> (sessions s) /\
      out = SyncOutput.mk [MReconMsg (ReconMsg.mk (ReconInit.sid init) reply)] []).
Proof.
  intros Hwf Hi. unfold handle_init. destruct (N.eqb_spec (ReconInit.sid init mod 2) (peer_parity s)) as [Hpar|]; [|done].
  cbn [negb]. case_decide as Hnone; [done|]. apply eq_None_not_Some in Hnone.
  destruct (N.leb_spec (SyncConfig.max_sessions (config s)) (open_sessions s)); [done|].
  eapply sat_bind; [by apply sealed_engine_sat|]. intros e He. pose proof He as [Hm Hwe Hin].
  eapply sat_bind; [by apply (reconcile_sat e _ _ Hm Hwe)|]. intros round (_ & _ & Hrep).
  destruct (Round.reply round) as [reply|]; [|by rewrite Hin in Hrep]. cbn [expect mbind result_bind sat].
  split; [|split; [done|split; [done|by do 2 eexists]]].
  destruct Hi as [H1 H2 H3]. split; cbn; try done.
  - unfold open_sessions in *. cbn. rewrite map_size_insert_None by done. lia.
  - intros o sid se [[[= <- <-] <-]|[_ H0]]%lookup_insert_Some; [done|by apply H3].
Qed.

Lemma filter_insert_spec seen xs : let '(seen', l) := filter_insert seen xs in
  NoDup l /\ (forall i, i ∈ l <-> i ∈ xs /\ i ∉ seen) /\ (forall i, i ∈ seen' <-> i ∈ seen \/ i ∈ xs).
Proof.
  revert seen. induction xs as [|x xs IH]; intros seen; cbn [filter_insert].
  - split_and!; [constructor|set_solver|set_solver].
  - case_decide as Hx.
    + specialize (IH seen). destruct (filter_insert seen xs) as [seen' l]. destruct IH as (H1 & H2 & H3).
      split_and!; [done|..]; intros i; rewrite ?H2, ?H3; set_solver.
    + specialize (IH ({[x]} ∪ seen)). destruct (filter_insert ({[x]} ∪ seen) xs) as [seen' l].
      destruct IH as (H1 & H2 & H3). split_and!.
      * constructor; [|done]. rewrite H2. set_solver.
      * intros i. rewrite elem_of_cons, H2. destruct (decide (i = x)); set_solver.
      * intros i. rewrite H3. set_solver.
Qed.

(** What a round on an open session does: [have] and [need] are the newly
    learnt ids, the pushed set grows by [have], the session closes when the
    engine has nothing more to send. *)
Record round_done (s s' : t) (store : EntryStore.t) (sid : N) (msg : bytes) (out : SyncOutput.t)
    (se : Session.t) (hv nd : list bytes) (reply : option bytes) : Prop := {
  rd_round : exists round, Negentropy.reconcile (Session.engine se) msg = Ok round /\
    Round.reply round = reply /\
    (forall i, i ∈ hv <-> i ∈ Round.have round /\ i ∉ Session.pushed se) /\
    (forall i, i ∈ nd <-> i ∈ Round.need round);
  rd_nodup : NoDup hv /\ NoDup nd;
  rd_new : forall i, i ∈ hv -> i ∉ Session.pushed se;
  rd_ours : (session_key s sid).1 = false -> hv = [] /\ nd = [];
  rd_held : forall i, i ∈ hv -> i ∈ ids (SealedVec.items (Negentropy.store (Session.engine se)));
  rd_sessions : match reply with
    | Some _ => exists pushed', (forall i, i ∈ pushed' <-> i ∈ Session.pushed se \/ i ∈ hv) /\
        sessions s' = <[session_key s sid := Session.mk (Session.engine se) pushed']> (sessions s)
    | None => sessions s' = delete (session_key s sid) (sessions s)
    end;
  rd_replies : SyncOutput.replies out =
    push_batches store hv (SyncConfig.push_ttl (config s)) ++
    [match reply with
     | Some m => MReconMsg (ReconMsg.mk sid m)
     | None => MReconDone (ReconDone.mk sid)
     end];
  rd_events : SyncOutput.events out =
    (if decide (hv = [] /\ nd = []) then [] else [Reconciled sid hv nd]) ++
    match reply with
    | Some _ => []
    | None => [SessionClosed sid (session_key s sid).1]
    end }.

Lemma insert_delete_session (m : gmap (bool * N) Session.t) k se : delete k (<[k := se]> m) = delete k m.
Proof. apply delete_insert_eq. Qed.

(** What a round reports and pushes. *)
Lemma round_output store ttl sid hv nd :
  let out := if decide (hv <> [] \/ nd <> []) then SyncOutput.mk (push_batches store hv ttl) [Reconciled sid hv nd]
    else SyncOutput.default in
  SyncOutput.replies out = push_batches store hv ttl /\
  SyncOutput.events out = (if decide (hv = [] /\ nd = []) then [] else [Reconciled sid hv nd]).
Proof.
  cbn zeta. destruct (decide (hv <> [] \/ nd <> [])) as [Hne|Hne].
  - rewrite decide_False by tauto. done.
  - destruct hv; [|exfalso; apply Hne; by left]. destruct nd; [|exfalso; apply Hne; by right].
    by rewrite decide_True.
Qed.

Lemma handle_recon_msg_sat s store rm : StoreSpec.wf store -> inv s ->
  sat (handle_recon_msg s store rm) (fun '(s', out) =>
    inv s' /\ next_sid s' = next_sid s /\
    exists se hv nd reply, sessions s !! session_key s (ReconMsg.sid rm) = Some se /\
      round_done s s' store (ReconMsg.sid rm) (ReconMsg.msg rm) out se hv nd reply).
Proof.
  intros Hwf Hi. unfold handle_recon_msg. set (key := session_key s (ReconMsg.sid rm)).
  destruct (sessions s !! key) as [se|] eqn:Hk; [|done]. cbn [ok_or mbind result_bind].
  pose proof (inv_key s Hi key.1 key.2 se Hk) as ([Hm He Hin] & Hpar & _).
  pose proof (reconcile_sat _ _ (ReconMsg.msg rm) Hm He) as Hrec.
  destruct (Negentropy.reconcile (Session.engine se) (ReconMsg.msg rm)) as [round|err|] eqn:Hround; [|done|done].
  destruct Hrec as (Hhv & Hnd & Hrep). cbn [mbind result_bind].
  assert (Hkey : key = (key.1, ReconMsg.sid rm)) by done. rewrite Hkey at 1. cbn match.
  pose proof (filter_insert_spec (Session.pushed se) (Round.have round)) as F1.
  destruct (filter_insert (Session.pushed se) (Round.have round)) as [pushed hv]. destruct F1 as (N1 & M1 & P1).
  pose proof (filter_insert_spec ∅ (Round.need round)) as F2.
  destruct (filter_insert ∅ (Round.need round)) as [seen nd]. destruct F2 as (N2 & M2 & _).
  assert (Hours : key.1 = false -> hv = [] /\ nd = []).
  { intros Hf. rewrite Hf in Hin. split.
    - destruct hv as [|i hv]; [done|]. destruct (proj1 (M1 i)) as [Hi' _]; [by left|].
      apply Hhv in Hi' as [? _]. congruence.
    - destruct nd as [|i nd]; [done|]. destruct (proj1 (M2 i)) as [Hi' _]; [by left|].
      destruct (Round.need round); [by apply not_elem_of_nil in Hi'|]. rewrite Hnd in Hin; done. }
  assert (Hnew : forall i, i ∈ hv -> i ∉ Session.pushed se) by (intros i Hi'; by apply M1 in Hi' as [_ ?]).
  assert (Hheld : forall i, i ∈ hv -> i ∈ ids (SealedVec.items (Negentropy.store (Session.engine se)))).
  { intros i Hi'. apply M1 in Hi' as [Hi' _]. by apply Hhv. }
  assert (Hpushed : forall i, i ∈ pushed <-> i ∈ Session.pushed se \/ i ∈ hv).
  { intros i. rewrite P1, M1. destruct (decide (i ∈ Session.pushed se)); tauto. }
  assert (Hrd' : forall reply, Round.reply round = reply -> exists round,
            Negentropy.reconcile (Session.engine se) (ReconMsg.msg rm) = Ok round /\
            Round.reply round = reply /\
            (forall i, i ∈ hv <-> i ∈ Round.have round /\ i ∉ Session.pushed se) /\
            (forall i, i ∈ nd <-> i ∈ Round.need round)).
  { intros reply <-. exists round. split_and!; try done. intros i. rewrite M2. set_solver. }
  pose proof (round_output store (SyncConfig.push_ttl (config s)) (ReconMsg.sid rm) hv nd) as [HR HE].
  set (out0 := if decide (hv <> [] \/ nd <> []) then _ else _) in *. clearbody out0. destruct (Round.reply round) as [reply|] eqn:Er; cbn [sat].
  - split; [by eapply inv_update|]. split; [done|]. exists se, hv, nd, (Some reply). split; [done|].
    split; cbn; rewrite ?HR, ?HE; try done; [by apply Hrd'|by exists pushed].
  - split; [|split; [done|]].
    + unfold set_sessions. cbn. rewrite insert_delete_session. by apply inv_delete.
    + exists se, hv, nd, None. split; [done|]. split; cbn; rewrite ?HR, ?HE; try done; [by apply Hrd'|].
      by rewrite insert_delete_session.
Qed.

Lemma handle_done_sat s done : inv s ->
  sat (handle_done s done) (fun '(s', out) =>
    inv s' /\ next_sid s' = next_sid s /\ is_Some (sessions s !! session_key s (ReconDone.sid done)) /\
    sessions s' = delete (session_key s (ReconDone.sid done)) (sessions s) /\
    out = SyncOutput.mk [] [SessionClosed (ReconDone.sid done) (session_key s (ReconDone.sid done)).1]).
Proof.
  intros Hi. unfold handle_done. destruct (sessions s !! _) as [se|] eqn:Hk; [|by constructor]. cbn [sat].
  split; [by apply inv_delete|]. split; [reflexivity|]. split; [by eexists|]. split; reflexivity.
Qed.

(** ** Pushes *)

Definition size_ok (store : EntryStore.t) (n : nat) : Prop :=
  N.of_nat (base.size (EntryStore.entries store)) + N.of_nat n < u32_max.

(** The event of one processed entry. *)
Definition event_of (store : EntryStore.t) (e : Entry.t) : SyncEvent :=
  if EntryStore.contains store (Entry.id e) then DuplicateIgnored (Entry.id e) else Stored (Entry.id e).

Lemma insert_cases store e io : StoreSpec.wf store -> Entry.wf e -> size_ok store 1 ->
  let '(store', r) := EntryStore.insert store e io in
  StoreSpec.wf store' /\ EntryStore.entries store ⊆ EntryStore.entries store' /\
  match r with
  | Ok b => valid e /\ EntryStore.contains store (Entry.id e) = negb b /\
      EntryStore.entries store' =
        (if b then <[Entry.id e := e]> (EntryStore.entries store) else EntryStore.entries store)
  | Err _ => EntryStore.entries store' = EntryStore.entries store
  | Panic => False
  end.
Proof.
  intros Hwf He Hsz. unfold size_ok in Hsz.
  pose proof (insert_inserts store e io Hwf He ltac:(lia)) as Hi.
  pose proof (inserts_wf _ _ _ _ _ Hwf Hi) as Hwf'.
  destruct (EntryStore.insert store e io) as [store' r]; cbn [fst snd] in *. split; [done|].
  assert (Hc : forall b, EntryStore.contains store (Entry.id e) = negb b <->
            (if b then EntryStore.entries store !! Entry.id e = None else is_Some (EntryStore.entries store !! Entry.id e))).
  { intros b. unfold EntryStore.contains. destruct b; cbn.
    - by rewrite bool_decide_eq_false, <- eq_None_not_Some.
    - by rewrite bool_decide_eq_true. }
  destruct Hi; cbn; try done.
  - split; [done|]. split; [done|]. split; [by apply (Hc false)|done].
  - split; [by apply insert_subseteq|]. split; [done|]. split; [by apply (Hc true)|done].
Qed.

Lemma push_loop_spec store io k entries out :
  StoreSpec.wf store -> Forall Entry.wf entries -> size_ok store (length entries) ->
  let '(store', out', r) := push_loop store io k entries out in
  StoreSpec.wf store' /\ EntryStore.entries store ⊆ EntryStore.entries store' /\ r <> Panic /\
  SyncOutput.replies out' = SyncOutput.replies out /\
  exists processed rest evs, entries = processed ++ rest /\
    SyncOutput.events out' = SyncOutput.events out ++ evs /\
    Forall2 (fun e ev => ev = Stored (Entry.id e) \/ ev = DuplicateIgnored (Entry.id e)) processed evs /\
    Forall (fun e => is_Some (EntryStore.get store' (Entry.id e))) processed /\
    (forall i e, EntryStore.get store' i = Some e -> EntryStore.get store i = Some e \/ e ∈ processed) /\
    (r = Ok tt <-> rest = []).
Proof.
  intros Hwf Hes. revert store k out Hwf. induction Hes as [|e entries He Hes IH]; intros store k out Hwf Hsz.
  { cbn. split_and!; try done. exists [], [], []. split_and!; try done; [by rewrite app_nil_r|by intros; left]. }
  cbn [push_loop]. cbn [length] in Hsz.
  pose proof (insert_cases store e (io k) Hwf He ltac:(unfold size_ok in *; lia)) as Hc.
  destruct (EntryStore.insert store e (io k)) as [store1 r]. destruct Hc as (Hwf1 & Hsub & Hr).
  destruct r as [b|err|]; [|destruct err; (split_and!; try done; exists [], (e :: entries), [];
    split_and!; try done; [by rewrite app_nil_r|by unfold EntryStore.get; rewrite Hr; intros; left])|done].
  destruct Hr as (Hv & Hcont & Hent).
  assert (Hsz1 : size_ok store1 (length entries)).
  { unfold size_ok in *. rewrite Hent. destruct b; [|lia].
    rewrite map_size_insert. destruct (EntryStore.entries store !! Entry.id e); unfold id; lia. }
  assert (Hin : is_Some (EntryStore.get store1 (Entry.id e))).
  { unfold EntryStore.get. rewrite Hent. destruct b; [rewrite lookup_insert_eq; by eexists|].
    unfold EntryStore.contains in Hcont. by apply bool_decide_eq_true in Hcont. }
  set (ev := if b : bool then Stored (Entry.id e) else DuplicateIgnored (Entry.id e)).
  assert (Hstep : (if b : bool then push_loop store1 io (S k) entries (SyncOutput.push_event out (Stored (Entry.id e)))
                   else push_loop store1 io (S k) entries (SyncOutput.push_event out (DuplicateIgnored (Entry.id e))))
                  = push_loop store1 io (S k) entries (SyncOutput.push_event out ev)) by by destruct b.
  rewrite Hstep. clear Hstep. specialize (IH store1 (S k) (SyncOutput.push_event out ev) Hwf1 Hsz1).
  destruct (push_loop store1 io (S k) entries _) as [[store' out'] r'].
  destruct IH as (H1 & H2 & H3 & H4 & pr & rest & evs & -> & H5 & H6 & H7 & H8 & H9).
  split_and!; [done|by etrans|done|done|]. exists (e :: pr), rest, (ev :: evs). split_and!; try done.
  - rewrite H5. cbn. by rewrite <- app_assoc.
  - constructor; [|done]. subst ev. destruct b; auto.
  - constructor; [|done]. destruct Hin as [e' Hin]. exists e'. by eapply lookup_weaken.
  - intros i e' Hi. apply H8 in Hi as [Hi|Hi]; [|right; by right]. unfold EntryStore.get in Hi.
    rewrite Hent in Hi. destruct b; [|by left].
    apply lookup_insert_Some in Hi as [[_ <-]|[_ Hi]]; [right; by left|by left].
Qed.

(** ** Batching *)

Fixpoint batch_size (es : list Entry.t) : N :=
  match es with [] => 0 | e :: es => lenN (Entry.to_bytes e) + batch_size es end.

(** A batch is not empty and fits the budget unless it is a single entry. *)
Definition batch_ok (ttl : N) (m : Message) : Prop :=
  exists es, m = MGossipPush (GossipPush.mk es ttl) /\ es <> [] /\
    (batch_size es <= PUSH_BATCH_BUDGET \/ exists e, es = [e]).

Lemma batch_size_snoc es e : batch_size (es ++ [e]) = batch_size es + lenN (Entry.to_bytes e).
Proof. induction es as [|x es IH]; cbn; [lia|]. rewrite IH. lia. Qed.

Lemma batch_loop_spec store ttl is0 msgs batch :
  Forall (batch_ok ttl) msgs -> (batch = [] \/ batch_size batch <= PUSH_BATCH_BUDGET \/ exists e, batch = [e]) ->
  let out := batch_loop store ttl is0 msgs batch (batch_size batch) in
  Forall (batch_ok ttl) out /\
  concat (map batch_entries out) =
    concat (map batch_entries msgs) ++ batch ++ omap (EntryStore.get store) is0.
Proof.
  revert msgs batch. induction is0 as [|i is0 IH]; intros msgs batch Hm Hb; cbn [batch_loop omap list_omap].
  - case_decide as Hnil; [subst; by rewrite app_nil_r|]. split.
    + apply Forall_app. split; [done|]. repeat constructor. exists batch. destruct Hb as [|Hb]; done.
    + rewrite map_app, concat_app. cbn. by rewrite !app_nil_r.
  - destruct (EntryStore.get store i) as [e|]; [|by apply IH].
    destruct (bool_decide_reflect (batch = [])) as [->|Hne]; cbn [negb andb].
    + specialize (IH msgs [e] Hm ltac:(right; right; by eexists)). cbn [batch_size] in IH.
      rewrite N.add_0_r in IH. by rewrite N.add_0_l.
    + destruct (N.ltb_spec PUSH_BATCH_BUDGET (batch_size batch + lenN (Entry.to_bytes e))).
      * specialize (IH (msgs ++ [MGossipPush (GossipPush.mk batch ttl)]) [e]). cbn [batch_size] in IH.
        rewrite N.add_0_r in IH. rewrite N.add_0_l. destruct IH as [IH1 IH2].
        { apply Forall_app. split; [done|]. repeat constructor. exists batch. destruct Hb as [|Hb]; done. }
        { right; right; by eexists. }
        split; [done|]. rewrite IH2, map_app, concat_app. cbn. by rewrite app_nil_r, <- !app_assoc.
      * specialize (IH msgs (batch ++ [e]) Hm ltac:(right; left; rewrite batch_size_snoc; lia)).
        rewrite batch_size_snoc in IH. destruct IH as [IH1 IH2]. split; [done|].
        rewrite IH2, <- app_assoc. done.
Qed.

Lemma push_batches_ok store hv ttl :
  Forall (batch_ok ttl) (push_batches store hv ttl) /\
  concat (map batch_entries (push_batches store hv ttl)) = omap (EntryStore.get store) hv.
Proof. by apply (batch_loop_spec store ttl hv [] []); [constructor|left]. Qed.

Lemma batches_count ms ttl : Forall (batch_ok ttl) ms -> (length ms <= length (concat (map batch_entries ms)))%nat.
Proof.
  induction 1 as [|m ms (es & -> & Hne & _) _ IH]; [done|]. cbn [map concat batch_entries GossipPush.entries].
  rewrite length_app. cbn. destruct es; [done|]. cbn. lia.
Qed.

(** ** A session between two honest sides *)

(** Handling messages in order, until one fails. *)
Fixpoint handle_all (s : t) (store : EntryStore.t) (io : nat -> io_outcome) (msgs : list Message)
    (out : SyncOutput.t) : t * EntryStore.t * SyncOutput.t * result SyncError.t unit :=
  match msgs with
  | [] => (s, store, out, Ok tt)
  | m :: msgs =>
      let '(s, store, out, r) := handle_message_into s store io m out in
      match r with
      | Ok _ => handle_all s store io msgs out
      | r => (s, store, out, r)
      end
  end.

Lemma handle_all_app s store io m1 m2 out s1 store1 out1 :
  handle_all s store io m1 out = (s1, store1, out1, Ok tt) ->
  handle_all s store io (m1 ++ m2) out = handle_all s1 store1 io m2 out1.
Proof.
  revert s store out. induction m1 as [|m m1 IH]; intros s store out; cbn; [by intros [= <- <- <-]|].
  destruct (handle_message_into _ _ _ _ _) as [[[s' store'] out'] [[]|err|]]; [apply IH|done|done].
Qed.

(** Every entry of [store'] was in [store] or is one of [es]. *)
Definition drawn (store store' : EntryStore.t) (es : list Entry.t) : Prop :=
  forall i e, EntryStore.get store' i = Some e -> EntryStore.get store i = Some e \/ e ∈ es.

(** An entry fit for a store that takes entries of [c] bytes. *)
Definition fitting (c : N) (e : Entry.t) : Prop := valid e /\ lenN (Entry.to_bytes e) <= c.

(** Valid entries pushed to a store with room for them are all stored. *)
Lemma push_loop_ok c n store io k entries out :
  StoreSpec.wf store -> storing io c (length entries + n) store -> Forall (fitting c) entries ->
  size_ok store (length entries) ->
  exists store' out', push_loop store io k entries out = (store', out', Ok tt) /\
    StoreSpec.wf store' /\ storing io c n store' /\
    EntryStore.entries store ⊆ EntryStore.entries store' /\
    Forall (fun e => is_Some (EntryStore.get store' (Entry.id e))) entries /\
    (base.size (EntryStore.entries store') <= base.size (EntryStore.entries store) + length entries)%nat /\
    SyncOutput.replies out' = SyncOutput.replies out /\ drawn store store' entries.
Proof.
  intros Hwf Hst Hes. revert store k out Hwf Hst. induction Hes as [|e entries [He Hc] Hes IH]; intros store k out Hwf Hst Hsz.
  { exists store, out. cbn. split_and!; try done; [apply Nat.le_add_r|by left]. }
  cbn [push_loop length] in *.
  pose proof (storing_insert io c _ store e k Hst Hwf He Hc ltac:(unfold size_ok in *; lia)) as Hi.
  destruct (EntryStore.insert store e (io k)) as [store1 r].
  destruct Hi as (Hwf1 & Hst1 & [(-> & -> & Hheld)|(-> & Hnew & Hent)]).
  - destruct (IH store (S k) (SyncOutput.push_event out (DuplicateIgnored (Entry.id e))) Hwf Hst1)
      as (store' & out' & E & H1 & H2 & H3 & H4 & H5 & H6 & H7); [unfold size_ok in *; lia|].
    exists store', out'. split_and!; try done; [|lia|intros i x Hx; destruct (H7 i x Hx); [by left|right; by constructor]].
    constructor; [|done]. destruct Hheld as [x Hx]. exists x. by eapply lookup_weaken.
  - assert (Hsz1 : base.size (EntryStore.entries store1) = S (base.size (EntryStore.entries store))).
    { rewrite Hent. by apply map_size_insert_None. }
    destruct (IH store1 (S k) (SyncOutput.push_event out (Stored (Entry.id e))) Hwf1 Hst1)
      as (store' & out' & E & H1 & H2 & H3 & H4 & H5 & H6 & H7); [unfold size_ok in *; lia|].
    exists store', out'. split_and!; try done; [| |lia|].
    + etrans; [|exact H3]. rewrite Hent. by apply insert_subseteq.
    + constructor; [|done]. exists e. eapply lookup_weaken; [|exact H3]. rewrite Hent. by apply lookup_insert_eq.
    + intros i x Hx. destruct (H7 i x Hx) as [Hold|Hin]; [|right; by constructor].
      unfold EntryStore.get in *. rewrite Hent in Hold.
      apply lookup_insert_Some in Hold as [[_ ->]|[_ Hold]]; [right; by constructor|by left].
Qed.

Lemma handle_pushes c n s store io msgs ttl out :
  StoreSpec.wf store -> storing io c (length (concat (map batch_entries msgs)) + n) store -> Forall (batch_ok ttl) msgs ->
  Forall (fitting c) (concat (map batch_entries msgs)) -> size_ok store (length (concat (map batch_entries msgs))) ->
  exists store' out', handle_all s store io msgs out = (s, store', out', Ok tt) /\
    StoreSpec.wf store' /\ storing io c n store' /\
    EntryStore.entries store ⊆ EntryStore.entries store' /\
    Forall (fun e => is_Some (EntryStore.get store' (Entry.id e))) (concat (map batch_entries msgs)) /\
    (base.size (EntryStore.entries store') <=
       base.size (EntryStore.entries store) + length (concat (map batch_entries msgs)))%nat /\
    SyncOutput.replies out' = SyncOutput.replies out /\ drawn store store' (concat (map batch_entries msgs)).
Proof.
  intros Hwf Hst Hb. revert store out Hwf Hst. induction Hb as [|m msgs (es & -> & _) Hb IH]; intros store out Hwf Hst Hv Hsz.
  { exists store, out. cbn. split_and!; try done; [lia|by left]. }
  cbn [map concat batch_entries GossipPush.entries] in *. apply Forall_app in Hv as [Hv1 Hv2].
  rewrite length_app in *. rewrite <- Nat.add_assoc in Hst. cbn [handle_all handle_message_into GossipPush.entries].
  destruct (push_loop_ok c _ store io 0 es out Hwf Hst Hv1) as (store1 & out1 & -> & H1 & H2 & H3 & H4 & H5 & H6 & H7);
    [unfold size_ok in *; lia|].
  destruct (IH store1 out1 H1 H2 Hv2) as (store' & out' & -> & G1 & G2 & G3 & G4 & G5 & G6 & G7); [unfold size_ok in *; lia|].
  exists store', out'. split_and!; try done; [by etrans| |lia|congruence|].
  - apply Forall_app. split; [|done]. eapply Forall_impl; [exact H4|]. intros e [x Hx]. exists x. by eapply lookup_weaken.
  - intros i x Hx. destruct (G7 i x Hx) as [Hold|Hin]; [|right; apply elem_of_app; by right].
    destruct (H7 i x Hold); [by left|right; apply elem_of_app; by left].
Qed.

(** The largest entry of a window. *)
Definition widest (store : EntryStore.t) (items : list Item.t) : N :=
  foldr (fun x m => N.max (match EntryStore.get store (Item.id x) with Some e => lenN (Entry.to_bytes e) | None => 0 end) m)
    0 items.

Lemma widest_le store items i e : i ∈ ids items -> EntryStore.get store i = Some e ->
  lenN (Entry.to_bytes e) <= widest store items.
Proof.
  intros (x & -> & Hx)%list_elem_of_fmap He. induction Hx as [items|y z items Hx IH]; cbn [widest foldr].
  - rewrite He. lia.
  - unfold widest in IH. lia.
Qed.

Lemma widest_lub store items c :
  (forall x e, x ∈ items -> EntryStore.get store (Item.id x) = Some e -> lenN (Entry.to_bytes e) <= c) -> widest store items <= c.
Proof.
  induction items as [|x items IH]; intros H; cbn [widest foldr]; [lia|]. apply N.max_lub.
  - destruct (EntryStore.get store (Item.id x)) as [e|] eqn:E; [|lia]. by apply (H x e); [left|].
  - apply IH. intros y e Hy. by apply H; right.
Qed.

(** The pushes of ids of the window fit. *)
Lemma omap_fitting store items hv : StoreSpec.wf store -> (forall i, i ∈ hv -> i ∈ ids items) ->
  Forall (fitting (widest store items)) (omap (EntryStore.get store) hv).
Proof.
  intros Hwf Hin. apply Forall_forall. intros e (i & Hi & He)%list_elem_of_omap.
  split; [by destruct (wf_entries store Hwf i e He)|]. by eapply widest_le; [apply Hin|].
Qed.

(** The ids of a snapshot are distinct and its sort keys are not reserved. *)
Lemma snapshot_proper store w items : StoreSpec.wf store ->
  (forall x, x ∈ items -> exists e, EntryStore.get store (Item.id x) = Some e /\
     Entry.sort_key e = Item.sort_key x /\ in_window w x = true) ->
  Item.sorted items -> proper items.
Proof.
  intros Hwf Hmem Hs. split.
  - apply NoDup_fmap_2_strong; [|by apply Item.sorted_NoDup].
    intros x y Hx Hy Hid. apply Hmem in Hx as (e & He & Hk & _), Hy as (e' & He' & Hk' & _).
    rewrite Hid, He' in He. injection He as ->. destruct x, y; cbn in *; congruence.
  - intros x Hx. apply Hmem in Hx as (e & He & Hk & _).
    destruct (wf_entries store Hwf _ _ He) as [_ ((_ & Hb & _) & Hne & _)]. unfold u64_max in *. lia.
Qed.

(** The situation in which the initiator [sa] over [stA] opens a session
    over [w] with the responder [sb] over [stB]. *)
Record meeting (sa sb : t) (stA stB : EntryStore.t) (io : nat -> io_outcome) (w : SortKeyWindow.t)
    (itemsA itemsB : list Item.t) : Prop := {
  set_inv : inv sa /\ inv sb;
  set_roles : our_parity sb = peer_parity sa;
  set_stores : StoreSpec.wf stA /\ StoreSpec.wf stB /\ storing io (widest stA itemsA) (length itemsA) stB;
  set_config : good_config (config sa) /\ good_config (config sb);
  set_caps : open_sessions sa < SyncConfig.max_sessions (config sa) /\
             open_sessions sb < SyncConfig.max_sessions (config sb);
  set_sid : next_sid sa + 2 <= u64_max /\ sessions sb !! (false, next_sid sa) = None;
  set_items : EntryStore.snapshot stA w = Some itemsA /\ EntryStore.snapshot stB w = Some itemsB;
  set_size : size_ok stB (length itemsA) }.

(** Sets small enough for one round trip. *)
Record setup (sa sb : t) (stA stB : EntryStore.t) (io : nat -> io_outcome) (w : SortKeyWindow.t)
    (itemsA itemsB : list Item.t) : Prop := {
  set_meeting : meeting sa sb stA stB io w itemsA itemsB;
  set_small : lenN itemsA < 32 /\
    match SyncConfig.frame_limit (config sb) with Some lim => 32 * lenN itemsB + 214 <= lim | None => True end }.

Definition sealed (s : t) (items : list Item.t) (init : bool) : Negentropy.t SealedVec.t :=
  Negentropy.mk (SealedVec.new items) (SyncConfig.frame_limit (config s)) init.

Lemma sealed_engine_ok s store w items : StoreSpec.wf store -> good_config (config s) ->
  EntryStore.snapshot store w = Some items -> sealed_engine s store w = Ok (sealed s items false).
Proof.
  intros Hwf Hg E. unfold sealed_engine. rewrite E. cbn [expect mbind result_bind]. unfold Negentropy.new, sealed.
  unfold good_config in Hg. destruct (SyncConfig.frame_limit (config s)) as [lim|]; [|done].
  by rewrite (proj2 (N.ltb_ge lim FRAME_LIMIT_FLOOR)).
Qed.

Lemma handle_recon_msg_ok s store rm se round :
  sessions s !! session_key s (ReconMsg.sid rm) = Some se ->
  Negentropy.reconcile (Session.engine se) (ReconMsg.msg rm) = Ok round ->
  exists s' out, handle_recon_msg s store rm = Ok (s', out).
Proof.
  intros Hk Hr. unfold handle_recon_msg. rewrite Hk. cbn [ok_or mbind result_bind]. rewrite Hr.
  cbn [mbind result_bind]. unfold session_key at 1.
  destruct (filter_insert (Session.pushed se) _) as [pushed hv]. destruct (filter_insert ∅ _) as [seen nd].
  destruct (Round.reply round); eauto.
Qed.

Lemma sealed_facts store w items : StoreSpec.wf store -> EntryStore.snapshot store w = Some items ->
  ns_models (SealedVec.new items) items /\ proper items /\ Forall Item.wf items /\ lenN items <= u32_max /\
  forall x, x ∈ items -> exists e, EntryStore.get store (Item.id x) = Some e.
Proof.
  intros Hwf E. destruct (sealed_snapshot store w Hwf) as (items' & E' & _ & Hm & Hmem).
  rewrite E in E'. injection E' as <-. destruct (ns_models_sorted _ _ Hm) as (Hs & Hw & Hl).
  split_and!; try done.
  - eapply snapshot_proper; [done| |done]. intros x Hx. by apply Hmem.
  - intros x Hx. apply Hmem in Hx as (e & He & _). by exists e.
Qed.

(** The three messages of the session. *)
Lemma session_rounds sa sb stA stB io w itemsA itemsB : setup sa sb stA stB io w itemsA itemsB ->
  let sid := next_sid sa in
  let init := ReconInit.mk sid w (PROTOCOL_VERSION :: id_list_message itemsA) in
  let m1 := ReconMsg.mk sid (PROTOCOL_VERSION :: id_list_message itemsB) in
  exists sa1 sb1, open_session sa stA w = Ok (sa1, sid, MReconInit init) /\
    handle_init sb stB init = Ok (sb1, SyncOutput.mk [MReconMsg m1] []) /\
    sessions sa1 = <[(true, sid) := Session.mk (sealed sa itemsA true) ∅]> (sessions sa) /\
    role sa1 = role sa /\ config sa1 = config sa /\ next_sid sa1 = sid + 2 /\ inv sa1 /\ inv sb1 /\
    sb1 = set_sessions sb (<[(false, sid) := Session.mk (sealed sb itemsB false) ∅]> (sessions sb)).
Proof.
  intros [[[Ha Hb] Hroles (Hwa & Hwb & _) (Hga & Hgb) (Hca & Hcb) (Hsid & Hnone) (Ea & Eb) _] (Hsm & Hfit)].
  intros sid init m1.
  destruct (sealed_facts _ _ _ Hwa Ea) as (Hma & Hpa & Hwia & Hla & _).
  destruct (sealed_facts _ _ _ Hwb Eb) as (Hmb & Hpb & Hwib & Hlb & _).
  pose proof (open_session_sat sa stA w Hwa Ha Hsid) as Hopen.
  pose proof (handle_init_sat sb stB init Hwb Hb) as Hinit.
  assert (Eopen : open_session sa stA w = Ok (mk (role sa) (config sa)
            (<[(true, sid) := Session.mk (sealed sa itemsA true) ∅]> (sessions sa)) (sid + 2), sid, MReconInit init)).
  { unfold open_session. rewrite (proj2 (N.leb_gt _ _)) by done.
    rewrite (sealed_engine_ok _ _ _ _ Hwa Hga Ea). cbn [mbind result_bind]. unfold sealed.
    rewrite (initiate_small _ _ _ Hma Hsm). cbn [mbind result_bind]. by rewrite (proj2 (N.ltb_ge _ _)). }
  assert (Einit : handle_init sb stB init = Ok (set_sessions sb
            (<[(false, sid) := Session.mk (sealed sb itemsB false) ∅]> (sessions sb)), SyncOutput.mk [MReconMsg m1] [])).
  { unfold handle_init, init. cbn [ReconInit.sid ReconInit.window ReconInit.msg].
    assert (Hpar : sid mod 2 = peer_parity sb).
    { unfold sid. rewrite (inv_next sa Ha). unfold peer_parity in *.
      destruct (parity_cases sa) as [[-> ?]|[-> ?]]; unfold peer_parity in *; lia. }
    rewrite Hpar, N.eqb_refl. cbn [negb]. rewrite decide_False by (unfold sid; rewrite Hnone; by intros [? ?]).
    rewrite (proj2 (N.leb_gt _ _)) by done. rewrite (sealed_engine_ok _ _ _ _ Hwb Hgb Eb). cbn [mbind result_bind].
    rewrite (reconcile_id_list (sealed sb itemsB false) itemsB itemsA); try done; [apply Hpa|].
    left. exact Hfit. }
  rewrite Eopen in Hopen. rewrite Einit in Hinit. cbn [sat] in *.
  do 2 eexists. split; [exact Eopen|]. split; [exact Einit|]. split_and!; try done; [apply Hopen|apply Hinit].
Qed.

Lemma length_omap_le {A B} (f : A -> option B) l : (length (omap f l) <= length l)%nat.
Proof. induction l as [|x l IH]; cbn; [done|]. destruct (f x); cbn; lia. Qed.

(** The responder's side: the pushes are stored, RECON_DONE closes. *)
Lemma responder_done sb1 stA stB io items hv ttl sid se :
  StoreSpec.wf stA -> StoreSpec.wf stB -> storing io (widest stA items) (length items) stB -> NoDup hv ->
  (forall i, i ∈ hv -> i ∈ ids items) -> (forall i, i ∈ ids items -> is_Some (EntryStore.get stA i)) ->
  size_ok stB (length items) -> sessions sb1 !! session_key sb1 sid = Some se ->
  exists stB' outB, handle_all sb1 stB io (push_batches stA hv ttl ++ [MReconDone (ReconDone.mk sid)]) SyncOutput.default =
      (set_sessions sb1 (delete (session_key sb1 sid) (sessions sb1)), stB', outB, Ok tt) /\
    StoreSpec.wf stB' /\ storing io (widest stA items) 0 stB' /\ EntryStore.entries stB ⊆ EntryStore.entries stB' /\
    (base.size (EntryStore.entries stB') <= base.size (EntryStore.entries stB) + length items)%nat /\
    SyncOutput.replies outB = [] /\ drawn stB stB' (omap (EntryStore.get stA) hv) /\
    forall i, i ∈ hv -> is_Some (EntryStore.get stB' i).
Proof.
  intros Hwa Hwb Hj Hn Hhv Hget Hsz Hk.
  destruct (push_batches_ok stA hv ttl) as [Hbat Hcat].
  assert (Hlen : (length (omap (EntryStore.get stA) hv) <= length items)%nat).
  { transitivity (length hv); [apply length_omap_le|].
    assert (Hsub : hv ⊆+ ids items) by by apply NoDup_submseteq.
    apply submseteq_length in Hsub. unfold ids in Hsub. by rewrite length_map in Hsub. }
  destruct (handle_pushes (widest stA items) 0 sb1 stB io (push_batches stA hv ttl) ttl SyncOutput.default Hwb)
    as (stB' & outB & E & H1 & H2 & H3 & H4 & H5 & H6 & H7); [|done| |..].
  { eapply storing_le; [exact Hj|]. rewrite Hcat. lia. }
  { rewrite Hcat. by apply omap_fitting. }
  { rewrite Hcat. unfold size_ok in *. lia. }
  rewrite (handle_all_app _ _ _ _ _ _ _ _ _ E). cbn [handle_all handle_message_into].
  unfold handle_done. cbn [ReconDone.sid]. rewrite Hk. do 2 eexists. split; [done|]. split_and!; try done;
    [rewrite Hcat in H5; lia|by cbn; rewrite app_nil_r|by rewrite <- Hcat|].
  intros i Hi. destruct (Hget i (Hhv i Hi)) as [e He]. rewrite Hcat, Forall_forall in H4.
  destruct (wf_entries stA Hwa i e He) as [<- _]. apply H4. apply list_elem_of_omap. by exists (Entry.id e).
Qed.

(** A round changes nothing but the sessions. *)
Lemma handle_recon_msg_keeps s store rm s' out : handle_recon_msg s store rm = Ok (s', out) ->
  s' = set_sessions s (sessions s').
Proof.
  unfold handle_recon_msg. destruct (ok_or _ _) as [se| |]; [|done|done]. cbn [mbind result_bind].
  destruct (Negentropy.reconcile _ _) as [round| |]; [|done|done]. cbn [mbind result_bind].
  destruct (session_key s _) as [o i]. destruct (filter_insert _ _) as [p hv]. destruct (filter_insert _ _) as [p' nd].
  destruct (Round.reply round); intros [= <- _]; done.
Qed.

(** The initiator's side: one round ends the session. *)
Lemma initiator_done sa sb stA stB io w itemsA itemsB sa1 :
  setup sa sb stA stB io w itemsA itemsB -> inv sa1 -> role sa1 = role sa ->
  sessions sa1 = <[(true, next_sid sa) := Session.mk (sealed sa itemsA true) ∅]> (sessions sa) ->
  exists sa2 outA hv nd,
    handle_recon_msg sa1 stA (ReconMsg.mk (next_sid sa) (PROTOCOL_VERSION :: id_list_message itemsB)) = Ok (sa2, outA) /\
    sessions sa2 = sessions sa /\ NoDup hv /\
    SyncOutput.replies outA = push_batches stA hv (SyncConfig.push_ttl (config sa1)) ++ [MReconDone (ReconDone.mk (next_sid sa))] /\
    SyncOutput.events outA = (if decide (hv = [] /\ nd = []) then [] else [Reconciled (next_sid sa) hv nd]) ++
      [SessionClosed (next_sid sa) true] /\
    (forall i, i ∈ hv <-> i ∈ ids itemsA /\ i ∉ ids itemsB) /\
    (forall i, i ∈ nd <-> i ∈ ids itemsB /\ i ∉ ids itemsA).
Proof.
  intros [[[Ha Hb] Hroles (Hwa & Hwb & _) (Hga & Hgb) (Hca & Hcb) (Hsid & Hnone) (Ea & Eb) _] (Hsm & _)] Hinv1 Hrole1 Hsess1.
  destruct (sealed_facts _ _ _ Hwa Ea) as (Hma & Hpa & Hwia & Hla & _).
  destruct (sealed_facts _ _ _ Hwb Eb) as (Hmb & Hpb & Hwib & Hlb & _).
  set (rm := ReconMsg.mk (next_sid sa) (PROTOCOL_VERSION :: id_list_message itemsB)).
  assert (Hkey : session_key sa1 (ReconMsg.sid rm) = (true, next_sid sa)).
  { unfold session_key, our_parity. rewrite Hrole1. f_equal. apply N.eqb_eq, Ha. }
  assert (Hlook : sessions sa1 !! session_key sa1 (ReconMsg.sid rm) = Some (Session.mk (sealed sa itemsA true) ∅)).
  { rewrite Hkey, Hsess1. apply lookup_insert_eq. }
  assert (Hround : Negentropy.reconcile (sealed sa itemsA true) (ReconMsg.msg rm) =
            Ok (Round.mk None (only_in itemsA itemsB) (only_in itemsB itemsA))).
  { unfold rm. cbn [ReconMsg.msg]. rewrite (reconcile_id_list (sealed sa itemsA true) itemsA itemsB); try done;
      [apply Hpb|by right]. }
  destruct (handle_recon_msg_ok sa1 stA rm _ _ Hlook Hround) as (sa2 & outA & Emsg).
  pose proof (handle_recon_msg_sat sa1 stA rm Hwa Hinv1) as Hs. rewrite Emsg in Hs.
  destruct Hs as (_ & _ & se & hv & nd & reply & Hk & [(round & Hr & Hrep & Hhv & Hnd) [N1 _] _ _ _ Hsess Hrepl Hev]).
  rewrite Hlook in Hk. injection Hk as <-. cbn [Session.engine Session.pushed] in *.
  rewrite Hround in Hr. injection Hr as <-. cbn [Round.reply Round.have Round.need] in *. subst reply.
  exists sa2, outA, hv, nd. rewrite Hkey in Hsess, Hev. split_and!; try done.
  - rewrite Hsess, Hsess1. apply delete_insert_id. by apply inv_fresh.
  - intros i. rewrite Hhv, elem_of_only_in. set_solver.
  - intros i. by rewrite Hnd, elem_of_only_in.
Qed.

(** Handling any message: the invariants, no abort, and no trace of a
    message that failed. *)
Lemma handle_message_into_ok s store io msg out : inv s -> StoreSpec.wf store -> wf_message msg ->
  size_ok store (length (batch_entries msg)) ->
  let '(s', store', out', r) := handle_message_into s store io msg out in
  inv s' /\ StoreSpec.wf store' /\ r <> Panic /\
  (r <> Ok tt -> s' = s /\ SyncOutput.replies out' = SyncOutput.replies out).
Proof.
  intros Hi Hwf Hm Hsz.
  destruct msg as [h|h|p|ri|rm|rd|e]; cbn [handle_message_into]; try done.
  + destruct p as [es ttl]. cbn [GossipPush.entries batch_entries wf_message] in *.
    pose proof (push_loop_spec store io 0 es out Hwf (proj2 (proj1 Hm)) Hsz) as Hp.
    destruct (push_loop store io 0 es out) as [[store' out'] r]. destruct Hp as (H1 & _ & H3 & H4 & _). done.
  + pose proof (handle_init_sat s store ri Hwf Hi) as Hs. destruct (handle_init s store ri) as [[s' o]| |]; try done.
    split; [apply Hs|done].
  + pose proof (handle_recon_msg_sat s store rm Hwf Hi) as Hs. destruct (handle_recon_msg s store rm) as [[s' o]| |]; try done.
    split; [apply Hs|done].
  + pose proof (handle_done_sat s rd Hi) as Hs. destruct (handle_done s rd) as [[s' o]| |]; try done.
    split; [apply Hs|done].
Qed.

(** *** The whole dialogue *)

(** The first message of the session. *)
Definition opening (sa : t) (w : SortKeyWindow.t) (itemsA : list Item.t) : Message :=
  MReconInit (ReconInit.mk (next_sid sa) w (PROTOCOL_VERSION :: id_list_message itemsA)).

(** The responder's answer. *)
Definition answering (sa : t) (itemsB : list Item.t) : Message :=
  MReconMsg (ReconMsg.mk (next_sid sa) (PROTOCOL_VERSION :: id_list_message itemsB)).

(** What the initiator sends last. *)
Definition closing (sa : t) (stA : EntryStore.t) (hv : list bytes) : list Message :=
  push_batches stA hv (SyncConfig.push_ttl (config sa)) ++ [MReconDone (ReconDone.mk (next_sid sa))].

(** The initiator once its session is over. *)
Definition spent (sa : t) : t := mk (role sa) (config sa) (sessions sa) (next_sid sa + 2).

(** The messages and states of a session that ends in one round trip. *)
Record dialogue (sa sb : t) (stA stB : EntryStore.t) (io : nat -> io_outcome) (w : SortKeyWindow.t)
    (itemsA itemsB : list Item.t) (sa1 sb1 : t) (stB' : EntryStore.t) (outA outB : SyncOutput.t)
    (hv nd : list bytes) : Prop := {
  dlg_open : open_session sa stA w = Ok (sa1, next_sid sa, opening sa w itemsA);
  dlg_init : handle_message_into sb stB io (opening sa w itemsA) SyncOutput.default =
    (sb1, stB, SyncOutput.mk [answering sa itemsB] [], Ok tt);
  dlg_answer : handle_message_into sa1 stA io (answering sa itemsB) SyncOutput.default = (spent sa, stA, outA, Ok tt);
  dlg_close : handle_all sb1 stB io (closing sa stA hv) SyncOutput.default = (sb, stB', outB, Ok tt);
  dlg_replies : SyncOutput.replies outA = closing sa stA hv /\ SyncOutput.replies outB = [];
  dlg_events : SyncOutput.events outA =
    (if decide (hv = [] /\ nd = []) then [] else [Reconciled (next_sid sa) hv nd]) ++ [SessionClosed (next_sid sa) true];
  dlg_store : StoreSpec.wf stB' /\ storing io (widest stA itemsA) 0 stB';
  dlg_grows : EntryStore.entries stB ⊆ EntryStore.entries stB' /\
    (base.size (EntryStore.entries stB') <= base.size (EntryStore.entries stB) + length itemsA)%nat;
  dlg_stored : forall x, x ∈ itemsA -> is_Some (EntryStore.get stB' (Item.id x));
  dlg_drawn : drawn stB stB' (omap (EntryStore.get stA) hv);
  dlg_diff : NoDup hv /\ (forall i, i ∈ hv <-> i ∈ ids itemsA /\ i ∉ ids itemsB) /\
    (forall i, i ∈ nd <-> i ∈ ids itemsB /\ i ∉ ids itemsA) }.

Lemma session_run sa sb stA stB w itemsA itemsB io : setup sa sb stA stB io w itemsA itemsB ->
  exists sa1 sb1 stB' outA outB hv nd, dialogue sa sb stA stB io w itemsA itemsB sa1 sb1 stB' outA outB hv nd.
Proof.
  intros Hset. destruct (session_rounds _ _ _ _ _ _ _ _ Hset) as
    (sa1 & sb1 & Eopen & Einit & Hsess1 & Hrole1 & Hconf1 & Hnext1 & Hinv1 & Hinvb1 & Hsb1).
  destruct (initiator_done _ _ _ _ _ _ _ _ sa1 Hset Hinv1 Hrole1 Hsess1)
    as (sa2 & outA & hv & nd & Emsg & Hsa2 & Hn & Hrepl & Hev & Hhv & Hnd).
  pose proof Hset as [[[Ha Hb] Hroles (Hwa & Hwb & Hjb) _ _ (Hsid & Hnone) (Ea & Eb) Hsz] _].
  destruct (sealed_facts _ _ _ Hwa Ea) as (_ & _ & _ & _ & Hgeta).
  destruct (sealed_facts _ _ _ Hwb Eb) as (_ & _ & _ & _ & Hgetb).
  assert (Hkeyb : session_key sb1 (next_sid sa) = (false, next_sid sa)).
  { unfold session_key. replace (our_parity sb1) with (our_parity sb) by by rewrite Hsb1.
    rewrite (inv_next sa Ha), Hroles. destruct (parity_cases sa) as [[-> ->]|[-> ->]]; done. }
  destruct (responder_done sb1 stA stB io itemsA hv (SyncConfig.push_ttl (config sa1)) (next_sid sa)
    (Session.mk (sealed sb itemsB false) ∅)) as (stB' & outB & Eall & Hwb' & Hjb' & Hsub & Hgrow & Hquiet & Hdrawn & Hstored); try done.
  - intros i Hi. by apply Hhv.
  - intros i (x & -> & Hx)%list_elem_of_fmap. by apply Hgeta.
  - rewrite Hkeyb, Hsb1. apply lookup_insert_eq.
  - rewrite Hconf1 in *. exists sa1, sb1, stB', outA, outB, hv, nd. split; try done.
    + unfold opening. cbn [handle_message_into]. by rewrite Einit.
    + unfold answering. cbn [handle_message_into]. rewrite Emsg. f_equal. f_equal; [|unfold SyncOutput.extend; cbn; by destruct outA].
      f_equal. rewrite (handle_recon_msg_keeps _ _ _ _ _ Emsg), Hsa2. unfold set_sessions, spent.
      by rewrite Hrole1, Hconf1, Hnext1.
    + unfold closing. rewrite Eall. do 3 f_equal. rewrite Hkeyb, Hsb1. unfold set_sessions. cbn.
      rewrite delete_insert_id by done. by destruct sb.
    + intros x Hx. destruct (decide (Item.id x ∈ ids itemsB)) as [Hin|Hout].
      * apply list_elem_of_fmap in Hin as (y & Hy & Hyin). destruct (Hgetb y Hyin) as [e He].
        exists e. rewrite Hy. by eapply lookup_weaken.
      * apply Hstored, Hhv. split; [|done]. apply list_elem_of_fmap. by exists x.
Qed.

(** ** Properties *)

(** C21: the session table stays within its rules, whatever the peer sends.
    New syncers satisfy the invariant (cap, parity of the ids by side, sealed
    sets intact); opening, aborting and handling any message preserve it,
    keep the store well-formed and never panic; a failed message sends
    nothing and leaves the sessions as they were; a session we open gets a
    fresh id of our parity. *)
Theorem session_invariant :
  (forall role config, inv (new role config)) /\
  (forall s store w, inv s -> StoreSpec.wf store -> next_sid s + 2 <= u64_max ->
     open_session s store w <> Panic /\
     forall s' sid msg, open_session s store w = Ok (s', sid, msg) ->
       inv s' /\ sid mod 2 = our_parity s /\ sessions s !! (true, sid) = None /\
       open_sessions s' = open_sessions s + 1) /\
  (forall s sid, inv s -> inv (abort_session s sid).1) /\
  (forall s store io msg out, inv s -> StoreSpec.wf store -> wf_message msg ->
     size_ok store (length (batch_entries msg)) ->
     let '(s', store', out', r) := handle_message_into s store io msg out in
     inv s' /\ StoreSpec.wf store' /\ r <> Panic /\
     (r <> Ok tt -> s' = s /\ SyncOutput.replies out' = SyncOutput.replies out)).
Proof.
  split_and!.
  - apply inv_new.
  - intros s store w Hi Hwf Hsid. pose proof (open_session_sat s store w Hwf Hi Hsid) as Hs.
    split; [by eapply sat_no_panic|]. intros s' sid msg E. rewrite E in Hs.
    destruct Hs as (Hi' & -> & _ & Hnone & se & m & Hse & _). split_and!; [done|apply Hi|done|].
    unfold open_sessions. rewrite Hse, map_size_insert_None by done. lia.
  - intros s sid Hi. unfold abort_session. destruct (sessions s !! (true, sid)); [by apply inv_delete|done].
  - apply handle_message_into_ok.
Qed.

(** The push discipline. A round on an open session reports each newly
    learnt id once, never one already pushed, and only ids of the sealed
    snapshot; it sends the held entries of those ids in batches followed by
    the next message or RECON_DONE; a session the peer opened pushes
    nothing; the session closes exactly when the engine has no reply, and
    otherwise remembers what was pushed. *)
Theorem session_push_once s store rm : StoreSpec.wf store -> inv s ->
  match handle_recon_msg s store rm with
  | Ok (s', out) => exists se hv nd reply,
      sessions s !! session_key s (ReconMsg.sid rm) = Some se /\
      NoDup hv /\ (forall i, i ∈ hv -> i ∉ Session.pushed se /\
                     i ∈ ids (SealedVec.items (Negentropy.store (Session.engine se)))) /\
      ((session_key s (ReconMsg.sid rm)).1 = false -> hv = [] /\ nd = []) /\
      SyncOutput.replies out = push_batches store hv (SyncConfig.push_ttl (config s)) ++
        [match reply with
         | Some m => MReconMsg (ReconMsg.mk (ReconMsg.sid rm) m)
         | None => MReconDone (ReconDone.mk (ReconMsg.sid rm))
         end] /\
      SyncOutput.events out =
        (if decide (hv = [] /\ nd = []) then [] else [Reconciled (ReconMsg.sid rm) hv nd]) ++
        match reply with
        | Some _ => []
        | None => [SessionClosed (ReconMsg.sid rm) (session_key s (ReconMsg.sid rm)).1]
        end /\
      match reply with
      | Some _ => exists se', sessions s' !! session_key s (ReconMsg.sid rm) = Some se' /\
          forall i, i ∈ Session.pushed se' <-> i ∈ Session.pushed se \/ i ∈ hv
      | None => sessions s' !! session_key s (ReconMsg.sid rm) = None
      end
  | Err _ => True
  | Panic => False
  end.
Proof.
  intros Hwf Hi. pose proof (handle_recon_msg_sat s store rm Hwf Hi) as Hs.
  destruct (handle_recon_msg s store rm) as [[s' out]| |]; try done.
  destruct Hs as (_ & _ & se & hv & nd & reply & Hk & [_ [N1 _] Hnew Hours Hheld Hsess Hrep Hev]).
  exists se, hv, nd, reply. split_and!; try done; [intros i Hin; split; auto|].
  destruct reply.
  - destruct Hsess as (pushed' & Hp & ->). eexists. split; [apply lookup_insert_eq|exact Hp].
  - rewrite Hsess. apply lookup_delete_eq.
Qed.

(** Batching loses nothing. The batches carry, in order, exactly the held
    entries of the requested ids; no batch is empty, and each stays within
    the byte budget unless it is a single entry. *)
Theorem push_batches_spec store hv ttl :
  concat (map batch_entries (push_batches store hv ttl)) = omap (EntryStore.get store) hv /\
  Forall (fun m => exists es, m = MGossipPush (GossipPush.mk es ttl) /\ es <> [] /\
    (batch_size es <= PUSH_BATCH_BUDGET \/ exists e, es = [e])) (push_batches store hv ttl).
Proof. split; apply push_batches_ok. Qed.

(** Handling a push keeps the store well-formed and grows it by the
    entries processed before the first failure, each reported as stored or
    duplicate, even when a later entry ends the push with an error. *)
Theorem handle_push_spec s store io push out :
  StoreSpec.wf store -> Forall Entry.wf (GossipPush.entries push) -> size_ok store (length (GossipPush.entries push)) ->
  let '(s', store', out', r) := handle_message_into s store io (MGossipPush push) out in
  s' = s /\ StoreSpec.wf store' /\ r <> Panic /\
  EntryStore.entries store ⊆ EntryStore.entries store' /\
  exists processed rest evs, GossipPush.entries push = processed ++ rest /\
    SyncOutput.events out' = SyncOutput.events out ++ evs /\
    Forall2 (fun e ev => ev = Stored (Entry.id e) \/ ev = DuplicateIgnored (Entry.id e)) processed evs /\
    Forall (fun e => is_Some (EntryStore.get store' (Entry.id e))) processed /\
    (forall i e, EntryStore.get store' i = Some e -> EntryStore.get store i = Some e \/ e ∈ processed) /\
    (r = Ok tt <-> rest = []).
Proof.
  intros Hwf Hes Hsz. cbn [handle_message_into].
  pose proof (push_loop_spec store io 0 (GossipPush.entries push) out Hwf Hes Hsz) as Hp.
  destruct (push_loop _ _ _ _ _) as [[store' out'] r]. destruct Hp as (H1 & H2 & H3 & _ & H5). done.
Qed.

(** Convergence. An initiator with fewer than 32 items in the window and
    a responder whose ids fit one message: the initiator's RECON_INIT, the
    responder's answer, and the initiator's pushes and RECON_DONE leave both
    session tables as they were and the responder holding every entry of the
    initiator's window, with nothing lost; the initiator reports exactly the
    ids of the responder's window that it lacks. *)
Theorem session_converges sa sb stA stB w itemsA itemsB io :
  setup sa sb stA stB io w itemsA itemsB ->
  exists sa1 sid init sb1 m1 sa2 outA sb2 stB' outB hv nd,
    open_session sa stA w = Ok (sa1, sid, init) /\
    handle_message_into sb stB io init SyncOutput.default = (sb1, stB, SyncOutput.mk [m1] [], Ok tt) /\
    handle_message_into sa1 stA io m1 SyncOutput.default = (sa2, stA, outA, Ok tt) /\
    handle_all sb1 stB io (SyncOutput.replies outA) SyncOutput.default = (sb2, stB', outB, Ok tt) /\
    sessions sa2 = sessions sa /\ sessions sb2 = sessions sb /\
    StoreSpec.wf stB' /\ EntryStore.entries stB ⊆ EntryStore.entries stB' /\
    (forall x, x ∈ itemsA -> is_Some (EntryStore.get stB' (Item.id x))) /\
    SyncOutput.events outA =
      (if decide (hv = [] /\ nd = []) then [] else [Reconciled sid hv nd]) ++ [SessionClosed sid true] /\
    (forall i, i ∈ hv <-> i ∈ ids itemsA /\ i ∉ ids itemsB) /\
    (forall i, i ∈ nd <-> i ∈ ids itemsB /\ i ∉ ids itemsA).
Proof.
  intros Hset. destruct (session_run _ _ _ _ _ _ _ io Hset) as
    (sa1 & sb1 & stB' & outA & outB & hv & nd & [Eopen Einit Eans Ecl [Hr _] Hev [Hwf _] [Hsub _] Hst _ (_ & Hhv & Hnd)]).
  exists sa1, (next_sid sa), (opening sa w itemsA), sb1, (answering sa itemsB), (spent sa), outA, sb, stB', outB, hv, nd.
  rewrite Hr. by split_and!.
Qed.

End Spec.

(** ** Concrete instances *)

Definition full_window : SortKeyWindow.t := SortKeyWindow.mk 0 u64_max.
Definition sample_initiator : Syncer.t := Syncer.new Initiator SyncConfig.default.
Definition sample_responder : Syncer.t := Syncer.new Responder SyncConfig.default.
Definition other_store : EntryStore.t := (EntryStore.insert EntryStore.new (sample_entry 9 1500) IoOk).1.

Definition window_items (st : EntryStore.t) : list Item.t := default [] (EntryStore.snapshot st full_window).

Lemma other_store_wf : StoreSpec.wf other_store.
Proof.
  unfold other_store. eapply inserts_wf; [apply store_wf_new|].
  apply insert_inserts; [apply store_wf_new|by apply sample_entry_wf|done].
Qed.

Lemma sample_setup :
  setup sample_initiator sample_responder sample_store other_store (fun _ => IoOk) full_window
    (window_items sample_store) (window_items other_store).
Proof.
  split; [split|].
  - split; apply inv_new.
  - reflexivity.
  - split; [exact sample_store_wf|]. split; [exact other_store_wf|].
    apply storing_memory. vm_compute. reflexivity.
  - split; vm_compute; discriminate.
  - split; vm_compute; reflexivity.
  - split; [vm_compute; discriminate|reflexivity].
  - split; vm_compute; reflexivity.
  - vm_compute; reflexivity.
  - split; [vm_compute; reflexivity|vm_compute; discriminate].
Qed.

Lemma session_converges_witness :
  exists stB', EntryStore.entries other_store ⊆ EntryStore.entries stB' /\
    forall x, x ∈ window_items sample_store -> is_Some (EntryStore.get stB' (Item.id x)).
Proof.
  destruct (session_converges _ _ _ _ _ _ _ (fun _ => IoOk) sample_setup)
    as (? & ? & ? & ? & ? & ? & ? & ? & stB' & ? & ? & ? & _ & _ & _ & _ & _ & _ & _ & Hsub & Hall & _).
  exists stB'. split; [exact Hsub|exact Hall].
Defined.

Definition sample_open : Syncer.t :=
  match Syncer.open_session (crypto := toy_crypto) sample_initiator sample_store full_window return Syncer.t with
  | Ok p => p.1.1
  | Err _ | Panic => sample_initiator
  end.

Lemma sample_open_inv : inv sample_open.
Proof.
  pose proof (open_session_sat sample_initiator sample_store full_window sample_store_wf (inv_new _ _)
    ltac:(vm_compute; discriminate)) as Hs.
  unfold sample_open. destruct (Syncer.open_session _ _ _) as [[[s sid] msg]| |]; [apply Hs|apply inv_new|apply inv_new].
Qed.

Lemma session_push_once_witness :
  exists s' out, Syncer.handle_recon_msg sample_open sample_store
      (ReconMsg.mk 0 (PROTOCOL_VERSION :: id_list_message (window_items other_store))) = Ok (s', out) /\
    length (SyncOutput.replies out) = 2%nat /\
    exists se hv, Syncer.sessions sample_open !! Syncer.session_key sample_open 0 = Some se /\ NoDup hv /\
      SyncOutput.replies out = Syncer.push_batches sample_store hv (SyncConfig.push_ttl (Syncer.config sample_open)) ++
        [MReconDone (ReconDone.mk 0)].
Proof.
  set (rm := ReconMsg.mk 0 _).
  pose proof (session_push_once sample_open sample_store rm sample_store_wf sample_open_inv) as H.
  assert (Hok : (match Syncer.handle_recon_msg sample_open sample_store rm with
                 | Ok (s', out) => Some (length (SyncOutput.replies out),
                     bool_decide (is_Some (Syncer.sessions s' !! Syncer.session_key sample_open 0)))
                 | _ => None end) = Some (2%nat, false)) by (vm_compute; reflexivity).
  destruct (Syncer.handle_recon_msg sample_open sample_store rm) as [[s' out]| |]; [|discriminate Hok|discriminate Hok].
  exists s', out. split; [reflexivity|]. injection Hok as Hlen Hclosed. split; [exact Hlen|].
  destruct H as (se & hv & nd & reply & Hk & Hn & _ & _ & Hr & _ & Hs).
  exists se, hv. split; [exact Hk|]. split; [exact Hn|]. rewrite Hr. destruct reply; [|reflexivity].
  exfalso. destruct Hs as (se' & Hs & _). apply bool_decide_eq_false in Hclosed. apply Hclosed.
  exists se'. exact Hs.
Defined.

Lemma handle_push_spec_witness :
  let push := GossipPush.mk [sample_entry 7 1000; sample_entry 9 1500] 0 in
  let '(_, store', out', r) := Syncer.handle_message_into sample_initiator other_store (fun _ => IoOk)
      (MGossipPush push) SyncOutput.default in
  r = Ok tt /\ StoreSpec.wf store' /\ EntryStore.entries other_store ⊆ EntryStore.entries store' /\
  length (SyncOutput.events out') = 2%nat.
Proof.
  intros push.
  pose proof (handle_push_spec sample_initiator other_store (fun _ => IoOk) push SyncOutput.default other_store_wf) as H.
  assert (Hr : (Syncer.handle_message_into sample_initiator other_store (fun _ => IoOk)
      (MGossipPush push) SyncOutput.default).2 = Ok tt) by (vm_compute; reflexivity).
  assert (Hl : length (SyncOutput.events (Syncer.handle_message_into sample_initiator other_store (fun _ => IoOk)
      (MGossipPush push) SyncOutput.default).1.2) = 2%nat) by (vm_compute; reflexivity).
  destruct (Syncer.handle_message_into _ _ _ _ _) as [[[s' store'] out'] r]. cbn [fst snd] in Hr, Hl. subst r.
  destruct H as (_ & H1 & _ & H2 & _).
  - apply List.Forall_cons; [apply sample_entry_wf; vm_compute; discriminate|].
    apply List.Forall_cons; [apply sample_entry_wf; vm_compute; discriminate|apply List.Forall_nil].
  - vm_compute. reflexivity.
  - split; [reflexivity|]. split; [exact H1|]. split; [exact H2|exact Hl].
Defined.
