(* ===== verification/SessionRounds.v ===== *)
(** * Sessions of any length

    Two honest sides running one session of sync/session.rs to its end over
    sets of any size: the initiator's pushes and the rounds of the engine
    interleave until it sends RECON_DONE. What the engines do is any
    [rounds] of [NegGeneral]; here the session tables, the batches and the
    responder's store are followed through every round. *)
From S2P Require Import Prelude Errors Crypto Cbor CborRef Entry Msg Item IdSum Bound.
From S2P Require Import OrderTree OrderIndex OrderRefine OrderSpec Store StoreSpec JournalSpec NegStore Negentropy NegFacts NegExact.
From S2P Require Import NegRanges NegRun NegReply NegGeneral NegCut NegLimit Session SessionSpec.
Open Scope N_scope.
Import Syncer.

(** The ids a list of events asks for. *)
Definition needed (evs : list SyncEvent) : list bytes :=
  concat (map (fun ev => match ev with Reconciled _ _ need => need | _ => [] end) evs).

Lemma needed_app evs evs' : needed (evs ++ evs') = needed evs ++ needed evs'.
Proof. unfold needed. by rewrite map_app, concat_app. Qed.

(** How many ids a list holds. *)
Definition card (l : list bytes) : nat := base.size (list_to_set l : gset bytes).

Lemma card_app hv hn hvn : NoDup hvn -> (forall i, i ∈ hvn <-> i ∈ hn /\ i ∉ hv) -> card (hv ++ hn) = (card hv + length hvn)%nat.
Proof.
  intros Hnd Hspec. unfold card.
  assert ((list_to_set (hv ++ hn) : gset bytes) = list_to_set hv ∪ list_to_set hvn) as ->.
  { apply leibniz_equiv. intros i. rewrite list_to_set_app, !elem_of_union, !elem_of_list_to_set, Hspec.
    destruct (decide (i ∈ hv)); tauto. }
  rewrite size_union, (size_list_to_set hvn) by (try done; intros i; rewrite !elem_of_list_to_set, Hspec; tauto).
  done.
Qed.

Lemma card_own hv items : proper items -> (forall i, i ∈ hv -> i ∈ ids items) -> (card hv <= length items)%nat.
Proof.
  intros Hp Hin. transitivity (card (ids items)); unfold card.
  - apply subseteq_size. intros i. rewrite !elem_of_list_to_set. apply Hin.
  - rewrite size_list_to_set by apply Hp. unfold ids. by rewrite length_map.
Qed.

(** A session's entry in a table, or none. *)
Definition upd (k : bool * N) (o : option Session.t) (m : gmap (bool * N) Session.t) : gmap (bool * N) Session.t :=
  partial_alter (fun _ => o) k m.

Lemma syncer_eta s : mk (role s) (config s) (sessions s) (next_sid s) = s.
Proof. by destruct s. Qed.

Lemma upd_eq k o m : upd k o m !! k = o.
Proof. apply lookup_partial_alter_eq. Qed.

Lemma upd_ne k k' o m : k <> k' -> upd k o m !! k' = m !! k'.
Proof. apply lookup_partial_alter_ne. Qed.

Lemma upd_upd k o o' m : upd k o (upd k o' m) = upd k o m.
Proof.
  apply map_eq. intros k'. destruct (decide (k = k')) as [<-|Hk]; [by rewrite !upd_eq|by rewrite !upd_ne].
Qed.

Lemma upd_comm k k' o o' m : k <> k' -> upd k o (upd k' o' m) = upd k' o' (upd k o m).
Proof.
  intros Hk. apply map_eq. intros j. destruct (decide (k = j)) as [<-|Hj]; [by rewrite upd_eq, upd_ne, upd_eq by done|].
  rewrite upd_ne by done. destruct (decide (k' = j)) as [<-|Hj']; [by rewrite !upd_eq|by rewrite !upd_ne].
Qed.

Lemma upd_same k o m : m !! k = o -> upd k o m = m.
Proof.
  intros Ho. apply map_eq. intros k'. destruct (decide (k = k')) as [<-|Hk]; [by rewrite upd_eq|by rewrite upd_ne].
Qed.

Section Rounds.
Context {cbor : Cbor} {crypto : Crypto}.

(** The initiator handles the messages [toA], the responder what it sends
    in turn, until the responder has nothing to say. *)
Fixpoint exchange (fuel : nat) (sa : t) (stA : EntryStore.t) (sb : t) (stB : EntryStore.t) (io : nat -> io_outcome)
    (toA : list Message) (evs : list SyncEvent) : option (t * t * EntryStore.t * list SyncEvent) :=
  match toA with
  | [] => Some (sa, sb, stB, evs)
  | _ =>
      match fuel with
      | O => None
      | S fuel =>
          let '(sa, stA, outA, rA) := handle_all sa stA io toA SyncOutput.default in
          let '(sb, stB, outB, rB) := handle_all sb stB io (SyncOutput.replies outA) SyncOutput.default in
          match rA, rB with
          | Ok _, Ok _ => exchange fuel sa stA sb stB io (SyncOutput.replies outB) (evs ++ SyncOutput.events outA)
          | _, _ => None
          end
      end
  end.

(** The same ids, without repetition if the other list has none. *)
Definition same_ids (l l' : list bytes) : Prop := (forall i, i ∈ l <-> i ∈ l') /\ (NoDup l' -> NoDup l).

Lemma same_ids_app a a' b b' : same_ids a a' -> same_ids b b' -> same_ids (a ++ b) (a' ++ b').
Proof.
  intros [H1 H2] [K1 K2]. split; [intros i; by rewrite !elem_of_app, H1, K1|].
  rewrite !NoDup_app. intros (Ha & Hd & Hb). split_and!; [auto| |auto].
  intros i Hi Hi'. by apply (Hd i); [apply H1|apply K1].
Qed.

Context (sa sb : t) (stA stB : EntryStore.t) (w : SortKeyWindow.t) (itemsA itemsB : list Item.t).
Context (io : nat -> io_outcome).
Context (Hmeet : meeting sa sb stA stB io w itemsA itemsB).

Let sid := next_sid sa.
Let engA := sealed sa itemsA true.
Let engB := sealed sb itemsB false.

Context (R : nat -> bytes -> list bytes -> list bytes -> Prop) (F : list bytes -> list bytes -> Prop).
Context (Hrounds : rounds engA engB (ids itemsA) R F).

Let HmA : ns_models (SealedVec.new itemsA) itemsA.
Proof. destruct Hmeet as [_ _ (Hwa & Hwb & _) _ _ _ (Ea & Eb) _]. by destruct (sealed_facts _ _ _ Hwa Ea) as (H & _). Qed.
Let HpA : proper itemsA.
Proof. destruct Hmeet as [_ _ (Hwa & Hwb & _) _ _ _ (Ea & Eb) _]. by destruct (sealed_facts _ _ _ Hwa Ea) as (_ & H & _). Qed.

(** The responder's answer to a message. *)
Definition answer (m : bytes) : bytes :=
  match Negentropy.reconcile engB m with Ok r => default [] (Round.reply r) | _ => [] end.
Definition answer_msg (m : bytes) : Message := MReconMsg (ReconMsg.mk sid (answer m)).

(** The trip with the answer spelled out. *)
Lemma trip k m hv nd : R k m hv nd -> exists reply hn nn,
  Negentropy.reconcile engB m = Ok (Round.mk (Some (answer m)) [] []) /\
  Negentropy.reconcile engA (answer m) = Ok (Round.mk reply hn nn) /\ (forall i, i ∈ hn -> i ∈ ids itemsA) /\
  match reply with
  | None => F (hv ++ hn) (nd ++ nn)
  | Some m' => exists k', k = S k' /\ R k' m' (hv ++ hn) (nd ++ nn)
  end.
Proof.
  intros HR. destruct (rd_trip _ _ _ _ _ Hrounds _ _ _ _ HR) as (m2 & reply & hn & nn & E2 & E1 & Hrest).
  exists reply, hn, nn. unfold answer. rewrite E2. by cbn [Round.reply default].
Qed.

(** The initiator's and the responder's side of the session. *)
Definition open_a (hv : list bytes) (s : t) : Prop :=
  inv s /\ exists pushed, (forall i, i ∈ pushed <-> i ∈ hv) /\
    s = set_sessions (spent sa) (<[(true, sid) := Session.mk engA pushed]> (sessions sa)).
Definition open_b (s : t) : Prop :=
  inv s /\ s = set_sessions sb (<[(false, sid) := Session.mk engB ∅]> (sessions sb)).

(** What the initiator sends in a turn. *)
Definition next_message (reply : option bytes) : Message :=
  match reply with None => MReconDone (ReconDone.mk sid) | Some m' => MReconMsg (ReconMsg.mk sid m') end.
Definition says (hvn : list bytes) (reply : option bytes) : list Message :=
  push_batches stA hvn (SyncConfig.push_ttl (config sa)) ++ [next_message reply].

(** The responder's store once the ids [hv] were pushed. *)
Definition grown_by (hv : list bytes) (st : EntryStore.t) : Prop :=
  StoreSpec.wf st /\
  storing io (widest stA itemsA) (length itemsA - card hv) st /\
  EntryStore.entries stB ⊆ EntryStore.entries st /\
  (forall i, i ∈ hv -> i ∈ ids itemsA /\ is_Some (EntryStore.get st i)) /\
  (forall i e, EntryStore.get st i = Some e -> EntryStore.get stB i = Some e \/ EntryStore.get stA i = Some e) /\
  (base.size (EntryStore.entries st) <= base.size (EntryStore.entries stB) + card hv)%nat.

(** The session with the initiator's message [m] answered and the answer on
    its way. *)
Record going (k : nat) (m : bytes) (hv nd : list bytes) (saa sbb : t) (st : EntryStore.t) : Prop := {
  go_round : R k m hv nd;
  go_a : open_a hv saa;
  go_b : open_b sbb;
  go_st : grown_by hv st }.

Lemma keyA s : role s = role sa -> session_key s sid = (true, sid).
Proof.
  intros Hr. unfold session_key, our_parity. rewrite Hr. f_equal. apply N.eqb_eq, Hmeet.
Qed.

Lemma keyB s : role s = role sb -> session_key s sid = (false, sid).
Proof.
  intros Hr. unfold session_key, our_parity. rewrite Hr. fold (our_parity sb).
  rewrite (set_roles _ _ _ _ _ _ _ _ Hmeet). unfold sid. destruct (set_inv _ _ _ _ _ _ _ _ Hmeet) as [Ha _].
  rewrite (inv_next sa Ha). by destruct (parity_cases sa) as [[-> ->]|[-> ->]].
Qed.

(** ** One round on each side *)

(** The initiator reads the responder's answer in a session among others: the
    ids [hvn] not pushed before are pushed. *)
Lemma a_reads m2 reply hn nn hv pushed s st : inv s -> StoreSpec.wf st -> role s = role sa ->
  sessions s !! (true, sid) = Some (Session.mk engA pushed) -> (forall i, i ∈ pushed <-> i ∈ hv) ->
  Negentropy.reconcile engA m2 = Ok (Round.mk reply hn nn) ->
  exists out hvn o,
    handle_recon_msg s st (ReconMsg.mk sid m2) = Ok (set_sessions s (upd (true, sid) o (sessions s)), out) /\
    inv (set_sessions s (upd (true, sid) o (sessions s))) /\
    (NoDup hvn /\ forall i, i ∈ hvn <-> i ∈ hn /\ i ∉ hv) /\ same_ids (needed (SyncOutput.events out)) nn /\
    SyncOutput.replies out = push_batches st hvn (SyncConfig.push_ttl (config s)) ++ [next_message reply] /\
    match reply with None => o = None
    | Some _ => exists pushed', (forall i, i ∈ pushed' <-> i ∈ hv ++ hn) /\ o = Some (Session.mk engA pushed') end.
Proof.
  intros Hinv Hwf Hrole Hlook Hpush E1. set (rm := ReconMsg.mk sid m2). rewrite <- (keyA s Hrole) in Hlook.
  destruct (handle_recon_msg_ok s st rm _ _ Hlook E1) as (s' & out & E).
  pose proof (handle_recon_msg_sat s st rm Hwf Hinv) as Hsat. rewrite E in Hsat.
  destruct Hsat as (Hinv' & _ & se & hvn & ndn & reply' & Hk & [(round & Hr & Hrep & Hhv & Hnd) [N1 N2] _ _ _ Hse Hrepl Hev]).
  cbn [rm ReconMsg.sid ReconMsg.msg] in *. rewrite Hlook in Hk. injection Hk as <-. cbn [Session.engine Session.pushed] in *.
  rewrite E1 in Hr. injection Hr as <-. cbn [Round.reply Round.have Round.need] in *. subst reply'.
  rewrite (keyA s Hrole) in *.
  pose proof (handle_recon_msg_keeps _ _ _ _ _ E) as Hkeep. rewrite E.
  assert (Hhvn : forall i, i ∈ hvn <-> i ∈ hn /\ i ∉ hv) by (intros i; by rewrite Hhv, Hpush).
  assert (Hneed : same_ids (needed (SyncOutput.events out)) nn).
  { rewrite Hev, needed_app. assert (needed (if decide (hvn = [] /\ ndn = []) then [] else [Reconciled sid hvn ndn]) = ndn) as ->.
    { destruct (decide _) as [[_ ->]|]; [done|]. unfold needed. cbn. apply app_nil_r. }
    replace (needed _) with (@nil bytes) by by destruct reply.
    rewrite app_nil_r. by split. }
  destruct reply as [m'|]; [destruct Hse as (pushed' & Hp' & Hse)|]; rewrite Hse in Hkeep; clear Hse; subst s'.
  - exists out, hvn, (Some (Session.mk engA pushed')). split_and!; try done. exists pushed'. split; [|done].
    intros i. rewrite Hp', Hpush, elem_of_app, Hhvn. destruct (decide (i ∈ hv)); tauto.
  - exists out, hvn, None. by split_and!.
Qed.

Lemma a_turn m2 reply hn nn hv saa : open_a hv saa ->
  Negentropy.reconcile engA m2 = Ok (Round.mk reply hn nn) ->
  exists saa' out hvn,
    handle_recon_msg saa stA (ReconMsg.mk sid m2) = Ok (saa', out) /\
    (NoDup hvn /\ forall i, i ∈ hvn <-> i ∈ hn /\ i ∉ hv) /\ same_ids (needed (SyncOutput.events out)) nn /\
    SyncOutput.replies out = says hvn reply /\
    match reply with None => saa' = spent sa | Some _ => open_a (hv ++ hn) saa' end.
Proof.
  intros (Hinv & pushed & Hpush & Hs) E1.
  assert (HwA : StoreSpec.wf stA) by apply (set_stores _ _ _ _ _ _ _ _ Hmeet).
  destruct (a_reads m2 reply hn nn hv pushed saa stA Hinv HwA) as (out & hvn & o & E & Hinv' & Hspec & Hneed & Hrepl & Ho);
    [by rewrite Hs|rewrite Hs; apply lookup_insert_eq|done|done|].
  rewrite Hs in Hrepl. do 3 eexists. split; [exact E|]. split; [exact Hspec|]. split; [done|]. split; [done|].
  destruct reply as [m'|].
  - destruct Ho as (pushed' & Hp & ->). split; [done|]. exists pushed'. split; [done|].
    rewrite Hs. unfold set_sessions. cbn. f_equal. exact (upd_upd (true, sid) _ (Some _) _).
  - subst o. rewrite Hs. unfold set_sessions, spent. cbn. f_equal. etransitivity; [exact (upd_upd (true, sid) _ (Some _) _)|].
    apply upd_same, inv_fresh, Hmeet.
Qed.

(** The responder stores the pushes. *)
Lemma b_pushes hv hn sbb st hvn ttl : grown_by hv st -> (forall i, i ∈ hn -> i ∈ ids itemsA) ->
  NoDup hvn -> (forall i, i ∈ hvn <-> i ∈ hn /\ i ∉ hv) ->
  exists st' out', handle_all sbb st io (push_batches stA hvn ttl) SyncOutput.default = (sbb, st', out', Ok tt) /\
    SyncOutput.replies out' = [] /\ grown_by (hv ++ hn) st' /\
    card (hv ++ hn) = (card hv + length hvn)%nat.
Proof.
  intros (Hwf & Hj & Hsub & Hget & Hdrawn & Hsz) Hhn Hnd Hspec.
  destruct Hmeet as [_ _ (HwA & _) _ _ _ (EA & _) Hsize].
  destruct (sealed_facts _ _ _ HwA EA) as (_ & _ & _ & _ & Hheld).
  assert (Hsplit : card (hv ++ hn) = (card hv + length hvn)%nat) by by apply card_app.
  assert (Hlen : (card (hv ++ hn) <= length itemsA)%nat).
  { apply card_own; [done|]. intros i. rewrite elem_of_app. intros [Hi|Hi]; [by apply Hget|auto]. }
  destruct (push_batches_ok stA hvn ttl) as [Hbat Hcat].
  pose proof (length_omap_le (EntryStore.get stA) hvn) as Hom.
  destruct (handle_pushes (widest stA itemsA) (length itemsA - card (hv ++ hn)) sbb st io
    (push_batches stA hvn ttl) ttl SyncOutput.default Hwf)
    as (st' & out' & E & H1 & H2 & H3 & H4 & H5 & H6 & H7).
  { eapply storing_le; [exact Hj|]. rewrite Hcat. lia. }
  { done. }
  { rewrite Hcat. apply omap_fitting; [done|]. intros i Hi. by apply Hhn, Hspec. }
  { rewrite Hcat. unfold size_ok in *. lia. }
  rewrite Hcat in H4, H5, H7. exists st', out'. split; [done|]. split; [done|]. split; [|done].
  split_and!; [done|done|by etrans| | |lia].
  2:{ intros i e He. destruct (H7 i e He) as [Hold|(j & _ & Hje)%list_elem_of_omap]; [by apply Hdrawn|right].
      destruct (wf_entries st' H1 i e He) as [<- _]. by destruct (wf_entries stA HwA j e Hje) as [<- _]. }
  intros i Hin. assert (Hown : i ∈ ids itemsA) by (apply elem_of_app in Hin as [Hi|Hi]; [by apply Hget|auto]).
  split; [done|]. destruct (decide (i ∈ hv)) as [Hi|Hi].
  - destruct (Hget i Hi) as [_ [e He]]. exists e. by eapply lookup_weaken.
  - apply list_elem_of_fmap in Hown as (x & -> & Hx). destruct (Hheld x Hx) as [e He].
    rewrite Forall_forall in H4. destruct (wf_entries stA HwA _ e He) as [<- _].
    apply H4, list_elem_of_omap. exists (Entry.id e). destruct (wf_entries stA HwA _ e He) as [-> _].
    split; [|done]. apply Hspec. split; [|done]. apply elem_of_app in Hin as [|]; tauto.
Qed.

(** The responder answers a message of the initiator; its tables stay as they
    are. *)
Lemma b_answers k m hv nd s st : R k m hv nd -> StoreSpec.wf st -> inv s -> role s = role sb ->
  sessions s !! (false, sid) = Some (Session.mk engB ∅) ->
  handle_recon_msg s st (ReconMsg.mk sid m) = Ok (s, SyncOutput.mk [answer_msg m] []).
Proof.
  intros HR Hwf Hinv Hrole Hlook. destruct (trip _ _ _ _ HR) as (_ & _ & _ & E2 & _).
  set (rm := ReconMsg.mk sid m). pose proof Hlook as Hid. rewrite <- (keyB s Hrole) in Hlook.
  destruct (handle_recon_msg_ok s st rm _ _ Hlook E2) as (s' & out & E).
  pose proof (handle_recon_msg_sat s st rm Hwf Hinv) as Hsat. rewrite E in Hsat.
  destruct Hsat as (Hinv' & _ & se & hvn & ndn & reply & Hk & [(round & Hr & Hrep & _) _ _ Hours _ Hse Hrepl Hev]).
  cbn [rm ReconMsg.sid ReconMsg.msg] in *. rewrite Hlook in Hk. injection Hk as <-. cbn [Session.engine Session.pushed] in *.
  rewrite E2 in Hr. injection Hr as <-. cbn [Round.reply] in Hrep. subst reply. rewrite (keyB s Hrole) in *.
  destruct (Hours eq_refl) as [-> ->]. pose proof (handle_recon_msg_keeps _ _ _ _ _ E) as Hkeep.
  destruct Hse as (pushed & Hp & Hse).
  assert (pushed = ∅) as -> by (apply leibniz_equiv; intros i; rewrite Hp; set_solver).
  rewrite insert_id in Hse by done.
  assert (s' = s) as -> by (rewrite Hkeep, Hse; by destruct s).
  rewrite E. do 2 f_equal. destruct out as [replies events]. cbn [SyncOutput.replies SyncOutput.events] in *.
  by rewrite Hrepl, Hev, decide_True.
Qed.

(** The responder closes its side. *)
Lemma b_closes s : role s = role sb -> is_Some (sessions s !! (false, sid)) ->
  handle_done s (ReconDone.mk sid) =
    Ok (set_sessions s (upd (false, sid) None (sessions s)), SyncOutput.mk [] [SessionClosed sid false]).
Proof.
  intros Hrole [se Hse]. unfold handle_done. cbn [ReconDone.sid]. by rewrite (keyB s Hrole), Hse.
Qed.

(** ** The whole session *)

(** One step of [exchange]: the session is over on both sides, or goes
    on. *)
Lemma exchange_step k m hv nd saa sbb st : going k m hv nd saa sbb st ->
  exists saa' sbb' st' outA outB hn nn hvn reply,
    handle_all saa stA io [answer_msg m] SyncOutput.default = (saa', stA, outA, Ok tt) /\
    handle_all sbb st io (SyncOutput.replies outA) SyncOutput.default = (sbb', st', outB, Ok tt) /\
    same_ids (needed (SyncOutput.events outA)) nn /\ SyncOutput.replies outA = says hvn reply /\
    NoDup hvn /\ (forall i, i ∈ hvn -> i ∈ ids itemsA) /\ Negentropy.reconcile engA (answer m) = Ok (Round.mk reply hn nn) /\
    card (hv ++ hn) = (card hv + length hvn)%nat /\
    ((SyncOutput.replies outB = [] /\ saa' = spent sa /\ sbb' = sb /\
        grown_by (hv ++ hn) st' /\ F (hv ++ hn) (nd ++ nn)) \/
     exists m' k', k = S k' /\ SyncOutput.replies outB = [answer_msg m'] /\
        going k' m' (hv ++ hn) (nd ++ nn) saa' sbb' st').
Proof.
  intros [HR Ha Hb Hst]. destruct (trip _ _ _ _ HR) as (reply & hn & nn & _ & E1 & Hhn & Hnext).
  destruct (a_turn _ _ _ _ _ _ Ha E1) as (saa' & out & hvn & E & [Hnd Hspec] & Hneed & Hrep & Hsess).
  destruct (b_pushes hv hn sbb st hvn (SyncConfig.push_ttl (config sa)) Hst Hhn Hnd Hspec)
    as (st' & out' & Epush & Hr0 & Hst' & Hcard).
  assert (Hlast : exists sbb' outB, handle_all sbb st' io [next_message reply] out' = (sbb', st', outB, Ok tt) /\
      match reply with
      | None => SyncOutput.replies outB = [] /\ sbb' = sb
      | Some m' => SyncOutput.replies outB = [answer_msg m'] /\ open_b sbb'
      end).
  { destruct Hb as [Hinv ->]. destruct reply as [m'|]; cbn [next_message handle_all handle_message_into].
    - destruct Hnext as (k' & _ & HR'). rewrite (b_answers _ _ _ _ _ st' HR' (proj1 Hst') Hinv eq_refl (lookup_insert_eq _ _ _)).
      do 2 eexists. split; [done|]. cbn. rewrite Hr0. split; [done|]. by split.
    - rewrite b_closes by (try done; eexists; apply lookup_insert_eq).
      do 2 eexists. split; [done|]. cbn. rewrite Hr0. split; [done|]. unfold set_sessions. cbn.
      etransitivity; [|apply syncer_eta]. f_equal. etransitivity; [exact (upd_upd (false, sid) _ (Some _) _)|]. apply upd_same, (set_sid _ _ _ _ _ _ _ _ Hmeet). }
  destruct Hlast as (sbb' & outB & Elast & Hdone). do 5 eexists. exists hn, nn, hvn, reply. split.
  { unfold answer_msg. cbn [handle_all handle_message_into]. by rewrite E. }
  cbn [SyncOutput.extend SyncOutput.replies SyncOutput.events SyncOutput.default app]. split.
  { rewrite Hrep. unfold says. rewrite (handle_all_app _ _ _ _ _ _ _ _ _ Epush). exact Elast. }
  split; [done|]. split; [done|]. split; [done|]. split; [intros i Hi; by apply Hhn, Hspec|]. split; [done|].
  split; [done|]. destruct reply as [m'|].
  - right. destruct Hnext as (k' & -> & HR'), Hdone as [Hr Hb']. exists m', k'. split; [done|]. split; [done|]. by split.
  - left. destruct Hdone. by split_and!.
Qed.

Lemma exchange_going k m hv nd saa sbb st evs : going k m hv nd saa sbb st ->
  exists saa' sbb' st' evs' hv' nn,
    exchange (S k) saa stA sbb st io [answer_msg m] evs = Some (saa', sbb', st', evs ++ evs') /\
    saa' = spent sa /\ sbb' = sb /\
    grown_by hv' st' /\ F hv' (nd ++ nn) /\ same_ids (needed evs') nn.
Proof.
  revert m hv nd saa sbb st evs. induction k as [|k IH]; intros m hv nd saa sbb st evs Hgo;
    destruct (exchange_step _ _ _ _ _ _ _ Hgo) as (saa' & sbb' & st' & outA & outB & hn & nn & hvn & reply & EA & EB & Hneed & _ & _ & _ & _ & _ & Hnext);
    destruct Hnext as [(Hr & H1 & H2 & H3 & H4)|(m' & k' & Ek & Hr & Hgo')];
    try done; cbn [exchange]; rewrite EA, EB, Hr.
  - exists saa', sbb', st', (SyncOutput.events outA), (hv ++ hn), nn. by split_and!.
  - exists saa', sbb', st', (SyncOutput.events outA), (hv ++ hn), nn. by split_and!.
  - injection Ek as <-. destruct (IH _ _ _ _ _ _ (evs ++ SyncOutput.events outA) Hgo')
      as (s1 & s2 & st2 & evs' & hv' & nn' & E & H1 & H2 & H3 & H4 & H5).
    exists s1, s2, st2, (SyncOutput.events outA ++ evs'), hv', (nn ++ nn'). rewrite app_assoc. split; [exact E|].
    split_and!; try done; [by rewrite app_assoc|]. rewrite needed_app. by apply same_ids_app.
Qed.

Definition opening_message : bytes := PROTOCOL_VERSION :: enc 0 (split itemsA start Bound.infinity).
Definition opening_init : Message := MReconInit (ReconInit.mk sid w opening_message).

Lemma opening_message_length : lenN opening_message <= 1041.
Proof.
  destruct (initiate_ok (Negentropy.mk (SealedVec.new itemsA) None false) itemsA HmA eq_refl) as (out & E & H).
  rewrite (initiate_enc _ _ _ HmA HpA) in E. by injection E as <-.
Qed.

(** The responder takes the opening, whatever its other sessions. *)
Lemma b_opens k s : R k opening_message [] [] -> inv s -> role s = role sb -> config s = config sb ->
  sessions s !! (false, sid) = None -> open_sessions s < SyncConfig.max_sessions (config s) ->
  handle_init s stB (ReconInit.mk sid w opening_message) =
    Ok (set_sessions s (upd (false, sid) (Some (Session.mk engB ∅)) (sessions s)),
        SyncOutput.mk [answer_msg opening_message] []).
Proof.
  intros HR Hinv Hrole Hcfg Hnone Hcap. destruct (trip _ _ _ _ HR) as (_ & _ & _ & E2 & _).
  destruct Hmeet as [[HiA _] Hroles (HwA & HwB & _) (_ & HgB) _ _ (_ & EB) _].
  unfold handle_init. cbn [ReconInit.sid ReconInit.window ReconInit.msg].
  assert (Hpar : sid mod 2 = peer_parity s).
  { unfold sid. rewrite (inv_next sa HiA). unfold peer_parity, our_parity in *. rewrite Hrole. rewrite Hroles.
    destruct (role sa); reflexivity. }
  rewrite Hpar, N.eqb_refl. cbn [negb]. rewrite decide_False by (rewrite Hnone; by intros [? ?]).
  rewrite (proj2 (N.leb_gt _ _)) by done. rewrite Hcfg in *.
  rewrite (sealed_engine_ok s stB w itemsB HwB ltac:(by rewrite Hcfg) EB). cbn [mbind result_bind].
  assert (sealed s itemsB false = engB) as -> by (unfold engB, sealed; by rewrite Hcfg). by rewrite E2.
Qed.

(** The opening messages. *)
Lemma open_going k : R k opening_message [] [] ->
  exists saa sbb, open_session sa stA w = Ok (saa, sid, opening_init) /\
    handle_message_into sb stB io opening_init SyncOutput.default =
      (sbb, stB, SyncOutput.mk [answer_msg opening_message] [], Ok tt) /\
    going k opening_message [] [] saa sbb stB.
Proof.
  intros HR.
  destruct Hmeet as [[HiA HiB] Hroles (HwA & HwB & HjB) (HgA & HgB) (HcA & HcB) (Hsid & Hnone) (EA & EB) _].
  set (init := ReconInit.mk sid w opening_message).
  assert (Eopen : open_session sa stA w = Ok (mk (role sa) (config sa)
            (<[(true, sid) := Session.mk engA ∅]> (sessions sa)) (sid + 2), sid, MReconInit init)).
  { unfold open_session. rewrite (proj2 (N.leb_gt _ _)) by done.
    rewrite (sealed_engine_ok _ _ _ _ HwA HgA EA). cbn [mbind result_bind]. unfold sealed.
    rewrite (initiate_enc _ _ _ HmA HpA). cbn [mbind result_bind]. by rewrite (proj2 (N.ltb_ge _ _)). }
  assert (Einit : handle_init sb stB init = Ok (set_sessions sb
            (<[(false, sid) := Session.mk engB ∅]> (sessions sb)), SyncOutput.mk [answer_msg opening_message] [])).
  { apply (b_opens k); done. }
  pose proof (open_session_sat sa stA w HwA HiA Hsid) as Hopen. rewrite Eopen in Hopen.
  pose proof (handle_init_sat sb stB init HwB HiB) as Hinit. rewrite Einit in Hinit. cbn [sat] in *.
  do 2 eexists. split; [exact Eopen|]. split.
  { unfold opening_init. cbn [handle_message_into]. fold init. by rewrite Einit. }
  split; [done| | |].
  - split; [apply Hopen|]. exists ∅. split; [set_solver|done].
  - split; [apply Hinit|done].
  - split_and!; try done; [eapply storing_le; [exact HjB|lia]| |by left|lia]. intros i Hi0. by apply not_elem_of_nil in Hi0.
Qed.

(** The session given up by its opener with the answer on its way. *)
Lemma going_abort k m hv nd saa sbb st : going k m hv nd saa sbb st ->
  abort_session saa sid = (spent sa, Some (MReconDone (ReconDone.mk sid))) /\
  handle_done sbb (ReconDone.mk sid) = Ok (sb, SyncOutput.mk [] [SessionClosed sid false]) /\
  handle_message_into (spent sa) stA io (answer_msg m) SyncOutput.default =
    (spent sa, stA, SyncOutput.default, Err (SyncError.Violation "no open session with this id")).
Proof.
  intros [_ (_ & pushed & _ & Ea) (_ & Eb) _]. pose proof (inv_fresh sa (proj1 (set_inv _ _ _ _ _ _ _ _ Hmeet))) as Hfresh.
  fold sid in Hfresh.
  split; [|split].
  - unfold abort_session. rewrite Ea. cbn [sessions set_sessions spent]. rewrite lookup_insert_eq.
    unfold set_sessions, spent. cbn. by rewrite delete_insert_id.
  - rewrite b_closes by (rewrite Eb; try done; eexists; apply lookup_insert_eq). rewrite Eb. do 2 f_equal.
    unfold set_sessions. cbn. etransitivity; [|apply syncer_eta]. f_equal.
    etransitivity; [exact (upd_upd (false, sid) _ (Some _) _)|]. apply upd_same, (set_sid _ _ _ _ _ _ _ _ Hmeet).
  - unfold answer_msg. cbn [handle_message_into]. unfold handle_recon_msg. cbn [ReconMsg.sid].
    rewrite (keyA (spent sa) eq_refl). cbn [sessions spent]. by rewrite Hfresh.
Qed.

(** From the opening to the end. *)
Lemma session_rounds_run k : R k opening_message [] [] ->
  exists sa1 sb1 init ans sa' sb' stB' evs hv nd,
    open_session sa stA w = Ok (sa1, sid, init) /\
    handle_message_into sb stB io init SyncOutput.default = (sb1, stB, SyncOutput.mk [ans] [], Ok tt) /\
    exchange (S k) sa1 stA sb1 stB io [ans] [] = Some (sa', sb', stB', evs) /\
    sessions sa' = sessions sa /\ sessions sb' = sessions sb /\
    StoreSpec.wf stB' /\ EntryStore.entries stB ⊆ EntryStore.entries stB' /\
    F hv nd /\ same_ids (needed evs) nd /\
    ((forall i, i ∈ ids itemsA -> i ∉ ids itemsB -> i ∈ hv) ->
     forall x, x ∈ itemsA -> is_Some (EntryStore.get stB' (Item.id x))).
Proof.
  intros HR. destruct (open_going k HR) as (saa & sbb & Eo & Ei & Hgo).
  destruct (exchange_going _ _ _ _ _ _ _ [] Hgo) as (sa' & sb' & stB' & evs & hv & nd & E & H1 & H2 & H3 & H4 & H5).
  exists saa, sbb. do 2 eexists. exists sa', sb', stB', evs, hv, nd. split; [exact Eo|]. split; [exact Ei|]. split; [exact E|].
  destruct H3 as (Hwf & _ & Hsub & Hget & _ & _). subst sa' sb'. split_and!; try done. intros Hall x Hx.
  destruct (decide (Item.id x ∈ ids itemsB)) as [Hin|Hout].
  - destruct Hmeet as [_ _ (_ & HwB & _) _ _ _ (_ & EB) _].
    destruct (sealed_facts _ _ _ HwB EB) as (_ & _ & _ & _ & Hheld).
    apply list_elem_of_fmap in Hin as (y & Hid & Hy). destruct (Hheld y Hy) as [e He].
    exists e. rewrite Hid. by eapply lookup_weaken.
  - apply Hget, Hall; [|done]. apply list_elem_of_fmap. eauto.
Qed.

End Rounds.

(** The engines of a meeting. *)
Lemma meeting_engines {cbor : Cbor} {crypto : Crypto} sa sb stA stB io w itemsA itemsB :
  meeting sa sb stA stB io w itemsA itemsB ->
  ns_models (SealedVec.new itemsA) itemsA /\ ns_models (SealedVec.new itemsB) itemsB /\
  proper itemsA /\ proper itemsB /\ wf_engine (sealed sa itemsA true) /\ wf_engine (sealed sb itemsB false).
Proof.
  intros Hmeet. destruct (set_config _ _ _ _ _ _ _ _ Hmeet). destruct Hmeet as [_ _ (Hwa & Hwb & _) _ _ _ (Ea & Eb) _].
  destruct (sealed_facts _ _ _ Hwa Ea) as (? & ? & _), (sealed_facts _ _ _ Hwb Eb) as (? & ? & _). by split_and!.
Qed.

(** The exchange of the engines under any frame limits, cut short where they
    bite. *)
Lemma meeting_rounds {cbor : Cbor} {crypto : Crypto} sa sb stA stB io w itemsA itemsB :
  meeting sa sb stA stB io w itemsA itemsB -> consistent itemsA itemsB ->
  rounds (sealed sa itemsA true) (sealed sb itemsB false) (ids itemsA) (sent_cut itemsA itemsB) (live itemsA itemsB []) /\
  forall k, trips itemsA itemsB <= N.of_nat k -> sent_cut itemsA itemsB k (opening_message itemsA) [] [].
Proof.
  intros Hmeet Hcon. destruct (meeting_engines _ _ _ _ _ _ _ _ Hmeet) as (HmA & HmB & HpA & HpB & HeA & HeB).
  split; [exact (live_rounds _ _ _ _ _ _ HmA HmB HpA HpB Hcon HeA HeB)|]. intros k Hk.
  destruct (live_open _ _ _ _ HmA HmB HpA HpB) as [Hl Hf].
  destruct (front start (split itemsA start Bound.infinity)) as [x|] eqn:Hx; [|done].
  pose proof (measure_trips itemsA itemsB x). do 2 eexists. split_and!; [done|exact Hl|exact Hx|lia].
Qed.

(** ** Properties *)

(** C5: a session converges where no answer is cut short. Both sides honest and
    the frame limit each is configured with either none or [roomy]: at least
    300 bytes and 81 per item of the two windows (so at most 46 items together
    at the default of 4096 bytes; for larger windows under a limit see
    [session_limited] and [session_duplex]). Then, from the initiator's
    RECON_INIT on, after at most k + 1 answers of the
    responder (31 * 16^k bounds the initiator's set) both session tables are
    as they were before, and the responder's store is well-formed and has
    lost nothing. The initiator asks for ids only the responder holds, each
    once. Unless two different parts of the windows have one fingerprint,
    the responder then holds every entry of the initiator's window and the
    initiator has asked for everything it lacks. *)
Theorem session_reconciles {cbor : Cbor} {crypto : Crypto} sa sb stA stB w itemsA itemsB io k :
  meeting sa sb stA stB io w itemsA itemsB -> consistent itemsA itemsB ->
  roomy (SyncConfig.frame_limit (config sa)) (lenN itemsA + lenN itemsB) ->
  roomy (SyncConfig.frame_limit (config sb)) (lenN itemsA + lenN itemsB) ->
  lenN itemsA <= 31 * 16 ^ N.of_nat k ->
  exists sa1 sb1 init answer sa' sb' stB' evs,
    open_session sa stA w = Ok (sa1, next_sid sa, init) /\
    handle_message_into sb stB io init SyncOutput.default = (sb1, stB, SyncOutput.mk [answer] [], Ok tt) /\
    exchange (S k) sa1 stA sb1 stB io [answer] [] = Some (sa', sb', stB', evs) /\
    sessions sa' = sessions sa /\ sessions sb' = sessions sb /\
    StoreSpec.wf stB' /\ EntryStore.entries stB ⊆ EntryStore.entries stB' /\
    NoDup (needed evs) /\ (forall i, i ∈ needed evs -> i ∈ ids itemsB /\ i ∉ ids itemsA) /\
    (collision itemsA itemsB \/
       (forall x, x ∈ itemsA -> is_Some (EntryStore.get stB' (Item.id x))) /\
       (forall i, i ∈ ids itemsB -> i ∉ ids itemsA -> i ∈ needed evs)).
Proof.
  intros Hmeet Hcon HA HB Hk. destruct (meeting_engines _ _ _ _ _ _ _ _ Hmeet) as (HmA & HmB & HpA & HpB & HeA & HeB).
  destruct (session_rounds_run sa sb stA stB w itemsA itemsB io Hmeet _ _
    (inv_rounds _ _ _ _ _ _ HmA HmB HpA HpB Hcon HeA HeB HA HB) k)
    as (sa1 & sb1 & init & ans & sa' & sb' & stB' & evs & hv & nd & Eo & Ei & E & H1 & H2 & H3 & H4 & (j & Hi) & [Hs Hn] & Hall).
  { eexists. split; [done|]. by apply (inv_open _ _ _ _ HmA HmB HpA HpB). }
  destruct (closed_final _ _ Hcon _ _ _ Hi) as (_ & N2 & _ & Hs2 & Hcomp).
  exists sa1, sb1, init, ans, sa', sb', stB', evs. split_and!; try done; [by apply Hn|intros i Hin; by apply Hs2, Hs|].
  destruct Hcomp as [|[C1 C2]]; [by left|right]. split; [by apply Hall|]. intros i Hi2 Ho. by apply Hs, C2.
Qed.

(** A session ends under any frame limits the engines accept, the default
    of 4096 bytes among them, whatever the sizes of the two windows: after at
    most [trips] answers of the responder both session tables are as they
    were before, and the responder's store is well-formed and has lost
    nothing. What the initiator asks for are ids only the responder holds.
    Unless a fingerprint stands for something else than the range it is
    compared with ([confused]), the responder then holds every entry of the
    initiator's window and the initiator has asked for everything it
    lacks. *)
Theorem session_limited {cbor : Cbor} {crypto : Crypto} sa sb stA stB w itemsA itemsB io k :
  meeting sa sb stA stB io w itemsA itemsB -> consistent itemsA itemsB -> trips itemsA itemsB <= N.of_nat k ->
  exists sa1 sb1 init answer sa' sb' stB' evs,
    open_session sa stA w = Ok (sa1, next_sid sa, init) /\
    handle_message_into sb stB io init SyncOutput.default = (sb1, stB, SyncOutput.mk [answer] [], Ok tt) /\
    exchange (S k) sa1 stA sb1 stB io [answer] [] = Some (sa', sb', stB', evs) /\
    sessions sa' = sessions sa /\ sessions sb' = sessions sb /\
    StoreSpec.wf stB' /\ EntryStore.entries stB ⊆ EntryStore.entries stB' /\
    (forall i, i ∈ needed evs -> i ∈ ids itemsB /\ i ∉ ids itemsA) /\
    (confused itemsA itemsB \/
       (forall x, x ∈ itemsA -> is_Some (EntryStore.get stB' (Item.id x))) /\
       (forall i, i ∈ ids itemsB -> i ∉ ids itemsA -> i ∈ needed evs)).
Proof.
  intros Hmeet Hcon Hk. destruct (meeting_rounds _ _ _ _ _ _ _ _ Hmeet Hcon) as [Hr Hop].
  destruct (session_rounds_run sa sb stA stB w itemsA itemsB io Hmeet _ _ Hr k (Hop k Hk))
    as (sa1 & sb1 & init & ans & sa' & sb' & stB' & evs & hv & nd & Eo & Ei & E & H1 & H2 & H3 & H4 & Hl & [Hs _] & Hall).
  destruct (live_final _ _ Hcon _ _ Hl) as (_ & Hs2 & Hcomp).
  exists sa1, sb1, init, ans, sa', sb', stB', evs. split_and!; try done; [intros i Hin; by apply Hs2, Hs|].
  destruct Hcomp as [|[C1 C2]]; [by left|right]. split; [by apply Hall|]. intros i Hi2 Ho. by apply Hs, C2.
Qed.

(** C20: giving a session up is not safe while the peer's answer is in flight.
    The protocol lets an opener end its session early with RECON_DONE, and
    [abort_session] forgets the session at once. The peer takes that
    RECON_DONE well, but the answer it had already sent then reaches an
    opener that has no such session: between two honest sides it is a
    protocol violation, for which the link is closed. *)
Theorem abort_in_flight {cbor : Cbor} {crypto : Crypto} sa sb stA stB w itemsA itemsB io :
  meeting sa sb stA stB io w itemsA itemsB -> consistent itemsA itemsB ->
  exists sa1 sb1 init answer,
    open_session sa stA w = Ok (sa1, next_sid sa, init) /\
    handle_message_into sb stB io init SyncOutput.default = (sb1, stB, SyncOutput.mk [answer] [], Ok tt) /\
    abort_session sa1 (next_sid sa) = (spent sa, Some (MReconDone (ReconDone.mk (next_sid sa)))) /\
    handle_message_into sb1 stB io (MReconDone (ReconDone.mk (next_sid sa))) SyncOutput.default =
      (sb, stB, SyncOutput.mk [] [SessionClosed (next_sid sa) false], Ok tt) /\
    handle_message_into (spent sa) stA io answer SyncOutput.default =
      (spent sa, stA, SyncOutput.default, Err (SyncError.Violation "no open session with this id")).
Proof.
  intros Hmeet Hcon. destruct (meeting_rounds _ _ _ _ _ _ _ _ Hmeet Hcon) as [Hr Hop].
  specialize (Hop (N.to_nat (trips itemsA itemsB)) ltac:(lia)).
  destruct (open_going sa sb stA stB w itemsA itemsB io Hmeet _ _ Hr _ Hop) as (saa & sbb & Eo & Ei & Hgo).
  destruct (going_abort sa sb stA stB w itemsA itemsB io Hmeet _ _ _ _ _ _ _ _ Hgo) as (E1 & E2 & E3).
  do 4 eexists. split; [exact Eo|]. split; [exact Ei|]. split; [exact E1|]. split; [|exact E3].
  cbn [handle_message_into]. by rewrite E2.
Qed.

Lemma abort_in_flight_witness :
  exists answer, handle_message_into (crypto := toy_crypto) (spent sample_initiator) sample_store (fun _ => IoOk) answer SyncOutput.default =
    (spent sample_initiator, sample_store, SyncOutput.default, Err (SyncError.Violation "no open session with this id")).
Proof.
  destruct (abort_in_flight _ _ _ _ _ _ _ (fun _ => IoOk) (set_meeting _ _ _ _ _ _ _ _ sample_setup))
    as (sa1 & sb1 & init & answer & _ & _ & _ & _ & E).
  - apply consistent_b_spec. vm_compute. reflexivity.
  - exists answer. exact E.
Defined.

Lemma session_reconciles_witness :
  exists sa1 sb1 init answer sa' sb' stB' evs,
    open_session (crypto := toy_crypto) sample_initiator sample_store full_window = Ok (sa1, 0, init) /\
    handle_message_into sample_responder other_store (fun _ => IoOk) init SyncOutput.default =
      (sb1, other_store, SyncOutput.mk [answer] [], Ok tt) /\
    exchange 2 sa1 sample_store sb1 other_store (fun _ => IoOk) [answer] [] = Some (sa', sb', stB', evs) /\
    EntryStore.entries other_store ⊆ EntryStore.entries stB'.
Proof.
  destruct (session_reconciles _ _ _ _ _ _ _ (fun _ => IoOk) 1 (set_meeting _ _ _ _ _ _ _ _ sample_setup))
    as (sa1 & sb1 & init & answer & sa' & sb' & stB' & evs & E1 & E2 & E3 & _ & _ & _ & Hsub & _).
  - apply consistent_b_spec. vm_compute. reflexivity.
  - vm_compute. discriminate.
  - vm_compute. discriminate.
  - vm_compute. discriminate.
  - exists sa1, sb1, init, answer, sa', sb', stB', evs. split; [exact E1|]. split; [exact E2|]. split; [exact E3|exact Hsub].
Defined.

Lemma session_limited_witness :
  exists sa1 sb1 init answer sa' sb' stB' evs,
    open_session (crypto := toy_crypto) sample_initiator sample_store full_window = Ok (sa1, 0, init) /\
    handle_message_into sample_responder other_store (fun _ => IoOk) init SyncOutput.default =
      (sb1, other_store, SyncOutput.mk [answer] [], Ok tt) /\
    exchange 100 sa1 sample_store sb1 other_store (fun _ => IoOk) [answer] [] = Some (sa', sb', stB', evs) /\
    StoreSpec.wf stB'.
Proof.
  destruct (session_limited _ _ _ _ _ _ _ (fun _ => IoOk) 99 (set_meeting _ _ _ _ _ _ _ _ sample_setup))
    as (sa1 & sb1 & init & answer & sa' & sb' & stB' & evs & E1 & E2 & E3 & _ & _ & Hwf & _).
  - apply consistent_b_spec. vm_compute. reflexivity.
  - vm_compute. discriminate.
  - exists sa1, sb1, init, answer, sa', sb', stB', evs. split; [exact E1|]. split; [exact E2|]. split; [exact E3|exact Hwf].
Defined.
