(* ===== verification/SessionDuplex.v ===== *)
(** * Two sessions at once

    Both sides open a session over the same link, and the messages of the two
    are delivered in any order the two directions allow: each direction is a
    queue, and at each step one side handles the message at its head. A
    session is followed through its phases, whatever the other does to the
    tables and stores meanwhile; a run of the pair is the interleaving of two
    such sessions. *)
From S2P Require Import Prelude Errors Crypto Cbor CborRef Entry Msg Item IdSum Bound.
From S2P Require Import OrderTree OrderIndex OrderRefine OrderSpec Store StoreSpec JournalSpec NegStore Negentropy NegFacts NegExact.
From S2P Require Import NegRanges NegRun NegReply NegGeneral NegCut NegLimit Session SessionSpec SessionRounds.
From stdpp Require Import relations.
Open Scope N_scope.
Import Syncer.

(** ** What a push leaves out of the events *)

Lemma push_loop_needed {cbor : Cbor} {crypto : Crypto} store io k es out :
  needed (SyncOutput.events (push_loop store io k es out).1.2) = needed (SyncOutput.events out).
Proof.
  revert store k out. induction es as [|e es IH]; intros store k out; cbn [push_loop]; [done|].
  assert (Hn : forall out ev, needed [ev] = [] -> needed (SyncOutput.events (SyncOutput.push_event out ev)) = needed (SyncOutput.events out)).
  { intros o ev H. unfold SyncOutput.push_event. cbn [SyncOutput.events]. by rewrite needed_app, H, app_nil_r. }
  destruct (EntryStore.insert store e (io k)) as [st [[]|[]|]]; try done; rewrite IH; by apply Hn.
Qed.

(** The batches of a push are the same in a store that only has more. *)
Lemma push_batches_ext {cbor : Cbor} {crypto : Crypto} st st' hv ttl :
  (forall i, i ∈ hv -> EntryStore.get st' i = EntryStore.get st i) -> push_batches st' hv ttl = push_batches st hv ttl.
Proof.
  intros H. unfold push_batches.
  assert (Hl : forall msgs batch n, batch_loop st' ttl hv msgs batch n = batch_loop st ttl hv msgs batch n); [|done].
  induction hv as [|i hv IH]; intros msgs batch n; cbn [batch_loop]; [done|].
  rewrite H by by left. assert (Hrest : forall j, j ∈ hv -> EntryStore.get st' j = EntryStore.get st j) by (intros; apply H; by right).
  destruct (EntryStore.get st i); [|by apply IH]. by destruct (_ && _); apply IH.
Qed.

(** ** One session among others *)

(** Where a session stands: what was exchanged and the pushes not yet
    delivered. *)
Inductive phase : Type :=
  | Opening
  | Asked (k : nat) (m : bytes) (hv nd : list bytes) (rest : list Message)
  | Answered (k : nat) (m : bytes) (hv nd : list bytes)
  | Closing (hv nd : list bytes) (rest : list Message)
  | Over (hv nd : list bytes).

(** What the initiator found, what it asked for, and the pushes in flight. *)
Definition have_of (p : phase) : list bytes :=
  match p with Opening => [] | Asked _ _ hv _ _ | Answered _ _ hv _ | Closing hv _ _ | Over hv _ => hv end.
Definition need_of (p : phase) : list bytes :=
  match p with Opening => [] | Asked _ _ _ nd _ | Answered _ _ _ nd | Closing _ nd _ | Over _ nd => nd end.
Definition pushes_of (p : phase) : list Message :=
  match p with Asked _ _ _ _ rest | Closing _ _ rest => rest | _ => [] end.

(** What the two engines of a session make its sides say: [P] holds of the
    responder's answers and of the initiator's turns. *)
Record says_all {cbor : Cbor} {crypto : Crypto} (P : Message -> Prop) (sa sb : t) (stA : EntryStore.t)
    (itemsA itemsB : list Item.t) (R : nat -> bytes -> list bytes -> list bytes -> Prop) : Prop := {
  sy_answers k m hv nd : R k m hv nd -> P (answer_msg sa sb itemsB m);
  sy_says m2 hvn reply hn nn : NoDup hvn -> (forall i, i ∈ hvn -> i ∈ ids itemsA) ->
    Negentropy.reconcile (sealed sa itemsA true) m2 = Ok (Round.mk reply hn nn) -> Forall P (says sa stA hvn reply) }.

Section One.
Context {cbor : Cbor} {crypto : Crypto}.
Context (sa sb : t) (stA stB : EntryStore.t) (w : SortKeyWindow.t) (itemsA itemsB : list Item.t).
Context (io : nat -> io_outcome).
Context (Hmeet : meeting sa sb stA stB io w itemsA itemsB).
Context (k0 : nat).

Local Notation sid := (next_sid sa).
Let ttl := SyncConfig.push_ttl (config sa).

Context (R : nat -> bytes -> list bytes -> list bytes -> Prop) (F : list bytes -> list bytes -> Prop).
Context (Hrounds : rounds (sealed sa itemsA true) (sealed sb itemsB false) (ids itemsA) R F).
Context (Hopen : R k0 (opening_message itemsA) [] []).
Context (P : Message -> Prop) (Hsays : says_all P sa sb stA itemsA itemsB R).

Local Notation answer_msg := (answer_msg sa sb itemsB).

Definition phase_ok (p : phase) : Prop :=
  match p with
  | Opening => True
  | Asked k m hv nd _ | Answered k m hv nd => R k m hv nd
  | Closing hv nd _ | Over hv nd => F hv nd
  end.

(** The messages of the session in flight to the responder and back. *)
Definition forth (p : phase) : list Message :=
  match p with
  | Opening => [opening_init sa w itemsA]
  | Asked _ m _ _ rest => rest ++ [MReconMsg (ReconMsg.mk sid m)]
  | Answered _ _ _ _ | Over _ _ => []
  | Closing _ _ rest => rest ++ [MReconDone (ReconDone.mk sid)]
  end.
Definition back (p : phase) : list Message := match p with Answered _ m _ _ => [answer_msg m] | _ => [] end.

(** Its entry in the initiator's table and in the responder's. *)
Definition ours (p : phase) (o : option Session.t) : Prop :=
  match p with
  | Opening | Asked _ _ _ _ _ | Answered _ _ _ _ =>
      exists pushed, (forall i, i ∈ pushed <-> i ∈ have_of p) /\ o = Some (Session.mk (sealed sa itemsA true) pushed)
  | Closing _ _ _ | Over _ _ => o = None
  end.
Definition theirs (p : phase) : option Session.t :=
  match p with Opening | Over _ _ => None | _ => Some (Session.mk (sealed sb itemsB false) ∅) end.

Definition pending (p : phase) : list Entry.t := concat (map batch_entries (pushes_of p)).

(** The responder's store: it took what was delivered and has room for the
    rest. *)
Record receiving (p : phase) (st : EntryStore.t) : Prop := {
  rv_wf : StoreSpec.wf st;
  rv_storing : storing io (widest stA itemsA) (length itemsA - card (have_of p) + length (pending p)) st;
  rv_grown : EntryStore.entries stB ⊆ EntryStore.entries st;
  rv_size : (base.size (EntryStore.entries st) + length (pending p) <=
    base.size (EntryStore.entries stB) + card (have_of p))%nat;
  rv_from : forall i e, EntryStore.get st i = Some e -> EntryStore.get stB i = Some e \/ EntryStore.get stA i = Some e;
  rv_have : forall i, i ∈ have_of p -> i ∈ ids itemsA /\
    (is_Some (EntryStore.get st i) \/ i ∈ map Entry.id (pending p));
  rv_batches : Forall (batch_ok ttl) (pushes_of p);
  rv_pending : Forall (fun e => fitting (widest stA itemsA) e /\ exists i, EntryStore.get stA i = Some e) (pending p);
  rv_start : p = Opening -> st = stB }.

(** Deliveries still to come. *)
Definition weight (p : phase) : nat :=
  match p with
  | Opening => 2 * k0 + length itemsA + 3
  | Asked k _ hv _ rest => length rest + 2 * k + (length itemsA - card hv) + 3
  | Answered k _ hv _ => 2 * k + (length itemsA - card hv) + 2
  | Closing _ _ rest => length rest + 1
  | Over _ _ => 0
  end.

(** Messages the initiator and the responder may still send. *)
Definition asks_left (p : phase) : nat :=
  match p with
  | Opening => k0 + length itemsA + 1
  | Asked k _ hv _ _ | Answered k _ hv _ => k + (length itemsA - card hv) + 1
  | Closing _ _ _ | Over _ _ => 0
  end.
Definition answers_left (p : phase) : nat :=
  match p with
  | Opening => S k0 | Asked k _ _ _ _ => S k | Answered k _ _ _ => k | Closing _ _ _ | Over _ _ => 0
  end.

(** The next phase once the responder handled the head of [forth]. *)
Definition next_forth (p : phase) : phase :=
  match p with
  | Opening => Answered k0 (opening_message itemsA) [] []
  | Asked k m hv nd [] => Answered k m hv nd
  | Asked k m hv nd (_ :: rest) => Asked k m hv nd rest
  | Closing hv nd [] => Over hv nd
  | Closing hv nd (_ :: rest) => Closing hv nd rest
  | p => p
  end.

(** ** The responder's side *)

(** A batch of pushes arrives. *)
Lemma push_arrives p p' b s st : receiving p st -> pushes_of p = b :: pushes_of p' -> have_of p' = have_of p ->
  p' <> Opening ->
  exists st' out, handle_message_into s st io b SyncOutput.default = (s, st', out, Ok tt) /\
    SyncOutput.replies out = [] /\ needed (SyncOutput.events out) = [] /\ receiving p' st'.
Proof.
  intros [Hwf Hst Hsub Hsz Hfrom Hhv Hbat Hpend _] Hp Hh Hne.
  assert (Hpq : pending p = batch_entries b ++ pending p') by (unfold pending; by rewrite Hp).
  rewrite Hp in Hbat. apply Forall_cons in Hbat as [Hb Hbat].
  rewrite Hpq in *. rewrite length_app in *. apply Forall_app in Hpend as [Hpe Hpend].
  assert (Hfit : Forall (fitting (widest stA itemsA)) (batch_entries b)) by (eapply Forall_impl; [exact Hpe|]; by intros e []).
  assert (Hone : concat (map batch_entries [b]) = batch_entries b) by (cbn; apply app_nil_r).
  assert (Hcap : (card (have_of p) <= length itemsA)%nat).
  { destruct (meeting_engines _ _ _ _ _ _ _ _ Hmeet) as (_ & _ & HpA & _). apply card_own; [done|]. intros i Hi. by apply Hhv. }
  pose proof (set_size _ _ _ _ _ _ _ _ Hmeet) as Hroom. unfold size_ok in Hroom.
  destruct (handle_pushes (widest stA itemsA) (length itemsA - card (have_of p) + length (pending p')) s st io [b] ttl
    SyncOutput.default Hwf) as (st' & out & E & H1 & H2 & H3 & H4 & H5 & H6 & H7).
  { rewrite Hone. eapply storing_le; [exact Hst|lia]. }
  { by constructor. }
  { by rewrite Hone. }
  { rewrite Hone. unfold size_ok. lia. }
  rewrite Hone in *. cbn [handle_all] in E.
  destruct Hb as (es & -> & _). cbn [handle_message_into batch_entries GossipPush.entries] in *.
  pose proof (push_loop_needed st io 0 es SyncOutput.default) as Hn.
  destruct (push_loop st io 0 es SyncOutput.default) as [[st1 o1] [[]|err|]]; [|done|done]. injection E as <- <-.
  exists st1, o1. split; [done|]. split; [done|]. split; [done|].
  split; rewrite ?Hh; try done; [by etrans|lia| |].
  - intros i e He. destruct (H7 i e He) as [|Hin]; [by apply Hfrom|right]. rewrite Forall_forall in Hpe.
    destruct (Hpe e Hin) as [_ [j Hj]]. destruct (wf_entries st1 H1 i e He) as [<- _].
    destruct Hmeet as [_ _ (HwA & _) _ _ _ _ _]. by destruct (wf_entries stA HwA j e Hj) as [<- _].
  - intros i Hi. destruct (Hhv i Hi) as [Hown [[e He]|Hin]]; (split; [done|]).
    + left. exists e. by eapply lookup_weaken.
    + rewrite map_app, elem_of_app in Hin. destruct Hin as [Hin|]; [left|by right].
      apply list_elem_of_fmap in Hin as (e & -> & He). rewrite Forall_forall in H4. by apply H4.
Qed.

Lemma receiving_same p p' st : have_of p' = have_of p -> pushes_of p' = pushes_of p -> p' <> Opening ->
  receiving p st -> receiving p' st.
Proof.
  intros Hh Hp Hne []. split; unfold pending in *; rewrite ?Hh, ?Hp; by try done.
Qed.

(** The responder handles the head of [forth], whatever else its table
    holds. *)
Lemma forth_step p m tl s st : phase_ok p -> forth p = m :: tl -> receiving p st ->
  inv s -> role s = role sb -> config s = config sb -> sessions s !! (false, sid) = theirs p ->
  (p = Opening -> open_sessions s < SyncConfig.max_sessions (config s)) ->
  exists st' out,
    handle_message_into s st io m SyncOutput.default =
      (set_sessions s (upd (false, sid) (theirs (next_forth p)) (sessions s)), st', out, Ok tt) /\
    inv (set_sessions s (upd (false, sid) (theirs (next_forth p)) (sessions s))) /\
    receiving (next_forth p) st' /\ needed (SyncOutput.events out) = [] /\
    back (next_forth p) = back p ++ SyncOutput.replies out /\ forth (next_forth p) = tl /\
    Forall P (SyncOutput.replies out) /\
    (length (SyncOutput.replies out) + answers_left (next_forth p) <= answers_left p)%nat.
Proof.
  intros Hok Hf Hrv Hinv Hrole Hcfg Hlook Hcap.
  assert (Hstay : theirs (next_forth p) = theirs p -> set_sessions s (upd (false, sid) (theirs (next_forth p)) (sessions s)) = s).
  { intros Hs. rewrite Hs, upd_same by done. apply syncer_eta. }
  destruct p as [|k m0 hv nd [|b rest]|k m0 hv nd|hv nd [|b rest]|hv nd]; cbn [forth app] in Hf; try done; injection Hf as <- <-.
  - exists st, (SyncOutput.mk [answer_msg (opening_message itemsA)] []).
    pose proof (rv_start _ _ Hrv eq_refl) as ->. cbn [handle_message_into opening_init next_forth theirs back app] in *.
    pose proof (b_opens sa sb stA stB w itemsA itemsB io Hmeet R F Hrounds k0 s Hopen Hinv Hrole Hcfg Hlook (Hcap eq_refl)) as E.
    pose proof (handle_init_sat s stB (ReconInit.mk sid w (opening_message itemsA)) (rv_wf _ _ Hrv) Hinv) as Hsat.
    unfold opening_init. rewrite E in Hsat |- *. split; [done|]. split; [apply Hsat|].
    split_and!; try done; [by apply (receiving_same Opening)|by repeat constructor; eapply sy_answers].
  - exists st, (SyncOutput.mk [answer_msg m0] []). rewrite Hstay by done. cbn [next_forth].
    cbn [handle_message_into]. rewrite (b_answers sa sb stA stB w itemsA itemsB io Hmeet R F Hrounds k m0 hv nd s st Hok (rv_wf _ _ Hrv) Hinv Hrole Hlook).
    split_and!; try done; [by apply (receiving_same (Asked k m0 hv nd []))|by repeat constructor; eapply sy_answers].
  - destruct (push_arrives _ (Asked k m0 hv nd rest) b s st Hrv) as (st' & out & E & Hrep & Hn & Hrv'); try done.
    exists st', out. rewrite Hstay by done. cbn [next_forth]. rewrite Hrep. by split_and!.
  - exists st, (SyncOutput.mk [] [SessionClosed sid false]). cbn [next_forth theirs handle_message_into].
    rewrite (b_closes sa sb stA stB w itemsA itemsB io Hmeet s Hrole (ex_intro _ _ Hlook)).
    split; [done|]. split; [by apply (inv_delete s (false, sid))|].
    split_and!; try done; by apply (receiving_same (Closing hv nd [])).
  - destruct (push_arrives _ (Closing hv nd rest) b s st Hrv) as (st' & out & E & Hrep & Hn & Hrv'); try done.
    exists st', out. rewrite Hstay by done. cbn [next_forth]. rewrite Hrep. by split_and!.
Qed.

(** What a handled message changes besides. *)
Lemma next_forth_facts p m tl : phase_ok p -> forth p = m :: tl ->
  phase_ok (next_forth p) /\ need_of (next_forth p) = need_of p /\ (weight (next_forth p) < weight p)%nat /\
  (asks_left (next_forth p) <= asks_left p)%nat /\ forall o, ours p o -> ours (next_forth p) o.
Proof.
  intros Hok Hf. destruct p as [|k m0 hv nd [|b rest]|k m0 hv nd|hv nd [|b rest]|hv nd]; cbn [forth app] in Hf; try done;
    cbn [next_forth weight asks_left length have_of]; (split; [done|split; [done|split; [|split; [|by intros o]]]]); try done; lia.
Qed.

(** ** The initiator's side *)

Lemma meeting_held i : i ∈ ids itemsA -> is_Some (EntryStore.get stA i).
Proof.
  intros (x & -> & Hx)%list_elem_of_fmap. destruct Hmeet as [_ _ (HwA & _) _ _ _ (EA & _) _].
  destruct (sealed_facts _ _ _ HwA EA) as (_ & _ & _ & _ & Hheld). destruct (Hheld x Hx). by eexists.
Qed.

(** The phase after the answer [m] was read. *)
Definition next_back (hv nd hn nn hvn : list bytes) (reply : option bytes) (k' : nat) : phase :=
  let rest := push_batches stA hvn ttl in
  match reply with
  | None => Closing (hv ++ hn) (nd ++ nn) rest
  | Some m' => Asked k' m' (hv ++ hn) (nd ++ nn) rest
  end.

Lemma answer_receiving k m hv nd hn nn hvn reply k' st : receiving (Answered k m hv nd) st ->
  (forall i, i ∈ hn -> i ∈ ids itemsA) -> NoDup hvn -> (forall i, i ∈ hvn <-> i ∈ hn /\ i ∉ hv) ->
  receiving (next_back hv nd hn nn hvn reply k') st.
Proof.
  intros [Hwf Hst Hsub Hsz Hfrom Hhv _ _ _] Hhn Hnd Hspec. unfold pending in *. cbn [have_of pushes_of map concat length] in *.
  destruct (push_batches_ok stA hvn ttl) as [Hbat Hcat].
  assert (Hh : have_of (next_back hv nd hn nn hvn reply k') = hv ++ hn) by by destruct reply.
  assert (Hp : pushes_of (next_back hv nd hn nn hvn reply k') = push_batches stA hvn ttl) by by destruct reply.
  pose proof (card_app hv hn hvn Hnd Hspec) as Hcard.
  pose proof (length_omap_le (EntryStore.get stA) hvn) as Hom.
  destruct (meeting_engines _ _ _ _ _ _ _ _ Hmeet) as (_ & _ & HpA & _).
  destruct Hmeet as [_ _ (HwA & _) _ _ _ (EA & _) _].
  destruct (sealed_facts _ _ _ HwA EA) as (_ & _ & _ & _ & Hheld).
  assert (Hcap : (card (hv ++ hn) <= length itemsA)%nat).
  { apply card_own; [done|]. intros i. rewrite elem_of_app. intros [Hi|Hi]; [by apply Hhv|auto]. }
  split; unfold pending; rewrite ?Hh, ?Hp, ?Hcat; try done.
  - eapply storing_le; [exact Hst|lia].
  - lia.
  - intros i Hi. assert (Hown : i ∈ ids itemsA) by (apply elem_of_app in Hi as [Hi|Hi]; [by apply Hhv|auto]). split; [done|].
    destruct (decide (i ∈ hv)) as [Hold|Hnew]; [left; by destruct (Hhv i Hold) as [_ [|?%elem_of_nil]]|right].
    apply list_elem_of_fmap in Hown as (x & -> & Hx). destruct (Hheld x Hx) as [e He].
    apply list_elem_of_fmap. exists e. split; [by destruct (wf_entries stA HwA _ e He)|].
    apply list_elem_of_omap. exists (Item.id x). split; [|done]. apply Hspec. split; [|done].
    apply elem_of_app in Hi as [|]; tauto.
  - apply Forall_and. split; [apply omap_fitting; [done|]; intros i Hi; by apply Hhn, Hspec|].
    apply Forall_forall. intros e (i & _ & Hi)%list_elem_of_omap. by exists i.
  - by destruct reply.
Qed.

(** The initiator handles the answer, with any store that has grown since the
    session was opened. *)
Lemma back_step p m tl s st stR o io' : phase_ok p -> back p = m :: tl -> receiving p stR ->
  StoreSpec.wf st -> EntryStore.entries stA ⊆ EntryStore.entries st ->
  inv s -> role s = role sa -> config s = config sa -> sessions s !! (true, sid) = o -> ours p o ->
  exists p' o' out nn,
    handle_message_into s st io' m SyncOutput.default =
      (set_sessions s (upd (true, sid) o' (sessions s)), st, out, Ok tt) /\
    inv (set_sessions s (upd (true, sid) o' (sessions s))) /\
    phase_ok p' /\ ours p' o' /\ theirs p' = theirs p /\ receiving p' stR /\ (weight p' < weight p)%nat /\
    forth p' = forth p ++ SyncOutput.replies out /\ back p' = tl /\
    need_of p' = need_of p ++ nn /\ (forall i, i ∈ needed (SyncOutput.events out) <-> i ∈ nn) /\
    Forall P (SyncOutput.replies out) /\ (answers_left p' <= answers_left p)%nat /\
    (length (SyncOutput.replies out) + asks_left p' <= asks_left p)%nat.
Proof.
  intros Hok Hb Hrv Hwf Hsub Hinv Hrole Hcfg Hlook Ho.
  destruct p as [| |k m0 hv nd| |]; cbn [back] in Hb; try done. injection Hb as <- <-.
  destruct Ho as (pushed & Hpush & ->). cbn [have_of] in Hpush.
  destruct (trip sa sb itemsA itemsB R F Hrounds _ _ _ _ Hok) as (reply & hn & nn & _ & E1 & Hhn & Hnext).
  destruct (a_reads sa sb stA stB w itemsA itemsB io Hmeet _ _ _ _ _ _ s st Hinv Hwf Hrole Hlook Hpush E1)
    as (out & hvn & o & E & Hinv' & [Hnd Hspec] & [Hneed _] & Hrep & Ho).
  rewrite (push_batches_ext stA st) in Hrep.
  2:{ intros i [Hi _]%Hspec. destruct (meeting_held _ (Hhn i Hi)) as [e He]. rewrite He. by eapply lookup_weaken. }
  rewrite Hcfg in Hrep. fold ttl in Hrep.
  destruct (push_batches_ok stA hvn ttl) as [Hbat Hcat]. pose proof (batches_count _ _ Hbat) as Hcount.
  pose proof (length_omap_le (EntryStore.get stA) hvn) as Hom. rewrite <- Hcat in Hom.
  pose proof (card_app hv hn hvn Hnd Hspec) as Hcard.
  assert (Hcap : (card (hv ++ hn) <= length itemsA)%nat).
  { destruct (meeting_engines _ _ _ _ _ _ _ _ Hmeet) as (_ & _ & HpA & _). apply card_own; [done|].
    intros i. rewrite elem_of_app. intros [Hi|Hi]; [by apply (rv_have _ _ Hrv)|auto]. }
  assert (Hrv' : forall k', receiving (next_back hv nd hn nn hvn reply k') stR) by (intros; by eapply answer_receiving).
  assert (Hsay : Forall P (push_batches stA hvn ttl ++ [next_message sa reply])).
  { eapply sy_says; [exact Hsays|exact Hnd| |exact E1]. intros i Hi. by apply Hhn, Hspec. }
  destruct reply as [m'|]; cbn [next_message next_back] in *.
  - destruct Hnext as (k' & -> & HR'), Ho as (pushed' & Hp' & ->).
    exists (Asked k' m' (hv ++ hn) (nd ++ nn) (push_batches stA hvn ttl)), (Some (Session.mk (sealed sa itemsA true) pushed')).
    exists (SyncOutput.extend SyncOutput.default out), nn. unfold SessionRounds.answer_msg. cbn [handle_message_into]. rewrite E.
    split_and!; try done.
    + by exists pushed'.
    + cbn [weight]. lia.
    + cbn [SyncOutput.replies SyncOutput.extend SyncOutput.default app]. rewrite Hrep. exact Hsay.
    + cbn [asks_left SyncOutput.replies SyncOutput.extend SyncOutput.default app]. rewrite Hrep, length_app. cbn [length]. lia.
  - subst o. exists (Closing (hv ++ hn) (nd ++ nn) (push_batches stA hvn ttl)), None.
    exists (SyncOutput.extend SyncOutput.default out), nn. unfold SessionRounds.answer_msg. cbn [handle_message_into]. rewrite E.
    split_and!; try done.
    + by apply Hrv'.
    + cbn [weight]. lia.
    + cbn [SyncOutput.replies SyncOutput.extend SyncOutput.default app]. rewrite Hrep. exact Hsay.
    + cbn [answers_left]. lia.
    + cbn [asks_left SyncOutput.replies SyncOutput.extend SyncOutput.default app]. rewrite Hrep, length_app. cbn [length]. lia.
Qed.

End One.

(** ** Two queues *)

(** [l] interleaves [l1] and [l2]. *)
Inductive merge {A} : list A -> list A -> list A -> Prop :=
  | merge_nil : merge [] [] []
  | merge_l x l1 l2 l : merge l1 l2 l -> merge (x :: l1) l2 (x :: l)
  | merge_r x l1 l2 l : merge l1 l2 l -> merge l1 (x :: l2) (x :: l).

Lemma merge_cons_inv {A} (x : A) l1 l2 l : merge l1 l2 (x :: l) ->
  (exists l1', l1 = x :: l1' /\ merge l1' l2 l) \/ (exists l2', l2 = x :: l2' /\ merge l1 l2' l).
Proof. inversion 1; subst; eauto. Qed.

Lemma merge_nil_inv {A} (l1 l2 : list A) : merge l1 l2 [] -> l1 = [] /\ l2 = [].
Proof. by inversion 1. Qed.

Lemma merge_one_l {A} (l : list A) : merge l [] l.
Proof. induction l; by constructor. Qed.

Lemma merge_one_r {A} (l : list A) : merge [] l l.
Proof. induction l; by constructor. Qed.

Lemma merge_app_l {A} (l1 l2 l m : list A) : merge l1 l2 l -> merge (l1 ++ m) l2 (l ++ m).
Proof. induction 1; cbn; try by constructor. apply merge_one_l. Qed.

Lemma merge_app_r {A} (l1 l2 l m : list A) : merge l1 l2 l -> merge l1 (l2 ++ m) (l ++ m).
Proof. induction 1; cbn; try by constructor. apply merge_one_r. Qed.

(** ** Two ends of a link *)

(** A syncer with its store, its journal, the messages on their way to it and
    what it reported. *)
Module Endpoint.
Record t : Type := mk {
  syncer : Syncer.t;
  store : EntryStore.t;
  io : nat -> io_outcome;
  inbox : list Message;
  events : list SyncEvent }.

Definition receive (ms : list Message) (e : t) : t :=
  mk (syncer e) (store e) (io e) (inbox e ++ ms) (events e).

(** Handle the first message of the inbox; what is sent in return. *)
Definition handle {cbor : Cbor} {crypto : Crypto} (e : t) : option (t * list Message) :=
  match inbox e with
  | [] => None
  | m :: q =>
      let '(s, st, out, r) := handle_message_into (syncer e) (store e) (io e) m SyncOutput.default in
      match r with
      | Ok _ => Some (mk s st (io e) q (events e ++ SyncOutput.events out), SyncOutput.replies out)
      | _ => None
      end
  end.
End Endpoint.

(** One message is delivered, to either side. *)
Inductive delivery {cbor : Cbor} {crypto : Crypto} : Endpoint.t * Endpoint.t -> Endpoint.t * Endpoint.t -> Prop :=
  | deliver_left a b a' ms : Endpoint.handle a = Some (a', ms) -> delivery (a, b) (a', Endpoint.receive ms b)
  | deliver_right a b b' ms : Endpoint.handle b = Some (b', ms) -> delivery (a, b) (Endpoint.receive ms a, b').

(** No message in flight is refused. *)
Definition accepting {cbor : Cbor} {crypto : Crypto} (e : Endpoint.t) : Prop :=
  Endpoint.inbox e = [] \/ is_Some (Endpoint.handle e).

Lemma size_upd k o m : (base.size (upd k o m) <= S (base.size m))%nat.
Proof.
  destruct o as [se|].
  - change (upd k (Some se) m) with (<[k := se]> m). rewrite map_size_insert. destruct (m !! k); cbn; lia.
  - change (upd k None m) with (delete k m). pose proof (size_delete_le m k). lia.
Qed.

Section Two.
Context {cbor : Cbor} {crypto : Crypto}.

(** One side [x] of the pair with the peer [y]: its own session in phase [p]
    over its items [own], the peer's in phase [q] over its items [held]. *)
Record stands (x y : t) (stx sty : EntryStore.t) (io : nat -> io_outcome) (wx wy : SortKeyWindow.t)
    (own held held' own' : list Item.t) (p q : phase) (e : Endpoint.t) : Prop := {
  sd_inv : inv (Endpoint.syncer e);
  sd_table : exists o, ours x own p o /\ Endpoint.syncer e =
    mk (role x) (config x) (upd (true, next_sid x) o (upd (false, next_sid y) (theirs x held q) (sessions x))) (next_sid x + 2);
  sd_inbox : merge (forth y wy own' q) (back x y held' p) (Endpoint.inbox e);
  sd_store : receiving y sty stx own' io q (Endpoint.store e);
  sd_needs : forall i, i ∈ needed (Endpoint.events e) <-> i ∈ need_of p;
  sd_io : Endpoint.io e = io }.

(** What one side sends the other finds in its inbox. *)
Lemma stands_receive x y stx sty io wx wy own held held' own' p q p' q' e ms :
  stands x y stx sty io wx wy own held held' own' p q e ->
  (forall o, ours x own p o -> ours x own p' o) -> theirs x held q' = theirs x held q ->
  merge (forth y wy own' q') (back x y held' p') (Endpoint.inbox e ++ ms) ->
  receiving y sty stx own' io q' (Endpoint.store e) -> need_of p' = need_of p ->
  stands x y stx sty io wx wy own held held' own' p' q' (Endpoint.receive ms e).
Proof.
  intros [Hinv (o & Ho & Ht) _ _ Hn Hio] Hours Htheirs Hm Hrv Hnd. split; cbn; try done.
  - exists o. rewrite Htheirs. auto.
  - by rewrite Hnd.
Qed.

Section Step.
Context (x y : t) (stx sty : EntryStore.t) (iox ioy : nat -> io_outcome) (wx wy : SortKeyWindow.t).
Context (own held own' held' : list Item.t).
Context (Hx : meeting x y stx sty ioy wx own held') (Hy : meeting y x sty stx iox wy own' held).
Context (Hcap : open_sessions y + 1 < SyncConfig.max_sessions (config y)).
Context (kx ky : nat) (Rx Ry : nat -> bytes -> list bytes -> list bytes -> Prop) (Fx Fy : list bytes -> list bytes -> Prop).
Context (Hrx : rounds (sealed x own true) (sealed y held' false) (ids own) Rx Fx).
Context (Hry : rounds (sealed y own' true) (sealed x held false) (ids own') Ry Fy).
Context (Hox : Rx kx (opening_message own) [] []).
Context (P : Message -> Prop) (Hsx : says_all P x y stx own held' Rx) (Hsy : says_all P y x sty own' held Ry).

(** Both sides, the two sessions in the phases [p] and [q]. *)
Definition world (p q : phase) (a b : Endpoint.t) : Prop :=
  (phase_ok Rx Fx p /\ phase_ok Ry Fy q) /\
  stands x y stx sty iox wx wy own held held' own' p q a /\
  stands y x sty stx ioy wy wx own' held' held own q p b.

Definition left_of (p q : phase) : nat := weight own kx p + weight own' ky q.

(** Messages [x] and [y] may still send. *)
Definition from_x (p q : phase) : nat := asks_left own kx p + answers_left ky q.
Definition from_y (p q : phase) : nat := asks_left own' ky q + answers_left kx p.

(** The side [y] turned into [b'] and sent [out]. *)
Record moves (p q p' q' : phase) (a b' : Endpoint.t) (out : list Message) : Prop := {
  mv_world : world p' q' (Endpoint.receive out a) b';
  mv_left : (left_of p' q' < left_of p q)%nat;
  mv_says : Forall P out;
  mv_sends : (length out + from_y p' q' <= from_y p q)%nat /\ (from_x p' q' <= from_x p q)%nat }.

(** The table of the side that handles a message. *)
Lemma table_theirs o r : upd (true, next_sid y) o (upd (false, next_sid x) r (sessions y)) !! (false, next_sid x) = r.
Proof. rewrite upd_ne by done. apply upd_eq. Qed.

Lemma table_set_theirs o r r' :
  upd (false, next_sid x) r' (upd (true, next_sid y) o (upd (false, next_sid x) r (sessions y))) =
  upd (true, next_sid y) o (upd (false, next_sid x) r' (sessions y)).
Proof. rewrite upd_comm by done. by rewrite upd_upd. Qed.

Lemma table_room o : N.of_nat (base.size (upd (true, next_sid y) o (upd (false, next_sid x) None (sessions y)))) <
  SyncConfig.max_sessions (config y).
Proof.
  rewrite (upd_same (false, next_sid x) None) by apply Hx.
  pose proof (size_upd (true, next_sid y) o (sessions y)). unfold open_sessions in Hcap. lia.
Qed.

(** The side [y] handles a message of the peer's session. *)
Lemma handle_theirs p q a s st io m ms tl evs : world p q a (Endpoint.mk s st io (m :: ms) evs) ->
  forth x wx own p = m :: tl -> merge tl (back y x held q) ms ->
  exists p' b' out, Endpoint.handle (Endpoint.mk s st io (m :: ms) evs) = Some (b', out) /\ moves p q p' q a b' out.
Proof.
  intros [[Hp Hq] [Ha [Hinv (o & Ho & Ht) _ Hrv Hn Hio]]] Hf Hm.
  cbn [Endpoint.syncer Endpoint.store Endpoint.events Endpoint.io Endpoint.inbox] in *. subst io.
  destruct (forth_step x y stx sty wx own held' ioy Hx kx Rx Fx Hrx Hox P Hsx p m tl s st Hp Hf Hrv Hinv)
    as (st' & out & E & Hinv' & Hrv' & Hne & Hback & Hforth & Hsay & Hcount).
  1-2: by rewrite Ht.
  { rewrite Ht. apply table_theirs. }
  { intros ->. rewrite Ht. apply table_room. }
  destruct (next_forth_facts x wx own kx Rx Fx Hox p m tl Hp Hf) as (Hp' & Hnd & Hw & Hask & Hours).
  do 3 eexists. split.
  { unfold Endpoint.handle. cbn [Endpoint.inbox Endpoint.syncer Endpoint.store Endpoint.io Endpoint.events]. rewrite E. reflexivity. }
  split; [split; [done|split]|unfold left_of; lia|done|unfold from_x, from_y; lia].
  - eapply stands_receive; [exact Ha|exact Hours|done| |apply Ha|done].
    rewrite Hback. apply merge_app_r, Ha.
  - split; cbn [Endpoint.syncer Endpoint.store Endpoint.events Endpoint.io Endpoint.inbox]; try done.
    + exists o. split; [exact Ho|]. rewrite Ht. unfold set_sessions. cbn. f_equal. apply table_set_theirs.
    + by rewrite Hforth.
    + intros i. by rewrite needed_app, Hne, app_nil_r.
Qed.

(** The side [y] handles an answer to its own session. *)
Lemma handle_ours p q a s st io m ms tl evs : world p q a (Endpoint.mk s st io (m :: ms) evs) ->
  back y x held q = m :: tl -> merge (forth x wx own p) tl ms ->
  exists q' b' out, Endpoint.handle (Endpoint.mk s st io (m :: ms) evs) = Some (b', out) /\ moves p q p q' a b' out.
Proof.
  intros [[Hp Hq] [Ha [Hinv (o & Ho & Ht) _ Hrv Hn Hio]]] Hb Hm.
  cbn [Endpoint.syncer Endpoint.store Endpoint.events Endpoint.io Endpoint.inbox] in *. subst io.
  destruct (back_step y x sty stx wy own' held iox Hy ky Ry Fy Hry P Hsy q m tl s st (Endpoint.store a) o ioy Hq Hb)
    as (q' & o' & out & nn & E & Hinv' & Hq' & Ho' & Hth & Hrv' & Hw & Hforth & Hback & Hnd & Hne & Hsay & Hans & Hcount).
  { apply Ha. }
  { apply Hrv. }
  { apply Hrv. }
  { done. }
  1-2: by rewrite Ht.
  { rewrite Ht. apply upd_eq. }
  { done. }
  do 3 eexists. split.
  { unfold Endpoint.handle. cbn [Endpoint.inbox Endpoint.syncer Endpoint.store Endpoint.io Endpoint.events]. rewrite E. reflexivity. }
  split; [split; [done|split]|unfold left_of; lia|done|unfold from_x, from_y; lia].
  - eapply stands_receive; [exact Ha|done|done| |done|done]. rewrite Hforth. apply merge_app_l, Ha.
  - split; cbn [Endpoint.syncer Endpoint.store Endpoint.events Endpoint.io Endpoint.inbox]; try done.
    + exists o'. split; [exact Ho'|]. rewrite Ht. unfold set_sessions. cbn. f_equal. apply upd_upd.
    + by rewrite Hback.
    + intros i. rewrite needed_app, Hnd, !elem_of_app, Hn, Hne. done.
Qed.

Lemma handle_any p q a b : world p q a b -> Endpoint.inbox b <> [] ->
  exists p' q' b' out, Endpoint.handle b = Some (b', out) /\ moves p q p' q' a b' out.
Proof.
  destruct b as [s st io [|m ms] evs]; [done|]. intros Hw _. pose proof Hw as (_ & _ & Hb).
  destruct (merge_cons_inv _ _ _ _ (sd_inbox _ _ _ _ _ _ _ _ _ _ _ _ _ _ Hb)) as [(tl & Hf & Hm)|(tl & Hf & Hm)].
  - destruct (handle_theirs _ _ _ _ _ _ _ _ _ _ Hw Hf Hm) as (p' & b' & out & H). by exists p', q, b', out.
  - destruct (handle_ours _ _ _ _ _ _ _ _ _ _ Hw Hf Hm) as (q' & b' & out & H). by exists p, q', b', out.
Qed.

End Step.

(** ** Runs *)

Lemma says_any sa sb stA itemsA itemsB R : says_all (fun _ => True) sa sb stA itemsA itemsB R.
Proof. split; [done|]. intros. by apply Forall_true. Qed.

Lemma world_sym x y stx sty iox ioy wx wy own held own' held' Rx Ry Fx Fy p q a b :
  world x y stx sty iox ioy wx wy own held own' held' Rx Ry Fx Fy p q a b ->
  world y x sty stx ioy iox wy wx own' held' own held Ry Rx Fy Fx q p b a.
Proof. unfold world. tauto. Qed.

Lemma left_sym own own' kx ky p q : left_of own own' kx ky p q = left_of own' own ky kx q p.
Proof. apply Nat.add_comm. Qed.

Lemma handle_inbox e r : Endpoint.handle e = Some r -> Endpoint.inbox e <> [].
Proof. unfold Endpoint.handle. by destruct (Endpoint.inbox e). Qed.

(** What a session leaves: what its opener [a] asked for, and what the side
    [b] that answered holds. *)
Definition reconciled (own held' : list Item.t) (a b : Endpoint.t) : Prop :=
  (forall i, i ∈ needed (Endpoint.events a) -> i ∈ ids held' /\ i ∉ ids own) /\
  (confused own held' \/
     (forall z, z ∈ own -> is_Some (EntryStore.get (Endpoint.store b) (Item.id z))) /\
     (forall i, i ∈ ids held' -> i ∉ ids own -> i ∈ needed (Endpoint.events a))).

(** Nothing in flight to this side and its sessions over. *)
Definition at_rest (x : t) (stx : EntryStore.t) (e : Endpoint.t) : Prop :=
  Endpoint.inbox e = [] /\ Endpoint.syncer e = spent x /\
  StoreSpec.wf (Endpoint.store e) /\ EntryStore.entries stx ⊆ EntryStore.entries (Endpoint.store e).

Section Run.
Context (x y : t) (stx sty : EntryStore.t) (iox ioy : nat -> io_outcome) (wx wy : SortKeyWindow.t).
Context (own held own' held' : list Item.t).
Context (Hx : meeting x y stx sty ioy wx own held') (Hy : meeting y x sty stx iox wy own' held).
Context (Hcx : open_sessions x + 1 < SyncConfig.max_sessions (config x)).
Context (Hcy : open_sessions y + 1 < SyncConfig.max_sessions (config y)).
Context (kx ky : nat) (Rx Ry : nat -> bytes -> list bytes -> list bytes -> Prop) (Fx Fy : list bytes -> list bytes -> Prop).
Context (Hrx : rounds (sealed x own true) (sealed y held' false) (ids own) Rx Fx).
Context (Hry : rounds (sealed y own' true) (sealed x held false) (ids own') Ry Fy).
Context (Hox : Rx kx (opening_message own) [] []) (Hoy : Ry ky (opening_message own') [] []).
Context (P : Message -> Prop) (Hsx : says_all P x y stx own held' Rx) (Hsy : says_all P y x sty own' held Ry).

Local Notation world := (world x y stx sty iox ioy wx wy own held own' held' Rx Ry Fx Fy).
Local Notation left_of := (left_of own own' kx ky).

Lemma handle_other p q a b : world p q a b -> Endpoint.inbox a <> [] ->
  exists p' q' a' out, Endpoint.handle a = Some (a', out) /\
    world p' q' a' (Endpoint.receive out b) /\ (left_of p' q' < left_of p q)%nat.
Proof.
  intros Hw Hne. apply world_sym in Hw.
  destruct (handle_any y x sty stx ioy iox wy wx own' held' own held Hy Hx Hcx ky kx Ry Rx Fy Fx Hry Hrx Hoy P Hsy Hsx _ _ _ _ Hw Hne)
    as (q' & p' & a' & out & E & [Hw' Hlt _ _]). apply world_sym in Hw'. exists p', q', a', out.
  split; [done|]. split; [done|]. by rewrite !(left_sym own own').
Qed.

Lemma delivery_step pq v v' : world pq.1 pq.2 v.1 v.2 -> delivery v v' ->
  exists pq', world pq'.1 pq'.2 v'.1 v'.2 /\ (left_of pq'.1 pq'.2 < left_of pq.1 pq.2)%nat.
Proof.
  intros Hw Hd. destruct Hd as [a b a' ms E|a b b' ms E]; cbn [fst snd] in *.
  - destruct (handle_other _ _ _ _ Hw (handle_inbox _ _ E)) as (p' & q' & a1 & out & E1 & Hw' & Hlt).
    rewrite E in E1. injection E1 as <- <-. by exists (p', q').
  - destruct (handle_any x y stx sty iox ioy wx wy own held own' held' Hx Hy Hcy kx ky Rx Ry Fx Fy Hrx Hry Hox P Hsx Hsy _ _ _ _ Hw (handle_inbox _ _ E))
      as (p' & q' & b1 & out & E1 & [Hw' Hlt _ _]).
    rewrite E in E1. injection E1 as <- <-. by exists (p', q').
Qed.

Lemma both_accept p q a b : world p q a b -> accepting a /\ accepting b.
Proof.
  intros Hw. split.
  - destruct (decide (Endpoint.inbox a = [])) as [|Hne]; [by left|right].
    destruct (handle_other _ _ _ _ Hw Hne) as (p' & q' & a' & out & -> & _). by eexists.
  - destruct (decide (Endpoint.inbox b = [])) as [|Hne]; [by left|right].
    destruct (handle_any x y stx sty iox ioy wx wy own held own' held' Hx Hy Hcy kx ky Rx Ry Fx Fy Hrx Hry Hox P Hsx Hsy _ _ _ _ Hw Hne)
      as (p' & q' & b' & out & -> & _). by eexists.
Qed.

(** With nothing in flight both sessions are over. *)
Lemma quiet_over p q a b : world p q a b -> Endpoint.inbox a = [] -> Endpoint.inbox b = [] ->
  exists hv nd hv' nd', p = Over hv nd /\ q = Over hv' nd'.
Proof.
  intros (_ & Ha & Hb) Ea Eb. pose proof (sd_inbox _ _ _ _ _ _ _ _ _ _ _ _ _ _ Ha) as Ma.
  pose proof (sd_inbox _ _ _ _ _ _ _ _ _ _ _ _ _ _ Hb) as Mb. rewrite Ea in Ma. rewrite Eb in Mb.
  apply merge_nil_inv in Ma as [F1 B1], Mb as [F2 B2].
  assert (Hover : forall s w items s' h p, forth s w items p = [] -> back s s' h p = [] -> exists hv nd, p = Over hv nd).
  { intros s w items s' h []; cbn; intros F B; try done; [| |by eauto]; by apply app_eq_nil in F as [_ ?]. }
  destruct (Hover _ _ _ _ _ _ F2 B1) as (hv & nd & ->), (Hover _ _ _ _ _ _ F1 B2) as (hv' & nd' & ->). eauto 6.
Qed.

Lemma delivery_goes p q v : world p q v.1 v.2 ->
  (Endpoint.inbox v.1 = [] /\ Endpoint.inbox v.2 = []) \/ exists v', delivery v v'.
Proof.
  destruct v as [a b]. intros Hw. destruct (both_accept _ _ _ _ Hw) as [[Ea|[[a' ms] Ea]] [Eb|[[b' ms'] Eb]]].
  - by left.
  - right. eexists. by eapply deliver_right.
  - right. eexists. by eapply deliver_left.
  - right. eexists. by eapply deliver_right.
Qed.

(** What a run from the phases [p] and [q] comes to. *)
Lemma delivery_runs p q v : world p q v.1 v.2 ->
  (exists n a b, nsteps delivery n v (a, b) /\ Endpoint.inbox a = [] /\ Endpoint.inbox b = []) /\
  forall n a b, nsteps delivery n v (a, b) ->
    exists p' q', world p' q' a b /\ accepting a /\ accepting b /\ (n + left_of p' q' <= left_of p q)%nat.
Proof.
  intros Hw. split.
  - destruct (measured_ends delivery _ _ delivery_step (fun v => Endpoint.inbox v.1 = [] /\ Endpoint.inbox v.2 = []) v (p, q))
      as (n & [a b] & H); [|done|by exists n, a, b]. intros [p0 q0] v0. apply delivery_goes.
  - intros n a b Hn. destruct (measured_run delivery _ _ delivery_step n v (a, b) (p, q) Hn Hw) as ([p' q'] & Hw' & Hle).
    exists p', q'. destruct (both_accept _ _ _ _ Hw'). by split_and!.
Qed.

End Run.

(** ** The opening and the end *)

(** A side that opened its session and has the peer's opening in its inbox. *)
Definition opened (x1 : t) (stx : EntryStore.t) (io : nat -> io_outcome) (init : Message) : Endpoint.t :=
  Endpoint.mk x1 stx io [init] [].

Lemma opened_stands x y stx sty iox ioy wx wy own held own' held' R F k :
  meeting x y stx sty ioy wx own held' -> meeting y x sty stx iox wy own' held ->
  rounds (sealed x own true) (sealed y held' false) (ids own) R F -> R k (opening_message own) [] [] ->
  exists x1, open_session x stx wx = Ok (x1, next_sid x, opening_init x wx own) /\
    stands x y stx sty iox wx wy own held held' own' Opening Opening (opened x1 stx iox (opening_init y wy own')).
Proof.
  intros Hx Hy Hr Hop.
  destruct (open_going x y stx sty wx own held' ioy Hx R F Hr k Hop) as (x1 & sbb & E & _ & Hgo).
  exists x1. split; [exact E|]. destruct (go_a _ _ _ _ _ _ _ _ _ _ _ _ _ _ _ Hgo) as (Hinv & pushed & Hp & Hs).
  split; cbn; try done.
  - exists (Some (Session.mk (sealed x own true) pushed)). split; [by exists pushed|].
    rewrite (upd_same (false, next_sid y) None) by apply Hy. by rewrite Hs.
  - repeat constructor.
  - split; cbn; try done.
    + apply Hy.
    + eapply storing_le; [apply (set_stores _ _ _ _ _ _ _ _ Hy)|lia].
    + by left.
    + by intros i ?%elem_of_nil.
Qed.

(** A side at the end. *)
Lemma over_rest x y stx sty iox ioy wx wy own held held' own' hv nd hv' nd' e :
  meeting x y stx sty ioy wx own held' -> meeting y x sty stx iox wy own' held ->
  stands x y stx sty iox wx wy own held held' own' (Over hv nd) (Over hv' nd') e -> Endpoint.inbox e = [] -> at_rest x stx e.
Proof.
  intros Hx Hy [_ (o & Ho & Ht) _ Hrv _ _] He. cbn in Ho. subst o.
  split; [done|]. split; [|by split; apply Hrv].
  rewrite Ht. unfold spent. cbn [theirs]. rewrite !upd_same; [done|apply Hy|].
  rewrite upd_same by apply Hy. apply inv_fresh, Hx.
Qed.

(** What the session of [x] leaves at its end. *)
Lemma over_reconciled x y stx sty iox ioy wx wy own held held' own' hv nd hv' nd' a b :
  meeting x y stx sty ioy wx own held' -> consistent own held' -> live own held' [] hv nd ->
  stands x y stx sty iox wx wy own held held' own' (Over hv nd) (Over hv' nd') a ->
  stands y x sty stx ioy wy wx own' held' held own (Over hv' nd') (Over hv nd) b -> reconciled own held' a b.
Proof.
  intros Hx Hcon Hl Ha Hb. destruct (live_final _ _ Hcon _ _ Hl) as (_ & Hs & Hcomp).
  pose proof (sd_needs _ _ _ _ _ _ _ _ _ _ _ _ _ _ Ha) as Hn. cbn [need_of] in Hn.
  split; [intros i Hi; by apply Hs, Hn|]. destruct Hcomp as [Hc|[C1 C2]]; [by left|right].
  split; [|intros i H1 H2; apply Hn; by apply C2].
  pose proof (sd_store _ _ _ _ _ _ _ _ _ _ _ _ _ _ Hb) as Hrv. intros z Hz.
  destruct (decide (Item.id z ∈ ids held')) as [Hin|Hout].
  - destruct Hx as [_ _ (_ & Hwf & _) _ _ _ (_ & E) _]. destruct (sealed_facts _ _ _ Hwf E) as (_ & _ & _ & _ & Hheld).
    apply list_elem_of_fmap in Hin as (u & Hid & Hu). destruct (Hheld u Hu) as [e He].
    exists e. rewrite Hid. eapply lookup_weaken; [exact He|]. apply Hrv.
  - assert (Hi : Item.id z ∈ hv) by (apply C1; [apply list_elem_of_fmap; eauto|done]).
    destruct (rv_have _ _ _ _ _ _ _ Hrv _ Hi) as [_ [|Hp]]; [done|]. by apply elem_of_nil in Hp.
Qed.

End Two.

(** ** Properties *)


