(* ===== verification/Limiter.v ===== *)
(** * Handshake rate limiting: link/limiter.rs

    A token bucket per remote address and a cap on half-open handshakes.
    The map iteration of [expire] has no specified order; the model lists
    the tickets in the order of [map_to_list]. *)
From S2P Require Import Prelude.
Open Scope N_scope.

Module LimiterConfig.
Record t : Type := mk {
  burst : N; refill_interval_us : N; max_half_open : N; half_open_timeout_us : N }.
Definition default : t := mk 3 5000000 32 30000000.
End LimiterConfig.

Module Bucket.
Record t : Type := mk { tokens : N; last_refill_us : N }.
End Bucket.

(** [u64::checked_div]. *)
Definition checked_div (a b : N) : option N := if b =? 0 then None else Some (a / b).

Module HandshakeLimiter.

Record t : Type := mk {
  config : LimiterConfig.t;
  buckets : gmap bytes Bucket.t;
  half_open : gmap N N;
  next_ticket : N;
}.

Definition new (config : LimiterConfig.t) : t := mk config ∅ ∅ 0.

Definition half_open_count (l : t) : N := N.of_nat (base.size (half_open l)).

(** Lazy refill of a bucket. *)
Definition refill (c : LimiterConfig.t) (now_us : N) (b : Bucket.t) : Bucket.t :=
  let elapsed := now_us - Bucket.last_refill_us b in
  match checked_div elapsed (LimiterConfig.refill_interval_us c) with
  | Some refilled =>
      if 1 <=? refilled then
        Bucket.mk
          (N.min (N.min (Bucket.tokens b + N.min refilled (LimiterConfig.burst c)) u32_max) (LimiterConfig.burst c))
          (Bucket.last_refill_us b + refilled * LimiterConfig.refill_interval_us c)
      else b
  | None => b
  end.

(** Whether [retain] keeps a bucket: it would not be full by now. *)
Definition keep (c : LimiterConfig.t) (now_us : N) (b : Bucket.t) : bool :=
  let deficit := LimiterConfig.burst c - Bucket.tokens b in
  now_us - Bucket.last_refill_us b <? u64_saturating_mul deficit (LimiterConfig.refill_interval_us c).

Definition retain (c : LimiterConfig.t) (now_us : N) (m : gmap bytes Bucket.t) : gmap bytes Bucket.t :=
  filter (fun p => keep c now_us p.2 = true) m.

Definition admit_handshake (l : t) (remote_addr : bytes) (now_us : N) : t * option N :=
  let c := config l in
  if LimiterConfig.max_half_open c <=? half_open_count l then (l, None)
  else
    let bucket := default (Bucket.mk (LimiterConfig.burst c) now_us) (buckets l !! remote_addr) in
    let bucket := refill c now_us bucket in
    if Bucket.tokens bucket =? 0 then
      (mk c (<[remote_addr := bucket]> (buckets l)) (half_open l) (next_ticket l), None)
    else
      let bucket := Bucket.mk (Bucket.tokens bucket - 1) (Bucket.last_refill_us bucket) in
      let buckets := retain c now_us (<[remote_addr := bucket]> (buckets l)) in
      let ticket := next_ticket l in
      (mk c buckets (<[ticket := u64_saturating_add now_us (LimiterConfig.half_open_timeout_us c)]> (half_open l))
         (ticket + 1), Some ticket).

Definition established (l : t) (ticket : N) : t :=
  mk (config l) (buckets l) (delete ticket (half_open l)) (next_ticket l).

Definition closed (l : t) (ticket : N) : t :=
  mk (config l) (buckets l) (delete ticket (half_open l)) (next_ticket l).

Definition expire (l : t) (now_us : N) : t * list N :=
  let expired := map fst (List.filter (fun p => p.2 <=? now_us) (map_to_list (half_open l))) in
  (mk (config l) (buckets l) (foldl (fun m ticket => delete ticket m) (half_open l) expired) (next_ticket l), expired).

End HandshakeLimiter.
Import HandshakeLimiter.

(** ** Invariant *)

Record limiter_inv (l : t) : Prop := {
  li_half_open : half_open_count l <= LimiterConfig.max_half_open (config l);
  li_tickets ticket d : half_open l !! ticket = Some d -> ticket < next_ticket l;
  li_tokens a b : buckets l !! a = Some b -> Bucket.tokens b <= LimiterConfig.burst (config l) }.

(** The credit of an address at [now], in microseconds of refill: an absent
    bucket is a full one, and a present one never counts for more than a
    full bucket about to gain a token. *)
Definition credit (l : t) (a : bytes) (now : N) : N :=
  let r := LimiterConfig.refill_interval_us (config l) in
  let burst := LimiterConfig.burst (config l) in
  match buckets l !! a with
  | Some b => N.min (Bucket.tokens b * r + (now - Bucket.last_refill_us b)) (burst * r + (r - 1))
  | None => burst * r
  end.

(** No bucket was refilled later than [now]. *)
Definition before (l : t) (now : N) : Prop :=
  forall a b, buckets l !! a = Some b -> Bucket.last_refill_us b <= now.

(** ** Lemmas *)

Lemma refill_tokens c now b : Bucket.tokens b <= LimiterConfig.burst c ->
  Bucket.tokens (refill c now b) <= LimiterConfig.burst c.
Proof.
  intros H. unfold refill. destruct (checked_div _ _) as [r|]; [|done]. destruct (1 <=? r); cbn; lia.
Qed.

(** What refilling gives: whole intervals become tokens, up to the burst. *)
Lemma refill_spec c now b : 1 <= LimiterConfig.refill_interval_us c -> LimiterConfig.burst c <= u32_max ->
  Bucket.tokens b <= LimiterConfig.burst c -> Bucket.last_refill_us b <= now ->
  let r := LimiterConfig.refill_interval_us c in
  let x := now - Bucket.last_refill_us b in
  Bucket.tokens (refill c now b) = N.min (Bucket.tokens b + x / r) (LimiterConfig.burst c) /\
  Bucket.last_refill_us (refill c now b) <= now /\
  now - Bucket.last_refill_us (refill c now b) = x mod r.
Proof.
  intros Hr Hb Ht Hl r x. unfold refill, checked_div. fold r x.
  destruct (N.eqb_spec r 0); [unfold r in *; lia|].
  pose proof (N.div_mod x r n) as Hdm. pose proof (N.mod_lt x r n) as Hm.
  set (q := x / r) in *. set (m := x mod r) in *. clearbody q m.
  destruct (N.leb_spec 1 q); cbn [Bucket.tokens Bucket.last_refill_us].
  - assert (q * r = r * q) by apply N.mul_comm. split_and!; unfold x in *; lia.
  - assert (q = 0) as -> by lia. rewrite N.mul_0_r in Hdm. unfold x in *. split_and!; lia.
Qed.

Lemma retain_lookup c now m a b : retain c now m !! a = Some b <-> m !! a = Some b /\ keep c now b = true.
Proof. unfold retain. by rewrite map_lookup_filter_Some. Qed.

Lemma retain_dropped c now m a b : m !! a = Some b -> retain c now m !! a = None -> keep c now b = false.
Proof.
  intros H Hn. destruct (keep c now b) eqn:E; [|done].
  assert (retain c now m !! a = Some b) by by apply retain_lookup. congruence.
Qed.

(** The credit of a bucket alone. *)
Definition bucket_credit (c : LimiterConfig.t) (b : Bucket.t) (now : N) : N :=
  let r := LimiterConfig.refill_interval_us c in
  N.min (Bucket.tokens b * r + (now - Bucket.last_refill_us b)) (LimiterConfig.burst c * r + (r - 1)).

(** A configuration whose products fit their machine integers. *)
Definition config_wf (c : LimiterConfig.t) : Prop :=
  1 <= LimiterConfig.refill_interval_us c /\ LimiterConfig.burst c <= u32_max /\
  LimiterConfig.burst c * LimiterConfig.refill_interval_us c <= u64_max.

(** Refilling never raises the credit of a bucket. *)
Lemma refill_credit c b now : config_wf c -> Bucket.tokens b <= LimiterConfig.burst c ->
  Bucket.last_refill_us b <= now ->
  let b' := refill c now b in
  let r := LimiterConfig.refill_interval_us c in
  Bucket.tokens b' * r + (now - Bucket.last_refill_us b') <= bucket_credit c b now /\
  now - Bucket.last_refill_us b' < r /\ (Bucket.tokens b' = 0 <-> bucket_credit c b now < r).
Proof.
  intros (Hr & Hb & _) Ht Hl b' r. destruct (refill_spec c now b Hr Hb Ht Hl) as (E1 & E2 & E3).
  unfold bucket_credit. fold b' r in E1, E2, E3. fold r. rewrite E1, E3.
  set (x := now - Bucket.last_refill_us b) in *.
  assert (Hr0 : r <> 0) by (unfold r in *; lia).
  pose proof (N.div_mod x r Hr0) as Hdm. pose proof (N.mod_lt x r Hr0) as Hm.
  set (q := x / r) in *. set (m := x mod r) in *. clearbody q m. rewrite Hdm.
  clear E1 E2 E3 Hl. clearbody x. subst r.
  set (r := LimiterConfig.refill_interval_us c) in *. set (t := Bucket.tokens b) in *.
  set (B := LimiterConfig.burst c) in *. clearbody r t B.
  assert (N.min (t + q) B * r <= B * r) by (apply N.mul_le_mono_r; lia).
  assert (N.min (t + q) B * r <= (t + q) * r) by (apply N.mul_le_mono_r; lia).
  split_and!; [nia | done |]. split.
  - intros Hz. assert (B = 0 \/ (t = 0 /\ q = 0)) as [->|[-> ->]] by lia; lia.
  - intros Hc. destruct (N.eq_dec (N.min (t + q) B) 0); [done|exfalso].
    assert (1 * r <= B * r) by (apply N.mul_le_mono_r; lia).
    assert (1 * r <= (t + q) * r) by (apply N.mul_le_mono_r; lia). lia.
Qed.

(** Dropping buckets that are full by now never raises a credit. *)
Lemma keep_credit c b now : config_wf c -> Bucket.tokens b <= LimiterConfig.burst c ->
  keep c now b = false -> LimiterConfig.burst c * LimiterConfig.refill_interval_us c <= bucket_credit c b now.
Proof.
  intros (Hr & Hb & Hm) Ht. unfold keep, bucket_credit, u64_saturating_mul. intros Hk%N.ltb_ge.
  set (r := LimiterConfig.refill_interval_us c) in *. set (B := LimiterConfig.burst c) in *.
  rewrite N.mul_sub_distr_r in Hk. pose proof (N.mul_le_mono_r _ _ r Ht). lia.
Qed.

Lemma credit_present l a b now : buckets l !! a = Some b -> credit l a now = bucket_credit (config l) b now.
Proof. unfold credit. by intros ->. Qed.

Lemma credit_absent l a now : buckets l !! a = None ->
  credit l a now = LimiterConfig.burst (config l) * LimiterConfig.refill_interval_us (config l).
Proof. unfold credit. by intros ->. Qed.

Lemma credit_later l a now now' : now <= now' -> credit l a now' <= credit l a now + (now' - now).
Proof. unfold credit. destruct (buckets l !! a); lia. Qed.

Lemma credit_max l a now : 1 <= LimiterConfig.refill_interval_us (config l) ->
  credit l a now < (LimiterConfig.burst (config l) + 1) * LimiterConfig.refill_interval_us (config l).
Proof. unfold credit. destruct (buckets l !! a); lia. Qed.

(** The bucket [admit_handshake] works on stands for the address's credit. *)
Lemma entry_credit l a now : limiter_inv l -> before l now ->
  let b := default (Bucket.mk (LimiterConfig.burst (config l)) now) (buckets l !! a) in
  Bucket.tokens b <= LimiterConfig.burst (config l) /\ Bucket.last_refill_us b <= now /\
  bucket_credit (config l) b now = credit l a now.
Proof.
  intros Hi Hb b. unfold credit. subst b. destruct (buckets l !! a) as [b|] eqn:E; cbn [default].
  - split_and!; [eapply li_tokens; eauto | eapply Hb; eauto | done].
  - unfold bucket_credit. cbn [Bucket.tokens Bucket.last_refill_us]. split_and!; lia.
Qed.

(** The bucket just charged is not full: [retain] keeps it. *)
Lemma charged_kept c b now : config_wf c -> 1 <= Bucket.tokens b <= LimiterConfig.burst c ->
  now - Bucket.last_refill_us b < LimiterConfig.refill_interval_us c ->
  keep c now (Bucket.mk (Bucket.tokens b - 1) (Bucket.last_refill_us b)) = true.
Proof.
  intros (Hr & Hb & Hm) Ht Hl. unfold keep, u64_saturating_mul. apply N.ltb_lt. cbn [Bucket.tokens Bucket.last_refill_us].
  set (d := LimiterConfig.burst c - (Bucket.tokens b - 1)).
  assert (1 * LimiterConfig.refill_interval_us c <= d * LimiterConfig.refill_interval_us c)
    by (apply N.mul_le_mono_r; lia).
  assert (d * LimiterConfig.refill_interval_us c <= LimiterConfig.burst c * LimiterConfig.refill_interval_us c)
    by (apply N.mul_le_mono_r; lia). lia.
Qed.

(** [retain] raises nobody's credit. *)
Lemma retained_credit l m h n now a : config_wf (config l) -> limiter_inv l -> m !! a = buckets l !! a ->
  credit (mk (config l) (retain (config l) now m) h n) a now <= credit l a now.
Proof.
  intros Hc Hi Hm. destruct (retain (config l) now m !! a) as [b|] eqn:E.
  - rewrite (credit_present _ _ b) by done. apply retain_lookup in E as [E _].
    rewrite (credit_present _ _ b) by congruence. done.
  - rewrite credit_absent by done. cbn [config].
    destruct (buckets l !! a) as [b|] eqn:E'; [|by rewrite credit_absent].
    rewrite (credit_present _ _ b) by done. apply keep_credit; [done | by eapply li_tokens |].
    by eapply retain_dropped.
Qed.

(** Every outcome of [admit_handshake]: the decision, the ticket, and what is charged. *)
Lemma admit_outcome l a now : config_wf (config l) -> limiter_inv l -> before l now ->
  let (l', o) := admit_handshake l a now in
  config l' = config l /\ limiter_inv l' /\ before l' now /\
  match o with
  | Some ticket =>
      half_open_count l < LimiterConfig.max_half_open (config l) /\
      LimiterConfig.refill_interval_us (config l) <= credit l a now /\
      half_open l !! ticket = None /\
      half_open l' = <[ticket := u64_saturating_add now (LimiterConfig.half_open_timeout_us (config l))]> (half_open l) /\
      credit l' a now + LimiterConfig.refill_interval_us (config l) <= credit l a now /\
      forall a', a' <> a -> credit l' a' now <= credit l a' now
  | None =>
      (LimiterConfig.max_half_open (config l) <= half_open_count l \/
       credit l a now < LimiterConfig.refill_interval_us (config l)) /\
      half_open l' = half_open l /\
      forall a', credit l' a' now <= credit l a' now
  end.
Proof.
  intros Hc Hi Hb. destruct (entry_credit l a now Hi Hb) as (Ht & Hl & He). unfold admit_handshake.
  set (b0 := default _ _) in *. set (c := config l) in *. pose proof Hc as Hc0.
  destruct (N.leb_spec (LimiterConfig.max_half_open c) (half_open_count l)) as [Hcap|Hcap]; [auto 10|].
  destruct (refill_credit c b0 now Hc Ht Hl) as (Hcr & Hm & Hz). destruct Hc as (Hr & Hbu & Hmu).
  pose proof (refill_tokens c now b0 Ht) as Ht'. destruct (refill_spec c now b0 Hr Hbu Ht Hl) as (_ & Hl' & _).
  set (b := refill c now b0) in *. clearbody b. rewrite He in Hz, Hcr.
  destruct (N.eqb_spec (Bucket.tokens b) 0) as [Hb0|Hb0].
  - split_and!; [done | | | right; tauto | done |].
    + destruct Hi as [Hi1 Hi2 Hi3]. constructor; cbn; [done|done|].
      intros a' b' [[<- <-]|[_ E]]%lookup_insert_Some; [done | by eapply Hi3].
    + intros a' b' E. cbn in E. apply lookup_insert_Some in E as [[<- <-]|[_ E]]; [done | by eapply Hb].
    + intros a'. destruct (decide (a' = a)) as [->|Hne].
      * rewrite (credit_present _ _ b) by (cbn; by rewrite lookup_insert_eq). unfold bucket_credit. cbn [config].
        fold c. lia.
      * unfold credit at 1. cbn [buckets config]. rewrite lookup_insert_ne by done. done.
  - assert (Hfresh : half_open l !! next_ticket l = None).
    { destruct (half_open l !! next_ticket l) eqn:E; [|done]. pose proof (li_tickets _ Hi _ _ E). lia. }
    set (b1 := Bucket.mk _ _). set (m := <[a := b1]> (buckets l)).
    assert (Hlk : retain c now m !! a = Some b1) by (apply retain_lookup; split; [apply lookup_insert_eq | apply charged_kept; [done | lia | done]]).
    assert (Hc1 : Bucket.tokens b * LimiterConfig.refill_interval_us c =
      (Bucket.tokens b - 1) * LimiterConfig.refill_interval_us c + LimiterConfig.refill_interval_us c) by nia.
    split_and!; [done | | | done | lia | done | done | |].
    + constructor; cbn [half_open config half_open_count buckets next_ticket].
      * unfold half_open_count in *. cbn [half_open]. rewrite map_size_insert_None by done. lia.
      * intros t d [[<- _]|[_ E]]%lookup_insert_Some; [lia|]. pose proof (li_tickets _ Hi _ _ E). lia.
      * intros a' b' [E _]%retain_lookup. apply lookup_insert_Some in E as [[<- <-]|[_ E]]; [cbn; lia | by eapply li_tokens].
    + intros a' b' [E _]%retain_lookup. cbn in E. apply lookup_insert_Some in E as [[<- <-]|[_ E]]; [done | by eapply Hb].
    + rewrite (credit_present _ _ b1) by done. unfold bucket_credit. cbn [config b1 Bucket.tokens Bucket.last_refill_us].
      lia.
    + intros a' Hne. apply retained_credit; [done.. |]. unfold m. by rewrite lookup_insert_ne.
Qed.

Lemma foldl_delete_lookup (ts : list N) (m : gmap N N) t :
  foldl (fun m t => delete t m) m ts !! t = if decide (t ∈ ts) then None else m !! t.
Proof.
  revert m. induction ts as [|x ts IH]; intros m; [by rewrite decide_False by set_solver|].
  cbn [foldl]. rewrite IH. destruct (decide (t ∈ ts)); [by rewrite decide_True by set_solver|].
  destruct (decide (t = x)) as [->|Hne].
  - rewrite decide_True by set_solver. apply lookup_delete_eq.
  - rewrite decide_False by set_solver. by rewrite lookup_delete_ne by congruence.
Qed.

(** Forgetting tickets preserves the invariant and every credit. *)
Lemma forget_inv l h : limiter_inv l -> h ⊆ half_open l ->
  limiter_inv (mk (config l) (buckets l) h (next_ticket l)).
Proof.
  intros [H1 H2 H3] Hs. constructor; cbn; [|by intros t d E; eapply H2, lookup_weaken|done].
  unfold half_open_count in *. cbn. pose proof (map_subseteq_size _ _ Hs). lia.
Qed.

Lemma expire_list l now t :
  t ∈ (expire l now).2 <-> exists d, half_open l !! t = Some d /\ d <= now.
Proof.
  unfold expire in *. cbn [fst snd half_open] in *.
  rewrite list_elem_of_In, in_map_iff. split.
  - intros ([t1 d1] & <- & [Hin Hd]%filter_In). apply list_elem_of_In, elem_of_map_to_list in Hin.
    apply N.leb_le in Hd. eauto.
  - intros (d' & Hl & Hd). exists (t, d'). split; [done|]. apply filter_In.
    rewrite <- list_elem_of_In, elem_of_map_to_list. split; [done | by apply N.leb_le].
Qed.

Lemma expire_lookup l now t d :
  half_open (expire l now).1 !! t = Some d <-> half_open l !! t = Some d /\ now < d.
Proof.
  pose proof (expire_list l now t) as He. unfold expire in *. cbn [fst snd half_open] in *.
  rewrite foldl_delete_lookup. case_decide as Hin; rewrite He in Hin.
  - destruct Hin as (d' & E & Hd). split; [done|]. intros [E' Hlt]. assert (d = d') by congruence. lia.
  - split; [|tauto]. intros E. split; [done|]. apply N.nle_gt. intros Hd. eauto.
Qed.

Lemma expire_subseteq l now : half_open (expire l now).1 ⊆ half_open l.
Proof. apply map_subseteq_spec. intros t d E. by apply expire_lookup in E as [? _]. Qed.

Lemma expire_NoDup l now : NoDup (expire l now).2.
Proof.
  unfold expire. cbn [snd]. rewrite NoDup_ListNoDup.
  pose proof (NoDup_fst_map_to_list (half_open l)) as H. rewrite NoDup_ListNoDup in H.
  change (map fst) with (fmap (M:=list) (@fst N N)) in *. revert H.
  induction (map_to_list (half_open l)) as [|[t d] m IH]; intros H; [constructor|].
  cbn in H. apply NoDup_cons_iff in H as [Hn H]. cbn. destruct (d <=? now); [|auto]. cbn. constructor; [|auto].
  intros Hin. apply Hn. apply in_map_iff in Hin as ([t' d'] & E & [Hin _]%filter_In). cbn in E. subst.
  apply in_map_iff. by exists (t, d').
Qed.

(** ** Runs of a limiter *)

Inductive op : Type :=
  | Admit (a : bytes) (now : N)
  | Established (ticket : N)
  | Closed (ticket : N)
  | Expire (now : N).

(** One call, and the address it admitted, if any. *)
Definition op_step (l : t) (o : op) : t * option bytes :=
  match o with
  | Admit a now => let (l', r) := admit_handshake l a now in (l', match r with Some _ => Some a | None => None end)
  | Established ticket => (established l ticket, None)
  | Closed ticket => (closed l ticket, None)
  | Expire now => ((expire l now).1, None)
  end.

(** How many handshakes of [a] the calls let in. *)
Fixpoint admitted (a : bytes) (l : t) (ops : list op) : t * N :=
  match ops with
  | [] => (l, 0)
  | o :: rest =>
      let (l1, r) := op_step l o in
      let (l2, k) := admitted a l1 rest in
      (l2, (if decide (r = Some a) then 1 else 0) + k)
  end.

(** The calls are made at nondecreasing times between [s] and [e]. *)
Fixpoint timed (s : N) (ops : list op) (e : N) : Prop :=
  match ops with
  | [] => s <= e
  | (Admit _ now | Expire now) :: rest => s <= now /\ timed now rest e
  | _ :: rest => timed s rest e
  end.

Lemma timed_le s ops e : timed s ops e -> s <= e.
Proof.
  revert s. induction ops as [|[] ops IH]; cbn; intros s; [done | | apply IH | apply IH |].
  - intros [? ?%IH]. lia.
  - intros [? ?%IH]. lia.
Qed.

Lemma before_later l s s' : before l s -> s <= s' -> before l s'.
Proof. intros H Hs a b E. pose proof (H a b E). lia. Qed.

Lemma forget_credit l h a now : credit (mk (config l) (buckets l) h (next_ticket l)) a now = credit l a now.
Proof. done. Qed.

(** Along a run every admission of [a] spends one interval of its credit. *)
Lemma run_credit a l ops s e : config_wf (config l) -> limiter_inv l -> before l s -> timed s ops e ->
  let (l', k) := admitted a l ops in
  limiter_inv l' /\ config l' = config l /\
  k * LimiterConfig.refill_interval_us (config l) + credit l' a e <= credit l a s + (e - s).
Proof.
  revert l s. induction ops as [|o ops IH]; intros l s Hc Hi Hb Ht; cbn [admitted].
  - cbn in Ht. split_and!; [done | done |]. pose proof (credit_later l a s e Ht). lia.
  - assert (Hquiet : forall h s', h ⊆ half_open l -> s <= s' -> timed s' ops e ->
      let (l', k) := admitted a (mk (config l) (buckets l) h (next_ticket l)) ops in
      limiter_inv l' /\ config l' = config l /\
      k * LimiterConfig.refill_interval_us (config l) + credit l' a e <= credit l a s + (e - s)).
    { intros h s' Hs Hle Ht'. pose proof (IH (mk (config l) (buckets l) h (next_ticket l)) s' Hc (forget_inv l h Hi Hs) (before_later l s s' Hb Hle) Ht') as H.
      cbn [config] in H. destruct (admitted _ _ _) as [l' k]. destruct H as (H1 & H2 & H3).
      rewrite forget_credit in H3. pose proof (credit_later l a s s' Hle). pose proof (timed_le _ _ _ Ht').
      split_and!; [done | done | lia]. }
    destruct o as [a' now|t|t|now]; cbn [op_step timed] in *.
    + destruct Ht as [Hle Ht]. pose proof (before_later l s now Hb Hle) as Hb'. pose proof (timed_le _ _ _ Ht).
      pose proof (admit_outcome l a' now Hc Hi Hb') as Ho. destruct (admit_handshake l a' now) as [l1 o].
      destruct Ho as (Hcf & Hi1 & Hb1 & Ho). pose proof (credit_later l a s now Hle).
      assert (Hc1 : config_wf (config l1)) by (by rewrite Hcf).
      pose proof (IH l1 now Hc1 Hi1 Hb1 Ht) as H'. cbn [fst snd]. destruct (admitted a l1 ops) as [l2 k].
      destruct H' as (? & Hcf2 & Hcr). rewrite Hcf in *. split_and!; [done | done |].
      destruct o as [tk|].
      * destruct Ho as (_ & _ & _ & _ & Hcost & Hother).
        case_decide as Ha; [injection Ha as ->; lia|].
        assert (a <> a') by congruence. pose proof (Hother a ltac:(done)). lia.
      * rewrite decide_False by done.
        pose proof (proj2 (proj2 Ho) a). lia.
    + pose proof (Hquiet (delete t (half_open l)) s (delete_subseteq _ _) ltac:(lia) Ht) as H.
      unfold established. destruct (admitted _ _ _). rewrite decide_False by done. done.
    + pose proof (Hquiet (delete t (half_open l)) s (delete_subseteq _ _) ltac:(lia) Ht) as H.
      unfold closed. destruct (admitted _ _ _). rewrite decide_False by done. done.
    + destruct Ht as [Hle Ht].
      pose proof (Hquiet (half_open (expire l now).1) now (expire_subseteq l now) Hle Ht) as H.
      unfold expire in *. cbn [fst half_open] in *.
      destruct (admitted _ _ _). rewrite decide_False by done. exact H.
Qed.

(** ** The properties *)

(** C32: [HandshakeLimiter] bounds the handshakes of each remote address: over
    any calls made between the times [s] and [e], [k] admissions of one
    address take fewer than burst + 1 refill intervals more than the time
    that passed; from a fresh limiter at most burst intervals more. *)
Theorem limiter_rate a l ops s e (Hc : config_wf (config l)) (Hi : limiter_inv l) (Hb : before l s)
    (Ht : timed s ops e) :
  let (l', k) := admitted a l ops in
  let r := LimiterConfig.refill_interval_us (config l) in
  let burst := LimiterConfig.burst (config l) in
  limiter_inv l' /\ half_open_count l' <= LimiterConfig.max_half_open (config l) /\
  k * r < (burst + 1) * r + (e - s) /\
  (buckets l = ∅ -> k * r <= burst * r + (e - s)).
Proof.
  pose proof (run_credit a l ops s e Hc Hi Hb Ht) as H. destruct (admitted a l ops) as [l' k].
  destruct H as (Hi' & Hcf & H). cbv zeta. split_and!; [done | rewrite <- Hcf; apply Hi' | |].
  - pose proof (credit_max l a s (proj1 Hc)). lia.
  - intros He. rewrite (credit_absent l a s) in H by (by rewrite He, lookup_empty). lia.
Qed.

(** [admit_handshake] admits exactly when a half-open slot is free and the address
    has a whole token by now, and then hands out a ticket that is not in
    use, to expire at the configured deadline; a refusal opens nothing. *)
Theorem limiter_admit l a now (Hc : config_wf (config l)) (Hi : limiter_inv l) (Hb : before l now) :
  let (l', o) := admit_handshake l a now in
  limiter_inv l' /\
  (is_Some o <-> half_open_count l < LimiterConfig.max_half_open (config l) /\
                 LimiterConfig.refill_interval_us (config l) <= credit l a now) /\
  match o with
  | Some ticket => half_open l !! ticket = None /\
      half_open l' = <[ticket := u64_saturating_add now (LimiterConfig.half_open_timeout_us (config l))]> (half_open l)
  | None => half_open l' = half_open l
  end.
Proof.
  pose proof (admit_outcome l a now Hc Hi Hb) as H. destruct (admit_handshake l a now) as [l' o].
  destruct H as (_ & Hi' & _ & H). split; [done|]. destruct o.
  - destruct H as (? & ? & ? & ? & _). split; [|done]. split; [done | by intros _].
  - destruct H as ([?|?] & ? & _); (split; [|done]); (split; [by intros []| lia]).
Qed.

(** [expire] returns each ticket whose deadline has passed exactly once,
    frees exactly those slots, and keeps the invariant; a second call at the
    same time returns nothing. *)
Theorem limiter_expire l now :
  let (l', ts) := expire l now in
  NoDup ts /\
  (forall t, t ∈ ts <-> exists d, half_open l !! t = Some d /\ d <= now) /\
  (forall t d, half_open l' !! t = Some d <-> half_open l !! t = Some d /\ now < d) /\
  (expire l' now).2 = [] /\
  (limiter_inv l -> limiter_inv l').
Proof.
  destruct (expire l now) as [l' ts] eqn:E.
  assert (El : l' = (expire l now).1) by (by rewrite E). assert (Et : ts = (expire l now).2) by (by rewrite E).
  subst. split_and!; [apply expire_NoDup | apply expire_list | apply expire_lookup | |].
  - destruct (expire (expire l now).1 now).2 as [|t ts] eqn:E'; [done|exfalso].
    assert (Hin : t ∈ (expire (expire l now).1 now).2) by (rewrite E'; set_solver).
    apply expire_list in Hin as (d & [_ ?]%expire_lookup & ?). lia.
  - intros Hi. apply (forget_inv l _ Hi), expire_subseteq.
Qed.

(** ** Witnesses *)

Definition witness_calls : list op :=
  [Admit [] 100; Admit [] 100; Admit [] 100; Admit [] 100; Expire 200; Admit [] 5000100].

Lemma new_inv c : limiter_inv (new c).
Proof.
  constructor; cbn.
  - unfold half_open_count. cbn [half_open new]. rewrite map_size_empty. lia.
  - intros t d E. by rewrite lookup_empty in E.
  - intros a b E. by rewrite lookup_empty in E.
Qed.

Lemma default_wf : config_wf LimiterConfig.default.
Proof. unfold config_wf. solve_bounds. Qed.

Lemma new_before c s : before (new c) s.
Proof. intros a b E. cbn in E. by rewrite lookup_empty in E. Qed.

Example limiter_rate_witness :
  timed 100 witness_calls 5000100 /\
  let l := new LimiterConfig.default in
  let (l', k) := admitted [] l witness_calls in
  let r := LimiterConfig.refill_interval_us (config l) in
  let burst := LimiterConfig.burst (config l) in
  limiter_inv l' /\ half_open_count l' <= LimiterConfig.max_half_open (config l) /\
  k * r < (burst + 1) * r + (5000100 - 100) /\
  (buckets l = ∅ -> k * r <= burst * r + (5000100 - 100)).
Proof.
  assert (Ht : timed 100 witness_calls 5000100) by (cbn; lia).
  split; [exact Ht|].
  exact (limiter_rate [] (new LimiterConfig.default) witness_calls 100 5000100 default_wf (new_inv _) (new_before _ _) Ht).
Defined.

Example limiter_rate_count : (admitted [] (new LimiterConfig.default) witness_calls).2 = 4.
Proof. vm_compute. reflexivity. Qed.

Example limiter_admit_witness :
  (admit_handshake (new LimiterConfig.default) [] 7).2 = Some 0 /\
  let l := new LimiterConfig.default in
  let (l', o) := admit_handshake l [] 7 in
  limiter_inv l' /\
  (is_Some o <-> half_open_count l < LimiterConfig.max_half_open (config l) /\
                 LimiterConfig.refill_interval_us (config l) <= credit l [] 7) /\
  match o with
  | Some ticket => half_open l !! ticket = None /\
      half_open l' = <[ticket := u64_saturating_add 7 (LimiterConfig.half_open_timeout_us (config l))]> (half_open l)
  | None => half_open l' = half_open l
  end.
Proof.
  split; [vm_compute; reflexivity|].
  exact (limiter_admit (new LimiterConfig.default) [] 7 default_wf (new_inv _) (new_before _ _)).
Defined.
