(* ===== verification/Noise.v ===== *)
(** * The Noise XX handshake and transport: noise/

    cipher.rs, symmetric.rs, dh.rs, handshake.rs and transport.rs. A method
    that fails keeps the mutations it has already made, so each one is a
    state transformer that returns the new state with its result: the monad
    [M]. Zeroizing freed memory is not modelled. *)
From S2P Require Import Prelude HexDigits Errors Crypto.
From Stdlib Require Strings.String.
Open Scope N_scope.

(** ** Methods on [&mut self] that can fail *)

Definition M (S A : Type) : Type := S -> S * result NoiseError.t A.

Definition ret {S A} (a : A) : M S A := fun s => (s, Ok a).
Definition fail {S A} (e : NoiseError.t) : M S A := fun s => (s, Err e).
Definition bind {S A B} (m : M S A) (f : A -> M S B) : M S B := fun s =>
  match m s with
  | (s', Ok a) => f a s'
  | (s', Err e) => (s', Err e)
  | (s', Panic) => (s', Panic)
  end.
Definition modify {S} (f : S -> S) : M S unit := fun s => (f s, Ok tt).
(** A pure fallible step: its failure ends the method. *)
Definition lift {S A} (r : S -> result NoiseError.t A) : M S A := fun s => (s, r s).
(** A method of a field. *)
Definition on {S T A} (get : S -> T) (set : T -> S -> S) (m : M T A) : M S A := fun s =>
  let (t, r) := m (get s) in (set t s, r).

Notation "'do!' x := m 'in' k" := (bind m (fun x => k))
  (at level 200, x name, m at level 100, k at level 200, right associativity).
Notation "'run!' m ; k" := (bind m (fun _ : unit => k))
  (at level 200, m at level 100, k at level 200, right associativity).

Definition PROTOCOL_NAME : bytes := String.list_byte_of_string "Noise_XX_25519_ChaChaPoly_SHA256".
Definition DHLEN : nat := 32.
Definition TAGLEN : nat := 16.
Definition REKEY_INTERVAL : N := 1024.

(** The 12-octet nonce: four zero octets, then the counter. *)
Definition nonce_bytes (n : N) : bytes := replicate 4 zero_byte ++ le_bytes 8 n.

Module CipherState.

Record t : Type := mk { k : option bytes; n : N }.

Definition new : t := mk None 0.
Definition initialize_key (key : bytes) (c : t) : t := mk (Some key) 0.
Definition nonce (c : t) : N := n c.

Section Ops.
Context {crypto : Crypto}.

Definition encrypt_with_ad (ad plaintext : bytes) : M t bytes := fun c =>
  match k c with
  | None => (c, Ok plaintext)
  | Some key =>
      if n c =? u64_max then (c, Err NoiseError.NonceExhausted)
      else match aead_encrypt key (nonce_bytes (n c)) ad plaintext with
           | None => (c, Err NoiseError.DecryptFailed)
           | Some ciphertext => (mk (k c) (n c + 1), Ok ciphertext)
           end
  end.

Definition decrypt_with_ad (ad ciphertext : bytes) : M t bytes := fun c =>
  match k c with
  | None => (c, Ok ciphertext)
  | Some key =>
      if n c =? u64_max then (c, Err NoiseError.NonceExhausted)
      else match aead_decrypt key (nonce_bytes (n c)) ad ciphertext with
           | None => (c, Err NoiseError.DecryptFailed)
           | Some plaintext => (mk (k c) (n c + 1), Ok plaintext)
           end
  end.

(** The new key is the first 32 octets of the encryption of 32 zeros under
    the reserved nonce. *)
Definition rekey : M t unit := fun c =>
  match k c with
  | None => (c, Ok tt)
  | Some key =>
      match aead_encrypt key (nonce_bytes u64_max) [] (replicate 32 zero_byte) with
      | None => (c, Panic)
      | Some block =>
          match slice 0 32 block with
          | None => (c, Panic)
          | Some new_key => (initialize_key new_key c, Ok tt)
          end
      end
  end.

Definition rekey_preserving_nonce : M t unit := fun c =>
  let saved := n c in
  (run! rekey; modify (fun c => mk (k c) saved)) c.

End Ops.
End CipherState.

Section Hkdf.
Context {crypto : Crypto}.

Definition hmac (key : bytes) (data : list bytes) : bytes := hmac_sha256 key (concat data).

Definition hkdf2 (chaining_key ikm : bytes) : bytes * bytes :=
  let temp := hmac chaining_key [ikm] in
  let out1 := hmac temp [[byte_of 1]] in
  let out2 := hmac temp [out1; [byte_of 2]] in
  (out1, out2).

End Hkdf.

Module SymmetricState.

Record t : Type := mk { ck : bytes; h : bytes; cipher : CipherState.t }.

Section Ops.
Context {crypto : Crypto}.

Definition initialize (protocol_name : bytes) : t :=
  let h := if decide (length protocol_name <= 32)%nat
           then resize 32 zero_byte protocol_name else sha256 protocol_name in
  mk h h CipherState.new.

Definition new_for_protocol : t := initialize PROTOCOL_NAME.

Definition mix_hash (data : bytes) (s : t) : t := mk (ck s) (sha256 (h s ++ data)) (cipher s).

Definition mix_key (ikm : bytes) (s : t) : t :=
  let '(ck', temp_k) := hkdf2 (ck s) ikm in
  mk ck' (h s) (CipherState.initialize_key temp_k (cipher s)).

Definition set_cipher (c : CipherState.t) (s : t) : t := mk (ck s) (h s) c.

Definition encrypt_and_hash (plaintext : bytes) : M t bytes := fun s =>
  (do! ciphertext := on cipher set_cipher (CipherState.encrypt_with_ad (h s) plaintext) in
   run! modify (mix_hash ciphertext);
   ret ciphertext) s.

Definition decrypt_and_hash (ciphertext : bytes) : M t bytes := fun s =>
  (do! plaintext := on cipher set_cipher (CipherState.decrypt_with_ad (h s) ciphertext) in
   run! modify (mix_hash ciphertext);
   ret plaintext) s.

Definition split (s : t) : CipherState.t * CipherState.t * bytes :=
  let '(temp_k1, temp_k2) := hkdf2 (ck s) [] in
  (CipherState.initialize_key temp_k1 CipherState.new,
   CipherState.initialize_key temp_k2 CipherState.new, h s).

End Ops.
End SymmetricState.

(** dh.rs *)
Module Keypair.

Record t : Type := mk { secret : bytes; public : bytes }.

Section Ops.
Context {crypto : Crypto}.

Definition from_secret_bytes (bs : bytes) : t := mk bs (x25519_base bs).

(** [generate]: the platform's entropy is the argument, [None] when it
    fails. *)
Definition generate (entropy : option bytes) : result NoiseError.t t :=
  bs ← ok_or entropy NoiseError.Entropy; mret (from_secret_bytes bs).

Definition dh (kp : t) (peer : bytes) : bytes := x25519 (secret kp) peer.

(** [Fingerprint::of]. *)
Definition fingerprint_of (public : bytes) : bytes := sha256 public.

(** [Display for Fingerprint]: [{:02x}] of each byte. *)
Definition fingerprint_display (fingerprint : bytes) : String.string := HexDigits.encode fingerprint.

End Ops.
End Keypair.

Module TransportState.

Record t : Type := mk { send : CipherState.t; recv : CipherState.t; hash : bytes; failed : bool }.

Definition new (send recv : CipherState.t) (hash : bytes) : t := mk send recv hash false.

Section Ops.
Context {crypto : Crypto}.

Definition rekey_if_due : M CipherState.t unit := fun c =>
  let n := CipherState.nonce c in
  if (0 <? n) && (n mod REKEY_INTERVAL =? 0) then CipherState.rekey_preserving_nonce c
  else (c, Ok tt).

Definition set_send (c : CipherState.t) (t : t) := mk c (recv t) (hash t) (failed t).
Definition set_recv (c : CipherState.t) (t : t) := mk (send t) c (hash t) (failed t).
Definition set_failed (t : t) := mk (send t) (recv t) (hash t) true.

Definition encrypt (plaintext : bytes) : M t bytes := fun t =>
  if failed t then (t, Err NoiseError.DecryptFailed)
  else on send set_send (run! rekey_if_due; CipherState.encrypt_with_ad [] plaintext) t.

Definition decrypt (ciphertext : bytes) : M t bytes := fun t =>
  if failed t then (t, Err NoiseError.DecryptFailed)
  else
    match on recv set_recv (run! rekey_if_due; CipherState.decrypt_with_ad [] ciphertext) t with
    | (t', Err e) => (set_failed t', Err e)
    | x => x
    end.

Definition handshake_hash (t : t) : bytes := hash t.
Definition send_nonce (t : t) : N := CipherState.nonce (send t).

End Ops.
End TransportState.

Inductive Role : Type := Initiator | Responder.

Module HandshakeState.

Record t : Type := mk {
  symmetric : SymmetricState.t;
  s : Keypair.t;
  e : Keypair.t;
  re : option bytes;
  rs : option bytes;
  role : Role;
  step : N;
}.

Definition set_symmetric (x : SymmetricState.t) (hs : t) : t := mk x (s hs) (e hs) (re hs) (rs hs) (role hs) (step hs).
Definition set_re (k : bytes) (hs : t) : t := mk (symmetric hs) (s hs) (e hs) (Some k) (rs hs) (role hs) (step hs).
Definition set_rs (k : bytes) (hs : t) : t := mk (symmetric hs) (s hs) (e hs) (re hs) (Some k) (role hs) (step hs).
Definition next_step (hs : t) : t := mk (symmetric hs) (s hs) (e hs) (re hs) (rs hs) (role hs) (step hs + 1).

Section Ops.
Context {crypto : Crypto}.

Definition new_xx (role : Role) (s e : Keypair.t) (prologue : bytes) : t :=
  mk (SymmetricState.mix_hash prologue SymmetricState.new_for_protocol) s e None None role 1.

Definition our_turn_to_write (hs : t) : bool :=
  match role hs with
  | Initiator => (step hs =? 1) || (step hs =? 3)
  | Responder => step hs =? 2
  end.

Definition mix_hash (data : bytes) : M t unit := modify (fun hs => set_symmetric (SymmetricState.mix_hash data (symmetric hs)) hs).
Definition mix_key (ikm : bytes) : M t unit := modify (fun hs => set_symmetric (SymmetricState.mix_key ikm (symmetric hs)) hs).
Definition encrypt_and_hash (p : bytes) : M t bytes := on symmetric set_symmetric (SymmetricState.encrypt_and_hash p).
Definition decrypt_and_hash (c : bytes) : M t bytes := on symmetric set_symmetric (SymmetricState.decrypt_and_hash c).

Definition write_message (payload : bytes) : M t bytes := fun hs =>
  if (3 <? step hs) || negb (our_turn_to_write hs) then (hs, Err NoiseError.OutOfOrder)
  else
    (do! out :=
       (if step hs =? 1 then
          run! mix_hash (Keypair.public (e hs));
          ret (Keypair.public (e hs))
        else if step hs =? 2 then
          run! mix_hash (Keypair.public (e hs));
          do! re := lift (fun hs => ok_or (re hs) NoiseError.OutOfOrder) in
          run! mix_key (Keypair.dh (e hs) re);
          do! enc_s := encrypt_and_hash (Keypair.public (s hs)) in
          run! mix_key (Keypair.dh (s hs) re);
          ret (Keypair.public (e hs) ++ enc_s)
        else if step hs =? 3 then
          do! enc_s := encrypt_and_hash (Keypair.public (s hs)) in
          do! re := lift (fun hs => ok_or (re hs) NoiseError.OutOfOrder) in
          run! mix_key (Keypair.dh (s hs) re);
          ret enc_s
        else lift (fun _ => Panic)) in
     do! enc_payload := encrypt_and_hash payload in
     run! modify next_step;
     ret (out ++ enc_payload)) hs.

Definition expected_overhead (hs : t) : N :=
  if step hs =? 1 then 32
  else if step hs =? 2 then 32 + 32 + 16 + 16
  else if step hs =? 3 then 32 + 16 + 16
  else 0.

(** [<[u8; 32]>::try_from(slice).expect(..)]. *)
Definition to_array32 {S} (bs : bytes) : M S bytes :=
  lift (fun _ => if decide (length bs = 32%nat) then Ok bs else Panic).

Definition read_message (message : bytes) : M t bytes := fun hs =>
  if (3 <? step hs) || our_turn_to_write hs then (hs, Err NoiseError.OutOfOrder)
  else
    let min_len := if step hs =? 1 then 32 else expected_overhead hs in
    if lenN message <? min_len then (hs, Err NoiseError.BadMessage)
    else
      (do! rest :=
         (if step hs =? 1 then
            do! parts := lift (fun _ => expect (split_at DHLEN message)) in
            let '(e_bytes, rest) := parts in
            do! re := to_array32 e_bytes in
            run! mix_hash re;
            run! modify (set_re re);
            ret rest
          else if step hs =? 2 then
            do! parts := lift (fun _ => expect (split_at DHLEN message)) in
            let '(e_bytes, rest) := parts in
            do! re := to_array32 e_bytes in
            run! mix_hash re;
            run! modify (set_re re);
            run! mix_key (Keypair.dh (e hs) re);
            do! parts := lift (fun _ => expect (split_at (DHLEN + TAGLEN) rest)) in
            let '(enc_s, rest) := parts in
            do! s_plain := decrypt_and_hash enc_s in
            do! rs := to_array32 s_plain in
            run! modify (set_rs rs);
            run! mix_key (Keypair.dh (e hs) rs);
            ret rest
          else if step hs =? 3 then
            do! parts := lift (fun _ => expect (split_at (DHLEN + TAGLEN) message)) in
            let '(enc_s, rest) := parts in
            do! s_plain := decrypt_and_hash enc_s in
            do! rs := to_array32 s_plain in
            run! modify (set_rs rs);
            run! mix_key (Keypair.dh (e hs) rs);
            ret rest
          else lift (fun _ => Panic)) in
       do! payload := decrypt_and_hash rest in
       run! modify next_step;
       ret payload) hs.

Definition is_finished (hs : t) : bool := 3 <? step hs.

Definition into_transport (hs : t) : result NoiseError.t (TransportState.t * bytes) :=
  if negb (is_finished hs) then Err NoiseError.OutOfOrder
  else
    match rs hs with
    | None => Err NoiseError.OutOfOrder
    | Some rs =>
        let '(c1, c2, hash) := SymmetricState.split (symmetric hs) in
        Ok (match role hs with
            | Initiator => TransportState.new c1 c2 hash
            | Responder => TransportState.new c2 c1 hash
            end, rs)
    end.

Definition handshake_hash (hs : t) : bytes := SymmetricState.h (symmetric hs).

End Ops.
End HandshakeState.
