(* ===== verification/NoiseSpec.v ===== *)
(** * What the Noise layer guarantees

    The honest handshake, the transport channel under any schedule of sends
    and receives, the terminal failure, and totality on hostile input. *)
From S2P Require Import Prelude Errors Crypto Noise.
Open Scope N_scope.

Section Spec.
Context {crypto : Crypto}.

(** ** Ciphers *)

Definition keyed (c : CipherState.t) : bool := match CipherState.k c with Some _ => true | None => false end.
Definition tag_len (c : CipherState.t) : nat := if keyed c then TAGLEN else 0%nat.

(** Encrypting and decrypting from the same state agree and stay in step. *)
Lemma cipher_roundtrip c ad p : CipherState.n c < u64_max -> lenN p <= 65535 ->
  exists c' ct, CipherState.encrypt_with_ad ad p c = (c', Ok ct) /\
    CipherState.decrypt_with_ad ad ct c = (c', Ok p) /\
    length ct = (length p + tag_len c)%nat /\
    CipherState.k c' = CipherState.k c /\
    CipherState.n c' = CipherState.n c + (if keyed c then 1 else 0).
Proof.
  intros Hn Hp. unfold CipherState.encrypt_with_ad, CipherState.decrypt_with_ad, tag_len, keyed.
  destruct (CipherState.k c) as [key|] eqn:Ek.
  - destruct (N.eqb_spec (CipherState.n c) u64_max); [lia|].
    destruct (aead_encrypt_total key (nonce_bytes (CipherState.n c)) ad p Hp) as [ct Hct].
    rewrite Hct. eexists _, ct. rewrite (aead_decrypt_encrypt _ _ _ _ _ Hct). split_and!; try done.
    by apply aead_encrypt_length in Hct.
  - exists c, p. split_and!; [done..|lia|done|lia].
Qed.

Lemma decrypt_length ad ct c c' p : CipherState.decrypt_with_ad ad ct c = (c', Ok p) ->
  length ct = (length p + tag_len c)%nat.
Proof.
  unfold CipherState.decrypt_with_ad, tag_len, keyed. destruct (CipherState.k c) as [key|].
  - destruct (_ =? _); [done|]. destruct (aead_decrypt _ _ _ _) eqn:E; [|done]. intros [= <- <-].
    by apply aead_decrypt_length in E.
  - intros [= <- <-]. lia.
Qed.

(** ** Symmetric state *)

Lemma symmetric_roundtrip x p : CipherState.n (SymmetricState.cipher x) < u64_max -> lenN p <= 65535 ->
  exists x' ct, SymmetricState.encrypt_and_hash p x = (x', Ok ct) /\
    SymmetricState.decrypt_and_hash ct x = (x', Ok p) /\
    length ct = (length p + tag_len (SymmetricState.cipher x))%nat /\
    CipherState.n (SymmetricState.cipher x') <= CipherState.n (SymmetricState.cipher x) + 1 /\
    keyed (SymmetricState.cipher x') = keyed (SymmetricState.cipher x).
Proof.
  intros Hn Hp. destruct (cipher_roundtrip _ (SymmetricState.h x) p Hn Hp) as (c' & ct & He & Hd & Hl & Hk & Hc).
  exists (SymmetricState.mix_hash ct (SymmetricState.set_cipher c' x)), ct.
  unfold SymmetricState.encrypt_and_hash, SymmetricState.decrypt_and_hash, bind, on, modify, ret.
  rewrite He, Hd. split_and!; [done..| |unfold keyed; cbn; by rewrite Hk]. cbn. rewrite Hc.
  destruct (keyed _); lia.
Qed.

(** A freshly keyed symmetric state. *)
Lemma mix_key_fresh ikm x :
  let c := SymmetricState.cipher (SymmetricState.mix_key ikm x) in
  CipherState.n c = 0 /\ keyed c = true.
Proof. done. Qed.

(** ** The honest handshake, message by message *)

Import HandshakeState.

Lemma hs_encrypt hs p x ct : SymmetricState.encrypt_and_hash p (symmetric hs) = (x, Ok ct) ->
  encrypt_and_hash p hs = (set_symmetric x hs, Ok ct).
Proof. unfold encrypt_and_hash, on. by intros ->. Qed.

Lemma hs_decrypt hs p x ct : SymmetricState.decrypt_and_hash ct (symmetric hs) = (x, Ok p) ->
  decrypt_and_hash ct hs = (set_symmetric x hs, Ok p).
Proof. unfold decrypt_and_hash, on. by intros ->. Qed.

(** Run the straight-line part of a method. *)
Ltac run_method :=
  unfold expected_overhead, to_array32, mix_hash, mix_key, bind, lift, modify, ret, DHLEN, TAGLEN in *;
  cbn [step role our_turn_to_write N.eqb N.ltb N.compare Pos.compare Pos.compare_cont Pos.eqb orb negb
       symmetric s e re rs set_symmetric set_re set_rs next_step ok_or].

Lemma message1 x sI eI sR eR p : CipherState.n (SymmetricState.cipher x) < u64_max -> lenN p <= 65535 ->
  length (Keypair.public eI) = 32%nat ->
  exists x' m, write_message p (mk x sI eI None None Initiator 1) = (mk x' sI eI None None Initiator 2, Ok m) /\
    read_message m (mk x sR eR None None Responder 1) =
      (mk x' sR eR (Some (Keypair.public eI)) None Responder 2, Ok p) /\
    length m = (32 + length p + tag_len (SymmetricState.cipher x))%nat.
Proof.
  intros Hn Hp He. destruct (symmetric_roundtrip (SymmetricState.mix_hash (Keypair.public eI) x) p Hn Hp)
    as (x' & ct & Henc & Hdec & Hl & _).
  exists x', (Keypair.public eI ++ ct).
  split_and!; [| |rewrite length_app, He, Hl; cbn; lia].
  - unfold write_message. run_method. rewrite (hs_encrypt _ p x' ct) by exact Henc. reflexivity.
  - unfold read_message. run_method.
    match goal with |- context [lenN _ <? ?m] => destruct (N.ltb_spec (lenN (Keypair.public eI ++ ct)) m) as [Hlt|_] end.
    { unfold lenN in Hlt. rewrite length_app in Hlt. lia. }
    rewrite split_at_len by done. cbn [expect]. rewrite decide_True by done.
    rewrite (hs_decrypt _ p x' ct) by exact Hdec. reflexivity.
Qed.

(** Shared secrets agree. *)
Lemma dh_comm a b : Keypair.public a = x25519_base (Keypair.secret a) ->
  Keypair.public b = x25519_base (Keypair.secret b) ->
  Keypair.dh a (Keypair.public b) = Keypair.dh b (Keypair.public a).
Proof. unfold Keypair.dh. intros -> ->. apply x25519_comm. Qed.

Definition honest (kp : Keypair.t) : Prop := Keypair.public kp = x25519_base (Keypair.secret kp).

Lemma honest_length kp : honest kp -> length (Keypair.public kp) = 32%nat.
Proof. intros ->. apply x25519_base_length. Qed.

Lemma keyed_tag c : keyed c = true -> tag_len c = 16%nat.
Proof. unfold tag_len. by intros ->. Qed.

Lemma static_roundtrip x kp : honest kp -> CipherState.n (SymmetricState.cipher x) = 0 ->
  keyed (SymmetricState.cipher x) = true ->
  exists x' ct, SymmetricState.encrypt_and_hash (Keypair.public kp) x = (x', Ok ct) /\
    SymmetricState.decrypt_and_hash ct x = (x', Ok (Keypair.public kp)) /\ length ct = 48%nat.
Proof.
  intros Hk Hn Hy. pose proof (honest_length kp Hk) as Hl.
  destruct (symmetric_roundtrip x (Keypair.public kp)) as (x' & ct & H1 & H2 & H3 & _).
  - rewrite Hn. reflexivity.
  - unfold lenN. rewrite Hl. lia.
  - exists x', ct. rewrite (keyed_tag _ Hy), Hl in H3. done.
Qed.

Lemma message2 x sI eI sR eR p : lenN p <= 65535 -> honest sI -> honest eI -> honest sR -> honest eR ->
  exists x' m, write_message p (mk x sR eR (Some (Keypair.public eI)) None Responder 2) =
      (mk x' sR eR (Some (Keypair.public eI)) None Responder 3, Ok m) /\
    read_message m (mk x sI eI None None Initiator 2) =
      (mk x' sI eI (Some (Keypair.public eR)) (Some (Keypair.public sR)) Initiator 3, Ok p) /\
    length m = (96 + length p)%nat /\ CipherState.n (SymmetricState.cipher x') <= 1 /\
    keyed (SymmetricState.cipher x') = true.
Proof.
  intros Hp HsI HeI HsR HeR. set (y := SymmetricState.mix_key (Keypair.dh eR (Keypair.public eI))
    (SymmetricState.mix_hash (Keypair.public eR) x)).
  destruct (static_roundtrip y sR) as (y' & ct1 & E1 & D1 & L1); [done..|].
  set (z := SymmetricState.mix_key (Keypair.dh sR (Keypair.public eI)) y').
  destruct (symmetric_roundtrip z p) as (z' & ct2 & E2 & D2 & L2 & Hn & Hk); [done..|].
  rewrite (keyed_tag (SymmetricState.cipher z)) in L2 by done.
  pose proof (honest_length eR HeR) as HlR.
  exists z', ((Keypair.public eR ++ ct1) ++ ct2). split_and!; [| |rewrite !length_app, HlR, L1, L2; cbn; lia|done|done].
  - unfold write_message. run_method. rewrite (hs_encrypt _ _ y' ct1) by exact E1. run_method.
    rewrite (hs_encrypt _ p z' ct2) by exact E2. reflexivity.
  - unfold read_message. run_method.
    match goal with |- context [lenN _ <? ?m] => destruct (N.ltb_spec (lenN ((Keypair.public eR ++ ct1) ++ ct2)) m) as [Hlt|_] end.
    { unfold lenN in Hlt. rewrite !length_app, HlR, L1, L2 in Hlt. cbn in Hlt. lia. }
    rewrite <- app_assoc, split_at_len by done. cbn [expect]. rewrite decide_True by done.
    run_method. rewrite split_at_len by done. cbn [expect].
    rewrite (dh_comm eI eR) by done.
    rewrite (hs_decrypt _ _ y' ct1) by exact D1. rewrite decide_True by by apply honest_length.
    run_method. rewrite (dh_comm eI sR) by done.
    rewrite (hs_decrypt _ p z' ct2) by exact D2. reflexivity.
Qed.

Lemma message3 x sI eI sR eR p : lenN p <= 65535 -> honest sI -> honest eR ->
  CipherState.n (SymmetricState.cipher x) <= 1 -> keyed (SymmetricState.cipher x) = true ->
  exists x' m, write_message p (mk x sI eI (Some (Keypair.public eR)) (Some (Keypair.public sR)) Initiator 3) =
      (mk x' sI eI (Some (Keypair.public eR)) (Some (Keypair.public sR)) Initiator 4, Ok m) /\
    read_message m (mk x sR eR (Some (Keypair.public eI)) None Responder 3) =
      (mk x' sR eR (Some (Keypair.public eI)) (Some (Keypair.public sI)) Responder 4, Ok p) /\
    length m = (64 + length p)%nat.
Proof.
  intros Hp HsI HeR Hn Hk. pose proof (honest_length sI HsI) as HlI.
  destruct (symmetric_roundtrip x (Keypair.public sI)) as (y' & ct1 & E1 & D1 & L1 & _);
    [unfold u64_max; lia|unfold lenN; rewrite HlI; lia|].
  rewrite (keyed_tag _ Hk), HlI in L1.
  set (z := SymmetricState.mix_key (Keypair.dh sI (Keypair.public eR)) y').
  destruct (symmetric_roundtrip z p) as (z' & ct2 & E2 & D2 & L2 & _); [done..|].
  rewrite (keyed_tag (SymmetricState.cipher z)) in L2 by done.
  exists z', (ct1 ++ ct2). split_and!; [| |rewrite !length_app, L1, L2; cbn; lia].
  - unfold write_message. run_method. rewrite (hs_encrypt _ _ y' ct1) by exact E1. run_method.
    rewrite (hs_encrypt _ p z' ct2) by exact E2. reflexivity.
  - unfold read_message. run_method.
    match goal with |- context [lenN _ <? ?m] => destruct (N.ltb_spec (lenN (ct1 ++ ct2)) m) as [Hlt|_] end.
    { unfold lenN in Hlt. rewrite !length_app, L1, L2 in Hlt. cbn in Hlt. lia. }
    rewrite split_at_len by done. cbn [expect].
    rewrite (hs_decrypt _ _ y' ct1) by exact D1. rewrite decide_True by done.
    run_method. rewrite (dh_comm eR sI) by done.
    rewrite (hs_decrypt _ p z' ct2) by exact D2. reflexivity.
Qed.

(** ** Transport ciphers *)

Definition seal (p : bytes) : M CipherState.t bytes :=
  run! TransportState.rekey_if_due; CipherState.encrypt_with_ad [] p.
Definition unseal (ct : bytes) : M CipherState.t bytes :=
  run! TransportState.rekey_if_due; CipherState.decrypt_with_ad [] ct.

Lemma rekey_ok c : keyed c = true ->
  exists c', TransportState.rekey_if_due c = (c', Ok tt) /\ keyed c' = true /\ CipherState.n c' = CipherState.n c.
Proof.
  intros Hk. unfold TransportState.rekey_if_due. destruct (_ && _); [|by exists c].
  unfold CipherState.rekey_preserving_nonce, CipherState.rekey, bind, modify, keyed in *.
  destruct (CipherState.k c) as [key|]; [|done].
  destruct (aead_encrypt_total key (nonce_bytes u64_max) [] (replicate 32 zero_byte)) as [block E]; [done|].
  rewrite E. pose proof (aead_encrypt_length _ _ _ _ _ E) as Hl. cbn in Hl.
  unfold slice. rewrite decide_True by lia. by eexists.
Qed.

Lemma seal_unseal c p : keyed c = true -> CipherState.n c < u64_max -> lenN p <= 65535 ->
  exists c' ct, seal p c = (c', Ok ct) /\ unseal ct c = (c', Ok p) /\ keyed c' = true /\
    CipherState.n c' = CipherState.n c + 1 /\ length ct = (length p + 16)%nat.
Proof.
  intros Hk Hn Hp. destruct (rekey_ok c Hk) as (c1 & E & Hk1 & Hn1). unfold seal, unseal, bind. rewrite E.
  destruct (cipher_roundtrip c1 [] p ltac:(lia) Hp) as (c2 & ct & E1 & E2 & Hl & Hk2 & Hn2).
  exists c2, ct. rewrite Hk1 in Hn2. rewrite (keyed_tag _ Hk1) in Hl. split_and!; [done|done| |lia|done].
  unfold keyed in *. by rewrite Hk2.
Qed.

(** Sealing a list of messages in order. *)
Fixpoint seal_all (c : CipherState.t) (ps : list bytes) : option (CipherState.t * list bytes) :=
  match ps with
  | [] => Some (c, [])
  | p :: rest =>
      match seal p c with
      | (c', Ok ct) => '(c'', cts) ← seal_all c' rest; Some (c'', ct :: cts)
      | _ => None
      end
  end.

Lemma seal_all_snoc c ps c' cts p c'' ct : seal_all c ps = Some (c', cts) -> seal p c' = (c'', Ok ct) ->
  seal_all c (ps ++ [p]) = Some (c'', cts ++ [ct]).
Proof.
  revert c cts. induction ps as [|x ps IH]; intros c cts H Hs; cbn in *.
  - injection H as -> <-. by rewrite Hs.
  - destruct (seal x c) as [c1 [ct1| |]]; [|done..].
    destruct (seal_all c1 ps) as [[c2 cts2]|] eqn:E; [|done]. cbn in H. injection H as -> <-.
    by rewrite (IH _ _ E Hs).
Qed.

(** ** A link under any schedule

    Two endpoints with a queue of ciphertexts towards each; a schedule lets
    either side send a message or take the next ciphertext of its queue. *)

Record endpoint : Type := Endpoint {
  ts : TransportState.t; inbox : list bytes; sent : list bytes; got : list bytes }.

Inductive action : Type := Send (p : bytes) | Recv.

Definition act (x y : endpoint) (a : action) : endpoint * endpoint :=
  match a with
  | Send p =>
      match TransportState.encrypt p (ts x) with
      | (t, Ok ct) => (Endpoint t (inbox x) (sent x ++ [p]) (got x),
                       Endpoint (ts y) (inbox y ++ [ct]) (sent y) (got y))
      | (t, _) => (Endpoint t (inbox x) (sent x) (got x), y)
      end
  | Recv =>
      match inbox x with
      | [] => (x, y)
      | ct :: rest =>
          match TransportState.decrypt ct (ts x) with
          | (t, Ok p) => (Endpoint t rest (sent x) (got x ++ [p]), y)
          | (t, _) => (Endpoint t rest (sent x) (got x), y)
          end
      end
  end.

(** [true] is the first endpoint's turn. *)
Fixpoint exec (x y : endpoint) (sched : list (bool * action)) : endpoint * endpoint :=
  match sched with
  | [] => (x, y)
  | (true, a) :: rest => let '(x', y') := act x y a in exec x' y' rest
  | (false, a) :: rest => let '(y', x') := act y x a in exec x' y' rest
  end.

(** The messages a side sends in a schedule. *)
Definition sends (side : bool) (sched : list (bool * action)) : list bytes :=
  omap (fun ba => match ba.2 with
                  | Send p => if eqb ba.1 side then Some p else None
                  | Recv => None
                  end) sched.

(** What is in flight from [x] to [y] opens to what [x] sent and [y] has
    not got. *)
Definition flow (x y : endpoint) : Prop :=
  TransportState.failed (ts x) = false /\ keyed (TransportState.send (ts x)) = true /\
  keyed (TransportState.recv (ts y)) = true /\
  exists pend, seal_all (TransportState.recv (ts y)) pend = Some (TransportState.send (ts x), inbox y) /\
    sent x = got y ++ pend /\ length (inbox y) = length pend /\ Forall (fun p => lenN p <= 65535) pend /\
    CipherState.n (TransportState.recv (ts y)) + lenN pend = CipherState.n (TransportState.send (ts x)) /\
    CipherState.n (TransportState.send (ts x)) <= u64_max.

Lemma encrypt_ok t p : TransportState.failed t = false -> keyed (TransportState.send t) = true ->
  CipherState.n (TransportState.send t) < u64_max -> lenN p <= 65535 ->
  exists c ct, TransportState.encrypt p t = (TransportState.set_send c t, Ok ct) /\
    seal p (TransportState.send t) = (c, Ok ct) /\ keyed c = true /\
    CipherState.n c = CipherState.n (TransportState.send t) + 1.
Proof.
  intros Hf Hk Hn Hp. destruct (seal_unseal _ _ Hk Hn Hp) as (c & ct & E & _ & Hk' & Hn' & _).
  exists c, ct. unfold TransportState.encrypt, on. rewrite Hf. fold (seal p). by rewrite E.
Qed.

Lemma flow_send x y p : flow x y -> flow y x -> CipherState.n (TransportState.send (ts x)) < u64_max ->
  lenN p <= 65535 ->
  let '(x', y') := act x y (Send p) in
  flow x' y' /\ flow y' x' /\ sent x' = sent x ++ [p] /\ sent y' = sent y /\
  CipherState.n (TransportState.send (ts x')) = CipherState.n (TransportState.send (ts x)) + 1 /\
  TransportState.send (ts y') = TransportState.send (ts y).
Proof.
  intros (Hf & Hks & Hkr & pend & E & Hs & Hl & Hp' & Hn' & Hm) Hyx Hn Hp. cbn [act].
  destruct (encrypt_ok (ts x) p Hf Hks Hn Hp) as (c & ct & -> & Ec & Hkc & Hnc).
  split_and!; [|exact Hyx|done|done|done|done]. split_and!; [done|done|done|].
  exists (pend ++ [p]). cbn [ts inbox sent got TransportState.send TransportState.recv TransportState.set_send].
  split_and!.
  - eapply seal_all_snoc; eauto.
  - by rewrite Hs, app_assoc.
  - rewrite !length_app, Hl. done.
  - apply Forall_app. split; [done|by repeat constructor].
  - rewrite lenN_app. unfold lenN at 2. cbn. lia.
  - lia.
Qed.

Lemma flow_recv x y : flow x y -> flow y x ->
  let '(y', x') := act y x Recv in
  flow x' y' /\ flow y' x' /\ sent x' = sent x /\ sent y' = sent y /\
  TransportState.send (ts x') = TransportState.send (ts x) /\
  TransportState.send (ts y') = TransportState.send (ts y).
Proof.
  intros (Hf & Hks & Hkr & pend & E & Hs & Hl & Hp & Hn & Hm) Hyx. cbn [act].
  destruct (inbox y) as [|ct rest] eqn:Hi.
  - split_and!; [|done..]. split_and!; [done..|]. exists pend. rewrite Hi. done.
  - destruct pend as [|p pend]; [done|]. cbn [seal_all] in E. rewrite lenN_cons in Hn.
    apply Forall_cons in Hp as [Hp1 Hp].
    destruct (seal_unseal (TransportState.recv (ts y)) p Hkr ltac:(lia) Hp1) as (c & ct' & E1 & E2 & Hk' & Hn' & _).
    rewrite E1 in E. destruct (seal_all c pend) as [[c2 cts]|] eqn:E3; [|done]. cbn in E. injection E as -> -> ->.
    pose proof Hyx as (Hfy & _). unfold TransportState.decrypt, on. rewrite Hfy. fold (unseal ct). rewrite E2.
    split_and!; [|exact Hyx|done|done|done|done]. split_and!; [done|done|done|].
    exists pend. cbn [ts inbox sent got TransportState.send TransportState.recv TransportState.set_recv].
    split_and!; [done|by rewrite Hs, <- app_assoc|by injection Hl|done|lia|done].
Qed.

Lemma exec_flow sched x y : flow x y -> flow y x ->
  Forall (fun p => lenN p <= 65535) (sends true sched ++ sends false sched) ->
  CipherState.n (TransportState.send (ts x)) + lenN (sends true sched) <= u64_max ->
  CipherState.n (TransportState.send (ts y)) + lenN (sends false sched) <= u64_max ->
  let '(x', y') := exec x y sched in
  flow x' y' /\ flow y' x' /\ sent x' = sent x ++ sends true sched /\ sent y' = sent y ++ sends false sched.
Proof.
  revert x y. induction sched as [|[side a] sched IH]; intros x y Hxy Hyx Hp Hx Hy.
  { cbn. by rewrite !app_nil_r. }
  destruct side, a as [p|]; cbn [exec]; unfold sends in Hp, Hx, Hy |- *; cbn [omap list_omap eqb fst snd] in Hp, Hx, Hy |- *;
    fold (sends true sched) in *; fold (sends false sched) in *; try rewrite lenN_cons in *.
  - cbn in Hp. apply Forall_cons in Hp as [Hp1 Hp].
    pose proof (flow_send x y p Hxy Hyx ltac:(lia) Hp1) as H. destruct (act x y (Send p)) as [x1 y1].
    destruct H as (H1 & H2 & H3 & H4 & H5 & H6).
    pose proof (IH x1 y1 H1 H2 Hp ltac:(rewrite H5; lia) ltac:(by rewrite H6)) as H.
    destruct (exec x1 y1 sched). rewrite H3, H4, <- app_assoc in H. exact H.
  - pose proof (flow_recv y x Hyx Hxy) as H. destruct (act x y Recv) as [x1 y1].
    destruct H as (H1 & H2 & H3 & H4 & H5 & H6).
    pose proof (IH x1 y1 H2 H1 Hp ltac:(by rewrite H6) ltac:(by rewrite H5)) as H.
    destruct (exec x1 y1 sched). by rewrite H3, H4 in H.
  - assert (Hp1 : lenN p <= 65535 /\ Forall (fun p => lenN p <= 65535) (sends true sched ++ sends false sched)).
    { apply Forall_app in Hp as [Ha Hb]. apply Forall_cons in Hb as [Hb1 Hb]. split; [done|by apply Forall_app]. }
    destruct Hp1 as [Hp1 Hp'].
    pose proof (flow_send y x p Hyx Hxy ltac:(lia) Hp1) as H. destruct (act y x (Send p)) as [y1 x1].
    destruct H as (H1 & H2 & H3 & H4 & H5 & H6).
    pose proof (IH x1 y1 H2 H1 Hp' ltac:(by rewrite H6) ltac:(rewrite H5; lia)) as H.
    destruct (exec x1 y1 sched). rewrite H3, H4, <- app_assoc in H. exact H.
  - pose proof (flow_recv x y Hxy Hyx) as H. destruct (act y x Recv) as [y1 x1].
    destruct H as (H1 & H2 & H3 & H4 & H5 & H6).
    pose proof (IH x1 y1 H1 H2 Hp ltac:(by rewrite H5) ltac:(by rewrite H6)) as H.
    destruct (exec x1 y1 sched). by rewrite H3, H4 in H.
Qed.

(** Two transports over the same pair of keys. *)
Record linked (a b : TransportState.t) : Prop := {
  lk_failed : TransportState.failed a = false /\ TransportState.failed b = false;
  lk_ab : TransportState.send a = TransportState.recv b;
  lk_ba : TransportState.recv a = TransportState.send b;
  lk_keyed : keyed (TransportState.send a) = true /\ keyed (TransportState.send b) = true;
  lk_nonce : CipherState.n (TransportState.send a) <= u64_max /\ CipherState.n (TransportState.send b) <= u64_max }.

Lemma linked_flow a b : linked a b ->
  flow (Endpoint a [] [] []) (Endpoint b [] [] []) /\ flow (Endpoint b [] [] []) (Endpoint a [] [] []).
Proof.
  intros [[H1 H2] H3 H4 [H5 H6] [H7 H8]]. split.
  - split_and!; cbn; [done|done|by rewrite <- H3|]. exists []. cbn. rewrite H3 in *. unfold lenN. split_and!; try done. cbn. lia.
  - split_and!; cbn; [done|done|by rewrite H4|]. exists []. cbn. rewrite H4 in *. unfold lenN. split_and!; try done. cbn. lia.
Qed.

(** ** Totality on arbitrary messages *)

(** A method that does not panic, with its outcome on each exit. *)
Definition runs {S A} (m : M S A) (s : S) (Q : A -> S -> Prop) (E : S -> Prop) : Prop :=
  match m s with
  | (s', Ok a) => Q a s'
  | (s', Err _) => E s'
  | (_, Panic) => False
  end.

Lemma runs_bind {S A B} (m : M S A) (f : A -> M S B) s P Q E :
  runs m s P E -> (forall a s', P a s' -> runs (f a) s' Q E) -> runs (bind m f) s Q E.
Proof. unfold runs, bind. intros H Hf. destruct (m s) as [s' [a| |]]; [by apply Hf|exact H|exact H]. Qed.

Lemma runs_wp {S A B} (m : M S A) (f : A -> M S B) s Q E :
  runs m s (fun a s' => runs (f a) s' Q E) E -> runs (bind m f) s Q E.
Proof. intros H. by eapply runs_bind. Qed.

Lemma runs_mono {S A} (m : M S A) (s : S) (P Q : A -> S -> Prop) (E F : S -> Prop) :
  runs m s P E -> (forall a s', P a s' -> Q a s') -> (forall s', E s' -> F s') -> runs m s Q F.
Proof. unfold runs. destruct (m s) as [s' [a| |]]; auto. Qed.

Lemma runs_ret {S A} (a : A) (s : S) (Q : A -> S -> Prop) E : Q a s -> runs (ret a) s Q E.
Proof. done. Qed.

Lemma runs_lift {S A} (r : S -> result NoiseError.t A) (s : S) a (Q : A -> S -> Prop) E :
  r s = Ok a -> Q a s -> runs (lift r) s Q E.
Proof. unfold runs, lift. by intros ->. Qed.

Lemma runs_modify {S} (f : S -> S) (s : S) (Q : unit -> S -> Prop) E : Q tt (f s) -> runs (modify f) s Q E.
Proof. done. Qed.

(** The fields a handshake method never changes, and the symmetric state. *)
Definition same_but_symmetric (hs hs' : t) : Prop := exists x, hs' = set_symmetric x hs.

Lemma runs_decrypt ct hs : keyed (SymmetricState.cipher (symmetric hs)) = true ->
  runs (decrypt_and_hash ct) hs
    (fun p hs' => (exists x, hs' = set_symmetric x hs /\ keyed (SymmetricState.cipher x) = true) /\ length ct = (length p + 16)%nat)
    (fun hs' => exists x, hs' = set_symmetric x hs /\ keyed (SymmetricState.cipher x) = true).
Proof.
  intros Hk. unfold runs, decrypt_and_hash, on, SymmetricState.decrypt_and_hash, bind, on, modify, ret.
  set (c := SymmetricState.cipher (symmetric hs)) in *.
  assert (Hkeep : forall c' r, CipherState.decrypt_with_ad (SymmetricState.h (symmetric hs)) ct c = (c', r) ->
    keyed c' = true /\ r <> Panic).
  { intros c' r. unfold CipherState.decrypt_with_ad. destruct (CipherState.k c) as [key|] eqn:Ek; [|by intros [= <- <-]].
    destruct (_ =? _); [by intros [= <- <-]|]. destruct (aead_decrypt _ _ _ _); by intros [= <- <-]. }
  destruct (CipherState.decrypt_with_ad _ ct c) as [c' r] eqn:E. destruct (Hkeep _ _ eq_refl) as [Hk' Hr].
  destruct r as [p| |]; [|by eexists|done].
  apply decrypt_length in E. rewrite (keyed_tag _ Hk) in E. split; [by eexists|done].
Qed.

(** An unkeyed cipher reads the first message. *)
Lemma runs_decrypt_plain ct hs : keyed (SymmetricState.cipher (symmetric hs)) = false ->
  runs (decrypt_and_hash ct) hs (fun p hs' => exists x, hs' = set_symmetric x hs) (fun _ => False).
Proof.
  intros Hk. unfold runs, decrypt_and_hash, on, SymmetricState.decrypt_and_hash, bind, on, modify, ret,
    CipherState.decrypt_with_ad, keyed in *.
  destruct (CipherState.k _); [done|]. by eexists.
Qed.

(** What each step of the pattern has already established. *)
Definition hs_wf (hs : t) : Prop :=
  (step hs = 1 /\ keyed (SymmetricState.cipher (symmetric hs)) = false) \/
  (step hs = 2 /\ (role hs = Responder -> is_Some (re hs))) \/
  (step hs = 3 /\ keyed (SymmetricState.cipher (symmetric hs)) = true /\ is_Some (re hs) /\
    (role hs = Initiator -> is_Some (rs hs))) \/
  (step hs = 4 /\ is_Some (rs hs)).

Lemma hs_wf_new r sk ek prologue : hs_wf (new_xx r sk ek prologue).
Proof. left. split; [done|]. reflexivity. Qed.

Lemma runs_encrypt p hs :
  runs (encrypt_and_hash p) hs
    (fun _ hs' => exists x, hs' = set_symmetric x hs /\
       keyed (SymmetricState.cipher x) = keyed (SymmetricState.cipher (symmetric hs)))
    (fun hs' => (exists x, hs' = set_symmetric x hs /\
       keyed (SymmetricState.cipher x) = keyed (SymmetricState.cipher (symmetric hs))) /\
       keyed (SymmetricState.cipher (symmetric hs)) = true).
Proof.
  unfold runs, encrypt_and_hash, on, SymmetricState.encrypt_and_hash, bind, on, modify, ret.
  set (c := SymmetricState.cipher (symmetric hs)).
  unfold CipherState.encrypt_with_ad. destruct (CipherState.k c) as [key|] eqn:Ek; [|by eexists; split].
  assert (Hk : keyed c = true) by (unfold keyed; by rewrite Ek).
  destruct (_ =? _); [split; [by eexists; split|done]|].
  destruct (aead_encrypt _ _ _ _); [|split; [by eexists; split|done]].
  eexists. split; [done|]. unfold keyed. cbn. done.
Qed.

Lemma runs_array32 {S} (bs : bytes) (s : S) (Q : bytes -> S -> Prop) E :
  length bs = 32%nat -> Q bs s -> runs (to_array32 bs) s Q E.
Proof. intros Hl. apply runs_lift. by rewrite decide_True. Qed.

Lemma runs_split {A B} n (l : list A) (s : B) Q E : (n <= length l)%nat ->
  (forall a b, length a = n -> length b = (length l - n)%nat -> Q (a, b) s) ->
  runs (lift (fun _ => expect (split_at n l))) s Q E.
Proof.
  intros Hl HQ. apply (runs_lift _ _ (take n l, drop n l)).
  - unfold split_at. by rewrite decide_True.
  - apply HQ; [rewrite length_take; lia|apply length_drop].
Qed.

(** The end of a received message: its payload, then the next step. *)
Lemma runs_payload ct hs n : keyed (SymmetricState.cipher (symmetric hs)) = true ->
  (n = step hs) -> (forall x, keyed (SymmetricState.cipher x) = true ->
     hs_wf (set_symmetric x hs) /\ hs_wf (next_step (set_symmetric x hs))) ->
  runs (do! payload := decrypt_and_hash ct in run! modify next_step; ret payload) hs
    (fun _ hs' => hs_wf hs' /\ step hs' = n + 1) (fun hs' => hs_wf hs' /\ step hs' = n).
Proof.
  intros Hk -> Hw. eapply runs_bind.
  - pose proof (runs_decrypt ct hs Hk) as H. unfold runs in *. destruct (decrypt_and_hash ct hs) as [hs' [p| |]]; [exact H| |done].
    destruct H as (x & -> & Hx). split; [by apply Hw|done].
  - intros p hs' [(x & -> & Hx) _]. split; [by apply Hw|done].
Qed.

Lemma runs_ext {S A} (m m' : M S A) (s : S) Q E : m s = m' s -> runs m' s Q E -> runs m s Q E.
Proof. unfold runs. by intros ->. Qed.

Ltac eval_step := cbn [step role our_turn_to_write N.eqb N.ltb N.compare Pos.compare Pos.compare_cont Pos.eqb orb negb].

Ltac split_len := unfold DHLEN, TAGLEN in *; lia.

Ltac read_body :=
  eapply runs_ext; [unfold read_message; match goal with H : our_turn_to_write _ = false |- _ => rewrite H end;
    unfold expected_overhead; eval_step;
    match goal with |- context [lenN ?m <? ?k] => destruct (N.ltb_spec (lenN m) k) as [?|_] end;
    [exfalso; unfold lenN in *; lia|reflexivity]|].

Lemma read_total hs m : hs_wf hs -> step hs <> 4 -> our_turn_to_write hs = false ->
  runs (read_message m) hs
    (fun _ hs' => hs_wf hs' /\ step hs' = step hs + 1) (fun hs' => hs_wf hs' /\ step hs' = step hs).
Proof.
  intros Hw H4 Ht.
  destruct (decide (lenN m < (if step hs =? 1 then 32 else expected_overhead hs))) as [Hs|Hs].
  { assert (H3 : 3 <? step hs = false) by (apply N.ltb_ge; unfold hs_wf in Hw; lia).
    unfold runs, read_message. rewrite Ht, H3. cbn [orb].
    destruct (N.ltb_spec (lenN m) (if step hs =? 1 then 32 else expected_overhead hs)); [done|lia]. }
  destruct hs as [x sk ek re0 rs0 ro st]. cbn [step] in *. unfold expected_overhead in Hs. cbn [step] in Hs.
  destruct Hw as [[E Hk]|[[E Hr]|[(E & Hk & Hr & _)|[E _]]]]; cbn [step symmetric re rs] in *; [| | |done]; subst st;
    cbn [N.eqb Pos.eqb] in Hs; unfold lenN in Hs.
  - read_body. apply runs_wp, runs_wp, runs_split; [split_len|]. intros a b Ha Hb.
    apply runs_wp, runs_array32; [done|]. repeat (apply runs_wp, runs_modify). apply runs_ret, runs_wp.
    eapply runs_mono; [by apply runs_decrypt_plain| |done].
    intros p hs' [y ->]. apply runs_wp, runs_modify, runs_ret. split; [|done]. right; left. split; [done|]. by eexists.
  - read_body. apply runs_wp, runs_wp, runs_split; [split_len|]. intros a b Ha Hb.
    apply runs_wp, runs_array32; [done|]. repeat (apply runs_wp, runs_modify).
    apply runs_wp, runs_split; [split_len|]. intros c d Hc Hd.
    apply runs_wp. eapply runs_mono; [by apply runs_decrypt| |].
    + intros p hs' [(y & -> & Hy) Hl]. apply runs_wp, runs_array32; [split_len|].
      repeat (apply runs_wp, runs_modify). apply runs_ret.
      apply runs_payload; [done|done|]. intros z Hz. split; [by right; left|].
      right; right; left. split_and!; [done|done|by eexists|by eexists].
    + intros hs' (y & -> & Hy). split; [|done]. right; left. split; [done|by eexists].
  - read_body. apply runs_wp, runs_wp, runs_split; [split_len|]. intros c d Hc Hd.
    apply runs_wp. eapply runs_mono; [by apply runs_decrypt| |].
    + intros p hs' [(y & -> & Hy) Hl]. apply runs_wp, runs_array32; [split_len|].
      repeat (apply runs_wp, runs_modify). apply runs_ret.
      apply runs_payload; [done|done|]. intros z Hz. split; [|by right; right; right; split; [|eexists]].
      right; right; left. split_and!; [done|done|done|by eexists].
    + intros hs' (y & -> & Hy). split; [|done]. right; right; left. split_and!; [done|done|done|].
      cbn in *. intros ->. done.
Qed.

Ltac write_body :=
  eapply runs_ext; [unfold write_message; match goal with H : our_turn_to_write _ = true |- _ => rewrite H end;
    eval_step; reflexivity|].

Lemma write_total hs p : hs_wf hs -> our_turn_to_write hs = true ->
  runs (write_message p) hs
    (fun _ hs' => hs_wf hs' /\ step hs' = step hs + 1) (fun hs' => hs_wf hs' /\ step hs' = step hs).
Proof.
  intros Hw Ht. destruct hs as [x sk ek re0 rs0 ro st]. cbn [step] in *.
  destruct Hw as [[E Hk]|[[E Hr]|[(E & Hk & Hr & Hs)|[E _]]]]; cbn [step symmetric re rs role] in *; subst st.
  - write_body. apply runs_wp, runs_wp, runs_modify, runs_ret, runs_wp.
    eapply runs_mono; [apply runs_encrypt| |].
    + intros ct hs' (y & -> & Hy). apply runs_wp, runs_modify, runs_ret. split; [|done].
      right; left. split; [done|]. destruct ro; [done|discriminate Ht].
    + intros hs' [_ Hc]. exfalso. cbn in Hc, Hk. congruence.
  - destruct ro; [discriminate Ht|]. destruct (Hr eq_refl) as [r ->]. write_body.
    apply runs_wp, runs_wp, runs_modify, runs_wp, (runs_lift _ _ r); [done|]. apply runs_wp, runs_modify, runs_wp.
    eapply runs_mono; [apply runs_encrypt| |].
    + intros c hs' (y & -> & Hy). apply runs_wp, runs_modify, runs_ret, runs_wp.
      eapply runs_mono; [apply runs_encrypt| |].
      * intros ct hs' (z & -> & Hz). apply runs_wp, runs_modify, runs_ret. split; [|done].
        right; right; left. split_and!; [done|exact Hz|by eexists|done].
      * intros hs' [(z & -> & _) _]. split; [|done]. right; left. by split; [|eexists].
    + intros hs' [(y & -> & _) _]. split; [|done]. right; left. by split; [|eexists].
  - destruct ro; [|discriminate Ht]. destruct Hr as [r ->]. destruct (Hs eq_refl) as [r' ->]. write_body.
    apply runs_wp, runs_wp. eapply runs_mono; [apply runs_encrypt| |].
    + intros c hs' (y & -> & Hy). apply runs_wp, (runs_lift _ _ r); [done|]. apply runs_wp, runs_modify, runs_ret, runs_wp.
      eapply runs_mono; [apply runs_encrypt| |].
      * intros ct hs' (z & -> & Hz). apply runs_wp, runs_modify, runs_ret. split; [|done].
        right; right; right. by split; [|eexists].
      * intros hs' [(z & -> & Hz) _]. split; [|done]. right; right; left. split_and!; [done|exact Hz|by eexists|by eexists].
    + intros hs' [(y & -> & Hy) _]. split; [|done]. right; right; left. split_and!; [done|exact (eq_trans Hy Hk)|by eexists|by eexists].
  - destruct ro; discriminate Ht.
Qed.

(** *** Lengths of the keys and of the messages written *)

Definition hs_keys (hs : t) : Prop :=
  length (Keypair.public (s hs)) = 32%nat /\ length (Keypair.public (e hs)) = 32%nat.

(** A method that leaves [f] of the state alone. *)
Definition preserves {S A B} (f : S -> B) (m : M S A) : Prop := forall x, f (m x).1 = f x.

Lemma preserves_bind {S A B C} (f : S -> C) (m : M S A) (g : A -> M S B) :
  preserves f m -> (forall a, preserves f (g a)) -> preserves f (bind m g).
Proof.
  intros Hm Hg x. unfold bind. specialize (Hm x). destruct (m x) as [x' [a| |]]; cbn in *; [|done..].
  by rewrite (Hg a x').
Qed.

Lemma preserves_modify {S C} (f : S -> C) (g : S -> S) : (forall x, f (g x) = f x) -> preserves f (modify g).
Proof. intros H x. apply H. Qed.

Lemma preserves_lift {S A C} (f : S -> C) (r : S -> result NoiseError.t A) : preserves f (lift r).
Proof. done. Qed.

Lemma preserves_ret {S A C} (f : S -> C) (a : A) : preserves f (ret a).
Proof. done. Qed.

Lemma preserves_on {S T A C} (f : S -> C) (get : S -> T) set (m : M T A) :
  (forall t x, f (set t x) = f x) -> preserves f (on get set m).
Proof. intros H x. unfold on. destruct (m (get x)). apply H. Qed.

Definition pair_of (hs : t) : Keypair.t * Keypair.t * Role := (s hs, e hs, role hs).

Ltac preserving :=
  repeat first [apply preserves_ret | apply preserves_lift | by apply preserves_on | by apply preserves_modify
    | apply preserves_bind; [|intros ?]
    | match goal with |- preserves _ (let '(_, _) := ?p in _) => destruct p end
    | match goal with |- preserves _ (if ?b then _ else _) => destruct b end ].

Lemma read_keeps_keys m hs : pair_of (read_message m hs).1 = pair_of hs.
Proof.
  unfold read_message. destruct (_ || _); [done|]. destruct (_ <? _); [done|].
  match goal with |- pair_of (?m ?x).1 = _ => assert (H : preserves pair_of m); [|exact (H x)] end.
  unfold mix_hash, mix_key, decrypt_and_hash, to_array32. preserving.
Qed.

Lemma write_keeps_keys p hs : pair_of (write_message p hs).1 = pair_of hs.
Proof.
  unfold write_message. destruct (_ || _); [done|].
  match goal with |- pair_of (?m ?x).1 = _ => assert (H : preserves pair_of m); [|exact (H x)] end.
  unfold mix_hash, mix_key, encrypt_and_hash. preserving.
Qed.

(** What a method returns when it succeeds. *)
Definition gives {S A} (m : M S A) (Q : A -> Prop) : Prop := forall x x' a, m x = (x', Ok a) -> Q a.

Lemma gives_bind {S A B} (m : M S A) (f : A -> M S B) P Q :
  gives m P -> (forall a, P a -> gives (f a) Q) -> gives (bind m f) Q.
Proof.
  intros Hm Hf x x' b. unfold bind. destruct (m x) as [x1 [a| |]] eqn:E; [|done..].
  intros E'. eapply Hf; [by eapply Hm|done].
Qed.

Lemma gives_any {S A} (m : M S A) : gives m (fun _ => True).
Proof. done. Qed.

Lemma gives_ret {S A} (a : A) (Q : A -> Prop) : Q a -> gives (S := S) (ret a) Q.
Proof. intros H x x' b [= _ <-]. done. Qed.

Lemma gives_encrypt p : gives (encrypt_and_hash p) (fun ct => (length ct <= length p + 16)%nat).
Proof.
  intros x x' ct. unfold encrypt_and_hash, on, SymmetricState.encrypt_and_hash, bind, on, modify, ret,
    CipherState.encrypt_with_ad. destruct (CipherState.k _) as [key|]; [|intros [= _ <-]; lia].
  destruct (_ =? _); [done|]. destruct (aead_encrypt _ _ _ _) eqn:E; [|done].
  intros [= _ <-]. apply aead_encrypt_length in E. lia.
Qed.

Lemma write_length p hs hs' m : hs_keys hs -> write_message p hs = (hs', Ok m) -> (length m <= 96 + length p)%nat.
Proof.
  intros [Hs He]. unfold write_message. destruct (_ || _); [done|].
  match goal with |- ?m0 hs = _ -> _ => assert (H : gives m0 (fun m => (length m <= 96 + length p)%nat)); [|by intros; eapply H] end.
  eapply (gives_bind _ _ (fun out => (length out <= 80)%nat)).
  - repeat match goal with |- gives (if ?b then _ else _) _ => destruct b end; [| | |by intros ???].
    + eapply gives_bind; [apply gives_any|intros _ _]. apply gives_ret. lia.
    + do 3 (eapply gives_bind; [apply gives_any|intros ? _]).
      eapply gives_bind; [apply gives_encrypt|intros c Hc]. eapply gives_bind; [apply gives_any|intros _ _].
      apply gives_ret. rewrite length_app. cbn beta in Hc. lia.
    + eapply gives_bind; [apply gives_encrypt|intros c Hc]. do 2 (eapply gives_bind; [apply gives_any|intros ? _]).
      apply gives_ret. cbn beta in Hc. lia.
  - intros out Ho. eapply gives_bind; [apply gives_encrypt|intros c Hc]. eapply gives_bind; [apply gives_any|intros _ _].
    apply gives_ret. rewrite length_app. cbn beta in Hc. lia.
Qed.

(** ** The properties *)

(** C13: the XX handshake. Two honest sides that exchange the three messages,
    with any payloads, read each other's payloads, send messages of exactly
    the expected lengths, finish, and convert into transports over the same
    two keys and the same handshake hash, each holding the other's static
    public key. *)
Theorem noise_handshake sI eI sR eR prologue p1 p2 p3 :
  honest sI -> honest eI -> honest sR -> honest eR ->
  lenN p1 <= 65535 -> lenN p2 <= 65535 -> lenN p3 <= 65535 ->
  exists i1 r1 i2 r2 i3 r3 m1 m2 m3 tI tR,
    write_message p1 (new_xx Initiator sI eI prologue) = (i1, Ok m1) /\
    read_message m1 (new_xx Responder sR eR prologue) = (r1, Ok p1) /\
    write_message p2 r1 = (r2, Ok m2) /\ read_message m2 i1 = (i2, Ok p2) /\
    write_message p3 i2 = (i3, Ok m3) /\ read_message m3 r2 = (r3, Ok p3) /\
    lenN m1 = 32 + lenN p1 /\ lenN m2 = expected_overhead i1 + lenN p2 /\
    lenN m3 = expected_overhead r2 + lenN p3 /\
    into_transport i3 = Ok (tI, Keypair.public sR) /\ into_transport r3 = Ok (tR, Keypair.public sI) /\
    linked tI tR /\ TransportState.hash tI = TransportState.hash tR /\
    handshake_hash i3 = TransportState.hash tI /\
    CipherState.n (TransportState.send tI) = 0 /\ CipherState.n (TransportState.send tR) = 0.
Proof.
  intros HsI HeI HsR HeR H1 H2 H3. unfold new_xx.
  set (x := SymmetricState.mix_hash prologue SymmetricState.new_for_protocol).
  destruct (message1 x sI eI sR eR p1) as (x1 & m1 & W1 & R1 & L1); [done|done|by apply honest_length|].
  destruct (message2 x1 sI eI sR eR p2) as (x2 & m2 & W2 & R2 & L2 & Hn & Hk); [done..|].
  destruct (message3 x2 sI eI sR eR p3) as (x3 & m3 & W3 & R3 & L3); [done..|].
  change (tag_len (SymmetricState.cipher x)) with 0%nat in L1.
  do 11 eexists. split_and!; [exact W1|exact R1|exact W2|exact R2|exact W3|exact R3|..].
  - unfold lenN. lia.
  - unfold lenN. change (expected_overhead _) with 96. lia.
  - unfold lenN. change (expected_overhead _) with 64. lia.
  - reflexivity.
  - reflexivity.
  - split; cbn; [done|done|done|done|]. unfold u64_max. lia.
  - reflexivity.
  - reflexivity.
  - reflexivity.
  - reflexivity.
Qed.

(** C14: the transport channel. Over two linked transports and any schedule of
    sends and receives on both sides, as long as neither side's nonces run
    out, no operation fails and each side has got, in order, a prefix of
    what the other has sent: everything but what is still in flight, across
    any number of rekeys. *)
Theorem noise_channel a b sched : linked a b ->
  Forall (fun p => lenN p <= 65535) (sends true sched ++ sends false sched) ->
  CipherState.n (TransportState.send a) + lenN (sends true sched) <= u64_max ->
  CipherState.n (TransportState.send b) + lenN (sends false sched) <= u64_max ->
  let '(x, y) := exec (Endpoint a [] [] []) (Endpoint b [] [] []) sched in
  TransportState.failed (ts x) = false /\ TransportState.failed (ts y) = false /\
  (exists flying, sends true sched = got y ++ flying /\ length flying = length (inbox y)) /\
  (exists flying, sends false sched = got x ++ flying /\ length flying = length (inbox x)).
Proof.
  intros Hl Hp Ha Hb. destruct (linked_flow a b Hl) as [Hxy Hyx].
  pose proof (exec_flow sched _ _ Hxy Hyx Hp Ha Hb) as H. destruct (exec _ _ sched) as [x y].
  destruct H as ((Hf & _ & _ & pend & _ & Hs & Hlen & _) & (Hf' & _ & _ & pend' & _ & Hs' & Hlen' & _) & Hsx & Hsy).
  cbn in Hsx, Hsy. split_and!; [done|done| |].
  - exists pend. split; [by rewrite <- Hsx|done].
  - exists pend'. split; [by rewrite <- Hsy|done].
Qed.

(** A failed decryption is terminal. Whatever error [decrypt] returns, the
    state then refuses every later message in both directions without
    changing; and the reserved nonce never encrypts or decrypts a message. *)
Theorem noise_terminal t ct p :
  (forall t' e, TransportState.decrypt ct t = (t', Err e) ->
     TransportState.failed t' = true \/ (TransportState.failed t = true /\ t' = t)) /\
  (TransportState.failed t = true ->
     TransportState.encrypt p t = (t, Err NoiseError.DecryptFailed) /\
     TransportState.decrypt ct t = (t, Err NoiseError.DecryptFailed)) /\
  (forall c, keyed c = true -> CipherState.n c = u64_max ->
     CipherState.encrypt_with_ad [] p c = (c, Err NoiseError.NonceExhausted) /\
     CipherState.decrypt_with_ad [] ct c = (c, Err NoiseError.NonceExhausted)).
Proof.
  split_and!.
  - intros t' e. unfold TransportState.decrypt. destruct (TransportState.failed t) eqn:Hf.
    + intros [= <- <-]. by right.
    + destruct (on _ _ _ t) as [t1 [q|e1|]]; [done| |done]. intros [= <- <-]. by left.
  - intros Hf. unfold TransportState.encrypt, TransportState.decrypt. by rewrite Hf.
  - intros c Hk Hn. unfold CipherState.encrypt_with_ad, CipherState.decrypt_with_ad, keyed in *.
    destruct (CipherState.k c); [|done]. by rewrite Hn.
Qed.

(** C35: the handshake is total on hostile input. From any state the pattern
    can be in, neither reading arbitrary bytes nor writing any payload
    panics; a success moves to the next step, a failure keeps the step, out
    of turn nothing changes, and a finished state converts. *)
Theorem noise_handshake_total hs m : hs_wf hs ->
  (our_turn_to_write hs = false -> step hs <> 4 ->
     runs (read_message m) hs
       (fun _ hs' => hs_wf hs' /\ step hs' = step hs + 1) (fun hs' => hs_wf hs' /\ step hs' = step hs)) /\
  (our_turn_to_write hs = true ->
     runs (write_message m) hs
       (fun _ hs' => hs_wf hs' /\ step hs' = step hs + 1) (fun hs' => hs_wf hs' /\ step hs' = step hs)) /\
  (our_turn_to_write hs = true \/ step hs = 4 -> read_message m hs = (hs, Err NoiseError.OutOfOrder)) /\
  (our_turn_to_write hs = false -> write_message m hs = (hs, Err NoiseError.OutOfOrder)) /\
  (if is_finished hs then is_Ok (into_transport hs) else into_transport hs = Err NoiseError.OutOfOrder).
Proof.
  intros Hw. split_and!; [by intros; apply read_total|by intros; apply write_total| | |].
  - intros [Ht|Hs]; unfold read_message; [by rewrite Ht, orb_true_r|by rewrite Hs].
  - intros Ht. unfold write_message. by rewrite Ht, orb_true_r.
  - unfold into_transport, is_finished. destruct (N.ltb_spec 3 (step hs)); cbn [negb]; [|done].
    assert (is_Some (rs hs)) as [r ->] by (unfold hs_wf in Hw; intuition lia).
    destruct (SymmetricState.split _) as [[c1 c2] h]. by eexists.
Qed.

(** What a user compares: a printed fingerprint is 64 lower-case digits, and
    two keys print alike only when their fingerprints are the same. *)
Theorem fingerprint_display_faithful pk pk' :
  let print k := Keypair.fingerprint_display (Keypair.fingerprint_of k) in
  String.length (print pk) = 64%nat /\
  Forall (fun c => HexDigits.is_digit c = true) (String.list_ascii_of_string (print pk)) /\
  (print pk = print pk' -> Keypair.fingerprint_of pk = Keypair.fingerprint_of pk').
Proof.
  cbv zeta. unfold Keypair.fingerprint_display. split; [|split].
  - rewrite HexDigits.encode_length. unfold Keypair.fingerprint_of. by rewrite sha256_length.
  - apply HexDigits.encode_digits.
  - apply HexDigits.encode_inj.
Qed.

End Spec.

(** ** Concrete instances *)

Import HandshakeState.

Definition sample_keys (n : N) : Keypair.t := Keypair.from_secret_bytes (replicate 32 (byte_of n)).

Lemma noise_handshake_witness :
  exists i3 tI m1, write_message [] (new_xx Initiator (sample_keys 17) (sample_keys 51) [byte_of 7]) = m1 /\
    into_transport i3 = Ok (tI, Keypair.public (sample_keys 34)) /\ keyed (TransportState.send tI) = true.
Proof.
  destruct (noise_handshake (sample_keys 17) (sample_keys 51) (sample_keys 34) (sample_keys 68) [byte_of 7] [] [] [])
    as (i1 & r1 & i2 & r2 & i3 & r3 & m1 & m2 & m3 & tI & tR & W1 & _ & _ & _ & _ & _ & _ & _ & _ & HI & _ & HL & _);
    try reflexivity; try (unfold lenN; cbn; lia).
  exists i3, tI, (i1, Ok m1). split; [exact W1|]. split; [exact HI|]. apply HL.
Defined.

Definition sample_cipher (n : N) : CipherState.t := CipherState.mk (Some (replicate 32 (byte_of n))) 1023.
Definition sample_link : TransportState.t * TransportState.t :=
  (TransportState.new (sample_cipher 1) (sample_cipher 2) [], TransportState.new (sample_cipher 2) (sample_cipher 1) []).

(** The schedule crosses the rekey before nonce 1024 with two messages in
    flight. *)
Definition sample_schedule : list (bool * action) :=
  [(true, Send [byte_of 1]); (true, Send [byte_of 2]); (false, Send [byte_of 3]); (false, Recv);
   (true, Recv); (false, Recv); (true, Send [byte_of 4])].

Lemma noise_channel_witness :
  let '(x, y) := exec (Endpoint sample_link.1 [] [] []) (Endpoint sample_link.2 [] [] []) sample_schedule in
  got y = [[byte_of 1]; [byte_of 2]] /\
  exists flying, sends true sample_schedule = got y ++ flying /\ length flying = length (inbox y).
Proof.
  assert (Hl : linked sample_link.1 sample_link.2) by (split; cbn; solve_bounds).
  pose proof (noise_channel sample_link.1 sample_link.2 sample_schedule Hl
    ltac:(repeat constructor; vm_compute; discriminate) ltac:(vm_compute; discriminate) ltac:(vm_compute; discriminate)) as H.
  assert (Hg : got (exec (Endpoint sample_link.1 [] [] []) (Endpoint sample_link.2 [] [] []) sample_schedule).2 =
    [[byte_of 1]; [byte_of 2]]) by (vm_compute; reflexivity).
  destruct (exec _ _ sample_schedule) as [x y]. split; [exact Hg|]. apply H.
Defined.

Lemma noise_handshake_total_witness :
  let hs := new_xx Responder (sample_keys 34) (sample_keys 68) [] in
  (read_message [byte_of 1] hs).2 = Err NoiseError.BadMessage /\
  runs (read_message [byte_of 1]) hs
    (fun _ hs' => hs_wf hs' /\ step hs' = step hs + 1) (fun hs' => hs_wf hs' /\ step hs' = step hs).
Proof.
  intros hs. split; [vm_compute; reflexivity|].
  refine (proj1 (noise_handshake_total hs [byte_of 1] _) _ _); [apply hs_wf_new|reflexivity|discriminate].
Defined.
