(* ===== verification/Driver.v ===== *)
(** * The link driver: link/driver.rs

    One link as a state machine: the HELLO exchange, the XX handshake and the
    transport epoch. A call takes the driver (and, when bytes arrive, the
    entry store) to the new ones with the frames to write and the events;
    [None] is an abort of the program. *)
From S2P Require Import Prelude Errors Pad Crypto Cbor Entry Msg Frame Store Session Noise.
Open Scope N_scope.

Definition WIRE_VERSION : N := 1.
Definition MAX_LIFETIME_US : N := 86400000000.

Module LinkDriverConfig.
Record t : Type := mk {
  versions : list N;
  features : N;
  transports : list N;
  max_lifetime_us : N;
  handshake_timeout_us : N;
  sync : SyncConfig.t;
}.
Definition default : t := mk [WIRE_VERSION] 0 [1] MAX_LIFETIME_US 30000000 SyncConfig.default.
End LinkDriverConfig.

Inductive CloseReason : Type :=
  | VersionIncompatible
  | HandshakeFailed
  | HandshakeTimeout
  | BadCiphertextLength
  | DecryptFailed
  | ProtocolViolation (code : N)
  | PeerError (code : N)
  | LifetimeExpired
  | NonceExhausted.

Inductive LinkEvent : Type :=
  | Established (remote : bytes)
  | Sync (e : SyncEvent)
  | Closed (reason : CloseReason).

Module LinkOutput.
Record t : Type := mk { frames : list bytes; events : list LinkEvent }.
Definition default : t := mk [] [].
Definition push_frame (f : bytes) (o : t) : t := mk (frames o ++ [f]) (events o).
Definition push_events (es : list LinkEvent) (o : t) : t := mk (frames o) (events o ++ es).
End LinkOutput.

Inductive LinkError : Type :=
  | NotEstablished
  | NotPermitted
  | SyncRefused (e : SyncError.t).

Inductive LinkState : Type :=
  | AwaitPeerHello
  | Handshaking (hs : HandshakeState.t)
  | Transport (ts : TransportState.t)
  | LinkClosed (reason : CloseReason).

Section EncryptFrame.
Context {cbor : Cbor} {crypto : Crypto}.

(** Pad, encrypt, prefix with the two length octets. *)
Definition encrypt_frame (msg : Message) : M TransportState.t bytes :=
  do! plaintext := lift (fun _ => map_err (fun _ => NoiseError.BadMessage) (encode_message msg)) in
  do! ciphertext := TransportState.encrypt plaintext in
  ret (be_bytes 2 (lenN ciphertext) ++ ciphertext).

End EncryptFrame.

Module LinkDriver.

Record t : Type := mk {
  role : LinkRole;
  state : LinkState;
  config : LinkDriverConfig.t;
  decoder : FrameDecoder.t;
  syncer : Syncer.t;
  keys : option (Keypair.t * Keypair.t);
  our_hello_body : bytes;
  remote_fingerprint : option bytes;
  negotiated_version : option N;
  opened_at_us : N;
}.

Definition set_state (st : LinkState) (d : t) : t :=
  mk (role d) st (config d) (decoder d) (syncer d) (keys d) (our_hello_body d) (remote_fingerprint d)
     (negotiated_version d) (opened_at_us d).
Definition set_decoder (x : FrameDecoder.t) (d : t) : t :=
  mk (role d) (state d) (config d) x (syncer d) (keys d) (our_hello_body d) (remote_fingerprint d)
     (negotiated_version d) (opened_at_us d).
Definition set_syncer (x : Syncer.t) (d : t) : t :=
  mk (role d) (state d) (config d) (decoder d) x (keys d) (our_hello_body d) (remote_fingerprint d)
     (negotiated_version d) (opened_at_us d).
Definition clear_keys (d : t) : t :=
  mk (role d) (state d) (config d) (decoder d) (syncer d) None (our_hello_body d) (remote_fingerprint d)
     (negotiated_version d) (opened_at_us d).
Definition set_our_hello_body (x : bytes) (d : t) : t :=
  mk (role d) (state d) (config d) (decoder d) (syncer d) (keys d) x (remote_fingerprint d)
     (negotiated_version d) (opened_at_us d).
Definition set_remote_fingerprint (x : bytes) (d : t) : t :=
  mk (role d) (state d) (config d) (decoder d) (syncer d) (keys d) (our_hello_body d) (Some x)
     (negotiated_version d) (opened_at_us d).
Definition set_negotiated_version (x : N) (d : t) : t :=
  mk (role d) (state d) (config d) (decoder d) (syncer d) (keys d) (our_hello_body d) (remote_fingerprint d)
     (Some x) (opened_at_us d).

Definition new (role : LinkRole) (static_keys ephemeral : Keypair.t) (config : LinkDriverConfig.t) (now_us : N) : t :=
  mk role AwaitPeerHello config FrameDecoder.new (Syncer.new role (LinkDriverConfig.sync config))
     (Some (static_keys, ephemeral)) [] None None now_us.

Definition is_established (d : t) : bool := match state d with Transport _ => true | _ => false end.
Definition is_closed (d : t) : bool := match state d with LinkClosed _ => true | _ => false end.
Definition close_reason (d : t) : option CloseReason :=
  match state d with LinkClosed reason => Some reason | _ => None end.

(** The driver and the output of the call in progress. *)
Definition acc : Type := t * LinkOutput.t.

(** Drop everything queued, emit only the event. *)
Definition close_silently (reason : CloseReason) (a : acc) : acc :=
  let '(d, out) := a in
  (clear_keys (set_state (LinkClosed reason) d),
   LinkOutput.mk [] (LinkOutput.events out ++ [Closed reason])).

Definition check_timeouts (now_us : N) (a : acc) : acc * bool :=
  let '(d, out) := a in
  if is_closed d then (a, true)
  else if negb (is_established d) && (LinkDriverConfig.handshake_timeout_us (config d) <=? now_us - opened_at_us d) then
    (close_silently HandshakeTimeout a, true)
  else if LinkDriverConfig.max_lifetime_us (config d) <=? now_us - opened_at_us d then
    (close_silently LifetimeExpired a, true)
  else (a, false).

Definition on_tick (now_us : N) (d : t) : acc := (check_timeouts now_us (d, LinkOutput.default)).1.

Section Ops.
Context {cbor : Cbor} {crypto : Crypto}.

(** The ERROR frame goes out encrypted inside the transport epoch, in the
    clear before it; a frame that cannot be built is dropped. *)
Definition close_with_error (code : N) (reason : CloseReason) (a : acc) : option acc :=
  let '(d, out) := a in
  let error := MError (ErrorMsg.mk code) in
  out ← match state d with
        | Transport transport =>
            match (encrypt_frame error transport).2 with
            | Ok frame => Some (LinkOutput.push_frame frame out)
            | Err _ => Some out
            | Panic => None
            end
        | _ =>
            match encode_frame error with
            | Ok frame => Some (LinkOutput.push_frame frame out)
            | Err _ => Some out
            | Panic => None
            end
        end;
  Some (clear_keys (set_state (LinkClosed reason) d), LinkOutput.push_events [Closed reason] out).

Definition own_hello (d : t) : Message :=
  MHello (Hello.mk (LinkDriverConfig.versions (config d)) (LinkDriverConfig.features (config d))
                   (LinkDriverConfig.transports (config d))).

Definition queue_hello (a : acc) : option acc :=
  let '(d, out) := a in
  match encode_message (own_hello d) with
  | Ok body => Some (set_our_hello_body body d, LinkOutput.push_frame (be_bytes 2 (lenN body) ++ body) out)
  | _ => None
  end.

Definition start (d : t) : option acc :=
  match role d, state d with
  | Session.Initiator, AwaitPeerHello => queue_hello (d, LinkOutput.default)
  | _, _ => Some (d, LinkOutput.default)
  end.

Definition queue_encrypted (msg : Message) (a : acc) : option acc :=
  let '(d, out) := a in
  match state d with
  | Transport transport =>
      match encrypt_frame msg transport with
      | (transport, Ok frame) => Some (set_state (Transport transport) d, LinkOutput.push_frame frame out)
      | (transport, Err _) => Some (close_silently NonceExhausted (set_state (Transport transport) d, out))
      | (_, Panic) => None
      end
  | _ => Some a
  end.

Definition queue_handshake_frame (noise_msg : bytes) (a : acc) : option acc :=
  match encode_frame (MHandshake (Handshake.mk noise_msg)) with
  | Ok frame => Some (a.1, LinkOutput.push_frame frame a.2)
  | Err _ => Some (close_silently HandshakeFailed a)
  | Panic => None
  end.

(** [versions.iter().filter(|v| ours.contains(v)).max()]. *)
Definition common_version (ours theirs : list N) : option N :=
  match List.filter (fun v => existsb (N.eqb v) ours) theirs with
  | [] => None
  | v :: vs => Some (foldl N.max v vs)
  end.

Definition handle_hello_body (body : bytes) (a : acc) : option acc :=
  match decode_message body with
  | Panic => None
  | Ok (MHello hello) =>
      match common_version (LinkDriverConfig.versions (config a.1)) (Hello.versions hello) with
      | None => close_with_error 2 VersionIncompatible a
      | Some version =>
          let a := (set_negotiated_version version a.1, a.2) in
          a ← match role a.1 with
              | Session.Responder => queue_hello a
              | Session.Initiator => Some a
              end;
          let prologue := match role a.1 with
                          | Session.Initiator => our_hello_body a.1 ++ body
                          | Session.Responder => body ++ our_hello_body a.1
                          end in
          '(static_keys, ephemeral) ← keys a.1;
          let a := (clear_keys a.1, a.2) in
          let noise_role := match role a.1 with
                            | Session.Initiator => Noise.Initiator
                            | Session.Responder => Noise.Responder
                            end in
          let hs := HandshakeState.new_xx noise_role static_keys ephemeral prologue in
          match role a.1 with
          | Session.Initiator =>
              match HandshakeState.write_message [] hs with
              | (hs, Ok noise_msg) =>
                  a ← queue_handshake_frame noise_msg a;
                  Some (set_state (Handshaking hs) a.1, a.2)
              | (_, Err _) => Some (close_silently HandshakeFailed a)
              | (_, Panic) => None
              end
          | Session.Responder => Some (set_state (Handshaking hs) a.1, a.2)
          end
      end
  | Ok (MError err) =>
      if ErrorMsg.code err =? 2 then Some (close_silently VersionIncompatible a)
      else Some (close_silently HandshakeFailed a)
  | _ => Some (close_silently HandshakeFailed a)
  end.

(** After the last message: split into the transport. *)
Definition finish_handshake (hs : HandshakeState.t) (a : acc) : option acc :=
  if HandshakeState.is_finished hs then
    match HandshakeState.into_transport hs with
    | Ok (transport, remote_static) =>
        let remote := Keypair.fingerprint_of remote_static in
        Some (set_state (Transport transport) (set_remote_fingerprint remote a.1),
              LinkOutput.push_events [Established remote] a.2)
    | Err _ => Some (close_silently HandshakeFailed a)
    | Panic => None
    end
  else Some (set_state (Handshaking hs) a.1, a.2).

Definition handle_handshake_body (hs : HandshakeState.t) (body : bytes) (a : acc) : option acc :=
  match decode_message body with
  | Panic => None
  | Ok (MHandshake handshake) =>
      match HandshakeState.read_message (Handshake.msg handshake) hs with
      | (_, Panic) => None
      | (hs, Ok []) =>
          if HandshakeState.is_finished hs then finish_handshake hs a
          else
            match HandshakeState.write_message [] hs with
            | (hs, Ok noise_msg) => a ← queue_handshake_frame noise_msg a; finish_handshake hs a
            | (_, Err _) => Some (close_silently HandshakeFailed a)
            | (_, Panic) => None
            end
      | _ => Some (close_silently HandshakeFailed a)
      end
  | Ok (MError err) =>
      if ErrorMsg.code err =? 2 then Some (close_silently VersionIncompatible a)
      else Some (close_silently HandshakeFailed a)
  | _ => Some (close_silently HandshakeFailed a)
  end.

(** Encrypt the replies in order; a close stops the loop. *)
Fixpoint queue_replies (replies : list Message) (a : acc) : option acc :=
  match replies with
  | [] => Some a
  | reply :: rest =>
      a ← queue_encrypted reply a;
      if is_closed a.1 then Some a else queue_replies rest a
  end.

(** Sync traffic: the events come out whatever the result. *)
Definition handle_sync (store : EntryStore.t) (io : nat -> io_outcome) (msg : Message) (a : acc)
  : option (acc * EntryStore.t) :=
  let '(d, out) := a in
  let '(syncer, store, output, r) := Syncer.handle_message_into (syncer d) store io msg SyncOutput.default in
  let a := (set_syncer syncer d, LinkOutput.push_events (map Sync (SyncOutput.events output)) out) in
  match r with
  | Panic => None
  | Ok _ => a ← queue_replies (SyncOutput.replies output) a; Some (a, store)
  | Err err =>
      let code := error_code_u64 (SyncError.error_code err) in
      a ← close_with_error code (ProtocolViolation code) a; Some (a, store)
  end.

Definition handle_transport_body (transport : TransportState.t) (store : EntryStore.t) (io : nat -> io_outcome)
    (body : bytes) (a : acc) : option (acc * EntryStore.t) :=
  if (lenN body <? 16) || negb (is_padded_len (lenN body - 16)) then Some (close_silently BadCiphertextLength a, store)
  else
    match TransportState.decrypt body transport with
    | (_, Panic) => None
    | (_, Err NoiseError.NonceExhausted) => Some (close_silently NonceExhausted a, store)
    | (_, Err _) => Some (close_silently DecryptFailed a, store)
    | (transport, Ok plaintext) =>
        let a := (set_state (Transport transport) a.1, a.2) in
        match decode_message plaintext with
        | Panic => None
        | Err _ => a ← close_with_error 1 (ProtocolViolation 1) a; Some (a, store)
        | Ok msg =>
            match msg with
            | MHello _ | MHandshake _ => a ← close_with_error 3 (ProtocolViolation 3) a; Some (a, store)
            | MError err => Some (close_silently (PeerError (ErrorMsg.code err)) a, store)
            | _ => handle_sync store io msg a
            end
        end
    end.

(** The state is parked on a failed handshake while a body is handled. *)
Definition handle_body (store : EntryStore.t) (io : nat -> io_outcome) (body : bytes) (a : acc)
  : option (acc * EntryStore.t) :=
  let '(d, out) := a in
  let a := (set_state (LinkClosed HandshakeFailed) d, out) in
  match state d with
  | AwaitPeerHello => a ← handle_hello_body body a; Some (a, store)
  | Handshaking hs => a ← handle_handshake_body hs body a; Some (a, store)
  | Transport transport => handle_transport_body transport store io body a
  | LinkClosed _ => Some ((d, out), store)
  end.

(** The receive loop; [io k] gives the journal outcomes of the [k]-th body. *)
Fixpoint body_loop (fuel : nat) (k : nat) (store : EntryStore.t) (io : nat -> nat -> io_outcome) (a : acc)
  : option (acc * EntryStore.t) :=
  match fuel with
  | O => None
  | S fuel =>
      let '(d, out) := a in
      match FrameDecoder.next_body (decoder d) with
      | (None, dec) => Some ((set_decoder dec d, out), store)
      | (Some body, dec) =>
          '(a, store) ← handle_body store (io k) body (set_decoder dec d, out);
          if is_closed a.1 then Some (a, store) else body_loop fuel (S k) store io a
      end
  end.

Definition on_bytes (store : EntryStore.t) (io : nat -> nat -> io_outcome) (bs : bytes) (now_us : N) (d : t)
  : option (acc * EntryStore.t) :=
  match check_timeouts now_us (d, LinkOutput.default) with
  | (a, true) => Some (a, store)
  | ((d, out), false) =>
      if is_closed d then Some ((d, out), store)
      else
        let dec := FrameDecoder.push (decoder d) bs in
        body_loop (S (length (FrameDecoder.buf dec))) 0 store io (set_decoder dec d, out)
  end.

Definition open_sync (store : EntryStore.t) (window : SortKeyWindow.t) (d : t)
  : t * result LinkError (N * LinkOutput.t) :=
  if negb (is_established d) then (d, Err NotEstablished)
  else
    match Syncer.open_session (syncer d) store window with
    | Err e => (d, Err (SyncRefused e))
    | Panic => (d, Panic)
    | Ok (syncer, sid, msg) =>
        match queue_encrypted msg (set_syncer syncer d, LinkOutput.default) with
        | None => (d, Panic)
        | Some (d, out) => (d, Ok (sid, out))
        end
    end.

Definition send (msg : Message) (d : t) : t * result LinkError LinkOutput.t :=
  if negb (is_established d) then (d, Err NotEstablished)
  else
    match msg with
    | MHello _ | MHandshake _ => (d, Err NotPermitted)
    | MError error =>
        match close_with_error (ErrorMsg.code error) (ProtocolViolation (ErrorMsg.code error)) (d, LinkOutput.default) with
        | None => (d, Panic)
        | Some (d, out) => (d, Ok out)
        end
    | _ =>
        match queue_encrypted msg (d, LinkOutput.default) with
        | None => (d, Panic)
        | Some (d, out) => (d, Ok out)
        end
    end.

End Ops.
End LinkDriver.
