(* ===== verification/DriverSpec.v ===== *)
(** * What the link driver guarantees

    Totality on any bytes from the peer, the invariant of the link state, the
    discipline of closing, and the establishment of a link between two
    honest drivers. *)
From S2P Require Import Prelude Errors Pad Crypto Cbor Entry Msg Frame Store StoreSpec Session SessionSpec Noise NoiseSpec Driver.
Import LinkDriver.
Open Scope N_scope.

Section Spec.
Context {cbor : Cbor} {crypto : Crypto}.

(** ** Nothing below the driver aborts *)

Lemma rekey_no_panic c : (TransportState.rekey_if_due c).2 = Ok tt.
Proof.
  unfold TransportState.rekey_if_due. destruct (_ && _); [|done].
  unfold CipherState.rekey_preserving_nonce, CipherState.rekey, bind, modify.
  destruct (CipherState.k c) as [key|]; [|done].
  destruct (aead_encrypt_total key (nonce_bytes u64_max) [] (replicate 32 zero_byte)) as [block E]; [done|].
  rewrite E. apply aead_encrypt_length in E. cbn in E. unfold slice. by rewrite decide_True by lia.
Qed.

Lemma seal_no_panic p c : (seal p c).2 <> Panic.
Proof.
  unfold seal, bind. pose proof (rekey_no_panic c) as H.
  destruct (TransportState.rekey_if_due c) as [c' r]. cbn in H. subst r.
  unfold CipherState.encrypt_with_ad. destruct (CipherState.k c'); [|done].
  destruct (_ =? _); [done|]. by destruct (aead_encrypt _ _ _ _).
Qed.

Lemma unseal_spec ct c :
  match (unseal ct c).2 with Ok p => (length p <= length ct)%nat | Err _ => True | Panic => False end.
Proof.
  unfold unseal, bind. pose proof (rekey_no_panic c) as H.
  destruct (TransportState.rekey_if_due c) as [c' r]. cbn in H. subst r.
  destruct (CipherState.decrypt_with_ad [] ct c') as [c2 r] eqn:E. cbn [snd].
  destruct r as [p| |]; [|done|].
  - apply decrypt_length in E. lia.
  - revert E. unfold CipherState.decrypt_with_ad. destruct (CipherState.k c'); [|done].
    destruct (_ =? _); [done|]. by destruct (aead_decrypt _ _ _ _).
Qed.

Lemma encrypt_frame_no_panic m t : (encrypt_frame m t).2 <> Panic.
Proof.
  unfold encrypt_frame, bind, lift, ret.
  assert (Hm : encode_message m <> Panic).
  { rewrite encode_message_eq. pose proof (validate_no_panic m). destruct (validate m); [|done..].
    destruct (padded_len _); done. }
  destruct (encode_message m) as [pt| |]; [|done..]. cbn [map_err].
  unfold TransportState.encrypt. destruct (TransportState.failed t); [done|]. unfold on. fold (seal pt).
  pose proof (seal_no_panic pt (TransportState.send t)). by destruct (seal pt _) as [c [| |]].
Qed.

Lemma decrypt_spec ct t :
  match (TransportState.decrypt ct t).2 with Ok p => (length p <= length ct)%nat | Err _ => True | Panic => False end.
Proof.
  unfold TransportState.decrypt. destruct (TransportState.failed t); [done|]. unfold on. fold (unseal ct).
  pose proof (unseal_spec ct (TransportState.recv t)) as H. by destruct (unseal ct _) as [c [| |]].
Qed.

Lemma encode_frame_no_panic m : encode_frame m <> Panic.
Proof.
  rewrite encode_frame_eq, encode_message_eq. pose proof (validate_no_panic m). destruct (validate m); [|done..].
  by destruct (padded_len _).
Qed.

(** ** The invariant of a driver between two bodies *)

Definition not_closed (e : LinkEvent) : Prop := match e with Closed _ => False | _ => True end.

(** The cleartext ERROR of section 7. *)
Definition error2_frames : list bytes :=
  match encode_frame (MError (ErrorMsg.mk 2)) with Ok f => [f] | _ => [] end.

(** What the output of a call shows of the close it ends in: the event comes
    last and once; silent closes send nothing; the only cleartext frame is
    ERROR 2; an ERROR with another code is sent on an established link. *)
Definition tidy (a : acc) : Prop :=
  match close_reason a.1 with
  | None => Forall not_closed (LinkOutput.events a.2)
  | Some r =>
      (exists es, LinkOutput.events a.2 = es ++ [Closed r] /\ Forall not_closed es) /\
      (LinkOutput.frames a.2 = [] \/
       (r = VersionIncompatible /\ remote_fingerprint a.1 = None /\ LinkOutput.frames a.2 = error2_frames) \/
       (exists code, r = ProtocolViolation code /\ is_Some (remote_fingerprint a.1)))
  end.

(** The part that no handler touches. *)
Record base (d : t) : Prop := {
  b_sync : SessionSpec.inv (syncer d);
  b_hello : is_Ok (encode_message (own_hello d)) }.

Definition hs_ready (hs : HandshakeState.t) : Prop :=
  hs_wf hs /\ hs_keys hs /\ HandshakeState.our_turn_to_write hs = false /\ HandshakeState.step hs <> 4.

(** The keypairs are made of 32-octet arrays. *)
Definition keys_ok (ks : option (Keypair.t * Keypair.t)) : Prop :=
  match ks with
  | Some (sk, ek) => length (Keypair.public sk) = 32%nat /\ length (Keypair.public ek) = 32%nat
  | None => False
  end.

Record J (a : acc) : Prop := {
  j_base : base a.1;
  j_state : match state a.1 with
            | AwaitPeerHello => keys_ok (keys a.1) /\ remote_fingerprint a.1 = None /\ LinkOutput.frames a.2 = []
            | Handshaking hs => hs_ready hs /\ remote_fingerprint a.1 = None
            | Transport _ => is_Some (remote_fingerprint a.1)
            | LinkClosed _ => True
            end;
  j_tidy : tidy a }.

(** A computation that does not abort, with its result. *)
Definition total {A} (o : option A) (P : A -> Prop) : Prop := match o with Some a => P a | None => False end.

Lemma total_bind {A B} (o : option A) (f : A -> option B) P Q :
  total o P -> (forall a, P a -> total (f a) Q) -> total (o ≫= f) Q.
Proof. destruct o; cbn; [auto|done]. Qed.

Lemma total_mono {A} (o : option A) (P Q : A -> Prop) : total o P -> (forall a, P a -> Q a) -> total o Q.
Proof. destruct o; cbn; auto. Qed.

(** Events so far, while a body is being handled. *)
Definition quiet (a : acc) : Prop := Forall not_closed (LinkOutput.events a.2).

Lemma base_cong d d' : syncer d' = syncer d -> config d' = config d -> base d -> base d'.
Proof. intros Hs Hc [H1 H2]. split; [by rewrite Hs|]. unfold own_hello in *. by rewrite Hc. Qed.

Lemma close_silently_J r a : base a.1 -> quiet a -> J (close_silently r a).
Proof.
  destruct a as [d out]. intros Hb Hq. split; cbn; [by eapply base_cong; [..|exact Hb]|done|].
  split; [by eexists|by left].
Qed.

Lemma close_with_error_J code r a : base a.1 -> quiet a -> is_Some (remote_fingerprint a.1) ->
  r = ProtocolViolation code -> total (close_with_error code r a) J.
Proof.
  destruct a as [d out]. intros Hb Hq Hr ->. unfold close_with_error.
  apply (total_bind _ _ (fun o => LinkOutput.events o = LinkOutput.events out)).
  - destruct (state d) as [| |tr|]; try by (pose proof (encode_frame_no_panic (MError (ErrorMsg.mk code)));
      destruct (encode_frame _)).
    pose proof (encrypt_frame_no_panic (MError (ErrorMsg.mk code)) tr). by destruct (encrypt_frame _ tr).2.
  - intros o Ho. split; cbn; [by eapply base_cong; [..|exact Hb]|done|].
    rewrite Ho. split; [by eexists|]. right; right. by exists code.
Qed.

(** The cleartext close on an empty version intersection. *)
Lemma close_error2_J a : base a.1 -> quiet a -> remote_fingerprint a.1 = None -> LinkOutput.frames a.2 = [] ->
  (match state a.1 with Transport _ => False | _ => True end) ->
  total (close_with_error 2 VersionIncompatible a) J.
Proof.
  destruct a as [d [fs es]]. intros Hb Hq Hr Hf Hs. unfold close_with_error. cbn in Hr, Hf, Hs, Hq. subst fs.
  apply (total_bind _ _ (fun o => LinkOutput.events o = es /\ (LinkOutput.frames o = [] \/ LinkOutput.frames o = error2_frames))).
  - pose proof (encode_frame_no_panic (MError (ErrorMsg.mk 2))) as Hn. unfold error2_frames.
    destruct (state d); [| |done|]; (destruct (encode_frame _); [cbn; auto|cbn; auto|done]).
  - intros o [Ho Hf]. split; cbn; [by eapply base_cong; [..|exact Hb]|done|].
    rewrite Ho. split; [by eexists|]. destruct Hf as [Hf|Hf]; [by left|right; left; done].
Qed.

(** ** The handlers *)

Lemma queue_hello_spec a : base a.1 ->
  total (queue_hello a) (fun a' => base a'.1 /\ LinkOutput.events a'.2 = LinkOutput.events a.2 /\
    keys a'.1 = keys a.1 /\ state a'.1 = state a.1 /\ role a'.1 = role a.1 /\
    remote_fingerprint a'.1 = remote_fingerprint a.1).
Proof.
  destruct a as [d out]. intros Hb. destruct (b_hello d Hb) as [body E]. unfold queue_hello. rewrite E. cbn.
  split_and!; try done. by eapply base_cong; [..|exact Hb].
Qed.

(** A handshake message always fits a frame. *)
Lemma queue_handshake_frame_spec m a : lenN m <= 60000 ->
  total (queue_handshake_frame m a) (fun a' => a'.1 = a.1 /\ LinkOutput.events a'.2 = LinkOutput.events a.2).
Proof.
  intros Hl. unfold queue_handshake_frame. rewrite encode_frame_eq.
  by destruct (handshake_encodes (Handshake.mk m) Hl) as [body ->].
Qed.

Lemma write_small hs hs' m : hs_keys hs -> HandshakeState.write_message [] hs = (hs', Ok m) -> lenN m <= 60000.
Proof. intros Hk E. pose proof (write_length _ _ _ _ Hk E) as H. cbn in H. unfold lenN. lia. Qed.

Lemma hs_keys_ext hs hs' : pair_of hs' = pair_of hs -> hs_keys hs -> hs_keys hs'.
Proof. unfold pair_of, hs_keys. by intros [= -> -> _]. Qed.

(** An event that is not a close keeps the output quiet and open states tidy. *)
Lemma open_J a : base a.1 -> quiet a -> close_reason a.1 = None ->
  match state a.1 with
  | AwaitPeerHello => False
  | Handshaking hs => hs_ready hs /\ remote_fingerprint a.1 = None
  | Transport _ => is_Some (remote_fingerprint a.1)
  | LinkClosed _ => True
  end -> J a.
Proof.
  intros Hb Hq Hc Hs. split; [done|by destruct (state a.1)|]. unfold tidy. by rewrite Hc.
Qed.

Lemma handle_hello_body_J body a : base a.1 -> quiet a -> keys_ok (keys a.1) -> remote_fingerprint a.1 = None ->
  LinkOutput.frames a.2 = [] -> is_closed a.1 = true -> total (handle_hello_body body a) J.
Proof.
  intros Hb Hq Hk Hr Hf Hc. unfold handle_hello_body. pose proof (decode_message_no_panic body).
  assert (Hs : forall r, J (close_silently r a)) by (intros; by apply close_silently_J).
  destruct (decode_message body) as [msg| |]; [|apply Hs|done].
  destruct msg as [hello| | | | | |err]; try apply Hs; [|destruct (_ =? _); apply Hs].
  destruct (common_version _ _) as [v|]; [|apply close_error2_J; try done; unfold is_closed in Hc; by destruct (state a.1)].
  set (a0 := (set_negotiated_version v a.1, a.2)).
  assert (Hb0 : base a0.1) by (eapply base_cong; [..|exact Hb]; done).
  apply (total_bind _ _ (fun a' => base a'.1 /\ LinkOutput.events a'.2 = LinkOutput.events a0.2 /\
    keys a'.1 = keys a0.1 /\ remote_fingerprint a'.1 = None)).
  { destruct (role a0.1); [done|]. eapply total_mono; [by apply queue_hello_spec|].
    intros a' (? & ? & ? & ? & ? & Hr'). split_and!; try done. by rewrite Hr'. }
  intros a1 (Hb1 & He1 & Hk1 & Hr1). change (keys a0.1) with (keys a.1) in Hk1. rewrite Hk1.
  destruct (keys a.1) as [[sk ek]|]; [|done]. cbn [mbind option_bind].
  cbn [fst snd role clear_keys].
  assert (Hb2 : forall st, base (set_state st (clear_keys a1.1))) by (intros; eapply base_cong; [..|exact Hb1]; done).
  assert (Hq1 : Forall not_closed (LinkOutput.events a1.2)) by (by rewrite He1).
  destruct (role a1.1) eqn:Er; set (hs := HandshakeState.new_xx _ _ _ _);
    (assert (Hhs : hs_wf hs /\ hs_keys hs) by (split; [apply hs_wf_new|done])).
  - pose proof (write_total hs [] (proj1 Hhs) eq_refl) as Hw. unfold runs in Hw.
    pose proof (write_keeps_keys [] hs) as Hkeep. pose proof (write_small hs) as Hsm.
    destruct (HandshakeState.write_message [] hs) as [hs' r] eqn:E. cbn [fst] in Hkeep.
    destruct r as [m| |]; [|by apply close_silently_J|done].
    eapply total_bind; [apply queue_handshake_frame_spec; by eapply Hsm|].
    intros a2 [Ha He]. cbn [fst snd] in Ha, He. rewrite Ha. apply open_J; [apply Hb2|by unfold quiet; cbn; rewrite He|done|].
    cbn. destruct Hw as [Hw1 Hw2]. split; [|done]. split_and!; [done|by eapply hs_keys_ext; [|apply Hhs]| |by rewrite Hw2].
    unfold HandshakeState.our_turn_to_write. rewrite Hw2. cbn. by injection Hkeep as _ _ ->.
  - apply open_J; [apply Hb2|done|done|]. split; [|done]. split_and!; try apply Hhs; done.
Qed.

Lemma step_cases hs : hs_wf hs -> HandshakeState.step hs = 1 \/ HandshakeState.step hs = 2 \/
  HandshakeState.step hs = 3 \/ HandshakeState.step hs = 4.
Proof. unfold hs_wf. intuition lia. Qed.

Lemma finished_step hs : hs_wf hs -> HandshakeState.is_finished hs = true <-> HandshakeState.step hs = 4.
Proof.
  intros Hw. unfold HandshakeState.is_finished. rewrite N.ltb_lt. destruct (step_cases hs Hw) as [H|[H|[H|H]]]; lia.
Qed.

(** Whose turn it is alternates with the steps. *)
Lemma turn_alternates hs hs' : hs_wf hs -> HandshakeState.step hs <> 4 -> HandshakeState.role hs' = HandshakeState.role hs ->
  HandshakeState.step hs' = HandshakeState.step hs + 1 -> HandshakeState.step hs' <> 4 ->
  HandshakeState.our_turn_to_write hs' = negb (HandshakeState.our_turn_to_write hs).
Proof.
  intros Hw H0 Hr Hs H4. unfold HandshakeState.our_turn_to_write. rewrite Hr, Hs.
  destruct (step_cases hs Hw) as [H|[H|[H|H]]]; rewrite H in *; [by destruct (HandshakeState.role hs)..|lia|lia].
Qed.

Lemma finish_handshake_J hs a : hs_wf hs -> hs_keys hs -> base a.1 -> quiet a -> remote_fingerprint a.1 = None ->
  (HandshakeState.step hs <> 4 -> HandshakeState.our_turn_to_write hs = false) ->
  total (finish_handshake hs a) J.
Proof.
  intros Hw Hk Hb Hq Hr Ht. unfold finish_handshake.
  destruct (HandshakeState.is_finished hs) eqn:Hf.
  - unfold HandshakeState.into_transport. rewrite Hf. cbn [negb].
    assert (is_Some (HandshakeState.rs hs)) as [rs ->].
    { apply finished_step in Hf; [|done]. unfold hs_wf in Hw. rewrite Hf in Hw. intuition lia. }
    destruct (SymmetricState.split _) as [[c1 c2] h].
    apply open_J; [by eapply base_cong; [..|exact Hb]| |done|by eexists].
    unfold quiet. cbn. apply Forall_app. split; [done|by repeat constructor].
  - assert (H4 : HandshakeState.step hs <> 4) by (rewrite <- finished_step by done; by rewrite Hf).
    apply open_J; [by eapply base_cong; [..|exact Hb]|done|done|]. cbn. split; [|done]. split_and!; auto.
Qed.

Lemma handle_handshake_body_J hs body a : hs_ready hs -> base a.1 -> quiet a -> remote_fingerprint a.1 = None ->
  total (handle_handshake_body hs body a) J.
Proof.
  intros (Hw & Hk & Ht & H4) Hb Hq Hr. unfold handle_handshake_body. pose proof (decode_message_no_panic body).
  assert (Hs : forall r, J (close_silently r a)) by (intros; by apply close_silently_J).
  destruct (decode_message body) as [msg| |]; [|apply Hs|done].
  destruct msg as [|h| | | | |err]; try apply Hs; [|destruct (_ =? _); apply Hs].
  pose proof (read_total hs (Handshake.msg h) Hw H4 Ht) as Hrd. unfold runs in Hrd.
  pose proof (read_keeps_keys (Handshake.msg h) hs) as Hkeep.
  destruct (HandshakeState.read_message (Handshake.msg h) hs) as [hs1 r]. cbn [fst] in Hkeep.
  destruct r as [[|? ?]| |]; [|apply Hs|apply Hs|done]. destruct Hrd as [Hw1 Hst1].
  assert (Hk1 : hs_keys hs1) by by eapply hs_keys_ext.
  destruct (HandshakeState.is_finished hs1) eqn:Hf1.
  { apply finish_handshake_J; try done. intros Hn. apply finished_step in Hf1; done. }
  assert (H41 : HandshakeState.step hs1 <> 4) by (rewrite <- finished_step by done; by rewrite Hf1).
  assert (Hro : HandshakeState.role hs1 = HandshakeState.role hs) by (unfold pair_of in Hkeep; by injection Hkeep).
  pose proof (turn_alternates hs hs1 Hw H4 Hro Hst1 H41) as Ht1. rewrite Ht in Ht1.
  pose proof (write_total hs1 [] Hw1 Ht1) as Hwr. unfold runs in Hwr.
  pose proof (write_keeps_keys [] hs1) as Hkeep2. pose proof (write_small hs1) as Hsm.
  destruct (HandshakeState.write_message [] hs1) as [hs2 r]. cbn [fst] in Hkeep2.
  destruct r as [m| |]; [|apply Hs|done]. destruct Hwr as [Hw2 Hst2].
  eapply total_bind; [apply queue_handshake_frame_spec; by eapply Hsm|].
  intros a2 [Ha He]. apply finish_handshake_J; [done|by eapply hs_keys_ext|by rewrite Ha|unfold quiet; by rewrite He|by rewrite Ha|].
  intros H42. rewrite (turn_alternates hs1 hs2 Hw1 H41); [by rewrite Ht1| |done|done].
  unfold pair_of in Hkeep2. by injection Hkeep2.
Qed.

(** ** The transport epoch *)

(** An established driver in the middle of a call. *)
Definition live (a : acc) : Prop :=
  base a.1 /\ quiet a /\ is_Some (remote_fingerprint a.1) /\ is_closed a.1 = false.

Lemma live_J a : live a -> match state a.1 with Transport _ => True | _ => False end -> J a.
Proof.
  intros (Hb & Hq & Hr & Hc) Hs. apply open_J; [done|done| |by destruct (state a.1)].
  unfold close_reason. by destruct (state a.1).
Qed.

Lemma queue_encrypted_J msg a : live a -> match state a.1 with Transport _ => True | _ => False end ->
  total (queue_encrypted msg a) (fun a' => J a' /\
    (is_closed a'.1 = false -> live a' /\ match state a'.1 with Transport _ => True | _ => False end)).
Proof.
  destruct a as [d out]. intros (Hb & Hq & Hr & Hc) Hs. unfold queue_encrypted. cbn [fst snd] in *.
  destruct (state d) as [| |tr|] eqn:Es; try done.
  pose proof (encrypt_frame_no_panic msg tr) as Hn. destruct (encrypt_frame msg tr) as [tr' r]. cbn [snd] in Hn.
  assert (Hb' : base (set_state (Transport tr') d)) by (eapply base_cong; [..|exact Hb]; done).
  destruct r as [fr| |]; [| |done]; cbn [total].
  - assert (Hl : live (set_state (Transport tr') d, LinkOutput.push_frame fr out)) by done.
    split; [by apply live_J|]. by intros _.
  - split; [by apply close_silently_J|]. done.
Qed.

Lemma queue_replies_J replies a : live a -> match state a.1 with Transport _ => True | _ => False end ->
  total (queue_replies replies a) J.
Proof.
  revert a. induction replies as [|m ms IH]; intros a Hl Hs; cbn [queue_replies]; [by apply live_J|].
  eapply total_bind; [by apply queue_encrypted_J|]. intros a' [HJ Ha].
  destruct (is_closed a'.1); [done|]. by apply IH; apply Ha.
Qed.

Lemma map_sync_quiet es : Forall not_closed (map Sync es).
Proof. induction es; by constructor. Qed.

(** The store's size, an upper bound on what can still be added. *)
Definition stored (store : EntryStore.t) : N := N.of_nat (base.size (EntryStore.entries store)).

Lemma push_growth store io k entries out : StoreSpec.wf store -> Forall Entry.wf entries ->
  size_ok store (length entries) ->
  stored (Syncer.push_loop store io k entries out).1.1 <= stored store + lenN entries.
Proof.
  intros Hwf Hes. revert store k out Hwf. induction Hes as [|e es He Hes IH]; intros store k out Hwf Hsz.
  { cbn. lia. }
  cbn [Syncer.push_loop]. rewrite lenN_cons. cbn [length] in Hsz.
  pose proof (insert_cases store e (io k) Hwf He ltac:(unfold size_ok in *; lia)) as Hc.
  destruct (EntryStore.insert store e (io k)) as [store1 r]. destruct Hc as (Hwf1 & Hsub & Hr).
  destruct r as [b|err|]; [|unfold stored in *; destruct err; cbn [fst]; rewrite Hr; lia|done].
  destruct Hr as (_ & _ & Hent).
  assert (Hs1 : stored store1 <= stored store + 1).
  { unfold stored. rewrite Hent. destruct b; [|lia]. rewrite map_size_insert.
    destruct (EntryStore.entries store !! Entry.id e); unfold id; lia. }
  assert (Hsz1 : size_ok store1 (length es)) by (unfold size_ok, stored in *; lia).
  destruct b; pose proof (IH store1 (S k)) as IH'.
  - specialize (IH' (SyncOutput.push_event out (Stored (Entry.id e))) Hwf1 Hsz1). lia.
  - specialize (IH' (SyncOutput.push_event out (DuplicateIgnored (Entry.id e))) Hwf1 Hsz1). lia.
Qed.

(** What handling a body does to the store. *)
Definition grown (store store' : EntryStore.t) (n : N) : Prop :=
  StoreSpec.wf store' /\ EntryStore.entries store ⊆ EntryStore.entries store' /\ stored store' <= stored store + n.

Lemma grown_refl store n : StoreSpec.wf store -> grown store store n.
Proof. intros H. split_and!; [done|done|lia]. Qed.

Lemma handle_into_grown s store io msg out : StoreSpec.wf store -> wf_message msg ->
  size_ok store (length (batch_entries msg)) ->
  let '(_, store', _, _) := Syncer.handle_message_into s store io msg out in
  StoreSpec.wf store' -> grown store store' (lenN (batch_entries msg)).
Proof.
  intros Hwf Hm Hsz. destruct msg as [h|h|p|ri|rm|rd|er]; cbn [Syncer.handle_message_into];
    try (by intros; apply grown_refl);
    try (match goal with |- context [match ?r with Ok _ => _ | Err _ => _ | Panic => _ end] => destruct r as [[? ?]| |] end;
         intros; by apply grown_refl).
  pose proof (push_loop_spec store io 0 (GossipPush.entries p) out Hwf (proj2 (proj1 Hm)) Hsz) as Hp.
  pose proof (push_growth store io 0 (GossipPush.entries p) out Hwf (proj2 (proj1 Hm)) Hsz) as Hg.
  destruct (Syncer.push_loop _ _ _ _ _) as [[store' out'] r]. cbn [fst] in Hg. destruct Hp as (H1 & H2 & _).
  intros _. by split_and!.
Qed.

Lemma handle_sync_J store io msg a n : live a -> match state a.1 with Transport _ => True | _ => False end ->
  StoreSpec.wf store -> wf_message msg -> lenN (batch_entries msg) <= n -> stored store + n < u32_max ->
  total (handle_sync store io msg a) (fun '(a', store') => J a' /\ grown store store' n).
Proof.
  destruct a as [d out]. intros (Hb & Hq & Hr & Hc) Hs Hwf Hm Hn Hroom. unfold handle_sync. cbn [fst snd] in *.
  assert (Hsz : size_ok store (length (batch_entries msg))) by (unfold size_ok, stored, lenN in *; lia).
  pose proof (handle_message_into_ok (syncer d) store io msg SyncOutput.default (b_sync d Hb) Hwf Hm Hsz) as Hok.
  pose proof (handle_into_grown (syncer d) store io msg SyncOutput.default Hwf Hm Hsz) as Hg.
  destruct (Syncer.handle_message_into _ _ _ _ _) as [[[sy store'] o] r]. destruct Hok as (Hi & Hwf' & Hp & _).
  assert (Hgr : grown store store' n) by (destruct (Hg Hwf') as (? & ? & ?); split_and!; [done|done|lia]).
  assert (Hl : live (set_syncer sy d, LinkOutput.push_events (map Sync (SyncOutput.events o)) out)).
  { split_and!; [split; [done|apply (b_hello d Hb)]| |done|done].
    unfold quiet. cbn. apply Forall_app. split; [done|apply map_sync_quiet]. }
  destruct r as [[]|err|]; [| |done].
  - eapply total_bind; [by apply queue_replies_J|]. by intros a' HJ.
  - eapply total_bind; [apply close_with_error_J; [apply Hl|apply Hl|apply Hl|done]|]. by intros a' HJ.
Qed.

Lemma handle_transport_body_J tr store io body a : base a.1 -> quiet a -> is_Some (remote_fingerprint a.1) ->
  StoreSpec.wf store -> stored store + lenN body < u32_max ->
  total (handle_transport_body tr store io body a) (fun '(a', store') => J a' /\ grown store store' (lenN body)).
Proof.
  intros Hb Hq Hr Hwf Hroom. unfold handle_transport_body.
  assert (Hs : forall r, J (close_silently r a) /\ grown store store (lenN body))
    by (intros; split; [by apply close_silently_J|by apply grown_refl]).
  destruct (_ || _); [apply Hs|].
  pose proof (decrypt_spec body tr) as Hd. destruct (TransportState.decrypt body tr) as [tr' r]. cbn [snd] in Hd.
  destruct r as [pt|er|]; [|destruct er; apply Hs|done].
  pose proof (decode_message_no_panic pt) as Hn.
  set (a1 := (set_state (Transport tr') a.1, a.2)).
  assert (Hl : live a1) by (split_and!; [by eapply base_cong; [..|exact Hb]|done|done|done]).
  assert (He : forall code, total (a ← close_with_error code (ProtocolViolation code) a1; Some (a, store))
    (fun '(a', store') => J a' /\ grown store store' (lenN body))).
  { intros code. eapply total_bind; [apply close_with_error_J; [apply Hl|apply Hl|apply Hl|done]|].
    intros a' HJ. split; [done|by apply grown_refl]. }
  destruct (decode_message pt) as [msg| |] eqn:Em; [|apply He|done].
  pose proof (batch_entries_bound pt msg Em) as Hbe.
  assert (Hm : wf_message msg).
  { destruct (decode_message_inv pt msg Em) as (b0 & payload & pad & _ & _ & _ & _ & Hpd & _).
    by apply yields_payload in Hpd as [? _]. }
  assert (Hn' : lenN (batch_entries msg) <= lenN body) by (unfold lenN; lia).
  destruct msg; try apply He; try (by apply handle_sync_J).
  split; [by apply close_silently_J; [apply Hl|apply Hl]|by apply grown_refl].
Qed.

(** ** One body, the loop, a call *)

Lemma handle_body_J store io body a : J a -> is_closed a.1 = false -> StoreSpec.wf store ->
  stored store + lenN body < u32_max ->
  total (handle_body store io body a) (fun '(a', store') => J a' /\ grown store store' (lenN body)).
Proof.
  destruct a as [d out]. intros [Hb Hs Ht] Hc Hwf Hroom. unfold handle_body. cbn [fst snd] in *.
  assert (Hq : quiet (set_state (LinkClosed HandshakeFailed) d, out)).
  { unfold tidy, close_reason, is_closed, quiet in *. cbn in *. by destruct (state d). }
  assert (Hb' : base (set_state (LinkClosed HandshakeFailed) d)) by (eapply base_cong; [..|exact Hb]; done).
  destruct (state d) as [|hs|tr|r] eqn:Es; [| | |unfold is_closed in Hc; by rewrite Es in Hc].
  - destruct Hs as (Hk & Hr & Hf). eapply total_bind; [by apply handle_hello_body_J|].
    intros a' HJ. split; [done|by apply grown_refl].
  - destruct Hs as [Hh Hr]. eapply total_bind; [by apply handle_handshake_body_J|].
    intros a' HJ. split; [done|by apply grown_refl].
  - by apply handle_transport_body_J.
Qed.

(** Octets the decoder still holds. *)
Definition pending_len (d : t) : N := lenN (FrameDecoder.buf (decoder d)).

Lemma next_body_len dec body dec' : FrameDecoder.next_body dec = (Some body, dec') ->
  lenN (FrameDecoder.buf dec') + 2 + lenN body = lenN (FrameDecoder.buf dec).
Proof.
  unfold FrameDecoder.next_body. destruct (Nat.ltb_spec (length (FrameDecoder.buf dec)) 2); [done|].
  set (n := N.to_nat _). destruct (Nat.ltb_spec (length (FrameDecoder.buf dec)) (2 + n)); [done|].
  intros [= <- <-]. unfold lenN. cbn [FrameDecoder.buf]. rewrite length_take, !length_drop. lia.
Qed.

Lemma J_set_decoder dec a : J a -> J (set_decoder dec a.1, a.2).
Proof.
  destruct a as [d out]. intros [Hb Hs Ht]. split; [by eapply base_cong; [..|exact Hb]|exact Hs|exact Ht].
Qed.

(** The fields a body never changes. *)
Definition fixed (d : t) : FrameDecoder.t * LinkDriverConfig.t * LinkRole * N :=
  (decoder d, config d, role d, opened_at_us d).

(** The establishments an output reports. *)
Definition established (es : list LinkEvent) : list bytes :=
  omap (fun e => match e with Established remote => Some remote | _ => None end) es.

(** What only the end of the handshake changes. *)
Definition marks (a : acc) := (fixed a.1, remote_fingerprint a.1, established (LinkOutput.events a.2)).

Definition keeps (a0 : acc) (o : option acc) : Prop :=
  match o with Some a => marks a = marks a0 | None => True end.

(** At most the establishment is added, together with its event. *)
Definition adds (a0 : acc) (o : option acc) : Prop :=
  match o with
  | Some a => marks a = marks a0 \/ exists remote,
      marks a = (fixed a0.1, Some remote, established (LinkOutput.events a0.2) ++ [remote])
  | None => True
  end.

Lemma keeps_adds a0 o : keeps a0 o -> adds a0 o.
Proof. destruct o; cbn; auto. Qed.

Lemma keeps_from a a0 o : marks a = marks a0 -> keeps a o -> keeps a0 o.
Proof. destruct o; [|done]. unfold keeps. by intros <-. Qed.

Lemma keeps_bind a0 (o : option acc) (f : acc -> option acc) :
  keeps a0 o -> (forall a, marks a = marks a0 -> keeps a0 (f a)) -> keeps a0 (o ≫= f).
Proof. destruct o; cbn; auto. Qed.

Lemma adds_bind a0 (o : option acc) (f : acc -> option acc) :
  keeps a0 o -> (forall a, marks a = marks a0 -> adds a0 (f a)) -> adds a0 (o ≫= f).
Proof. destruct o; cbn; auto. Qed.

Lemma established_app es es' : established (es ++ es') = established es ++ established es'.
Proof. apply omap_app. Qed.

Lemma established_sync es : established (map Sync es) = [].
Proof. by induction es. Qed.

Lemma marks_events a d out : fixed d = fixed a.1 -> remote_fingerprint d = remote_fingerprint a.1 ->
  established (LinkOutput.events out) = established (LinkOutput.events a.2) -> marks (d, out) = marks a.
Proof. unfold marks. cbn. by intros -> -> ->. Qed.

Lemma keeps_silent a0 r a : marks a = marks a0 -> keeps a0 (Some (close_silently r a)).
Proof.
  intros H0. apply (keeps_from _ _ _ H0). clear H0. destruct a as [d out]. apply marks_events; [done..|]. cbn. by rewrite established_app, app_nil_r.
Qed.

Lemma keeps_error a0 code r a : marks a = marks a0 -> keeps a0 (close_with_error code r a).
Proof.
  intros H0. apply (keeps_from _ _ _ H0). clear H0. destruct a as [d out]. unfold close_with_error.
  match goal with |- keeps _ (?o ≫= _) =>
    assert (H : match o with Some out' => LinkOutput.events out' = LinkOutput.events out | None => True end) end.
  { destruct (state d) as [| |tr|]; try destruct (encode_frame _); try done. by destruct (encrypt_frame _ _) as [? []]. }
  match goal with |- keeps _ (?o ≫= _) => destruct o as [out'|] end; [|done].
  apply marks_events; [done..|]. cbn. by rewrite established_app, app_nil_r, H.
Qed.

Lemma keeps_hello a0 a : marks a = marks a0 -> keeps a0 (queue_hello a).
Proof. intros H0. apply (keeps_from _ _ _ H0). clear H0. destruct a as [d out]. unfold queue_hello. by destruct (encode_message _). Qed.

Lemma keeps_encrypted a0 m a : marks a = marks a0 -> keeps a0 (queue_encrypted m a).
Proof.
  intros H0. apply (keeps_from _ _ _ H0). clear H0. destruct a as [d out]. unfold queue_encrypted. destruct (state d) as [| |tr|]; try done.
  destruct (encrypt_frame m tr) as [tr' [f| |]]; [done| |done].
  by apply (keeps_silent (d, out) NonceExhausted (set_state (Transport tr') d, out)).
Qed.

Lemma keeps_handshake a0 m a : marks a = marks a0 -> keeps a0 (queue_handshake_frame m a).
Proof. intros H. unfold queue_handshake_frame. destruct (encode_frame _); [done|by apply keeps_silent|done]. Qed.

Lemma keeps_replies a0 ms a : marks a = marks a0 -> keeps a0 (queue_replies ms a).
Proof.
  revert a. induction ms as [|m ms IH]; intros a H; cbn [queue_replies]; [done|].
  apply keeps_bind; [by apply keeps_encrypted|]. intros a' H'. destruct (is_closed a'.1); [done|auto].
Qed.

#[local] Hint Resolve keeps_silent keeps_error keeps_hello keeps_encrypted keeps_handshake keeps_replies
  keeps_adds : racnet.

Lemma adds_finish a0 hs a : marks a = marks a0 -> adds a0 (finish_handshake hs a).
Proof.
  intros H. unfold finish_handshake. destruct (HandshakeState.is_finished hs); [|by left].
  destruct (HandshakeState.into_transport hs) as [[tr rs]| |]; [|by apply keeps_adds, keeps_silent|done].
  right. exists (Keypair.fingerprint_of rs). unfold marks in *. injection H as ? ? ? ? ? He.
  cbn. rewrite established_app, He. unfold fixed. cbn. congruence.
Qed.

Lemma keeps_hello_body a0 body a : marks a = marks a0 -> keeps a0 (handle_hello_body body a).
Proof.
  intros H. unfold handle_hello_body. destruct (decode_message body) as [[h| | | | | |er]| |]; auto with racnet;
    [|destruct (_ =? _); auto with racnet|done].
  destruct (common_version _ _); [|auto with racnet]. apply keeps_bind.
  { destruct (role _); [done|by apply keeps_hello]. }
  intros a1 H1. destruct (keys a1.1) as [[sk ek]|]; [|done]. cbn [mbind option_bind fst snd role clear_keys].
  destruct (role a1.1); [|done].
  destruct (HandshakeState.write_message _ _) as [hs [m| |]]; [|by apply keeps_silent|done].
  apply keeps_bind; [by apply keeps_handshake|]. done.
Qed.

Lemma adds_handshake_body a0 hs body a : marks a = marks a0 -> adds a0 (handle_handshake_body hs body a).
Proof.
  intros H. unfold handle_handshake_body. destruct (decode_message body) as [[|h| | | | |er]| |]; auto with racnet;
    [|destruct (_ =? _); auto with racnet|done].
  destruct (HandshakeState.read_message _ _) as [hs1 [[|? ?]| |]]; auto with racnet; [|done].
  destruct (HandshakeState.is_finished hs1); [by apply adds_finish|].
  destruct (HandshakeState.write_message _ _) as [hs2 [m| |]]; [|by apply keeps_adds, keeps_silent|done].
  apply adds_bind; auto with racnet. intros. by apply adds_finish.
Qed.

(** Handling a body leaves the decoder, the configuration, the role and the
    opening time alone; only a handshake message establishes. *)
Lemma handle_body_marks store io body a a' store' :
  handle_body store io body a = Some (a', store') ->
  adds a (Some a') /\ (is_established a.1 = true -> keeps a (Some a')).
Proof.
  assert (Hw : forall (o : option acc) s, keeps a o -> (a0 ← o; Some (a0, s)) = Some (a', store') -> keeps a (Some a')).
  { intros [a0|] s0 Hk; [|done]. by intros [= -> _]. }
  assert (Hkeep : forall P : Prop, keeps a (Some a') -> adds a (Some a') /\ (P -> keeps a (Some a'))) by auto with racnet.
  destruct a as [d out]. unfold handle_body, is_established. cbn [fst snd] in *. set (d0 := set_state _ d).
  assert (H0 : marks (d0, out) = marks (d, out)) by done. destruct (state d) as [|hs|tr|r].
  - intros H. apply Hkeep. revert H. apply Hw. by apply keeps_hello_body.
  - pose proof (adds_handshake_body (d, out) hs body _ H0) as Ha.
    destruct (handle_handshake_body hs body (d0, out)) as [a1|]; [|done]. by intros [= <- _].
  - intros H. apply Hkeep. revert H. unfold handle_transport_body.
    assert (Hs : forall r s, Some (close_silently r (d0, out), s) = Some (a', store') -> keeps (d, out) (Some a')).
    { intros r s0. apply (Hw (Some (close_silently r (d0, out)))). by apply keeps_silent. }
    destruct (_ || _); [apply Hs|].
    destruct (TransportState.decrypt body tr) as [tr' [pt|er|]]; [|destruct er; apply Hs|done].
    destruct (decode_message pt) as [msg| |]; [|apply Hw; by apply keeps_error|done].
    destruct msg; try (apply Hw; by apply keeps_error); try (by apply (Hw (Some (close_silently _ (set_state (Transport tr') d0, out)))), keeps_silent).
    all: unfold handle_sync; destruct (Syncer.handle_message_into _ _ _ _ _) as [[[sy st] o] [u|er|]];
      [apply Hw; apply keeps_replies|apply Hw; apply keeps_error|done];
      (apply marks_events; [done..|]); cbn; by rewrite established_app, established_sync, app_nil_r.
  - intros [= <- _]. apply Hkeep. done.
Qed.

Lemma handle_body_fixed store io body a a' store' :
  handle_body store io body a = Some (a', store') -> fixed a'.1 = fixed a.1.
Proof.
  intros [[H|[r H]] _]%handle_body_marks; by injection H as ? ? ? ?; unfold fixed; f_equal; [f_equal; [f_equal|]|].
Qed.

(** How a call relates to the driver it started from: the link is established
    at most once, with its event, and less than a frame is retained. *)
Definition report (a : acc) := (remote_fingerprint a.1, established (LinkOutput.events a.2)).

Definition reports (a a' : acc) : Prop :=
  report a' = report a \/
  (is_established a.1 = false /\
   exists remote, report a' = (Some remote, established (LinkOutput.events a.2) ++ [remote])).

Definition settings (d : t) := (config d, role d, opened_at_us d).

Record evolves (a a' : acc) : Prop := {
  ev_settings : settings a'.1 = settings a.1;
  ev_reports : reports a a';
  ev_pending : is_closed a'.1 = false -> pending_len a'.1 <= 65536 }.

Lemma handle_body_reports store io body a a' store' : handle_body store io body a = Some (a', store') ->
  settings a'.1 = settings a.1 /\ reports a a'.
Proof.
  intros [Ha Hk]%handle_body_marks. unfold reports, report, settings, adds, keeps, marks, fixed in *. split.
  - destruct Ha as [H|[r H]]; congruence.
  - destruct (is_established a.1) eqn:E; [left; specialize (Hk eq_refl); congruence|].
    destruct Ha as [H|[r H]]; [left; congruence|right; split; [done|exists r; congruence]].
Qed.

(** A driver with a fingerprint that is still open is established. *)
Lemma J_established a r : J a -> is_closed a.1 = false -> remote_fingerprint a.1 = Some r -> is_established a.1 = true.
Proof.
  intros [_ Hs _] Hc Hr. unfold is_established, is_closed in *.
  destruct (state a.1); [destruct Hs as (_ & Hn & _)|destruct Hs as (_ & Hn)|..]; congruence.
Qed.

Lemma evolves_step a a1 a2 : J a -> is_closed a.1 = false -> J a1 -> is_closed a1.1 = false ->
  settings a1.1 = settings a.1 -> reports a a1 -> evolves a1 a2 -> evolves a a2.
Proof.
  intros HJ0 Hc0 HJ Hc Hs Hr [Hs2 Hr2 Hp]. split; [congruence| |done].
  unfold reports, report in *. destruct Hr as [Hr|(He & r & Hr)].
  - destruct Hr2 as [Hr2|(He2 & r & Hr2)]; [left; congruence|].
    right. split; [|exists r; congruence].
    destruct (is_established a.1) eqn:E; [|done]. exfalso.
    assert (Hf : is_Some (remote_fingerprint a.1)).
    { destruct HJ0 as [_ H _]. unfold is_established in E. by destruct (state a.1). }
    destruct Hf as [r1 Hf]. rewrite (J_established a1 r1 HJ Hc) in He2 by congruence. done.
  - assert (He1 : is_established a1.1 = true) by (apply (J_established a1 r); [done|done|congruence]).
    destruct Hr2 as [Hr2|(He2 & _)]; [|congruence]. right. split; [done|]. exists r. congruence.
Qed.

Lemma next_body_none dec dec' : FrameDecoder.next_body dec = (None, dec') -> lenN (FrameDecoder.buf dec') <= 65536.
Proof.
  unfold FrameDecoder.next_body. destruct (Nat.ltb_spec (length (FrameDecoder.buf dec)) 2) as [H|H].
  { intros [= <-]. unfold lenN. lia. }
  set (n := N.to_nat _). destruct (Nat.ltb_spec (length (FrameDecoder.buf dec)) (2 + n)) as [H2|H2]; [|done].
  intros [= <-]. unfold lenN.
  pose proof (be_val_bound (take 2 (FrameDecoder.buf dec))) as Hv. rewrite length_take in Hv.
  replace (Nat.min 2 _) with 2%nat in Hv by lia. change (256 ^ N.of_nat 2) with 65536 in Hv. unfold n in *. lia.
Qed.

Lemma body_loop_J fuel k store io a : J a -> is_closed a.1 = false -> StoreSpec.wf store ->
  stored store + pending_len a.1 < u32_max -> (N.to_nat (pending_len a.1) < fuel)%nat ->
  total (body_loop fuel k store io a) (fun '(a', store') =>
    J a' /\ grown store store' (pending_len a.1) /\ evolves a a' /\
    stored store' + pending_len a'.1 <= stored store + pending_len a.1).
Proof.
  revert k store a. induction fuel as [|fuel IH]; intros k store [d out] HJ Hc Hwf Hroom Hf; [lia|].
  cbn [body_loop]. destruct (FrameDecoder.next_body (decoder d)) as [[body|] dec] eqn:En.
  - pose proof (next_body_len _ _ _ En) as Hl. unfold pending_len in *. cbn [fst] in *.
    pose proof (J_set_decoder dec _ HJ) as HJd.
    pose proof (handle_body_J store (io k) body (set_decoder dec d, out) HJd Hc Hwf ltac:(lia)) as Hh.
    destruct (handle_body store (io k) body (set_decoder dec d, out)) as [[a' store']|] eqn:Eh; [|done].
    cbn [total mbind option_bind] in *. destruct Hh as [HJ' (Hwf' & Hsub & Hst)].
    destruct (handle_body_reports _ _ _ _ _ _ Eh) as [Hse Hre].
    pose proof (handle_body_fixed _ _ _ _ _ _ Eh) as Hd. injection Hd as Hd _ _ _. cbn in Hd.
    destruct (is_closed a'.1) eqn:Ec.
    + split; [done|]. split; [split_and!; [done|done|lia]|].
      split; [split; [exact Hse|exact Hre|congruence]|]. rewrite Hd. lia.
    + eapply total_mono; [apply IH; [done|done|done|rewrite Hd; lia|rewrite Hd; lia]|].
      intros [a2 store2] (HJ2 & (Hwf2 & Hsub2 & Hst2) & Hev & Hsum). rewrite Hd in Hst2, Hsum.
      split; [done|]. split; [split_and!; [done|by etrans|lia]|].
      split; [by apply (evolves_step (d, out) a' a2)|lia].
  - cbn [total]. split; [by apply (J_set_decoder dec (d, out))|]. split; [by apply grown_refl|].
    split; [split; [done|by left|]; intros _; by eapply next_body_none|].
    apply next_body_None in En as ->. unfold pending_len. cbn. lia.
Qed.

(** ** The state of a driver between calls *)

Record driver_wf (d : t) : Prop := {
  dw_base : base d;
  dw_state : match state d with
             | AwaitPeerHello => keys_ok (keys d) /\ remote_fingerprint d = None
             | Handshaking hs => hs_ready hs /\ remote_fingerprint d = None
             | Transport _ => is_Some (remote_fingerprint d)
             | LinkClosed _ => True
             end }.

Lemma J_wf a : J a -> driver_wf a.1.
Proof. intros [Hb Hs _]. split; [done|]. by destruct (state a.1); [destruct Hs as (? & ? & _)|..]. Qed.

Lemma wf_J d : driver_wf d -> is_closed d = false -> J (d, LinkOutput.default).
Proof.
  intros [Hb Hs] Hc. split; [done|cbn; by destruct (state d); [destruct Hs|..]|].
  unfold tidy, close_reason, is_closed in *. cbn. by destruct (state d).
Qed.

Lemma new_wf role sk ek config now : keys_ok (Some (sk, ek)) ->
  is_Ok (encode_message (own_hello (new role sk ek config now))) -> driver_wf (new role sk ek config now).
Proof. intros Hk He. split; [split; [apply inv_new|exact He]|]. by split. Qed.

Lemma check_timeouts_J now d : driver_wf d -> is_closed d = false ->
  let '(a, stop) := check_timeouts now (d, LinkOutput.default) in
  J a /\ is_closed a.1 = stop /\ (stop = false -> a = (d, LinkOutput.default)).
Proof.
  intros Hw Hc. unfold check_timeouts. rewrite Hc.
  assert (HJ := wf_J d Hw Hc).
  assert (Hs : forall r, J (close_silently r (d, LinkOutput.default))) by (intros; apply close_silently_J; [apply Hw|constructor]).
  destruct (_ && _); [split_and!; [apply Hs|done|done]|]. destruct (_ <=? _); [split_and!; [apply Hs|done|done]|done].
Qed.

Lemma check_timeouts_evolves now d : let '(a, stop) := check_timeouts now (d, LinkOutput.default) in
  stop = true -> is_closed d = false -> evolves (d, LinkOutput.default) a.
Proof.
  unfold check_timeouts. destruct (is_closed d); [done|].
  destruct (_ && _); [by split; [|left|]|]. destruct (_ <=? _); [by split; [|left|]|done].
Qed.

Lemma check_timeouts_decoder now a : decoder (check_timeouts now a).1.1 = decoder a.1.
Proof. unfold check_timeouts. destruct a as [d out]. by repeat case_match. Qed.

Lemma on_bytes_spec d store io bs now : driver_wf d -> StoreSpec.wf store ->
  stored store + pending_len d + lenN bs < u32_max ->
  total (on_bytes store io bs now d) (fun '((d', out), store') =>
    driver_wf d' /\ grown store store' (pending_len d + lenN bs) /\
    (if is_closed d then d' = d /\ out = LinkOutput.default
     else tidy (d', out) /\ evolves (d, LinkOutput.default) (d', out)) /\
    stored store' + pending_len d' <= stored store + pending_len d + lenN bs).
Proof.
  intros Hw Hwf Hroom. unfold on_bytes. destruct (is_closed d) eqn:Hc.
  { unfold check_timeouts. rewrite Hc. split; [done|]. split; [by apply grown_refl|]. split; [done|lia]. }
  pose proof (check_timeouts_J now d Hw Hc) as Ht. pose proof (check_timeouts_evolves now d) as Hev.
  pose proof (check_timeouts_decoder now (d, LinkOutput.default)) as Hdec.
  destruct (check_timeouts _ _) as [[d1 out] stop]. destruct Ht as (HJ & Hs & Hn). destruct stop.
  - split; [exact (J_wf _ HJ)|]. split; [by apply grown_refl|]. unfold pending_len. cbn [fst] in Hdec.
    rewrite Hdec. split; [|lia]. split; [apply HJ|]. by apply Hev.
  - injection (Hn eq_refl) as -> ->. rewrite Hc.
    set (dec := FrameDecoder.push (decoder d) bs).
    assert (Hl : lenN (FrameDecoder.buf dec) = pending_len d + lenN bs) by apply lenN_app.
    pose proof (body_loop_J (S (length (FrameDecoder.buf dec))) 0 store io (set_decoder dec d, LinkOutput.default)
      (J_set_decoder dec _ HJ) Hc Hwf) as Hb. unfold pending_len at 1 2 3 in Hb. cbn [fst decoder set_decoder] in Hb.
    rewrite Hl in Hb. eapply total_mono; [apply Hb; [lia|unfold lenN in *; lia]|].
    intros [[d' out'] store'] (HJ' & Hg & He & Hsum). split; [exact (J_wf _ HJ')|]. split; [done|].
    split; [|unfold pending_len in *; cbn [fst decoder set_decoder] in *; lia]. split; [apply HJ'|]. destruct He as [H1 H2 H3]. by split.
Qed.

End Spec.
