(* ===== verification/LinkClose.v ===== *)
(** * How a link closes: section 7 of the protocol

    The discipline of closing, stated by cause: which body in which state
    closes the link, with which reason, and what goes on the wire. Then that
    the receive loop follows it: bodies are taken in order, one with no cause
    to close leaves the link open, and the first with a cause closes it with
    exactly that reason and those frames. *)
From S2P Require Import Prelude Errors Pad Crypto Cbor CborRef Entry Msg Frame Store StoreSpec Session SessionSpec Noise NoiseSpec Driver DriverSpec.
Import LinkDriver.
Open Scope N_scope.

(** The messages the transport epoch carries besides ERROR. *)
Definition application (m : Message) : Prop :=
  match m with MGossipPush _ | MReconInit _ | MReconMsg _ | MReconDone _ => True | _ => False end.

Lemma common_filter ours theirs v :
  v ∈ List.filter (fun v => existsb (N.eqb v) ours) theirs <-> v ∈ ours /\ v ∈ theirs.
Proof.
  rewrite !list_elem_of_In, filter_In, existsb_exists. split.
  - intros [H (x & Hx & ->%N.eqb_eq)]. done.
  - intros [H1 H2]. split; [done|]. exists v. split; [done|apply N.eqb_refl].
Qed.

(** No version is offered by both sides. *)
Definition incompatible (ours theirs : list N) : Prop := forall v, v ∈ ours -> v ∉ theirs.

Lemma common_version_None ours theirs : common_version ours theirs = None <-> incompatible ours theirs.
Proof.
  unfold common_version, incompatible. pose proof (fun w => common_filter ours theirs w) as Hf.
  destruct (List.filter _ theirs) as [|x xs].
  - split; [|done]. intros _ v Ho Ht. specialize (Hf v). set_solver.
  - split; [done|]. intros H. destruct (proj1 (Hf x)) as [Ho Ht]; [set_solver|]. by destruct (H x Ho).
Qed.

(** A ciphertext of an accepted length: a tag and one of the padded sizes. *)
Definition good_length (body : bytes) : Prop := 16 <= lenN body /\ permitted (lenN body - 16).

Lemma good_length_spec body : (lenN body <? 16) || negb (is_padded_len (lenN body - 16)) = false <-> good_length body.
Proof.
  unfold good_length, is_padded_len. rewrite orb_false_iff, N.ltb_ge, negb_false_iff, bool_decide_eq_true.
  split; intros [H1 H2]; split; eauto with racnet.
Qed.

Section Spec.
Context {cbor : Cbor} {crypto : Crypto}.

(** ** Encrypted frames *)

(** The frame of one message sealed with the transport, when the message can
    be encoded and sealed, and the transport after it. *)
Definition sealed_frame (m : Message) (tr : TransportState.t) : option (TransportState.t * bytes) :=
  match encode_message m with
  | Ok body =>
      if TransportState.failed tr then None
      else match seal body (TransportState.send tr) with
           | (c, Ok ct) => Some (TransportState.set_send c tr, frame ct)
           | _ => None
           end
  | _ => None
  end.

(** The frames of several, in order. *)
Fixpoint sealed_frames (ms : list Message) (tr : TransportState.t) : option (TransportState.t * list bytes) :=
  match ms with
  | [] => Some (tr, [])
  | m :: rest =>
      '(tr, f) ← sealed_frame m tr;
      '(tr, fs) ← sealed_frames rest tr;
      Some (tr, f :: fs)
  end.

(** The ERROR of an established link, when it can be sealed. *)
Definition sealed_error (code : N) (tr : TransportState.t) : list bytes :=
  match sealed_frame (MError (ErrorMsg.mk code)) tr with Some (_, f) => [f] | None => [] end.

Lemma encrypt_frame_sealed m tr :
  match sealed_frame m tr with
  | Some (tr', f) => encrypt_frame m tr = (tr', Ok f)
  | None => exists tr' e, encrypt_frame m tr = (tr', Err e)
  end.
Proof.
  pose proof (encrypt_frame_no_panic m tr) as Hn. unfold encrypt_frame, sealed_frame, bind, lift, ret in *.
  destruct (encode_message m) as [body|e|]; cbn [map_err] in *; [|by do 2 eexists|done].
  unfold TransportState.encrypt, on in *. destruct (TransportState.failed tr); [by do 2 eexists|].
  fold (seal body) in *. destruct (seal body (TransportState.send tr)) as [c [ct|e|]]; [done|by do 2 eexists|done].
Qed.

(** When a frame goes out: the transport is usable, a nonce is left and the
    message fits the wire; a peer in step reads the encoding back from it. *)
Definition can_send (tr : TransportState.t) (m : Message) : Prop :=
  TransportState.failed tr = false /\ CipherState.n (TransportState.send tr) < u64_max /\ is_Ok (encode_message m).

Definition carries (tr tr' : TransportState.t) (m : Message) (f : bytes) : Prop :=
  exists body c ct, encode_message m = Ok body /\ f = frame ct /\ tr' = TransportState.set_send c tr /\
    unseal ct (TransportState.send tr) = (c, Ok body).

(** The cipher of an established link: keyed, its nonce a 64-bit number. *)
Definition ciphered (tr : TransportState.t) : Prop :=
  keyed (TransportState.send tr) = true /\ CipherState.n (TransportState.send tr) <= u64_max.

Lemma seal_exhausted p c : keyed c = true -> CipherState.n c = u64_max -> (seal p c).2 = Err NoiseError.NonceExhausted.
Proof.
  intros Hk Hn. destruct (rekey_ok c Hk) as (c1 & E & Hk1 & Hn1). unfold seal, bind. rewrite E.
  unfold CipherState.encrypt_with_ad, keyed in *. destruct (CipherState.k c1); [|done]. by rewrite Hn1, Hn.
Qed.

Lemma sealed_frame_spec m tr : ciphered tr ->
  (can_send tr m -> exists tr' f, sealed_frame m tr = Some (tr', f) /\ carries tr tr' m f) /\
  (~ can_send tr m -> sealed_frame m tr = None).
Proof.
  intros [Hk Hn]. unfold can_send, sealed_frame, carries. split.
  - intros (Hf & Hlt & body & E). rewrite E, Hf.
    pose proof (encode_message_parts _ _ E) as (p & Hp & Hlen & _). apply padded_len_bounds in Hp as [_ Hp].
    destruct (seal_unseal _ body Hk Hlt ltac:(lia)) as (c & ct & Es & Eu & _). rewrite Es.
    do 2 eexists. split; [done|]. by exists body, c, ct.
  - intros Hno. destruct (encode_message m) as [body| |]; [|done..].
    destruct (TransportState.failed tr); [done|].
    assert (CipherState.n (TransportState.send tr) = u64_max) as He.
    { destruct (decide (CipherState.n (TransportState.send tr) = u64_max)); [done|]. exfalso. apply Hno.
      split_and!; [done|lia|by eexists]. }
    pose proof (seal_exhausted body _ Hk He) as Hx. destruct (seal body _) as [c r]. cbn in Hx. by subst r.
Qed.

(** Every transport the handshake ends in is [ciphered], and stays so: sealing
    a message moves the nonce by one and decrypting leaves the sending side. *)
Lemma into_transport_ciphered hs tr rs : HandshakeState.into_transport hs = Ok (tr, rs) -> ciphered tr.
Proof.
  unfold HandshakeState.into_transport. destruct (negb _); [done|].
  destruct (HandshakeState.rs hs) as [r|]; [|done]. cbn. intros E. unfold ciphered, keyed.
  destruct (HandshakeState.role hs); injection E as <- _; cbn; split; done.
Qed.

Lemma sealed_ciphered m tr tr' f : ciphered tr -> sealed_frame m tr = Some (tr', f) -> ciphered tr'.
Proof.
  intros [Hk Hn]. unfold sealed_frame, ciphered. destruct (encode_message m) as [body| |] eqn:E; [|done..].
  destruct (TransportState.failed tr); [done|].
  pose proof (encode_message_parts _ _ E) as (p & Hp & Hlen & _). apply padded_len_bounds in Hp as [_ Hp].
  destruct (N.eq_dec (CipherState.n (TransportState.send tr)) u64_max) as [He|He].
  - pose proof (seal_exhausted body _ Hk He) as Hx. destruct (seal body _) as [c r]. cbn in Hx. by subst r.
  - destruct (seal_unseal _ body Hk ltac:(lia) ltac:(lia)) as (c & ct & -> & _ & Hk' & Hn' & _).
    intros [= <- _]. cbn. split; [done|lia].
Qed.

Lemma decrypt_ciphered ct tr : ciphered tr -> ciphered (TransportState.decrypt ct tr).1.
Proof.
  unfold TransportState.decrypt, on. destruct (TransportState.failed tr); [done|].
  by destruct (bind _ _ (TransportState.recv tr)) as [c [p|e|]].
Qed.

(** ** The causes *)

(** Before the transport epoch, what fails the handshake. *)
Inductive handshake_fails (d : LinkDriver.t) (body : bytes) : Prop :=
  | fails_undecodable e : is_established d = false -> decode_message body = Err e -> handshake_fails d body
  | fails_error err : is_established d = false -> decode_message body = Ok (MError err) -> ErrorMsg.code err <> 2 ->
      handshake_fails d body
  | fails_hello_expected m : state d = AwaitPeerHello -> decode_message body = Ok m ->
      (forall h, m <> MHello h) -> (forall e, m <> MError e) -> handshake_fails d body
  | fails_handshake_expected hs m : state d = Handshaking hs -> decode_message body = Ok m ->
      (forall h, m <> MHandshake h) -> (forall e, m <> MError e) -> handshake_fails d body
  | fails_read hs h : state d = Handshaking hs -> decode_message body = Ok (MHandshake h) ->
      (HandshakeState.read_message (Handshake.msg h) hs).2 <> Ok [] -> handshake_fails d body
  | fails_write hs h hs' e : state d = Handshaking hs -> decode_message body = Ok (MHandshake h) ->
      HandshakeState.read_message (Handshake.msg h) hs = (hs', Ok []) -> HandshakeState.is_finished hs' = false ->
      (HandshakeState.write_message [] hs').2 = Err e -> handshake_fails d body.

(** [closes store io d fs body r out]: a body in the state of [d], with the
    frames [fs] already queued, closes the link with reason [r], and the call
    writes [out]. Silent causes drop the queue. *)
Inductive closes (store : EntryStore.t) (io : nat -> io_outcome) (d : LinkDriver.t) (fs : list bytes) (body : bytes)
  : CloseReason -> list bytes -> Prop :=
  | closes_no_version hello :
      state d = AwaitPeerHello -> decode_message body = Ok (MHello hello) ->
      incompatible (LinkDriverConfig.versions (config d)) (Hello.versions hello) ->
      closes store io d fs body VersionIncompatible (fs ++ error2_frames)
  | closes_peer_incompatible err :
      is_established d = false -> decode_message body = Ok (MError err) -> ErrorMsg.code err = 2 ->
      closes store io d fs body VersionIncompatible []
  | closes_handshake : handshake_fails d body -> closes store io d fs body HandshakeFailed []
  | closes_length tr : state d = Transport tr -> ~ good_length body -> closes store io d fs body BadCiphertextLength []
  | closes_exhausted tr tr' :
      state d = Transport tr -> good_length body -> TransportState.decrypt body tr = (tr', Err NoiseError.NonceExhausted) ->
      closes store io d fs body NonceExhausted []
  | closes_undecryptable tr tr' e :
      state d = Transport tr -> good_length body -> TransportState.decrypt body tr = (tr', Err e) ->
      e <> NoiseError.NonceExhausted -> closes store io d fs body DecryptFailed []
  | closes_malformed tr tr' p e :
      state d = Transport tr -> good_length body -> TransportState.decrypt body tr = (tr', Ok p) ->
      decode_message p = Err e -> closes store io d fs body (ProtocolViolation 1) (fs ++ sealed_error 1 tr')
  | closes_not_permitted tr tr' p m :
      state d = Transport tr -> good_length body -> TransportState.decrypt body tr = (tr', Ok p) ->
      decode_message p = Ok m -> ~ application m -> (forall e, m <> MError e) ->
      closes store io d fs body (ProtocolViolation 3) (fs ++ sealed_error 3 tr')
  | closes_peer_error tr tr' p err :
      state d = Transport tr -> good_length body -> TransportState.decrypt body tr = (tr', Ok p) ->
      decode_message p = Ok (MError err) -> closes store io d fs body (PeerError (ErrorMsg.code err)) []
  | closes_refused tr tr' p m sy st o err code :
      state d = Transport tr -> good_length body -> TransportState.decrypt body tr = (tr', Ok p) ->
      decode_message p = Ok m -> application m ->
      Syncer.handle_message_into (syncer d) store io m SyncOutput.default = (sy, st, o, Err err) ->
      code = error_code_u64 (SyncError.error_code err) ->
      closes store io d fs body (ProtocolViolation code) (fs ++ sealed_error code tr')
  | closes_unsealable tr tr' p m sy st o :
      state d = Transport tr -> good_length body -> TransportState.decrypt body tr = (tr', Ok p) ->
      decode_message p = Ok m -> application m ->
      Syncer.handle_message_into (syncer d) store io m SyncOutput.default = (sy, st, o, Ok tt) ->
      sealed_frames (SyncOutput.replies o) tr' = None ->
      closes store io d fs body NonceExhausted [].

(** The link has closed: the keys and the ciphers are gone, the frames are
    those of the cause, and the last event, and only that, is the close. *)
Definition shut (r : CloseReason) (fs : list bytes) (a : acc) : Prop :=
  state a.1 = LinkClosed r /\ keys a.1 = None /\ LinkOutput.frames a.2 = fs /\
  exists es, LinkOutput.events a.2 = es ++ [Closed r] /\ Forall not_closed es.

(** What an accepted body of the transport epoch does: it is decrypted,
    decoded and handed to the sync layer, whose replies are sealed in order
    and whose events come out. *)
Definition traffic (tr : TransportState.t) (store : EntryStore.t) (io : nat -> io_outcome) (body : bytes)
    (a a' : acc) (store' : EntryStore.t) : Prop :=
  exists tr1 p m sy o tr2 fs,
    good_length body /\ TransportState.decrypt body tr = (tr1, Ok p) /\ decode_message p = Ok m /\ application m /\
    Syncer.handle_message_into (syncer a.1) store io m SyncOutput.default = (sy, store', o, Ok tt) /\
    sealed_frames (SyncOutput.replies o) tr1 = Some (tr2, fs) /\
    a' = (set_state (Transport tr2) (set_syncer sy a.1),
          LinkOutput.mk (LinkOutput.frames a.2 ++ fs) (LinkOutput.events a.2 ++ map Sync (SyncOutput.events o))).

(** What a body does to an open link: with no cause to close it leaves the link
    open; with one the link closes as the cause says. *)
Inductive judged (store : EntryStore.t) (io : nat -> io_outcome) (body : bytes) (a a' : acc) (store' : EntryStore.t) : Prop :=
  | judged_open :
      is_closed a'.1 = false -> (forall r fs, ~ closes store io a.1 (LinkOutput.frames a.2) body r fs) ->
      (forall tr, state a.1 = Transport tr -> traffic tr store io body a a' store') ->
      judged store io body a a' store'
  | judged_closed r fs :
      closes store io a.1 (LinkOutput.frames a.2) body r fs -> shut r fs a' -> judged store io body a a' store'.

(** ** Every close has its cause *)

Lemma shut_silently r a : quiet a -> shut r [] (close_silently r a).
Proof. destruct a as [d out]. intros Hq. split_and!; try done. by eexists. Qed.

Lemma shut_error code r d out tr a' : quiet (d, out) -> state d = Transport tr ->
  close_with_error code r (d, out) = Some a' -> shut r (LinkOutput.frames out ++ sealed_error code tr) a'.
Proof.
  intros Hq Hs. unfold close_with_error, sealed_error. rewrite Hs.
  pose proof (encrypt_frame_sealed (MError (ErrorMsg.mk code)) tr) as He.
  destruct (sealed_frame _ tr) as [[tr' f]|].
  - rewrite He. cbn. intros [= <-]. split_and!; try done. by eexists.
  - destruct He as (tr' & e & ->). cbn. intros [= <-]. rewrite app_nil_r. split_and!; try done. by eexists.
Qed.

Lemma shut_error2 r d out a' : quiet (d, out) -> is_established d = false ->
  close_with_error 2 r (d, out) = Some a' -> shut r (LinkOutput.frames out ++ error2_frames) a'.
Proof.
  intros Hq Hs. unfold close_with_error, error2_frames, is_established in *.
  pose proof (encode_frame_no_panic (MError (ErrorMsg.mk 2))) as Hn.
  destruct (state d); [| |done|]; (destruct (encode_frame _) as [f| |]; [| |done]); cbn; intros [= <-];
    rewrite ?app_nil_r; (split_and!; [done..|by eexists]).
Qed.

Lemma replies_sealed ms d out tr : state d = Transport tr ->
  match sealed_frames ms tr with
  | Some (tr', fs) =>
      queue_replies ms (d, out) = Some (set_state (Transport tr') d, LinkOutput.mk (LinkOutput.frames out ++ fs) (LinkOutput.events out))
  | None => exists tr' fs, queue_replies ms (d, out) =
      Some (close_silently NonceExhausted (set_state (Transport tr') d, LinkOutput.mk fs (LinkOutput.events out)))
  end.
Proof.
  revert d out tr. induction ms as [|m ms IH]; intros d out tr Hs; cbn [sealed_frames queue_replies].
  { rewrite app_nil_r. destruct d, out. cbn in *. by subst. }
  unfold queue_encrypted. rewrite Hs. pose proof (encrypt_frame_sealed m tr) as He.
  destruct (sealed_frame m tr) as [[tr1 f]|].
  - rewrite He. cbn [mbind option_bind is_closed state set_state fst].
    specialize (IH (set_state (Transport tr1) d) (LinkOutput.push_frame f out) tr1 eq_refl).
    destruct (sealed_frames ms tr1) as [[tr2 fs]|]; cbn [mbind option_bind]; [|exact IH].
    rewrite IH. cbn. by rewrite <- app_assoc.
  - destruct He as (tr1 & e & ->). by exists tr1, (LinkOutput.frames out).
Qed.

(** The cases of [closes] for one state and one decoding of the body. *)
Ltac no_cause :=
  let Hcl := fresh "Hcl" in let Hfl := fresh "Hfl" in intros ? ? Hcl;
  destruct Hcl as [| |Hfl| | | | | | | |]; try destruct Hfl;
  cbn [fst snd] in *; repeat match goal with H1 : ?x = _, H2 : ?x = _ |- _ => rewrite H1 in H2; simplify_eq end;
  simplify_eq; eauto; try congruence.

Lemma common_Some_compatible ours theirs v : common_version ours theirs = Some v -> ~ incompatible ours theirs.
Proof. intros H Hi%common_version_None. congruence. Qed.

(** The first handshake message can always be written. *)
Lemma first_message sk ek prologue hs' r :
  HandshakeState.write_message [] (HandshakeState.new_xx Noise.Initiator sk ek prologue) = (hs', r) ->
  length (Keypair.public ek) = 32%nat -> exists m, r = Ok m.
Proof.
  intros E Hk. unfold HandshakeState.new_xx in E.
  match type of E with HandshakeState.write_message _ (HandshakeState.mk ?x ?s ?e _ _ _ _) = _ =>
    destruct (message1 x s e s e []) as (x' & m & W & _); [done|done|done|] end.
  rewrite W in E. injection E as _ <-. by eexists.
Qed.

Lemma judged_silently store io body a r b a' store' : closes store io a.1 (LinkOutput.frames a.2) body r [] -> quiet b ->
  Some (close_silently r b) = Some a' -> judged store io body a a' store'.
Proof.
  intros Hc Hq H. assert (a' = close_silently r b) as -> by congruence.
  eapply judged_closed; [exact Hc|by apply shut_silently].
Qed.

Lemma hello_judged store io body d out a' : state d = AwaitPeerHello -> quiet (d, out) -> keys_ok (keys d) ->
  handle_hello_body body (set_state (LinkClosed HandshakeFailed) d, out) = Some a' -> judged store io body (d, out) a' store.
Proof.
  intros Hs Hq Hk. unfold handle_hello_body. set (d0 := set_state _ d).
  assert (He : is_established d = false) by (unfold is_established; by rewrite Hs).
  assert (Hf : handshake_fails d body -> Some (close_silently HandshakeFailed (d0, out)) = Some a' ->
    judged store io body (d, out) a' store).
  { intros Hf. apply judged_silently; [by apply closes_handshake|done]. }
  destruct (decode_message body) as [m|e|] eqn:Em; [|apply Hf; by econstructor|done].
  destruct m as [hello| | | | | |err]; try (apply Hf; by eapply fails_hello_expected).
  2: { destruct (N.eqb_spec (ErrorMsg.code err) 2) as [E2|E2]; [|apply Hf; by eapply fails_error].
    apply judged_silently; [by eapply closes_peer_incompatible|done]. }
  destruct (common_version _ _) as [v|] eqn:Ev.
  2: { intros Ha. eapply judged_closed; [|by eapply (shut_error2 _ d0)].
    eapply closes_no_version; [done|done|by apply common_version_None]. }
  intros Ha. apply common_Some_compatible in Ev. change (config (d0, out).1) with (config d) in Ev.
  apply judged_open; [| |intros tr; cbn; congruence].
  2: no_cause.
  match type of Ha with (?o ≫= _) = _ => assert (Ho : forall a1, o = Some a1 -> role a1.1 = role d /\ keys a1.1 = keys d) end.
  { intros a1. cbn [fst snd role set_negotiated_version d0 set_state]. destruct (role d) eqn:Er; [by intros [= <-]|].
    unfold queue_hello. destruct (encode_message _); [|done..]. by intros [= <-]. }
  match type of Ha with (?o ≫= _) = _ => destruct o as [a1|] eqn:Eo; [|done] end.
  destruct (Ho a1 eq_refl) as [_ Ek]. cbn [mbind option_bind] in Ha. rewrite Ek in Ha.
  destruct (keys d) as [[sk ek]|]; [|done]. cbn [mbind option_bind fst snd role clear_keys] in Ha.
  destruct (role a1.1); [|by injection Ha as <-].
  destruct (HandshakeState.write_message [] _) as [hs r] eqn:Ew.
  destruct (first_message _ _ _ _ _ Ew (proj2 Hk)) as [m1 ->].
  destruct (queue_handshake_frame m1 _) as [a2|]; [|done]. by injection Ha as <-.
Qed.

(** Finishing on a well-formed handshake leaves the link open. *)
Lemma finish_open hs a a' : hs_wf hs -> finish_handshake hs a = Some a' -> is_closed a'.1 = false.
Proof.
  intros Hw. unfold finish_handshake. destruct (HandshakeState.is_finished hs) eqn:Hf; [|by intros [= <-]].
  unfold HandshakeState.into_transport. rewrite Hf. cbn [negb].
  assert (is_Some (HandshakeState.rs hs)) as [rs ->].
  { apply finished_step in Hf; [|done]. unfold hs_wf in Hw. rewrite Hf in Hw. intuition lia. }
  destruct (SymmetricState.split _) as [[c1 c2] h]. by intros [= <-].
Qed.

Lemma handshake_judged store io hs body d out a' : state d = Handshaking hs -> quiet (d, out) -> hs_ready hs ->
  handle_handshake_body hs body (set_state (LinkClosed HandshakeFailed) d, out) = Some a' ->
  judged store io body (d, out) a' store.
Proof.
  intros Hs Hq (Hw & Hk & Ht & H4). unfold handle_handshake_body. set (d0 := set_state _ d).
  assert (He : is_established d = false) by (unfold is_established; by rewrite Hs).
  assert (Hf : handshake_fails d body -> Some (close_silently HandshakeFailed (d0, out)) = Some a' ->
    judged store io body (d, out) a' store).
  { intros Hf. apply judged_silently; [by apply closes_handshake|done]. }
  destruct (decode_message body) as [m|e|] eqn:Em; [|apply Hf; by econstructor|done].
  destruct m as [|h| | | | |err]; try (apply Hf; by eapply fails_handshake_expected).
  2: { destruct (N.eqb_spec (ErrorMsg.code err) 2) as [E2|E2]; [|apply Hf; by eapply fails_error].
    apply judged_silently; [by eapply closes_peer_incompatible|done]. }
  pose proof (read_total hs (Handshake.msg h) Hw H4 Ht) as Hrd. unfold runs in Hrd.
  pose proof (read_keeps_keys (Handshake.msg h) hs) as Hkeep.
  destruct (HandshakeState.read_message (Handshake.msg h) hs) as [hs1 r] eqn:Er. cbn [fst] in Hkeep.
  destruct r as [[|x p]|e|]; [|apply Hf; by eapply fails_read; [..|rewrite Er]..|done]. destruct Hrd as [Hw1 Hst1].
  assert (Hopen : HandshakeState.is_finished hs1 = true \/ (exists m, (HandshakeState.write_message [] hs1).2 = Ok m) ->
    is_closed a'.1 = false -> judged store io body (d, out) a' store).
  { intros Hn Ho. apply judged_open; [done| |intros tr; cbn; congruence]. no_cause; try (by rewrite Er in *).
    all: destruct Hn as [?|[? Hn]]; congruence. }
  destruct (HandshakeState.is_finished hs1) eqn:Hf1.
  { intros Ha. apply Hopen; [by left|]. by eapply finish_open. }
  assert (H41 : HandshakeState.step hs1 <> 4) by (rewrite <- finished_step by done; by rewrite Hf1).
  pose proof (turn_alternates hs hs1 Hw H4 ltac:(unfold pair_of in Hkeep; by injection Hkeep) Hst1 H41) as Ht1. rewrite Ht in Ht1.
  pose proof (write_total hs1 [] Hw1 Ht1) as Hwr. unfold runs in Hwr. pose proof (write_small hs1) as Hsm.
  destruct (HandshakeState.write_message [] hs1) as [hs2 r] eqn:Ew.
  destruct r as [m|e|]; [|apply Hf; by eapply fails_write; [..|rewrite Ew]|done]. destruct Hwr as [Hw2 _].
  intros Ha. apply Hopen; [right; by eexists|].
  destruct (queue_handshake_frame m (d0, out)) as [a2|]; [|done]. by eapply finish_open.
Qed.

Lemma application_cases m : application m \/ (exists e, m = MError e) \/ (~ application m /\ forall e, m <> MError e).
Proof. destruct m; cbn; eauto; right; right; split; (congruence || tauto). Qed.

(** The sync layer's part: its result is traffic, a refusal, or a reply that
    cannot be sealed. *)
Lemma sync_judged store io tr tr1 p m body d out a' store' : state d = Transport tr -> quiet (d, out) ->
  good_length body -> TransportState.decrypt body tr = (tr1, Ok p) -> decode_message p = Ok m -> application m ->
  handle_sync store io m (set_state (Transport tr1) (set_state (LinkClosed HandshakeFailed) d), out) = Some (a', store') ->
  judged store io body (d, out) a' store'.
Proof.
  intros Hs Hq Hl Ed Em Ha. unfold handle_sync.
  assert (He : is_established d = true) by (unfold is_established; by rewrite Hs).
  change (syncer (set_state (Transport tr1) (set_state (LinkClosed HandshakeFailed) d))) with (syncer d).
  destruct (Syncer.handle_message_into (syncer d) store io m SyncOutput.default) as [[[sy st] o] r] eqn:Eh.
  set (d1 := set_syncer sy _). set (out1 := LinkOutput.push_events _ _).
  assert (Hq1 : quiet (d1, out1)) by (unfold quiet; cbn; apply Forall_app; split; [exact Hq|apply map_sync_quiet]).
  destruct r as [[]|err|]; [| |done].
  - pose proof (replies_sealed (SyncOutput.replies o) d1 out1 tr1 eq_refl) as Hr.
    destruct (sealed_frames (SyncOutput.replies o) tr1) as [[tr2 fs]|] eqn:Ef.
    + rewrite Hr. cbn [mbind option_bind]. intros [= <- <-]. apply judged_open; [done| |].
      * no_cause.
      * intros tr0. cbn [fst]. rewrite Hs. intros [= <-]. by exists tr1, p, m, sy, o, tr2, fs.
    + destruct Hr as (tr2 & fs & ->). cbn [mbind option_bind]. intros H.
      assert (st = store') as -> by congruence.
      eapply (judged_silently _ _ _ _ _ (set_state (Transport tr2) d1, LinkOutput.mk fs (LinkOutput.events out1)));
        [by eapply closes_unsealable|exact Hq1|congruence].
  - set (code := error_code_u64 _). destruct (close_with_error code _ _) as [a1|] eqn:Ec; [|done].
    cbn [mbind option_bind]. intros [= <- <-].
    eapply judged_closed; [by eapply closes_refused|]. by apply (shut_error _ _ d1 out1).
Qed.

Lemma transport_judged store io tr body d out a' store' : state d = Transport tr -> quiet (d, out) ->
  handle_transport_body tr store io body (set_state (LinkClosed HandshakeFailed) d, out) = Some (a', store') ->
  judged store io body (d, out) a' store'.
Proof.
  intros Hs Hq. unfold handle_transport_body. set (d0 := set_state _ d).
  assert (Hsil : forall r st, closes store io d (LinkOutput.frames out) body r [] ->
    Some (close_silently r (st, out), store) = Some (a', store') -> judged store io body (d, out) a' store').
  { intros r st Hc H. assert (store = store') as <- by congruence.
    apply (judged_silently _ _ _ (d, out) r (st, out)); [done|done|congruence]. }
  pose proof (good_length_spec body) as Hgl. destruct (_ || _).
  { apply Hsil. eapply closes_length; [done|]. intros H. by apply Hgl in H. }
  apply proj1 in Hgl. specialize (Hgl eq_refl).
  destruct (TransportState.decrypt body tr) as [tr1 [p|e|]] eqn:Ed; [| |done].
  2: { destruct e; try (apply Hsil; by eapply closes_undecryptable). apply Hsil; by eapply closes_exhausted. }
  cbn [fst snd]. set (d1 := set_state (Transport tr1) d0).
  assert (Herr : forall code, closes store io d (LinkOutput.frames out) body (ProtocolViolation code)
      (LinkOutput.frames out ++ sealed_error code tr1) ->
    (a ← close_with_error code (ProtocolViolation code) (d1, out); Some (a, store)) = Some (a', store') ->
    judged store io body (d, out) a' store').
  { intros code Hc. destruct (close_with_error code _ _) as [a1|] eqn:Ec; [|done]. cbn [mbind option_bind]. intros [= <- <-].
    eapply judged_closed; [exact Hc|]. by apply (shut_error _ _ d1 out). }
  destruct (decode_message p) as [m|e|] eqn:Em; [|apply Herr; by eapply closes_malformed|done].
  destruct m; try (apply Herr; eapply closes_not_permitted; done || (by intros [])); try (by apply sync_judged with tr p).
  all: try (eapply (sync_judged _ _ tr tr1 p); done).
  apply Hsil. by eapply closes_peer_error.
Qed.

(** One body on an open link is judged by its causes, and by nothing else. *)
Lemma body_judged store io body a a' store' : J a -> is_closed a.1 = false ->
  handle_body store io body a = Some (a', store') -> judged store io body a a' store'.
Proof.
  destruct a as [d out]. intros [Hb Hs Ht] Hc. unfold handle_body. cbn [fst snd] in *.
  assert (Hq : quiet (d, out)) by (unfold tidy, close_reason, is_closed, quiet in *; cbn in *; by destruct (state d)).
  destruct (state d) as [|hs|tr|r] eqn:Es; [| |by apply transport_judged|unfold is_closed in Hc; by rewrite Es in Hc].
  - destruct (handle_hello_body _ _) as [a1|] eqn:E; [|done]. intros [= <- <-].
    apply hello_judged; [done|done|apply Hs|exact E].
  - destruct (handle_handshake_body _ _ _) as [a1|] eqn:E; [|done]. intros [= <- <-].
    apply (handshake_judged _ _ hs); [done|done|apply Hs|exact E].
Qed.

(** ** The receive loop and the call *)

(** The complete bodies of the decoder are taken in order; each is judged, and
    the first that closes the link is the last one looked at. *)
Inductive receives (io : nat -> nat -> io_outcome)
  : nat -> EntryStore.t -> acc -> acc -> EntryStore.t -> Prop :=
  | receives_none k store d out dec : FrameDecoder.next_body (decoder d) = (None, dec) ->
      receives io k store (d, out) (set_decoder dec d, out) store
  | receives_close k store d out dec body a store' :
      FrameDecoder.next_body (decoder d) = (Some body, dec) ->
      judged store (io k) body (set_decoder dec d, out) a store' -> is_closed a.1 = true ->
      receives io k store (d, out) a store'
  | receives_open k store d out dec body a1 store1 a store' :
      FrameDecoder.next_body (decoder d) = (Some body, dec) ->
      handle_body store (io k) body (set_decoder dec d, out) = Some (a1, store1) ->
      judged store (io k) body (set_decoder dec d, out) a1 store1 -> is_closed a1.1 = false ->
      receives io (S k) store1 a1 a store' -> receives io k store (d, out) a store'.

(** A limit of the link has passed: the handshake's before establishment,
    and otherwise the lifetime. *)
Inductive overdue (now : N) (d : LinkDriver.t) : CloseReason -> Prop :=
  | overdue_handshake : is_established d = false ->
      LinkDriverConfig.handshake_timeout_us (config d) <= now - opened_at_us d -> overdue now d HandshakeTimeout
  | overdue_lifetime :
      is_established d = true \/ now - opened_at_us d < LinkDriverConfig.handshake_timeout_us (config d) ->
      LinkDriverConfig.max_lifetime_us (config d) <= now - opened_at_us d -> overdue now d LifetimeExpired.

(** A call on any driver: a closed one is inert, one past a limit closes
    silently, and any other judges the bodies it now holds. *)
Inductive disciplined (io : nat -> nat -> io_outcome) (bs : bytes) (now : N) (d : LinkDriver.t) (store : EntryStore.t)
  : acc -> EntryStore.t -> Prop :=
  | disciplined_closed : is_closed d = true -> disciplined io bs now d store (d, LinkOutput.default) store
  | disciplined_overdue r d' : is_closed d = false -> overdue now d r -> state d' = LinkClosed r -> keys d' = None ->
      disciplined io bs now d store (d', LinkOutput.mk [] [Closed r]) store
  | disciplined_open a store' : is_closed d = false -> (forall r, ~ overdue now d r) ->
      receives io 0 store (set_decoder (FrameDecoder.push (decoder d) bs) d, LinkOutput.default) a store' ->
      disciplined io bs now d store a store'.

Lemma body_loop_receives fuel k store io a a' store' : J a -> is_closed a.1 = false -> StoreSpec.wf store ->
  stored store + pending_len a.1 < u32_max -> body_loop fuel k store io a = Some (a', store') ->
  receives io k store a a' store'.
Proof.
  revert k store a. induction fuel as [|fuel IH]; intros k store [d out] HJ Hc Hwf Hroom; [done|].
  cbn [body_loop]. destruct (FrameDecoder.next_body (decoder d)) as [[body|] dec] eqn:En.
  2: { intros [= <- <-]. by apply receives_none. }
  pose proof (next_body_len _ _ _ En) as Hl. unfold pending_len in *. cbn [fst] in *.
  pose proof (J_set_decoder dec _ HJ) as HJd.
  pose proof (handle_body_J store (io k) body (set_decoder dec d, out) HJd Hc Hwf ltac:(lia)) as Hh.
  destruct (handle_body store (io k) body (set_decoder dec d, out)) as [[a1 store1]|] eqn:Eh; [|done].
  cbn [total mbind option_bind] in *. destruct Hh as [HJ1 (Hwf1 & _ & Hst)].
  pose proof (body_judged _ _ _ _ _ _ HJd Hc Eh) as Hj.
  pose proof (handle_body_fixed _ _ _ _ _ _ Eh) as Hd. injection Hd as Hd _ _ _. cbn in Hd.
  destruct (is_closed a1.1) eqn:Ec.
  - intros [= <- <-]. by eapply receives_close.
  - intros Hb. eapply receives_open; [done|done|done|done|]. apply IH; [done|done|done|rewrite Hd; lia|done].
Qed.

Lemma checks_overdue now d : is_closed d = false ->
  match check_timeouts now (d, LinkOutput.default) with
  | (a, true) => exists r d', overdue now d r /\ state d' = LinkClosed r /\ keys d' = None /\ a = (d', LinkOutput.mk [] [Closed r])
  | (a, false) => a = (d, LinkOutput.default) /\ forall r, ~ overdue now d r
  end.
Proof.
  intros Hc. unfold check_timeouts. rewrite Hc.
  set (age := now - opened_at_us d).
  assert (Hsil : forall r, overdue now d r -> exists r' d', overdue now d r' /\ state d' = LinkClosed r' /\ keys d' = None /\
    close_silently r (d, LinkOutput.default) = (d', LinkOutput.mk [] [Closed r'])).
  { intros r Hr. by exists r, (clear_keys (set_state (LinkClosed r) d)). }
  destruct (is_established d) eqn:He; cbn [negb andb].
  - destruct (N.leb_spec (LinkDriverConfig.max_lifetime_us (config d)) age).
    + apply Hsil, overdue_lifetime; [by left|done].
    + split; [done|]. intros r []; [congruence|lia].
  - destruct (N.leb_spec (LinkDriverConfig.handshake_timeout_us (config d)) age).
    { by apply Hsil, overdue_handshake. }
    destruct (N.leb_spec (LinkDriverConfig.max_lifetime_us (config d)) age).
    + apply Hsil, overdue_lifetime; [by right|done].
    + split; [done|]. intros r []; lia.
Qed.

(** C11: the link driver survives any peer and closes as section 7 says. Fed any
    bytes in any state at any time, it does not abort, keeps its invariant and
    the store's, and only adds entries. A closed driver stays as it is and says
    nothing; one past a limit closes silently. Otherwise the complete bodies
    are taken in order: one for which section 7 has no cause to close leaves
    the link open, its traffic handed to the sync layer and answered in
    sealed frames; and the first that has a cause closes the link with the
    reason of that cause, the keys gone, one [Closed] event at the end, and on
    the wire exactly what the cause calls for: nothing for every failure of
    the cleartext epoch but an empty version intersection (ERROR 2), for a
    ciphertext of a wrong length or that does not decrypt, for a received
    ERROR and for a spent nonce; ERROR 1 for an undecodable plaintext, ERROR
    3 for a cleartext type, and the sync layer's code for a refusal, sealed
    under the transport. *)
Theorem link_safety d store io bs now (Hd : driver_wf d) (Hs : StoreSpec.wf store)
    (Hroom : stored store + pending_len d + lenN bs < u32_max) :
  match on_bytes store io bs now d with
  | None => False
  | Some ((d', out), store') =>
      driver_wf d' /\ StoreSpec.wf store' /\ EntryStore.entries store ⊆ EntryStore.entries store' /\
      disciplined io bs now d store (d', out) store' /\
      (if is_closed d then d' = d /\ out = LinkOutput.default else tidy (d', out))
  end.
Proof.
  pose proof (on_bytes_spec d store io bs now Hd Hs Hroom) as H.
  destruct (on_bytes store io bs now d) as [[[d' out] store']|] eqn:E; [|done].
  destruct H as (H1 & (H2 & H3 & _) & H4). split_and!; [done..| |].
  2: { destruct H4 as [H4 _]. by destruct (is_closed d); [|destruct H4]. }
  clear H1 H2 H3 H4. revert E. unfold on_bytes. destruct (is_closed d) eqn:Hc.
  { unfold check_timeouts. rewrite Hc. intros [= <- <- <-]. by apply disciplined_closed. }
  pose proof (checks_overdue now d Hc) as Ho. destruct (check_timeouts now _) as [[d1 o1] []].
  - destruct Ho as (r & d2 & Hr & Hst & Hk & [= -> ->]). intros [= <- <- <-]. by apply disciplined_overdue.
  - destruct Ho as [[= -> ->] Hno]. rewrite Hc. intros E. apply disciplined_open; [done|done|].
    assert (Hl : lenN (FrameDecoder.buf (FrameDecoder.push (decoder d) bs)) = pending_len d + lenN bs) by apply lenN_app.
    eapply body_loop_receives; [..|exact E]; [by apply (J_set_decoder _ (d, LinkOutput.default)), wf_J|done|done|].
    unfold pending_len in *. cbn [fst decoder set_decoder]. rewrite Hl. lia.
Qed.

End Spec.
