(* ===== verification/LinkSpec.v ===== *)
(** * Two drivers meet

    The establishment of a link between two honest drivers, the delivery of a
    message over an established one, and every outcome of [send]. *)
From S2P Require Import Prelude Errors Pad Crypto Cbor CborRef Entry Msg Frame Store StoreSpec Session SessionSpec Noise NoiseSpec Driver DriverSpec LinkClose.
Import LinkDriver.
Open Scope N_scope.

(** ** The effective version *)

Lemma foldl_max_spec vs v : let m := foldl N.max v vs in
  (m = v \/ m ∈ vs) /\ v <= m /\ forall w, w ∈ vs -> w <= m.
Proof.
  revert v. induction vs as [|x vs IH]; intros v; cbn.
  - split_and!; [by left|done|set_solver].
  - destruct (IH (N.max v x)) as (H1 & H2 & H3). split_and!; [|lia|].
    + destruct H1 as [H1|H1]; [|right; set_solver]. rewrite H1.
      destruct (N.max_spec v x) as [[_ ->]|[_ ->]]; [right; set_solver|by left].
    + intros w [->|Hw]%elem_of_cons; [lia|by apply H3].
Qed.

(** The highest version both sides offer. *)
Lemma common_version_Some ours theirs v :
  common_version ours theirs = Some v <->
  v ∈ ours /\ v ∈ theirs /\ forall w, w ∈ ours -> w ∈ theirs -> w <= v.
Proof.
  unfold common_version. pose proof (fun w => common_filter ours theirs w) as Hf.
  destruct (List.filter _ theirs) as [|x xs].
  - split; [done|]. intros (H1 & H2 & _). exfalso. specialize (Hf v). set_solver.
  - destruct (foldl_max_spec xs x) as (H1 & H2 & H3). set (m := foldl N.max x xs) in *.
    assert (Hm : m ∈ ours /\ m ∈ theirs) by (apply Hf; destruct H1 as [->|H1]; set_solver).
    assert (Hmax : forall w, w ∈ ours -> w ∈ theirs -> w <= m).
    { intros w Ho Ht. assert (Hw : w ∈ x :: xs) by (apply Hf; done).
      apply elem_of_cons in Hw as [->|Hw]; [done|by apply H3]. }
    split.
    + intros [= <-]. destruct Hm. done.
    + intros (Ho & Ht & Hv). f_equal. destruct Hm as [Hmo Hmt]. pose proof (Hv m Hmo Hmt). pose proof (Hmax v Ho Ht). lia.
Qed.

Lemma common_version_sym a b v : common_version a b = Some v -> common_version b a = Some v.
Proof. rewrite !common_version_Some. intros (H1 & H2 & H3). split_and!; auto. Qed.

Section Spec.
Context {cbor : Cbor} {crypto : Crypto}.

(** ** One frame per call *)

(** The times of a call lie within both limits of the link. *)
Definition in_time (now : N) (d : t) : Prop :=
  now - opened_at_us d < LinkDriverConfig.handshake_timeout_us (config d) /\
  now - opened_at_us d < LinkDriverConfig.max_lifetime_us (config d).

Lemma in_time_checks now d : in_time now d -> is_closed d = false ->
  check_timeouts now (d, LinkOutput.default) = ((d, LinkOutput.default), false).
Proof.
  intros [H1 H2] Hc. unfold check_timeouts. rewrite Hc.
  destruct (N.leb_spec (LinkDriverConfig.handshake_timeout_us (config d)) (now - opened_at_us d)); [lia|].
  rewrite andb_false_r. destruct (N.leb_spec (LinkDriverConfig.max_lifetime_us (config d)) (now - opened_at_us d)); [lia|done].
Qed.

(** An established driver has only its lifetime to watch. *)
Definition in_life (now : N) (d : t) : Prop := now - opened_at_us d < LinkDriverConfig.max_lifetime_us (config d).

Lemma in_life_checks now d tr : in_life now d -> state d = Transport tr ->
  check_timeouts now (d, LinkOutput.default) = ((d, LinkOutput.default), false).
Proof.
  intros H Hs. unfold check_timeouts, is_closed, is_established. rewrite Hs. cbn [negb andb].
  unfold in_life in H. by rewrite (proj2 (N.leb_gt _ _)).
Qed.

Lemma set_decoder_same d : set_decoder (decoder d) d = d.
Proof. by destruct d. Qed.

Lemma on_bytes_frame store io body now d :
  check_timeouts now (d, LinkOutput.default) = ((d, LinkOutput.default), false) -> is_closed d = false ->
  FrameDecoder.buf (decoder d) = [] -> lenN body <= u16_max ->
  forall a store', handle_body store (io 0%nat) body (d, LinkOutput.default) = Some (a, store') ->
  on_bytes store io (frame body) now d = Some (a, store').
Proof.
  intros Ht Hc Hbuf Hl a store' Hh. unfold on_bytes. rewrite Ht, Hc.
  unfold FrameDecoder.push. rewrite Hbuf. cbn [app FrameDecoder.buf].
  assert (Hd : decoder d = FrameDecoder.mk []) by (destruct (decoder d); cbn in Hbuf; by subst).
  cbn [body_loop]. cbn [decoder set_decoder].
  pose proof (next_body_frame body [] Hl) as Hn. rewrite app_nil_r in Hn. rewrite Hn.
  assert (Hs : set_decoder (FrameDecoder.mk []) (set_decoder (FrameDecoder.mk (frame body)) d) = d)
    by (rewrite <- Hd; by destruct d).
  rewrite Hs, Hh. cbn [mbind option_bind].
  destruct (is_closed a.1) eqn:Ec; [done|].
  pose proof (handle_body_fixed _ _ _ _ _ _ Hh) as [= Hd' _ _ _].
  destruct (length (frame body)) as [|n] eqn:El; [pose proof (frame_length body); lia|].
  destruct a as [d' out']. cbn [fst] in *. cbn [body_loop]. rewrite Hd', Hd. cbn.
  rewrite <- Hd, <- Hd'. by rewrite set_decoder_same.
Qed.

(** A handshake message on the wire. *)
Lemma handshake_wire m : lenN m <= 60000 ->
  exists body, encode_frame (MHandshake (Handshake.mk m)) = Ok (frame body) /\
    decode_message body = Ok (MHandshake (Handshake.mk m)) /\ lenN body <= u16_max.
Proof.
  intros Hl. destruct (handshake_encodes (Handshake.mk m) Hl) as [body E]. exists body.
  rewrite encode_frame_eq, E. split_and!; [done| |by eapply encoded_body_u16].
  apply decode_encode_message; [|done]. cbn. unfold u64_max. lia.
Qed.

(** ** The steps of establishment *)

Lemma responder_hello d store io body hello v bR sk ek :
  state d = AwaitPeerHello -> role d = Session.Responder -> keys d = Some (sk, ek) ->
  decode_message body = Ok (MHello hello) ->
  common_version (LinkDriverConfig.versions (config d)) (Hello.versions hello) = Some v ->
  encode_message (own_hello d) = Ok bR ->
  exists d', handle_body store io body (d, LinkOutput.default) = Some ((d', LinkOutput.mk [frame bR] []), store) /\
    fixed d' = fixed d /\ syncer d' = syncer d /\ negotiated_version d' = Some v /\
    state d' = Handshaking (HandshakeState.new_xx Responder sk ek (body ++ bR)).
Proof.
  destruct d as [ro st cf de sy ks oh rf nv oa]. cbn [state role keys config]. intros -> -> -> Hd Hv He.
  unfold handle_body. cbn [state]. unfold handle_hello_body. rewrite Hd. cbn [fst snd config set_state]. rewrite Hv.
  cbn [role set_negotiated_version]. unfold queue_hello.
  change (own_hello _) with (own_hello (mk Session.Responder AwaitPeerHello cf de sy (Some (sk, ek)) oh rf nv oa)) at 1.
  rewrite He. cbn. eexists. split_and!; try reflexivity.
Qed.

Lemma initiator_hello d store io body hello v sk ek hs m f :
  state d = AwaitPeerHello -> role d = Session.Initiator -> keys d = Some (sk, ek) ->
  decode_message body = Ok (MHello hello) ->
  common_version (LinkDriverConfig.versions (config d)) (Hello.versions hello) = Some v ->
  HandshakeState.write_message [] (HandshakeState.new_xx Initiator sk ek (our_hello_body d ++ body)) = (hs, Ok m) ->
  encode_frame (MHandshake (Handshake.mk m)) = Ok f ->
  exists d', handle_body store io body (d, LinkOutput.default) = Some ((d', LinkOutput.mk [f] []), store) /\
    fixed d' = fixed d /\ syncer d' = syncer d /\ negotiated_version d' = Some v /\ state d' = Handshaking hs.
Proof.
  destruct d as [ro st cf de sy ks oh rf nv oa]. cbn [state role keys config our_hello_body].
  intros -> -> -> Hd Hv Hw He.
  unfold handle_body. cbn [state]. unfold handle_hello_body. rewrite Hd. cbn [fst snd config set_state]. rewrite Hv.
  cbn [role set_negotiated_version mbind option_bind fst snd keys clear_keys our_hello_body set_state state]. rewrite Hw.
  unfold queue_handshake_frame. rewrite He. cbn. eexists. split_and!; reflexivity.
Qed.

(** A handshake body that is answered. *)
Lemma handshake_answer d store io body hs m hs1 hs2 m2 f :
  state d = Handshaking hs -> decode_message body = Ok (MHandshake (Handshake.mk m)) ->
  HandshakeState.read_message m hs = (hs1, Ok []) -> HandshakeState.is_finished hs1 = false ->
  HandshakeState.write_message [] hs1 = (hs2, Ok m2) -> encode_frame (MHandshake (Handshake.mk m2)) = Ok f ->
  handle_body store io body (d, LinkOutput.default) =
    (a ← finish_handshake hs2 (set_state (LinkClosed HandshakeFailed) d, LinkOutput.mk [f] []); Some (a, store)).
Proof.
  intros Hs Hd Hr Hf Hw He. unfold handle_body. rewrite Hs. unfold handle_handshake_body. rewrite Hd.
  cbn [Handshake.msg]. rewrite Hr, Hf, Hw. unfold queue_handshake_frame. rewrite He. done.
Qed.

(** The last handshake body. *)
Lemma handshake_last d store io body hs m hs1 :
  state d = Handshaking hs -> decode_message body = Ok (MHandshake (Handshake.mk m)) ->
  HandshakeState.read_message m hs = (hs1, Ok []) -> HandshakeState.is_finished hs1 = true ->
  handle_body store io body (d, LinkOutput.default) =
    (a ← finish_handshake hs1 (set_state (LinkClosed HandshakeFailed) d, LinkOutput.default); Some (a, store)).
Proof.
  intros Hs Hd Hr Hf. unfold handle_body. rewrite Hs. unfold handle_handshake_body. rewrite Hd.
  cbn [Handshake.msg]. by rewrite Hr, Hf.
Qed.

Lemma finish_done hs a tr rs : HandshakeState.into_transport hs = Ok (tr, rs) ->
  exists d', finish_handshake hs a = Some (d', LinkOutput.push_events [Established (sha256 rs)] a.2) /\
    fixed d' = fixed a.1 /\ syncer d' = syncer a.1 /\ state d' = Transport tr /\ remote_fingerprint d' = Some (sha256 rs) /\
    negotiated_version d' = negotiated_version a.1.
Proof.
  intros Hi. unfold finish_handshake.
  assert (HandshakeState.is_finished hs = true) as ->.
  { unfold HandshakeState.into_transport in Hi. by destruct (HandshakeState.is_finished hs). }
  rewrite Hi. eexists. split_and!; reflexivity.
Qed.

Lemma finish_more hs a : HandshakeState.is_finished hs = false ->
  exists d', finish_handshake hs a = Some (d', a.2) /\ fixed d' = fixed a.1 /\ syncer d' = syncer a.1 /\
    state d' = Handshaking hs /\
    negotiated_version d' = negotiated_version a.1.
Proof. intros Hf. unfold finish_handshake. rewrite Hf. eexists. split_and!; reflexivity. Qed.

(** A fresh driver, ready to meet a peer. *)
Definition hello_body (c : LinkDriverConfig.t) (body : bytes) : Prop :=
  let hello := MHello (Hello.mk (LinkDriverConfig.versions c) (LinkDriverConfig.features c) (LinkDriverConfig.transports c)) in
  wf_message hello /\ encode_message hello = Ok body.

Lemma fixed_parts d d' : fixed d' = fixed d -> decoder d' = decoder d /\ config d' = config d /\
  role d' = role d /\ opened_at_us d' = opened_at_us d.
Proof. unfold fixed. by intros [= -> -> -> ->]. Qed.

Lemma in_time_fixed now d d' : fixed d' = fixed d -> in_time now d -> in_time now d'.
Proof. intros (_ & Hc & _ & Ho)%fixed_parts. unfold in_time. by rewrite Hc, Ho. Qed.

(** A call on a frame, seen from a driver with the fixed fields of a fresh
    one. *)
Lemma step_frame store io body now d0 d a : fixed d = fixed d0 -> in_time now d0 ->
  FrameDecoder.buf (decoder d0) = [] -> is_closed d = false -> lenN body <= u16_max ->
  handle_body store (io 0%nat) body (d, LinkOutput.default) = Some (a, store) ->
  on_bytes store io (frame body) now d = Some (a, store).
Proof.
  intros Hf Ht Hb Hc Hl Hh. apply on_bytes_frame; [|done| |done|done].
  { apply in_time_checks; [by eapply in_time_fixed|done]. }
  by destruct (fixed_parts _ _ Hf) as (-> & _).
Qed.

Lemma fixed_fresh d d' r sk ek c t0 : fixed d' = fixed d -> fixed d = fixed (new r sk ek c t0) ->
  fixed d' = fixed (new r sk ek c t0).
Proof. congruence. Qed.

(** A link establishes. Two honest drivers that offer a common version and
    meet within their time limits need exactly the five frames of section
    4.1: both end established, on the highest common version, each knowing
    the fingerprint of the other's static key, with transports that share
    both keys. *)
Theorem link_establishes sI eI sR eR cI cR bI bR v tI tR now stI stR io :
  honest sI -> honest eI -> honest sR -> honest eR ->
  hello_body cI bI -> hello_body cR bR ->
  common_version (LinkDriverConfig.versions cI) (LinkDriverConfig.versions cR) = Some v ->
  let dI := new Session.Initiator sI eI cI tI in
  let dR := new Session.Responder sR eR cR tR in
  in_time now dI -> in_time now dR ->
  exists dI1 dI2 dI3 dR1 dR2 dR3 f1 f2 f3 f4 f5 trI trR,
    start dI = Some (dI1, LinkOutput.mk [f1] []) /\
    on_bytes stR io f1 now dR = Some ((dR1, LinkOutput.mk [f2] []), stR) /\
    on_bytes stI io f2 now dI1 = Some ((dI2, LinkOutput.mk [f3] []), stI) /\
    on_bytes stR io f3 now dR1 = Some ((dR2, LinkOutput.mk [f4] []), stR) /\
    on_bytes stI io f4 now dI2 =
      Some ((dI3, LinkOutput.mk [f5] [Established (sha256 (Keypair.public sR))]), stI) /\
    on_bytes stR io f5 now dR2 =
      Some ((dR3, LinkOutput.mk [] [Established (sha256 (Keypair.public sI))]), stR) /\
    state dI3 = Transport trI /\ state dR3 = Transport trR /\ linked trI trR /\
    negotiated_version dI3 = Some v /\ negotiated_version dR3 = Some v /\
    remote_fingerprint dI3 = Some (sha256 (Keypair.public sR)) /\
    remote_fingerprint dR3 = Some (sha256 (Keypair.public sI)) /\
    (forall w, w ∈ LinkDriverConfig.versions cI -> w ∈ LinkDriverConfig.versions cR -> w <= v) /\
    Forall (fun f => lenN f <= 65537) [f1; f2; f3; f4; f5] /\
    (fixed dI3 = fixed dI /\ syncer dI3 = syncer dI) /\ (fixed dR3 = fixed dR /\ syncer dR3 = syncer dR) /\
    CipherState.n (TransportState.send trI) = 0 /\ CipherState.n (TransportState.send trR) = 0.
Proof.
  intros HsI HeI HsR HeR [HwI HbI] [HwR HbR] Hv dI dR HtI HtR.
  pose proof (encoded_body_u16 _ _ HbI) as HlI. pose proof (encoded_body_u16 _ _ HbR) as HlR.
  pose proof (decode_encode_message _ _ HwI HbI) as HdI. pose proof (decode_encode_message _ _ HwR HbR) as HdR.
  set (x := SymmetricState.mix_hash (bI ++ bR) SymmetricState.new_for_protocol).
  destruct (message1 x sI eI sR eR []) as (x1 & m1 & W1 & R1 & L1); [done|done|by apply honest_length|].
  destruct (message2 x1 sI eI sR eR []) as (x2 & m2 & W2 & R2 & L2 & Hn & Hk); [done..|].
  destruct (message3 x2 sI eI sR eR []) as (x3 & m3 & W3 & R3 & L3); [done..|].
  change (tag_len (SymmetricState.cipher x)) with 0%nat in L1.
  destruct (handshake_wire m1) as (b1 & F1 & D1 & B1); [unfold lenN; rewrite L1; cbn; lia|].
  destruct (handshake_wire m2) as (b2 & F2 & D2 & B2); [unfold lenN; rewrite L2; cbn; lia|].
  destruct (handshake_wire m3) as (b3 & F3 & D3 & B3); [unfold lenN; rewrite L3; cbn; lia|].
  set (dI1 := set_our_hello_body bI dI).
  destruct (responder_hello dR stR (io 0%nat) bI _ v bR sR eR eq_refl eq_refl eq_refl HdI
    (common_version_sym _ _ _ Hv) HbR) as (dR1 & HR1 & FR1 & YR1 & VR1 & SR1).
  destruct (initiator_hello dI1 stI (io 0%nat) bR _ v sI eI _ _ _ eq_refl eq_refl eq_refl HdR Hv W1 F1)
    as (dI2 & HI2 & FI2 & YI2 & VI2 & SI2).
  pose proof (handshake_answer dR1 stR (io 0%nat) b1 _ _ _ _ _ _ SR1 D1 R1 eq_refl W2 F2) as HR2.
  match type of HR2 with _ = (finish_handshake ?h ?a ≫= _) =>
    destruct (finish_more h a eq_refl) as (dR2 & ER2 & FR2 & YR2 & SR2 & VR2) end.
  rewrite ER2 in HR2. cbn [mbind option_bind] in HR2.
  pose proof (handshake_answer dI2 stI (io 0%nat) b2 _ _ _ _ _ _ SI2 D2 R2 eq_refl W3 F3) as HI3.
  match type of HI3 with _ = (finish_handshake ?h ?a ≫= _) =>
    destruct (finish_done h a _ _ eq_refl) as (dI3 & EI3 & FI3 & YI3 & SI3 & PI3 & VI3) end.
  rewrite EI3 in HI3. cbn [mbind option_bind] in HI3.
  pose proof (handshake_last dR2 stR (io 0%nat) b3 _ _ _ SR2 D3 R3 eq_refl) as HR3.
  match type of HR3 with _ = (finish_handshake ?h ?a ≫= _) =>
    destruct (finish_done h a _ _ eq_refl) as (dR3 & ER3 & FR3 & YR3 & SR3 & PR3 & VR3) end.
  rewrite ER3 in HR3. cbn [mbind option_bind] in HR3.
  exists dI1, dI2, dI3, dR1, dR2, dR3, (frame bI), (frame bR), (frame b1), (frame b2), (frame b3). do 2 eexists.
  assert (Hopen : forall d h, state d = Handshaking h -> is_closed d = false) by (unfold is_closed; by intros d h ->).
  assert (FR2' : fixed dR2 = fixed dR) by exact (eq_trans FR2 FR1). clear FR2.
  assert (FI2' : fixed dI2 = fixed dI) by exact FI2. clear FI2.
  split_and!; [|eapply (step_frame _ _ _ _ dR); [done|done|done|done|done|exact HR1]
    |eapply (step_frame _ _ _ _ dI); [done|done|done|done|done|exact HI2]
    |eapply (step_frame _ _ _ _ dR); [done|done|done|by eapply Hopen|done|exact HR2]
    |eapply (step_frame _ _ _ _ dI); [done|done|done|by eapply Hopen|done|exact HI3]
    |eapply (step_frame _ _ _ _ dR); [done|done|done|by eapply Hopen|done|exact HR3]
    |exact SI3|exact SR3| | | |exact PI3|exact PR3| | |exact (eq_trans FI3 FI2')|exact (eq_trans YI3 YI2)|exact (eq_trans FR3 FR2')|exact (eq_trans YR3 (eq_trans YR2 YR1))|done|done].
  - unfold start. cbn [role state dI new]. unfold queue_hello. change (own_hello _) with (own_hello dI).
    unfold own_hello. cbn [config dI new]. by rewrite HbI.
  - split; cbn; [done|done|done|done|]. unfold u64_max. lia.
  - by rewrite VI3.
  - rewrite VR3. cbn. rewrite VR2. done.
  - intros w Hw1 Hw2. apply common_version_Some in Hv as (_ & _ & Hmax). by apply Hmax.
  - unfold u16_max in *. repeat apply Forall_cons_2; [rewrite lenN_frame; lia..|by apply Forall_nil].
Qed.

(** ** Messages over an established link *)

Lemma linked_encrypt a b p : linked a b -> CipherState.n (TransportState.send a) < u64_max -> lenN p <= 65535 ->
  exists a' b' ct, TransportState.encrypt p a = (a', Ok ct) /\ TransportState.decrypt ct b = (b', Ok p) /\
    linked a' b' /\ length ct = (length p + 16)%nat /\
    CipherState.n (TransportState.send a') = CipherState.n (TransportState.send a) + 1.
Proof.
  intros [[Hf1 Hf2] Hab Hba [Hk1 Hk2] [Hn1 Hn2]] Hn Hp.
  destruct (seal_unseal _ _ Hk1 Hn Hp) as (c & ct & E & D & Hk & Hn' & Hl).
  exists (TransportState.set_send c a), (TransportState.set_recv c b), ct. split_and!; [| | |done|done].
  - unfold TransportState.encrypt, on. rewrite Hf1. fold (seal p). by rewrite E.
  - unfold TransportState.decrypt, on. rewrite Hf2. fold (unseal ct). rewrite <- Hab. by rewrite D.
  - split; cbn; [done|done|done|done|]. rewrite Hn'. split; [lia|done].
Qed.

Lemma encrypted_frame a b m body : linked a b -> CipherState.n (TransportState.send a) < u64_max ->
  encode_message m = Ok body ->
  exists a' b' ct, encrypt_frame m a = (a', Ok (frame ct)) /\ TransportState.decrypt ct b = (b', Ok body) /\
    linked a' b' /\ lenN ct = lenN body + 16 /\ is_padded_len (lenN body) = true /\ lenN ct <= u16_max /\
    CipherState.n (TransportState.send a') = CipherState.n (TransportState.send a) + 1.
Proof.
  intros Hl Hn He. pose proof (encode_message_parts _ _ He) as (p & Hp & Hlen & _).
  pose proof (padded_len_bounds _ _ Hp) as [_ Hb]. pose proof (padded_len_idem _ _ Hp) as Hi. rewrite <- Hlen in *.
  destruct (linked_encrypt a b body Hl Hn ltac:(lia)) as (a' & b' & ct & E & D & Hl' & Hct & Hn').
  exists a', b', ct. split_and!; [|done|done|unfold lenN; lia| |unfold lenN, u16_max in *; lia|done].
  - unfold encrypt_frame, bind, lift, ret. rewrite He. cbn [map_err]. by rewrite E.
  - unfold is_padded_len. by apply bool_decide_eq_true.
Qed.

(** What the peer does with a delivered message. *)
Lemma deliver_body d store io b b' ct body m : state d = Transport b -> lenN ct = lenN body + 16 ->
  is_padded_len (lenN body) = true -> TransportState.decrypt ct b = (b', Ok body) ->
  decode_message body = Ok m -> application m ->
  handle_body store io ct (d, LinkOutput.default) = handle_sync store io m (set_state (Transport b') d, LinkOutput.default).
Proof.
  intros Hs Hl Hp Hd Hm Ha. unfold handle_body. rewrite Hs. unfold handle_transport_body.
  replace (lenN ct - 16) with (lenN body) by lia. rewrite Hp. destruct (N.ltb_spec (lenN ct) 16); [lia|].
  cbn [negb orb]. rewrite Hd, Hm. by destruct m.
Qed.

(** Delivery. On an established pair of drivers, [send] of any message the
    transport epoch permits and the wire can carry emits one frame; the
    peer's [on_bytes] of that frame hands exactly that message to its sync
    layer, and the two transports stay linked, rekeys included. *)
Theorem link_delivers dA dB a b m body now store io : application m -> wf_message m -> encode_message m = Ok body ->
  state dA = Transport a -> state dB = Transport b -> linked a b ->
  CipherState.n (TransportState.send a) < u64_max ->
  FrameDecoder.buf (decoder dB) = [] -> in_life now dB ->
  exists a' b' f, send m dA = (set_state (Transport a') dA, Ok (LinkOutput.mk [f] [])) /\ linked a' b' /\
    forall r, handle_sync store (io 0%nat) m (set_state (Transport b') dB, LinkOutput.default) = Some r ->
      on_bytes store io f now dB = Some r.
Proof.
  intros Ha Hw He HsA HsB Hl Hn Hbuf Ht.
  destruct (encrypted_frame a b m body Hl Hn He) as (a' & b' & ct & E & D & Hl' & Hct & Hp & Hu & _).
  exists a', b', (frame ct). split_and!; [|done|].
  - unfold send, is_established. rewrite HsA. cbn [negb]. destruct m; try done;
      unfold queue_encrypted; by rewrite HsA, E.
  - intros [r store'] Hr. apply on_bytes_frame; [by eapply in_life_checks|unfold is_closed; by rewrite HsB|done|done|].
    rewrite (deliver_body dB store (io 0%nat) b b' ct body m); try done. by apply decode_encode_message.
Qed.

(** What a call that closes leaves: no keys, no cipher. *)
Definition closed_with (r : CloseReason) (d : LinkDriver.t) : LinkDriver.t := clear_keys (set_state (LinkClosed r) d).

(** Sending one application message: a sealed frame, or a silent close. *)
Lemma send_application m d tr : state d = Transport tr -> application m ->
  send m d = match sealed_frame m tr with
             | Some (tr', f) => (set_state (Transport tr') d, Ok (LinkOutput.mk [f] []))
             | None => (closed_with NonceExhausted d, Ok (LinkOutput.mk [] [Closed NonceExhausted]))
             end.
Proof.
  intros Hs Ha. pose proof (encrypt_frame_sealed m tr) as He.
  unfold send, is_established, queue_encrypted. rewrite Hs. cbn [negb].
  destruct (sealed_frame m tr) as [[tr' f]|].
  - destruct m; try done; by rewrite He.
  - destruct He as (tr' & e & He). destruct m; try done; by rewrite He.
Qed.

(** Sending an ERROR closes with it. *)
Lemma send_error e d tr : state d = Transport tr ->
  send (MError e) d = (closed_with (ProtocolViolation (ErrorMsg.code e)) d,
    Ok (LinkOutput.mk (sealed_error (ErrorMsg.code e) tr) [Closed (ProtocolViolation (ErrorMsg.code e))])).
Proof.
  intros Hs. pose proof (encrypt_frame_sealed (MError (ErrorMsg.mk (ErrorMsg.code e))) tr) as He.
  unfold send, is_established, close_with_error, sealed_error. rewrite Hs. cbn [negb].
  destruct (sealed_frame _ tr) as [[tr' f]|]; [by rewrite He|]. by destruct He as (tr' & e' & ->).
Qed.

(** C36: every outcome of [send], on a driver in any state. Before the link is
    established and after it has closed, the call is refused and changes
    nothing; so are the two cleartext types on an established link. An
    application message that can be sent (the transport has not failed, a
    nonce is left, the message fits the wire) becomes one frame, which a peer
    in step reads back as the message's encoding, and only the sending cipher
    moves; one that cannot be sent closes the link silently, the reason being
    [NonceExhausted] whatever the cause, even with every nonce unused. An ERROR
    closes the link with its code, the one frame carrying it when it can be
    sent and none when it cannot. A close leaves neither keys nor cipher and
    reports exactly one [Closed] event. The transport is [ciphered], as the
    handshake makes it and every call keeps it. *)
Theorem link_send m d (Hc : forall tr, state d = Transport tr -> ciphered tr) :
  let '(d', r) := send m d in
  match state d with
  | Transport tr =>
      match m with
      | MHello _ | MHandshake _ => d' = d /\ r = Err NotPermitted
      | MError e =>
          let reason := ProtocolViolation (ErrorMsg.code e) in
          d' = closed_with reason d /\
          (can_send tr m -> exists tr' f, carries tr tr' m f /\ r = Ok (LinkOutput.mk [f] [Closed reason])) /\
          (~ can_send tr m -> r = Ok (LinkOutput.mk [] [Closed reason]))
      | _ =>
          (can_send tr m -> exists tr' f, carries tr tr' m f /\ d' = set_state (Transport tr') d /\
             r = Ok (LinkOutput.mk [f] [])) /\
          (~ can_send tr m ->
             d' = closed_with NonceExhausted d /\ r = Ok (LinkOutput.mk [] [Closed NonceExhausted]))
      end
  | _ => d' = d /\ r = Err NotEstablished
  end.
Proof.
  destruct (state d) as [| |tr|] eqn:Hs; try by (unfold send, is_established; rewrite Hs).
  destruct (sealed_frame_spec m tr (Hc tr eq_refl)) as [Hyes Hno].
  assert (Happ : application m -> let '(d', r) := send m d in
    (can_send tr m -> exists tr' f, carries tr tr' m f /\ d' = set_state (Transport tr') d /\ r = Ok (LinkOutput.mk [f] [])) /\
    (~ can_send tr m -> d' = closed_with NonceExhausted d /\ r = Ok (LinkOutput.mk [] [Closed NonceExhausted]))).
  { intros Ha. rewrite (send_application m d tr Hs Ha). destruct (sealed_frame m tr) as [[tr' f]|].
    - split; [|by intros Hx; apply Hno in Hx]. intros Hx. destruct (Hyes Hx) as (? & ? & [= <- <-] & Hcar). eauto.
    - split; [|done]. intros Hx. by destruct (Hyes Hx) as (? & ? & ? & _). }
  destruct m as [h|h|p|ri|rm|rd|[code]]; try (by apply Happ); try (by unfold send, is_established; rewrite Hs).
  rewrite (send_error _ d tr Hs). unfold sealed_error. cbn [ErrorMsg.code]. split; [done|]. split.
  - intros Hx. destruct (Hyes Hx) as (tr' & f & -> & Hcar). eauto.
  - intros Hx. by rewrite Hno.
Qed.

End Spec.

(** ** Concrete instances *)

Definition sample_driver (role : LinkRole) (seed : N) : LinkDriver.t :=
  new role (sample_keys seed) (sample_keys (seed + 1)) LinkDriverConfig.default 0.

Definition default_hello : bytes :=
  match encode_message (MHello (Hello.mk [1] 0 [1])) with Ok body => body | _ => [] end.

Lemma default_hello_body : hello_body LinkDriverConfig.default default_hello.
Proof. split; [solve_bounds|]. vm_compute. reflexivity. Qed.

Lemma sample_driver_wf role seed : driver_wf (sample_driver role seed).
Proof.
  apply new_wf; [split; apply x25519_base_length|]. eexists. apply (proj2 default_hello_body).
Qed.

Lemma link_establishes_witness :
  exists dI dR trI trR, state dI = Transport trI /\ state dR = Transport trR /\ linked trI trR /\
    negotiated_version dI = Some 1 /\ remote_fingerprint dR = Some (sha256 (Keypair.public (sample_keys 3))).
Proof.
  destruct (link_establishes (sample_keys 3) (sample_keys 4) (sample_keys 5) (sample_keys 6)
    LinkDriverConfig.default LinkDriverConfig.default default_hello default_hello 1 0 0 7 sample_store sample_store
    (fun _ _ => IoOk) eq_refl eq_refl eq_refl eq_refl default_hello_body default_hello_body)
    as (dI1 & dI2 & dI3 & dR1 & dR2 & dR3 & f1 & f2 & f3 & f4 & f5 & trI & trR & _ & _ & _ & _ & _ & _ &
        HI & HR & Hl & Hv & _ & _ & Hf & _);
    [reflexivity|split; reflexivity|split; reflexivity|].
  exists dI3, dR3, trI, trR. split; [exact HI|]. split; [exact HR|]. split; [exact Hl|]. split; [exact Hv|exact Hf].
Defined.

Definition sample_established (tr : TransportState.t) : LinkDriver.t :=
  set_remote_fingerprint [] (set_state (Transport tr) (sample_driver Session.Initiator 3)).

Lemma sample_established_wf tr : driver_wf (sample_established tr).
Proof.
  destruct (sample_driver_wf Session.Initiator 3) as [Hb _]. split; [by eapply base_cong; [..|exact Hb]|]. by eexists.
Qed.

(** A body of an accepted length that does not decrypt closes without a word. *)
Definition sample_garbage : bytes := frame (replicate 272 (byte_of 7)).

Lemma link_safety_witness :
  exists d' out store', on_bytes (crypto := toy_crypto) sample_store (fun _ _ => IoOk) sample_garbage 5
      (sample_established sample_link.1) = Some ((d', out), store') /\
    driver_wf d' /\ disciplined (fun _ _ => IoOk) sample_garbage 5 (sample_established sample_link.1) sample_store (d', out) store' /\
    close_reason d' = Some DecryptFailed /\ LinkOutput.frames out = [].
Proof.
  pose proof (link_safety (sample_established sample_link.1) sample_store (fun _ _ => IoOk)
    sample_garbage 5 (sample_established_wf _) sample_store_wf ltac:(vm_compute; reflexivity)) as H.
  assert (Hc : (match on_bytes sample_store (fun _ _ => IoOk) sample_garbage 5
      (sample_established sample_link.1) with
      | Some (a, _) => Some (close_reason a.1, LinkOutput.frames a.2) | None => None end) = Some (Some DecryptFailed, []))
    by (vm_compute; reflexivity).
  destruct (on_bytes sample_store _ _ 5 _) as [[[d' out] store']|]; [|destruct H].
  destruct H as (H1 & _ & _ & H2 & _). exists d', out, store'.
  split; [reflexivity|]. split; [exact H1|]. split; [exact H2|]. injection Hc as Hc Hf. split; [exact Hc|exact Hf].
Defined.

Definition sample_done : Message := MReconDone (ReconDone.mk 4).
Definition sample_done_body : bytes := match encode_message sample_done with Ok b => b | _ => [] end.

Lemma link_delivers_witness :
  exists f, (send sample_done (sample_established sample_link.1)).2 = Ok (LinkOutput.mk [f] []).
Proof.
  destruct (link_delivers (sample_established sample_link.1) (sample_established sample_link.2) sample_link.1 sample_link.2
    sample_done sample_done_body 5 sample_store (fun _ _ => IoOk)) as (a' & b' & f & E & _).
  - exact I.
  - vm_compute. discriminate.
  - vm_compute. reflexivity.
  - reflexivity.
  - reflexivity.
  - split; cbn; solve_bounds.
  - vm_compute. reflexivity.
  - reflexivity.
  - vm_compute. reflexivity.
  - exists f. rewrite E. reflexivity.
Defined.

(** A push without entries cannot be encoded: it closes a fresh link. *)
Lemma link_send_witness :
  (send (MGossipPush (GossipPush.mk [] 0)) (sample_established sample_link.1)).2 = Ok (LinkOutput.mk [] [Closed NonceExhausted]) /\
  exists f, (send (MError (ErrorMsg.mk 4)) (sample_established sample_link.1)).2 = Ok (LinkOutput.mk [f] [Closed (ProtocolViolation 4)]).
Proof.
  assert (Hc : forall tr, state (sample_established sample_link.1) = Transport tr -> ciphered tr).
  { intros tr [= <-]. split; [reflexivity|vm_compute; discriminate]. }
  split.
  - pose proof (link_send (MGossipPush (GossipPush.mk [] 0)) (sample_established sample_link.1) Hc) as H.
    destruct (send (MGossipPush _) _) as [d' r]. destruct H as [_ H]. apply H. intros (_ & _ & b & E).
    vm_compute in E. discriminate E.
  - pose proof (link_send (MError (ErrorMsg.mk 4)) (sample_established sample_link.1) Hc) as H.
    destruct (send (MError _) _) as [d' r]. destruct H as (_ & H & _).
    destruct H as (tr' & f & _ & E); [|exists f; exact E].
    split; [reflexivity|]. split; [vm_compute; reflexivity|]. eexists. vm_compute. reflexivity.
Defined.
