(* ===== verification/LinkSync.v ===== *)
(** * Sync traffic over a link

    An established pair of drivers carries the messages of the sync layer:
    what one side queues is a list of frames that the other's transport opens
    to the same messages, and feeding those frames to [on_bytes] one by one
    is [handle_all] on the peer's [Syncer], with the replies queued in turn.
    The two directions of a link are independent, so frames may be in flight
    both ways. *)
From S2P Require Import Prelude Errors Pad Varint Crypto Cbor CborRef Entry Msg Item IdSum Bound.
From S2P Require Import OrderTree OrderIndex OrderRefine OrderSpec Store StoreSpec NegStore Negentropy NegFacts NegExact.
From S2P Require Import Session SessionSpec Frame Noise NoiseSpec Driver DriverSpec LinkClose LinkSpec.
Import LinkDriver.
Open Scope N_scope.

Section Carry.
Context {cbor : Cbor} {crypto : Crypto}.

(** A message the transport epoch carries and the wire can hold. *)
Definition sendable (m : Message) : Prop := application m /\ wf_message m /\ is_Ok (encode_message m).

(** The receiving cipher [c] opens the frames [fs] to the messages [ms] and
    ends as [c']. *)
Inductive conveyed : CipherState.t -> list bytes -> list Message -> CipherState.t -> Prop :=
  | conveyed_nil c : conveyed c [] [] c
  | conveyed_cons c ct body m c1 fs ms c2 :
      unseal ct c = (c1, Ok body) -> lenN ct = lenN body + 16 -> is_padded_len (lenN body) = true ->
      lenN ct <= u16_max -> decode_message body = Ok m -> application m ->
      conveyed c1 fs ms c2 -> conveyed c (frame ct :: fs) (m :: ms) c2.

Lemma conveyed_app c fs ms c1 fs' ms' c2 :
  conveyed c fs ms c1 -> conveyed c1 fs' ms' c2 -> conveyed c (fs ++ fs') (ms ++ ms') c2.
Proof. induction 1; intros; [done|]. cbn. econstructor; eauto. Qed.

Lemma conveyed_one c fs m c' : conveyed c fs [m] c' -> exists f, fs = [f].
Proof. inversion 1 as [|? ? ? ? ? ? ? ? ? ? ? ? ? ? Hnil]; subst. inversion Hnil; subst. by eexists. Qed.

Lemma conveyed_sizes c fs ms c' : conveyed c fs ms c' -> Forall (fun f => lenN f <= 65537) fs /\ length fs = length ms.
Proof.
  induction 1 as [|c ct body m c1 fs ms c2 _ _ _ Hl _ _ _ [IH1 IH2]]; [done|]. split; [|cbn; lia].
  apply Forall_cons_2; [|done]. rewrite lenN_frame. unfold u16_max in *. lia.
Qed.

(** A transport ready to send [k] messages. *)
Definition ready (t : TransportState.t) (k : N) : Prop :=
  TransportState.failed t = false /\ keyed (TransportState.send t) = true /\
  CipherState.n (TransportState.send t) + k <= u64_max.

Lemma queue_one d t m out k : state d = Transport t -> ready t (1 + k) -> sendable m -> exists c f,
  queue_encrypted m (d, out) = Some (set_state (Transport (TransportState.set_send c t)) d, LinkOutput.push_frame f out) /\
  conveyed (TransportState.send t) [f] [m] c /\ ready (TransportState.set_send c t) k.
Proof.
  intros Hs (Hf & Hk & Hn) (Ha & Hw & body & He).
  pose proof (encode_message_parts _ _ He) as (p & Hp & Hlen & _).
  pose proof (padded_len_bounds _ _ Hp) as [_ Hb]. pose proof (padded_len_idem _ _ Hp) as Hi. rewrite <- Hlen in *.
  destruct (encrypt_ok t body Hf Hk ltac:(lia) ltac:(lia)) as (c & ct & E & Es & Hkc & Hnc).
  destruct (seal_unseal _ body Hk ltac:(lia) ltac:(lia)) as (c' & ct' & Es' & Eu & _ & _ & Hl).
  rewrite Es in Es'. injection Es' as <- <-. exists c, (frame ct). split_and!.
  - unfold queue_encrypted. rewrite Hs. unfold encrypt_frame, bind, lift, ret. rewrite He. cbn [map_err]. by rewrite E.
  - econstructor; [exact Eu|unfold lenN; lia| | |by apply decode_encode_message|done|constructor].
    + unfold is_padded_len. by apply bool_decide_eq_true.
    + unfold lenN, u16_max in *. lia.
  - split_and!; cbn; [done|done|]. lia.
Qed.

Lemma set_state_twice x y d : set_state x (set_state y d) = set_state x d.
Proof. done. Qed.

Lemma queue_list ms d t out k : state d = Transport t -> ready t (lenN ms + k) -> Forall sendable ms -> exists c fs,
  queue_replies ms (d, out) =
    Some (set_state (Transport (TransportState.set_send c t)) d, LinkOutput.mk (LinkOutput.frames out ++ fs) (LinkOutput.events out)) /\
  conveyed (TransportState.send t) fs ms c /\ ready (TransportState.set_send c t) k.
Proof.
  intros Hs Hr Hm. revert d t out Hs Hr. induction Hm as [|m ms Hm Hms IH]; intros d t out Hs Hr; cbn [queue_replies].
  - exists (TransportState.send t), []. rewrite app_nil_r. split_and!; [|constructor|by destruct t].
    f_equal. f_equal; [|by destruct out]. destruct d, t; cbn in *. by subst.
  - rewrite lenN_cons in Hr.
    destruct (queue_one d t m out (lenN ms + k) Hs) as (c & f & -> & Hc & Hr1); [by rewrite N.add_assoc|done|].
    cbn [mbind option_bind fst is_closed set_state state].
    destruct (IH (set_state (Transport (TransportState.set_send c t)) d) (TransportState.set_send c t)
      (LinkOutput.push_frame f out) eq_refl Hr1) as (c2 & fs & E & Hc2 & Hr2).
    rewrite E. exists c2, (f :: fs). split_and!; [|by apply (conveyed_app _ [f] [m] c)|done].
    cbn [LinkOutput.push_frame LinkOutput.frames LinkOutput.events]. by rewrite <- app_assoc.
Qed.

(** ** The sync layer's outputs add up *)

Lemma push_loop_out store io k es o out : Syncer.push_loop store io k es (SyncOutput.extend out o) =
  let '(store', o', r) := Syncer.push_loop store io k es o in (store', SyncOutput.extend out o', r).
Proof.
  revert store k o. induction es as [|e es IH]; intros store k o; cbn [Syncer.push_loop]; [done|].
  assert (Hext : forall ev, SyncOutput.push_event (SyncOutput.extend out o) ev =
            SyncOutput.extend out (SyncOutput.push_event o ev)).
  { intros ev. unfold SyncOutput.push_event, SyncOutput.extend. cbn. by rewrite <- app_assoc. }
  destruct (EntryStore.insert store e (io k)) as [store1 [[]|[]|]]; rewrite ?Hext; try done; apply IH.
Qed.

Lemma extend_nil out : SyncOutput.extend out SyncOutput.default = out.
Proof. destruct out. unfold SyncOutput.extend. cbn. by rewrite !app_nil_r. Qed.

Lemma extend_assoc a b c : SyncOutput.extend (SyncOutput.extend a b) c = SyncOutput.extend a (SyncOutput.extend b c).
Proof. unfold SyncOutput.extend. cbn. by rewrite <- !app_assoc. Qed.

Lemma handle_into_out s store io m out : Syncer.handle_message_into s store io m out =
  let '(s', store', o, r) := Syncer.handle_message_into s store io m SyncOutput.default in
  (s', store', SyncOutput.extend out o, r).
Proof.
  destruct m as [h|h|p|ri|rm|rd|err]; cbn [Syncer.handle_message_into]; try by rewrite extend_nil.
  - pose proof (push_loop_out store io 0 (GossipPush.entries p) SyncOutput.default out) as H.
    rewrite extend_nil in H. rewrite H. by destruct (Syncer.push_loop _ _ _ _ SyncOutput.default) as [[? ?] ?].
  - destruct (Syncer.handle_init s store ri) as [[s' o]| |]; by rewrite ?extend_nil.
  - destruct (Syncer.handle_recon_msg s store rm) as [[s' o]| |]; by rewrite ?extend_nil.
  - destruct (Syncer.handle_done s rd) as [[s' o]| |]; by rewrite ?extend_nil.
Qed.

Lemma handle_all_out s store io ms out : handle_all s store io ms out =
  let '(s', store', o, r) := handle_all s store io ms SyncOutput.default in
  (s', store', SyncOutput.extend out o, r).
Proof.
  revert s store out. induction ms as [|m ms IH]; intros s store out; cbn [handle_all]; [by rewrite extend_nil|].
  rewrite (handle_into_out s store io m out).
  destruct (Syncer.handle_message_into s store io m SyncOutput.default) as [[[s1 st1] o1] [[]|e|]]; [|done|done].
  rewrite (IH s1 st1 o1), (IH s1 st1 (SyncOutput.extend out o1)).
  destruct (handle_all s1 st1 io ms SyncOutput.default) as [[[s2 st2] o2] r]. by rewrite extend_assoc.
Qed.

(** ** Feeding the frames *)

(** One call of [on_bytes] per frame, until all are fed. *)
Fixpoint deliver (store : EntryStore.t) (jio : nat -> nat -> io_outcome) (now : N) (fs : list bytes) (d : t)
  : option (acc * EntryStore.t) :=
  match fs with
  | [] => Some ((d, LinkOutput.default), store)
  | f :: fs =>
      '(a, store) ← on_bytes store jio f now d;
      '(a', store) ← deliver store jio now fs a.1;
      Some ((a'.1, LinkOutput.mk (LinkOutput.frames a.2 ++ LinkOutput.frames a'.2)
                     (LinkOutput.events a.2 ++ LinkOutput.events a'.2)), store)
  end.

(** Nothing a peer sends takes an entry out of the store, or its journal
    away. *)
Definition extends (st st' : EntryStore.t) : Prop :=
  EntryStore.entries st ⊆ EntryStore.entries st' /\
  (is_Some (EntryStore.journal st) -> is_Some (EntryStore.journal st')).

#[global] Instance extends_preorder : PreOrder extends.
Proof. split; [done|]. intros x y z [H1 H2] [H3 H4]. split; [by etrans|auto]. Qed.

Lemma insert_extends store e io : extends store (EntryStore.insert store e io).1.
Proof.
  unfold EntryStore.insert. destruct (_ =? _); [done|]. destruct (Entry.verify e); try done.
  destruct (EntryStore.contains store (Entry.id e)) eqn:Hc; [done|].
  assert (Hj : is_Some (EntryStore.journal store) -> is_Some (EntryStore.journal_step store e io).1).
  { unfold EntryStore.journal_step. intros [j ->]. destruct (_ <=? _); [by eexists|].
    destruct (Journal.append j e io). by eexists. }
  destruct (EntryStore.journal_step store e io) as [j [[]|err|]]; cbn [fst] in *; try by split.
  destruct (OrderIndex.insert _ _) as [[o b]|]; [|by split]. split; [|done]. apply insert_subseteq, eq_None_not_Some.
  unfold EntryStore.contains in Hc. by apply bool_decide_eq_false in Hc.
Qed.

Lemma push_loop_extends store io k es out :
  extends store (Syncer.push_loop store io k es out).1.1.
Proof.
  revert store k out. induction es as [|e es IH]; intros store k out; cbn [Syncer.push_loop]; [done|].
  pose proof (insert_extends store e (io k)) as Hi.
  destruct (EntryStore.insert store e (io k)) as [store1 [[]|[]|]]; cbn [fst] in *; try done; (etrans; [exact Hi|apply IH]).
Qed.

Lemma handle_message_extends s store io m :
  extends store (Syncer.handle_message_into s store io m SyncOutput.default).1.1.2.
Proof.
  destruct m as [h|h|q|ri|rm|rd|e]; cbn [Syncer.handle_message_into]; try done.
  - pose proof (push_loop_extends store io 0 (GossipPush.entries q) SyncOutput.default) as H.
    by destruct (Syncer.push_loop _ _ _ _ _) as [[? ?] ?].
  - by destruct (Syncer.handle_init _ _ _) as [[? ?]| |].
  - by destruct (Syncer.handle_recon_msg _ _ _) as [[? ?]| |].
  - by destruct (Syncer.handle_done _ _) as [[? ?]| |].
Qed.

(** A step that leaves the store alone. *)
Lemma store_kept {A} (o : option A) (st st' : EntryStore.t) a : (x ← o; Some (x, st)) = Some (a, st') -> st' = st.
Proof. destruct o; [by intros [= _ <-]|done]. Qed.

Lemma handle_body_extends store io body a a' store' : handle_body store io body a = Some (a', store') ->
  extends store store'.
Proof.
  assert (Hsync : forall m a, handle_sync store io m a = Some (a', store') ->
            extends store store').
  { intros m [d out]. unfold handle_sync. pose proof (handle_message_extends (syncer d) store io m) as Hm.
    destruct (Syncer.handle_message_into _ _ _ _ _) as [[[s1 st1] o1] [[]|err|]]; [| |done];
      by intros ->%store_kept. }
  destruct a as [d out]. unfold handle_body. destruct (state d) as [|hs|tr|r].
  1,2: by intros ->%store_kept.
  - unfold handle_transport_body. destruct (_ || _); [by intros [= _ <-]|].
    destruct (TransportState.decrypt _ _) as [tr' [p|[]|]]; [|by intros [= _ <-]..|done].
    destruct (decode_message p) as [[]|err|]; try (by intros ->%store_kept); try (by intros [= _ <-]); try done; apply Hsync.
  - by intros [= _ <-].
Qed.

Lemma on_bytes_extends store jio bs now d a store' : on_bytes store jio bs now d = Some (a, store') ->
  extends store store'.
Proof.
  assert (Hloop : forall fuel k store a a' store', body_loop fuel k store jio a = Some (a', store') ->
            extends store store').
  { clear. induction fuel as [|fuel IH]; intros k store [d out] a' store'; cbn [body_loop]; [done|].
    destruct (FrameDecoder.next_body _) as [[body|] dec]; [|by intros [= _ <-]].
    destruct (handle_body store (jio k) body _) as [[a1 st1]|] eqn:E; [|done]. cbn [mbind option_bind].
    apply handle_body_extends in E. destruct (is_closed a1.1); [by intros [= _ <-]|].
    intros H. etrans; [exact E|by eapply IH]. }
  unfold on_bytes. destruct (check_timeouts _ _) as [[d1 out] []]; [by intros [= _ <-]|].
  destruct (is_closed d1); [by intros [= _ <-]|]. apply Hloop.
Qed.

Lemma deliver_extends store jio now fs d a store' : deliver store jio now fs d = Some (a, store') ->
  extends store store'.
Proof.
  revert store d a. induction fs as [|f fs IH]; intros store d a; cbn [deliver]; [by intros [= _ <-]|].
  destruct (on_bytes store jio f now d) as [[a1 st1]|] eqn:E1; [|done]. cbn [mbind option_bind].
  destruct (deliver st1 jio now fs a1.1) as [[a2 st2]|] eqn:E2; [|done]. cbn [mbind option_bind].
  intros [= _ <-]. etrans; [by eapply on_bytes_extends|by eapply IH].
Qed.

(** The driver [d] with another transport and sync state. *)
Definition moved (d : t) (s : Syncer.t) (t : TransportState.t) : LinkDriver.t := set_state (Transport t) (set_syncer s d).

Lemma deliver_one d t store jio now ct body m c1 s' store' o k :
  state d = Transport t -> FrameDecoder.buf (decoder d) = [] -> in_life now d ->
  unseal ct (TransportState.recv t) = (c1, Ok body) -> lenN ct = lenN body + 16 -> is_padded_len (lenN body) = true ->
  lenN ct <= u16_max -> decode_message body = Ok m -> application m ->
  Syncer.handle_message_into (syncer d) store (jio 0%nat) m SyncOutput.default = (s', store', o, Ok tt) ->
  Forall sendable (SyncOutput.replies o) -> ready t (lenN (SyncOutput.replies o) + k) ->
  exists c gs, let t' := TransportState.set_send c (TransportState.set_recv c1 t) in
    on_bytes store jio (frame ct) now d =
      Some ((moved d s' t', LinkOutput.mk gs (map Sync (SyncOutput.events o))), store') /\
    conveyed (TransportState.send t) gs (SyncOutput.replies o) c /\ ready t' k.
Proof.
  intros Hs Hb Ht Hu Hl Hp Hlt Hd Ha Hh Hm Hr.
  set (d1 := set_syncer s' (set_state (Transport (TransportState.set_recv c1 t)) d)).
  destruct (queue_list (SyncOutput.replies o) d1 (TransportState.set_recv c1 t)
    (LinkOutput.push_events (map Sync (SyncOutput.events o)) LinkOutput.default) k eq_refl Hr Hm) as (c & gs & E & Hc & Hr').
  exists c, gs. split_and!; [|done|done].
  apply on_bytes_frame; [by eapply in_life_checks|unfold is_closed; by rewrite Hs|done|done|].
  assert (Hdec : TransportState.decrypt ct t = (TransportState.set_recv c1 t, Ok body)).
  { unfold TransportState.decrypt, on. destruct Hr as (-> & _). fold (unseal ct). by rewrite Hu. }
  rewrite (deliver_body d store (jio 0%nat) t (TransportState.set_recv c1 t) ct body m) by done.
  unfold handle_sync. cbn [syncer set_state]. rewrite Hh. fold d1. rewrite E. done.
Qed.

(** Delivering a list of frames is [handle_all] on the peer. *)
Lemma deliver_all cr fs ms c1 d t store jio now s' store' o k :
  conveyed cr fs ms c1 -> state d = Transport t -> TransportState.recv t = cr ->
  FrameDecoder.buf (decoder d) = [] -> in_life now d ->
  handle_all (syncer d) store (jio 0%nat) ms SyncOutput.default = (s', store', o, Ok tt) ->
  Forall sendable (SyncOutput.replies o) -> ready t (lenN (SyncOutput.replies o) + k) ->
  exists c gs, let t' := TransportState.set_send c (TransportState.set_recv c1 t) in
    deliver store jio now fs d = Some ((moved d s' t', LinkOutput.mk gs (map Sync (SyncOutput.events o))), store') /\
    conveyed (TransportState.send t) gs (SyncOutput.replies o) c /\ ready t' k.
Proof.
  intros Hc. revert d t store s' store' o k.
  induction Hc as [c|c ct body m c1 fs ms c2 Hu Hl Hp Hlt Hdec Ha Hc IH]; intros d t store s' store' o k Hs Hcr Hb Ht Hh Hm Hr.
  - injection Hh as <- <- <-. exists (TransportState.send t), []. split_and!; [|constructor|].
    + cbn [deliver]. do 3 f_equal. unfold moved. destruct d, t; cbn in *. by subst.
    + destruct t. exact Hr.
  - cbn [handle_all] in Hh.
    destruct (Syncer.handle_message_into (syncer d) store (jio 0%nat) m SyncOutput.default) as [[[s1 st1] o1] [[]|e|]] eqn:E1;
      [|done|done].
    rewrite handle_all_out in Hh. destruct (handle_all s1 st1 (jio 0%nat) ms SyncOutput.default) as [[[s2 st2] o2] r] eqn:E2.
    injection Hh as <- <- <- ->. cbn [SyncOutput.extend SyncOutput.replies SyncOutput.events] in *.
    apply Forall_app in Hm as [Hm1 Hm2]. rewrite lenN_app, <- N.add_assoc in Hr. subst c.
    destruct (deliver_one d t store jio now ct body m c1 s1 st1 o1 _ Hs Hb Ht Hu Hl Hp Hlt Hdec Ha E1 Hm1 Hr)
      as (cs & gs & E & Hcs & Hr1).
    set (t1 := TransportState.set_send cs (TransportState.set_recv c1 t)) in *.
    destruct (IH (moved d s1 t1) t1 st1 s2 st2 o2 k eq_refl eq_refl Hb Ht E2 Hm2 Hr1) as (cs2 & gs2 & E' & Hcs2 & Hr2).
    exists cs2, (gs ++ gs2). split_and!; [|by eapply conveyed_app|done].
    cbn [deliver]. rewrite E. cbn [mbind option_bind fst snd]. rewrite E'. cbn [mbind option_bind fst snd].
    cbn [LinkOutput.frames LinkOutput.events]. by rewrite map_app.
Qed.

(** One frame, as a conveyed message. *)
Lemma deliver_message cr f m c1 d t store jio now s' store' o k :
  conveyed cr [f] [m] c1 -> state d = Transport t -> TransportState.recv t = cr ->
  FrameDecoder.buf (decoder d) = [] -> in_life now d ->
  Syncer.handle_message_into (syncer d) store (jio 0%nat) m SyncOutput.default = (s', store', o, Ok tt) ->
  Forall sendable (SyncOutput.replies o) -> ready t (lenN (SyncOutput.replies o) + k) ->
  exists c gs, let t' := TransportState.set_send c (TransportState.set_recv c1 t) in
    on_bytes store jio f now d = Some ((moved d s' t', LinkOutput.mk gs (map Sync (SyncOutput.events o))), store') /\
    conveyed (TransportState.send t) gs (SyncOutput.replies o) c /\ ready t' k.
Proof.
  intros Hc Hs <-. inversion Hc as [|? ct body ? c2 ? ? ? ? ? ? ? ? ? Hnil]; subst. inversion Hnil; subst.
  intros. by eapply deliver_one.
Qed.

(** Two transports that share keys, with nothing in flight. *)
Lemma linked_channels a b : linked a b <->
  (TransportState.failed a = false /\ TransportState.failed b = false) /\
  conveyed (TransportState.recv b) [] [] (TransportState.send a) /\
  conveyed (TransportState.recv a) [] [] (TransportState.send b) /\
  (keyed (TransportState.send a) = true /\ keyed (TransportState.send b) = true) /\
  (CipherState.n (TransportState.send a) <= u64_max /\ CipherState.n (TransportState.send b) <= u64_max).
Proof.
  assert (Hnil : forall c c', conveyed c [] [] c' <-> c' = c).
  { intros c c'. split; [by inversion 1|intros ->; constructor]. }
  rewrite !Hnil. split; [by intros []|]. intros (? & ? & ? & ? & ?). by split.
Qed.

Lemma linked_sym a b : linked a b -> linked b a.
Proof. intros [[? ?] ? ? [? ?] [? ?]]. by split. Qed.

Lemma linked_ready a b k : linked a b -> CipherState.n (TransportState.send a) + k <= u64_max -> ready a k.
Proof. intros [[? ?] _ _ [? ?] _] Hn. by split. Qed.

(** ** The messages of a session are sendable *)

(** Every entry of the store fits a push of its own. *)
Definition frameable (store : EntryStore.t) (ttl : N) : Prop :=
  forall i e, EntryStore.get store i = Some e -> is_Ok (encode_message (MGossipPush (GossipPush.mk [e] ttl))).

Lemma batch_size_concat es : batch_size es = lenN (concat (map Entry.to_bytes es)).
Proof. induction es as [|e es IH]; [done|]. cbn [batch_size map concat]. by rewrite lenN_app, IH. Qed.

Lemma batch_sendable store ttl m : StoreSpec.wf store -> frameable store ttl -> ttl <= u64_max -> batch_ok ttl m ->
  lenN (batch_entries m) <= u64_max ->
  (forall e, e ∈ batch_entries m -> exists i, EntryStore.get store i = Some e) -> sendable m.
Proof.
  intros Hwf Hfr Httl (es & -> & Hne & Hsz) Hlen Hin. cbn [batch_entries GossipPush.entries] in *.
  assert (Henc : is_Ok (encode_message (MGossipPush (GossipPush.mk es ttl)))).
  { destruct Hsz as [Hsz|[e ->]].
    - apply gossip_push_encodes; [done|]. cbn. rewrite <- batch_size_concat. unfold PUSH_BATCH_BUDGET in Hsz. lia.
    - destruct (Hin e) as [i Hi]; [by apply list_elem_of_singleton|]. by eapply Hfr. }
  split; [done|]. split; [|done]. cbn [wf_message GossipPush.entries GossipPush.ttl]. split_and!; [done| |done].
  apply Forall_forall. intros e He. destruct (Hin e He) as [i Hi]. by destruct (wf_entries store Hwf i e Hi) as [_ [? _]].
Qed.

Lemma pushes_sendable stA hv ttl : StoreSpec.wf stA -> frameable stA ttl -> ttl <= u64_max -> lenN hv <= u64_max ->
  Forall sendable (Syncer.push_batches stA hv ttl) /\ lenN (Syncer.push_batches stA hv ttl) <= lenN hv.
Proof.
  intros Hwf Hfr Httl Hlen. destruct (push_batches_ok stA hv ttl) as [Hb Hcat].
  pose proof (length_omap_le (EntryStore.get stA) hv) as Hle. rewrite <- Hcat in Hle.
  pose proof (batches_count _ _ Hb) as Hcount. split; [|unfold lenN in *; lia].
  rewrite Forall_forall in Hb |- *. intros m Hm. apply (batch_sendable stA ttl); auto.
  - etrans; [|exact Hlen]. unfold lenN. enough (length (batch_entries m) <= length (concat (map batch_entries (Syncer.push_batches stA hv ttl))))%nat by lia.
    apply list_elem_of_split in Hm as (l1 & l2 & ->). rewrite map_app, concat_app. cbn. rewrite !length_app. lia.
  - intros e He. assert (Hin : e ∈ omap (EntryStore.get stA) hv).
    { rewrite <- Hcat. apply list_elem_of_In, in_concat. exists (batch_entries m). split; [|by apply list_elem_of_In].
      apply in_map. by apply list_elem_of_In. }
    apply list_elem_of_omap in Hin as (i & _ & Hi). by exists i.
Qed.

Lemma closing_sendable sa stA hv : StoreSpec.wf stA -> frameable stA (SyncConfig.push_ttl (Syncer.config sa)) ->
  SyncConfig.push_ttl (Syncer.config sa) <= u64_max -> Syncer.next_sid sa <= u64_max -> lenN hv <= u64_max ->
  Forall sendable (closing sa stA hv) /\ lenN (closing sa stA hv) <= lenN hv + 1.
Proof.
  intros Hwf Hfr Httl Hsid Hlen. destruct (pushes_sendable stA hv _ Hwf Hfr Httl Hlen) as [Hp Hc].
  unfold closing. split; [|rewrite lenN_app; unfold lenN in *; cbn; lia].
  apply Forall_app. split; [done|]. constructor; [|constructor].
  split; [done|]. split; [exact Hsid|]. apply recon_done_encodes.
Qed.

Lemma id_list_message_length l : Forall Item.wf l -> lenN l <= u32_max ->
  lenN (PROTOCOL_VERSION :: id_list_message l) <= 32 * lenN l + 23.
Proof.
  intros Hw Hl. unfold id_list_message. rewrite lenN_cons, !lenN_app, length_encode_infinity, length_concat_ids by done.
  pose proof (length_write_varint MODE_ID_LIST ltac:(done)). pose proof (length_write_varint (lenN l) ltac:(unfold u32_max, u64_max in *; lia)).
  unfold lenN in *. lia.
Qed.

(** The messages of a session of one round fit the link. *)
Lemma dialogue_sendable sa sb stA stB w itemsA itemsB io hv : setup sa sb stA stB io w itemsA itemsB ->
  wf_window w -> SyncConfig.push_ttl (Syncer.config sa) <= u64_max ->
  frameable stA (SyncConfig.push_ttl (Syncer.config sa)) -> 32 * lenN itemsB + 23 <= 60000 ->
  NoDup hv -> (forall i, i ∈ hv -> i ∈ ids itemsA) ->
  sendable (opening sa w itemsA) /\ sendable (answering sa itemsB) /\
  Forall sendable (closing sa stA hv) /\ lenN (closing sa stA hv) <= 32.
Proof.
  intros [[_ _ (Hwa & Hwb & _) _ _ (Hsid & _) (Ea & Eb) _] [Hsm _]] Hw Httl Hfr Hans Hnd Hhv.
  destruct (sealed_facts _ _ _ Hwa Ea) as (_ & _ & Hwia & Hla & _).
  destruct (sealed_facts _ _ _ Hwb Eb) as (_ & _ & Hwib & Hlb & _).
  pose proof (id_list_message_length itemsA Hwia Hla) as HmA. pose proof (id_list_message_length itemsB Hwib Hlb) as HmB.
  assert (Hlen : lenN hv < 32).
  { assert (Hsub : hv ⊆+ ids itemsA) by by apply NoDup_submseteq.
    apply submseteq_length in Hsub. unfold ids, lenN in *. rewrite length_map in Hsub. lia. }
  destruct (closing_sendable sa stA hv Hwa Hfr Httl ltac:(lia) ltac:(unfold u64_max; lia)) as [Hsend Hcnt].
  split_and!; [| |exact Hsend|lia].
  - split; [done|]. split; [|apply recon_init_encodes; cbn [ReconInit.msg]; lia].
    cbn [opening wf_message ReconInit.sid ReconInit.window ReconInit.msg]. split_and!; [lia|done|unfold u64_max; lia].
  - split; [done|]. split; [|apply recon_msg_encodes; cbn [ReconMsg.msg]; lia].
    cbn [answering wf_message ReconMsg.sid ReconMsg.msg]. split; [lia|unfold u64_max; lia].
Qed.

(** ** A sync over an established link *)

(** What a sync needs besides the [setup] of its two syncers. *)
Record synchable (dA dB : t) (a b : TransportState.t) (stA stB : EntryStore.t) (jio : nat -> nat -> io_outcome) (w : SortKeyWindow.t)
    (itemsA itemsB : list Item.t) (k : N) : Prop := {
  sy_setup : setup (syncer dA) (syncer dB) stA stB (jio 0%nat) w itemsA itemsB;
  sy_states : state dA = Transport a /\ state dB = Transport b;
  sy_linked : linked a b;
  sy_idle : FrameDecoder.buf (decoder dA) = [] /\ FrameDecoder.buf (decoder dB) = [];
  sy_window : wf_window w;
  sy_ttl : SyncConfig.push_ttl (Syncer.config (syncer dA)) <= u64_max;
  sy_frameable : frameable stA (SyncConfig.push_ttl (Syncer.config (syncer dA)));
  sy_answer : 32 * lenN itemsB + 23 <= 60000;
  sy_nonces : CipherState.n (TransportState.send a) + (34 + k) <= u64_max /\
    CipherState.n (TransportState.send b) + (1 + k) <= u64_max }.

Lemma link_carries dA dB a b stA stB w itemsA itemsB k jio now :
  synchable dA dB a b stA stB jio w itemsA itemsB k -> in_life now dA -> in_life now dB ->
  exists dA1 dB1 f0 f1 fs a' b' sa1 sb1 stB' outA outB hv nd,
    open_sync stA w dA = (dA1, Ok (Syncer.next_sid (syncer dA), LinkOutput.mk [f0] [])) /\ is_closed dA1 = false /\
    on_bytes stB jio f0 now dB = Some ((dB1, LinkOutput.mk [f1] []), stB) /\
    on_bytes stA jio f1 now dA1 =
      Some ((moved dA (spent (syncer dA)) a', LinkOutput.mk fs (map Sync (SyncOutput.events outA))), stA) /\
    deliver stB jio now fs dB1 =
      Some ((moved dB (syncer dB) b', LinkOutput.mk [] (map Sync (SyncOutput.events outB))), stB') /\
    dialogue (syncer dA) (syncer dB) stA stB (jio 0%nat) w itemsA itemsB sa1 sb1 stB' outA outB hv nd /\
    linked a' b' /\ ready a' k /\ ready b' k /\
    Forall (fun f => lenN f <= 65537) (f0 :: f1 :: fs) /\ lenN fs <= 33.
Proof.
  intros [Hset [HsA HsB] Hl [HbA HbB] Hw Httl Hfr Hans [HnA HnB]] HtA HtB.
  destruct (session_run _ _ _ _ _ _ _ (jio 0%nat) Hset) as (sa1 & sb1 & stB' & outA & outB & hv & nd & Hd).
  pose proof Hd as [Eopen Einit Eans Ecl [HrA HrB] _ _ _ _ _ (Hnd & Hhv & _)].
  destruct (dialogue_sendable _ _ _ _ _ _ _ _ hv Hset Hw Httl Hfr Hans Hnd (fun i Hi => proj1 (proj1 (Hhv i) Hi)))
    as (S0 & S1 & Hsend & Hcnt).
  destruct Hl as [[HfA HfB] Hab Hba [HkA HkB] _].
  set (dA0 := set_syncer sa1 dA).
  destruct (queue_one dA0 a (opening (syncer dA) w itemsA) LinkOutput.default (33 + k) HsA) as (ca & f0 & Eq & Hc0 & Hr0);
    [split_and!; [done|done|lia]|done|].
  rewrite Hab in Hc0.
  destruct (deliver_message _ _ _ _ dB b stB jio now _ _ _ k Hc0 HsB eq_refl HbB HtB Einit) as (cb & gs & Eb1 & Hc1 & Hr1);
    [by apply Forall_cons_2; [|apply Forall_nil_2]|split_and!; [done|done|unfold lenN; cbn [SyncOutput.replies length]; lia]|].
  cbn [SyncOutput.replies SyncOutput.events map] in *. destruct (conveyed_one _ _ _ _ Hc1) as [f1 ->]. rewrite <- Hba in Hc1.
  set (dA1 := set_state (Transport (TransportState.set_send ca a)) dA0) in *.
  destruct (deliver_message _ _ _ _ dA1 (TransportState.set_send ca a) stA jio now _ _ _ k Hc1 eq_refl eq_refl HbA HtA Eans)
    as (ca' & fs & Ea1 & Hc2 & Hr2); [by rewrite HrA|rewrite HrA; split_and!; [done|apply Hr0|cbn; destruct Hr0 as (_ & _ & Hn0); cbn in Hn0; lia]|].
  rewrite HrA in Hc2. cbn [TransportState.send TransportState.set_send] in Hc2.
  set (tb := TransportState.set_send cb (TransportState.set_recv ca b)) in *.
  destruct (deliver_all _ _ _ _ (moved dB sb1 tb) tb stB jio now _ _ _ k Hc2 eq_refl eq_refl HbB HtB Ecl)
    as (cb' & gs & Eb2 & Hc3 & Hr3); [by rewrite HrB|by rewrite HrB|].
  rewrite HrB in Hc3. inversion Hc3; subst.
  apply conveyed_sizes in Hc0 as [L0 _], Hc1 as [L1 _], Hc2 as [L2 L3].
  do 14 eexists. split_and!; [| |exact Eb1|exact Ea1|exact Eb2|exact Hd| |exact Hr2|exact Hr3| |unfold lenN in *; lia].
  - unfold open_sync, is_established. rewrite HsA, Eopen. cbn [negb]. fold dA0. by rewrite Eq.
  - done.
  - split; cbn; [done|done|done|split; [apply Hr2|apply Hr3]|].
    destruct Hr2 as (_ & _ & Hn2), Hr3 as (_ & _ & Hn3). cbn in Hn2, Hn3. lia.
  - apply Forall_cons_1 in L0 as [? _], L1 as [? _]. by repeat apply Forall_cons_2.
Qed.

End Carry.
