(* ===== verification/LinkRounds.v ===== *)
(** * Sessions of any length over a link

    The turns of [SessionRounds] as the frames of two established drivers:
    each turn the initiator's driver is fed the responder's answer, and the
    responder's the pushes and the message that come back. Whatever the
    engines' exchange is ([rounds]), the link carries it to its end and is
    idle again. *)
From S2P Require Import Prelude Errors Pad Varint Crypto Cbor CborRef Entry Msg Item IdSum Bound.
From S2P Require Import OrderTree OrderIndex OrderRefine OrderSpec Store StoreSpec NegStore Negentropy NegFacts NegExact.
From S2P Require Import NegRanges NegRun NegReply NegGeneral Session SessionSpec SessionRounds.
From S2P Require Import Frame Noise NoiseSpec Driver DriverSpec LinkClose LinkSpec LinkSync.
Import LinkDriver.
Open Scope N_scope.

Lemma ready_le t k k' : ready t k -> k' <= k -> ready t k'.
Proof. intros (? & ? & ?) Hk. split_and!; [done|done|lia]. Qed.

Lemma conveyed_none {cbor : Cbor} {crypto : Crypto} c fs c' : conveyed c fs [] c' -> fs = [] /\ c' = c.
Proof. by inversion 1. Qed.

(** Frame limits whose messages fit the wire. *)
Definition framed (c : SyncConfig.t) : Prop :=
  match SyncConfig.frame_limit c with Some lim => lim <= 60000 | None => False end.

Lemma engine_length {crypto : Crypto} s items ini m round m' :
  framed (Syncer.config s) -> good_config (Syncer.config s) -> ns_models (SealedVec.new items) items ->
  Negentropy.reconcile (sealed s items ini) m = Ok round -> Round.reply round = Some m' -> lenN m' <= 60000.
Proof.
  intros Hf Hg Hm E Hr. pose proof (reconcile_sat (sealed s items ini) items m Hm Hg) as H. rewrite E in H.
  destruct H as (_ & _ & H). rewrite Hr in H. destruct H as [H _]. unfold within, framed, sealed in *.
  cbn [Negentropy.frame_limit] in H. destruct (SyncConfig.frame_limit _); [lia|done].
Qed.

Section Traffic.
Context {cbor : Cbor} {crypto : Crypto}.
Context (dA dB : t) (stA stB : EntryStore.t) (w : SortKeyWindow.t) (itemsA itemsB : list Item.t).
Context (jio : nat -> nat -> io_outcome) (now : N).

Local Notation sa := (syncer dA).
Local Notation sb := (syncer dB).

Context (Hmeet : meeting sa sb stA stB (jio 0%nat) w itemsA itemsB).
Context (R : nat -> bytes -> list bytes -> list bytes -> Prop) (F : list bytes -> list bytes -> Prop).
Context (Hrounds : rounds (sealed sa itemsA true) (sealed sb itemsB false) (ids itemsA) R F).
Context (Hidle : FrameDecoder.buf (decoder dA) = [] /\ FrameDecoder.buf (decoder dB) = []).
Context (Hlife : in_life now dA /\ in_life now dB).
Context (Hlims : framed (Syncer.config sa) /\ framed (Syncer.config sb)).
Context (Httl : SyncConfig.push_ttl (Syncer.config sa) <= u64_max).
Context (Hfr : frameable stA (SyncConfig.push_ttl (Syncer.config sa))).
Context (Hwin : wf_window w).

Let sid_ok : Syncer.next_sid sa <= u64_max.
Proof. destruct (set_sid _ _ _ _ _ _ _ _ Hmeet) as [H _]. lia. Qed.

(** ** What is sent fits *)

Lemma answer_sendable k m hv nd : R k m hv nd -> sendable (answer_msg sa sb itemsB m).
Proof.
  intros HR. destruct (trip sa sb itemsA itemsB R F Hrounds _ _ _ _ HR) as (_ & _ & _ & E & _).
  destruct (meeting_engines _ _ _ _ _ _ _ _ Hmeet) as (_ & HmB & _).
  assert (Hl : lenN (answer sb itemsB m) <= 60000).
  { by eapply (engine_length sb); [apply Hlims|apply Hmeet|exact HmB|exact E|]. }
  split; [done|]. split; [|by apply recon_msg_encodes]. cbn. split; [exact sid_ok|unfold u64_max; lia].
Qed.

Lemma says_sendable m2 hvn reply hn nn : lenN hvn <= u64_max ->
  Negentropy.reconcile (sealed sa itemsA true) m2 = Ok (Round.mk reply hn nn) ->
  Forall sendable (says sa stA hvn reply) /\ lenN (says sa stA hvn reply) <= lenN hvn + 1.
Proof.
  intros Hlen E. destruct (set_stores _ _ _ _ _ _ _ _ Hmeet) as [HwA _].
  destruct (pushes_sendable stA hvn _ HwA Hfr Httl Hlen) as [Hp Hc].
  destruct (meeting_engines _ _ _ _ _ _ _ _ Hmeet) as (HmA & _).
  unfold says. split; [|rewrite lenN_app; unfold lenN in *; cbn; lia].
  apply Forall_app. split; [done|]. constructor; [|constructor]. destruct reply as [m'|].
  - assert (Hl : lenN m' <= 60000) by (by eapply (engine_length sa); [apply Hlims|apply Hmeet|exact HmA|exact E|]).
    split; [done|]. split; [|by apply recon_msg_encodes]. cbn. split; [exact sid_ok|unfold u64_max; lia].
  - split; [done|]. split; [exact sid_ok|]. apply recon_done_encodes.
Qed.

(** ** The turns *)

Definition pushed_size (hv : list bytes) : N := N.of_nat (card hv).

Lemma pushed_size_le hv : (forall i, i ∈ hv -> i ∈ ids itemsA) -> pushed_size hv <= lenN itemsA.
Proof.
  clear - Hmeet. intros H. destruct (meeting_engines _ _ _ _ _ _ _ _ Hmeet) as (_ & _ & HpA & _).
  pose proof (card_own hv itemsA HpA H). unfold pushed_size, lenN. lia.
Qed.

(** The session with the responder's answer to [m] in the frames [fs], the
    other direction empty; [a] and [b] are the two transports, each with
    nonces for the rest of the session and [n] more frames. *)
Record carrying (n : N) (k : nat) (m : bytes) (hv nd : list bytes) (saa sbb : Syncer.t) (st : EntryStore.t)
    (a b : TransportState.t) (fs : list bytes) : Prop := {
  cg_going : going sa sb stA stB itemsA itemsB (jio 0%nat) R k m hv nd saa sbb st;
  cg_frames : conveyed (TransportState.recv a) fs [answer_msg sa sb itemsB m] (TransportState.send b);
  cg_empty : TransportState.recv b = TransportState.send a;
  cg_nonces : exists r, ready a r /\ N.of_nat (S k) + lenN itemsA + n <= r + pushed_size hv;
  cg_answers : ready b (N.of_nat k + n) }.

(** The link idle again after the session. *)
Record carried (n : N) (hv nd : list bytes) (saa sbb : Syncer.t) (st : EntryStore.t) (a b : TransportState.t) : Prop := {
  cd_syncers : saa = spent sa /\ sbb = sb;
  cd_store : grown_by stA stB itemsA (jio 0%nat) hv st;
  cd_final : F hv nd;
  cd_linked : linked a b;
  cd_ready : ready a n /\ ready b n }.

Lemma link_turn n k m hv nd saa sbb st a b fs : carrying n k m hv nd saa sbb st a b fs ->
  exists saa' sbb' st' a' b' gs gs' hn nn evA evB,
    deliver stA jio now fs (moved dA saa a) = Some ((moved dA saa' a', LinkOutput.mk gs (map Sync evA)), stA) /\
    deliver st jio now gs (moved dB sbb b) = Some ((moved dB sbb' b', LinkOutput.mk gs' (map Sync evB)), st') /\
    same_ids (needed evA) nn /\
    Forall (fun f => lenN f <= 65537) fs /\ Forall (fun f => lenN f <= 65537) gs /\
    ((gs' = [] /\ carried n (hv ++ hn) (nd ++ nn) saa' sbb' st' a' b') \/
     exists m' k', k = S k' /\ carrying n k' m' (hv ++ hn) (nd ++ nn) saa' sbb' st' a' b' gs').
Proof.
  intros [Hgo Hc Hq (r & Ha & Hr) Hb].
  destruct (exchange_step sa sb stA stB w itemsA itemsB (jio 0%nat) Hmeet R F Hrounds _ _ _ _ _ _ _ Hgo)
    as (saa' & sbb' & st' & outA & outB & hn & nn & hvn & reply & EA & EB & Hneed & HrA & _ & Hown & Erec & Hcard & Hnext).
  pose proof (go_st _ _ _ _ _ _ _ _ _ _ _ _ _ _ _ Hgo) as Hst.
  assert (Hle : pushed_size hv + lenN hvn <= lenN itemsA).
  { assert (Hin : forall i, i ∈ hv ++ hn -> i ∈ ids itemsA).
    { destruct Hnext as [(_ & _ & _ & (_ & _ & _ & Hg & _) & _)|(m' & k' & _ & _ & Hgo')].
      - intros i Hi. by apply Hg.
      - destruct (go_st _ _ _ _ _ _ _ _ _ _ _ _ _ _ _ Hgo') as (_ & _ & _ & Hg & _). intros i Hi. by apply Hg. }
    apply pushed_size_le in Hin. unfold pushed_size, lenN in *. lia. }
  assert (HlA : lenN itemsA <= u32_max).
  { destruct Hmeet as [_ _ (HwA & _) _ _ _ (EsA & _) _]. by destruct (sealed_facts _ _ _ HwA EsA) as (_ & _ & _ & ? & _). }
  destruct (says_sendable _ hvn reply hn nn ltac:(unfold u32_max, u64_max in *; lia) Erec) as [HsA HcA]. rewrite <- HrA in HsA, HcA.
  destruct (deliver_all _ _ _ _ (moved dA saa a) a stA jio now _ _ _ (r - lenN (SyncOutput.replies outA)) Hc eq_refl eq_refl
    (proj1 Hidle) (proj1 Hlife) EA HsA) as (cA & gs & D1 & Hc1 & Hr1); [eapply ready_le; [exact Ha|lia]|].
  rewrite <- Hq in Hc1.
  assert (HsB : Forall sendable (SyncOutput.replies outB) /\
    exists kb, ready b (lenN (SyncOutput.replies outB) + (kb + n)) /\ forall k', k = S k' -> N.of_nat k' <= kb).
  { destruct Hnext as [(-> & _)|(m' & k' & -> & -> & Hgo')].
    - split; [constructor|]. exists (N.of_nat k). split; [exact Hb|]. intros. lia.
    - split; [constructor; [|constructor]; exact (answer_sendable _ _ _ _ (go_round _ _ _ _ _ _ _ _ _ _ _ _ _ _ _ Hgo'))|].
      exists (N.of_nat k'). split; [eapply ready_le; [exact Hb|]; change (lenN [_]) with 1; lia|]. intros ? [= <-]. lia. }
  destruct HsB as (HsB & kb & Hkb & Hkk).
  destruct (deliver_all _ _ _ _ (moved dB sbb b) b st jio now _ _ _ (kb + n) Hc1 eq_refl eq_refl
    (proj2 Hidle) (proj2 Hlife) EB HsB Hkb) as (cB & gs' & D2 & Hc2 & Hr2).
  do 7 eexists. exists hn, nn. do 2 eexists. split; [exact D1|]. split; [exact D2|]. split; [done|].
  split; [apply (conveyed_sizes _ _ _ _ Hc)|]. split; [apply (conveyed_sizes _ _ _ _ Hc1)|].
  destruct Hnext as [(E & E1 & E2 & Hg & HF)|(m' & k' & -> & E & Hgo')]; rewrite E in Hc2.
  - left. destruct (conveyed_none _ _ _ Hc2) as [-> ->]. split; [done|].
    assert (Rn : ready (TransportState.set_send cA (TransportState.set_recv (TransportState.send b) a)) n).
    { eapply ready_le; [exact Hr1|]. lia. }
    split; try done.
    + pose proof Rn as (? & ? & ?). pose proof Hr2 as (? & ? & ?). split; cbn in *; [done|done|done|done|split; lia].
    + split; [done|]. eapply ready_le; [exact Hr2|lia].
  - right. exists m', k'. split; [done|]. split; try done.
    + eexists. split; [exact Hr1|]. unfold pushed_size, lenN in *. lia.
    + eapply ready_le; [exact Hr2|]. specialize (Hkk k' eq_refl). lia.
Qed.

(** ** The opening *)

(** The opener's side: one frame with the opening. *)
Lemma link_asks n a saa : state dA = Transport a -> ready a (1 + n) ->
  Syncer.open_session sa stA w = Ok (saa, Syncer.next_sid sa, opening_init sa w itemsA) ->
  exists ca f0, let a1 := TransportState.set_send ca a in
    open_sync stA w dA = (moved dA saa a1, Ok (Syncer.next_sid sa, LinkOutput.mk [f0] [])) /\
    conveyed (TransportState.send a) [f0] [opening_init sa w itemsA] ca /\ ready a1 n.
Proof.
  intros HsA Ha Eo. pose proof (opening_message_length sa sb stA stB w itemsA itemsB (jio 0%nat) Hmeet) as Hl.
  assert (S0 : sendable (opening_init sa w itemsA)).
  { split; [done|]. split; [|apply recon_init_encodes; cbn [ReconInit.msg]; lia].
    cbn [opening_init wf_message ReconInit.sid ReconInit.window ReconInit.msg]. split_and!; [exact sid_ok|done|unfold u64_max; lia]. }
  destruct (queue_one (set_syncer saa dA) a _ LinkOutput.default n HsA Ha S0) as (ca & f0 & Eq & Hc0 & Hr0).
  exists ca, f0. split_and!; [|done|done].
  unfold open_sync, is_established. rewrite HsA. cbn [negb]. by rewrite Eo, Eq.
Qed.

Lemma link_opens n k a b : state dA = Transport a -> state dB = Transport b -> linked a b ->
  R k (opening_message itemsA) [] [] ->
  CipherState.n (TransportState.send a) + (N.of_nat k + lenN itemsA + n + 2) <= u64_max ->
  CipherState.n (TransportState.send b) + (N.of_nat k + n + 1) <= u64_max ->
  exists dA1 f0 f1 a1 b1 saa sbb,
    open_sync stA w dA = (dA1, Ok (Syncer.next_sid sa, LinkOutput.mk [f0] [])) /\ dA1 = moved dA saa a1 /\
    on_bytes stB jio f0 now dB = Some ((moved dB sbb b1, LinkOutput.mk [f1] []), stB) /\
    lenN f0 <= 65537 /\
    carrying n k (opening_message itemsA) [] [] saa sbb stB a1 b1 [f1].
Proof.
  intros HsA HsB [[HfA HfB] Hab Hba [HkA HkB] _] HR HnA HnB.
  destruct (open_going sa sb stA stB w itemsA itemsB (jio 0%nat) Hmeet R F Hrounds k HR) as (saa & sbb & Eo & Ei & Hgo).
  destruct (link_asks (N.of_nat k + lenN itemsA + n + 1) a saa HsA ltac:(split_and!; [done|done|lia]) Eo)
    as (ca & f0 & Es & Hc0 & Hr0).
  rewrite Hab in Hc0.
  destruct (deliver_message _ _ _ _ dB b stB jio now _ _ _ (N.of_nat k + n) Hc0 HsB eq_refl (proj2 Hidle) (proj2 Hlife) Ei)
    as (cb & gs & Eb1 & Hc1 & Hr1).
  { constructor; [|constructor]. by eapply answer_sendable. }
  { split_and!; [done|done|]. unfold lenN. cbn [SyncOutput.replies length]. lia. }
  cbn [SyncOutput.replies SyncOutput.events map] in *. destruct (conveyed_one _ _ _ _ Hc1) as [f1 ->]. rewrite <- Hba in Hc1.
  do 2 eexists. exists f1. do 4 eexists. split; [exact Es|].
  split; [reflexivity|]. split; [exact Eb1|].
  apply conveyed_sizes in Hc0 as [L0 _]. apply Forall_cons_1 in L0 as [L0 _]. split; [exact L0|].
  split; try done.
  eexists. split; [exact Hr0|]. unfold pushed_size. cbn. lia.
Qed.

End Traffic.
