(* ===== verification/Fuzz.v ===== *)
(** * The fuzz targets: fuzz/fuzz_targets

    Each target is a function of the fuzzer's input. [None] is what the
    fuzzer reports: a panic or a failed assertion; [Some tt] is a run that
    returns. *)
From S2P Require Import Prelude Errors Crypto Cbor CborRef Entry Msg Frame Store StoreSpec Session Noise NoiseSpec Driver DriverSpec LinkSpec.
Open Scope N_scope.

(** [slice::chunks]: pieces of [n] elements, the last one shorter. *)
Fixpoint chunks_fuel {A} (fuel : nat) (n : nat) (l : list A) : list (list A) :=
  match l, fuel with
  | [], _ | _, O => []
  | _, S fuel => take n l :: chunks_fuel fuel n (drop n l)
  end.
Definition chunks {A} (n : nat) (l : list A) : list (list A) := chunks_fuel (length l) n l.

(** The length of the pieces the first input byte picks. *)
Definition chunk_len (selector : byte) : nat := Nat.max (N.to_nat (byte_val selector)) 1.

#[local] Existing Instance Entry.t_eq_dec.

(** [derive(PartialEq)]. *)
#[export] Instance hello_eq_dec : EqDecision Hello.t.
Proof. solve_decision. Defined.
#[export] Instance handshake_eq_dec : EqDecision Handshake.t.
Proof. solve_decision. Defined.
#[export] Instance gossip_push_eq_dec : EqDecision GossipPush.t.
Proof. solve_decision. Defined.
#[export] Instance window_eq_dec : EqDecision SortKeyWindow.t.
Proof. solve_decision. Defined.
#[export] Instance recon_init_eq_dec : EqDecision ReconInit.t.
Proof. solve_decision. Defined.
#[export] Instance recon_msg_eq_dec : EqDecision ReconMsg.t.
Proof. solve_decision. Defined.
#[export] Instance recon_done_eq_dec : EqDecision ReconDone.t.
Proof. solve_decision. Defined.
#[export] Instance error_msg_eq_dec : EqDecision ErrorMsg.t.
Proof. solve_decision. Defined.
#[export] Instance message_eq_dec : EqDecision Message.
Proof. solve_decision. Defined.

(** ** frame_decode.rs *)

Module FrameDecode.
Section Target.
Context {cbor : Cbor}.

(** The assertions about one decoded message. *)
Definition recodes (msg : Message) : bool :=
  match encode_message msg with
  | Ok body =>
      match decode_message body with
      | Ok again => bool_decide (again = msg)
      | _ => false
      end
  | _ => false
  end.

(** The inner loop: [Some None] when the target returns, else the decoder for
    the next piece. Every message takes two octets or more off the buffer. *)
Fixpoint messages (fuel : nat) (decoder : FrameDecoder.t) : option (option FrameDecoder.t) :=
  match fuel with
  | O => None
  | S fuel =>
      match FrameDecoder.next_message decoder with
      | (Ok (Some msg), decoder) => if recodes msg then messages fuel decoder else None
      | (Ok None, decoder) => Some (Some decoder)
      | (Err _, _) => Some None
      | (Panic, _) => None
      end
  end.

Fixpoint pieces (decoder : FrameDecoder.t) (ps : list bytes) : option unit :=
  match ps with
  | [] => Some tt
  | piece :: ps =>
      let decoder := FrameDecoder.push decoder piece in
      next ← messages (S (length (FrameDecoder.buf decoder))) decoder;
      match next with
      | Some decoder => pieces decoder ps
      | None => Some tt
      end
  end.

Definition target (data : bytes) : option unit :=
  match data with
  | [] => Some tt
  | selector :: stream => pieces FrameDecoder.new (chunks (chunk_len selector) stream)
  end.

End Target.
End FrameDecode.

(** ** noise_handshake.rs *)

Module NoiseHandshake.
Section Target.
Context {crypto : Crypto}.

Definition fixed_keys (b : N) : Keypair.t := Keypair.from_secret_bytes (replicate 32 (byte_of b)).

Definition pair : HandshakeState.t * HandshakeState.t :=
  (HandshakeState.new_xx Initiator (fixed_keys 17) (fixed_keys 51) (String.list_byte_of_string "fuzz prologue"),
   HandshakeState.new_xx Responder (fixed_keys 34) (fixed_keys 68) (String.list_byte_of_string "fuzz prologue")).

(** A call whose result is dropped. *)
Definition ignored {S A} (r : S * result NoiseError.t A) : option unit :=
  match r.2 with Panic => None | _ => Some tt end.
(** [unwrap]. *)
Definition unwrap {S A} (r : S * result NoiseError.t A) : option (S * A) :=
  match r with (s, Ok a) => Some (s, a) | _ => None end.

Definition target (data : bytes) : option unit :=
  match data with
  | [] => Some tt
  | step :: bs =>
      let '(i, r) := pair in
      match byte_val step mod 3 with
      | 0 => ignored (HandshakeState.read_message bs r)
      | 1 =>
          '(i, m1) ← unwrap (HandshakeState.write_message [] i);
          '(r, _) ← unwrap (HandshakeState.read_message m1 r);
          ignored (HandshakeState.read_message bs i)
      | _ =>
          '(i, m1) ← unwrap (HandshakeState.write_message [] i);
          '(r, _) ← unwrap (HandshakeState.read_message m1 r);
          '(r, m2) ← unwrap (HandshakeState.write_message [] r);
          '(i, _) ← unwrap (HandshakeState.read_message m2 i);
          ignored (HandshakeState.read_message bs r)
      end
  end.

End Target.
End NoiseHandshake.

(** ** link_driver.rs *)

Module LinkDriverTarget.
Import LinkDriver.
Section Target.
Context {cbor : Cbor} {crypto : Crypto}.
(** The outcomes of journal writes; the stores have no journal. *)
Context (io : nat -> nat -> io_outcome).

Definition driver (role : LinkRole) : t :=
  let '(s, e) := match role with Session.Initiator => (17, 51) | Session.Responder => (34, 68) end in
  new role (NoiseHandshake.fixed_keys s) (NoiseHandshake.fixed_keys e) LinkDriverConfig.default 0.

(** [for frame in frames]: every frame is noted in the inbox and fed to the
    driver; the frames it answers. *)
Fixpoint relay (d : t) (store : EntryStore.t) (inbox out frames : list bytes) : option (t * EntryStore.t * list bytes * list bytes) :=
  match frames with
  | [] => Some (d, store, inbox, out)
  | frame :: frames =>
      '(d, o, store) ← on_bytes store io frame 0 d;
      relay d store (inbox ++ [frame]) (out ++ LinkOutput.frames o) frames
  end.

(** The loop of [honest_inboxes], for at most [fuel] rounds. *)
Fixpoint exchange (fuel : nat) (a b : t) (a_store b_store : EntryStore.t) (a_inbox b_inbox to_b : list bytes)
  : option (list bytes * list bytes) :=
  match to_b with
  | [] => Some (a_inbox, b_inbox)
  | _ =>
      match fuel with
      | O => None
      | S fuel =>
          '(b, b_store, b_inbox, to_a) ← relay b b_store b_inbox [] to_b;
          '(a, a_store, a_inbox, to_b) ← relay a a_store a_inbox [] to_a;
          exchange fuel a b a_store b_store a_inbox b_inbox to_b
      end
  end.

(** Three rounds end the honest handshake ([honest_frames] below). *)
Definition honest_inboxes : option (list bytes * list bytes) :=
  let a := driver Session.Initiator in
  let b := driver Session.Responder in
  '(a, o) ← start a;
  exchange 3 a b EntryStore.new EntryStore.new [] [] (LinkOutput.frames o).

(** Frames or pieces fed one after the other, the answers dropped. *)
Fixpoint feed (d : t) (store : EntryStore.t) (bss : list bytes) : option (t * EntryStore.t) :=
  match bss with
  | [] => Some (d, store)
  | bs :: bss =>
      '(d, _, store) ← on_bytes store io bs 0 d;
      feed d store bss
  end.

Definition target (data : bytes) : option unit :=
  match data with
  | [] => Some tt
  | selector :: bs =>
      let role := if N.land (byte_val selector) 1 =? 0 then Session.Initiator else Session.Responder in
      let prefix := N.to_nat (N.shiftr (byte_val selector) 1 mod 4) in
      '(a_inbox, b_inbox) ← honest_inboxes;
      let inbox := match role with Session.Initiator => a_inbox | Session.Responder => b_inbox end in
      let d := driver role in
      let store := EntryStore.new in
      '(d, _) ← start d;
      '(d, store) ← feed d store (take prefix inbox);
      '(d, store) ← feed d store (chunks (chunk_len selector) bs);
      match close_reason d with
      | Some _ =>
          '(d, out, store) ← on_bytes store io (String.list_byte_of_string "closed drivers stay closed") 0 d;
          if bool_decide (LinkOutput.frames out = []) && bool_decide (length (LinkOutput.events out) = 0)%nat
          then Some tt else None
      | None => Some tt
      end
  end.

End Target.
End LinkDriverTarget.
