(* ===== verification/FuzzSpec.v ===== *)
(** * What the fuzz targets find

    The three targets for every input: the frame target judges exactly the
    bodies of the stream, however it is cut; the handshake target and the
    link target never fail. *)
From S2P Require Import Prelude Errors Pad Crypto Cbor CborRef Entry Msg Frame Store StoreSpec Session Noise NoiseSpec Driver DriverSpec LinkSpec Fuzz.
Open Scope N_scope.

Lemma concat_chunks {A} n (l : list A) : (1 <= n)%nat -> concat (chunks n l) = l.
Proof.
  intros Hn. unfold chunks. assert (H : (length l <= length l)%nat) by done. revert H.
  generalize (length l) at 2 3. intros fuel. revert l. induction fuel as [|fuel IH]; intros [|x l] Hl; cbn [length] in *; try done; [lia|].
  cbn [chunks_fuel concat]. rewrite IH; [apply take_drop|]. rewrite length_drop. cbn. lia.
Qed.

Lemma chunk_len_pos b : (1 <= chunk_len b)%nat.
Proof. unfold chunk_len. lia. Qed.

(** ** frame_decode.rs *)

Section Frames.
Context {cbor : Cbor}.
Import FrameDecode.

(** The bodies of a stream judged in order: [None] at one that decodes but
    cannot be encoded again, [Some false] at one that does not decode. *)
Fixpoint verdict (bodies : list bytes) : option bool :=
  match bodies with
  | [] => Some true
  | body :: bodies =>
      match decode_message body with
      | Ok m => if encode_message m is Ok _ then verdict bodies else None
      | _ => Some false
      end
  end.

Lemma verdict_app a b : verdict (a ++ b) = match verdict a with Some true => verdict b | r => r end.
Proof.
  induction a as [|x a IH]; [done|]. cbn [app verdict].
  destruct (decode_message x) as [m| |]; [|done|done]. by destruct (encode_message m).
Qed.

Lemma recodes_encodes body m : decode_message body = Ok m ->
  recodes m = (if encode_message m is Ok _ then true else false) /\
  (recodes m = false -> encode_message m = Err TooLarge).
Proof.
  intros Hd. pose proof (decode_message_inv body m Hd) as (b0 & payload & pad & _ & _ & _ & _ & Hpd & Hv).
  pose proof (yields_payload _ _ _ _ Hpd) as [Hwf _]. unfold recodes.
  destruct (encode_message m) as [b| |] eqn:E.
  - rewrite (decode_encode_message m b Hwf E), bool_decide_eq_true_2 by done. done.
  - split; [done|]. intros _. rewrite encode_message_eq, Hv in E. by destruct (padded_len _); [discriminate E|].
  - by destruct (encode_message_outcome m) as (_ & _ & _ & H).
Qed.

Lemma messages_drain n d : (length (FrameDecoder.buf d) < n)%nat ->
  messages n d = match verdict (FrameDecoder.drain d).1 with
                 | Some true => Some (Some (FrameDecoder.drain d).2)
                 | Some false => Some None
                 | None => None
                 end.
Proof.
  revert d. induction n as [|n IH]; intros d Hn; [lia|]. cbn [messages]. unfold FrameDecoder.next_message.
  rewrite drain_unfold. destruct (FrameDecoder.next_body d) as [[body|] d'] eqn:E.
  - pose proof (next_body_shrinks _ _ _ E). rewrite IH by lia. destruct (FrameDecoder.drain d') as [bodies d2].
    cbn [fst snd verdict]. pose proof (decode_message_no_panic body).
    destruct (decode_message body) as [m| |] eqn:Ed; cbn [fmap result_fmap]; [|done|done].
    destruct (recodes_encodes body m Ed) as [-> _]. by destruct (encode_message m).
  - by apply next_body_None in E as ->.
Qed.

Lemma pieces_verdict d ps : fst (FrameDecoder.next_body d) = None ->
  pieces d ps = (if verdict (FrameDecoder.feed d ps).1 is None then None else Some tt).
Proof.
  revert d. induction ps as [|p ps IH]; intros d Hd; [done|]. cbn [pieces FrameDecoder.feed].
  rewrite messages_drain by lia. pose proof (drain_done (FrameDecoder.push d p)) as Hd'.
  destruct (FrameDecoder.drain (FrameDecoder.push d p)) as [bodies d']. cbn [fst snd] in *.
  pose proof (IH d' Hd') as IH'. destruct (FrameDecoder.feed d' ps) as [more d2]. cbn [fst] in *. rewrite verdict_app.
  destruct (verdict bodies) as [[]|]; done.
Qed.

(** C29: the frame target. Whatever the chunking byte, the outcome depends on the
    stream alone: the complete bodies at its front are judged in order, up to
    the first that does not decode. The run fails exactly when one of them
    decodes to a message whose own encoding is too large for any block;
    every other message that decodes is encoded and decoded back to
    itself. *)
Theorem frame_target_verdict selector stream :
  let bodies := (FrameDecoder.drain (FrameDecoder.mk stream)).1 in
  target (selector :: stream) = (if verdict bodies is None then None else Some tt) /\
  (target (selector :: stream) = None <->
     exists before body after m, bodies = before ++ body :: after /\ verdict before = Some true /\
       decode_message body = Ok m /\ encode_message m = Err TooLarge) /\
  forall body m, decode_message body = Ok m -> encode_message m <> Err TooLarge ->
    exists body', encode_message m = Ok body' /\ decode_message body' = Ok m.
Proof.
  intros bodies.
  assert (Ht : target (selector :: stream) = (if verdict bodies is None then None else Some tt)).
  { cbn [target]. rewrite pieces_verdict by done. rewrite feed_drain by done. unfold FrameDecoder.push.
    cbn [FrameDecoder.buf FrameDecoder.new app]. by rewrite (concat_chunks _ _ (chunk_len_pos selector)). }
  split; [done|]. split.
  - rewrite Ht. clear Ht. generalize bodies. clear bodies. intros bodies. split.
    + induction bodies as [|body bodies IH]; cbn [verdict]; [done|].
      destruct (decode_message body) as [m| |] eqn:Ed; [|done|done].
      destruct (recodes_encodes body m Ed) as [Hr Hl]. destruct (encode_message m) as [b| |] eqn:Ee.
      * intros H. destruct (IH H) as (before & body' & after & m' & -> & Hv & Hd & He).
        exists (body :: before), body', after, m'. cbn [app verdict]. by rewrite Ed, Ee.
      * intros _. exists [], body, bodies, m. rewrite Ee. split_and!; try done. by apply Hl.
      * by destruct (encode_message_outcome m) as (_ & _ & _ & H).
    + intros (before & body & after & m & -> & Hv & Hd & He). rewrite verdict_app, Hv. cbn [verdict]. by rewrite Hd, He.
  - intros body m Hd Hne. destruct (recodes_encodes body m Hd) as [Hr Hl]. unfold recodes in *.
    destruct (encode_message m) as [b| |]; [|by destruct (Hne (Hl eq_refl))|].
    + exists b. split; [done|]. destruct (decode_message b); [|done|done]. by apply bool_decide_eq_true in Hr as ->.
    + by specialize (Hl eq_refl).
Qed.

End Frames.

(** ** noise_handshake.rs *)

Section Handshakes.
Context {crypto : Crypto}.
Import HandshakeState NoiseHandshake.

Lemma read_no_panic bs hs : hs_wf hs -> ignored (read_message bs hs) = Some tt.
Proof.
  intros Hw. unfold ignored. destruct (our_turn_to_write hs) eqn:Ht; [|destruct (decide (step hs = 4)) as [H4|H4]].
  - unfold read_message. by rewrite Ht, orb_true_r.
  - unfold read_message. by rewrite H4.
  - pose proof (read_total hs bs Hw H4 Ht) as H. unfold runs in H. by destruct (read_message bs hs) as [hs' [a| |]].
Qed.

Lemma write_keeps_wf p hs hs' m : hs_wf hs -> our_turn_to_write hs = true -> write_message p hs = (hs', Ok m) -> hs_wf hs'.
Proof. intros Hw Ht E. pose proof (write_total hs p Hw Ht) as H. unfold runs in H. rewrite E in H. apply H. Qed.

Lemma read_keeps_wf bs hs hs' m : hs_wf hs -> our_turn_to_write hs = false -> step hs <> 4 ->
  read_message bs hs = (hs', Ok m) -> hs_wf hs'.
Proof. intros Hw Ht H4 E. pose proof (read_total hs bs Hw H4 Ht) as H. unfold runs in H. rewrite E in H. apply H. Qed.

(** The handshake target never fails: the fixed honest prefix goes through
    up to any step, and whatever bytes then arrive are read without a
    panic. *)
Theorem handshake_target_passes data : target data = Some tt.
Proof.
  destruct data as [|sel bs]; [done|]. cbn [target]. unfold pair.
  set (prologue := String.list_byte_of_string "fuzz prologue").
  pose proof (hs_wf_new Initiator (fixed_keys 17) (fixed_keys 51) prologue) as Hi.
  pose proof (hs_wf_new Responder (fixed_keys 34) (fixed_keys 68) prologue) as Hr.
  unfold new_xx in *.
  set (x := SymmetricState.mix_hash prologue SymmetricState.new_for_protocol) in *.
  destruct (message1 x (fixed_keys 17) (fixed_keys 51) (fixed_keys 34) (fixed_keys 68) [])
    as (x1 & m1 & W1 & R1 & _); [done|done|apply x25519_base_length|].
  destruct (message2 x1 (fixed_keys 17) (fixed_keys 51) (fixed_keys 34) (fixed_keys 68) [])
    as (x2 & m2 & W2 & R2 & _); [done..|].
  pose proof (write_keeps_wf _ _ _ _ Hi eq_refl W1) as Hi1.
  pose proof (read_keeps_wf _ _ _ _ Hr eq_refl ltac:(done) R1) as Hr1.
  pose proof (write_keeps_wf _ _ _ _ Hr1 eq_refl W2) as Hr2.
  unfold unwrap. destruct (byte_val sel mod 3) as [|[]]; rewrite ?W1; cbn [mbind option_bind]; rewrite ?R1; cbn [mbind option_bind];
    rewrite ?W2; cbn [mbind option_bind]; rewrite ?R2; cbn [mbind option_bind]; by apply read_no_panic.
Qed.

End Handshakes.

(** ** link_driver.rs *)

Section Links.
Context {cbor : Cbor} {crypto : Crypto}.
Import LinkDriver LinkDriverTarget.
Context (io : nat -> nat -> io_outcome).

Lemma default_hello_encodes : exists b, hello_body LinkDriverConfig.default b.
Proof.
  destruct (hello_encodes (Hello.mk [1] 0 [1])) as [b E]; [done|by apply N.leb_le..|]. exists b.
  split; [solve_bounds|exact E].
Qed.

Lemma driver_ok role : driver_wf (driver role).
Proof.
  destruct default_hello_encodes as (b & _ & Hb).
  destruct role; (apply new_wf; [split; apply x25519_base_length|eexists; exact Hb]).
Qed.

Lemma start_ok role : total (start (driver role)) (fun a => driver_wf a.1 /\ pending_len a.1 = 0).
Proof.
  pose proof (driver_ok role) as Hw. destruct role; [|by split].
  pose proof (queue_hello_spec (driver Session.Initiator, LinkOutput.default) (dw_base _ Hw)) as Hq.
  unfold start. cbn [LinkDriver.role driver new state]. unfold queue_hello in *.
  destruct (encode_message _) as [b| |]; [|done|done]. destruct Hq as (Hb & _).
  split; [|done]. split; [exact Hb|]. exact (dw_state _ Hw).
Qed.

Lemma feed_ok d store bss : driver_wf d -> StoreSpec.wf store ->
  stored store + pending_len d + lenN (concat bss) < u32_max ->
  total (feed io d store bss) (fun '(d', store') => driver_wf d' /\ StoreSpec.wf store' /\
    stored store' + pending_len d' <= stored store + pending_len d + lenN (concat bss)).
Proof.
  revert d store. induction bss as [|bs bss IH]; intros d store Hw Hs Hroom; cbn [feed concat] in *.
  { split_and!; [done|done|lia]. }
  rewrite lenN_app in *.
  eapply total_bind; [apply (on_bytes_spec d store io bs 0 Hw Hs); lia|].
  intros [[d1 o] store1] (Hw1 & (Hs1 & _) & _ & Hsum).
  eapply total_mono; [by apply IH; [..|lia]|].
  intros [d2 store2] (Hw2 & Hs2 & Hsum2). split_and!; [done|done|lia].
Qed.

(** The honest handshake ends by itself after five frames. *)
Lemma honest_frames : exists f1 f2 f3 f4 f5, honest_inboxes io = Some ([f2; f4], [f1; f3; f5]) /\
  Forall (fun f => lenN f <= 65537) [f1; f2; f3; f4; f5].
Proof.
  destruct default_hello_encodes as (b & Hb).
  destruct (link_establishes (NoiseHandshake.fixed_keys 17) (NoiseHandshake.fixed_keys 51)
    (NoiseHandshake.fixed_keys 34) (NoiseHandshake.fixed_keys 68)
    LinkDriverConfig.default LinkDriverConfig.default b b 1 0 0 0 EntryStore.new EntryStore.new io)
    as (dI1 & dI2 & dI3 & dR1 & dR2 & dR3 & f1 & f2 & f3 & f4 & f5 & trI & trR & Es & E1 & E2 & E3 & E4 & E5 &
        _ & _ & _ & _ & _ & _ & _ & _ & Hlen & _); try done.
  exists f1, f2, f3, f4, f5. split; [|done]. unfold honest_inboxes, driver. rewrite Es.
  cbn [mbind option_bind LinkOutput.frames exchange relay app].
  rewrite E1. cbn [mbind option_bind LinkOutput.frames relay app]. rewrite E2. cbn [mbind option_bind LinkOutput.frames relay app].
  rewrite E3. cbn [mbind option_bind LinkOutput.frames relay app]. rewrite E4. cbn [mbind option_bind LinkOutput.frames relay app].
  rewrite E5. done.
Qed.

Lemma frames_take k (fs : list bytes) : (length fs <= 3)%nat -> Forall (fun f => lenN f <= 65537) fs ->
  lenN (concat (take k fs)) <= 196611.
Proof.
  intros Hl Hf. assert (H : forall gs : list bytes, Forall (fun f => lenN f <= 65537) gs -> lenN (concat gs) <= 65537 * lenN gs).
  { induction 1 as [|f gs Hf' _ IH]; [done|]. cbn [concat]. rewrite lenN_app, lenN_cons. lia. }
  specialize (H (take k fs) (Forall_take _ k _ Hf)). unfold lenN in *. rewrite length_take in H. lia.
Qed.

(** C30: the link target never fails. The honest prefix runs to its end, and
    after any part of it the driver takes whatever bytes come, cut anywhere,
    without a panic; once it has closed it answers nothing more. Inputs may
    be of any size below 2^32 - 2^18 octets, so that the store's ranks keep
    to 32 bits. *)
Theorem link_target_passes data : lenN data + 262144 < u32_max -> target io data = Some tt.
Proof.
  intros Hdata. destruct data as [|sel bs]; [done|]. cbn [target]. rewrite lenN_cons in Hdata.
  destruct honest_frames as (f1 & f2 & f3 & f4 & f5 & -> & Hf). cbn [mbind option_bind].
  repeat match goal with H : Forall _ (_ :: _) |- _ => apply Forall_cons in H as [? H] end.
  set (role := if _ =? 0 then _ else _).
  set (inbox := match role with Session.Initiator => _ | Session.Responder => _ end).
  assert (Hin : (length inbox <= 3)%nat /\ Forall (fun f => lenN f <= 65537) inbox).
  { subst inbox. destruct role; cbn; split; try lia; by repeat constructor. }
  pose proof (frames_take (N.to_nat (N.shiftr (byte_val sel) 1 mod 4)) inbox (proj1 Hin) (proj2 Hin)) as Hpre.
  generalize (take (N.to_nat (N.shiftr (byte_val sel) 1 mod 4)) inbox) Hpre. clearbody inbox. clear Hpre Hin. intros pre Hpre.
  pose proof (start_ok role) as Hst. destruct (start (driver role)) as [[d o]|]; [|done]. destruct Hst as [Hw Hp].
  cbn [mbind option_bind]. cbn [fst] in *.
  assert (Hs0 : stored EntryStore.new = 0) by done.
  pose proof (feed_ok d EntryStore.new pre Hw store_wf_new ltac:(lia)) as Hf1.
  destruct (feed io d EntryStore.new pre) as [[d1 store1]|]; [|done]. destruct Hf1 as (Hw1 & Hs1 & Hsum1).
  cbn [mbind option_bind].
  pose proof (feed_ok d1 store1 (chunks (chunk_len sel) bs) Hw1 Hs1) as Hf2.
  rewrite (concat_chunks _ _ (chunk_len_pos sel)) in Hf2. specialize (Hf2 ltac:(lia)).
  destruct (feed io d1 store1 _) as [[d2 store2]|]; [|done]. destruct Hf2 as (Hw2 & Hs2 & Hsum2).
  cbn [mbind option_bind]. destruct (close_reason d2) as [r|] eqn:Hr; [|done].
  assert (Hc : is_closed d2 = true) by (unfold close_reason, is_closed in *; by destruct (state d2)).
  set (last := String.list_byte_of_string _). assert (Hl : lenN last <= 100) by by apply N.leb_le.
  pose proof (on_bytes_spec d2 store2 io last 0 Hw2 Hs2 ltac:(lia)) as Hf3.
  destruct (on_bytes store2 io last 0 d2) as [[[d3 o3] store3]|]; [|done]. destruct Hf3 as (_ & _ & Hf3 & _).
  rewrite Hc in Hf3. destruct Hf3 as [-> ->]. done.
Qed.

End Links.

(** ** Concrete instances *)

(** A HELLO whose list of versions has an indefinite length: two octets
    around the elements, where the crate's own encoding takes three. *)
Definition wide_hello : bytes :=
  byte_of 1 :: be_bytes 2 63485 ++
  [byte_of 163; byte_of 0; byte_of 159] ++ replicate (N.to_nat 63477) zero_byte ++
  [byte_of 255; byte_of 1; byte_of 0; byte_of 2; byte_of 128].

Definition unencodable (body : bytes) : bool :=
  match decode_message body with
  | Ok m => match encode_message m with Err TooLarge => true | _ => false end
  | _ => false
  end.

Lemma wide_hello_unencodable : unencodable wide_hello = true.
Proof. vm_compute. reflexivity. Qed.

Lemma unencodable_spec body : unencodable body = true -> exists m,
  decode_message body = Ok m /\ encode_message m = Err TooLarge.
Proof.
  unfold unencodable. destruct (decode_message body) as [m| |]; try discriminate.
  destruct (encode_message m) as [|[]|] eqn:E; try discriminate. by exists m.
Qed.

Lemma target_unencodable selector body : unencodable body = true -> (lenN body <=? u16_max) = true ->
  (exists m, decode_message body = Ok m /\ encode_message m = Err TooLarge) /\
  FrameDecode.target (selector :: frame body) = None.
Proof.
  intros Hu Hl. destruct (unencodable_spec _ Hu) as (m & Hd & He). split; [by exists m|].
  cbn [FrameDecode.target]. rewrite pieces_verdict by done. rewrite feed_drain by done. unfold FrameDecoder.push.
  cbn [FrameDecoder.buf FrameDecoder.new app]. rewrite (concat_chunks _ _ (chunk_len_pos selector)).
  pose proof (drain_stream [body] []) as H. unfold stream in H. cbn [map concat] in H. rewrite !app_nil_r in H.
  rewrite H; [|by apply Forall_singleton, N.leb_le|done]. cbn [fst verdict]. by rewrite Hd, He.
Qed.

Lemma wide_hello_fits : (lenN wide_hello <=? u16_max) = true.
Proof. vm_compute. reflexivity. Qed.

(** The frame target's assertion does not hold. The decoder takes arrays of
    indefinite length, and the encoder writes a longer head: a frame of the
    largest block can hold a message that decodes and cannot be encoded
    again, and the target fails on it however it is cut. *)
Theorem frame_target_fails selector :
  (exists m, decode_message wide_hello = Ok m /\ encode_message m = Err TooLarge) /\
  FrameDecode.target (selector :: frame wide_hello) = None.
Proof. exact (target_unencodable selector wide_hello wide_hello_unencodable wide_hello_fits). Qed.

Lemma link_target_passes_witness :
  LinkDriverTarget.target (crypto := toy_crypto) (fun _ _ => IoOk) [byte_of 5; byte_of 0; byte_of 1; byte_of 9] = Some tt.
Proof. apply (link_target_passes (crypto := toy_crypto)). vm_compute. reflexivity. Defined.
