(* ===== verification/Node.v ===== *)
(** * The node: api/mod.rs and api/node.rs

    What a device shares across its links, behind one lock: the identity, the
    store, the handshake limiter and the live links. Every exported call runs
    under the lock, so a node is a sequence of the calls modelled here.
    Platform entropy is an argument ([None] when it is unavailable); [HashMap]
    iteration, whose order is unspecified, follows [map_to_list]. The link
    counter is not bounded by [u64]. *)
From S2P Require Import Prelude Errors Crypto Cbor Entry Msg Frame Item Store Session Limiter Noise Driver.
Open Scope N_scope.

(** ** api/mod.rs: the exported types *)

Module Identity.
Record t : Type := mk { noise_seed : bytes; signing_seed : bytes }.
End Identity.

Module SyncWindow.
Record t : Type := mk { since_ms : N; until_ms : N }.
(** [From<SyncWindow> for SortKeyWindow]. *)
Definition into (w : t) : SortKeyWindow.t := SortKeyWindow.mk (since_ms w) (until_ms w).
End SyncWindow.

Inductive CloseCause : Type :=
  | CauseVersionIncompatible
  | CauseHandshakeFailed
  | CauseBadCiphertextLength
  | CauseDecryptFailed
  | CauseProtocolViolation (code : N)
  | CausePeerError (code : N)
  | CauseLifetimeExpired
  | CauseNonceExhausted
  | CauseTransportClosed
  | CauseHandshakeTimeout.

Inductive Event : Type :=
  | EvEstablished (link_id : N) (remote_fingerprint : bytes)
  | EvEntryStored (link_id : N) (entry_id : bytes)
  | EvDuplicateIgnored (link_id : N) (entry_id : bytes)
  | EvReconciled (link_id session_id : N) (have need : list bytes)
  | EvSyncSessionClosed (link_id session_id : N) (opened_by_us : bool)
  | EvClosed (link_id : N) (cause : CloseCause).

Inductive ApiError : Type :=
  | ApiStorage
  | InvalidIdentity
  | UnknownLink
  | ApiNotEstablished
  | ApiSyncRefused
  | InvalidArgument (reason : string)
  | Entropy.

Module LinkOpen.
Record t : Type := mk { link_id : N; initial_frames : list bytes }.
End LinkOpen.

Module LinkIo.
Record t : Type := mk { frames : list bytes; events : list Event }.
Definition default : t := mk [] [].
End LinkIo.

Module SyncStart.
Record t : Type := mk { session_id : N; io : LinkIo.t }.
End SyncStart.

Module EntryView.
Record t : Type := mk { id : bytes; author : bytes; sort_key_ms : N; kind : N; payload : bytes }.
End EntryView.

Module LinkStatus.
Record t : Type := mk { established : bool; remote_fingerprint : option bytes }.
End LinkStatus.

Definition close_cause (reason : CloseReason) : CloseCause :=
  match reason with
  | VersionIncompatible => CauseVersionIncompatible
  | HandshakeFailed => CauseHandshakeFailed
  | HandshakeTimeout => CauseHandshakeTimeout
  | BadCiphertextLength => CauseBadCiphertextLength
  | DecryptFailed => CauseDecryptFailed
  | ProtocolViolation code => CauseProtocolViolation code
  | PeerError code => CausePeerError code
  | LifetimeExpired => CauseLifetimeExpired
  | NonceExhausted => CauseNonceExhausted
  end.

Definition map_event (link_id : N) (event : LinkEvent) : Event :=
  match event with
  | Established remote => EvEstablished link_id remote
  | Sync (Stored id) => EvEntryStored link_id id
  | Sync (DuplicateIgnored id) => EvDuplicateIgnored link_id id
  | Sync (Reconciled sid have need) => EvReconciled link_id sid have need
  | Sync (SessionClosed sid opened_by_us) => EvSyncSessionClosed link_id sid opened_by_us
  | Closed reason => EvClosed link_id (close_cause reason)
  end.

Section Views.
Context {cbor : Cbor} {crypto : Crypto}.

Definition entry_view (e : Entry.t) : EntryView.t :=
  EntryView.mk (Entry.id e) (Entry.author e) (Entry.sort_key e) (Entry.kind e) (Entry.payload e).

Definition entries_in_window (store : EntryStore.t) (window : SyncWindow.t) : option (list EntryView.t) :=
  items ← EntryStore.snapshot store (SyncWindow.into window);
  Some (map entry_view (omap (fun item => EntryStore.get store (Item.id item)) items)).

(** [Keypair::generate] over the platform's answer. *)
Definition fresh_ephemeral (entropy : option bytes) : result ApiError Keypair.t :=
  match entropy with
  | Some bs => Ok (Keypair.from_secret_bytes bs)
  | None => Err Entropy
  end.

(** Two draws of 32 bytes. *)
Definition generate_identity (noise_entropy signing_entropy : option bytes) : result ApiError Identity.t :=
  noise_seed ← ok_or noise_entropy Entropy;
  signing_seed ← ok_or signing_entropy Entropy;
  mret (Identity.mk noise_seed signing_seed).

End Views.

(** ** api/node.rs *)

Module Link.
Record t : Type := mk { driver : LinkDriver.t; ticket : option N }.
End Link.

Module Node.

(** [NodeInner]. *)
Record t : Type := mk {
  noise_seed : bytes;
  signing_key : bytes;
  store : EntryStore.t;
  limiter : HandshakeLimiter.t;
  links : gmap N Link.t;
  next_link_id : N;
  last_now_us : N;
}.

Definition set_store (x : EntryStore.t) (n : t) : t :=
  mk (noise_seed n) (signing_key n) x (limiter n) (links n) (next_link_id n) (last_now_us n).
Definition set_limiter (x : HandshakeLimiter.t) (n : t) : t :=
  mk (noise_seed n) (signing_key n) (store n) x (links n) (next_link_id n) (last_now_us n).
Definition set_links (x : gmap N Link.t) (n : t) : t :=
  mk (noise_seed n) (signing_key n) (store n) (limiter n) x (next_link_id n) (last_now_us n).

Definition clamp_now (now_us : N) (n : t) : t * N :=
  let now := N.max (last_now_us n) now_us in
  (mk (noise_seed n) (signing_key n) (store n) (limiter n) (links n) (next_link_id n) now, now).

Definition retire (link_id : N) (n : t) : t :=
  match links n !! link_id with
  | None => n
  | Some link =>
      let n := set_links (delete link_id (links n)) n in
      match Link.ticket link with
      | Some ticket => set_limiter (HandshakeLimiter.closed (limiter n) ticket) n
      | None => n
      end
  end.

Definition settle_event (link_id : N) (n : t) (event : Event) : t :=
  match event with
  | EvEstablished _ _ =>
      match links n !! link_id with
      | Some (Link.mk driver (Some ticket)) =>
          set_limiter (HandshakeLimiter.established (limiter n) ticket)
            (set_links (<[link_id := Link.mk driver None]> (links n)) n)
      | _ => n
      end
  | EvClosed _ _ => retire link_id n
  | _ => n
  end.

Definition settle (link_id : N) (events : list Event) (n : t) : t := foldl (settle_event link_id) n events.

(** Open a link under the next id. *)
Definition add_link (driver : LinkDriver.t) (ticket : option N) (n : t) : t * N :=
  let link_id := next_link_id n in
  (mk (noise_seed n) (signing_key n) (store n) (limiter n) (<[link_id := Link.mk driver ticket]> (links n))
      (link_id + 1) (last_now_us n), link_id).

Section Ops.
Context {cbor : Cbor} {crypto : Crypto}.

Definition static_keys (seed : bytes) : Keypair.t := Keypair.from_secret_bytes seed.

Definition new (identity : Identity.t) : result ApiError t :=
  if decide (length (Identity.noise_seed identity) <> 32%nat) then Err InvalidIdentity
  else if decide (length (Identity.signing_seed identity) <> 32%nat) then Err InvalidIdentity
  else
    Ok (mk (Identity.noise_seed identity) (Identity.signing_seed identity) EntryStore.new
           (HandshakeLimiter.new LimiterConfig.default) ∅ 0 0).

(** [file] is what the path held. *)
Definition open (identity : Identity.t) (file : bytes) : result ApiError t :=
  n ← new identity;
  store ← map_err (fun _ => ApiStorage) (EntryStore.open file);
  mret (set_store store n).

Definition author_key (n : t) : bytes := ed_verifying_key (signing_key n).
Definition fingerprint (n : t) : bytes := Keypair.fingerprint_of (Keypair.public (static_keys (noise_seed n))).

Definition connect (entropy : option bytes) (now_us : N) (n : t) : t * result ApiError LinkOpen.t :=
  match fresh_ephemeral entropy with
  | Err e => (n, Err e)
  | Panic => (n, Panic)
  | Ok ephemeral =>
      let '(n, now) := clamp_now now_us n in
      let driver := LinkDriver.new Session.Initiator (static_keys (noise_seed n)) ephemeral LinkDriverConfig.default now in
      match LinkDriver.start driver with
      | None => (n, Panic)
      | Some (driver, out) =>
          let '(n, link_id) := add_link driver None n in
          (n, Ok (LinkOpen.mk link_id (LinkOutput.frames out)))
      end
  end.

Definition accept (remote_addr : bytes) (entropy : option bytes) (now_us : N) (n : t)
  : t * result ApiError (option LinkOpen.t) :=
  match fresh_ephemeral entropy with
  | Err e => (n, Err e)
  | Panic => (n, Panic)
  | Ok ephemeral =>
      let '(n, now) := clamp_now now_us n in
      match HandshakeLimiter.admit_handshake (limiter n) remote_addr now with
      | (limiter, None) => (set_limiter limiter n, Ok None)
      | (limiter, Some ticket) =>
          let n := set_limiter limiter n in
          let driver := LinkDriver.new Session.Responder (static_keys (noise_seed n)) ephemeral LinkDriverConfig.default now in
          let '(n, link_id) := add_link driver (Some ticket) n in
          (n, Ok (Some (LinkOpen.mk link_id [])))
      end
  end.

(** The frames and mapped events of a driver call, settled. *)
Definition finish_call (link_id : N) (out : LinkOutput.t) (n : t) : t * LinkIo.t :=
  let io := LinkIo.mk (LinkOutput.frames out) (map (map_event link_id) (LinkOutput.events out)) in
  (settle link_id (LinkIo.events io) n, io).

(** Replace the driver of a live link. *)
Definition put_driver (link_id : N) (link : Link.t) (driver : LinkDriver.t) (n : t) : t :=
  set_links (<[link_id := Link.mk driver (Link.ticket link)]> (links n)) n.

Definition on_bytes (jio : nat -> nat -> io_outcome) (link_id : N) (bs : bytes) (now_us : N) (n : t)
  : t * result ApiError LinkIo.t :=
  let '(n, now) := clamp_now now_us n in
  match links n !! link_id with
  | None => (n, Ok LinkIo.default)
  | Some link =>
      match LinkDriver.on_bytes (store n) jio bs now (Link.driver link) with
      | None => (n, Panic)
      | Some ((driver, out), store) =>
          let '(n, io) := finish_call link_id out (set_store store (put_driver link_id link driver n)) in
          (n, Ok io)
      end
  end.

Definition on_transport_closed (link_id now_us : N) (n : t) : t * list Event :=
  let '(n, _) := clamp_now now_us n in
  match links n !! link_id with
  | None => (n, [])
  | Some _ => (retire link_id n, [EvClosed link_id CauseTransportClosed])
  end.

(** One link of [tick]'s first loop. *)
Definition tick_link (now : N) (a : t * list Event) (link_id : N) : t * list Event :=
  let '(n, events) := a in
  match links n !! link_id with
  | None => (n, events)
  | Some link =>
      let '(driver, out) := LinkDriver.on_tick now (Link.driver link) in
      let '(n, io) := finish_call link_id out (put_driver link_id link driver n) in
      (n, events ++ LinkIo.events io)
  end.

(** One expired ticket of [tick]'s second loop. *)
Definition tick_ticket (a : t * list Event) (ticket : N) : t * list Event :=
  let '(n, events) := a in
  match List.find (fun p => bool_decide (Link.ticket p.2 = Some ticket)) (map_to_list (links n)) with
  | None => (n, events)
  | Some (link_id, _) =>
      (set_links (delete link_id (links n)) n, events ++ [EvClosed link_id CauseHandshakeTimeout])
  end.

Definition tick (now_us : N) (n : t) : t * list Event :=
  let '(n, now) := clamp_now now_us n in
  let link_ids := map fst (map_to_list (links n)) in
  let '(n, events) := foldl (tick_link now) (n, []) link_ids in
  let '(limiter, expired) := HandshakeLimiter.expire (limiter n) now in
  foldl tick_ticket (set_limiter limiter n, events) expired.

Definition link_status (link_id : N) (n : t) : option LinkStatus.t :=
  link ← links n !! link_id;
  Some (LinkStatus.mk (LinkDriver.is_established (Link.driver link)) (LinkDriver.remote_fingerprint (Link.driver link))).

Definition start_sync (link_id : N) (window : SyncWindow.t) (n : t) : t * result ApiError SyncStart.t :=
  match links n !! link_id with
  | None => (n, Err UnknownLink)
  | Some link =>
      match LinkDriver.open_sync (store n) (SyncWindow.into window) (Link.driver link) with
      | (driver, Err NotEstablished) => (put_driver link_id link driver n, Err ApiNotEstablished)
      | (driver, Err _) => (put_driver link_id link driver n, Err ApiSyncRefused)
      | (driver, Panic) => (put_driver link_id link driver n, Panic)
      | (driver, Ok (session_id, out)) =>
          let '(n, io) := finish_call link_id out (put_driver link_id link driver n) in
          (n, Ok (SyncStart.mk session_id io))
      end
  end.

Definition create_entry (jio : io_outcome) (kind : N) (payload : bytes) (sort_key_ms : N) (n : t)
  : t * result ApiError EntryView.t :=
  let entry := Entry.sign (signing_key n) sort_key_ms kind payload in
  match encode_frame (MGossipPush (GossipPush.mk [entry] 0)) with
  | Err _ => (n, Err (InvalidArgument "payload too large to frame"))
  | Panic => (n, Panic)
  | Ok _ =>
      let view := entry_view entry in
      let '(store, r) := EntryStore.insert (store n) entry jio in
      (set_store store n,
       match r with
       | Ok _ => Ok view
       | Err (StoreError.Storage _) | Err StoreError.Capacity => Err ApiStorage
       | Err StoreError.SortKeyReserved => Err (InvalidArgument "sort key 2^64 - 1 is reserved")
       | Err StoreError.BadSignature => Err (InvalidArgument "entry failed self-verification")
       | Panic => Panic
       end)
  end.

Definition entries (window : SyncWindow.t) (n : t) : option (list EntryView.t) := entries_in_window (store n) window.

Definition entry_count (n : t) : N := EntryStore.len (store n).

End Ops.
End Node.
