(* ===== verification/NodeSpec.v ===== *)
(** * What the node guarantees

    The invariant of the shared state, kept by every exported call; link
    closes reported exactly once; the bound on half-open links; the outcomes
    of authoring an entry and of listing the entries. *)
From S2P Require Import Prelude Errors Crypto Cbor CborRef Entry Msg Frame Item Store StoreSpec JournalSpec Session SessionSpec Limiter Noise NoiseSpec Driver DriverSpec Node.
Open Scope N_scope.

Section Spec.
Context {cbor : Cbor} {crypto : Crypto}.

(** ** The driver calls of a node *)

(** A live driver, between calls. *)
Record driver_live (d : LinkDriver.t) : Prop := {
  dl_wf : driver_wf d;
  dl_open : LinkDriver.is_closed d = false;
  dl_pending : pending_len d <= 65536 }.

(** What the node relies on when a driver call gave [d'] and [out]. *)
Record call_ok (d d' : LinkDriver.t) (out : LinkOutput.t) : Prop := {
  co_wf : driver_wf d';
  co_tidy : tidy (d', out);
  co_evolves : evolves (d, LinkOutput.default) (d', out) }.

Lemma on_bytes_call d store io bs now : driver_live d -> StoreSpec.wf store ->
  stored store + lenN bs + 65536 < u32_max ->
  total (LinkDriver.on_bytes store io bs now d) (fun '((d', out), store') =>
    call_ok d d' out /\ grown store store' (65536 + lenN bs)).
Proof.
  intros [Hw Hc Hp] Hwf Hroom.
  eapply total_mono; [apply (on_bytes_spec d store io bs now Hw Hwf); lia|].
  rewrite Hc. intros [[d' out] store'] (Hw' & (Hg1 & Hg2 & Hg3) & [Ht He] & _).
  split; [done|]. split_and!; [done|done|lia].
Qed.

Lemma on_tick_call d now : driver_live d ->
  let '(d', out) := LinkDriver.on_tick now d in call_ok d d' out /\ LinkOutput.frames out = [].
Proof.
  intros [Hw Hc Hp]. unfold LinkDriver.on_tick. pose proof (check_timeouts_J now d Hw Hc) as HJ.
  pose proof (check_timeouts_evolves now d) as He. unfold LinkDriver.check_timeouts in *. rewrite Hc in *.
  destruct (_ && _); [|destruct (_ <=? _)]; cbn [fst] in *; destruct HJ as (HJ & _);
    (split; [|done]); (split; [exact (J_wf _ HJ)|apply HJ|]); try by apply He.
  split; [done|by left|done].
Qed.

Lemma live_wf d : driver_live d -> base d.
Proof. intros [[] _ _]. done. Qed.

Lemma live_transport d : driver_live d -> LinkDriver.is_established d = true ->
  exists tr, LinkDriver.state d = Transport tr /\ is_Some (LinkDriver.remote_fingerprint d).
Proof.
  intros [[_ Hs] _ _] He. unfold LinkDriver.is_established in He.
  destruct (LinkDriver.state d) as [| |tr|]; try done. by exists tr.
Qed.

Lemma open_sync_call d store w : driver_live d -> StoreSpec.wf store ->
  Syncer.next_sid (LinkDriver.syncer d) + 2 <= u64_max ->
  match LinkDriver.open_sync store w d with
  | (d', Ok (_, out)) => call_ok d d' out /\ LinkDriver.is_established d = true
  | (d', Err _) => d' = d
  | (_, Panic) => False
  end.
Proof.
  intros Hl Hwf Hsid. unfold LinkDriver.open_sync. destruct (LinkDriver.is_established d) eqn:He; cbn [negb]; [|done].
  pose proof (open_session_sat (LinkDriver.syncer d) store w Hwf (b_sync d (live_wf d Hl)) Hsid) as Hs.
  destruct (Syncer.open_session _ store w) as [[[s' sid] msg]|e|]; [|done|done].
  destruct Hs as (Hi & _). destruct (live_transport d Hl He) as (tr & Hst & Hf).
  set (a := (LinkDriver.set_syncer s' d, LinkOutput.default)).
  assert (Hlive : live a).
  { split; [|split; [constructor|split; [exact Hf|apply Hl]]]. split; [exact Hi|apply (live_wf d Hl)]. }
  pose proof (queue_encrypted_J msg a Hlive) as HJ. cbn [a fst LinkDriver.set_syncer LinkDriver.state] in HJ.
  rewrite Hst in HJ. specialize (HJ I). pose proof (keeps_encrypted a msg a eq_refl) as Hk.
  fold a. destruct (LinkDriver.queue_encrypted msg a) as [[d' out]|]; [|done]. destruct HJ as [HJ _].
  split; [|done]. split; [exact (J_wf _ HJ)|apply HJ|].
  unfold keeps, marks, fixed in Hk. injection Hk as Hd Hcf Hr Ho Hfp Hev. cbn in Hd, Hcf, Hr, Ho, Hfp, Hev.
  split; [unfold settings; cbn; congruence|left; unfold report; cbn; congruence|].
  intros _. unfold pending_len. cbn [fst]. rewrite Hd. apply Hl.
Qed.

Lemma new_call role sk ek now : keys_ok (Some (sk, ek)) ->
  driver_live (LinkDriver.new role sk ek LinkDriverConfig.default now).
Proof.
  intros Hk. split; [|done|by apply N.leb_le]. apply new_wf; [done|]. by apply hello_encodes.
Qed.

Lemma start_call d : driver_live d -> LinkDriver.is_established d = false ->
  total (LinkDriver.start d) (fun '(d', out) => driver_live d' /\ LinkDriver.role d' = LinkDriver.role d /\
    LinkDriver.is_established d' = false).
Proof.
  intros Hl He. pose proof Hl as [[Hb Hst] Hc Hp]. unfold LinkDriver.start.
  assert (Hstay : total (Some (d, LinkOutput.default)) (fun '(d', out) => driver_live d' /\
    LinkDriver.role d' = LinkDriver.role d /\ LinkDriver.is_established d' = false)) by done.
  destruct (LinkDriver.role d) eqn:Er; [|done]. destruct (LinkDriver.state d) eqn:Es; try done.
  pose proof (keeps_hello (d, LinkOutput.default) (d, LinkOutput.default) eq_refl) as Hk.
  pose proof (queue_hello_spec (d, LinkOutput.default) Hb) as Hq.
  destruct (LinkDriver.queue_hello _) as [[d' out]|]; [|done].
  unfold keeps, marks, fixed in Hk. injection Hk as Hd _ _ _ _ _. cbn in Hd.
  destruct Hq as (Hb' & _ & Hks & Hs' & Hr' & Hf'). cbn in Hks, Hs', Hr', Hf'. rewrite Es in Hs'.
  split; [|unfold LinkDriver.is_established; rewrite Hs'; split; [congruence|done]].
  split; [split; [done|]|unfold LinkDriver.is_closed; by rewrite Hs'|unfold pending_len; by rewrite Hd].
  rewrite Hs'. destruct Hst as [? ?]. split; congruence.
Qed.

(** ** The invariant *)

(** Link [id] holds the limiter ticket [ticket]. *)
Definition holds (n : Node.t) (id ticket : N) : Prop :=
  exists link, Node.links n !! id = Some link /\ Link.ticket link = Some ticket.

(** A link holds a ticket exactly while it is an inbound handshake. *)
Definition inbound (d : LinkDriver.t) : Prop :=
  LinkDriver.role d = Session.Responder /\ LinkDriver.is_established d = false.

Record link_ok (link : Link.t) : Prop := {
  lk_live : driver_live (Link.driver link);
  lk_ticket : is_Some (Link.ticket link) <-> inbound (Link.driver link) }.

(** [pend]: expired tickets whose links are still to be removed. *)
Record inv_with (pend : list N) (n : Node.t) : Prop := {
  ni_store : StoreSpec.wf (Node.store n);
  ni_config : HandshakeLimiter.config (Node.limiter n) = LimiterConfig.default;
  ni_limiter : limiter_inv (Node.limiter n);
  ni_clock : before (Node.limiter n) (Node.last_now_us n);
  ni_links id link : Node.links n !! id = Some link -> link_ok link /\ id < Node.next_link_id n;
  ni_held t : (exists id, holds n id t) <-> is_Some (HandshakeLimiter.half_open (Node.limiter n) !! t) \/ t ∈ pend;
  ni_pend t : t ∈ pend -> HandshakeLimiter.half_open (Node.limiter n) !! t = None;
  ni_unique id1 id2 t : holds n id1 t -> holds n id2 t -> id1 = id2 }.

Definition node_inv : Node.t -> Prop := inv_with [].

Definition drop_ticket (o : option N) (l : HandshakeLimiter.t) : HandshakeLimiter.t :=
  match o with Some ticket => HandshakeLimiter.closed l ticket | None => l end.

Lemma drop_lookup o l t d : HandshakeLimiter.half_open (drop_ticket o l) !! t = Some d <->
  HandshakeLimiter.half_open l !! t = Some d /\ o <> Some t.
Proof.
  destruct o as [t0|]; cbn; [|naive_solver]. rewrite lookup_delete_Some. naive_solver.
Qed.

Lemma drop_inv o l now : limiter_inv l -> before l now ->
  limiter_inv (drop_ticket o l) /\ before (drop_ticket o l) now /\
  HandshakeLimiter.config (drop_ticket o l) = HandshakeLimiter.config l.
Proof.
  intros Hi Hb. destruct o as [t|]; [|done]. split_and!; [|done|done]. apply (forget_inv l _ Hi), delete_subseteq.
Qed.

(** The state after a link was replaced by [o], its ticket released unless
    [o] still holds it. *)
Definition relinked (n : Node.t) (id : N) (link : Link.t) (o : option Link.t) : Node.t :=
  Node.set_limiter
    (match o ≫= Link.ticket with Some _ => Node.limiter n | None => drop_ticket (Link.ticket link) (Node.limiter n) end)
    (Node.set_links (partial_alter (fun _ => o) id (Node.links n)) n).

Lemma relinked_holds n id link o id' t : holds (relinked n id link o) id' t <->
  (id' <> id /\ holds n id' t) \/ (id' = id /\ o ≫= Link.ticket = Some t).
Proof.
  unfold holds, relinked. cbn [Node.links Node.set_limiter Node.set_links]. destruct (decide (id' = id)) as [->|Hne].
  - rewrite lookup_partial_alter_eq. split.
    + intros (l & -> & H). by right.
    + intros [[? _]|[_ H]]; [done|]. destruct o as [l|]; [|done]. by exists l.
  - rewrite lookup_partial_alter_ne by done. split; [by left|]. intros [[_ H]|[? _]]; [done|done].
Qed.

Lemma relinked_lookup n id link o t d :
  o ≫= Link.ticket = Link.ticket link \/ o ≫= Link.ticket = None ->
  HandshakeLimiter.half_open (Node.limiter (relinked n id link o)) !! t = Some d <->
  HandshakeLimiter.half_open (Node.limiter n) !! t = Some d /\
  (Link.ticket link = Some t -> o ≫= Link.ticket = Some t).
Proof.
  unfold relinked. cbn [Node.limiter Node.set_limiter]. intros [->| ->].
  - destruct (Link.ticket link); cbn; naive_solver.
  - rewrite drop_lookup. naive_solver.
Qed.

Lemma relinked_inv n id link o : node_inv n -> Node.links n !! id = Some link ->
  match o with Some l' => link_ok l' /\ (Link.ticket l' = Link.ticket link \/ Link.ticket l' = None) | None => True end ->
  node_inv (relinked n id link o).
Proof.
  intros Hn Hlk Ho.
  assert (Hk : o ≫= Link.ticket = Link.ticket link \/ o ≫= Link.ticket = None) by (destruct o; cbn; naive_solver).
  assert (Hlim : limiter_inv (Node.limiter (relinked n id link o)) /\
      before (Node.limiter (relinked n id link o)) (Node.last_now_us n) /\
      HandshakeLimiter.config (Node.limiter (relinked n id link o)) = HandshakeLimiter.config (Node.limiter n)).
  { unfold relinked. cbn. destruct (o ≫= Link.ticket); [split_and!; [apply Hn|apply Hn|done]|].
    apply drop_inv; apply Hn. }
  assert (Hhalf := fun t d => relinked_lookup n id link o t d Hk). pose proof (relinked_holds n id link o) as Hh.
  pose proof (ni_unique _ _ Hn) as Hu. destruct Hlim as (Hi & Hb & Hc). split; [apply Hn| |done|done| | | |].
  - rewrite Hc. apply Hn.
  - intros id' l'. cbn. intros E. destruct (decide (id' = id)) as [->|Hne].
    + rewrite lookup_partial_alter_eq in E. subst o. split; [apply Ho|]. by eapply Hn.
    + rewrite lookup_partial_alter_ne in E by done. by apply Hn.
  - intros t. pose proof (ni_held _ _ Hn t) as Hheld. split.
    + intros [id' [[Hne Ht]|[-> Ht]]%Hh]; left.
      * destruct (proj1 Hheld) as [[d Hd]|[]%not_elem_of_nil]; [by exists id'|]. exists d. apply Hhalf. split; [done|].
        intros E. destruct Hne. apply (Hu id' id t); [done|by exists link].
      * destruct Hk as [Hk|Hk]; [|congruence].
        destruct (proj1 Hheld) as [[d Hd]|[]%not_elem_of_nil]; [exists id, link; split; congruence|].
        exists d. by apply Hhalf.
    + intros [[d [Hd E]%Hhalf]|[]%not_elem_of_nil].
      destruct (proj2 Hheld) as [id' Ht]; [left; by exists d|]. exists id'. apply Hh.
      destruct (decide (id' = id)) as [->|]; [right|by left]. split; [done|]. apply E.
      destruct Ht as (l' & E1 & E2). congruence.
  - intros t []%not_elem_of_nil.
  - intros id1 id2 t [[H1 T1]|[-> T1]]%Hh [[H2 T2]|[-> T2]]%Hh; [by eapply Hu| | |done].
    + destruct Hk as [Hk|Hk]; [|congruence]. apply (Hu id1 id t); [done|]. exists link. split; congruence.
    + destruct Hk as [Hk|Hk]; [|congruence]. symmetry. apply (Hu id2 id t); [done|]. exists link. split; congruence.
Qed.

(** ** Settling the events of a driver call *)

(** The links an event list reports closed. *)
Definition closes (es : list Event) : list N :=
  omap (fun e => match e with EvClosed id _ => Some id | _ => None end) es.

Definition after (link : Link.t) (es : list LinkEvent) : Link.t :=
  Link.mk (Link.driver link) (match established es with [] => Link.ticket link | _ => None end).

Lemma relinked_same n id link : Node.links n !! id = Some link -> relinked n id link (Some link) = n.
Proof.
  intros H. unfold relinked. cbn. change (partial_alter _ id (Node.links n)) with (<[id:=link]> (Node.links n)).
  rewrite insert_id by done. by destruct n, (Link.ticket link).
Qed.

Lemma relinked_twice n id link l1 o : Link.ticket l1 = Link.ticket link \/ Link.ticket l1 = None ->
  (o ≫= Link.ticket = Link.ticket l1 \/ o ≫= Link.ticket = None) ->
  relinked (relinked n id link (Some l1)) id l1 o = relinked n id link o.
Proof.
  intros H1 Ho. unfold relinked, Node.set_limiter, Node.set_links. cbn. f_equal.
  - destruct H1 as [E1|E1], Ho as [E|E]; rewrite ?E, ?E1 in *; try done; destruct (Link.ticket link); cbn; rewrite ?E; done.
  - apply map_eq. intros i. destruct (decide (i = id)) as [->|?]; [by rewrite !lookup_partial_alter_eq|].
    by rewrite !lookup_partial_alter_ne.
Qed.

Lemma relinked_link n id link l1 : Node.links (relinked n id link (Some l1)) !! id = Some l1.
Proof. cbn. by rewrite lookup_partial_alter_eq. Qed.

Lemma settle_quiet id es n link : Node.links n !! id = Some link -> Forall not_closed es ->
  Node.settle id (map (map_event id) es) n = relinked n id link (Some (after link es)).
Proof.
  intros Hl Hes. revert n link Hl. induction Hes as [|e es He Hes IH]; intros n link Hl.
  { cbn. unfold after. destruct link. cbn. by rewrite relinked_same. }
  unfold Node.settle in *. cbn [map foldl]. destruct e as [r|se|r]; [|by destruct se; apply IH|done].
  set (l1 := Link.mk (Link.driver link) None).
  assert (E : Node.settle_event id n (map_event id (Established r)) = relinked n id link (Some l1)).
  { cbn. rewrite Hl. destruct link as [d [t|]]; [done|]. by rewrite relinked_same. }
  rewrite E, (IH _ l1) by apply relinked_link. unfold after at 1. cbn [Link.ticket l1].
  rewrite relinked_twice; [|by right|left; by destruct (established es)].
  unfold after. cbn. by destruct (established es).
Qed.

Lemma retire_relinked n id link : Node.links n !! id = Some link -> Node.retire id n = relinked n id link None.
Proof. intros H. unfold Node.retire. rewrite H. by destruct link as [d [t|]]. Qed.

Lemma settle_tidy id d out n link : Node.links n !! id = Some link -> tidy (d, out) ->
  Node.settle id (map (map_event id) (LinkOutput.events out)) n =
    relinked n id link (if LinkDriver.is_closed d then None else Some (after link (LinkOutput.events out))) /\
  closes (map (map_event id) (LinkOutput.events out)) = (if LinkDriver.is_closed d then [id] else []).
Proof.
  intros Hl. unfold tidy. cbn [fst snd].
  assert (Hc : forall es, Forall not_closed es -> closes (map (map_event id) es) = []).
  { intros es H. induction H as [|[r|se|r] es H _ IH]; [done|done|by destruct se|done]. }
  replace (LinkDriver.is_closed d) with (bool_decide (is_Some (LinkDriver.close_reason d)))
    by (unfold LinkDriver.is_closed, LinkDriver.close_reason; by destruct (LinkDriver.state d)).
  destruct (LinkDriver.close_reason d) as [r|]; cbn.
  - intros [(es & -> & Hes) _]. rewrite map_app. unfold Node.settle. rewrite foldl_app.
    pose proof (settle_quiet id es n link Hl Hes) as E. unfold Node.settle in E. rewrite E. cbn [map foldl].
    unfold Node.settle_event, map_event. rewrite (retire_relinked _ _ (after link es)) by apply relinked_link.
    split; [apply relinked_twice; [unfold after; destruct (established es); auto|by right]|].
    unfold closes in *. rewrite omap_app, Hc by done. done.
  - intros Hes. split; [by apply settle_quiet|by apply Hc].
Qed.

(** The state of the node after a driver call. *)
Definition called (n : Node.t) (id : N) (link : Link.t) (d : LinkDriver.t) (out : LinkOutput.t) : Node.t :=
  relinked n id link
    (if LinkDriver.is_closed d then None else Some (after (Link.mk d (Link.ticket link)) (LinkOutput.events out))).

Lemma finish_call_spec n id link d out : Node.links n !! id = Some link -> tidy (d, out) ->
  let '(n', io) := Node.finish_call id out (Node.put_driver id link d n) in
  n' = called n id link d out /\ LinkIo.frames io = LinkOutput.frames out /\
  closes (LinkIo.events io) = (if LinkDriver.is_closed d then [id] else []).
Proof.
  intros Hl Ht. unfold Node.finish_call, called. cbn [LinkIo.events LinkIo.frames].
  set (l1 := Link.mk d (Link.ticket link)).
  assert (E : Node.put_driver id link d n = relinked n id link (Some l1)).
  { unfold relinked, Node.put_driver, l1. cbn [mbind option_bind Link.ticket]. by destruct (Link.ticket link). }
  destruct (settle_tidy id d out (Node.put_driver id link d n) l1) as [E1 E2];
    [by rewrite E, relinked_link|done|].
  rewrite E1, E2. split_and!; [|done|done]. rewrite E. apply relinked_twice; [by left|].
  destruct (LinkDriver.is_closed d); [by right|]. unfold after. cbn. destruct (established _); auto.
Qed.

(** An open driver has a fingerprint exactly when it is established. *)
Lemma wf_established d : driver_wf d -> LinkDriver.is_closed d = false ->
  LinkDriver.is_established d = true <-> is_Some (LinkDriver.remote_fingerprint d).
Proof.
  intros [_ Hs] Hc. unfold LinkDriver.is_established, LinkDriver.is_closed in *.
  destruct (LinkDriver.state d); try done; destruct Hs as [_ ->]; split; [done|by intros []|done|by intros []].
Qed.

Lemma called_ok link d out : link_ok link -> call_ok (Link.driver link) d out ->
  LinkDriver.is_closed d = false -> link_ok (after (Link.mk d (Link.ticket link)) (LinkOutput.events out)).
Proof.
  intros [Hlive Ht] [Hw _ [Hse Hre Hp]] Hc. unfold after. cbn [Link.driver].
  pose proof (wf_established _ (dl_wf _ Hlive) (dl_open _ Hlive)) as H0. pose proof (wf_established d Hw Hc) as H1.
  split; [split; [exact Hw|exact Hc|exact (Hp Hc)]|]. cbn [Link.ticket Link.driver]. unfold inbound in *.
  unfold settings in Hse. cbn in Hse. injection Hse as _ Hr _. rewrite Hr.
  unfold reports, report in Hre. cbn in Hre. destruct Hre as [[= Hf He]|(He0 & r & [= Hf He])]; rewrite He.
  - assert (E : LinkDriver.is_established d = LinkDriver.is_established (Link.driver link)).
    { apply eq_true_iff_eq. by rewrite H0, H1, Hf. }
    by rewrite Ht, E.
  - assert (LinkDriver.is_established d = true) as -> by (apply H1; by eexists). naive_solver.
Qed.

Lemma called_inv n id link d out : node_inv n -> Node.links n !! id = Some link ->
  call_ok (Link.driver link) d out -> node_inv (called n id link d out).
Proof.
  intros Hn Hl Hc. apply relinked_inv; [done|done|]. destruct (LinkDriver.is_closed d) eqn:E; [done|].
  split; [apply called_ok; [by eapply Hn|done|done]|]. unfold after. cbn. destruct (established _); auto.
Qed.

(** ** One call *)

(** The exported calls that change the node, with what the platform and the
    peer put in. *)
Inductive call : Type :=
  | Connect (entropy : option bytes) (now_us : N)
  | Accept (remote_addr : bytes) (entropy : option bytes) (now_us : N)
  | OnBytes (jio : nat -> nat -> io_outcome) (link_id : N) (bs : bytes) (now_us : N)
  | OnTransportClosed (link_id now_us : N)
  | Tick (now_us : N)
  | StartSync (link_id : N) (window : SyncWindow.t)
  | CreateEntry (jio : io_outcome) (kind : N) (payload : bytes) (sort_key_ms : N).

(** The node after a call and the events the call returned; [None] is an
    abort. *)
Definition run (c : call) (n : Node.t) : option (Node.t * list Event) :=
  match c with
  | Connect entropy now =>
      match Node.connect entropy now n with (_, Panic) => None | (n', _) => Some (n', []) end
  | Accept addr entropy now =>
      match Node.accept addr entropy now n with (_, Panic) => None | (n', _) => Some (n', []) end
  | OnBytes jio id bs now =>
      match Node.on_bytes jio id bs now n with
      | (n', Ok io) => Some (n', LinkIo.events io)
      | (n', Err _) => Some (n', [])
      | (_, Panic) => None
      end
  | OnTransportClosed id now => Some (Node.on_transport_closed id now n)
  | Tick now => Some (Node.tick now n)
  | StartSync id w =>
      match Node.start_sync id w n with
      | (n', Ok start) => Some (n', LinkIo.events (SyncStart.io start))
      | (n', Err _) => Some (n', [])
      | (_, Panic) => None
      end
  | CreateEntry jio kind payload key =>
      match Node.create_entry jio kind payload key n with (_, Panic) => None | (n', _) => Some (n', []) end
  end.

(** The arguments fit their machine integers, the store its 32-bit count and
    the session ids their 64 bits. *)
Definition fits (n : Node.t) (c : call) : Prop :=
  match c with
  | OnBytes _ _ bs _ => stored (Node.store n) + lenN bs + 65536 < u32_max
  | StartSync id _ => forall link, Node.links n !! id = Some link ->
      Syncer.next_sid (LinkDriver.syncer (Link.driver link)) + 2 <= u64_max
  | CreateEntry _ kind payload key =>
      kind <= u64_max /\ key <= u64_max /\ lenN payload <= u64_max /\ stored (Node.store n) < u32_max
  | _ => True
  end.

(** What every call does to a node: the invariant holds, the clock and the
    entries only grow, links get fresh ids, and the closes reported are the
    links that are gone. *)
Record moves (n : Node.t) (es : list Event) (n' : Node.t) : Prop := {
  mv_inv : node_inv n';
  mv_clock : Node.last_now_us n <= Node.last_now_us n';
  mv_store : EntryStore.entries (Node.store n) ⊆ EntryStore.entries (Node.store n');
  mv_next : Node.next_link_id n <= Node.next_link_id n';
  mv_once : NoDup (closes es);
  mv_closes id : id ∈ closes es <-> is_Some (Node.links n !! id) /\ Node.links n' !! id = None;
  mv_opened id : Node.next_link_id n <= id < Node.next_link_id n' -> is_Some (Node.links n' !! id);
  mv_kept id : is_Some (Node.links n' !! id) -> id < Node.next_link_id n -> is_Some (Node.links n !! id) }.

Lemma live_next n id : node_inv n -> is_Some (Node.links n !! id) -> id < Node.next_link_id n.
Proof. intros Hn [l H]. by eapply Hn. Qed.

(** Steps that open no link. *)
Record narrows (n : Node.t) (es : list Event) (n' : Node.t) : Prop := {
  nr_clock : Node.last_now_us n <= Node.last_now_us n';
  nr_store : EntryStore.entries (Node.store n) ⊆ EntryStore.entries (Node.store n');
  nr_next : Node.next_link_id n' = Node.next_link_id n;
  nr_once : NoDup (closes es);
  nr_closes id : id ∈ closes es <-> is_Some (Node.links n !! id) /\ Node.links n' !! id = None;
  nr_kept id : is_Some (Node.links n' !! id) -> is_Some (Node.links n !! id) }.

Lemma narrows_moves n es n' : node_inv n' -> narrows n es n' -> moves n es n'.
Proof. intros Hn []. split; try done; [lia|intros; lia|auto]. Qed.

Lemma closes_app es es' : closes (es ++ es') = closes es ++ closes es'.
Proof. apply omap_app. Qed.

Lemma narrows_trans n es1 n1 es2 n2 : narrows n es1 n1 -> narrows n1 es2 n2 -> narrows n (es1 ++ es2) n2.
Proof.
  intros [C1 S1 X1 O1 L1 K1] [C2 S2 X2 O2 L2 K2]. split; [lia|by etrans|congruence| | |auto].
  - rewrite closes_app. apply NoDup_app. split_and!; [done| |done]. intros id [_ Hn]%L1 [[l Hl] _]%L2. congruence.
  - intros id. rewrite closes_app, elem_of_app, L1, L2. split.
    + intros [[H1 H2]|[H1 H2]]; [|by auto]. split; [done|].
      destruct (Node.links n2 !! id) as [l|] eqn:E; [|done]. destruct (K2 id) as [l1 Hl1]; [by exists l|congruence].
    + intros [H1 H2]. destruct (Node.links n1 !! id) as [l|] eqn:E; [right|left]; (split; [|done]); [by eexists|done].
Qed.

Lemma narrows_refl n : narrows n [] n.
Proof. split; try done; [constructor|]. intros id. cbn. split; [by intros ?%not_elem_of_nil|intros [[? H] E]; congruence]. Qed.

Lemma clamp_inv n now pend : inv_with pend n -> inv_with pend (Node.clamp_now now n).1.
Proof.
  intros []. split; try done. cbn. eapply before_later; [done|lia].
Qed.

Lemma set_store_inv n st : node_inv n -> StoreSpec.wf st -> node_inv (Node.set_store st n).
Proof. intros [] ?. by split. Qed.

Lemma relinked_narrows n id link o : Node.links n !! id = Some link ->
  forall es, closes es = match o with None => [id] | Some _ => [] end -> narrows n es (relinked n id link o).
Proof.
  intros Hl es He. split; [done|done|done| | |].
  - rewrite He. destruct o; [constructor|apply NoDup_singleton].
  - intros i. rewrite He. cbn. destruct (decide (i = id)) as [->|Hne].
    + rewrite lookup_partial_alter_eq, Hl. destruct o as [l'|]; set_solver.
    + rewrite lookup_partial_alter_ne by done. split; [|intros [[l E] ?]; congruence].
      destruct o; set_solver.
  - intros i. cbn. destruct (decide (i = id)) as [->|Hne]; [by rewrite Hl|]. by rewrite lookup_partial_alter_ne.
Qed.

Lemma called_narrows n id link d out es : Node.links n !! id = Some link ->
  closes es = (if LinkDriver.is_closed d then [id] else []) -> narrows n es (called n id link d out).
Proof. intros Hl He. apply relinked_narrows; [done|]. by destruct (LinkDriver.is_closed d). Qed.

Lemma clamp_narrows n now : narrows n [] (Node.clamp_now now n).1.
Proof.
  split; try done; [cbn; lia|constructor|]. intros id. cbn. split; [by intros ?%not_elem_of_nil|].
  intros [[? H] E]; congruence.
Qed.

Lemma node_live n id link : node_inv n -> Node.links n !! id = Some link -> driver_live (Link.driver link).
Proof. intros Hn Hl. apply (ni_links _ _ Hn id link Hl). Qed.

(** A driver call on a live link. *)
Lemma finish_moves n id link d out : node_inv n -> Node.links n !! id = Some link ->
  call_ok (Link.driver link) d out ->
  let '(n', io) := Node.finish_call id out (Node.put_driver id link d n) in
  node_inv n' /\ narrows n (LinkIo.events io) n' /\ LinkIo.frames io = LinkOutput.frames out.
Proof.
  intros Hn Hl Hc. pose proof (finish_call_spec n id link d out Hl (co_tidy _ _ _ Hc)) as H.
  destruct (Node.finish_call _ _ _) as [n' io]. destruct H as (-> & Hf & He).
  split_and!; [by apply called_inv|by apply called_narrows|done].
Qed.

Lemma on_bytes_moves jio id bs now n : node_inv n -> fits n (OnBytes jio id bs now) ->
  total (run (OnBytes jio id bs now) n) (fun '(n', es) => moves n es n').
Proof.
  intros Hn Hf. cbn [run fits] in *. unfold Node.on_bytes.
  pose proof (clamp_inv n now [] Hn) as Hn1. pose proof (clamp_narrows n now) as Hc.
  destruct (Node.clamp_now now n) as [n1 now'] eqn:E. cbn [fst] in *.
  assert (Hst : Node.store n1 = Node.store n) by (by injection E as <- _).
  destruct (Node.links n1 !! id) as [link|] eqn:El; [|by apply narrows_moves].
  pose proof (on_bytes_call (Link.driver link) (Node.store n1) jio bs now' (node_live n1 id link Hn1 El)
    (ni_store _ _ Hn1) ltac:(rewrite Hst; lia)) as Hb.
  destruct (LinkDriver.on_bytes _ jio bs now' _) as [[[d out] st]|]; [|done]. destruct Hb as [Hcall (Hwf & Hsub & _)].
  pose proof (finish_moves (Node.set_store st n1) id link d out (set_store_inv n1 st Hn1 Hwf) El Hcall) as Hm.
  change (Node.set_store st (Node.put_driver id link d n1)) with (Node.put_driver id link d (Node.set_store st n1)).
  destruct (Node.finish_call _ _ _) as [n' io]. destruct Hm as (Hi & Hm & _). cbn [total].
  apply narrows_moves; [done|]. apply (narrows_trans n [] n1); [done|]. destruct Hm. split; try done. by etrans.
Qed.

Lemma closed_moves id now n : node_inv n ->
  total (run (OnTransportClosed id now) n) (fun '(n', es) => moves n es n').
Proof.
  intros Hn. cbn [run]. unfold Node.on_transport_closed.
  pose proof (clamp_inv n now [] Hn) as Hn1. pose proof (clamp_narrows n now) as Hc.
  destruct (Node.clamp_now now n) as [n1 now'] eqn:E. cbn [fst] in *.
  destruct (Node.links n1 !! id) as [link|] eqn:El; [|by apply narrows_moves].
  rewrite (retire_relinked n1 id link El). cbn [total]. apply narrows_moves; [by apply relinked_inv|].
  apply (narrows_trans n [] n1); [done|]. by apply relinked_narrows.
Qed.

Lemma start_sync_moves id w n : node_inv n -> fits n (StartSync id w) ->
  total (run (StartSync id w) n) (fun '(n', es) => moves n es n').
Proof.
  intros Hn Hf. cbn [run fits] in *. unfold Node.start_sync.
  pose proof (narrows_moves n [] n Hn (narrows_refl n)) as Hsame.
  destruct (Node.links n !! id) as [link|] eqn:El; [|done].
  pose proof (open_sync_call (Link.driver link) (Node.store n) (SyncWindow.into w) (node_live n id link Hn El)
    (ni_store _ _ Hn) (Hf link eq_refl)) as Hcall.
  destruct (LinkDriver.open_sync _ _ _) as [d [[sid out]|e|]]; [| |done].
  - destruct Hcall as [Hcall _]. pose proof (finish_moves n id link d out Hn El Hcall) as Hm.
    destruct (Node.finish_call _ _ _) as [n' io]. cbn. by apply narrows_moves; apply Hm.
  - subst d. assert (E : Node.put_driver id link (Link.driver link) n = n).
    { unfold Node.put_driver, Node.set_links. rewrite insert_id by (by destruct link). by destruct n. }
    rewrite E. by destruct e.
Qed.

(** ** Opening links *)

Lemma next_unused n : node_inv n -> Node.links n !! Node.next_link_id n = None.
Proof.
  intros Hn. destruct (Node.links n !! Node.next_link_id n) as [l|] eqn:E; [|done].
  pose proof (live_next n _ Hn (ex_intro _ l E)). lia.
Qed.

(** The ticket [o] of the limiter [l'] for a new link. *)
Definition ticketed (n : Node.t) (o : option N) (l' : HandshakeLimiter.t) : Prop :=
  match o with
  | None => HandshakeLimiter.half_open l' = HandshakeLimiter.half_open (Node.limiter n)
  | Some t => HandshakeLimiter.half_open (Node.limiter n) !! t = None /\
      exists deadline, HandshakeLimiter.half_open l' = <[t := deadline]> (HandshakeLimiter.half_open (Node.limiter n))
  end.

Lemma ticketed_lookup n o l' t : ticketed n o l' -> is_Some (HandshakeLimiter.half_open l' !! t) <->
  is_Some (HandshakeLimiter.half_open (Node.limiter n) !! t) \/ o = Some t.
Proof.
  unfold ticketed. destruct o as [t0|]; [intros [Hn [dl ->]]|intros ->; naive_solver].
  destruct (decide (t0 = t)) as [->|Hne]; [rewrite lookup_insert_eq; naive_solver|].
  rewrite lookup_insert_ne by done. naive_solver.
Qed.

Lemma set_limiter_inv n l' : node_inv n -> HandshakeLimiter.config l' = HandshakeLimiter.config (Node.limiter n) ->
  limiter_inv l' -> before l' (Node.last_now_us n) -> ticketed n None l' -> node_inv (Node.set_limiter l' n).
Proof.
  intros Hn Hc Hi Hb Ht. split; try apply Hn; cbn; try done; [rewrite Hc; apply Hn| |by intros t ?%not_elem_of_nil].
  intros t. rewrite Ht. apply (ni_held _ _ Hn).
Qed.

Lemma add_link_inv n d o l' : node_inv n -> driver_live d -> (is_Some o <-> inbound d) ->
  HandshakeLimiter.config l' = HandshakeLimiter.config (Node.limiter n) ->
  limiter_inv l' -> before l' (Node.last_now_us n) -> ticketed n o l' ->
  node_inv (Node.add_link d o (Node.set_limiter l' n)).1.
Proof.
  intros Hn Hd Ho Hc Hi Hb Ht. pose proof (next_unused n Hn) as Hnone.
  assert (Hh : forall id t, holds (Node.add_link d o (Node.set_limiter l' n)).1 id t <->
      holds n id t \/ (id = Node.next_link_id n /\ o = Some t)).
  { intros id t. unfold holds. cbn. destruct (decide (id = Node.next_link_id n)) as [->|Hne].
    - rewrite lookup_insert_eq, Hnone. naive_solver.
    - rewrite lookup_insert_ne by done. naive_solver. }
  split; cbn; [apply Hn|rewrite Hc; apply Hn|done|done| | |by intros t ?%not_elem_of_nil|].
  - intros id l [[<- <-]|[_ E]]%lookup_insert_Some; [split; [done|lia]|].
    destruct (ni_links _ _ Hn id l E). split; [done|lia].
  - intros t. rewrite (ticketed_lookup n o l' t Ht). pose proof (ni_held _ _ Hn t) as Hheld.
    setoid_rewrite Hh. set_solver.
  - assert (Hnew : forall id t, holds n id t -> o <> Some t).
    { intros id t H ->. destruct Ht as [Hno _].
      destruct (proj1 (ni_held _ _ Hn t) (ex_intro _ id H)) as [[? E]|?%not_elem_of_nil]; congruence. }
    intros id1 id2 t [H1|[-> H1]]%Hh [H2|[-> H2]]%Hh; [by eapply Hn| | |done]; naive_solver.
Qed.

Lemma add_link_moves n0 n d o l' : narrows n0 [] n -> node_inv n ->
  node_inv (Node.add_link d o (Node.set_limiter l' n)).1 -> moves n0 [] (Node.add_link d o (Node.set_limiter l' n)).1.
Proof.
  intros [H1 H2 H3 H4 H5 H6] Hn Hi. pose proof (next_unused n Hn) as Hnone.
  split; cbn; [done|done|done|lia|constructor| | |].
  - intros id. split; [by intros ?%not_elem_of_nil|]. intros [Hl [Hne E]%lookup_insert_None].
    apply H5. by split.
  - intros id Hid. assert (id = Node.next_link_id n) as -> by lia. rewrite lookup_insert_eq. by eexists.
  - intros id Hl Hid. apply H6. rewrite lookup_insert_ne in Hl by lia. done.
Qed.

Lemma connect_moves entropy now n : node_inv n ->
  total (run (Connect entropy now) n) (fun '(n', es) => moves n es n').
Proof.
  intros Hn. cbn [run]. unfold Node.connect. destruct entropy as [seed|]; cbn [fresh_ephemeral];
    [|by apply narrows_moves, narrows_refl].
  pose proof (clamp_inv n now [] Hn) as Hn1. pose proof (clamp_narrows n now) as Hc.
  destruct (Node.clamp_now now n) as [n1 now'] eqn:E. cbn [fst] in *.
  set (d := LinkDriver.new _ _ _ _ _).
  assert (Hd : driver_live d) by (apply new_call; split; apply x25519_base_length).
  pose proof (start_call d Hd eq_refl) as Hs.
  destruct (LinkDriver.start d) as [[d' out]|]; [|done]. destruct Hs as (Hd' & Hr & He).
  pose proof (add_link_inv n1 d' None (Node.limiter n1) Hn1 Hd') as Ha.
  pose proof (add_link_moves n n1 d' None (Node.limiter n1) Hc Hn1) as Hm.
  replace (Node.set_limiter (Node.limiter n1) n1) with n1 in Ha, Hm by by destruct n1.
  destruct (Node.add_link d' None n1) as [n2 id]. cbn. apply Hm, Ha; try done; try apply Hn1.
  split; [by intros []|]. intros [Hr' _]. rewrite Hr in Hr'. done.
Qed.

Lemma accept_moves addr entropy now n : node_inv n ->
  total (run (Accept addr entropy now) n) (fun '(n', es) => moves n es n').
Proof.
  intros Hn. cbn [run]. unfold Node.accept. destruct entropy as [seed|]; cbn [fresh_ephemeral];
    [|by apply narrows_moves, narrows_refl].
  pose proof (clamp_inv n now [] Hn) as Hn1. pose proof (clamp_narrows n now) as Hc.
  destruct (Node.clamp_now now n) as [n1 now'] eqn:E. cbn [fst] in *.
  assert (Hnow : Node.last_now_us n1 = now') by (by injection E as <- <-).
  pose proof (admit_outcome (Node.limiter n1) addr now') as Hadm.
  rewrite (ni_config _ _ Hn1), <- Hnow in Hadm.
  specialize (Hadm default_wf (ni_limiter _ _ Hn1) (ni_clock _ _ Hn1)). rewrite Hnow in Hadm.
  destruct (HandshakeLimiter.admit_handshake _ addr now') as [l' [t|]]; destruct Hadm as (Hcf & Hi & Hb & Ho).
  - set (d := LinkDriver.new _ _ _ _ _).
    assert (Hd : driver_live d) by (apply new_call; split; apply x25519_base_length).
    destruct (Node.add_link d (Some t) (Node.set_limiter l' n1)) as [n2 id] eqn:Ea. cbn.
    change n2 with (n2, id).1. rewrite <- Ea. apply add_link_moves; [done|done|].
    apply add_link_inv; [done|done|by split|by rewrite (ni_config _ _ Hn1)|done|by rewrite Hnow|].
    destruct Ho as (_ & _ & Hnone & Hh & _). split; [done|]. by eexists.
  - cbn. apply narrows_moves; [|destruct Hc; by split].
    destruct Ho as (_ & Hh & _). apply set_limiter_inv; try done; [by rewrite (ni_config _ _ Hn1)|by rewrite Hnow].
Qed.

Lemma create_moves jio kind payload key n : node_inv n -> fits n (CreateEntry jio kind payload key) ->
  total (run (CreateEntry jio kind payload key) n) (fun '(n', es) => moves n es n').
Proof.
  intros Hn (Hk & Hs & Hp & Hroom). cbn [run]. unfold Node.create_entry.
  pose proof (narrows_moves n [] n Hn (narrows_refl n)) as Hsame.
  set (e := Entry.sign _ _ _ _). pose proof (encode_frame_no_panic (MGossipPush (GossipPush.mk [e] 0))) as Hnp.
  destruct (encode_frame _); [|done|done].
  assert (He : Entry.wf e) by by apply Entry.wf_sign.
  pose proof (insert_inserts (Node.store n) e jio (ni_store _ _ Hn) He Hroom) as Hi.
  destruct (EntryStore.insert (Node.store n) e jio) as [st r]. cbn [fst snd] in Hi.
  assert (Hm : StoreSpec.wf st -> EntryStore.entries (Node.store n) ⊆ EntryStore.entries st ->
    moves n [] (Node.set_store st n)).
  { intros Hwf Hsub. apply narrows_moves; [by apply set_store_inv|]. destruct (narrows_refl n). by split. }
  pose proof (inserts_wf _ _ _ _ _ (ni_store _ _ Hn) Hi) as Hwf.
  destruct Hi as [? | ? ? | ? ? | j err ? ? Hj | j o ? ? ? ? ?]; cbn; try (by apply Hm).
  - destruct err; cbn; try (by apply Hm); by apply Hm.
  - apply Hm; [done|]. cbn. by apply insert_subseteq.
Qed.

(** ** Time *)

Lemma tick_link_step n0 now a id : node_inv a.1 -> narrows n0 a.2 a.1 ->
  let a' := Node.tick_link now a id in node_inv a'.1 /\ narrows n0 a'.2 a'.1.
Proof.
  destruct a as [n es]. cbn [fst snd]. intros Hn Hr. unfold Node.tick_link.
  destruct (Node.links n !! id) as [link|] eqn:El; [|done].
  pose proof (on_tick_call (Link.driver link) now (node_live n id link Hn El)) as Hc.
  destruct (LinkDriver.on_tick now (Link.driver link)) as [d out]. destruct Hc as [Hc _].
  pose proof (finish_moves n id link d out Hn El Hc) as Hm.
  destruct (Node.finish_call _ _ _) as [n' io]. destruct Hm as (Hi & Hm & _). cbn. split; [done|].
  by eapply narrows_trans.
Qed.

Lemma tick_links n0 now ids a : node_inv a.1 -> narrows n0 a.2 a.1 ->
  let a' := foldl (Node.tick_link now) a ids in node_inv a'.1 /\ narrows n0 a'.2 a'.1.
Proof.
  revert a. induction ids as [|id ids IH]; intros a Hn Hr; [done|]. cbn [foldl].
  destruct (tick_link_step n0 now a id Hn Hr). by apply IH.
Qed.

(** Expiring moves tickets from the half-open set to the pending list. *)
Lemma expire_pending n now : node_inv n ->
  inv_with (HandshakeLimiter.expire (Node.limiter n) now).2
    (Node.set_limiter (HandshakeLimiter.expire (Node.limiter n) now).1 n).
Proof.
  intros Hn. set (l := Node.limiter n).
  pose proof (fun t => expire_list l now t) as Hts. pose proof (fun t d => expire_lookup l now t d) as Hlk.
  pose proof (forget_inv l _ (ni_limiter _ _ Hn) (expire_subseteq l now)) as Hi.
  assert (Hc : HandshakeLimiter.config (HandshakeLimiter.expire l now).1 = LimiterConfig.default) by apply (ni_config _ _ Hn).
  assert (Hb : before (HandshakeLimiter.expire l now).1 (Node.last_now_us n)) by apply (ni_clock _ _ Hn).
  change (HandshakeLimiter.mk _ _ _ _) with (HandshakeLimiter.expire l now).1 in Hi.
  destruct (HandshakeLimiter.expire l now) as [l1 ts]. cbn [fst snd] in *.
  split; cbn; [apply Hn|done|done|done|apply Hn| | |apply (ni_unique _ _ Hn)].
  - intros t. transitivity (is_Some (HandshakeLimiter.half_open l !! t)).
    { rewrite <- (or_False (is_Some _)), <- (elem_of_nil t). apply (ni_held _ _ Hn). }
    rewrite Hts. split.
    + intros [d Hd]. destruct (N.le_gt_cases d now); [right; by exists d|left; exists d; by apply Hlk].
    + intros [[d [Hd _]%Hlk]|(d & Hd & _)]; by exists d.
  - intros t (d & Hd & Hle)%Hts. destruct (HandshakeLimiter.half_open l1 !! t) as [d'|] eqn:E; [|done].
    apply Hlk in E as [E Hlt]. assert (d = d') by congruence. lia.
Qed.

Lemma find_holder n t : (exists id, holds n id t) ->
  exists id link, List.find (fun p => bool_decide (Link.ticket p.2 = Some t)) (map_to_list (Node.links n)) = Some (id, link) /\
    Node.links n !! id = Some link /\ Link.ticket link = Some t.
Proof.
  intros (id & link & Hl & Ht). destruct (List.find _ _) as [[id' link']|] eqn:E.
  - apply List.find_some in E as [Hin Hb]. apply list_elem_of_In, elem_of_map_to_list in Hin.
    apply bool_decide_eq_true in Hb. by exists id', link'.
  - assert (Hin : In (id, link) (map_to_list (Node.links n))) by by apply list_elem_of_In, elem_of_map_to_list.
    by apply (List.find_none _ _ E), bool_decide_eq_false in Hin.
Qed.

(** One expired ticket: its link goes. *)
Lemma tick_ticket_step n0 t ts a : inv_with (t :: ts) a.1 -> NoDup (t :: ts) -> narrows n0 a.2 a.1 ->
  let a' := Node.tick_ticket a t in inv_with ts a'.1 /\ narrows n0 a'.2 a'.1.
Proof.
  destruct a as [n es]. cbn [fst snd]. intros Hn [Hnt Hts]%NoDup_cons Hr.
  pose proof (ni_pend _ _ Hn t ltac:(set_solver)) as Hgone.
  destruct (find_holder n t) as (id & link & Ef & Hl & Ht).
  { apply (ni_held _ _ Hn). right. set_solver. }
  unfold Node.tick_ticket. rewrite Ef. cbn [fst snd]. set (n' := Node.set_links (delete id (Node.links n)) n).
  assert (Hh : forall id' t', holds n' id' t' <-> id' <> id /\ holds n id' t').
  { intros id' t'. unfold holds, n'. cbn. setoid_rewrite lookup_delete_Some. naive_solver. }
  assert (Hid : holds n id t) by by exists link. pose proof (ni_unique _ _ Hn) as Hu. split.
  - split; try apply Hn.
    + intros id' l' E. cbn in E. apply lookup_delete_Some in E as [_ E]. by apply Hn.
    + intros t'. pose proof (ni_held _ _ Hn t') as Hheld. setoid_rewrite Hh. split.
      * intros (id' & Hne & H). destruct (proj1 Hheld (ex_intro _ id' H)) as [?|[->|?]%elem_of_cons]; [by left| |by right].
        destruct Hne. by eapply Hu.
      * intros H. destruct (proj2 Hheld) as [id' H']; [set_solver|]. exists id'. split; [|done]. intros ->.
        destruct H' as (l' & E & Et). assert (t' = t) as -> by congruence.
        destruct H as [[d H]|H]; [cbn in H; congruence|done].
    + intros t' Hin. apply (ni_pend _ _ Hn). set_solver.
    + intros id1 id2 t' [_ H1]%Hh [_ H2]%Hh. by eapply Hu.
  - eapply narrows_trans; [done|].
    pose proof (relinked_narrows n id link None Hl [EvClosed id CauseHandshakeTimeout] eq_refl) as H.
    destruct H. by split.
Qed.

Lemma tick_tickets n0 ts a : inv_with ts a.1 -> NoDup ts -> narrows n0 a.2 a.1 ->
  let a' := foldl Node.tick_ticket a ts in node_inv a'.1 /\ narrows n0 a'.2 a'.1.
Proof.
  revert a. induction ts as [|t ts IH]; intros a Hn Hd Hr; [done|]. cbn [foldl].
  destruct (tick_ticket_step n0 t ts a Hn Hd Hr) as [Hn' Hr']. apply IH; [done|by eapply NoDup_cons_1_2|done].
Qed.

Lemma tick_moves now n : node_inv n -> total (run (Tick now) n) (fun '(n', es) => moves n es n').
Proof.
  intros Hn. cbn [run total]. unfold Node.tick.
  pose proof (clamp_inv n now [] Hn) as Hn1. pose proof (clamp_narrows n now) as Hc.
  destruct (Node.clamp_now now n) as [n1 now']. cbn [fst] in *.
  pose proof (tick_links n now' (map fst (map_to_list (Node.links n1))) (n1, []) Hn1 Hc) as H.
  cbv zeta in H. destruct (foldl _ (n1, []) _) as [n2 es]. destruct H as [Hn2 Hr2]. cbn [fst snd] in *.
  pose proof (expire_pending n2 now' Hn2) as Hp. pose proof (expire_NoDup (Node.limiter n2) now') as Hd.
  destruct (HandshakeLimiter.expire (Node.limiter n2) now') as [l' ts]. cbn [fst snd] in *.
  assert (Hr3 : narrows n es (Node.set_limiter l' n2)) by (destruct Hr2; by split).
  pose proof (tick_tickets n ts (Node.set_limiter l' n2, es) Hp Hd Hr3) as H. cbv zeta in H.
  destruct (foldl Node.tick_ticket _ ts) as [n3 es3]. by apply narrows_moves; apply H.
Qed.

Lemma call_moves c n : node_inv n -> fits n c -> total (run c n) (fun '(n', es) => moves n es n').
Proof.
  intros Hn Hf. destruct c; [by apply connect_moves|by apply accept_moves|by apply on_bytes_moves
    |by apply closed_moves|by apply tick_moves|by apply start_sync_moves|by apply create_moves].
Qed.

(** ** Histories of a node *)

(** The nodes that calls reach, with every event they returned. *)
Inductive reachable : Node.t -> list Event -> Prop :=
  | r_new identity n : Node.new identity = Ok n -> reachable n []
  | r_open identity file n : Node.open identity file = Ok n -> reachable n []
  | r_call n es c n' es' : reachable n es -> fits n c -> run c n = Some (n', es') -> reachable n' (es ++ es').

(** A node without links. *)
Record starts (n : Node.t) : Prop := {
  st_inv : node_inv n;
  st_links : Node.links n = ∅;
  st_next : Node.next_link_id n = 0 }.

Lemma new_starts identity n : Node.new identity = Ok n ->
  starts n /\ (length (Node.noise_seed n) = 32 /\ length (Node.signing_key n) = 32)%nat.
Proof.
  unfold Node.new. destruct (decide _) as [|H1]; [done|]. destruct (decide _) as [|H2]; [done|]. intros [= <-].
  split; [split; [|done|done]|cbn; lia].
  assert (Hno : forall id t, ~ holds (Node.mk (Identity.noise_seed identity) (Identity.signing_seed identity)
    EntryStore.new (HandshakeLimiter.new LimiterConfig.default) ∅ 0 0) id t).
  { intros id t (l & E & _). cbn in E. by rewrite lookup_empty in E. }
  split; cbn; [apply store_wf_new|done|apply new_inv|apply new_before| | |by intros t ?%not_elem_of_nil|].
  - intros id l E. by rewrite lookup_empty in E.
  - intros t. rewrite lookup_empty. split; [by intros [id H%Hno]|]. by intros [[? ?]|?%not_elem_of_nil].
  - intros id1 id2 t H. by apply Hno in H.
Qed.

Lemma open_starts identity file n : Node.open identity file = Ok n -> starts n.
Proof.
  unfold Node.open. destruct (Node.new identity) as [n0| |] eqn:E; [|done|done]. cbn [mbind result_bind].
  pose proof (open_any file) as Ho. destruct (EntryStore.open file) as [st| |]; [|done|done]. cbn. intros [= <-].
  destruct (new_starts identity n0 E) as [[Hi Hl Hx] _]. split; [|done|done]. apply set_store_inv; [done|apply Ho].
Qed.

Lemma reachable_spec n es : reachable n es ->
  node_inv n /\ NoDup (closes es) /\
  forall id, id ∈ closes es <-> id < Node.next_link_id n /\ Node.links n !! id = None.
Proof.
  assert (Hstart : forall n, starts n -> node_inv n /\ NoDup (closes []) /\
    forall id, id ∈ closes [] <-> id < Node.next_link_id n /\ Node.links n !! id = None).
  { intros n0 [Hi Hl Hx]. split_and!; [done|constructor|]. intros id. rewrite Hx.
    split; [by intros ?%not_elem_of_nil|lia]. }
  induction 1 as [i n H|i f n H|n es c n' es' _ (Hi & Hd & Hc) Hf Hr];
    [by eapply Hstart, new_starts|by eapply Hstart, open_starts|].
  pose proof (call_moves c n Hi Hf) as Hm. rewrite Hr in Hm. destruct Hm as [Hi' _ _ Hx Ho Hcl Hop Hk].
  split_and!; [done| |].
  - rewrite closes_app. apply NoDup_app. split_and!; [done| |done]. intros id [_ E]%Hc [[l El] _]%Hcl. congruence.
  - intros id. rewrite closes_app, elem_of_app, Hc, Hcl. split.
    + intros [[H1 H2]|[H1 H2]].
      * split; [lia|]. destruct (Node.links n' !! id) as [l|] eqn:E; [|done].
        destruct (Hk id) as [l0 E0]; [by rewrite E|done|congruence].
      * split; [|done]. pose proof (live_next n id Hi H1). lia.
    + intros [H1 H2]. destruct (N.lt_ge_cases id (Node.next_link_id n)) as [Hlt|Hge].
      * destruct (Node.links n !! id) as [l|] eqn:E; [right|by left]. split; [by eexists|done].
      * destruct (Hop id) as [l E]; [lia|congruence].
Qed.

(** The inbound links still in their handshake. *)
Definition is_inbound (d : LinkDriver.t) : bool :=
  match LinkDriver.role d with Session.Responder => negb (LinkDriver.is_established d) | _ => false end.

Definition half_open_links (n : Node.t) : list (N * Link.t) :=
  filter (fun p => is_inbound (Link.driver p.2) = true) (map_to_list (Node.links n)).

Lemma is_inbound_spec d : is_inbound d = true <-> inbound d.
Proof.
  unfold is_inbound, inbound. destruct (LinkDriver.role d); [naive_solver|].
  rewrite negb_true_iff. naive_solver.
Qed.

Lemma half_open_links_spec n id link : node_inv n ->
  (id, link) ∈ half_open_links n <-> Node.links n !! id = Some link /\ is_Some (Link.ticket link).
Proof.
  intros Hn. unfold half_open_links. rewrite list_elem_of_filter, elem_of_map_to_list, is_inbound_spec. cbn.
  split; intros [H1 H2]; (split; [|]); try done;
    by apply (lk_ticket _ (proj1 (ni_links _ _ Hn id link ltac:(done)))).
Qed.

(** The limiter's half-open slots are exactly those links. *)
Lemma half_open_count_links n : node_inv n ->
  HandshakeLimiter.half_open_count (Node.limiter n) = lenN (half_open_links n).
Proof.
  intros Hn. unfold HandshakeLimiter.half_open_count, lenN. f_equal. rewrite <- size_dom.
  set (f := fun p : N * Link.t => default 0 (Link.ticket p.2)). rewrite <- (length_fmap f).
  assert (Hd : NoDup (f <$> half_open_links n)).
  { apply NoDup_fmap_2_strong; [|by apply NoDup_filter, NoDup_map_to_list].
    intros [i1 l1] [i2 l2] [E1 [t1 T1]]%half_open_links_spec [E2 [t2 T2]]%half_open_links_spec; [|done..].
    unfold f. cbn. rewrite T1, T2. cbn. intros ->.
    assert (i1 = i2) as -> by (apply (ni_unique _ _ Hn i1 i2 t2); by eexists). congruence. }
  rewrite <- (size_list_to_set (C := gset N)) by done. f_equal. apply set_eq. intros t.
  rewrite elem_of_dom, elem_of_list_to_set, list_elem_of_fmap.
  rewrite <- (or_False (is_Some _)), <- (elem_of_nil t), <- (ni_held _ _ Hn t). split.
  - intros (id & l & E & T). exists (id, l). split; [unfold f; cbn; by rewrite T|].
    apply half_open_links_spec; [done|]. split; [done|by eexists].
  - intros ([id l] & -> & [E [t0 T]]%half_open_links_spec); [|done]. exists id, l. split; [done|]. unfold f. cbn. by rewrite T.
Qed.

(** ** Deadlines *)

(** The limits of a link that [tick] enforces. *)
Definition timely (now : N) (d : LinkDriver.t) : Prop :=
  now - LinkDriver.opened_at_us d < LinkDriverConfig.max_lifetime_us (LinkDriver.config d) /\
  (LinkDriver.is_established d = false ->
     now - LinkDriver.opened_at_us d < LinkDriverConfig.handshake_timeout_us (LinkDriver.config d)).

Lemma on_tick_timely now d : LinkDriver.is_closed (LinkDriver.on_tick now d).1 = false ->
  timely now (LinkDriver.on_tick now d).1.
Proof.
  unfold LinkDriver.on_tick, LinkDriver.check_timeouts, timely. destruct (LinkDriver.is_closed d) eqn:Hc; [cbn; congruence|].
  destruct (LinkDriver.is_established d) eqn:He; cbn [negb andb].
  - destruct (N.leb_spec (LinkDriverConfig.max_lifetime_us (LinkDriver.config d)) (now - LinkDriver.opened_at_us d)); [done|].
    cbn. by rewrite He.
  - destruct (N.leb_spec (LinkDriverConfig.handshake_timeout_us (LinkDriver.config d)) (now - LinkDriver.opened_at_us d)); [done|].
    destruct (N.leb_spec (LinkDriverConfig.max_lifetime_us (LinkDriver.config d)) (now - LinkDriver.opened_at_us d)); [done|].
    cbn. by rewrite He.
Qed.

Lemma tick_link_links now a id id' link' : node_inv a.1 -> Node.links (Node.tick_link now a id).1 !! id' = Some link' ->
  (id' <> id /\ Node.links a.1 !! id' = Some link') \/ (id' = id /\ timely now (Link.driver link')).
Proof.
  destruct a as [n es]. cbn [fst]. intros Hn. unfold Node.tick_link.
  destruct (Node.links n !! id) as [link|] eqn:El.
  2: { intros E. left. split; [intros ->; cbn in E; congruence|done]. }
  pose proof (on_tick_call (Link.driver link) now (node_live n id link Hn El)) as Hc.
  pose proof (on_tick_timely now (Link.driver link)) as Ht.
  destruct (LinkDriver.on_tick now (Link.driver link)) as [d out]. destruct Hc as [Hc _]. cbn [fst] in Ht.
  pose proof (finish_call_spec n id link d out El (co_tidy _ _ _ Hc)) as Hf.
  destruct (Node.finish_call _ _ _) as [n' io]. destruct Hf as (-> & _). cbn [fst Node.links called relinked].
  unfold called, relinked. cbn. destruct (decide (id' = id)) as [->|Hne].
  - rewrite lookup_partial_alter_eq. destruct (LinkDriver.is_closed d); [done|]. intros [= <-]. right. split; [done|by apply Ht].
  - rewrite lookup_partial_alter_ne by done. by left.
Qed.

Lemma tick_links_timely n0 now ids a : node_inv a.1 -> narrows n0 a.2 a.1 ->
  forall id link, Node.links (foldl (Node.tick_link now) a ids).1 !! id = Some link ->
    timely now (Link.driver link) \/ (id ∉ ids /\ Node.links a.1 !! id = Some link).
Proof.
  revert a. induction ids as [|i ids IH]; intros a Hn Hr id link; cbn [foldl]; [right; set_solver|].
  destruct (tick_link_step n0 now a i Hn Hr) as [Hn1 Hr1]. intros E.
  destruct (IH _ Hn1 Hr1 id link E) as [?|[Hni E1]]; [by left|].
  destruct (tick_link_links now a i id link Hn E1) as [[Hne E2]|[-> Ht]]; [right; set_solver|by left].
Qed.

Lemma tick_ticket_links a t id link : Node.links (Node.tick_ticket a t).1 !! id = Some link ->
  Node.links a.1 !! id = Some link.
Proof.
  destruct a as [n es]. unfold Node.tick_ticket. destruct (List.find _ _) as [[i l]|]; [|done]. cbn.
  by intros [_ ?]%lookup_delete_Some.
Qed.

Lemma tick_tickets_links ts a id link : Node.links (foldl Node.tick_ticket a ts).1 !! id = Some link ->
  Node.links a.1 !! id = Some link.
Proof.
  revert a. induction ts as [|t ts IH]; intros a; cbn [foldl]; [done|]. intros E%IH. by apply tick_ticket_links in E.
Qed.

Lemma tick_timely now n id link : node_inv n -> Node.links (Node.tick now n).1 !! id = Some link ->
  timely (N.max (Node.last_now_us n) now) (Link.driver link).
Proof.
  intros Hn. unfold Node.tick. pose proof (clamp_inv n now [] Hn) as Hn1. pose proof (clamp_narrows n now) as Hc.
  unfold Node.clamp_now in *. cbn [fst] in *. set (now' := N.max _ now) in *. set (n1 := Node.mk _ _ _ _ _ _ now') in *.
  pose proof (tick_links_timely n now' (map fst (map_to_list (Node.links n1))) (n1, []) Hn1 Hc id link) as Ht.
  destruct (foldl _ (n1, []) _) as [n2 es]. cbn [fst] in Ht.
  destruct (HandshakeLimiter.expire _ now') as [l' ts]. intros E%tick_tickets_links.
  destruct (Ht E) as [?|[Hni El]]; [done|]. destruct Hni. apply list_elem_of_fmap. exists (id, link).
  split; [done|]. by apply elem_of_map_to_list.
Qed.

(** ** Properties *)

(** C10: whatever calls a node has served, with any peer bytes, any entropy and
    journal outcomes, the next call does not abort, keeps the node's
    invariant, never turns its clock back and never loses an entry. *)
Theorem node_invariant n es c (Hr : reachable n es) (Hf : fits n c) :
  node_inv n /\
  exists n' es', run c n = Some (n', es') /\ node_inv n' /\ Node.last_now_us n <= Node.last_now_us n' /\
    EntryStore.entries (Node.store n) ⊆ EntryStore.entries (Node.store n').
Proof.
  destruct (reachable_spec n es Hr) as (Hn & _). split; [done|]. pose proof (call_moves c n Hn Hf) as Hm.
  destruct (run c n) as [[n' es']|]; [|done]. exists n', es'. by destruct Hm.
Qed.

(** C18: a link is reported closed exactly once. Over the whole history of a node
    the ids of its [Closed] events are distinct, and they are the ids handed
    out whose links are gone. *)
Theorem node_closes_once n es (Hr : reachable n es) :
  NoDup (closes es) /\ forall id, id ∈ closes es <-> id < Node.next_link_id n /\ Node.links n !! id = None.
Proof. by destruct (reachable_spec n es Hr) as (_ & H). Qed.

(** C19: the half-open slots of the limiter are exactly the inbound links whose
    handshake is not finished: none leaks, and there are never more than 32. *)
Theorem node_half_open n es (Hr : reachable n es) :
  HandshakeLimiter.half_open_count (Node.limiter n) = lenN (half_open_links n) /\ lenN (half_open_links n) <= 32.
Proof.
  destruct (reachable_spec n es Hr) as (Hn & _). pose proof (half_open_count_links n Hn) as E. split; [done|].
  rewrite <- E. pose proof (li_half_open _ (ni_limiter _ _ Hn)) as Hb. by rewrite (ni_config _ _ Hn) in Hb.
Qed.

(** C23: [tick] enforces the deadlines: a link that is still there afterwards is
    younger than the lifetime cap, and than the handshake timeout unless it
    is established; every link that went is reported closed. *)
Theorem node_deadlines n es now (Hr : reachable n es) :
  let '(n', es') := Node.tick now n in
  let now' := N.max (Node.last_now_us n) now in
  (forall id link, Node.links n' !! id = Some link -> timely now' (Link.driver link)) /\
  (forall id, is_Some (Node.links n !! id) -> Node.links n' !! id = None <-> id ∈ closes es').
Proof.
  destruct (reachable_spec n es Hr) as (Hn & _). pose proof (tick_moves now n Hn) as Hm. cbn [run total] in Hm.
  pose proof (tick_timely now n) as Ht. destruct (Node.tick now n) as [n' es']. cbn [fst] in *. split.
  - intros id link E. by apply (Ht id link).
  - intros id Hl. rewrite (mv_closes _ _ _ Hm id). tauto.
Qed.

(** What [create_entry] signs. *)
Definition authored (n : Node.t) (kind : N) (payload : bytes) (key : N) : Entry.t :=
  Entry.sign (Node.signing_key n) key kind payload.

(** C33: authoring an entry. Success returns the view of an entry signed with the
    node's key, small enough for a push frame and held by the store from then
    on; the errors leave the entries as they were and say why: too large for
    a frame, the reserved sort key, or the journal. A signature of the node's
    own never fails to verify. Two entries with one id would be a collision
    of SHA-256. *)
Theorem node_create_entry n es jio kind payload key (Hr : reachable n es) (Hf : fits n (CreateEntry jio kind payload key)) :
  let e := authored n kind payload key in
  let '(n', r) := Node.create_entry jio kind payload key n in
  Entry.author e = Node.author_key n /\
  match r with
  | Ok view =>
      view = entry_view e /\ is_Ok (encode_frame (MGossipPush (GossipPush.mk [e] 0))) /\ key <> u64_max /\
      exists held, EntryStore.get (Node.store n') (Entry.id e) = Some held /\
        (held = e \/ exists x y, x <> y /\ sha256 x = sha256 y) /\
        EntryStore.entries (Node.store n') = <[Entry.id e := held]> (EntryStore.entries (Node.store n))
  | Err err => EntryStore.entries (Node.store n') = EntryStore.entries (Node.store n) /\
      (err = InvalidArgument "payload too large to frame" /\ ~ is_Ok (encode_frame (MGossipPush (GossipPush.mk [e] 0))) \/
       err = InvalidArgument "sort key 2^64 - 1 is reserved" /\ key = u64_max \/
       err = ApiStorage /\ is_Some (EntryStore.journal (Node.store n)))
  | Panic => False
  end.
Proof.
  destruct (reachable_spec n es Hr) as (Hn & _). destruct Hf as (Hk & Hs & Hp & Hroom).
  unfold Node.create_entry. fold (authored n kind payload key). set (e := authored n kind payload key). cbv zeta.
  pose proof (encode_frame_no_panic (MGossipPush (GossipPush.mk [e] 0))) as Hnp.
  destruct (encode_frame _) as [f|er|]; [|split_and!; [done..|left; split; [done|by intros []]]|done].
  assert (He : Entry.wf e) by by apply Entry.wf_sign.
  pose proof (insert_inserts (Node.store n) e jio (ni_store _ _ Hn) He Hroom) as Hi.
  destruct (EntryStore.insert (Node.store n) e jio) as [st r]. cbn [fst snd] in Hi.
  destruct Hi as [Hkey | Hkey Hver | Hval Hheld | j err Hval Hnone Hj | j o Hval Hnone Hj Hwf].
  - split_and!; [done..|right; left; done].
  - destruct Hver. apply Entry.verify_sign.
  - split; [done|]. split; [done|]. split; [by eexists|]. split; [apply Hval|]. destruct Hheld as [held Hh].
    exists held. split_and!; [done| |by rewrite insert_id].
    destruct (wf_entries _ (ni_store _ _ Hn) _ _ Hh) as [Hid [Hw _]]. by apply Entry.id_inj.
  - destruct (journal_step_err _ _ _ _ _ Hj) as [Hjs [->|[w ->]]]; (split_and!; [done..|right; right; done]).
  - split; [done|]. split; [done|]. split; [by eexists|]. split; [apply Hval|]. exists e.
    split_and!; [exact (lookup_insert_eq _ _ _)|by left|done].
Qed.

(** The position of a view in the order of the entries. *)
Definition view_item (v : EntryView.t) : Item.t := Item.mk (EntryView.sort_key_ms v) (EntryView.id v).

Lemma length_items_of st : lenN (items_of (EntryStore.entries st)) = EntryStore.len st.
Proof. unfold lenN, items_of, EntryStore.len. by rewrite length_map, length_map_to_list. Qed.

Lemma views_of_items st items : StoreSpec.wf st ->
  (forall x, x ∈ items -> exists e, EntryStore.get st (Item.id x) = Some e /\ Entry.sort_key e = Item.sort_key x) ->
  map view_item (map entry_view (omap (fun item => EntryStore.get st (Item.id item)) items)) = items.
Proof.
  intros Hwf. induction items as [|x items IH]; intros Hx; [done|]. cbn.
  destruct (Hx x) as (e & He & Hk); [set_solver|]. rewrite He. cbn. f_equal; [|apply IH; set_solver].
  destruct (wf_entries st Hwf _ _ He) as [Hid _]. destruct x as [k i]. unfold view_item. cbn in *. congruence.
Qed.

(** C34: the entries call lists, sorted by sort key and then id, exactly the held
    entries of the half-open window, each once; it aborts on no window. *)
Theorem node_entries n es w (Hr : reachable n es) :
  exists views, Node.entries w n = Some views /\ Item.sorted (map view_item views) /\
    (forall v, v ∈ views <-> exists i e, EntryStore.get (Node.store n) i = Some e /\ v = entry_view e /\
       SyncWindow.since_ms w <= Entry.sort_key e < SyncWindow.until_ms w) /\
    lenN views <= Node.entry_count n.
Proof.
  destruct (reachable_spec n es Hr) as (Hn & _). pose proof (ni_store _ _ Hn) as Hwf.
  destruct (snapshot_spec (Node.store n) (SyncWindow.into w) Hwf) as (items & E & Hs & Hin).
  assert (Hit : forall x, x ∈ items <-> exists e, EntryStore.get (Node.store n) (Item.id x) = Some e /\
      Entry.sort_key e = Item.sort_key x /\ SyncWindow.since_ms w <= Item.sort_key x < SyncWindow.until_ms w).
  { intros x. rewrite Hin, elem_of_items_of by done. unfold in_window. cbn.
    rewrite andb_true_iff, N.leb_le, N.ltb_lt. naive_solver. }
  pose proof (views_of_items (Node.store n) items Hwf) as Hv.
  unfold Node.entries, entries_in_window. rewrite E. cbn [mbind option_bind]. eexists. split; [done|].
  specialize (Hv ltac:(intros x Hx%Hit; naive_solver)). set (views := map entry_view _) in *.
  rewrite Hv. split; [done|]. split.
  - intros v. unfold views. rewrite list_elem_of_fmap. setoid_rewrite list_elem_of_omap. split.
    + intros (e & -> & x & Hx & He). apply Hit in Hx as (e' & He' & Hk & Hw). exists (Item.id x), e.
      split; [done|]. split; [done|]. assert (e' = e) as -> by congruence. by rewrite Hk.
    + intros (i & e & He & -> & Hw). exists e. split; [done|]. exists (Item.mk (Entry.sort_key e) i).
      split; [|done]. apply Hit. by exists e.
  - unfold Node.entry_count. rewrite <- (length_items_of (Node.store n)). unfold lenN. rewrite <- (length_map view_item views), Hv.
    assert (length items <= length (items_of (EntryStore.entries (Node.store n))))%nat; [|lia].
    apply submseteq_length, NoDup_submseteq; [by apply Item.sorted_NoDup|]. by intros x [? _]%Hin.
Qed.

(** The node after a call, and its events. *)
Definition step_call (c : call) (n : Node.t) : Node.t * list Event :=
  match run c n with Some p => p | None => (n, []) end.

Lemma reachable_step n es c : reachable n es -> fits n c -> reachable (step_call c n).1 (es ++ (step_call c n).2).
Proof.
  intros Hr Hf. destruct (reachable_spec n es Hr) as (Hn & _). pose proof (call_moves c n Hn Hf) as Hm.
  unfold step_call. destruct (run c n) as [[n' es']|] eqn:E; [|done]. by eapply r_call.
Qed.

End Spec.

(** ** Concrete instances *)

Definition sample_identity : Identity.t := Identity.mk (replicate 32 (byte_of 1)) (replicate 32 (byte_of 2)).
Definition sample_node : Node.t :=
  match Node.new sample_identity with Ok n => n
  | _ => Node.mk [] [] EntryStore.new (HandshakeLimiter.new LimiterConfig.default) ∅ 0 0 end.

Lemma sample_reachable : reachable sample_node [].
Proof. apply (r_new sample_identity). reflexivity. Qed.

Definition accept_call : call := Accept [byte_of 9] (Some (replicate 32 (byte_of 3))) 1000.
Definition create_call : call := CreateEntry IoOk 1 [byte_of 7] 500.

(** A node that accepted a connection. *)
Definition accepted : Node.t * list Event := step_call accept_call sample_node.

Lemma accepted_reachable : reachable accepted.1 ([] ++ accepted.2).
Proof. apply (reachable_step sample_node [] accept_call); [apply sample_reachable|exact I]. Qed.

(** Then lost it. *)
Definition lost : Node.t * list Event := step_call (OnTransportClosed 0 2000) accepted.1.

Lemma lost_reachable : reachable lost.1 (([] ++ accepted.2) ++ lost.2).
Proof. apply (reachable_step accepted.1 _ (OnTransportClosed 0 2000)); [apply accepted_reachable|exact I]. Qed.

Lemma node_invariant_witness :
  fits accepted.1 (OnBytes (fun _ _ => IoOk) 0 [byte_of 0; byte_of 1; byte_of 9] 3000) /\
  node_inv accepted.1 /\
  exists n' es', run (OnBytes (fun _ _ => IoOk) 0 [byte_of 0; byte_of 1; byte_of 9] 3000) accepted.1 = Some (n', es') /\
    node_inv n' /\ closes es' = [0].
Proof.
  assert (Hf : fits accepted.1 (OnBytes (fun _ _ => IoOk) 0 [byte_of 0; byte_of 1; byte_of 9] 3000))
    by (vm_compute; reflexivity).
  split; [exact Hf|]. destruct (node_invariant accepted.1 _ _ accepted_reachable Hf) as (Hi & n' & es' & E & Hi' & _).
  split; [exact Hi|]. exists n', es'. split; [exact E|]. split; [exact Hi'|].
  assert (Hc : (match run (OnBytes (fun _ _ => IoOk) 0 [byte_of 0; byte_of 1; byte_of 9] 3000) accepted.1 with
    Some (_, es) => closes es | None => [] end) = [0]) by (vm_compute; reflexivity).
  rewrite E in Hc. exact Hc.
Defined.

Lemma node_closes_once_witness :
  closes (([] ++ accepted.2) ++ lost.2) = [0] /\ NoDup (closes (([] ++ accepted.2) ++ lost.2)).
Proof.
  split; [vm_compute; reflexivity|]. exact (proj1 (node_closes_once lost.1 _ lost_reachable)).
Defined.

Lemma node_half_open_witness :
  HandshakeLimiter.half_open_count (Node.limiter accepted.1) = 1 /\ lenN (half_open_links accepted.1) = 1.
Proof.
  assert (Hc : HandshakeLimiter.half_open_count (Node.limiter accepted.1) = 1) by (vm_compute; reflexivity).
  split; [exact Hc|]. rewrite <- (proj1 (node_half_open accepted.1 _ accepted_reachable)). exact Hc.
Defined.

(** The accepted link times out. *)
Lemma node_deadlines_witness :
  is_Some (Node.links accepted.1 !! 0) /\ 0 ∈ closes (Node.tick 30001000 accepted.1).2.
Proof.
  pose proof (node_deadlines accepted.1 _ 30001000 accepted_reachable) as H.
  assert (Hl : is_Some (Node.links accepted.1 !! 0)) by (vm_compute; eexists; reflexivity).
  assert (Hg : Node.links (Node.tick 30001000 accepted.1).1 !! 0 = None) by (vm_compute; reflexivity).
  destruct (Node.tick 30001000 accepted.1) as [n' es']. split; [exact Hl|]. apply (proj2 H 0 Hl). exact Hg.
Defined.

Lemma create_fits : fits accepted.1 create_call.
Proof. split_and!; vm_compute; try discriminate; reflexivity. Qed.

Lemma node_create_entry_witness :
  (match (Node.create_entry IoOk 1 [byte_of 7] 500 accepted.1).2 with
   | Ok view => view = entry_view (authored accepted.1 1 [byte_of 7] 500)
   | _ => False
   end).
Proof.
  pose proof (node_create_entry accepted.1 _ IoOk 1 [byte_of 7] 500 accepted_reachable create_fits) as H.
  assert (Hr : is_Ok (Node.create_entry IoOk 1 [byte_of 7] 500 accepted.1).2) by (vm_compute; eexists; reflexivity).
  cbv zeta in H. destruct (Node.create_entry IoOk 1 [byte_of 7] 500 accepted.1) as [n' r].
  destruct Hr as [view Hr]. cbn [snd] in *. subst r. exact (proj1 (proj2 H)).
Defined.

Definition authored_node : Node.t * list Event := step_call create_call accepted.1.

Lemma node_entries_witness :
  exists views, Node.entries (SyncWindow.mk 500 501) authored_node.1 = Some views /\ lenN views = 1.
Proof.
  destruct (node_entries authored_node.1 (([] ++ accepted.2) ++ authored_node.2) (SyncWindow.mk 500 501)) as (views & E & _).
  { exact (reachable_step accepted.1 _ create_call accepted_reachable create_fits). }
  exists views. split; [exact E|].
  assert (Hl : fmap lenN (Node.entries (SyncWindow.mk 500 501) authored_node.1) = Some 1) by (vm_compute; reflexivity).
  rewrite E in Hl. injection Hl as Hl. exact Hl.
Defined.
