(* ===== verification/NodePair.v ===== *)
(** * Two nodes meet

    The calls of section 4.1 between two nodes, from [connect] and [accept] to
    the two [Established] events. *)
From S2P Require Import Prelude Errors Crypto Cbor CborRef Entry Msg Frame Store StoreSpec Session Limiter Noise NoiseSpec Driver DriverSpec LinkSpec SessionSpec LinkSync Node NodeSpec.
Open Scope N_scope.

Section Pair.
Context {cbor : Cbor} {crypto : Crypto}.

(** A call of [on_bytes] on a live link, from what its driver does. *)
Lemma node_on_bytes n jio id bs now link d out store' : node_inv n -> Node.links n !! id = Some link ->
  LinkDriver.on_bytes (Node.store n) jio bs now (Link.driver link) = Some ((d, out), store') ->
  Node.last_now_us n <= now -> stored (Node.store n) + lenN bs + 65536 < u32_max ->
  Forall not_closed (LinkOutput.events out) ->
  exists n', Node.on_bytes jio id bs now n =
      (n', Ok (LinkIo.mk (LinkOutput.frames out) (map (map_event id) (LinkOutput.events out)))) /\
    node_inv n' /\ Node.store n' = store' /\ Node.last_now_us n' = now /\
    Node.links n' !! id = Some (after (Link.mk d (Link.ticket link)) (LinkOutput.events out)) /\
    stored store' <= stored (Node.store n) + (65536 + lenN bs).
Proof.
  intros Hn Hl Hd Ht Hroom Hq. unfold Node.on_bytes.
  pose proof (clamp_inv n now [] Hn) as Hn1. unfold Node.clamp_now in *. cbn [fst] in Hn1.
  rewrite N.max_r in * by done. set (n1 := Node.mk _ _ _ _ _ _ now) in *. cbn [Node.links Node.store n1].
  rewrite Hl, Hd. change (Node.set_store _ (Node.put_driver id link d n1)) with (Node.put_driver id link d (Node.set_store store' n1)).
  pose proof (on_bytes_call (Link.driver link) (Node.store n) jio bs now (node_live n id link Hn Hl) (ni_store _ _ Hn) Hroom) as Hc.
  rewrite Hd in Hc. destruct Hc as [Hc (Hwf & _ & Hgrow)].
  assert (Hopen : LinkDriver.is_closed d = false).
  { pose proof (co_tidy _ _ _ Hc) as H. unfold tidy, LinkDriver.close_reason, LinkDriver.is_closed in *.
    cbn [fst snd] in H. destruct (LinkDriver.state d) as [| | |r]; try done. destruct H as [(es & E & _) _].
    rewrite E in Hq. apply Forall_app in Hq as [_ Hq]. by inversion Hq. }
  set (n2 := Node.set_store store' n1).
  pose proof (set_store_inv n1 store' Hn1 Hwf : node_inv n2) as Hn2.
  pose proof (finish_call_spec n2 id link d out Hl (co_tidy _ _ _ Hc)) as Hf.
  unfold Node.finish_call in *. destruct Hf as (E & _ & _). exists (called n2 id link d out).
  cbn [LinkIo.events LinkIo.frames] in *. rewrite E. split; [done|].
  split; [by apply called_inv|]. split; [done|]. split; [done|]. unfold called. rewrite Hopen. split; [apply relinked_link|done].
Qed.

Lemma node_hello : exists b, hello_body LinkDriverConfig.default b.
Proof.
  destruct (hello_encodes (Hello.mk [1] 0 [1])) as [b E]; [done|by apply N.leb_le..|]. exists b.
  split; [solve_bounds|exact E].
Qed.

Lemma node_connect n seed now d out : node_inv n -> Node.last_now_us n <= now ->
  LinkDriver.start (LinkDriver.new Session.Initiator (Node.static_keys (Node.noise_seed n))
    (Keypair.from_secret_bytes seed) LinkDriverConfig.default now) = Some (d, out) ->
  exists n', Node.connect (Some seed) now n = (n', Ok (LinkOpen.mk (Node.next_link_id n) (LinkOutput.frames out))) /\
    node_inv n' /\ Node.store n' = Node.store n /\ Node.last_now_us n' = now /\
    Node.links n' !! Node.next_link_id n = Some (Link.mk d None).
Proof.
  intros Hn Ht Hs. pose proof (connect_moves (Some seed) now n Hn) as Hm. cbn [run] in Hm.
  unfold Node.connect, fresh_ephemeral, Node.clamp_now in *. rewrite N.max_r in * by done.
  cbn [Node.noise_seed] in *. rewrite Hs in *. cbn in *. eexists. split; [done|].
  split; [apply Hm|]. split_and!; [done|done|apply lookup_insert_eq].
Qed.

Lemma node_accept n addr seed now l' ticket : node_inv n -> Node.last_now_us n <= now ->
  HandshakeLimiter.admit_handshake (Node.limiter n) addr now = (l', Some ticket) ->
  exists n', Node.accept addr (Some seed) now n = (n', Ok (Some (LinkOpen.mk (Node.next_link_id n) []))) /\
    node_inv n' /\ Node.store n' = Node.store n /\ Node.last_now_us n' = now /\
    Node.links n' !! Node.next_link_id n =
      Some (Link.mk (LinkDriver.new Session.Responder (Node.static_keys (Node.noise_seed n))
        (Keypair.from_secret_bytes seed) LinkDriverConfig.default now) (Some ticket)).
Proof.
  intros Hn Ht Ha. pose proof (accept_moves addr (Some seed) now n Hn) as Hm. cbn [run] in Hm.
  unfold Node.accept, fresh_ephemeral, Node.clamp_now in *. rewrite N.max_r in * by done.
  cbn [Node.limiter] in *. rewrite Ha in *. cbn in *. eexists. split; [done|].
  split; [apply Hm|]. split_and!; [done|done|apply lookup_insert_eq].
Qed.

Lemma fresh_in_time role sk ek now :
  in_time now (LinkDriver.new role sk ek LinkDriverConfig.default now).
Proof. split; cbn; rewrite N.sub_diag; by apply N.ltb_lt. Qed.

Lemma established_status n id d es remote tr : Node.links n !! id = Some (after d es) ->
  LinkDriver.state (Link.driver d) = Transport tr -> LinkDriver.remote_fingerprint (Link.driver d) = Some remote ->
  Node.link_status id n = Some (LinkStatus.mk true (Some remote)).
Proof.
  intros Hl Hs Hf. unfold Node.link_status. rewrite Hl. cbn. rewrite Hf. unfold LinkDriver.is_established.
  by rewrite Hs.
Qed.

(** Two nodes joined by an idle link with [k] messages left in each
    direction. *)
Record paired (nA nB : Node.t) (a b : N) (dA dB : LinkDriver.t) (tA tB : TransportState.t) (k : N) : Prop := {
  pr_inv : node_inv nA /\ node_inv nB;
  pr_links : Node.links nA !! a = Some (Link.mk dA None) /\ Node.links nB !! b = Some (Link.mk dB None);
  pr_states : LinkDriver.state dA = Transport tA /\ LinkDriver.state dB = Transport tB;
  pr_linked : linked tA tB;
  pr_ready : ready tA k /\ ready tB k;
  pr_buffers : FrameDecoder.buf (LinkDriver.decoder dA) = [] /\ FrameDecoder.buf (LinkDriver.decoder dB) = [];
  pr_roles : Syncer.our_parity (LinkDriver.syncer dB) = Syncer.peer_parity (LinkDriver.syncer dA);
  pr_configs : Syncer.config (LinkDriver.syncer dA) = SyncConfig.default /\
    Syncer.config (LinkDriver.syncer dB) = SyncConfig.default;
  pr_sessions : Syncer.sessions (LinkDriver.syncer dA) = ∅ /\ Syncer.sessions (LinkDriver.syncer dB) = ∅ }.

(** A driver made at [now], its syncer unused. *)
Definition fresh_link (now : N) (d : LinkDriver.t) : Prop :=
  LinkDriver.opened_at_us d = now /\ LinkDriver.config d = LinkDriverConfig.default /\
  Syncer.next_sid (LinkDriver.syncer d) <= 1.

Lemma nodes_meet nA nB seedA seedB addr now jio k
    (HA : node_inv nA) (HB : node_inv nB) (HtA : Node.last_now_us nA <= now) (HtB : Node.last_now_us nB <= now)
    (HrA : stored (Node.store nA) + 131073 < u32_max) (HrB : stored (Node.store nB) + 131073 < u32_max)
    (Hadmit : is_Some (HandshakeLimiter.admit_handshake (Node.limiter nB) addr now).2)
    (Hk : k <= u64_max) :
  let a := Node.next_link_id nA in
  let b := Node.next_link_id nB in
  exists nA1 nA2 nA3 nB1 nB2 nB3 nB4 f1 f2 f3 f4 f5 dA dB tA tB,
    Node.connect (Some seedA) now nA = (nA1, Ok (LinkOpen.mk a [f1])) /\
    Node.accept addr (Some seedB) now nB = (nB1, Ok (Some (LinkOpen.mk b []))) /\
    Node.on_bytes jio b f1 now nB1 = (nB2, Ok (LinkIo.mk [f2] [])) /\
    Node.on_bytes jio a f2 now nA1 = (nA2, Ok (LinkIo.mk [f3] [])) /\
    Node.on_bytes jio b f3 now nB2 = (nB3, Ok (LinkIo.mk [f4] [])) /\
    Node.on_bytes jio a f4 now nA2 = (nA3, Ok (LinkIo.mk [f5] [EvEstablished a (Node.fingerprint nB)])) /\
    Node.on_bytes jio b f5 now nB3 = (nB4, Ok (LinkIo.mk [] [EvEstablished b (Node.fingerprint nA)])) /\
    Node.link_status a nA3 = Some (LinkStatus.mk true (Some (Node.fingerprint nB))) /\
    Node.link_status b nB4 = Some (LinkStatus.mk true (Some (Node.fingerprint nA))) /\
    paired nA3 nB4 a b dA dB tA tB k /\
    (Node.store nA3 = Node.store nA /\ Node.store nB4 = Node.store nB) /\
    (Node.last_now_us nA3 = now /\ Node.last_now_us nB4 = now) /\
    fresh_link now dA /\ fresh_link now dB.
Proof.
  intros a b. destruct node_hello as [hello Hh].
  destruct (HandshakeLimiter.admit_handshake (Node.limiter nB) addr now) as [l' [ticket|]] eqn:Ea; [|by destruct Hadmit].
  destruct (link_establishes (Node.static_keys (Node.noise_seed nA)) (Keypair.from_secret_bytes seedA)
    (Node.static_keys (Node.noise_seed nB)) (Keypair.from_secret_bytes seedB)
    LinkDriverConfig.default LinkDriverConfig.default hello hello 1 now now now (Node.store nA) (Node.store nB) jio)
    as (dI1 & dI2 & dI3 & dR1 & dR2 & dR3 & f1 & f2 & f3 & f4 & f5 & trI & trR & Es & E1 & E2 & E3 & E4 & E5 &
        SI & SR & Hlk & _ & _ & FI & FR & _ & Hlen & [FxI YI] & [FxR YR] & NI & NR); try done; try apply fresh_in_time.
  repeat match goal with H : Forall _ (_ :: _) |- _ => apply Forall_cons in H as [? H] end.
  destruct (node_connect nA seedA now _ _ HA HtA Es) as (nA1 & CA & IA1 & SA1 & TA1 & LA1).
  destruct (node_accept nB addr seedB now l' ticket HB HtB Ea) as (nB1 & CB & IB1 & SB1 & TB1 & LB1).
  rewrite <- SB1 in E1. destruct (node_on_bytes _ _ _ _ _ _ _ _ _ IB1 LB1 E1) as (nB2 & X1 & IB2 & SB2 & TB2 & LB2 & _);
    [by rewrite TB1|rewrite SB1; lia|constructor|].
  rewrite <- SA1 in E2. destruct (node_on_bytes _ _ _ _ _ _ _ _ _ IA1 LA1 E2) as (nA2 & X2 & IA2 & SA2 & TA2 & LA2 & _);
    [by rewrite TA1|rewrite SA1; lia|constructor|].
  rewrite <- SB1, <- SB2 in E3. destruct (node_on_bytes _ _ _ _ _ _ _ _ _ IB2 LB2 E3) as (nB3 & X3 & IB3 & SB3 & TB3 & LB3 & _);
    [by rewrite TB2|rewrite SB2, SB1; lia|constructor|].
  rewrite <- SA1, <- SA2 in E4. destruct (node_on_bytes _ _ _ _ _ _ _ _ _ IA2 LA2 E4) as (nA3 & X4 & IA3 & SA3 & TA3 & LA3 & _);
    [by rewrite TA2|rewrite SA2, SA1; lia|by repeat constructor|].
  rewrite <- SB1, <- SB2, <- SB3 in E5. destruct (node_on_bytes _ _ _ _ _ _ _ _ _ IB3 LB3 E5) as (nB4 & X5 & IB4 & SB4 & TB4 & LB4 & _);
    [by rewrite TB3|rewrite SB3, SB2, SB1; lia|by repeat constructor|].
  apply fixed_parts in FxI as (DI & CI & _ & OI), FxR as (DR & CR & _ & OR).
  exists nA1, nA2, nA3, nB1, nB2, nB3, nB4, f1, f2, f3, f4, f5, dI3, dR3, trI, trR.
  split_and!; [exact CA|exact CB|exact X1|exact X2|exact X3|exact X4|exact X5| | | |congruence|congruence|done|done| |].
  - eapply established_status; [exact LA3|exact SI|exact FI].
  - eapply established_status; [exact LB4|exact SR|exact FR].
  - pose proof Hlk as [[? ?] _ _ [? ?] _]. split; try done; try (split_and!; done).
    + split; split_and!; try done; [rewrite NI|rewrite NR]; lia.
    + by rewrite DI, DR.
    + by rewrite YI, YR.
    + by rewrite YI, YR.
    + by rewrite YI, YR.
  - split_and!; [done|done|by rewrite YI].
  - split_and!; [done|done|by rewrite YR].
Qed.

(** C7: two nodes establish a link. [connect] on one and an admitted [accept] on
    the other, then the five frames carried across: both nodes report
    [Established] once, with the other node's fingerprint, and their link
    status says the same. *)
Theorem nodes_establish nA nB seedA seedB addr now jio
    (HA : node_inv nA) (HB : node_inv nB) (HtA : Node.last_now_us nA <= now) (HtB : Node.last_now_us nB <= now)
    (HrA : stored (Node.store nA) + 131073 < u32_max) (HrB : stored (Node.store nB) + 131073 < u32_max)
    (Hadmit : is_Some (HandshakeLimiter.admit_handshake (Node.limiter nB) addr now).2) :
  let a := Node.next_link_id nA in
  let b := Node.next_link_id nB in
  exists nA1 nA2 nA3 nB1 nB2 nB3 nB4 f1 f2 f3 f4 f5,
    Node.connect (Some seedA) now nA = (nA1, Ok (LinkOpen.mk a [f1])) /\
    Node.accept addr (Some seedB) now nB = (nB1, Ok (Some (LinkOpen.mk b []))) /\
    Node.on_bytes jio b f1 now nB1 = (nB2, Ok (LinkIo.mk [f2] [])) /\
    Node.on_bytes jio a f2 now nA1 = (nA2, Ok (LinkIo.mk [f3] [])) /\
    Node.on_bytes jio b f3 now nB2 = (nB3, Ok (LinkIo.mk [f4] [])) /\
    Node.on_bytes jio a f4 now nA2 = (nA3, Ok (LinkIo.mk [f5] [EvEstablished a (Node.fingerprint nB)])) /\
    Node.on_bytes jio b f5 now nB3 = (nB4, Ok (LinkIo.mk [] [EvEstablished b (Node.fingerprint nA)])) /\
    Node.link_status a nA3 = Some (LinkStatus.mk true (Some (Node.fingerprint nB))) /\
    Node.link_status b nB4 = Some (LinkStatus.mk true (Some (Node.fingerprint nA))) /\
    node_inv nA3 /\ node_inv nB4.
Proof.
  intros a b. destruct (nodes_meet nA nB seedA seedB addr now jio 0 HA HB HtA HtB HrA HrB Hadmit ltac:(done))
    as (nA1 & nA2 & nA3 & nB1 & nB2 & nB3 & nB4 & f1 & f2 & f3 & f4 & f5 & dA & dB & tA & tB & E1 & E2 & E3 & E4 & E5 &
        E6 & E7 & S1 & S2 & Hp & _).
  exists nA1, nA2, nA3, nB1, nB2, nB3, nB4, f1, f2, f3, f4, f5. destruct (pr_inv _ _ _ _ _ _ _ _ _ Hp). by split_and!.
Qed.

End Pair.

(** ** A concrete instance *)

Lemma nodes_establish_witness :
  exists nA nB f5, Node.link_status 0 nA = Some (LinkStatus.mk true (Some (Node.fingerprint accepted.1))) /\
    (Node.on_bytes (fun _ _ => IoOk) 1 f5 2000 nB).2 =
      Ok (LinkIo.mk [] [EvEstablished 1 (Node.fingerprint sample_node)]) /\ node_inv nA.
Proof.
  destruct (reachable_spec _ _ sample_reachable) as (HA & _).
  destruct (reachable_spec _ _ accepted_reachable) as (HB & _).
  destruct (nodes_establish sample_node accepted.1 (replicate 32 (byte_of 5)) (replicate 32 (byte_of 6)) [byte_of 9] 2000
    (fun _ _ => IoOk) HA HB)
    as (nA1 & nA2 & nA3 & nB1 & nB2 & nB3 & nB4 & f1 & f2 & f3 & f4 & f5 & _ & _ & _ & _ & _ & _ & E & S & _ & I & _).
  - vm_compute. discriminate.
  - vm_compute. discriminate.
  - vm_compute. reflexivity.
  - vm_compute. reflexivity.
  - vm_compute. eexists. reflexivity.
  - exists nA3, nB3, f5. split; [exact S|]. split; [|exact I].
    transitivity (nB4, @Ok ApiError LinkIo.t (LinkIo.mk [] [EvEstablished 1 (Node.fingerprint sample_node)])).2; [|reflexivity].
    exact (f_equal snd E).
Defined.
