(* ===== verification/NodeSync.v ===== *)
(** * Two nodes synchronise

    From [start_sync] on one of two paired nodes to the last frame of the
    session: the calls each side makes on the frames of the other, and what
    the two stores hold afterwards. *)
From S2P Require Import Prelude Errors Crypto Cbor CborRef Entry Msg Item Negentropy OrderRefine OrderSpec Store StoreSpec JournalSpec NegExact Session SessionSpec.
From S2P Require Import Frame Limiter Noise NoiseSpec Driver DriverSpec LinkSpec LinkSync Node NodeSpec NodePair.
Open Scope N_scope.

Section Sync.
Context {cbor : Cbor} {crypto : Crypto}.

(** One call of [on_bytes] per frame, the outputs joined; an error ends it. *)
Fixpoint feed (jio : nat -> nat -> io_outcome) (id : N) (fs : list bytes) (now : N) (n : Node.t)
  : Node.t * result ApiError LinkIo.t :=
  match fs with
  | [] => (n, Ok LinkIo.default)
  | f :: fs =>
      match Node.on_bytes jio id f now n with
      | (n, Ok io) =>
          let '(n, r) := feed jio id fs now n in
          (n, io' ← r; Ok (LinkIo.mk (LinkIo.frames io ++ LinkIo.frames io') (LinkIo.events io ++ LinkIo.events io')))
      | (n, r) => (n, r)
      end
  end.

(** A link without a ticket, after quiet events. *)
Lemma after_ticketless d es : after (Link.mk d None) es = Link.mk d None.
Proof. unfold after. cbn. by destruct (established es). Qed.

Lemma stored_mono store store' : EntryStore.entries store ⊆ EntryStore.entries store' -> stored store <= stored store'.
Proof. intros H%map_subseteq_size. unfold stored. lia. Qed.

(** What [deliver] does to the driver, [feed] does to the node. *)
Lemma node_feed jio id now fs n d d' out store' : node_inv n -> Node.links n !! id = Some (Link.mk d None) ->
  deliver (Node.store n) jio now fs d = Some ((d', out), store') ->
  Node.last_now_us n <= now -> Forall (fun f => lenN f <= 65537) fs ->
  stored store' + 131073 < u32_max -> Forall not_closed (LinkOutput.events out) ->
  exists n', feed jio id fs now n =
      (n', Ok (LinkIo.mk (LinkOutput.frames out) (map (map_event id) (LinkOutput.events out)))) /\
    node_inv n' /\ Node.store n' = store' /\ Node.last_now_us n' <= now /\
    Node.links n' !! id = Some (Link.mk d' None).
Proof.
  revert n d d' out store'. induction fs as [|f fs IH]; intros n d d' out store' Hn Hl Hd Ht Hf Hroom Hq.
  { injection Hd as <- <- <-. by exists n. }
  pose proof (stored_mono _ _ (proj1 (deliver_extends _ _ _ _ _ _ _ Hd))) as Hgrow.
  cbn [deliver] in Hd. apply Forall_cons in Hf as [Hf1 Hf].
  destruct (LinkDriver.on_bytes (Node.store n) jio f now d) as [[[d1 o1] st1]|] eqn:E1; [|done].
  cbn [mbind option_bind fst snd] in Hd.
  destruct (deliver st1 jio now fs d1) as [[[d2 o2] st2]|] eqn:E2; [|done].
  cbn [mbind option_bind fst snd] in Hd. injection Hd as <- <- <-. cbn [LinkOutput.events LinkOutput.frames] in *.
  apply Forall_app in Hq as [Hq1 Hq2].
  destruct (node_on_bytes n jio id f now _ d1 o1 st1 Hn Hl E1 Ht ltac:(lia) Hq1) as (n1 & F1 & Hn1 & S1 & T1 & L1 & _).
  cbn [Link.ticket] in L1. rewrite after_ticketless in L1. subst st1.
  destruct (IH n1 d1 d2 o2 st2 Hn1 L1 E2 ltac:(lia) Hf Hroom Hq2) as (n2 & F2 & Hn2 & S2 & T2 & L2).
  exists n2. cbn [feed]. rewrite F1, F2. cbn [mbind result_bind LinkIo.frames LinkIo.events]. by rewrite map_app.
Qed.

(** [start_sync] on a live link, from what its driver does. *)
Lemma node_start_sync n id w d d' sid out : node_inv n -> Node.links n !! id = Some (Link.mk d None) ->
  Syncer.next_sid (LinkDriver.syncer d) + 2 <= u64_max ->
  LinkDriver.open_sync (Node.store n) (SyncWindow.into w) d = (d', Ok (sid, out)) -> LinkOutput.events out = [] ->
  LinkDriver.is_closed d' = false ->
  exists n', Node.start_sync id w n = (n', Ok (SyncStart.mk sid (LinkIo.mk (LinkOutput.frames out) []))) /\
    node_inv n' /\ Node.store n' = Node.store n /\ Node.last_now_us n' = Node.last_now_us n /\
    Node.links n' !! id = Some (Link.mk d' None).
Proof.
  intros Hn Hl Hsid Hd He Hc. unfold Node.start_sync. rewrite Hl. cbn [Link.driver]. rewrite Hd.
  pose proof (open_sync_call d (Node.store n) (SyncWindow.into w) (node_live n id _ Hn Hl) (ni_store _ _ Hn) Hsid) as H.
  rewrite Hd in H. destruct H as [H _].
  pose proof (finish_call_spec n id _ d' out Hl (co_tidy _ _ _ H)) as Hf. unfold Node.finish_call in *.
  destruct Hf as (E & _ & _). exists (called n id (Link.mk d None) d' out). rewrite E, He. split; [done|].
  split; [by apply called_inv|]. split; [done|]. split; [done|].
  unfold called. rewrite Hc, relinked_link. cbn [Link.ticket]. by rewrite after_ticketless.
Qed.

(** What a sync asks of two paired nodes: the sets of the window, with sizes
    that take one round trip at the default frame limit, entries that fit a
    frame of their own, and room for what arrives. *)
Record syncable (nA nB : Node.t) (dA dB : LinkDriver.t) (jio : nat -> nat -> io_outcome) (w : SyncWindow.t)
    (itemsA itemsB : list Item.t) (now : N) : Prop := {
  sc_items : EntryStore.snapshot (Node.store nA) (SyncWindow.into w) = Some itemsA /\
    EntryStore.snapshot (Node.store nB) (SyncWindow.into w) = Some itemsB;
  sc_small : lenN itemsA < 32 /\ lenN itemsB <= 121;
  sc_window : wf_window (SyncWindow.into w);
  sc_frameable : frameable (Node.store nA) 0;
  sc_storing : storing (jio 0%nat) (widest (Node.store nA) itemsA) (length itemsA) (Node.store nB);
  sc_sid : Syncer.next_sid (LinkDriver.syncer dA) + 2 <= u64_max;
  sc_time : Node.last_now_us nA <= now /\ Node.last_now_us nB <= now /\ in_life now dA /\ in_life now dB;
  sc_room : stored (Node.store nA) + 131073 < u32_max /\ stored (Node.store nB) + 131104 < u32_max }.

(** The syncers of a pair can hold a session. *)
Lemma paired_meeting nA nB a b dA dB tA tB k io w itemsA itemsB : paired nA nB a b dA dB tA tB k ->
  EntryStore.snapshot (Node.store nA) w = Some itemsA -> EntryStore.snapshot (Node.store nB) w = Some itemsB ->
  storing io (widest (Node.store nA) itemsA) (length itemsA) (Node.store nB) ->
  Syncer.next_sid (LinkDriver.syncer dA) + 2 <= u64_max ->
  stored (Node.store nB) + lenN itemsA < u32_max ->
  meeting (LinkDriver.syncer dA) (LinkDriver.syncer dB) (Node.store nA) (Node.store nB) io w itemsA itemsB.
Proof.
  intros [[HA HB] [LA LB] _ _ _ _ Hroles [CA CB] [ZA ZB]] Ea Eb Hj Hsid Hroom.
  pose proof (dl_wf _ (node_live nA a _ HA LA)) as [[IA _] _]. pose proof (dl_wf _ (node_live nB b _ HB LB)) as [[IB _] _].
  cbn [Link.driver] in *.
  assert (Hcap : forall s, Syncer.config s = SyncConfig.default -> Syncer.sessions s = ∅ ->
            good_config (Syncer.config s) /\ Syncer.open_sessions s < SyncConfig.max_sessions (Syncer.config s)).
  { intros s -> Hz. unfold Syncer.open_sessions. rewrite Hz. split; [by apply N.leb_le|by apply N.ltb_lt]. }
  pose proof (Hcap _ CA ZA) as [GA KA]. pose proof (Hcap _ CB ZB) as [GB KB].
  split; try done.
  - split_and!; [apply HA|apply HB|done].
  - split; [done|]. by rewrite ZB.
Qed.

Lemma paired_synchable nA nB a b dA dB tA tB k jio w itemsA itemsB now :
  paired nA nB a b dA dB tA tB (34 + k) -> syncable nA nB dA dB jio w itemsA itemsB now ->
  synchable dA dB tA tB (Node.store nA) (Node.store nB) jio (SyncWindow.into w) itemsA itemsB k.
Proof.
  intros Hp [[Ea Eb] [Hsa Hsb] Hw Hfr Hj Hsid _ [_ Hroom]].
  pose proof (paired_meeting _ _ _ _ _ _ _ _ _ _ _ _ _ Hp Ea Eb Hj Hsid ltac:(lia)) as Hm.
  destruct Hp as [_ _ [SA SB] Hlk [RA RB] [BA BB] _ [CA CB] _].
  split; [split; [done|]|done|done|done|done| | | |].
  - split; [done|]. rewrite CB. cbn. unfold FRAME_LIMIT_FLOOR. lia.
  - by rewrite CA.
  - by rewrite CA.
  - lia.
  - destruct RA as (_ & _ & RA), RB as (_ & _ & RB). split; [done|]. lia.
Qed.

Lemma sync_quiet evs : Forall not_closed (map Sync evs).
Proof. by induction evs; constructor. Qed.

(** The calls of one sync, and the pair they leave. *)
Record synced (nA nB nA' nB' : Node.t) (a b : N) (dA dB : LinkDriver.t) (sid : N) (w : SyncWindow.t)
    (itemsA itemsB : list Item.t) (jio : nat -> nat -> io_outcome) (now k : N) : Prop := {
  sn_calls : exists nA1 nB1 f0 f1 fs evs hv nd,
    Node.start_sync a w nA = (nA1, Ok (SyncStart.mk sid (LinkIo.mk [f0] []))) /\
    Node.on_bytes jio b f0 now nB = (nB1, Ok (LinkIo.mk [f1] [])) /\
    Node.on_bytes jio a f1 now nA1 = (nA', Ok (LinkIo.mk fs
      ((if decide (hv = [] /\ nd = []) then [] else [EvReconciled a sid hv nd]) ++ [EvSyncSessionClosed a sid true]))) /\
    feed jio b fs now nB1 = (nB', Ok (LinkIo.mk [] evs)) /\
    (forall i, i ∈ hv <-> i ∈ ids itemsA /\ i ∉ ids itemsB) /\
    (forall i, i ∈ nd <-> i ∈ ids itemsB /\ i ∉ ids itemsA);
  sn_run : exists sa1 sb1 outA outB hv nd,
    dialogue (LinkDriver.syncer dA) (LinkDriver.syncer dB) (Node.store nA) (Node.store nB) (jio 0%nat)
      (SyncWindow.into w) itemsA itemsB sa1 sb1 (Node.store nB') outA outB hv nd;
  sn_kept : Node.store nA' = Node.store nA;
  sn_clock : Node.last_now_us nA' <= now /\ Node.last_now_us nB' <= now;
  sn_pair : exists tA tB, paired nA' nB' a b (moved dA (spent (LinkDriver.syncer dA)) tA)
    (moved dB (LinkDriver.syncer dB) tB) tA tB k }.

Lemma node_session nA nB a b dA dB tA tB k w itemsA itemsB jio now :
  paired nA nB a b dA dB tA tB (34 + k) -> syncable nA nB dA dB jio w itemsA itemsB now ->
  exists nA' nB', synced nA nB nA' nB' a b dA dB (Syncer.next_sid (LinkDriver.syncer dA)) w itemsA itemsB jio now k.
Proof.
  intros Hp Hs. pose proof (paired_synchable _ _ _ _ _ _ _ _ _ _ _ _ _ _ Hp Hs) as Hy.
  pose proof Hp as [[HA HB] [LA LB] [SA SB] Hlk _ [BA BB] Hroles [CA CB] [ZA ZB]].
  pose proof Hs as [_ _ _ _ _ Hsid (TA & TB & FA & FB) [RA RB]].
  destruct (link_carries _ _ _ _ _ _ _ _ _ _ jio now Hy FA FB)
    as (dA1 & dB1 & f0 & f1 & fs & a' & b' & sa1 & sb1 & stB' & outA & outB & hv & nd & E0 & HcA & E1 & E2 & E3 & Hd & Hlk' & Ra & Rb & Hf & Hn).
  apply Forall_cons in Hf as [Hf0 Hf], Hf as [Hf1 Hf].
  destruct (node_start_sync nA a w dA dA1 _ _ HA LA Hsid E0 eq_refl) as (nA1 & X0 & IA1 & SA1 & TA1 & LA1).
  { done. }
  destruct (node_on_bytes nB jio b f0 now _ _ _ _ HB LB E1 TB ltac:(lia)) as (nB1 & X1 & IB1 & SB1 & TB1 & LB1 & _); [constructor|].
  rewrite <- SA1 in E2.
  destruct (node_on_bytes nA1 jio a f1 now _ _ _ _ IA1 LA1 E2 ltac:(by rewrite TA1) ltac:(rewrite SA1; lia) (sync_quiet _))
    as (nA' & X2 & IA2 & SA2 & TA2 & LA2 & _).
  rewrite <- SB1 in E3. cbn [Link.ticket] in *. rewrite after_ticketless in LA2, LB1.
  assert (Hroom : stored stB' + 131073 < u32_max).
  { destruct (dlg_grows _ _ _ _ _ _ _ _ _ _ _ _ _ _ _ Hd) as [_ Hsz], (sc_small _ _ _ _ _ _ _ _ _ Hs) as [Hsm _].
    unfold stored, lenN in *. lia. }
  destruct (node_feed jio b now fs nB1 dB1 _ _ stB' IB1 LB1 E3 ltac:(by rewrite TB1) Hf Hroom (sync_quiet _))
    as (nB' & X3 & IB2 & SB2 & TB2 & LB2).
  exists nA', nB'. pose proof Hd as [_ _ _ _ _ Hev _ _ _ _ (_ & Hhv & Hnd)]. split.
  - exists nA1, nB1, f0, f1, fs. eexists. exists hv, nd. split_and!; [exact X0|exact X1| |exact X3|done|done].
    rewrite X2, Hev, !map_app. cbn [LinkOutput.frames LinkOutput.events]. by case_decide.
  - rewrite SB2. eauto 10.
  - by rewrite SA2.
  - by rewrite TA2.
  - exists a', b'. by split.
Qed.

(** ** Both directions *)

(** Two stores that never disagree on an id. *)
Definition agree (S T : EntryStore.t) : Prop :=
  forall i e e', EntryStore.get S i = Some e -> EntryStore.get T i = Some e' -> e = e'.

Lemma agree_sym S T : agree S T -> agree T S.
Proof. intros H i e e' H1 H2. symmetry. by eapply H. Qed.

(** The members of a snapshot. *)
Lemma window_members S w l : StoreSpec.wf S -> EntryStore.snapshot S w = Some l ->
  Item.sorted l /\ forall x, x ∈ l <-> exists e, EntryStore.get S (Item.id x) = Some e /\
    Entry.sort_key e = Item.sort_key x /\ in_window w x = true.
Proof.
  intros HS E. destruct (snapshot_spec S w HS) as (l' & E' & Hs & M). rewrite E in E'. injection E' as <-.
  split; [done|]. intros x. rewrite M, elem_of_items_of by done. unfold EntryStore.get. naive_solver.
Qed.

(** Every entry of [T'] was in [T] or is in [S]. *)
Definition from (S T T' : EntryStore.t) : Prop :=
  forall i e, EntryStore.get T' i = Some e -> EntryStore.get T i = Some e \/ EntryStore.get S i = Some e.

Lemma drawn_from S T T' es : StoreSpec.wf S -> StoreSpec.wf T' -> drawn T T' es ->
  (forall e, e ∈ es -> exists i, EntryStore.get S i = Some e) -> from S T T'.
Proof.
  intros HS HT' Hdr Hes i e He. destruct (Hdr i e He) as [|Hin]; [by left|]. right. destruct (Hes e Hin) as [j Hj].
  destruct (wf_entries T' HT' i e He) as [Hi _], (wf_entries S HS j e Hj) as [Hj' _]. congruence.
Qed.

Lemma from_agree S T T' : agree S T -> from S T T' -> agree S T'.
Proof. intros Hag Hf i e e' H1 H2. destruct (Hf i e' H2) as [H|H]; [by eapply Hag|congruence]. Qed.

(** The window of a store that took entries from an agreeing one: what it
    held, and the items of the other that it now holds. *)
Lemma taken_window S T T' w itemsS itemsT : StoreSpec.wf S -> StoreSpec.wf T -> StoreSpec.wf T' -> agree S T ->
  EntryStore.entries T ⊆ EntryStore.entries T' -> from S T T' ->
  EntryStore.snapshot S w = Some itemsS -> EntryStore.snapshot T w = Some itemsT ->
  exists items, EntryStore.snapshot T' w = Some items /\ Item.sorted items /\
    forall x, x ∈ items <-> (x ∈ itemsS /\ is_Some (EntryStore.get T' (Item.id x))) \/ x ∈ itemsT.
Proof.
  intros HS HT HT' Hag Hsub Hfrom ES ET. pose proof (from_agree _ _ _ Hag Hfrom) as Hag'.
  destruct (window_members S w _ HS ES) as [_ M1], (window_members T w _ HT ET) as [_ M2].
  destruct (snapshot_spec T' w HT') as (items & E3 & _ & _). destruct (window_members T' w _ HT' E3) as [Hsort M3].
  exists items. split; [done|]. split; [done|].
  intros x. rewrite M3. split.
  - intros (e & He & Hk & Hw). destruct (Hfrom _ _ He) as [H|H]; [right; apply M2; by exists e|left].
    split; [apply M1|]; by exists e.
  - intros [[Hx [e' He']]|Hx].
    + apply M1 in Hx as (e & He & Hk & Hw). exists e'. pose proof (Hag' _ _ _ He He') as <-. by split_and!.
    + apply M2 in Hx as (e & He & Hk & Hw). exists e. split; [by eapply lookup_weaken|done].
Qed.

(** A store that took the entries of a window it missed has the union in
    that window. *)
Lemma taken_items S T T' w itemsS itemsT : StoreSpec.wf S -> StoreSpec.wf T -> StoreSpec.wf T' -> agree S T ->
  EntryStore.entries T ⊆ EntryStore.entries T' -> from S T T' ->
  EntryStore.snapshot S w = Some itemsS -> EntryStore.snapshot T w = Some itemsT ->
  (forall x, x ∈ itemsS -> is_Some (EntryStore.get T' (Item.id x))) ->
  exists items, EntryStore.snapshot T' w = Some items /\ Item.sorted items /\
    forall x, x ∈ items <-> x ∈ itemsS \/ x ∈ itemsT.
Proof.
  intros HS HT HT' Hag Hsub Hfrom ES ET Hst.
  destruct (taken_window S T T' w _ _ HS HT HT' Hag Hsub Hfrom ES ET) as (items & E & Hs & M).
  exists items. split; [done|]. split; [done|]. intros x. rewrite M. naive_solver.
Qed.

Lemma paired_sym nA nB a b dA dB tA tB k : paired nA nB a b dA dB tA tB k -> paired nB nA b a dB dA tB tA k.
Proof.
  intros [[? ?] [? ?] [? ?] ? [? ?] [? ?] Hr [? ?] [? ?]]. split; try done; [by apply linked_sym|].
  unfold Syncer.peer_parity in *. destruct (parity_cases (LinkDriver.syncer dA)) as [[Ea _]|[Ea _]]; rewrite Ea in *; lia.
Qed.

(** Room for what the other side has of the window is room for the union. *)
Lemma union_storing S T T' io w itemsS itemsT items : StoreSpec.wf S -> StoreSpec.wf T -> agree S T' ->
  EntryStore.entries T ⊆ EntryStore.entries T' ->
  EntryStore.snapshot S w = Some itemsS -> EntryStore.snapshot T w = Some itemsT ->
  (forall x, x ∈ items -> x ∈ itemsS \/ x ∈ itemsT) -> lenN items <= lenN itemsS + lenN itemsT ->
  storing io (N.max (widest S itemsS) (widest T itemsT)) (length itemsS + length itemsT) S ->
  storing io (widest T' items) (length items) S.
Proof.
  intros HS HT Hag Hsub ES ET Hmem Hlen Hst. eapply storing_weaken; [exact Hst| |unfold lenN in *; lia].
  apply widest_lub. intros x e Hx He. apply N.max_le_iff. destruct (Hmem x Hx) as [Hx'|Hx']; [left|right].
  - apply (widest_le _ _ (Item.id x)); [apply list_elem_of_fmap; eauto|].
    apply (window_members S w _ HS ES) in Hx' as (e' & He' & _). by rewrite <- (Hag _ _ _ He' He).
  - apply (widest_le _ _ (Item.id x)); [apply list_elem_of_fmap; eauto|].
    apply (window_members T w _ HT ET) in Hx' as (e' & He' & _).
    pose proof (lookup_weaken _ _ _ _ He' Hsub). unfold EntryStore.get in *. congruence.
Qed.

(** What a sync each way asks. *)
Record mutual (nA nB : Node.t) (dA dB : LinkDriver.t) (jio : nat -> nat -> io_outcome) (w : SyncWindow.t)
    (itemsA itemsB : list Item.t) (now : N) : Prop := {
  mu_forth : syncable nA nB dA dB jio w itemsA itemsB now;
  mu_small : lenN itemsA + lenN itemsB < 32;
  mu_frameable : frameable (Node.store nB) 0;
  mu_storing : storing (jio 0%nat) (N.max (widest (Node.store nA) itemsA) (widest (Node.store nB) itemsB))
    (length itemsA + length itemsB) (Node.store nA);
  mu_sid : Syncer.next_sid (LinkDriver.syncer dB) + 2 <= u64_max;
  mu_room : stored (Node.store nA) + 131104 < u32_max;
  mu_agree : agree (Node.store nA) (Node.store nB) }.

Lemma synced_store nA nB nA' nB' a b dA dB sid w itemsA itemsB jio now k : node_inv nA -> node_inv nB' ->
  synced nA nB nA' nB' a b dA dB sid w itemsA itemsB jio now k ->
  EntryStore.entries (Node.store nB) ⊆ EntryStore.entries (Node.store nB') /\
  (base.size (EntryStore.entries (Node.store nB')) <= base.size (EntryStore.entries (Node.store nB)) + length itemsA)%nat /\
  (forall x, x ∈ itemsA -> is_Some (EntryStore.get (Node.store nB') (Item.id x))) /\
  from (Node.store nA) (Node.store nB) (Node.store nB').
Proof.
  intros HA HB' [_ (sa1 & sb1 & outA & outB & hv & nd & [_ _ _ _ _ _ [_ Hj] [Hsub Hsz] Hst Hdr _]) _ _ _].
  split_and!; try done. eapply drawn_from; [apply HA|apply HB'|exact Hdr|].
  intros e (i & _ & He)%list_elem_of_omap. by exists i.
Qed.

(** The second session finds what it needs once the first is over. *)
Lemma mutual_back nA nB nA1 nB1 a b dA dB tA tB sid w itemsA itemsB items jio now k :
  mutual nA nB dA dB jio w itemsA itemsB now -> node_inv nA -> node_inv nB -> node_inv nB1 ->
  synced nA nB nA1 nB1 a b dA dB sid w itemsA itemsB jio now k ->
  from (Node.store nA) (Node.store nB) (Node.store nB1) ->
  EntryStore.snapshot (Node.store nB1) (SyncWindow.into w) = Some items -> Item.sorted items ->
  (forall x, x ∈ items <-> x ∈ itemsA \/ x ∈ itemsB) ->
  syncable nB1 nA1 (moved dB (LinkDriver.syncer dB) tB) (moved dA (spent (LinkDriver.syncer dA)) tA) jio w items itemsA now.
Proof.
  intros [[[EA EB] [HsA HsB] Hw Hfr Hj Hsid (TA & TB & FA & FB) [RA RB]] Hsm HfrB HjA HsidB RA2 Hag] HA HB HB1 Hs Hfrom Eit Hsort Hmem.
  destruct (synced_store _ _ _ _ _ _ _ _ _ _ _ _ _ _ _ HA HB1 Hs) as (Hsub & Hsz & _). destruct Hs as [_ _ Hkept [Hc1 Hc2] _].
  assert (Hlen : lenN items <= lenN itemsA + lenN itemsB).
  { rewrite <- lenN_app. unfold lenN. enough (length items <= length (itemsA ++ itemsB))%nat by lia.
    apply submseteq_length, NoDup_submseteq; [by apply Item.sorted_NoDup|]. intros x Hx. by apply elem_of_app, Hmem. }
  split; rewrite ?Hkept; try done; [lia| | |unfold stored, lenN in *; lia].
  - intros i e He. destruct (Hfrom i e He); [by eapply HfrB|by eapply Hfr].
  - eapply union_storing; [apply HA|apply HB|by eapply from_agree|done|exact EA|exact EB|by intros x Hx; apply Hmem|done|done].
Qed.

(** Two nodes synchronise. Over an idle link between two nodes, [start_sync]
    on one and the frames carried across: the opener returns one frame, the
    responder one answer, the opener its pushes with the exact set
    differences and the end of the session, and the responder, fed those
    frames, stores every entry of the opener's window that it missed, keeps
    its own and reports no error. The link is idle again and can carry the
    next sync. *)
Theorem nodes_sync nA nB a b dA dB tA tB k w itemsA itemsB jio now :
  paired nA nB a b dA dB tA tB (34 + k) -> syncable nA nB dA dB jio w itemsA itemsB now ->
  let sid := Syncer.next_sid (LinkDriver.syncer dA) in
  exists nA1 nA2 nB1 nB2 f0 f1 fs evs hv nd,
    Node.start_sync a w nA = (nA1, Ok (SyncStart.mk sid (LinkIo.mk [f0] []))) /\
    Node.on_bytes jio b f0 now nB = (nB1, Ok (LinkIo.mk [f1] [])) /\
    Node.on_bytes jio a f1 now nA1 = (nA2, Ok (LinkIo.mk fs
      ((if decide (hv = [] /\ nd = []) then [] else [EvReconciled a sid hv nd]) ++ [EvSyncSessionClosed a sid true]))) /\
    feed jio b fs now nB1 = (nB2, Ok (LinkIo.mk [] evs)) /\
    (forall i, i ∈ hv <-> i ∈ ids itemsA /\ i ∉ ids itemsB) /\
    (forall i, i ∈ nd <-> i ∈ ids itemsB /\ i ∉ ids itemsA) /\
    Node.store nA2 = Node.store nA /\
    EntryStore.entries (Node.store nB) ⊆ EntryStore.entries (Node.store nB2) /\
    (forall x, x ∈ itemsA -> is_Some (EntryStore.get (Node.store nB2) (Item.id x))) /\
    exists dA' dB' tA' tB', paired nA2 nB2 a b dA' dB' tA' tB' k.
Proof.
  intros Hp Hs sid. destruct (node_session _ _ _ _ _ _ _ _ _ _ _ _ jio _ Hp Hs) as (nA2 & nB2 & Hn).
  pose proof (sn_pair _ _ _ _ _ _ _ _ _ _ _ _ _ _ _ Hn) as (tA2 & tB2 & [[_ HB2] _ _ _ _ _ _ _ _]).
  destruct (synced_store _ _ _ _ _ _ _ _ _ _ _ _ _ _ _ (proj1 (pr_inv _ _ _ _ _ _ _ _ _ Hp)) HB2 Hn) as (Hsub & _ & Hst & _).
  destruct Hn as [(nA1 & nB1 & f0 & f1 & fs & evs & hv & nd & ? & ? & ? & ? & ? & ?) _ Hk _ (tA' & tB' & Hp')].
  exists nA1, nA2, nB1, nB2, f0, f1, fs, evs, hv, nd. split_and!; try done. by do 4 eexists.
Qed.

(** C2: two nodes with small windows converge. One sync each way over the same
    link at the default frame limit, between nodes whose windows hold fewer
    than 32 items together (so that a message is a list of ids, one round trip
    ends a sync, and no fingerprint is compared), whose stores agree on the ids
    they share, whose entries each fit a frame, and which have nonces, session
    ids and storage to spare: both stores end with the same set of the window,
    the union of what the two held, whatever collides. For larger windows see
    [nodes_unite], where a mistaken fingerprint can hide a difference. *)
Theorem nodes_converge nA nB a b dA dB tA tB k w itemsA itemsB jio now :
  paired nA nB a b dA dB tA tB (34 + (34 + k)) -> mutual nA nB dA dB jio w itemsA itemsB now ->
  exists nA1 nB1 nA2 nB2 dA1 dB1 items,
    synced nA nB nA1 nB1 a b dA dB (Syncer.next_sid (LinkDriver.syncer dA)) w itemsA itemsB jio now (34 + k) /\
    synced nB1 nA1 nB2 nA2 b a dB1 dA1 (Syncer.next_sid (LinkDriver.syncer dB)) w items itemsA jio now k /\
    EntryStore.snapshot (Node.store nA2) (SyncWindow.into w) = Some items /\
    EntryStore.snapshot (Node.store nB2) (SyncWindow.into w) = Some items /\
    (forall x, x ∈ items <-> x ∈ itemsA \/ x ∈ itemsB) /\
    EntryStore.entries (Node.store nA) ⊆ EntryStore.entries (Node.store nA2) /\
    EntryStore.entries (Node.store nB) ⊆ EntryStore.entries (Node.store nB2).
Proof.
  intros Hp Hm. pose proof Hm as [Hf _ _ _ _ _ Hag]. pose proof Hf as [[EA EB] _ _ _ _ _ _ _].
  destruct (node_session _ _ _ _ _ _ _ _ _ _ _ _ jio _ Hp Hf) as (nA1 & nB1 & H1).
  destruct (pr_inv _ _ _ _ _ _ _ _ _ Hp) as [HA HB].
  destruct (sn_pair _ _ _ _ _ _ _ _ _ _ _ _ _ _ _ H1) as (tA1 & tB1 & Hp1).
  destruct (pr_inv _ _ _ _ _ _ _ _ _ Hp1) as [HA1 HB1]. pose proof (sn_kept _ _ _ _ _ _ _ _ _ _ _ _ _ _ _ H1) as Hk1.
  destruct (synced_store _ _ _ _ _ _ _ _ _ _ _ _ _ _ _ HA HB1 H1) as (Sub1 & _ & St1 & From1).
  destruct (taken_items (Node.store nA) (Node.store nB) (Node.store nB1) _ _ _ (ni_store _ _ HA) (ni_store _ _ HB)
    (ni_store _ _ HB1) Hag Sub1 From1 EA EB St1) as (items & E1 & Hsort & Hmem).
  pose proof (mutual_back _ _ _ _ _ _ _ _ tA1 tB1 _ _ _ _ items _ _ _ Hm HA HB HB1 H1 From1 E1 Hsort Hmem) as Hback.
  destruct (node_session _ _ _ _ _ _ _ _ _ _ _ _ jio _ (paired_sym _ _ _ _ _ _ _ _ _ Hp1) Hback) as (nB2 & nA2 & H2).
  destruct (sn_pair _ _ _ _ _ _ _ _ _ _ _ _ _ _ _ H2) as (tB2 & tA2 & Hp2).
  destruct (pr_inv _ _ _ _ _ _ _ _ _ Hp2) as [HB2 HA2]. pose proof (sn_kept _ _ _ _ _ _ _ _ _ _ _ _ _ _ _ H2) as Hk2.
  destruct (synced_store _ _ _ _ _ _ _ _ _ _ _ _ _ _ _ HB1 HA2 H2) as (Sub2 & _ & St2 & From2).
  rewrite Hk1 in *.
  destruct (taken_items (Node.store nB1) (Node.store nA) (Node.store nA2) _ _ _ (ni_store _ _ HB1) (ni_store _ _ HA)
    (ni_store _ _ HA2) (agree_sym _ _ (from_agree _ _ _ Hag From1)) Sub2 From2 E1 EA St2) as (items2 & E2 & Hsort2 & Hmem2).
  assert (items2 = items) as ->.
  { apply Item.sorted_ext; [done|done|]. intros x. rewrite Hmem2, Hmem. naive_solver. }
  exists nA1, nB1, nA2, nB2. do 2 eexists. exists items. split_and!; [exact H1|exact H2|done|by rewrite Hk2|done|done|by rewrite Hk2].
Qed.

End Sync.

(** ** Concrete instances *)

Definition create_left : call := CreateEntry IoOk 1 [byte_of 7] 500.
Definition create_right : call := CreateEntry IoOk 2 [byte_of 8] 600.

(** A node that keeps a journal. *)
Definition opened_node : Node.t :=
  match Node.open sample_identity [] with Ok n => n | _ => sample_node end.

Lemma opened_reachable : reachable opened_node [].
Proof. apply (r_open sample_identity []). vm_compute. reflexivity. Qed.

(** Two nodes with one entry each, one in memory and one in its journal. *)
Definition left_node : Node.t := (step_call create_left sample_node).1.
Definition right_node : Node.t := (step_call create_right opened_node).1.

Definition sample_window : SyncWindow.t := SyncWindow.mk 0 10000.
Definition items_in (n : Node.t) : list Item.t :=
  default [] (EntryStore.snapshot (Node.store n) (SyncWindow.into sample_window)).

Lemma left_fits : fits sample_node create_left.
Proof. split_and!; vm_compute; try discriminate; reflexivity. Qed.

Lemma right_fits : fits opened_node create_right.
Proof. split_and!; vm_compute; try discriminate; reflexivity. Qed.

Lemma left_inv : node_inv left_node.
Proof. exact (proj1 (reachable_spec _ _ (reachable_step _ _ _ sample_reachable left_fits))). Qed.

Lemma right_inv : node_inv right_node.
Proof. exact (proj1 (reachable_spec _ _ (reachable_step _ _ _ opened_reachable right_fits))). Qed.

Lemma right_storing : storing (fun _ => IoOk) (widest (Node.store left_node) (items_in left_node))
    (length (items_in left_node)) (Node.store right_node).
Proof.
  set (e := Entry.sign (Node.signing_key opened_node) 600 2 [byte_of 8]).
  assert (Hs : Node.store right_node = (EntryStore.insert sample_journal e IoOk).1) by (vm_compute; reflexivity).
  assert (He : Entry.wf e).
  { apply Entry.wf_sign; [done..|vm_compute; discriminate]. }
  pose proof (insert_journaled sample_journal [] e IoOk sample_journaled He) as H.
  assert (Hr : (EntryStore.insert sample_journal e IoOk).2 = Ok true) by (vm_compute; reflexivity).
  rewrite Hs. destruct (EntryStore.insert sample_journal e IoOk) as [st r] eqn:E. cbn [snd fst] in *. subst r.
  destruct H as (_ & Hjs & Hj). unfold storing. rewrite Hj. split; [by eexists|]. split; [done|].
  subst st. split_and!; vm_compute; discriminate.
Qed.

(** Checking every entry of a store. *)
Lemma entries_check (P : bytes -> Entry.t -> bool) store :
  forallb (fun p => P p.1 p.2) (map_to_list (EntryStore.entries store)) = true ->
  forall i e, EntryStore.get store i = Some e -> P i e = true.
Proof.
  intros H i e He. rewrite forallb_forall in H. apply (H (i, e)), list_elem_of_In, elem_of_map_to_list, He.
Qed.

Definition frames_alone (e : Entry.t) : bool :=
  match encode_message (MGossipPush (GossipPush.mk [e] 0)) with Ok _ => true | _ => false end.

Lemma frameable_check store :
  forallb (fun p => frames_alone p.2) (map_to_list (EntryStore.entries store)) = true -> frameable store 0.
Proof.
  intros H i e He. pose proof (entries_check (fun _ e => frames_alone e) store H i e He) as Hf.
  unfold frames_alone in Hf. cbv beta in Hf. destruct (encode_message _) as [b| |]; [by eexists|done|done].
Qed.

Definition missing (store : EntryStore.t) (i : bytes) : bool :=
  match EntryStore.get store i with None => true | Some _ => false end.

Lemma disjoint_check S T : forallb (fun p => missing T p.1) (map_to_list (EntryStore.entries S)) = true -> agree S T.
Proof.
  intros H i e e' He He'. pose proof (entries_check (fun i _ => missing T i) S H i e He) as Hm.
  unfold missing in Hm. cbv beta in Hm. by rewrite He' in Hm.
Qed.

Lemma left_right_agree : agree (Node.store left_node) (Node.store right_node).
Proof. apply disjoint_check. vm_compute. reflexivity. Qed.

(** The two nodes meet and their link is idle. *)
Lemma sample_met : exists nA nB dA dB tA tB,
  paired nA nB 0 0 dA dB tA tB (34 + (34 + 0)) /\ Node.store nA = Node.store left_node /\ Node.store nB = Node.store right_node /\
  mutual nA nB dA dB (fun _ _ => IoOk) sample_window (items_in left_node) (items_in right_node) 2000.
Proof.
  assert (HtA : Node.last_now_us left_node <= 2000) by (vm_compute; discriminate).
  assert (HtB : Node.last_now_us right_node <= 2000) by (vm_compute; discriminate).
  assert (HrA : stored (Node.store left_node) + 131073 < u32_max) by (vm_compute; reflexivity).
  assert (HrB : stored (Node.store right_node) + 131073 < u32_max) by (vm_compute; reflexivity).
  assert (Hadmit : is_Some (HandshakeLimiter.admit_handshake (Node.limiter right_node) [byte_of 9] 2000).2)
    by (vm_compute; eexists; reflexivity).
  destruct (nodes_meet left_node right_node (replicate 32 (byte_of 5)) (replicate 32 (byte_of 6)) [byte_of 9] 2000
    (fun _ _ => IoOk) (34 + (34 + 0)) left_inv right_inv HtA HtB HrA HrB Hadmit ltac:(vm_compute; discriminate))
    as (nA1 & nA2 & nA3 & nB1 & nB2 & nB3 & nB4 & f1 & f2 & f3 & f4 & f5 & dA & dB & tA & tB & _ & _ & _ & _ & _ &
        _ & _ & _ & _ & Hp & [SA SB] & [TA TB] & (OA & CA & NA) & (OB & CB & NB)).
  exists nA3, nB4, dA, dB, tA, tB. split; [exact Hp|]. split; [exact SA|]. split; [exact SB|].
  assert (Hlife : forall d, LinkDriver.opened_at_us d = 2000 -> LinkDriver.config d = LinkDriverConfig.default -> in_life 2000 d).
  { intros d HO HC. unfold in_life. rewrite HO, HC. vm_compute. reflexivity. }
  split; [split|..]; rewrite ?SA, ?SB.
  - split; vm_compute; reflexivity.
  - split; vm_compute; [reflexivity|discriminate].
  - split; vm_compute; discriminate.
  - apply frameable_check. vm_compute. reflexivity.
  - exact right_storing.
  - unfold u64_max. lia.
  - rewrite TA, TB. split_and!; [lia|lia|by apply Hlife|by apply Hlife].
  - split; vm_compute; reflexivity.
  - vm_compute. reflexivity.
  - apply frameable_check. vm_compute. reflexivity.
  - vm_compute. reflexivity.
  - unfold u64_max. lia.
  - vm_compute. reflexivity.
  - exact left_right_agree.
Qed.

Lemma nodes_sync_witness : exists nB2,
  length (items_in left_node) = 1%nat /\
  forall x, x ∈ items_in left_node -> is_Some (EntryStore.get (Node.store nB2) (Item.id x)).
Proof.
  destruct sample_met as (nA & nB & dA & dB & tA & tB & Hp & _ & _ & [Hs _ _ _ _ _ _]).
  destruct (nodes_sync nA nB 0 0 dA dB tA tB (34 + 0) sample_window _ _ (fun _ _ => IoOk) 2000 Hp Hs)
    as (nA1 & nA2 & nB1 & nB2 & f0 & f1 & fs & evs & hv & nd & _ & _ & _ & _ & _ & _ & _ & _ & Hst & _).
  exists nB2. split; [vm_compute; reflexivity|exact Hst].
Defined.

Lemma nodes_converge_witness : exists nA2 nB2 items,
  EntryStore.snapshot (Node.store nA2) (SyncWindow.into sample_window) = Some items /\
  EntryStore.snapshot (Node.store nB2) (SyncWindow.into sample_window) = Some items /\
  forall x, x ∈ items <-> x ∈ items_in left_node \/ x ∈ items_in right_node.
Proof.
  destruct sample_met as (nA & nB & dA & dB & tA & tB & Hp & _ & _ & Hm).
  destruct (nodes_converge nA nB 0 0 dA dB tA tB 0 sample_window _ _ (fun _ _ => IoOk) 2000 Hp Hm)
    as (nA1 & nB1 & nA2 & nB2 & dA1 & dB1 & items & _ & _ & EA & EB & Hmem & _).
  exists nA2, nB2, items. split; [exact EA|]. split; [exact EB|exact Hmem].
Defined.
