(* ===== verification/NodeRounds.v ===== *)
(** * Two nodes synchronise windows of any size

    [start_sync] between two paired nodes whose windows need not fit one
    answer: the frames go back and forth until the responder has nothing to
    send. At the default frame limit the exchange is the one of [NegLimit],
    carried by [LinkRounds] over the link of the two nodes. *)
From S2P Require Import Prelude Errors Crypto Cbor CborRef Entry Msg Item Bound NegStore Negentropy OrderRefine OrderSpec Store StoreSpec JournalSpec NegExact.
From S2P Require Import NegRanges NegRun NegReply NegGeneral NegCut NegLimit Session SessionSpec SessionRounds.
From S2P Require Import Frame Limiter Noise NoiseSpec Driver DriverSpec LinkSpec LinkSync LinkRounds Node NodeSpec NodePair NodeSync.
Open Scope N_scope.

Section Rounds.
Context {cbor : Cbor} {crypto : Crypto}.

(** The frames [fs] to the node [nA], what it returns to [nB], and so on
    until [nB] returns none. *)
Fixpoint shuttle (fuel : nat) (jio : nat -> nat -> io_outcome) (a b : N) (now : N) (nA nB : Node.t) (fs : list bytes)
    (evA evB : list Event) : option (Node.t * Node.t * list Event * list Event) :=
  match fs, fuel with
  | [], _ => Some (nA, nB, evA, evB)
  | _, O => None
  | _, S fuel =>
      match feed jio a fs now nA with
      | (nA, Ok ioA) =>
          match feed jio b (LinkIo.frames ioA) now nB with
          | (nB, Ok ioB) =>
              shuttle fuel jio a b now nA nB (LinkIo.frames ioB) (evA ++ LinkIo.events ioA) (evB ++ LinkIo.events ioB)
          | _ => None
          end
      | _ => None
      end
  end.

(** What a sync asks of two paired nodes: the sets of the window, with ids
    that name one item each, entries that fit a frame of their own, a
    responder with room for what arrives, in its journal too if it has
    one. *)
Record reconcilable (nA nB : Node.t) (dA dB : LinkDriver.t) (jio : nat -> nat -> io_outcome) (w : SyncWindow.t)
    (itemsA itemsB : list Item.t) (now : N) : Prop := {
  rc_items : EntryStore.snapshot (Node.store nA) (SyncWindow.into w) = Some itemsA /\
    EntryStore.snapshot (Node.store nB) (SyncWindow.into w) = Some itemsB;
  rc_consistent : consistent itemsA itemsB;
  rc_window : wf_window (SyncWindow.into w);
  rc_frameable : frameable (Node.store nA) 0;
  rc_storing : storing (jio 0%nat) (widest (Node.store nA) itemsA) (length itemsA) (Node.store nB);
  rc_sid : Syncer.next_sid (LinkDriver.syncer dA) + 2 <= u64_max;
  rc_time : Node.last_now_us nA <= now /\ Node.last_now_us nB <= now /\ in_life now dA /\ in_life now dB;
  rc_room : stored (Node.store nA) + 131073 < u32_max /\ stored (Node.store nB) + lenN itemsA + 131073 < u32_max }.

(** ** The turns *)

Section Turns.
Context (n0A n0B : Node.t) (dA dB : LinkDriver.t) (w : SortKeyWindow.t) (itemsA itemsB : list Item.t).
Context (jio : nat -> nat -> io_outcome) (now a b : N).

Local Notation sa := (LinkDriver.syncer dA).
Local Notation sb := (LinkDriver.syncer dB).
Local Notation stA := (Node.store n0A).
Local Notation stB := (Node.store n0B).

Context (Hmeet : meeting sa sb stA stB (jio 0%nat) w itemsA itemsB).
Context (R : nat -> bytes -> list bytes -> list bytes -> Prop) (F : list bytes -> list bytes -> Prop).
Context (Hrounds : rounds (sealed sa itemsA true) (sealed sb itemsB false) (ids itemsA) R F).
Context (Hidle : FrameDecoder.buf (LinkDriver.decoder dA) = [] /\ FrameDecoder.buf (LinkDriver.decoder dB) = []).
Context (Hlife : in_life now dA /\ in_life now dB).
Context (Hlims : framed (Syncer.config sa) /\ framed (Syncer.config sb)).
Context (Httl : SyncConfig.push_ttl (Syncer.config sa) <= u64_max).
Context (Hfr : frameable stA (SyncConfig.push_ttl (Syncer.config sa))).
Context (Hroom : stored stA + 131073 < u32_max /\ stored stB + lenN itemsA + 131073 < u32_max).

Local Notation carrying := (carrying dA dB stA stB itemsA itemsB jio R).
Local Notation carried := (carried dA dB stA stB itemsA jio F).

(** The two nodes while the session runs: their links hold the drivers with
    these syncers and transports. *)
Record nodes_at (nA nB : Node.t) (saa sbb : Syncer.t) (st : EntryStore.t) (ta tb : TransportState.t) : Prop := {
  na_inv : node_inv nA /\ node_inv nB;
  na_stores : Node.store nA = stA /\ Node.store nB = st;
  na_clocks : Node.last_now_us nA <= now /\ Node.last_now_us nB <= now;
  na_links : Node.links nA !! a = Some (Link.mk (moved dA saa ta) None) /\
    Node.links nB !! b = Some (Link.mk (moved dB sbb tb) None) }.

Lemma grown_room hv st : grown_by stA stB itemsA (jio 0%nat) hv st -> stored st + 131073 < u32_max.
Proof.
  intros (_ & _ & _ & Hg & _ & Hsz).
  pose proof (pushed_size_le dA dB stA stB w itemsA itemsB jio Hmeet hv (fun i Hi => proj1 (Hg i Hi))) as Hp.
  destruct Hroom as [_ H]. unfold stored, pushed_size, lenN in *. lia.
Qed.

Lemma nodes_turn n k m hv nd saa sbb st ta tb fs nA nB :
  carrying n k m hv nd saa sbb st ta tb fs -> nodes_at nA nB saa sbb st ta tb ->
  exists nA' nB' saa' sbb' st' ta' tb' gs gs' hn nn evA evB,
    feed jio a fs now nA = (nA', Ok (LinkIo.mk gs (map (map_event a) (map Sync evA)))) /\
    feed jio b gs now nB = (nB', Ok (LinkIo.mk gs' (map (map_event b) (map Sync evB)))) /\
    nodes_at nA' nB' saa' sbb' st' ta' tb' /\ extends st st' /\ same_ids (needed evA) nn /\
    ((gs' = [] /\ carried n (hv ++ hn) (nd ++ nn) saa' sbb' st' ta' tb') \/
     exists m' k', k = S k' /\ carrying n k' m' (hv ++ hn) (nd ++ nn) saa' sbb' st' ta' tb' gs').
Proof.
  intros Hc [[IA IB] [SA SB] [TA TB] [LA LB]].
  destruct (link_turn dA dB stA stB w itemsA itemsB jio now Hmeet R F Hrounds Hidle Hlife Hlims Httl Hfr _ _ _ _ _ _ _ _ _ _ _ Hc)
    as (saa' & sbb' & st' & ta' & tb' & gs & gs' & hn & nn & evA & evB & D1 & D2 & Hneed & L1 & L2 & Hnext).
  assert (Hst : stored st' + 131073 < u32_max).
  { destruct Hnext as [[_ [_ Hg _ _ _]]|(m' & k' & _ & [Hgo _ _ _ _])]; [by eapply grown_room|].
    by eapply grown_room, (go_st _ _ _ _ _ _ _ _ _ _ _ _ _ _ _ Hgo). }
  destruct (node_feed jio a now fs nA (moved dA saa ta) _ _ stA IA LA ltac:(by rewrite SA) TA L1 (proj1 Hroom) (sync_quiet _))
    as (nA' & F1 & IA' & SA' & TA' & LA').
  destruct (node_feed jio b now gs nB (moved dB sbb tb) _ _ st' IB LB ltac:(by rewrite SB) TB L2 Hst (sync_quiet _))
    as (nB' & F2 & IB' & SB' & TB' & LB').
  exists nA', nB', saa', sbb', st', ta', tb', gs, gs', hn, nn, evA, evB. split; [exact F1|]. split; [exact F2|].
  split; [by split|]. split; [by eapply deliver_extends|]. by split.
Qed.

Lemma nodes_carry n k m hv nd saa sbb st ta tb fs nA nB evA evB :
  carrying n k m hv nd saa sbb st ta tb fs -> nodes_at nA nB saa sbb st ta tb ->
  exists nA' nB' st' ta' tb' hv' nn eA eB,
    shuttle (S k) jio a b now nA nB fs evA evB =
      Some (nA', nB', evA ++ map (map_event a) (map Sync eA), evB ++ map (map_event b) (map Sync eB)) /\
    nodes_at nA' nB' (spent sa) sb st' ta' tb' /\ extends st st' /\ same_ids (needed eA) nn /\
    carried n hv' (nd ++ nn) (spent sa) sb st' ta' tb'.
Proof.
  revert m hv nd saa sbb st ta tb fs nA nB evA evB.
  induction k as [|k IH]; intros m hv nd saa sbb st ta tb fs nA nB evA evB Hc Hn;
    destruct (nodes_turn _ _ _ _ _ _ _ _ _ _ _ _ _ Hc Hn)
      as (nA' & nB' & saa' & sbb' & st' & ta' & tb' & gs & gs' & hn & nn & eA & eB & F1 & F2 & Hn' & Hext & Hneed & Hnext);
    pose proof (conveyed_sizes _ _ _ _ (cg_frames _ _ _ _ _ _ _ _ _ _ _ _ _ _ _ _ _ _ _ Hc)) as [_ Hlen];
    (destruct fs as [|f fs]; [done|]); cbn [shuttle]; rewrite F1; cbn [LinkIo.frames LinkIo.events]; rewrite F2;
    cbn [LinkIo.frames LinkIo.events];
    destruct Hnext as [[-> Hd]|(m' & k' & Ek & Hc')]; try done.
  - pose proof (cd_syncers _ _ _ _ _ _ _ _ _ _ _ _ _ _ _ Hd) as [-> ->].
    exists nA', nB', st', ta', tb', (hv ++ hn), nn, eA, eB. by split_and!.
  - pose proof (cd_syncers _ _ _ _ _ _ _ _ _ _ _ _ _ _ _ Hd) as [-> ->].
    exists nA', nB', st', ta', tb', (hv ++ hn), nn, eA, eB. by split_and!.
  - injection Ek as <-.
    destruct (IH _ _ _ _ _ _ _ _ _ _ _ (evA ++ map (map_event a) (map Sync eA)) (evB ++ map (map_event b) (map Sync eB)) Hc' Hn')
      as (nA2 & nB2 & st2 & ta2 & tb2 & hv2 & nn2 & eA2 & eB2 & E & Hn2 & Hext2 & Hneed2 & Hd).
    exists nA2, nB2, st2, ta2, tb2, hv2, (nn ++ nn2), (eA ++ eA2), (eB ++ eB2).
    split; [rewrite !map_app, !app_assoc; exact E|]. split; [done|]. split; [by etrans|]. split; [|by rewrite app_assoc].
    rewrite needed_app. by apply same_ids_app.
Qed.

End Turns.

(** ** One sync *)

(** The calls of one sync of [itemsA] to [itemsB] in at most [k] + 1 turns,
    and the pair they leave. *)
Record reconciled (nA nB nA' nB' : Node.t) (a b : N) (dA dB : LinkDriver.t) (w : SyncWindow.t)
    (itemsA itemsB : list Item.t) (jio : nat -> nat -> io_outcome) (now : N) (k : nat) (n : N) : Prop := {
  re_calls : exists nA1 nB1 f0 f1 evs evB,
    Node.start_sync a w nA = (nA1, Ok (SyncStart.mk (Syncer.next_sid (LinkDriver.syncer dA)) (LinkIo.mk [f0] []))) /\
    Node.on_bytes jio b f0 now nB = (nB1, Ok (LinkIo.mk [f1] [])) /\
    shuttle (S k) jio a b now nA1 nB1 [f1] [] [] = Some (nA', nB', map (map_event a) (map Sync evs), evB) /\
    (forall i, i ∈ needed evs -> i ∈ ids itemsB /\ i ∉ ids itemsA) /\
    (confused itemsA itemsB \/ forall i, i ∈ ids itemsB -> i ∉ ids itemsA -> i ∈ needed evs);
  re_kept : Node.store nA' = Node.store nA;
  re_storing : storing (jio 0%nat) (widest (Node.store nA) itemsA) 0 (Node.store nB');
  re_grown : extends (Node.store nB) (Node.store nB') /\
    stored (Node.store nB') <= stored (Node.store nB) + lenN itemsA;
  re_from : forall i e, EntryStore.get (Node.store nB') i = Some e ->
    EntryStore.get (Node.store nB) i = Some e \/ EntryStore.get (Node.store nA) i = Some e;
  re_stored : confused itemsA itemsB \/ forall x, x ∈ itemsA -> is_Some (EntryStore.get (Node.store nB') (Item.id x));
  re_clocks : Node.last_now_us nA' <= now /\ Node.last_now_us nB' <= now;
  re_pair : exists tA tB, paired nA' nB' a b (moved dA (spent (LinkDriver.syncer dA)) tA)
    (moved dB (LinkDriver.syncer dB) tB) tA tB n }.

(** What the end of the exchange says of the two windows. *)
Lemma live_reports itemsA itemsB hv nd asked : consistent itemsA itemsB -> NegLimit.live itemsA itemsB [] hv nd ->
  same_ids asked nd ->
  (forall i, i ∈ asked -> i ∈ ids itemsB /\ i ∉ ids itemsA) /\
  (confused itemsA itemsB \/
    (forall i, i ∈ ids itemsB -> i ∉ ids itemsA -> i ∈ asked) /\ forall i, i ∈ ids itemsA -> i ∉ ids itemsB -> i ∈ hv).
Proof.
  intros Hcon Hl [Hs _]. destruct (live_final _ _ Hcon _ _ Hl) as (_ & Hnd & Hc).
  split; [intros i Hi; by apply Hnd, Hs|]. destruct Hc as [|[C1 C2]]; [by left|right].
  split; [|exact C1]. intros i H1 H2. by apply Hs, C2.
Qed.

(** The responder has the initiator's window once it was pushed what it
    missed. *)
Lemma grown_covers stA stB io st w itemsA itemsB hv : StoreSpec.wf stB -> EntryStore.snapshot stB w = Some itemsB ->
  grown_by stA stB itemsA io hv st -> (forall i, i ∈ ids itemsA -> i ∉ ids itemsB -> i ∈ hv) ->
  forall x, x ∈ itemsA -> is_Some (EntryStore.get st (Item.id x)).
Proof.
  intros Hwf Hb (_ & _ & Hsub & Hg & _) Hall x Hx. destruct (decide (Item.id x ∈ ids itemsB)) as [Hin|Hout].
  - destruct (sealed_facts _ _ _ Hwf Hb) as (_ & _ & _ & _ & Hheld).
    apply list_elem_of_fmap in Hin as (y & Hid & Hy). destruct (Hheld y Hy) as [e He].
    exists e. rewrite Hid. by eapply lookup_weaken.
  - apply Hg, Hall; [|done]. apply list_elem_of_fmap. eauto.
Qed.

Lemma node_rounds nA nB a b dA dB tA tB w itemsA itemsB jio now k n :
  paired nA nB a b dA dB tA tB (N.of_nat k + lenN itemsA + n + 2) -> reconcilable nA nB dA dB jio w itemsA itemsB now ->
  trips itemsA itemsB <= N.of_nat k ->
  exists nA' nB', reconciled nA nB nA' nB' a b dA dB w itemsA itemsB jio now k n.
Proof.
  intros Hp [[Ea Eb] Hcon Hw Hfr Hj Hsid (TA & TB & FA & FB) [RA RB]] Hk.
  pose proof (paired_meeting _ _ _ _ _ _ _ _ _ _ _ _ _ Hp Ea Eb Hj Hsid ltac:(lia)) as Hmeet.
  destruct (meeting_rounds _ _ _ _ _ _ _ _ Hmeet Hcon) as [Hr Hop]. specialize (Hop k Hk).
  pose proof Hp as [[HA HB] [LA LB] [SA SB] Hlk [YA YB] Hidle Hroles [CA CB] [ZA ZB]].
  assert (Hlims : framed (Syncer.config (LinkDriver.syncer dA)) /\ framed (Syncer.config (LinkDriver.syncer dB))).
  { rewrite CA, CB. split; vm_compute; discriminate. }
  assert (Httl : SyncConfig.push_ttl (Syncer.config (LinkDriver.syncer dA)) = 0) by by rewrite CA.
  assert (HfrA : frameable (Node.store nA) (SyncConfig.push_ttl (Syncer.config (LinkDriver.syncer dA)))) by by rewrite Httl.
  assert (Httl' : SyncConfig.push_ttl (Syncer.config (LinkDriver.syncer dA)) <= u64_max) by by rewrite Httl.
  destruct (link_opens dA dB _ _ _ _ _ jio now Hmeet _ _ Hr Hidle (conj FA FB) Hlims Httl' Hw n k tA tB SA SB Hlk Hop)
    as (dA1 & f0 & f1 & a1 & b1 & saa & sbb & E0 & -> & E1 & Hl0 & Hc).
  { destruct YA as (_ & _ & ?). lia. }
  { destruct YB as (_ & _ & ?). lia. }
  destruct (node_start_sync nA a w dA _ _ _ HA LA Hsid E0 eq_refl eq_refl) as (nA1 & X0 & IA1 & SA1 & TA1 & LA1).
  destruct (node_on_bytes nB jio b f0 now _ _ _ _ HB LB E1 TB ltac:(lia)) as (nB1 & X1 & IB1 & SB1 & TB1 & LB1 & _); [constructor|].
  rewrite after_ticketless in LB1.
  destruct (nodes_carry nA nB dA dB _ _ _ jio now a b Hmeet _ _ Hr Hidle (conj FA FB) Hlims Httl' HfrA (conj RA RB)
    _ _ _ _ _ _ _ _ _ _ _ nA1 nB1 [] [] Hc)
    as (nA' & nB' & st' & ta' & tb' & hv' & nn & eA & eB & E & [[IA' IB'] [SA' SB'] [TA' TB'] [LA' LB']] & Hext & Hneed & Hd).
  { split; [done| |rewrite TA1, TB1; split; [done|lia]|done]. by split. }
  destruct Hd as [_ Hg HF Hlk' [RA' RB']]. pose proof Hg as (_ & Hj' & Hsub & Hown & Hfrom & Hsz).
  destruct (live_reports _ _ _ _ _ Hcon HF Hneed) as [Hask Hcase].
  exists nA', nB'. split.
  - exists nA1, nB1, f0, f1, eA. eexists. split; [exact X0|]. split; [exact X1|]. split; [exact E|]. split; [done|].
    destruct Hcase as [|[C _]]; [by left|by right].
  - done.
  - rewrite SB'. eapply storing_le; [exact Hj'|lia].
  - rewrite SB'. split; [done|]. pose proof (pushed_size_le _ _ _ _ _ _ _ _ Hmeet hv' (fun i Hi => proj1 (Hown i Hi))).
    unfold stored, pushed_size, lenN in *. lia.
  - rewrite SB'. exact Hfrom.
  - rewrite SB'. destruct Hcase as [|[_ C]]; [by left|right]. by eapply grown_covers, C; [apply HB| |].
  - done.
  - exists ta', tb'. by split.
Qed.

(** ** A sync each way *)

(** What a sync each way asks. *)
Record uniting (nA nB : Node.t) (dA dB : LinkDriver.t) (jio : nat -> nat -> io_outcome) (w : SyncWindow.t)
    (itemsA itemsB : list Item.t) (now : N) : Prop := {
  un_forth : reconcilable nA nB dA dB jio w itemsA itemsB now;
  un_frameable : frameable (Node.store nB) 0;
  un_storing : storing (jio 0%nat) (N.max (widest (Node.store nA) itemsA) (widest (Node.store nB) itemsB))
    (length itemsA + length itemsB) (Node.store nA);
  un_sid : Syncer.next_sid (LinkDriver.syncer dB) + 2 <= u64_max;
  un_room : stored (Node.store nA) + lenN itemsA + lenN itemsB + 131073 < u32_max;
  un_agree : agree (Node.store nA) (Node.store nB) }.

(** In agreeing stores an id names one item. *)
Lemma agree_consistent S T w l l' : StoreSpec.wf S -> StoreSpec.wf T -> agree S T ->
  EntryStore.snapshot S w = Some l -> EntryStore.snapshot T w = Some l' -> consistent l l'.
Proof.
  intros HS HT Hag E E' x y Hx Hy Hid.
  apply (window_members S w _ HS E) in Hx as (e & He & Hk & _).
  apply (window_members T w _ HT E') in Hy as (e' & He' & Hk' & _).
  rewrite Hid in He. pose proof (Hag _ _ _ He He') as <-. destruct x, y; cbn in *. congruence.
Qed.

Lemma paired_le nA nB a b dA dB tA tB k k' : paired nA nB a b dA dB tA tB k -> k' <= k -> paired nA nB a b dA dB tA tB k'.
Proof. intros [? ? ? ? [Ra Rb] ? ? ? ?] Hk. split; try done. split; by eapply ready_le. Qed.

(** The second session finds what it needs once the first is over. *)
Lemma uniting_back nA nB nA1 nB1 a b dA dB tA tB w itemsA itemsB items jio now k n :
  uniting nA nB dA dB jio w itemsA itemsB now -> node_inv nA -> node_inv nB -> node_inv nB1 ->
  reconciled nA nB nA1 nB1 a b dA dB w itemsA itemsB jio now k n ->
  EntryStore.snapshot (Node.store nB1) (SyncWindow.into w) = Some items -> Item.sorted items ->
  (forall x, x ∈ items -> x ∈ itemsA \/ x ∈ itemsB) ->
  lenN items <= lenN itemsA + lenN itemsB /\
  reconcilable nB1 nA1 (moved dB (LinkDriver.syncer dB) tB) (moved dA (spent (LinkDriver.syncer dA)) tA) jio w items itemsA now.
Proof.
  intros [[[EA EB] Hcon Hw Hfr Hj Hsid (TA & TB & FA & FB) [RA RB]] HfrB HjA HsidB RA2 Hag] HA HB HB1 Hs Eit Hsort Hmem.
  destruct Hs as [_ Hkept Hj1 [[Hsub _] Hsz] Hfrom _ [Hc1 Hc2] _].
  assert (Hlen : lenN items <= lenN itemsA + lenN itemsB).
  { rewrite <- lenN_app. unfold lenN. enough (length items <= length (itemsA ++ itemsB))%nat by lia.
    apply submseteq_length, NoDup_submseteq; [by apply Item.sorted_NoDup|]. intros x Hx. by apply elem_of_app, Hmem. }
  split; [done|]. split; rewrite ?Hkept; try done; [| | |split; lia].
  - eapply (agree_consistent (Node.store nB1)); [apply HB1|apply HA| |exact Eit|exact EA].
    by apply agree_sym, (from_agree _ _ _ Hag).
  - intros i e He. destruct (Hfrom i e He); [by eapply HfrB|by eapply Hfr].
  - eapply union_storing; [apply HA|apply HB|by eapply from_agree|done|exact EA|exact EB|done|done|done].
Qed.



End Rounds.

(** ** Concrete instances *)

(** What the syncs of [NodeSync] ask is more than what is asked here. *)
Lemma syncable_reconcilable {cbor : Cbor} {crypto : Crypto} nA nB dA dB jio w itemsA itemsB now :
  syncable nA nB dA dB jio w itemsA itemsB now -> consistent itemsA itemsB ->
  reconcilable nA nB dA dB jio w itemsA itemsB now.
Proof. intros [? [? _] ? ? ? ? ? [? ?]] Hcon. split; try done. split; [done|lia]. Qed.

Lemma mutual_uniting {cbor : Cbor} {crypto : Crypto} nA nB dA dB jio w itemsA itemsB now :
  node_inv nA -> node_inv nB -> mutual nA nB dA dB jio w itemsA itemsB now -> uniting nA nB dA dB jio w itemsA itemsB now.
Proof.
  intros HA HB [Hs Hsm ? ? ? Hroom Hag]. pose proof Hs as [[EA EB] _ _ _ _ _ _ _]. split; try done; [|lia].
  eapply syncable_reconcilable; [done|]. eapply agree_consistent; [apply HA|apply HB|done..].
Qed.

Lemma left_one : lenN (items_in left_node) = 1.
Proof. vm_compute. reflexivity. Qed.

Lemma right_one : lenN (items_in right_node) = 1.
Proof. vm_compute. reflexivity. Qed.


