(* ===== verification/NodeDuplex.v ===== *)
(** * Two nodes that both start a sync

    [start_sync] on both of two paired nodes before a frame of either
    arrives. The frames of the two sessions share the link: each direction is
    a queue of frames, and a call of [on_bytes] takes the first frame of one
    of them, at any clock value. Every such run is an interleaving of
    [SessionDuplex] carried over the encrypted link. *)
From S2P Require Import Prelude Errors Crypto Cbor CborRef Entry Msg Item Bound NegStore Negentropy OrderRefine OrderSpec Store StoreSpec JournalSpec NegExact.
From S2P Require Import NegRanges NegRun NegReply NegGeneral NegCut NegLimit Session SessionSpec SessionRounds SessionDuplex.
From S2P Require Import Frame Limiter Noise NoiseSpec Driver DriverSpec LinkSpec LinkSync LinkRounds Node NodeSpec NodePair NodeSync NodeRounds.
From stdpp Require Import relations.
Open Scope N_scope.

(** A node, the link it shares with the other, the frames on their way to it
    and the events its calls returned. *)
Module NodeEnd.
Record t : Type := mk { node : Node.t; link : N; inbox : list bytes; events : list Event }.

Definition receive (fs : list bytes) (e : t) : t := mk (node e) (link e) (inbox e ++ fs) (events e).

(** [on_bytes] on the first frame of the inbox at the clock [now]; the frames
    it returns. *)
Definition take {cbor : Cbor} {crypto : Crypto} (jio : nat -> nat -> io_outcome) (now : N) (e : t)
  : option (t * list bytes) :=
  match inbox e with
  | [] => None
  | f :: fs =>
      match Node.on_bytes jio (link e) f now (node e) with
      | (n, Ok io) => Some (mk n (link e) fs (events e ++ LinkIo.events io), LinkIo.frames io)
      | _ => None
      end
  end.
End NodeEnd.

(** One frame is taken, on either side, at a clock value up to [last]. *)
Inductive passing {cbor : Cbor} {crypto : Crypto} (jio : nat -> nat -> io_outcome) (last : N)
  : NodeEnd.t * NodeEnd.t -> NodeEnd.t * NodeEnd.t -> Prop :=
  | pass_left now u v u' fs : now <= last -> NodeEnd.take jio now u = Some (u', fs) ->
      passing jio last (u, v) (u', NodeEnd.receive fs v)
  | pass_right now u v v' fs : now <= last -> NodeEnd.take jio now v = Some (v', fs) ->
      passing jio last (u, v) (NodeEnd.receive fs u, v').

(** No frame in flight is refused. *)
Definition taking {cbor : Cbor} {crypto : Crypto} (jio : nat -> nat -> io_outcome) (last : N) (e : NodeEnd.t) : Prop :=
  NodeEnd.inbox e = [] \/ forall now, now <= last -> is_Some (NodeEnd.take jio now e).

Section Duplex.
Context {cbor : Cbor} {crypto : Crypto}.

Lemma in_life_le now last d : in_life last d -> now <= last -> in_life now d.
Proof. unfold in_life. lia. Qed.

(** A clock value below the node's own counts as the node's. *)
Lemma on_bytes_clamped jio id bs now n :
  Node.on_bytes jio id bs now n = Node.on_bytes jio id bs (N.max (Node.last_now_us n) now) n.
Proof. unfold Node.on_bytes, Node.clamp_now. by rewrite N.max_assoc, N.max_id. Qed.

Lemma conveyed_cons_inv c f fs m ms c' : conveyed c (f :: fs) (m :: ms) c' ->
  exists c1, conveyed c [f] [m] c1 /\ conveyed c1 fs ms c'.
Proof.
  inversion 1 as [|? ? ? ? c1]; subst. exists c1. split; [|done]. econstructor; try done. constructor.
Qed.

Lemma conveyed_nil_inv c ms c' : conveyed c [] ms c' -> ms = [] /\ c' = c.
Proof. by inversion 1. Qed.

Lemma conveyed_to_nil c fs c' : conveyed c fs [] c' -> fs = [] /\ c' = c.
Proof. by inversion 1. Qed.

(** A node of the pair carries the end [e] of the sessions: its link [id] holds
    the driver [d] with that syncer and the transport [tr]. *)
Record carries (last id : N) (d : LinkDriver.t) (st0 : EntryStore.t) (u : NodeEnd.t) (e : Endpoint.t) (tr : TransportState.t) : Prop := {
  ca_inv : node_inv (NodeEnd.node u);
  ca_store : Node.store (NodeEnd.node u) = Endpoint.store e;
  ca_extends : extends st0 (Endpoint.store e);
  ca_clock : Node.last_now_us (NodeEnd.node u) <= last;
  ca_id : NodeEnd.link u = id;
  ca_link : Node.links (NodeEnd.node u) !! id = Some (Link.mk (moved d (Endpoint.syncer e) tr) None);
  ca_events : NodeEnd.events u = map (map_event id) (map Sync (Endpoint.events e)) }.

(** One frame to a node is one message to the end it carries. *)
Lemma carries_take jio last id d st0 u e tr now f fs m ms e' out k c :
  carries last id d st0 u e tr -> NodeEnd.inbox u = f :: fs -> Endpoint.inbox e = m :: ms ->
  conveyed (TransportState.recv tr) (f :: fs) (m :: ms) c ->
  Endpoint.io e = jio 0%nat -> Endpoint.handle e = Some (e', out) -> Forall sendable out ->
  FrameDecoder.buf (LinkDriver.decoder d) = [] -> in_life last d -> now <= last ->
  stored (Endpoint.store e) + 131073 < u32_max ->
  ready tr (lenN out + k) ->
  exists u' gs tr',
    NodeEnd.take jio now u = Some (u', gs) /\ carries last id d st0 u' e' tr' /\
    NodeEnd.inbox u' = fs /\ Endpoint.inbox e' = ms /\
    conveyed (TransportState.recv tr') fs ms c /\
    conveyed (TransportState.send tr) gs out (TransportState.send tr') /\ ready tr' k.
Proof.
  intros [Hinv Hst Hext Hck Hid Hl Hev] Hfs Hms Hc Hio Hh Hsay Hbuf Hlife Hnow Hroom Hr.
  pose proof (conveyed_sizes _ _ _ _ Hc) as [Hsz _]. apply Forall_cons in Hsz as [Hf _].
  destruct (conveyed_cons_inv _ _ _ _ _ _ Hc) as (c1 & Hc1 & Hc2).
  unfold Endpoint.handle in Hh. rewrite Hms in Hh.
  destruct (Syncer.handle_message_into _ _ _ _ _) as [[[s' st'] o] [[]|err|]] eqn:E; [|done|done].
  injection Hh as <- <-.
  set (now1 := N.max (Node.last_now_us (NodeEnd.node u)) now).
  destruct (deliver_message _ f m c1 (moved d (Endpoint.syncer e) tr) tr (Endpoint.store e) jio now1 s' st' o k Hc1 eq_refl eq_refl)
    as (c2 & gs & E1 & Hc3 & Hr').
  - done.
  - eapply in_life_le; [exact Hlife|]. unfold now1. lia.
  - by rewrite <- Hio.
  - done.
  - done.
  - rewrite <- Hst in E1.
    destruct (node_on_bytes (NodeEnd.node u) jio id f now1 _ _ _ _ Hinv Hl E1) as (n' & F & I' & S' & T' & L' & _).
    + unfold now1. lia.
    + rewrite Hst. lia.
    + apply sync_quiet.
    + cbn [Link.ticket] in L'. rewrite after_ticketless in L'.
      exists (NodeEnd.mk n' id fs (NodeEnd.events u ++ map (map_event id) (map Sync (SyncOutput.events o)))), gs.
      eexists. split.
      { unfold NodeEnd.take. rewrite Hfs, Hid, on_bytes_clamped. fold now1. by rewrite F. }
      split; [split; cbn [NodeEnd.node NodeEnd.link NodeEnd.events Endpoint.store Endpoint.syncer Endpoint.events]|].
      * done.
      * done.
      * etrans; [exact Hext|]. rewrite <- Hst. by eapply on_bytes_extends.
      * rewrite T'. unfold now1. lia.
      * done.
      * exact L'.
      * by rewrite Hev, !map_app.
      * by split_and!.
Qed.

(** The next phases, with a frame in flight to the second node. *)
Section Step.
Context (a b : N) (dA dB : LinkDriver.t) (stA stB : EntryStore.t) (wA wB : SortKeyWindow.t).
Context (own held own' held' : list Item.t) (jio : nat -> nat -> io_outcome) (last n : N).

Local Notation sa := (LinkDriver.syncer dA).
Local Notation sb := (LinkDriver.syncer dB).

Context (kx ky : nat) (Rx Ry : nat -> bytes -> list bytes -> list bytes -> Prop) (Fx Fy : list bytes -> list bytes -> Prop).

(** The two nodes with the sessions in the phases [p] and [q]. *)
Record crossing (p q : phase) (u v : NodeEnd.t) (eu ev : Endpoint.t) (tu tv : TransportState.t) : Prop := {
  cr_world : world sa sb stA stB (jio 0%nat) (jio 0%nat) wA wB own held own' held' Rx Ry Fx Fy p q eu ev;
  cr_nodes : carries last a dA stA u eu tu /\ carries last b dB stB v ev tv;
  cr_to_u : conveyed (TransportState.recv tu) (NodeEnd.inbox u) (Endpoint.inbox eu) (TransportState.send tv);
  cr_to_v : conveyed (TransportState.recv tv) (NodeEnd.inbox v) (Endpoint.inbox ev) (TransportState.send tu);
  cr_ready : ready tu (N.of_nat (from_x own kx ky p q) + n) /\ ready tv (N.of_nat (from_y own' kx ky p q) + n) }.

Definition crosses (p q : phase) (u v : NodeEnd.t) : Prop := exists eu ev tu tv, crossing p q u v eu ev tu tv.

Context (Hx : meeting sa sb stA stB (jio 0%nat) wA own held') (Hy : meeting sb sa stB stA (jio 0%nat) wB own' held).
Context (Hcap : Syncer.open_sessions sb + 1 < SyncConfig.max_sessions (Syncer.config sb)).
Context (Hrx : rounds (sealed sa own true) (sealed sb held' false) (ids own) Rx Fx).
Context (Hry : rounds (sealed sb own' true) (sealed sa held false) (ids own') Ry Fy).
Context (Hox : Rx kx (opening_message own) [] []).
Context (Hsx : says_all sendable sa sb stA own held' Rx) (Hsy : says_all sendable sb sa stB own' held Ry).
Context (Hbuf : FrameDecoder.buf (LinkDriver.decoder dB) = []) (Hlife : in_life last dB).
Context (Hroom : stored stB + lenN own + 131073 < u32_max).

Lemma carries_receive id d st0 u e tr fs ms : carries last id d st0 u e tr ->
  carries last id d st0 (NodeEnd.receive fs u) (Endpoint.receive ms e) tr.
Proof. by intros []. Qed.

Lemma world_room p q eu ev : world sa sb stA stB (jio 0%nat) (jio 0%nat) wA wB own held own' held' Rx Ry Fx Fy p q eu ev ->
  stored (Endpoint.store ev) + 131073 < u32_max.
Proof.
  intros (_ & _ & Hb). pose proof (sd_store _ _ _ _ _ _ _ _ _ _ _ _ _ _ Hb) as Hrv.
  destruct (meeting_engines _ _ _ _ _ _ _ _ Hx) as (_ & _ & HpA & _).
  pose proof (card_own (have_of p) own HpA (fun i Hi => proj1 (rv_have _ _ _ _ _ _ _ Hrv i Hi))) as Hcard.
  pose proof (rv_size _ _ _ _ _ _ _ Hrv) as Hsz. unfold stored, lenN in *. lia.
Qed.

Lemma crosses_take p q u v now : crosses p q u v -> NodeEnd.inbox v <> [] -> now <= last ->
  exists p' q' v' gs, NodeEnd.take jio now v = Some (v', gs) /\
    crosses p' q' (NodeEnd.receive gs u) v' /\ (left_of own own' kx ky p' q' < left_of own own' kx ky p q)%nat.
Proof.
  intros (eu & ev & tu & tv & [Hw [Hu Hv] Ht Ht' [Ru Rv]]) Hne Hnow.
  destruct (NodeEnd.inbox v) as [|f fs] eqn:Ef; [done|].
  destruct (Endpoint.inbox ev) as [|m ms] eqn:Em; [by apply conveyed_to_nil in Ht' as [? _]|].
  destruct (handle_any sa sb stA stB (jio 0%nat) (jio 0%nat) wA wB own held own' held' Hx Hy Hcap kx ky Rx Ry Fx Fy
    Hrx Hry Hox sendable Hsx Hsy p q eu ev Hw ltac:(by rewrite Em)) as (p' & q' & ev' & out & Eh & [Hw' Hlt Hsay [Hs1 Hs2]]).
  pose proof Hw as (_ & _ & Hb).
  destruct (carries_take jio last b dB stB v ev tv now f fs m ms ev' out (N.of_nat (from_y own' kx ky p' q') + n) _ Hv Ef Em Ht'
    (sd_io _ _ _ _ _ _ _ _ _ _ _ _ _ _ Hb) Eh Hsay Hbuf Hlife Hnow (world_room _ _ _ _ Hw))
    as (v' & gs & tv' & E & Hv' & If & Im & Hc & Hg & Rv').
  { eapply ready_le; [exact Rv|]. unfold lenN. lia. }
  exists p', q', v', gs. split; [exact E|]. split; [|done].
  exists (Endpoint.receive out eu), ev', tu, tv'. split; [done| |by eapply conveyed_app|by rewrite If, Im|].
  - split; [by apply carries_receive|done].
  - split; [|done]. eapply ready_le; [exact Ru|]. lia.
Qed.

End Step.

Lemma crosses_sym a b dA dB stA stB wA wB own held own' held' jio last n kx ky Rx Ry Fx Fy p q u v :
  crosses a b dA dB stA stB wA wB own held own' held' jio last n kx ky Rx Ry Fx Fy p q u v ->
  crosses b a dB dA stB stA wB wA own' held' own held jio last n ky kx Ry Rx Fy Fx q p v u.
Proof.
  intros (eu & ev & tu & tv & [Hw [Hu Hv] Ht Ht' [Ru Rv]]). exists ev, eu, tv, tu.
  split; [by apply world_sym|done..].
Qed.

(** ** Runs *)

Section Run.
Context (a b : N) (dA dB : LinkDriver.t) (stA stB : EntryStore.t) (wA wB : SortKeyWindow.t).
Context (own held own' held' : list Item.t) (jio : nat -> nat -> io_outcome) (last n : N).

Local Notation sa := (LinkDriver.syncer dA).
Local Notation sb := (LinkDriver.syncer dB).

Context (kx ky : nat) (Rx Ry : nat -> bytes -> list bytes -> list bytes -> Prop) (Fx Fy : list bytes -> list bytes -> Prop).
Context (Hx : meeting sa sb stA stB (jio 0%nat) wA own held') (Hy : meeting sb sa stB stA (jio 0%nat) wB own' held).
Context (Hcx : Syncer.open_sessions sa + 1 < SyncConfig.max_sessions (Syncer.config sa)).
Context (Hcy : Syncer.open_sessions sb + 1 < SyncConfig.max_sessions (Syncer.config sb)).
Context (Hrx : rounds (sealed sa own true) (sealed sb held' false) (ids own) Rx Fx).
Context (Hry : rounds (sealed sb own' true) (sealed sa held false) (ids own') Ry Fy).
Context (Hox : Rx kx (opening_message own) [] []) (Hoy : Ry ky (opening_message own') [] []).
Context (Hsx : says_all sendable sa sb stA own held' Rx) (Hsy : says_all sendable sb sa stB own' held Ry).
Context (Hbuf : FrameDecoder.buf (LinkDriver.decoder dA) = [] /\ FrameDecoder.buf (LinkDriver.decoder dB) = []).
Context (Hlife : in_life last dA /\ in_life last dB).
Context (HroomA : stored stA + lenN own' + 131073 < u32_max) (HroomB : stored stB + lenN own + 131073 < u32_max).

Local Notation crosses := (crosses a b dA dB stA stB wA wB own held own' held' jio last n kx ky Rx Ry Fx Fy).
Local Notation left_of := (left_of own own' kx ky).

Lemma take_right p q u v now : crosses p q u v -> NodeEnd.inbox v <> [] -> now <= last ->
  exists p' q' v' gs, NodeEnd.take jio now v = Some (v', gs) /\
    crosses p' q' (NodeEnd.receive gs u) v' /\ (left_of p' q' < left_of p q)%nat.
Proof.
  exact (crosses_take a b dA dB stA stB wA wB own held own' held' jio last n kx ky Rx Ry Fx Fy Hx Hy Hcy Hrx Hry Hox Hsx Hsy
    (proj2 Hbuf) (proj2 Hlife) HroomB p q u v now).
Qed.

Lemma take_left p q u v now : crosses p q u v -> NodeEnd.inbox u <> [] -> now <= last ->
  exists p' q' u' gs, NodeEnd.take jio now u = Some (u', gs) /\
    crosses p' q' u' (NodeEnd.receive gs v) /\ (left_of p' q' < left_of p q)%nat.
Proof.
  intros Hc Hne Hnow. apply crosses_sym in Hc.
  destruct (crosses_take b a dB dA stB stA wB wA own' held' own held jio last n ky kx Ry Rx Fy Fx Hy Hx Hcx Hry Hrx Hoy Hsy Hsx
    (proj1 Hbuf) (proj1 Hlife) HroomA q p v u now Hc Hne Hnow) as (q' & p' & u' & gs & E & Hc' & Hlt).
  apply crosses_sym in Hc'. exists p', q', u', gs. split; [done|]. split; [done|]. by rewrite !(left_sym own own').
Qed.

Lemma take_inbox now u r : NodeEnd.take jio now u = Some r -> NodeEnd.inbox u <> [].
Proof. unfold NodeEnd.take. by destruct (NodeEnd.inbox u). Qed.

Lemma passing_step pq x x' : crosses pq.1 pq.2 x.1 x.2 -> passing jio last x x' ->
  exists pq', crosses pq'.1 pq'.2 x'.1 x'.2 /\ (left_of pq'.1 pq'.2 < left_of pq.1 pq.2)%nat.
Proof.
  intros Hc Hp. destruct Hp as [now u v u' fs Hnow E|now u v v' fs Hnow E]; cbn [fst snd] in *.
  - destruct (take_left _ _ _ _ _ Hc (take_inbox _ _ _ E) Hnow) as (p' & q' & u1 & gs & E1 & Hc' & Hlt).
    rewrite E in E1. injection E1 as <- <-. by exists (p', q').
  - destruct (take_right _ _ _ _ _ Hc (take_inbox _ _ _ E) Hnow) as (p' & q' & v1 & gs & E1 & Hc' & Hlt).
    rewrite E in E1. injection E1 as <- <-. by exists (p', q').
Qed.

Lemma both_take p q u v : crosses p q u v -> taking jio last u /\ taking jio last v.
Proof.
  intros Hc. split.
  - destruct (decide (NodeEnd.inbox u = [])) as [|Hne]; [by left|right]. intros now Hnow.
    destruct (take_left _ _ _ _ _ Hc Hne Hnow) as (p' & q' & u' & gs & -> & _). by eexists.
  - destruct (decide (NodeEnd.inbox v = [])) as [|Hne]; [by left|right]. intros now Hnow.
    destruct (take_right _ _ _ _ _ Hc Hne Hnow) as (p' & q' & v' & gs & -> & _). by eexists.
Qed.

Lemma passing_goes p q x : crosses p q x.1 x.2 ->
  (NodeEnd.inbox x.1 = [] /\ NodeEnd.inbox x.2 = []) \/ exists x', passing jio last x x'.
Proof.
  destruct x as [u v]. intros Hc. destruct (both_take _ _ _ _ Hc) as [[Ea|Ea] [Eb|Eb]].
  - by left.
  - destruct (Eb last) as [[v' fs] E]; [done|]. right. eexists. by eapply pass_right.
  - destruct (Ea last) as [[u' fs] E]; [done|]. right. eexists. by eapply pass_left.
  - destruct (Eb last) as [[v' fs] E]; [done|]. right. eexists. by eapply pass_right.
Qed.

(** What a run from the phases [p] and [q] comes to. *)
Lemma passing_runs p q x : crosses p q x.1 x.2 ->
  (exists k u v, nsteps (passing jio last) k x (u, v) /\ NodeEnd.inbox u = [] /\ NodeEnd.inbox v = []) /\
  forall k u v, nsteps (passing jio last) k x (u, v) ->
    exists p' q', crosses p' q' u v /\ taking jio last u /\ taking jio last v /\ (k + left_of p' q' <= left_of p q)%nat.
Proof.
  intros Hc. split.
  - destruct (measured_ends _ _ _ passing_step (fun x => NodeEnd.inbox x.1 = [] /\ NodeEnd.inbox x.2 = []) x (p, q))
      as (k & [u v] & H); [|done|by exists k, u, v]. intros [p0 q0] x0. apply passing_goes.
  - intros k u v Hn. destruct (measured_run _ _ _ passing_step k x (u, v) (p, q) Hn Hc) as ([p' q'] & Hc' & Hle).
    exists p', q'. destruct (both_take _ _ _ _ Hc'). by split_and!.
Qed.

End Run.

(** ** Both start *)

(** What the drivers and configurations of a pair give. *)
Lemma paired_framed nA nB a b dA dB tA tB k : paired nA nB a b dA dB tA tB k ->
  framed (Syncer.config (LinkDriver.syncer dA)) /\ framed (Syncer.config (LinkDriver.syncer dB)).
Proof. intros []. rewrite (proj1 pr_configs), (proj2 pr_configs). split; vm_compute; discriminate. Qed.

Lemma paired_speaks nA nB a b dA dB tA tB k jio w itemsA itemsB now R F :
  paired nA nB a b dA dB tA tB k -> reconcilable nA nB dA dB jio w itemsA itemsB now ->
  meeting (LinkDriver.syncer dA) (LinkDriver.syncer dB) (Node.store nA) (Node.store nB) (jio 0%nat) (SyncWindow.into w) itemsA itemsB ->
  rounds (sealed (LinkDriver.syncer dA) itemsA true) (sealed (LinkDriver.syncer dB) itemsB false) (ids itemsA) R F ->
  says_all sendable (LinkDriver.syncer dA) (LinkDriver.syncer dB) (Node.store nA) itemsA itemsB R.
Proof.
  intros Hp [_ _ _ Hfr _ _ _ [Hroom _]] Hm Hr. pose proof (paired_framed _ _ _ _ _ _ _ _ _ Hp) as Hl.
  assert (Httl : SyncConfig.push_ttl (Syncer.config (LinkDriver.syncer dA)) = 0) by by rewrite (proj1 (pr_configs _ _ _ _ _ _ _ _ _ Hp)).
  split.
  - intros. eapply (answer_sendable dA dB); [exact Hm|exact Hr|done|by rewrite Httl|done].
  - intros m2 hvn reply hn nn Hnd Hin E. eapply (says_sendable dA dB); [exact Hm|done|by rewrite Httl|by rewrite Httl| |exact E].
    destruct (meeting_engines _ _ _ _ _ _ _ _ Hm) as (_ & _ & HpA & _).
    destruct Hm as [_ _ (HwA & _) _ _ _ (EA & _) _]. destruct (sealed_facts _ _ _ HwA EA) as (_ & _ & _ & Hle & _).
    pose proof (card_own hvn itemsA HpA Hin) as Hc. unfold card in Hc. rewrite size_list_to_set in Hc by done.
    unfold lenN, u32_max, u64_max in *. lia.
Qed.

(** One node's [start_sync]: the frame of its opening, and its end of the
    sessions with the peer's opening [init] on its way. *)
Lemma node_asks nA nB a b dA dB tA tB w itemsA itemsB jio last k m x1 fs init :
  paired nA nB a b dA dB tA tB k -> reconcilable nA nB dA dB jio w itemsA itemsB last ->
  meeting (LinkDriver.syncer dA) (LinkDriver.syncer dB) (Node.store nA) (Node.store nB) (jio 0%nat) (SyncWindow.into w) itemsA itemsB ->
  Syncer.open_session (LinkDriver.syncer dA) (Node.store nA) (SyncWindow.into w) =
    Ok (x1, Syncer.next_sid (LinkDriver.syncer dA), opening_init (LinkDriver.syncer dA) (SyncWindow.into w) itemsA) ->
  1 + m <= k ->
  exists nA1 f c, let t1 := TransportState.set_send c tA in
    Node.start_sync a w nA = (nA1, Ok (SyncStart.mk (Syncer.next_sid (LinkDriver.syncer dA)) (LinkIo.mk [f] []))) /\
    carries last a dA (Node.store nA) (NodeEnd.mk nA1 a fs []) (opened x1 (Node.store nA) (jio 0%nat) init) t1 /\
    conveyed (TransportState.send tA) [f] [opening_init (LinkDriver.syncer dA) (SyncWindow.into w) itemsA] c /\ ready t1 m.
Proof.
  intros Hp [_ _ Hw _ _ Hsid (TA & _) _] Hm Eo Hk. pose proof Hp as [[HA _] [LA _] [SA _] _ [YA _] _ _ [CA _] _].
  destruct (link_asks dA dB _ _ _ _ _ jio Hm ltac:(by rewrite CA) Hw m tA x1 SA) as (c & f & Es & Hc & Hr); [|exact Eo|].
  { eapply ready_le; [exact YA|done]. }
  destruct (node_start_sync nA a w dA _ _ _ HA LA Hsid Es eq_refl eq_refl) as (nA1 & X0 & IA1 & SA1 & TA1 & LA1).
  exists nA1, f, c. split; [exact X0|]. split; [|by split]. split; cbn; try done. by rewrite TA1.
Qed.

(** ** The end *)

(** What the two sessions leave at the node [u], which was [n0], the other
    being [v], which was [n0']: its store has grown by entries of the other's;
    what its own session reported as needed the other alone held, and unless
    a fingerprint was mistaken all of that was reported and the other holds
    its whole window; a journal reopens to all it holds. *)
Record settled (n0 n0' : Node.t) (id : N) (own held' : list Item.t) (u v : NodeEnd.t) : Prop := {
  se_grown : EntryStore.entries (Node.store n0) ⊆ EntryStore.entries (Node.store (NodeEnd.node u));
  se_from : from (Node.store n0') (Node.store n0) (Node.store (NodeEnd.node u));
  se_asked : exists evs, NodeEnd.events u = map (map_event id) (map Sync evs) /\
    (forall i, i ∈ needed evs -> i ∈ ids held' /\ i ∉ ids own) /\
    (confused own held' \/ forall i, i ∈ ids held' -> i ∉ ids own -> i ∈ needed evs);
  se_given : confused own held' \/
    forall x, x ∈ own -> is_Some (EntryStore.get (Node.store (NodeEnd.node v)) (Item.id x));
  se_journal : is_Some (EntryStore.journal (Node.store n0)) -> exists j st,
    EntryStore.journal (Node.store (NodeEnd.node u)) = Some j /\ EntryStore.open (Journal.file j) = Ok st /\
    StoreSpec.wf st /\ EntryStore.entries (Node.store (NodeEnd.node u)) ⊆ EntryStore.entries st }.

Lemma end_settled n0 n0' a b dA dB wA wB own held own' held' jio last hv nd hv' nd' u v eu ev tu tv :
  meeting (LinkDriver.syncer dA) (LinkDriver.syncer dB) (Node.store n0) (Node.store n0') (jio 0%nat) wA own held' ->
  consistent own held' -> NegLimit.live own held' [] hv nd ->
  stands (LinkDriver.syncer dA) (LinkDriver.syncer dB) (Node.store n0) (Node.store n0') (jio 0%nat) wA wB own held held' own'
    (Over hv nd) (Over hv' nd') eu ->
  stands (LinkDriver.syncer dB) (LinkDriver.syncer dA) (Node.store n0') (Node.store n0) (jio 0%nat) wB wA own' held' held own
    (Over hv' nd') (Over hv nd) ev ->
  carries last a dA (Node.store n0) u eu tu -> carries last b dB (Node.store n0') v ev tv ->
  settled n0 n0' a own held' u v.
Proof.
  intros Hm Hcon Hl Sa Sb [_ Su [Hext Hjx] _ _ _ Hev] [_ Sv _ _ _ _ _].
  destruct (over_reconciled _ _ _ _ _ _ _ _ _ _ _ _ _ _ _ _ _ _ Hm Hcon Hl Sa Sb) as [Hs Hc].
  pose proof (sd_store _ _ _ _ _ _ _ _ _ _ _ _ _ _ Sa) as Hrv. split; rewrite ?Su, ?Sv.
  - done.
  - exact (rv_from _ _ _ _ _ _ _ Hrv).
  - exists (Endpoint.events eu). split; [done|]. split; [exact Hs|]. destruct Hc as [|[_ ?]]; [by left|by right].
  - destruct Hc as [|[? _]]; [by left|by right].
  - intros [j Hj]%Hjx. exists j.
    destruct (storing_reopens _ _ _ _ _ (rv_storing _ _ _ _ _ _ _ Hrv) Hj) as (st & ? & ? & ?). by exists st.
Qed.

(** The link is idle again. *)
Lemma end_paired nA nB a b dA dB tA tB k last n stA stB u v eu ev tu tv m m' :
  paired nA nB a b dA dB tA tB k -> carries last a dA stA u eu tu -> carries last b dB stB v ev tv ->
  at_rest (LinkDriver.syncer dA) stA eu -> at_rest (LinkDriver.syncer dB) stB ev ->
  conveyed (TransportState.recv tu) [] [] (TransportState.send tv) ->
  conveyed (TransportState.recv tv) [] [] (TransportState.send tu) -> ready tu (m + n) -> ready tv (m' + n) ->
  exists dA' dB', paired (NodeEnd.node u) (NodeEnd.node v) a b dA' dB' tu tv n.
Proof.
  intros Hp [IA _ _ _ _ LA _] [IB _ _ _ _ LB _] (_ & Ea & _) (_ & Eb & _) Cu Cv Ru Rv. rewrite Ea in LA. rewrite Eb in LB.
  destruct Hp as [_ _ _ _ _ Hbuf Hroles Hcfg Hses].
  exists (moved dA (spent (LinkDriver.syncer dA)) tu), (moved dB (spent (LinkDriver.syncer dB)) tv). split; try done.
  - apply linked_channels. destruct Ru as (? & ? & ?), Rv as (? & ? & ?). split_and!; try done; lia.
  - split; (eapply ready_le; [eassumption|lia]).
Qed.

Lemma paired_caps nA nB a b dA dB tA tB k : paired nA nB a b dA dB tA tB k ->
  Syncer.open_sessions (LinkDriver.syncer dA) + 1 < SyncConfig.max_sessions (Syncer.config (LinkDriver.syncer dA)).
Proof.
  intros []. unfold Syncer.open_sessions. rewrite (proj1 pr_configs), (proj1 pr_sessions). by apply N.ltb_lt.
Qed.

(** Both have started, with the two opening frames on their way. *)
Lemma nodes_start nA nB a b dA dB tA tB w itemsA itemsB jio last kx ky n :
  paired nA nB a b dA dB tA tB (N.of_nat kx + N.of_nat ky + lenN itemsA + lenN itemsB + n + 3) ->
  reconcilable nA nB dA dB jio w itemsA itemsB last -> reconcilable nB nA dB dA jio w itemsB itemsA last ->
  meeting (LinkDriver.syncer dA) (LinkDriver.syncer dB) (Node.store nA) (Node.store nB) (jio 0%nat) (SyncWindow.into w) itemsA itemsB ->
  meeting (LinkDriver.syncer dB) (LinkDriver.syncer dA) (Node.store nB) (Node.store nA) (jio 0%nat) (SyncWindow.into w) itemsB itemsA ->
  trips itemsA itemsB <= N.of_nat kx -> trips itemsB itemsA <= N.of_nat ky ->
  exists nA1 nB1 fA fB,
    Node.start_sync a w nA = (nA1, Ok (SyncStart.mk (Syncer.next_sid (LinkDriver.syncer dA)) (LinkIo.mk [fA] []))) /\
    Node.start_sync b w nB = (nB1, Ok (SyncStart.mk (Syncer.next_sid (LinkDriver.syncer dB)) (LinkIo.mk [fB] []))) /\
    crosses a b dA dB (Node.store nA) (Node.store nB) (SyncWindow.into w) (SyncWindow.into w) itemsA itemsA itemsB itemsB
      jio last n kx ky (sent_cut itemsA itemsB) (sent_cut itemsB itemsA) (NegLimit.live itemsA itemsB []) (NegLimit.live itemsB itemsA [])
      Opening Opening (NodeEnd.mk nA1 a [fB] []) (NodeEnd.mk nB1 b [fA] []).
Proof.
  intros Hp Hab Hba Hx Hy Kx Ky. pose proof (paired_sym _ _ _ _ _ _ _ _ _ Hp) as Hp'.
  destruct (meeting_rounds _ _ _ _ _ _ _ _ Hx (rc_consistent _ _ _ _ _ _ _ _ _ Hab)) as [Hrx Hox].
  destruct (meeting_rounds _ _ _ _ _ _ _ _ Hy (rc_consistent _ _ _ _ _ _ _ _ _ Hba)) as [Hry Hoy].
  destruct (opened_stands _ _ _ _ _ _ _ _ _ _ _ _ _ _ kx Hx Hy Hrx (Hox kx Kx)) as (x1 & Ex & Sx).
  destruct (opened_stands _ _ _ _ _ _ _ _ _ _ _ _ _ _ ky Hy Hx Hry (Hoy ky Ky)) as (y1 & Ey & Sy).
  destruct (node_asks nB nA b a dB dA tB tA w itemsB itemsA jio last _ (N.of_nat (from_y itemsB kx ky Opening Opening) + n) y1 []
    (opening_init (LinkDriver.syncer dA) (SyncWindow.into w) itemsA) Hp' Hba Hy Ey) as (nB1 & fB & cB & EB & CB & VB & RB).
  { unfold from_y, lenN. cbn [asks_left answers_left]. lia. }
  destruct (node_asks nA nB a b dA dB tA tB w itemsA itemsB jio last _ (N.of_nat (from_x itemsA kx ky Opening Opening) + n) x1 [fB]
    (opening_init (LinkDriver.syncer dB) (SyncWindow.into w) itemsB) Hp Hab Hx Ex) as (nA1 & fA & cA & EA & CA & VA & RA).
  { unfold from_x, lenN. cbn [asks_left answers_left]. lia. }
  exists nA1, nB1, fA, fB. split; [exact EA|]. split; [exact EB|].
  pose proof (pr_linked _ _ _ _ _ _ _ _ _ Hp) as [_ Hl Hl' _ _].
  do 4 eexists. split; [|split; [exact CA|]| | |split; [exact RA|exact RB]].
  - split; [done|]. split; [exact Sx|exact Sy].
  - by destruct CB.
  - cbn. rewrite <- Hl' in VB. exact VB.
  - cbn. rewrite Hl in VA. exact VA.
Qed.

(** Once settled on both sides the stores hold one set of the window. *)
Lemma settled_union nA nB a b w itemsA itemsB u v : node_inv nA -> node_inv nB ->
  node_inv (NodeEnd.node u) -> node_inv (NodeEnd.node v) -> agree (Node.store nA) (Node.store nB) ->
  EntryStore.snapshot (Node.store nA) w = Some itemsA -> EntryStore.snapshot (Node.store nB) w = Some itemsB ->
  settled nA nB a itemsA itemsB u v -> settled nB nA b itemsB itemsA v u ->
  confused itemsA itemsB \/ confused itemsB itemsA \/ exists items,
    EntryStore.snapshot (Node.store (NodeEnd.node u)) w = Some items /\
    EntryStore.snapshot (Node.store (NodeEnd.node v)) w = Some items /\
    forall x, x ∈ items <-> x ∈ itemsA \/ x ∈ itemsB.
Proof.
  intros [WA _] [WB _] [WU _] [WV _] Hag EA EB [SubU FromU _ GivA _] [SubV FromV _ GivB _].
  destruct GivA as [|GivA]; [by left|right]. destruct GivB as [|GivB]; [by left|right].
  destruct (taken_items _ _ _ _ _ _ WB WA WU (agree_sym _ _ Hag) SubU FromU EB EA GivB) as (lu & Eu & Su & Mu).
  destruct (taken_items _ _ _ _ _ _ WA WB WV Hag SubV FromV EA EB GivA) as (lv & Ev & Sv & Mv).
  exists lu. split; [done|]. assert (lv = lu) as ->.
  { apply Item.sorted_ext; [done|done|]. intros x. rewrite Mu, Mv. tauto. }
  split; [done|]. intros x. by rewrite Mv.
Qed.


End Duplex.

(** ** A concrete pair *)

