(* ===== verification/Sim.v ===== *)
(** * The simulated transport: sim/mod.rs

    A discrete-event network on virtual time, the harness the protocol tests
    run on. A vector index out of range and a segment size of zero abort
    ([None]), as in the source; node ids are indices. The standard library's
    [BinaryHeap] of reversed events is the list of events in the order of
    [Event::cmp], earliest first. The clock and the sequence number are [u64]:
    an addition that overflows aborts, as in a build with overflow checks. *)
From S2P Require Import Prelude.
Open Scope N_scope.

Module SplitMix64.

(** The state advances by the golden gamma; the output is mixed from it. *)
Definition next_u64 (s : N) : N * N :=
  let s := u64_wrapping_add s 0x9E3779B97F4A7C15 in
  let z := u64_wrapping_mul (N.lxor s (N.shiftr s 30)) 0xBF58476D1CE4E5B9 in
  let z := u64_wrapping_mul (N.lxor z (N.shiftr z 27)) 0x94D049BB133111EB in
  (s, N.lxor z (N.shiftr z 31)).

End SplitMix64.

(** [NodeId(usize)]. *)
Notation NodeId := nat (only parsing).

Inductive LinkKind : Type := Stream | Datagram.
#[export] Instance LinkKind_eq_dec : EqDecision LinkKind.
Proof. solve_decision. Defined.

Module LinkConfig.
Record t : Type := mk { latency_us : N; mtu : nat; kind : LinkKind; loss_per_mille : N }.
End LinkConfig.

Module Delivery.
Inductive t : Type :=
  | Data (from : NodeId) (bs : bytes)
  | LinkDown (peer : NodeId).
End Delivery.

Module SimError.
Inductive t : Type :=
  | NoLink
  | LinkDown
  | TooLarge (len : N).
End SimError.

Module EventKind.
Inductive t : Type :=
  | Data (from : NodeId) (bs : bytes)
  | LinkDown (peer : NodeId).
End EventKind.

Module Event.
Record t : Type := mk { at_us : N; seq : N; to : NodeId; link : nat; kind : EventKind.t }.

(** [Ord::cmp]: by arrival, then by sequence number. *)
Definition cmp (a b : t) : comparison :=
  match at_us a ?= at_us b with Eq => seq a ?= seq b | c => c end.
End Event.

Module Link.
Record t : Type := mk { a : NodeId; b : NodeId; config : LinkConfig.t; up : bool }.
Definition set_up (x : bool) (l : t) : t := mk (a l) (b l) (config l) x.
(** The link joins [x] and [y], in either direction. *)
Definition joins (x y : NodeId) (l : t) : Prop := (a l = x /\ b l = y) \/ (a l = y /\ b l = x).
#[export] Instance joins_dec x y l : Decision (joins x y l).
Proof. unfold joins. apply _. Defined.
End Link.

(** [BinaryHeap::push]. *)
Fixpoint push (e : Event.t) (q : list Event.t) : list Event.t :=
  match q with
  | [] => [e]
  | x :: q' => match Event.cmp e x with Lt => e :: q | _ => x :: push e q' end
  end.

(** [slice::chunks] for a positive size. *)
Fixpoint chunks_fuel (fuel n : nat) (bs : bytes) : list bytes :=
  match fuel, bs with
  | S fuel, _ :: _ => take n bs :: chunks_fuel fuel n (drop n bs)
  | _, _ => []
  end.
Definition chunks (n : nat) (bs : bytes) : list bytes := chunks_fuel (length bs) n bs.

Module SimNet.

Record t : Type := mk {
  now_us : N;
  rng : N;
  inboxes : list (list Delivery.t);
  links : list Link.t;
  events : list Event.t;
  seq : N;
  groups : option (list (option nat));
}.

Definition set_now (x : N) (s : t) : t := mk x (rng s) (inboxes s) (links s) (events s) (seq s) (groups s).
Definition set_rng (x : N) (s : t) : t := mk (now_us s) x (inboxes s) (links s) (events s) (seq s) (groups s).
Definition set_inboxes (x : list (list Delivery.t)) (s : t) : t :=
  mk (now_us s) (rng s) x (links s) (events s) (seq s) (groups s).
Definition set_links (x : list Link.t) (s : t) : t := mk (now_us s) (rng s) (inboxes s) x (events s) (seq s) (groups s).
Definition set_events (x : list Event.t) (s : t) : t := mk (now_us s) (rng s) (inboxes s) (links s) x (seq s) (groups s).
Definition set_groups (x : option (list (option nat))) (s : t) : t :=
  mk (now_us s) (rng s) (inboxes s) (links s) (events s) (seq s) x.

Definition new (seed : N) : t := mk 0 seed [] [] [] 0 None.

Definition add_node (s : t) : t * NodeId := (set_inboxes (inboxes s ++ [[]]) s, length (inboxes s)).

Definition connect (a b : NodeId) (config : LinkConfig.t) (s : t) : t :=
  match list_find (Link.joins a b) (links s) with
  | Some (idx, l) =>
      set_links (<[idx := Link.mk (Link.a l) (Link.b l) config true]> (links s))
        (set_events (filter (fun e => Event.link e <> idx) (events s)) s)
  | None => set_links (links s ++ [Link.mk a b config true]) s
  end.

(** One member of a group; out of range aborts. *)
Definition assign (g : nat) (o : option (list (option nat))) (node : NodeId) : option (list (option nat)) :=
  assignment ← o; if decide (node < length assignment)%nat then Some (<[node := Some g]> assignment) else None.

Definition partition (gs : list (list NodeId)) (s : t) : option t :=
  assignment ← foldl (fun o p => foldl (assign p.1) o p.2) (Some (replicate (length (inboxes s)) None))
                 (imap pair gs);
  Some (set_groups (Some assignment) s).

Definition heal (s : t) : t := set_groups None s.

Definition reachable (a b : NodeId) (s : t) : option bool :=
  match groups s with
  | None => Some true
  | Some assignment =>
      ga ← assignment !! a;
      gb ← assignment !! b;
      Some (match ga, gb with Some x, Some y => bool_decide (x = y) | _, _ => false end)
  end.

(** [self.seq += 1] aborts on overflow. *)
Definition schedule (at_us : N) (to : NodeId) (link : nat) (kind : EventKind.t) (s : t) : option t :=
  if u64_max <? seq s + 1 then None
  else Some (mk (now_us s) (rng s) (inboxes s) (links s) (push (Event.mk at_us (seq s + 1) to link kind) (events s))
     (seq s + 1) (groups s)).

(** The loss draw; a lossless link draws nothing. *)
Definition draw_loss (loss : N) (s : t) : t * bool :=
  if 0 <? loss then
    let '(r, x) := SplitMix64.next_u64 (rng s) in (set_rng r s, x mod 1000 <? loss)
  else (s, false).

Definition drop_link (idx : nat) (s : t) : t := set_links (alter (Link.set_up false) idx (links s)) s.

Definition send (from to : NodeId) (bs : bytes) (s : t) : option (t * result SimError.t unit) :=
  match list_find (Link.joins from to) (links s) with
  | None => Some (s, Err SimError.NoLink)
  | Some (idx, l) =>
      let c := Link.config l in
      if bool_decide (LinkConfig.kind c = Stream) && negb (Link.up l) then Some (s, Err SimError.LinkDown)
      else
        let arrival := now_us s + LinkConfig.latency_us c in
        if u64_max <? arrival then None
        else
          let '(s, lost) := draw_loss (LinkConfig.loss_per_mille c) s in
          match LinkConfig.kind c with
          | Datagram =>
              if (LinkConfig.mtu c <? length bs)%nat then Some (s, Err (SimError.TooLarge (lenN bs)))
              else if lost then Some (s, Ok tt)
              else s ← schedule arrival to idx (EventKind.Data from bs) s; Some (s, Ok tt)
          | Stream =>
              reaches ← if lost then Some false else reachable from to s;
              if negb reaches then
                s ← schedule arrival to idx (EventKind.LinkDown from) (drop_link idx s);
                s ← schedule arrival from idx (EventKind.LinkDown to) s;
                Some (s, Err SimError.LinkDown)
              else if decide (LinkConfig.mtu c = 0%nat) then None
              else
                s ← foldl (fun o segment => s ← o; schedule arrival to idx (EventKind.Data from segment) s) (Some s)
                      (chunks (LinkConfig.mtu c) bs);
                Some (s, Ok tt)
          end
  end.

(** [self.inboxes[node].push(d)]. *)
Definition deliver (node : NodeId) (d : Delivery.t) (s : t) : option t :=
  inbox ← inboxes s !! node; Some (set_inboxes (<[node := inbox ++ [d]]> (inboxes s)) s).

Definition step (s : t) : option (t * bool) :=
  match events s with
  | [] => Some (s, false)
  | e :: rest =>
      let s := set_now (Event.at_us e) (set_events rest s) in
      match Event.kind e with
      | EventKind.Data from bs =>
          l ← links s !! Event.link e;
          match LinkConfig.kind (Link.config l) with
          | Datagram =>
              r ← reachable from (Event.to e) s;
              s ← if (r : bool) then deliver (Event.to e) (Delivery.Data from bs) s else Some s;
              Some (s, true)
          | Stream =>
              r ← reachable from (Event.to e) s;
              s ← if r && Link.up l then deliver (Event.to e) (Delivery.Data from bs) s
                  else if Link.up l then
                    s ← deliver (Event.to e) (Delivery.LinkDown from) (drop_link (Event.link e) s);
                    deliver from (Delivery.LinkDown (Event.to e)) s
                  else Some s;
              Some (s, true)
          end
      | EventKind.LinkDown peer =>
          s ← deliver (Event.to e) (Delivery.LinkDown peer) s;
          Some (s, true)
      end
  end.

(** [while self.step() {}]; a step never schedules, so the pending events are
    enough fuel. *)
Fixpoint run_fuel (fuel : nat) (s : t) : option t :=
  match fuel with
  | O => None
  | S fuel => '(s, more) ← step s; if (more : bool) then run_fuel fuel s else Some s
  end.

Definition run_until_idle (s : t) : option t := run_fuel (S (length (events s))) s.

Definition take_inbox (node : NodeId) (s : t) : option (t * list Delivery.t) :=
  inbox ← inboxes s !! node; Some (set_inboxes (<[node := []]> (inboxes s)) s, inbox).

End SimNet.
