(* ===== verification/SimSpec.v ===== *)
(** * The simulated network keeps its promises

    Events fire in order of time and scheduling, time never runs backwards,
    the loop always comes to rest, and a stream delivers what was written in
    segments of the link's size. *)
From Stdlib Require Import Sorting.Sorted.
From S2P Require Import Prelude Sim.
Import SimNet.
Open Scope N_scope.

(** ** The event queue *)

Definition earlier (x y : Event.t) : Prop :=
  Event.at_us x < Event.at_us y \/ (Event.at_us x = Event.at_us y /\ Event.seq x < Event.seq y).

Lemma cmp_Lt x y : Event.cmp x y = Lt <-> earlier x y.
Proof.
  unfold Event.cmp, earlier. destruct (N.compare_spec (Event.at_us x) (Event.at_us y)) as [E|E|E];
    [rewrite N.compare_lt_iff; lia|split; [by left|done]|split; [done|lia]].
Qed.

#[local] Instance earlier_trans : Transitive earlier.
Proof. intros x y z. unfold earlier. lia. Qed.

Lemma push_perm e q : push e q ≡ₚ e :: q.
Proof.
  induction q as [|x q IH]; cbn; [done|]. destruct (Event.cmp e x); [|done|]; rewrite IH; apply Permutation_swap.
Qed.

Lemma push_sorted e q : StronglySorted earlier q -> (forall x, x ∈ q -> Event.seq x < Event.seq e) ->
  StronglySorted earlier (push e q).
Proof.
  induction 1 as [|x q Hs IH Hx]; intros Hq; cbn; [by repeat constructor|]. rewrite Forall_forall in Hx.
  assert (Hle : ~ earlier e x -> StronglySorted earlier (x :: push e q)).
  { intros He. constructor; [apply IH; set_solver|]. apply Forall_forall. intros y.
    rewrite push_perm. intros [->|Hy]%elem_of_cons; [|by apply Hx].
    pose proof (Hq x ltac:(set_solver)). unfold earlier in *. lia. }
  destruct (Event.cmp e x) eqn:E.
  - apply Hle. rewrite <- cmp_Lt. congruence.
  - apply cmp_Lt in E. constructor; [by constructor; [|apply Forall_forall]|].
    apply Forall_forall. intros y [->|Hy]%elem_of_cons; [done|]. etrans; [done|by apply Hx].
  - apply Hle. rewrite <- cmp_Lt. congruence.
Qed.

(** ** The invariant *)

Definition in_range (s : t) (node : NodeId) : Prop := (node < length (inboxes s))%nat.

(** What never changes of a link while it carries traffic. *)
Definition fixed (l : Link.t) : NodeId * NodeId * LinkConfig.t := (Link.a l, Link.b l, Link.config l).

Definition event_ok (s : t) (e : Event.t) : Prop :=
  now_us s <= Event.at_us e <= u64_max /\ Event.seq e <= seq s /\ in_range s (Event.to e) /\
  (Event.link e < length (links s))%nat /\
  match Event.kind e with EventKind.Data from _ => in_range s from | EventKind.LinkDown _ => True end.

Definition link_ok (s : t) (l : Link.t) : Prop :=
  in_range s (Link.a l) /\ in_range s (Link.b l) /\
  (LinkConfig.kind (Link.config l) = Stream -> LinkConfig.mtu (Link.config l) <> 0%nat).

Record sim_wf (s : t) : Prop := {
  sw_sorted : StronglySorted earlier (events s);
  sw_events : Forall (event_ok s) (events s);
  sw_links : Forall (link_ok s) (links s);
  sw_width : now_us s <= u64_max /\ seq s <= u64_max }.

(** The partition covers every node. *)
Definition grouped (s : t) : Prop :=
  match groups s with None => True | Some assignment => length assignment = length (inboxes s) end.

Lemma link_ok_fixed s s' l l' : length (inboxes s') = length (inboxes s) -> fixed l' = fixed l -> link_ok s l -> link_ok s' l'.
Proof. unfold fixed, link_ok, in_range. intros -> [= -> -> ->]. done. Qed.

Lemma links_ok_fixed s s' : length (inboxes s') = length (inboxes s) -> fixed <$> links s' = fixed <$> links s ->
  Forall (link_ok s) (links s) -> Forall (link_ok s') (links s').
Proof.
  intros Hl Hf H. apply Forall_lookup. intros i l' Hi.
  assert (E : (fixed <$> links s) !! i = Some (fixed l')) by (by rewrite <- Hf, list_lookup_fmap, Hi).
  rewrite list_lookup_fmap in E. destruct (links s !! i) as [l|] eqn:El; [|done]. injection E as E.
  rewrite Forall_lookup in H. eapply link_ok_fixed; [done| |by eapply H]. unfold fixed. congruence.
Qed.

(** A change of inboxes and link states, time going to the next event. *)
Lemma sim_wf_after s s' : sim_wf s -> length (inboxes s') = length (inboxes s) ->
  fixed <$> links s' = fixed <$> links s -> seq s' = seq s ->
  StronglySorted earlier (events s') -> (forall e, e ∈ events s' -> e ∈ events s /\ now_us s' <= Event.at_us e) ->
  now_us s' <= u64_max -> sim_wf s'.
Proof.
  intros [Hs He Hl Hx] Hi Hf Hq Hs' He' Hn'. split; [done| |by eapply links_ok_fixed|split; [done|rewrite Hq; apply Hx]].
  apply Forall_forall. intros e Hin. destruct (He' e Hin) as [Hin0 Hnow].
  rewrite Forall_forall in He. destruct (He e Hin0) as ([_ H1] & H2 & H3 & H4 & H5).
  apply (f_equal length) in Hf. rewrite !length_fmap in Hf.
  unfold event_ok, in_range in *. rewrite Hi, Hq, Hf. done.
Qed.

Lemma reachable_total s x y : grouped s -> in_range s x -> in_range s y -> is_Some (reachable x y s).
Proof.
  unfold grouped, in_range, reachable. intros Hg Hx Hy. destruct (groups s) as [assignment|]; [|by eexists].
  rewrite <- Hg in Hx, Hy. destruct (lookup_lt_is_Some_2 assignment x Hx) as [ga ->].
  destruct (lookup_lt_is_Some_2 assignment y Hy) as [gb ->]. cbn. by eexists.
Qed.

(** What a step changes besides the clock, an inbox and a link state. *)
Definition frame (s s' : t) : Prop :=
  length (inboxes s') = length (inboxes s) /\ fixed <$> links s' = fixed <$> links s /\ seq s' = seq s /\
  events s' = events s /\ now_us s' = now_us s /\ groups s' = groups s /\ rng s' = rng s.

Lemma net_frame_refl s : frame s s.
Proof. by split_and!. Qed.

Lemma deliver_total node d s : in_range s node -> exists s', deliver node d s = Some s' /\ frame s s' /\ links s' = links s.
Proof.
  intros Hr. unfold deliver. destruct (lookup_lt_is_Some_2 (inboxes s) node Hr) as [inbox ->]. cbn.
  eexists. split; [done|]. split; [|done]. split_and!; try done. cbn. by rewrite length_insert.
Qed.

Lemma drop_link_frame idx s : frame s (drop_link idx s).
Proof.
  split_and!; try done. cbn. apply list_eq. intros i. rewrite !list_lookup_fmap.
  destruct (decide (i = idx)) as [->|Hne]; [|by rewrite list_lookup_alter_ne].
  rewrite list_lookup_alter_eq. by destruct (links s !! idx).
Qed.

Lemma net_frame_trans s s1 s2 : frame s s1 -> frame s1 s2 -> frame s s2.
Proof. unfold frame. intros. destruct_and?. split_and!; congruence. Qed.

(** One step takes exactly the first event, moves time to it, and never
    aborts. *)
Lemma step_spec s e rest : sim_wf s -> grouped s -> events s = e :: rest ->
  exists s', step s = Some (s', true) /\ sim_wf s' /\ grouped s' /\ events s' = rest /\
    now_us s' = Event.at_us e /\ length (inboxes s') = length (inboxes s) /\ groups s' = groups s.
Proof.
  intros Hw Hg E. pose proof Hw as [Hs He Hl _]. rewrite E in Hs, He.
  apply StronglySorted_inv in Hs as [Hs Hfirst]. apply Forall_cons in He as [([Hnow Hmax] & _ & Hto & Hlk & Hfrom) Hrest].
  unfold step. rewrite E. set (s0 := set_now (Event.at_us e) (set_events rest s)).
  assert (Hdone : forall s', frame s0 s' -> sim_wf s' /\ grouped s' /\ events s' = rest /\
    now_us s' = Event.at_us e /\ length (inboxes s') = length (inboxes s) /\ groups s' = groups s).
  { intros s' (Hi & Hf & Hq & Hev & Hn & Hgr & _). cbn in Hi, Hf, Hq, Hev, Hn, Hgr.
    split_and!; [|unfold grouped; by rewrite Hgr, Hi|done..].
    eapply (sim_wf_after s); [done|done|done|done|by rewrite Hev| |by rewrite Hn].
    rewrite Hev, Hn, E. intros x Hx. split; [set_solver|].
    rewrite Forall_forall in Hfirst. specialize (Hfirst x Hx). unfold earlier in Hfirst. lia. }
  destruct (Event.kind e) as [from bs|peer].
  - destruct (lookup_lt_is_Some_2 (links s) (Event.link e) Hlk) as [l El].
    change (links s0) with (links s). rewrite El. cbn [mbind option_bind].
    destruct (reachable_total s0 from (Event.to e)) as [r Hr]; [done..|].
    destruct (deliver_total (Event.to e) (Delivery.Data from bs) s0) as (s1 & D1 & F1 & _); [done|].
    rewrite Hr. cbn [mbind option_bind]. destruct (LinkConfig.kind (Link.config l)).
    + destruct r, (Link.up l); cbn [andb]; rewrite ?D1; cbn [mbind option_bind]; try (by eauto using net_frame_refl).
      destruct (deliver_total (Event.to e) (Delivery.LinkDown from) (drop_link (Event.link e) s0))
        as (s2 & D2 & F2 & _); [done|].
      destruct (deliver_total from (Delivery.LinkDown (Event.to e)) s2) as (s3 & D3 & F3 & _).
      { unfold in_range. destruct F2 as [-> _]. done. }
      rewrite D2. cbn [mbind option_bind]. rewrite D3. cbn [mbind option_bind]. eexists. split; [done|].
      apply Hdone. eapply net_frame_trans; [apply drop_link_frame|]. by eapply net_frame_trans.
    + destruct r; rewrite ?D1; cbn [mbind option_bind]; eauto using net_frame_refl.
  - destruct (deliver_total (Event.to e) (Delivery.LinkDown peer) s0) as (s1 & D1 & F1 & _); [done|].
    rewrite D1. cbn [mbind option_bind]. eauto.
Qed.

(** ** Coming to rest *)

(** The time of the last pending event. *)
Definition last_time (s : t) : N := match last (events s) with Some e => Event.at_us e | None => now_us s end.

Lemma run_fuel_spec fuel s : sim_wf s -> grouped s -> (length (events s) < fuel)%nat ->
  exists s', run_fuel fuel s = Some s' /\ sim_wf s' /\ grouped s' /\ events s' = [] /\
    now_us s' = last_time s /\ length (inboxes s') = length (inboxes s) /\ groups s' = groups s.
Proof.
  revert s. induction fuel as [|fuel IH]; intros s Hw Hg Hf; [lia|]. cbn [run_fuel].
  destruct (events s) as [|e rest] eqn:E.
  - unfold step. rewrite E. cbn. exists s. unfold last_time. by rewrite E.
  - destruct (step_spec s e rest Hw Hg E) as (s1 & -> & Hw1 & Hg1 & E1 & Hn1 & Hi1 & Hgr1). cbn [mbind option_bind].
    destruct (IH s1 Hw1 Hg1) as (s2 & Er & Hw2 & Hg2 & E2 & Hn2 & Hi2 & Hgr2); [rewrite E1; cbn in Hf; lia|].
    exists s2. split_and!; try done; [|congruence|congruence]. rewrite Hn2. unfold last_time. rewrite E, E1.
    destruct rest as [|e' rest]; [done|]. rewrite last_cons_cons.
    destruct (last (e' :: rest)) eqn:El; [done|by apply last_None in El].
Qed.

(** ** Scheduling *)

Lemma chunks_fuel_spec fuel n bs : n <> 0%nat -> (length bs <= fuel)%nat ->
  concat (chunks_fuel fuel n bs) = bs /\ Forall (fun c => 0 < length c <= n)%nat (chunks_fuel fuel n bs).
Proof.
  intros Hn. revert bs. induction fuel as [|fuel IH]; intros bs Hl.
  { destruct bs; [by split; [|constructor]|cbn in Hl; lia]. }
  destruct bs as [|b bs]; [by split; [|constructor]|]. cbn [chunks_fuel].
  destruct (IH (drop n (b :: bs))) as [IH1 IH2]; [rewrite length_drop; cbn in *; lia|].
  split; [cbn [concat]; by rewrite IH1, take_drop|].
  constructor; [|done]. rewrite length_take. cbn. lia.
Qed.

Lemma chunks_spec n bs : n <> 0%nat -> concat (chunks n bs) = bs /\ Forall (fun c => 0 < length c <= n)%nat (chunks n bs).
Proof. intros. by apply chunks_fuel_spec. Qed.

(** No more segments than octets. *)
Lemma chunks_count n bs : n <> 0%nat -> lenN (chunks n bs) <= lenN bs.
Proof.
  intros Hn. destruct (chunks_spec n bs Hn) as [Hc Hf]. rewrite <- Hc at 2. clear Hc.
  induction Hf as [|c cs [Hc _] _ IH]; cbn [concat]; [done|]. rewrite lenN_cons, lenN_app.
  assert (1 <= lenN c) by (unfold lenN; lia). lia.
Qed.

(** The state after an event is scheduled. *)
Definition scheduled (at_us : N) (to : NodeId) (link : nat) (kind : EventKind.t) (s : t) : t :=
  mk (now_us s) (rng s) (inboxes s) (links s) (push (Event.mk at_us (seq s + 1) to link kind) (events s))
     (seq s + 1) (groups s).

Lemma schedule_fits at_us to idx kind s : seq s + 1 <= u64_max ->
  schedule at_us to idx kind s = Some (scheduled at_us to idx kind s).
Proof. intros H. unfold schedule. by rewrite (proj2 (N.ltb_ge _ _) H). Qed.

Lemma scheduled_wf at_us to idx kind s : sim_wf s -> now_us s <= at_us <= u64_max -> seq s + 1 <= u64_max ->
  in_range s to -> (idx < length (links s))%nat ->
  match kind with EventKind.Data from _ => in_range s from | EventKind.LinkDown _ => True end ->
  sim_wf (scheduled at_us to idx kind s).
Proof.
  intros [Hs He Hl Hx] Hat Hq Hto Hidx Hk. rewrite Forall_forall in He.
  split; cbn [scheduled events links]; [| |done|cbn; lia].
  - apply push_sorted; [done|]. intros x Hin. destruct (He x Hin) as (_ & H & _). cbn. lia.
  - apply Forall_forall. intros x. rewrite push_perm. intros [->|Hin]%elem_of_cons.
    + unfold event_ok. cbn. split_and!; [lia|lia|lia|done|done|done].
    + destruct (He x Hin) as (H1 & H2 & H3 & H4 & H5). unfold event_ok. cbn. split_and!; [lia|lia|lia|done|done|done].
Qed.

(** What scheduling leaves alone. *)
Definition same_net (s s' : t) : Prop :=
  now_us s' = now_us s /\ inboxes s' = inboxes s /\ links s' = links s /\ groups s' = groups s.

(** The segments of a write, one after the other. *)
Definition schedule_segments (at_us : N) (to : NodeId) (idx : nat) (from : NodeId) (segs : list bytes) (o : option t) : option t :=
  foldl (fun o seg => s ← o; schedule at_us to idx (EventKind.Data from seg) s) o segs.

Lemma schedule_all_wf at_us to idx from segs s : sim_wf s -> now_us s <= at_us <= u64_max ->
  seq s + lenN segs <= u64_max -> in_range s to -> in_range s from -> (idx < length (links s))%nat ->
  exists s', schedule_segments at_us to idx from segs (Some s) = Some s' /\ sim_wf s' /\ same_net s s'.
Proof.
  revert s. induction segs as [|seg segs IH]; intros s Hw Hat Hq Hto Hfrom Hidx; [by exists s|].
  rewrite lenN_cons in Hq. unfold schedule_segments. cbn [foldl mbind option_bind]. rewrite schedule_fits by lia.
  apply (IH (scheduled at_us to idx (EventKind.Data from seg) s)); try done; [|cbn; lia].
  apply scheduled_wf; try done. lia.
Qed.

Lemma drop_link_wf idx s : sim_wf s -> sim_wf (drop_link idx s).
Proof.
  intros Hw. destruct (drop_link_frame idx s) as (Hi & Hf & Hq & Hev & Hn & _).
  eapply sim_wf_after; [done|done|done|done|rewrite Hev; apply Hw| |rewrite Hn; apply Hw]. rewrite Hev, Hn. intros e He.
  split; [done|]. destruct Hw as [_ Hok _ _]. rewrite Forall_forall in Hok. by apply Hok.
Qed.

Lemma draw_loss_wf loss s : sim_wf s ->
  sim_wf (draw_loss loss s).1 /\ same_net s (draw_loss loss s).1 /\ seq (draw_loss loss s).1 = seq s.
Proof.
  intros Hw. unfold draw_loss. destruct (0 <? loss); [|by split]. destruct (SplitMix64.next_u64 (rng s)).
  split; [|by split_and!]. destruct Hw. by split.
Qed.

Lemma joins_in_range s from to idx l : sim_wf s -> list_find (Link.joins from to) (links s) = Some (idx, l) ->
  links s !! idx = Some l /\ in_range s from /\ in_range s to /\ (idx < length (links s))%nat /\
  (LinkConfig.kind (Link.config l) = Stream -> LinkConfig.mtu (Link.config l) <> 0%nat).
Proof.
  intros [_ _ Hl _] (El & Hj & _)%list_find_Some. rewrite Forall_lookup in Hl.
  destruct (Hl idx l El) as (Ha & Hb & Hm). split; [done|].
  split_and!; [destruct Hj as [[<- _]|[_ <-]]; done|destruct Hj as [[_ <-]|[<- _]]; done|by eapply lookup_lt_Some|done].
Qed.

(** The 64-bit room a write needs: its arrival is a time, and there is a
    sequence number for every octet and two more. *)
Definition room (from to : NodeId) (bs : bytes) (s : t) : Prop :=
  match list_find (Link.joins from to) (links s) with
  | Some (_, l) => now_us s + LinkConfig.latency_us (Link.config l) <= u64_max
  | None => True
  end /\ seq s + lenN bs + 2 <= u64_max.

(** [send] never aborts and schedules within the invariant. *)
Lemma send_spec from to bs s : sim_wf s -> grouped s -> room from to bs s ->
  exists s' r, send from to bs s = Some (s', r) /\ sim_wf s' /\ now_us s' = now_us s /\
    inboxes s' = inboxes s /\ groups s' = groups s /\ fixed <$> links s' = fixed <$> links s.
Proof.
  intros Hw Hg [Hlat Hseq]. unfold send. destruct (list_find _ (links s)) as [[idx l]|] eqn:Ef; [|by do 2 eexists].
  destruct (joins_in_range s from to idx l Hw Ef) as (El & Hfrom & Hto & Hidx & Hmtu).
  destruct (_ && _); [by do 2 eexists|].
  set (arrival := now_us s + LinkConfig.latency_us (Link.config l)) in *. rewrite (proj2 (N.ltb_ge _ _) Hlat).
  assert (Hat : now_us s <= arrival <= u64_max) by (unfold arrival in *; lia).
  destruct (draw_loss_wf (LinkConfig.loss_per_mille (Link.config l)) s Hw) as [Hw1 [(Hn & Hi & Hl & Hgr) Hq]].
  destruct (draw_loss _ s) as [s1 lost]. cbn [fst] in *. rewrite <- Hn in Hat.
  assert (Hfrom1 : in_range s1 from) by (unfold in_range; by rewrite Hi).
  assert (Hto1 : in_range s1 to) by (unfold in_range; by rewrite Hi).
  rewrite <- Hl in Hidx. rewrite <- Hq in Hseq.
  assert (Hg1 : grouped s1) by (unfold grouped; by rewrite Hgr, Hi).
  destruct (LinkConfig.kind (Link.config l)) eqn:Ek.
  - destruct (reachable_total s1 from to Hg1 Hfrom1 Hto1) as [r Hr]. rewrite Hr.
    set (o := if lost then Some false else Some r). assert (exists b, o = Some b) as [b ->] by (unfold o; destruct lost; eauto).
    cbn [mbind option_bind]. destruct b; cbn [negb].
    + rewrite decide_False by by apply Hmtu.
      pose proof (chunks_count (LinkConfig.mtu (Link.config l)) bs (Hmtu eq_refl)) as Hcount.
      destruct (schedule_all_wf arrival to idx from (chunks (LinkConfig.mtu (Link.config l)) bs) s1)
        as (s2 & E & Hw2 & Hn2 & Hi2 & Hl2 & Hgr2); try done; [lia|].
      unfold schedule_segments in E. rewrite E. do 2 eexists. split; [done|]. split_and!; congruence || done.
    + destruct (drop_link_frame idx s1) as (Hi2 & Hf2 & _ & _ & Hn2 & Hgr2 & _).
      apply (f_equal length) in Hf2 as Hlen. rewrite !length_fmap in Hlen.
      rewrite schedule_fits by (cbn; lia). cbn [mbind option_bind]. rewrite schedule_fits by (cbn; lia).
      cbn [mbind option_bind]. do 2 eexists. split; [done|].
      split; [|cbn; split_and!; try done; rewrite <- Hl; exact Hf2].
      apply scheduled_wf; [apply scheduled_wf; [by apply drop_link_wf|done|cbn; lia|done|by rewrite Hlen|done]
        |done|cbn; lia|done|cbn; by rewrite length_alter|done].
  - destruct (_ <? _)%nat; [do 2 eexists; split_and!; try done; by rewrite Hl|].
    destruct lost; [do 2 eexists; split_and!; try done; by rewrite Hl|]. rewrite schedule_fits by lia.
    do 2 eexists. split; [done|]. split; [apply scheduled_wf; try done; lia|]. cbn. by rewrite Hl.
Qed.

(** Without the room the clock overflows: a write on a link whose latency
    cannot be added to the present aborts. *)
Lemma send_overflows from to bs s idx l : list_find (Link.joins from to) (links s) = Some (idx, l) ->
  LinkConfig.kind (Link.config l) = Datagram \/ Link.up l = true ->
  u64_max < now_us s + LinkConfig.latency_us (Link.config l) -> send from to bs s = None.
Proof.
  intros Hf Hu Ho. unfold send. rewrite Hf.
  assert (bool_decide (LinkConfig.kind (Link.config l) = Stream) && negb (Link.up l) = false) as ->.
  { destruct Hu as [->| ->]; [done|apply andb_false_r]. }
  by rewrite (proj2 (N.ltb_lt _ _) Ho).
Qed.

(** ** Building the network *)

Lemma add_node_wf s : sim_wf s -> sim_wf (add_node s).1 /\ (groups s = None -> grouped (add_node s).1).
Proof.
  intros [Hs He Hl Hx]. split; [|cbn; unfold grouped; cbn; by intros ->].
  assert (Hr : forall x, in_range s x -> in_range (add_node s).1 x).
  { intros x. unfold in_range. cbn. rewrite length_app. cbn. lia. }
  split; [done| | |done]; (eapply Forall_impl; [done|]).
  - intros e ([H0 H1] & H2 & H3 & H4 & H5). unfold event_ok. split_and!; try done; [by apply Hr|].
    destruct (Event.kind e); [by apply Hr|done].
  - intros l (H1 & H2 & H3). split_and!; [by apply Hr|by apply Hr|done].
Qed.

Definition config_ok (c : LinkConfig.t) : Prop := LinkConfig.kind c = Stream -> LinkConfig.mtu c <> 0%nat.

Lemma connect_wf a b c s : sim_wf s -> in_range s a -> in_range s b -> config_ok c -> sim_wf (connect a b c s).
Proof.
  intros Hw Ha Hb Hc. pose proof Hw as [Hs He Hl Hwid]. unfold connect.
  destruct (list_find _ (links s)) as [[idx l]|] eqn:Ef.
  - destruct (joins_in_range s a b idx l Hw Ef) as (El & _ & _ & Hidx & _).
    split; cbn [events links set_links set_events]; [| | |done].
    + assert (Hsub : forall q, StronglySorted earlier q -> StronglySorted earlier (filter (fun e => Event.link e <> idx) q)).
      { induction 1 as [|x q Hq IH Hx]; [constructor|]. rewrite filter_cons. case_decide; [|done]. constructor; [done|].
        apply Forall_forall. rewrite Forall_forall in Hx. intros y [_ Hy]%list_elem_of_filter. by apply Hx. }
      by apply Hsub.
    + apply Forall_forall. intros e [_ Hin]%list_elem_of_filter. rewrite Forall_forall in He.
      destruct (He e Hin) as ([H0 H1] & H2 & H3 & H4 & H5). unfold event_ok. cbn. rewrite length_insert. done.
    + rewrite Forall_lookup in Hl. apply Forall_insert; [by apply Forall_lookup|].
      destruct (Hl idx l El) as (H1 & H2 & _). by split_and!.
  - split; cbn; [done| | |done].
    + eapply Forall_impl; [done|]. intros e ([H0 H1] & H2 & H3 & H4 & H5). unfold event_ok. cbn. rewrite length_app. cbn.
      split_and!; try done. lia.
    + apply Forall_app. split; [done|]. apply Forall_singleton. by split_and!.
Qed.

Lemma assign_spec g members o : Forall (fun m => m < length o)%nat members ->
  exists o', foldl (assign g) (Some o) members = Some o' /\ length o' = length o.
Proof.
  revert o. induction members as [|m ms IH]; intros o Hf; cbn [foldl]; [by eexists|].
  apply Forall_cons in Hf as [Hm Hms]. cbn [assign mbind option_bind]. rewrite decide_True by done.
  destruct (IH (<[m := Some g]> o)) as (o' & E & Hl); [by rewrite length_insert|].
  exists o'. split; [done|]. by rewrite Hl, length_insert.
Qed.

Lemma partition_spec gs s : Forall (Forall (in_range s)) gs ->
  exists assignment, partition gs s = Some (set_groups (Some assignment) s) /\ length assignment = length (inboxes s).
Proof.
  intros Hgs. unfold partition.
  assert (Hfold : forall (ps : list (nat * list NodeId)) o, length o = length (inboxes s) -> Forall (fun p => Forall (in_range s) p.2) ps ->
    exists o', foldl (fun o p => foldl (assign p.1) o p.2) (Some o) ps = Some o' /\ length o' = length (inboxes s)).
  { induction ps as [|[g ms] ps IH]; intros o Ho Hps; cbn [foldl]; [by eexists|].
    apply Forall_cons in Hps as [Hms Hps]. cbn [fst snd] in *.
    destruct (assign_spec g ms o) as (o1 & -> & Hl); [by rewrite Ho|]. apply IH; [congruence|done]. }
  destruct (Hfold (imap pair gs) (replicate (length (inboxes s)) None)) as (o' & -> & Hl).
  - by rewrite length_replicate.
  - apply Forall_lookup. intros i p. rewrite list_lookup_imap. destruct (gs !! i) as [ms|] eqn:Em; [|done].
    intros [= <-]. cbn. rewrite Forall_lookup in Hgs. by eapply Hgs.
  - by exists o'.
Qed.

(** ** Operations on a network *)

Inductive op : Type :=
  | AddNode | Connect (a b : NodeId) (config : LinkConfig.t) | Partition (gs : list (list NodeId)) | Heal
  | Send (from to : NodeId) (bs : bytes) | Step | RunUntilIdle | TakeInbox (node : NodeId).

Definition exec (o : op) (s : t) : option t :=
  match o with
  | AddNode => Some (add_node s).1
  | Connect a b c => Some (connect a b c s)
  | Partition gs => partition gs s
  | Heal => Some (heal s)
  | Send from to bs => fst <$> send from to bs s
  | Step => fst <$> step s
  | RunUntilIdle => run_until_idle s
  | TakeInbox node => fst <$> take_inbox node s
  end.

(** Node ids come from this network, stream links have a segment size, nodes
    are added while the network is whole, and a write has 64-bit room. *)
Definition valid (s : t) (o : op) : Prop :=
  match o with
  | AddNode => groups s = None
  | Connect a b c => in_range s a /\ in_range s b /\ config_ok c
  | Partition gs => Forall (Forall (in_range s)) gs
  | TakeInbox node => in_range s node
  | Send from to bs => room from to bs s
  | _ => True
  end.

Lemma last_time_le s : sim_wf s -> now_us s <= last_time s.
Proof.
  intros [_ He _ _]. unfold last_time. destruct (last (events s)) as [e|] eqn:E; [|lia].
  apply last_Some in E as [l E]. rewrite Forall_forall in He. apply (He e). rewrite E. set_solver.
Qed.

(** C38: the simulated network is sound: no operation on valid arguments aborts,
    time never runs backwards, and pending events stay sorted by arrival and
    then by scheduling, at or after the present, for nodes and links that
    exist, with times and sequence numbers below 2^64. An argument is valid
    when its node ids come from the network, a stream's segment size is not
    zero, nodes are added while the network is whole, and, for a write, the
    present plus the link's latency is below 2^64 and so is the sequence
    number plus the number of octets and two: [send] adds unchecked, and
    aborts or wraps without that room. *)
Theorem sim_invariant o s (Hw : sim_wf s) (Hg : grouped s) (Hv : valid s o) :
  exists s', exec o s = Some s' /\ sim_wf s' /\ grouped s' /\ now_us s <= now_us s'.
Proof.
  destruct o as [|a b c|gs| |from to bs| | |node]; cbn [exec valid] in *.
  - destruct (add_node_wf s Hw) as [Hw' Hg']. eexists. split; [done|]. split_and!; [done|by apply Hg'|done].
  - destruct Hv as (Ha & Hb & Hc). eexists. split; [done|].
    assert (E : groups (connect a b c s) = groups s /\ inboxes (connect a b c s) = inboxes s /\ now_us (connect a b c s) = now_us s)
      by (unfold connect; by destruct (list_find _ _) as [[]|]).
    destruct E as (Eg & Ei & En). split_and!; [by apply connect_wf|unfold grouped; by rewrite Eg, Ei|by rewrite En].
  - destruct (partition_spec gs s Hv) as (assignment & -> & Hl). eexists. split; [done|]. split_and!; [by destruct Hw|done|done].
  - eexists. split; [done|]. split_and!; [by destruct Hw|done|done].
  - destruct (send_spec from to bs s Hw Hg Hv) as (s' & r & -> & Hw' & Hn & Hi & Hgr & _). exists s'. split; [done|].
    split_and!; [done|unfold grouped; by rewrite Hgr, Hi|by rewrite Hn].
  - destruct (events s) as [|e rest] eqn:E.
    + unfold step. rewrite E. cbn. by eexists.
    + destruct (step_spec s e rest Hw Hg E) as (s' & -> & Hw' & Hg' & _ & Hn & _). exists s'. split; [done|].
      split_and!; [done|done|]. rewrite Hn. destruct Hw as [_ He _ _]. rewrite E in He. by apply Forall_cons in He as [[[? _] _] _].
  - destruct (run_fuel_spec (S (length (events s))) s Hw Hg) as (s' & E & Hw' & Hg' & _ & Hn & _); [lia|].
    exists s'. split_and!; [done|done|done|]. rewrite Hn. by apply last_time_le.
  - unfold take_inbox. destruct (lookup_lt_is_Some_2 (inboxes s) node Hv) as [inbox ->]. cbn. eexists. split; [done|].
    split_and!; [|unfold grouped; cbn; by rewrite length_insert|done].
    eapply (sim_wf_after s); try done; [cbn; by rewrite length_insert|apply Hw| |apply Hw].
    intros e He. split; [done|]. destruct Hw as [_ Hok _ _]. rewrite Forall_forall in Hok. by apply Hok.
Qed.

(** C39: the loop comes to rest: [run_until_idle] returns from any well-formed
    state, with no event left and the clock at the last one. *)
Theorem sim_terminates s (Hw : sim_wf s) (Hg : grouped s) :
  exists s', run_until_idle s = Some s' /\ events s' = [] /\ now_us s' = last_time s /\ sim_wf s' /\ grouped s'.
Proof.
  destruct (run_fuel_spec (S (length (events s))) s Hw Hg) as (s' & E & Hw' & Hg' & Hev & Hn & _); [lia|]. by exists s'.
Qed.

(** ** Delivery over a stream *)

(** The events of a segmented write. *)
Fixpoint data_events (at_us q : N) (to : NodeId) (idx : nat) (from : NodeId) (segs : list bytes) : list Event.t :=
  match segs with
  | [] => []
  | seg :: segs => Event.mk at_us (q + 1) to idx (EventKind.Data from seg) :: data_events at_us (q + 1) to idx from segs
  end.

Lemma push_last e q : Forall (fun x => Event.at_us x <= Event.at_us e /\ Event.seq x < Event.seq e) q -> push e q = q ++ [e].
Proof.
  induction 1 as [|x q [Ht Hs] _ IH]; cbn; [done|]. destruct (Event.cmp e x) eqn:E; [by rewrite IH| |by rewrite IH].
  apply cmp_Lt in E. unfold earlier in E. lia.
Qed.

Lemma schedule_all at_us to idx from segs s :
  Forall (fun x => Event.at_us x <= at_us /\ Event.seq x <= seq s) (events s) -> seq s + lenN segs <= u64_max ->
  schedule_segments at_us to idx from segs (Some s) =
    Some (mk (now_us s) (rng s) (inboxes s) (links s) (events s ++ data_events at_us (seq s) to idx from segs)
       (seq s + lenN segs) (groups s)).
Proof.
  revert s. induction segs as [|seg segs IH]; intros s Hf Hq; cbn [data_events].
  { unfold schedule_segments. cbn [foldl]. rewrite app_nil_r, N.add_0_r. by destruct s. }
  rewrite lenN_cons in *. unfold schedule_segments. cbn [foldl mbind option_bind].
  rewrite schedule_fits by lia. fold (schedule_segments at_us to idx from segs (Some (scheduled at_us to idx (EventKind.Data from seg) s))).
  assert (Hp : push (Event.mk at_us (seq s + 1) to idx (EventKind.Data from seg)) (events s) =
    events s ++ [Event.mk at_us (seq s + 1) to idx (EventKind.Data from seg)]).
  { apply push_last. eapply Forall_impl; [done|]. cbn. intros x [? ?]. lia. }
  rewrite IH; unfold scheduled; cbn [now_us rng inboxes links events seq groups]; rewrite ?Hp.
  - rewrite <- app_assoc. do 2 f_equal. lia.
  - apply Forall_app. split; [eapply Forall_impl; [done|]; cbn; intros x [? ?]; lia|].
    apply Forall_singleton. cbn. lia.
  - lia.
Qed.

(** The segments arrive in order while the link is up and the peer reachable. *)
Lemma run_data segs at_us q idx from to l s inbox fuel :
  events s = data_events at_us q to idx from segs -> links s !! idx = Some l -> Link.up l = true ->
  reachable from to s = Some true -> inboxes s !! to = Some inbox -> (length segs < fuel)%nat ->
  run_fuel fuel s = Some (mk (match segs with [] => now_us s | _ => at_us end) (rng s)
    (<[to := inbox ++ map (Delivery.Data from) segs]> (inboxes s)) (links s) [] (seq s) (groups s)).
Proof.
  revert q s inbox fuel. induction segs as [|seg segs IH]; intros q s inbox [|fuel] He Hl Hu Hr Hi Hf; cbn [length] in *; try lia;
    cbn [run_fuel data_events] in *; unfold step; rewrite He.
  - cbn. rewrite app_nil_r, list_insert_id by done. destruct s; cbn in *. by subst.
  - cbn [Event.at_us Event.kind Event.link Event.to]. set (s0 := set_now at_us (set_events _ s)).
    change (links s0) with (links s). rewrite Hl. cbn [mbind option_bind].
    change (reachable from to s0) with (reachable from to s). rewrite Hr. cbn [mbind option_bind].
    assert (Hd : deliver to (Delivery.Data from seg) s0 =
      Some (set_inboxes (<[to := inbox ++ [Delivery.Data from seg]]> (inboxes s)) s0)).
    { unfold deliver. change (inboxes s0) with (inboxes s). by rewrite Hi. }
    rewrite Hu. cbn [andb]. rewrite Hd. cbn [mbind option_bind].
    destruct (LinkConfig.kind (Link.config l)); cbn [mbind option_bind].
    all: rewrite (IH (q + 1) _ (inbox ++ [Delivery.Data from seg])); try done; try lia;
      [|cbn; apply list_lookup_insert_eq; by eapply lookup_lt_Some];
      cbn; rewrite list_insert_insert_eq, <- app_assoc; cbn; by destruct segs.
Qed.

(** A write on a lossless stream between reachable nodes, on a network at
    rest, is delivered: the peer's inbox receives the bytes in order, in
    segments no longer than the link's size, one latency later; nothing else
    changes. *)
Theorem sim_stream_delivers from to bs s idx l inbox (Hw : sim_wf s) (Hq : events s = [])
    (Hl : list_find (Link.joins from to) (links s) = Some (idx, l))
    (Hk : LinkConfig.kind (Link.config l) = Stream) (Hu : Link.up l = true)
    (Hloss : LinkConfig.loss_per_mille (Link.config l) = 0) (Hr : reachable from to s = Some true)
    (Hi : inboxes s !! to = Some inbox) (Hbs : bs <> []) (Hroom : room from to bs s) :
  exists s1 segs, send from to bs s = Some (s1, Ok tt) /\ concat segs = bs /\
    Forall (fun c => 0 < length c <= LinkConfig.mtu (Link.config l))%nat segs /\
    run_until_idle s1 = Some (mk (now_us s + LinkConfig.latency_us (Link.config l)) (rng s)
      (<[to := inbox ++ map (Delivery.Data from) segs]> (inboxes s)) (links s) [] (seq s + lenN segs) (groups s)).
Proof.
  destruct (joins_in_range s from to idx l Hw Hl) as (El & _ & _ & _ & Hmtu). specialize (Hmtu Hk).
  destruct (chunks_spec (LinkConfig.mtu (Link.config l)) bs Hmtu) as [Hc Hf].
  pose proof (chunks_count (LinkConfig.mtu (Link.config l)) bs Hmtu) as Hcount.
  destruct Hroom as [Hlat Hseq]. rewrite Hl in Hlat.
  set (segs := chunks (LinkConfig.mtu (Link.config l)) bs) in *. set (arrival := now_us s + LinkConfig.latency_us (Link.config l)).
  assert (Es : send from to bs s = Some (mk (now_us s) (rng s) (inboxes s) (links s)
      (data_events arrival (seq s) to idx from segs) (seq s + lenN segs) (groups s), Ok tt)).
  { unfold send. rewrite Hl, Hk, Hu, Hloss. cbn [negb andb bool_decide draw_loss].
    change (bool_decide (Stream = Stream) && false) with false. rewrite (proj2 (N.ltb_ge _ _) Hlat).
    change (draw_loss 0 s) with (s, false). cbn iota beta.
    rewrite Hr. cbn [mbind option_bind negb]. rewrite decide_False by done. fold segs arrival.
    fold (schedule_segments arrival to idx from segs (Some s)).
    rewrite schedule_all by (rewrite ?Hq; constructor || lia). cbn [mbind option_bind]. by rewrite Hq. }
  eexists _, segs. split; [exact Es|]. split; [done|]. split; [done|]. unfold run_until_idle. cbn [events].
  erewrite (run_data segs arrival (seq s) idx from to l); try done; cbn [now_us rng inboxes links events seq groups].
  - destruct segs; [|done]. by destruct Hbs.
  - assert (forall q, length (data_events arrival q to idx from segs) = length segs) as ->; [|lia].
    clear. induction segs; intros q; cbn; [done|]. by rewrite IHsegs.
Qed.

(** ** Losing and restoring a stream *)

Lemma send_down from to bs s idx l : list_find (Link.joins from to) (links s) = Some (idx, l) ->
  LinkConfig.kind (Link.config l) = Stream -> Link.up l = false -> send from to bs s = Some (s, Err SimError.LinkDown).
Proof. intros Hl Hk Hu. unfold send. by rewrite Hl, Hk, Hu. Qed.

(** Finding a link does not depend on whether it is up. *)
Lemma find_dropped from to s idx l : list_find (Link.joins from to) (links s) = Some (idx, l) ->
  list_find (Link.joins from to) (links (drop_link idx s)) = Some (idx, Link.set_up false l).
Proof.
  intros (El & Hj & Hmin)%list_find_Some. apply list_find_Some. cbn. split_and!.
  - by rewrite list_lookup_alter_eq, El.
  - exact Hj.
  - intros i y Ey Hi. rewrite list_lookup_alter_ne in Ey by lia. by eapply Hmin.
Qed.

Lemma step_down s at_us q to idx peer rest inbox :
  events s = Event.mk at_us q to idx (EventKind.LinkDown peer) :: rest -> inboxes s !! to = Some inbox ->
  step s = Some (mk at_us (rng s) (<[to := inbox ++ [Delivery.LinkDown peer]]> (inboxes s)) (links s) rest (seq s) (groups s), true).
Proof.
  intros He Hi. unfold step. rewrite He. cbn [Event.kind Event.to Event.at_us]. unfold deliver.
  change (inboxes (set_now at_us (set_events rest s))) with (inboxes s). by rewrite Hi.
Qed.

(** A stream loses connections, not bytes. Writing across a partition reports
    the link down and drops it; at rest, each end has been told once and
    nothing was delivered; every later write is refused, even when the
    partition has healed, until the pair is connected again, which forgets
    what was pending on that link and only that. *)
Theorem sim_stream_drops from to bs s idx l ibf ibt (Hw : sim_wf s) (Hq : events s = [])
    (Hl : list_find (Link.joins from to) (links s) = Some (idx, l))
    (Hk : LinkConfig.kind (Link.config l) = Stream) (Hu : Link.up l = true)
    (Hloss : LinkConfig.loss_per_mille (Link.config l) = 0) (Hr : reachable from to s = Some false)
    (Hne : from <> to) (Hf : inboxes s !! from = Some ibf) (Ht : inboxes s !! to = Some ibt)
    (Hroom : room from to bs s) :
  exists s1 s2, send from to bs s = Some (s1, Err SimError.LinkDown) /\ run_until_idle s1 = Some s2 /\
    inboxes s2 = <[from := ibf ++ [Delivery.LinkDown to]]> (<[to := ibt ++ [Delivery.LinkDown from]]> (inboxes s)) /\
    links s2 = links (drop_link idx s) /\ events s2 = [] /\
    (forall bs', send from to bs' (heal s2) = Some (heal s2, Err SimError.LinkDown)) /\
    (forall s3 c, links s3 = links s2 ->
       list_find (Link.joins from to) (links (connect from to c s3)) = Some (idx, Link.mk (Link.a l) (Link.b l) c true) /\
       forall e, e ∈ events (connect from to c s3) <-> e ∈ events s3 /\ Event.link e <> idx).
Proof.
  pose proof (find_dropped from to s idx l Hl) as Hd.
  set (arrival := now_us s + LinkConfig.latency_us (Link.config l)).
  set (e1 := Event.mk arrival (seq s + 1) to idx (EventKind.LinkDown from)).
  set (e2 := Event.mk arrival (seq s + 1 + 1) from idx (EventKind.LinkDown to)).
  set (links' := links (drop_link idx s)) in *.
  assert (Es : send from to bs s = Some (mk (now_us s) (rng s) (inboxes s) links' [e1; e2] (seq s + 1 + 1) (groups s),
      Err SimError.LinkDown)).
  { destruct Hroom as [Hlat Hseq]. rewrite Hl in Hlat.
    unfold send. rewrite Hl, Hk, Hu, Hloss. change (bool_decide (Stream = Stream) && negb true) with false.
    rewrite (proj2 (N.ltb_ge _ _) Hlat). change (draw_loss 0 s) with (s, false). cbn iota beta.
    rewrite Hr. cbn [mbind option_bind negb]. rewrite schedule_fits by (cbn; lia). cbn [mbind option_bind].
    rewrite schedule_fits by (cbn; lia). cbn [mbind option_bind]. unfold scheduled, drop_link. cbn.
    rewrite Hq. cbn [push]. fold arrival e1 e2.
    assert (Hc : Event.cmp e2 e1 = Gt).
    { unfold Event.cmp, e1, e2. cbn. rewrite N.compare_refl. apply N.compare_gt_iff. lia. }
    by rewrite Hc. }
  set (boxes := <[from := ibf ++ [Delivery.LinkDown to]]> (<[to := ibt ++ [Delivery.LinkDown from]]> (inboxes s))).
  eexists _, (mk arrival (rng s) boxes links' [] (seq s + 1 + 1) (groups s)). split; [exact Es|]. split.
  { unfold run_until_idle, e1, e2. cbn [events length run_fuel].
    erewrite step_down; [|reflexivity|exact Ht]. cbn [mbind option_bind rng inboxes links seq groups].
    erewrite step_down; [|reflexivity|cbn [inboxes]; by rewrite list_lookup_insert_ne]. done. }
  split_and!; [done|done|done| |].
  - intros bs'. apply (send_down from to bs' _ idx (Link.set_up false l)); [exact Hd|done|done].
  - intros s3 c E3. cbn [links] in E3. unfold connect. rewrite E3, Hd. cbn [links events set_links set_events]. split.
    + apply list_find_Some in Hd as (E & Hj & Hmin). apply list_find_Some. split_and!.
      * rewrite list_lookup_insert_eq; [done|by eapply lookup_lt_Some].
      * exact Hj.
      * intros i y Ey Hi. rewrite list_lookup_insert_ne in Ey by lia. by eapply Hmin.
    + intros e. rewrite list_elem_of_filter. tauto.
Qed.

(** ** A node added under a partition *)

Lemma find_new s a b c : list_find (Link.joins a b) (links s) = None ->
  list_find (Link.joins a b) (links (connect a b c s)) = Some (length (links s), Link.mk a b c true).
Proof.
  intros Hn. unfold connect. rewrite Hn. cbn. rewrite list_find_app_r by done. cbn.
  by rewrite decide_True by (by left).
Qed.

(** C40: a node that joins while the network is partitioned belongs to no group,
    and the documentation of [partition] says such a node reaches nobody;
    instead the first write on its lossless stream aborts, since the group
    table was sized when the partition was made. *)
Theorem sim_late_node gs s s1 b bs c (Hw : sim_wf s) (Hp : partition gs s = Some s1) (Hgs : Forall (Forall (in_range s)) gs)
    (Hb : in_range s b) (Hk : LinkConfig.kind c = Stream) (Hloss : LinkConfig.loss_per_mille c = 0) :
  let '(s2, node) := add_node s1 in
  node = length (inboxes s) /\ send node b bs (connect node b c s2) = None.
Proof.
  destruct (partition_spec gs s Hgs) as (assignment & E & Hl). rewrite Hp in E. injection E as ->.
  cbn [add_node]. change (inboxes (set_groups (Some assignment) s)) with (inboxes s). split; [done|]. set (node := length (inboxes s)). set (s2 := set_inboxes _ _).
  assert (Hnone : list_find (Link.joins node b) (links s2) = None).
  { apply list_find_None. destruct Hw as [_ _ Hlk _]. eapply Forall_impl; [exact Hlk|].
    intros l (Ha & Hb' & _). unfold in_range, Link.joins, node in *. lia. }
  unfold send. rewrite (find_new s2 node b c Hnone). cbn [Link.config Link.up]. rewrite Hk, Hloss.
  change (bool_decide (Stream = Stream) && negb true) with false. destruct (u64_max <? _); [done|].
  change (draw_loss 0 (connect node b c s2)) with (connect node b c s2, false). cbn iota beta.
  unfold reachable. assert (Hg : groups (connect node b c s2) = Some assignment) by (unfold connect; by rewrite Hnone).
  rewrite Hg. rewrite (lookup_ge_None_2 assignment node) by (rewrite Hl; unfold node; cbn; lia). done.
Qed.

(** ** Concrete instances *)

(** The reference outputs of the generator for seed 0. *)
Example splitmix64_reference :
  let '(s, x) := SplitMix64.next_u64 0 in
  let '(s, y) := SplitMix64.next_u64 s in
  let '(_, z) := SplitMix64.next_u64 s in
  (x, y, z) = (0xE220A8397B1DCDAF, 0x6E789E6AA1B965F4, 0x06C45D188009454F).
Proof. vm_compute. reflexivity. Qed.

Definition stream_config : LinkConfig.t := LinkConfig.mk 5000 2 Stream 0.

(** Two nodes joined by a stream. *)
Definition sample_net : t := connect 0 1 stream_config (add_node (add_node (new 1)).1).1.

Lemma sample_net_wf : sim_wf sample_net.
Proof. split; [constructor|constructor| |by vm_compute]. apply Forall_singleton. split_and!; [unfold in_range; cbn; lia..|done]. Qed.

Definition sample_bytes : bytes := [byte_of 1; byte_of 2; byte_of 3].

Lemma sample_room : room 0 1 sample_bytes sample_net.
Proof. split; vm_compute; discriminate. Qed.

Definition sample_sent : t := match send 0 1 sample_bytes sample_net with Some (s, _) => s | None => sample_net end.

Lemma sample_sent_wf : sim_wf sample_sent /\ grouped sample_sent.
Proof.
  destruct (send_spec 0 1 sample_bytes sample_net sample_net_wf I sample_room) as (s' & r & E & Hw & _ & Hi & Hg & _).
  unfold sample_sent. rewrite E. split; [exact Hw|]. unfold grouped. rewrite Hg. exact I.
Qed.

(** A write and the first step after it. *)
Lemma sim_invariant_witness :
  (exists s', exec (Send 0 1 sample_bytes) sample_net = Some s' /\ sim_wf s' /\ lenN (events s') = 2) /\
  (exists s', exec Step sample_sent = Some s' /\ sim_wf s' /\ lenN (events s') = 1).
Proof.
  split.
  - destruct (sim_invariant (Send 0 1 sample_bytes) sample_net sample_net_wf I sample_room) as (s' & E & Hw & _).
    exists s'. split; [exact E|]. split; [exact Hw|].
    assert (Hl : lenN <$> (events <$> exec (Send 0 1 sample_bytes) sample_net) = Some 2) by (vm_compute; reflexivity).
    rewrite E in Hl. injection Hl as Hl. exact Hl.
  - destruct (sim_invariant Step sample_sent (proj1 sample_sent_wf) (proj2 sample_sent_wf) I) as (s' & E & Hw & _).
    exists s'. split; [exact E|]. split; [exact Hw|].
    assert (Hl : lenN <$> (events <$> exec Step sample_sent) = Some 1) by (vm_compute; reflexivity).
    rewrite E in Hl. injection Hl as Hl. exact Hl.
Defined.

(** The overflow is within reach: with the largest latency a second write,
    after the first has been delivered, cannot be timed. *)
Example latency_overflows :
  let s := connect 0 1 (LinkConfig.mk u64_max 2 Stream 0) (add_node (add_node (new 1)).1).1 in
  (s ← fst <$> send 0 1 [byte_of 1] s; s ← run_until_idle s; send 0 1 [byte_of 2] s) = None.
Proof. vm_compute. reflexivity. Qed.

Lemma sim_terminates_witness : exists s', run_until_idle sample_sent = Some s' /\ events s' = [] /\ now_us s' = 5000.
Proof.
  destruct (sim_terminates sample_sent (proj1 sample_sent_wf) (proj2 sample_sent_wf)) as (s' & E & He & Hn & _).
  exists s'. split; [exact E|]. split; [exact He|]. rewrite Hn. vm_compute. reflexivity.
Defined.

Lemma sim_stream_delivers_witness :
  exists s1 segs, send 0 1 sample_bytes sample_net = Some (s1, Ok tt) /\ concat segs = sample_bytes /\
    now_us <$> run_until_idle s1 = Some 5000.
Proof.
  destruct (sim_stream_delivers 0 1 sample_bytes sample_net 0 (Link.mk 0 1 stream_config true) [] sample_net_wf)
    as (s1 & segs & E & Hc & _ & Hr); try reflexivity; [discriminate|exact sample_room|].
  exists s1, segs. split; [exact E|]. split; [exact Hc|]. rewrite Hr. reflexivity.
Defined.

(** The two nodes in different groups. *)
Definition split_net : t := match partition [[0%nat]; [1%nat]] sample_net with Some s => s | None => sample_net end.

Lemma sim_stream_drops_witness :
  exists s1 s2, send 0 1 sample_bytes split_net = Some (s1, Err SimError.LinkDown) /\ run_until_idle s1 = Some s2 /\
    inboxes s2 = [[Delivery.LinkDown 1]; [Delivery.LinkDown 0]].
Proof.
  destruct (sim_stream_drops 0 1 sample_bytes split_net 0 (Link.mk 0 1 stream_config true) [] [])
    as (s1 & s2 & E & Er & Hi & _); try reflexivity; [split; [constructor|constructor| |by vm_compute]|discriminate|split; vm_compute; discriminate|].
  - apply Forall_singleton. split_and!; [vm_compute; lia..|done].
  - exists s1, s2. split; [exact E|]. split; [exact Er|]. rewrite Hi. reflexivity.
Defined.

Lemma sim_late_node_witness :
  (add_node split_net).2 = 2%nat /\ send 2 1 sample_bytes (connect 2 1 stream_config (add_node split_net).1) = None.
Proof.
  exact (sim_late_node [[0%nat]; [1%nat]] sample_net split_net 1 sample_bytes stream_config sample_net_wf eq_refl
    ltac:(repeat constructor; unfold in_range; cbn; lia) ltac:(unfold in_range; cbn; lia) eq_refl eq_refl).
Defined.
